(* ===== verification/_CoqProject ===== *)
-Q . S2P
Prelude.v
DiffCodec.v
Pages.v
PageLists.v
PageWalk.v
PageSets.v
State.v
Rpc.v
Twins.v
Diffs.v
Interval.v
Faults.v
Lock.v
Repo.v
Barrier.v
Sched.v
Exit.v
Sigio.v
Malloc.v
Mmap.v
Startup.v
Uber.v
Chars.v
Registro.v
Programs.v
Shared.v
RayHeap.v
RayPool.v
RayTrace.v
Float32.v
Gauss.v
GaussRows.v
GaussRun.v
GaussCheck.v
Suma.v
SumaRun.v
SumaTotal.v
Arrays.v
Qs.v
QsWorkers.v
Is.v
IsShared.v
TspHeap.v
Tsp.v
TspVisit.v
TspSolve.v
ReadTsp.v
IntervalWire.v
IntervalEffect.v
IntervalCreate.v
Untwin.v
LockProtocol.v
LockRefine.v
Frames.v
Requests.v
Allocator.v
CondQueue.v
DiffOrder.v
Coherence.v
Acquire.v
PageFetch.v
DiffService.v
Handshake.v
Departures.v
BarrierTimes.v
Repossession.v
