(* ===== verification/Prelude.v ===== *)
(** * TreadMarks, the distributed shared memory system of [src/Tmk]

    The repository is the material of a course on distributed systems.  Its
    own program logic in C is TreadMarks, a software distributed shared memory
    with lazy release consistency and multiple writers ([src/Tmk/src/*.c],
    [src/Tmk/src/Tmk.h], [src/Tmk/include/Tmk.h]); this library models it as
    it is built for [i386_linux2]: 32-bit integers and pointers, little
    endian, UDP sockets, no threads.  Five of its benchmarks have a logic of
    their own and are modelled too: quicksort, integer sort, the travelling
    salesman, Gaussian elimination, and of the ray tracer the heap and the
    pools of work ([src/Tmk/apps/qs_c], [is_c], [tsp_c], [gauss_c],
    [raytrace_c]); and so is the course's program that adds up a shared array
    ([src/codigo/suma_tmk.c]).  Of the exercises, two servers on RPC that
    assign vehicles to passengers ([src/Practica02], [src/Practica02_2]) are
    modelled in Uber, and the client and server that register students over a
    socket ([src/Practica01]) in Registro.

    ** How the program works

    Every process has a copy of the shared pages.  A page is write-protected
    until its first write, when the fault handler copies it to a twin
    ([segv.c]) and puts it in the list of dirty pages ([page.c]).  When a
    process synchronises it ends its interval: the dirty pages become write
    notices ([interval.c]).  Lock grants, barrier departures and forks carry
    the intervals the receiver lacks ([lock.c], [barrier.c], [sched.c]), which
    invalidate its pages; a fault on an invalid page asks the writers for the
    differences between page and twin and applies them ([diff.c]).  When the
    heaps of intervals or diffs are full, the next barrier discards all of it
    ([repo.c]).  Requests arrive by [SIGIO] and are dispatched by [sigio.c].
    [sh_malloc.c] allocates shared memory, under a lock of its own.

    ** Files of the library

    - Prelude: machine integers, the monad [M] of state, failure and waiting,
      its Hoare triples ([triple], and [runs] for runs that must return) and
      frames, [for_each].
    - DiffCodec: the encoding of [Tmk_diff_create] and [diff_apply].
    - Pages, PageLists, PageWalk, PageSets: [page_array_] and the two lists
      threaded through it ([Tmk_page_inval_merge], [Tmk_page_dirty_merge],
      [Tmk_page_inval_perform]), and what they represent: two disjoint sets.
    - State: the variables of a process as one record [node], the messages
      ([struct req_*] of [Tmk.h]) and the surroundings of a process: [n_events]
      is what [recv] and the signals will deliver, [n_out] what has been sent.
    - Rpc: the send, wait and retransmit loop that every request uses; what a
      signal does is the class [Signals], and Sigio gives its instance.
    - Twins, Diffs, Interval, Faults, Lock, Repo, Barrier, Sched, Exit, Sigio,
      Malloc, Mmap, Startup: the operations and request handlers of
      [segv.c], [diff.c], [interval.c], [page.c] and [segv.c], [lock.c],
      [repo.c], [barrier.c], [sched.c], [exit.c] and [distribute.c], [sigio.c],
      [sh_malloc.c], [mmap.c], [startup.c] with [open_udp.c] and [timeout.c].
      A definition has the name of the C function; parts of long functions
      have names of their own.
    - Uber: the ride services, definitions and theorems: Module [Estructura]
      with [Viajes] ([estructura_server.c]), Module [Servidor] with [Primero]
      ([UBER_Servidor.c]).
    - Chars: classes of characters and decimal numbers, as the parsers use
      them.  Registro: [clienteTCPCodificar.c] and [servidorTCPDecodificar.c].
      ReadTsp: [READ_TSP.C].
    - Arrays: arrays and changes that permute a part of them, for the
      benchmarks.  Qs: [QS.C] in one process, partitioning and the two sorts of
      a part; QsWorkers: the shared stack of parts and the processes as a step
      relation.  Is: [is.c] in one process, the generator and the ranking;
      IsShared: the ranking in several processes.  TspHeap: the priority queue
      of [PQ.C] for any order; Tsp: [TOURS.C] and [calc_bound]; TspVisit:
      [recursive_solve] and [visit_nodes] of [SOLVE.C]; TspSolve: splitting in
      [PQ.C], [Worker] and [main] of [TSP.C].  Each of these files has its
      definitions first, then its theorems.
    - Programs: what the library is for its programs, shared memory, locks,
      barriers and output: processes as trees of these operations, systems of
      processes as a step relation, an executable scheduler, and the rules for
      phases in which processes do not disturb each other.  Shared: the rule for processes that share memory under locks,
      with an invariant and a local state of every process.  RayHeap:
      [MEMORY.C], word by word.  RayPool: the pools of [WORKPOOL.C] over any
      heap (class [Heap]).  RayTrace: the processes that take jobs and trace
      them, on Programs and Shared, and the instance [ray_heap].  Float32: the type
      [float].  Gauss: [gauss.c]; GaussRows: the elimination as a function, and
      what the loops do to rows; GaussRun: all processes; GaussCheck: the
      verification at the end.  Suma: [suma_tmk.c] with the part that
      [Tmk_ejems/sumaArrtmk.c] shares; SumaRun: its points and their steps;
      SumaTotal: the invariant of all processes.
    - LockProtocol: the lock protocol of all processes together, an abstract
      step relation; LockRefine: the operations of Lock are its steps.
    - IntervalWire, IntervalEffect, IntervalCreate, Untwin, DiffOrder,
      Coherence, PageFetch, DiffService, Departures, BarrierTimes,
      Repossession, CondQueue, Frames, Requests, Handshake, Allocator: the
      theorems about the components, with the predicates they need; Frames has
      the class of relations that every handler keeps.  Acquire: the
      components put together, from a release through the acquire to the fault
      that fetches the diff.

    ** What the theorems show

    - Consistency: what a process writes before it releases a lock is what
      the next holder reads, through the interval that the token carries, the
      invalidations at the acquire, the fault and the writer's diff.
    - Diffs: applying a diff to the twin gives the page; to another copy,
      exactly the modified words; diffs of disjoint modifications commute; any
      message leaves a page of the same size; the size of a diff is bounded;
      with pages of 32768 bytes a diff can be lost.
    - Pages: every interleaving of the merges into the two lists, which share
      their links, keeps both lists right; performing the invalidations
      removes all access from exactly the pages merged.
    - Intervals: ending an interval names exactly the dirty pages; a message
      of intervals is read as it was written, and has exactly the effect of
      the intervals that were new; a modified page that is invalidated keeps
      its modifications as a diff.
    - Faults: the first write makes a twin and a dirty page, without a
      message; the first read of a page fetches a copy and leaves the owner's
      write-protected; a read fault on an old copy fetches the writer's diff,
      through the writer's handler and back; missing diffs are requested
      completely, from processes that have them, and applied in an order that
      respects causality; what a server sends for a request, in as many
      messages as it takes, is what the requester applies.
    - Locks: mutual exclusion, no lost request, no deadlock and bounded
      forwarding in the protocol, and refinement of it by the C operations;
      the queue of a condition variable is served in order.
    - Startup: the processes connect in pairs without a circular wait.
    - Barriers: all departures follow all arrivals and agree on repossession;
      they are written when the manager has all intervals of all arrivals, and
      leaving a barrier joins the vector times.
    - Repossession: the processes decide alone and agree: the manager that all
      name keeps a copy of the page, and a page somebody takes as private is
      nobody else's.
    - Requests: a request is handled as new once; the handler drains the
      sockets; sequence numbers are unique until they wrap, and what happens
      then.
    - Allocator: everything allocated is disjoint, inside the shared memory
      and aligned; allocation ends; what is freed is found again; and where
      32-bit sizes, page alignment and the end of the memory go wrong.
    - Quicksort: the processes never work on overlapping parts, never block
      each other, and when one leaves the array is sorted.
    - Integer sort: the generator's [double]s are exact and its keys in range;
      one process and several rank all keys in order; the second ranking, and
      the first key of a segment, are wrong.
    - Travelling salesman: the queue serves the best entry; the lower bound is
      one; the search of a tour is exhaustive; the program ends, and its answer
      is the length of the tour it reports, the shortest one if no tour is
      split; the test in [split_tour] can lose the shortest one.
    - Gaussian elimination: the parallel program has no data race and no
      deadlock, ends, and computes what one process would, for every matrix;
      its own verification counts no errors, the arithmetic being exact.
    - Sum of an array: the turns work, although [turn] is read while it is
      written; every execution ends and prints the elements in order and then
      their sum.
    - Ray tracer: in whatever order pieces are allocated, written and
      freed, they lie in the heap, disjoint and aligned, a request fails only
      when no free node is large enough, and when all is freed the heap is one
      node again (resizing a piece can lose the list of free nodes); every
      pixel of the screen is traced exactly once, however the processes take
      turns and steal, without deadlock.
    - Parsers: the file of a travelling salesman is read as it was written;
      the server of the registrations records what the client was given, and
      the client reads the number of requests.
    - Ride services: the first server assigns the nearest free vehicle and
      frees it where the trip ended; the second takes the first free one.

    ** Conventions and bounds

    [Ok] is a result, [Exit] the end of the process with a message
    ([Tmk_errexit], [Tmk_perrexit], a failed [assert]), [Undef] an access the
    C program must not make, and [Block] a wait for which no event is left:
    the events of a run are a finite list, so a run that is still waiting when
    they are used up is [Block], and theorems about such operations speak of
    the runs that return.  Pages hold 32-bit words, messages of intervals and
    diffs 16-bit halves.  Loops have fuel: [list_fuel]
    ([NPAGES]) for the page lists, three turns for [while (page->twin)],
    [waitq_fuel] (one more than [NPROCS]) for the queues, the number of waiting
    datagrams and one for [sigio_handler], two turns for the search of
    [Tmk_malloc], 60 for [sh_resize] and 56 for the buckets, the length of the
    array for the requests of diffs; for each there is a theorem above that the
    loop ends within it.  The benchmarks' loops have the size
    of the part as fuel ([Qs]) or the slots of the queue ([TspHeap]);
    [visit_nodes] has the number of cities, and the loops of [TspSolve] have
    [(TspSize + 1) ^ TspSize], which bounds the tours that can be made.
    The walks over the heap of the ray tracer have the number of nodes that fit
    ([node_turns]), the loops over the screen its width and height, and its
    processes the number of jobs and of pixels; a loop of the C program that
    does not end is [Block].  A request of Registro arrives in one piece.  The
    status of a pool is read without its lock in [RayTrace], as in
    [WORKPOOL.C]; an old value only costs a turn of the lock.  The
    quicksort processes take turns in any order, with the work on a part as one
    step, because parts are disjoint; the processes of [IsShared] take turns
    between barriers in a fixed order, because they write different counters;
    [TspSolve] is one process.  The programs on Programs have no fuel: a process
    is a finite tree, every operation on shared memory is a step, and memory is
    sequentially consistent, which the library gives to programs without races
    (Coherence, Acquire, Departures), and to the race on [turn] because a word
    is written by one process at a time; [gauss.c] is free of races by theorem.  The sums of weights fit an [int], and [conn] is
    used bit by bit.  The allocator works on the view of the process that holds
    its lock.  A diff is kept with its address, which
    decides how [Tmk_diff_sigio_handler] gathers it, but the memory of the
    diff heaps is not overwritten while a diff is live.  The ride services
    compare and truncate distances that are square roots in [double]s; they are
    modelled by their squares, exactly for coordinates up to [2 ^ 25] apart,
    and what [rand] returns is an argument.

    ** Not modelled

    The creation of processes ([start_process] with [rexec] and [rsh]), the
    options of sockets, the licence key, and the formatting of statistics are
    system calls or output.  [merge_sort] of [page.c] is compiled under AIX
    only; [mpl.c], [open_mpl.c], [open_atm.c], [ll.c] and [timestamp.c] are not
    compiled on Linux; [fort_if.c] forwards calls.  The loads that preload
    caches, debugging output and the time spent in acquires have no effect on
    the state.  The memory behind the Fortran common block is [n_conf].  The
    other benchmarks and examples of [src/Tmk] (numerical kernels and tests),
    the allocation and distribution with which [gauss.c] and [suma_tmk.c] begin,
    the opening of the file of the travelling salesman and what its other
    processes do to the minimum during a search, the repetitions in [main] of
    [is.c], the clients and stubs of the ride services
    and their earlier version [servidor.c], and the other exercises with
    sockets and RPC (the rest of [src/Practica01], [src/Sockets], [src/hola],
    [src/rpc], the rest of [src/codigo]) are clients or input and output around
    generated stubs.  Of the ray tracer, the tracing of a pixel (arithmetic on
    [double]s and the traversal of the scene), the reading of scenes, and of
    [MEMORY.C] the wrappers that count ([ObjectMalloc], [LocalMalloc]) are left
    out.
    [src/Practica03] is third-party code. *)
From stdpp Require Export base tactics list list_numbers numbers gmap strings fin_maps.
#[export] Set Default Goal Selector "!".

(** ** Machine integers *)
Definition u16 (z : Z) : Z := (z `mod` 65536)%Z.
Definition s16 (z : Z) : Z := ((z + 32768) `mod` 65536 - 32768)%Z.
Definition u32 (z : Z) : Z := (z `mod` 4294967296)%Z.
Definition s32 (z : Z) : Z := ((z + 2147483648) `mod` 4294967296 - 2147483648)%Z.

(** A value that fits an [unsigned short], an [unsigned]. *)
Definition is_u16 (z : Z) : Prop := (0 <= z < 65536)%Z.
Definition is_u32 (z : Z) : Prop := (0 <= z < 4294967296)%Z.

Create HintDb tmk.
Create Rewrite HintDb tmk.

Lemma u16_small z : is_u16 z -> u16 z = z.
Proof. unfold is_u16, u16. intros. apply Z.mod_small. lia. Qed.

Lemma u16_range z : is_u16 (u16 z).
Proof. unfold is_u16, u16. pose proof (Z.mod_pos_bound z 65536). lia. Qed.

Lemma u32_small z : is_u32 z -> u32 z = z.
Proof. unfold is_u32, u32. intros. apply Z.mod_small. lia. Qed.

Lemma u32_range z : is_u32 (u32 z).
Proof. unfold is_u32, u32. pose proof (Z.mod_pos_bound z 4294967296). lia. Qed.

Lemma s16_small z : (-32768 <= z < 32768)%Z -> s16 z = z.
Proof. unfold s16. intros. rewrite Z.mod_small; lia. Qed.

Lemma s32_small z : (-2147483648 <= z < 2147483648)%Z -> s32 z = z.
Proof. unfold s32. intros. rewrite Z.mod_small; lia. Qed.

Lemma s16_of_high z : (32768 <= z < 65536)%Z -> s16 z = (z - 65536)%Z.
Proof.
  unfold s16. intros. replace (z + 32768)%Z with (z - 32768 + 1 * 65536)%Z by lia.
  rewrite Z.mod_add by lia. rewrite Z.mod_small; lia.
Qed.

#[export] Hint Rewrite u16_small u32_small s16_small using (unfold is_u16, is_u32 in *; lia) : tmk.
#[export] Hint Resolve u16_range u32_range : tmk.

(** ** Results and the state monad

    [Exit] is a call of [Tmk_errexit], [Tmk_perrexit] or [exit]; [Undef] is
    undefined behaviour of C (a NULL dereference, an access outside an
    object); [Block] says that the process is still waiting for an event that
    the environment has not delivered. *)
Inductive res (A : Type) : Type :=
  | Ok (a : A)
  | Exit (why : string)
  | Undef
  | Block.
Arguments Ok {A} _.
Arguments Exit {A} _.
Arguments Undef {A}.
Arguments Block {A}.

Definition M (S A : Type) : Type := S -> res (A * S).

#[export] Instance M_ret {S} : MRet (M S) := fun A a s => Ok (a, s).
#[export] Instance M_bind {S} : MBind (M S) := fun A B f m s =>
  match m s with
  | Ok (a, s') => f a s'
  | Exit w => Exit w
  | Undef => Undef
  | Block => Block
  end.

Definition get {S} : M S S := fun s => Ok (s, s).
Definition gets {S A} (f : S -> A) : M S A := fun s => Ok (f s, s).
Definition modify {S} (f : S -> S) : M S unit := fun s => Ok (tt, f s).
Definition exit_with {S A} (w : string) : M S A := fun _ => Exit w.
Definition undef {S A} : M S A := fun _ => Undef.
Definition block {S A} : M S A := fun _ => Block.
Definition skip {S} : M S unit := fun s => Ok (tt, s).

(** [when b m]: an [if] without an [else]. *)
Definition when {S} (b : bool) (m : M S unit) : M S unit := if b then m else skip.

(** [lift_opt o]: a partial read; C would touch memory outside the object. *)
Definition lift_opt {S A} (o : option A) : M S A :=
  match o with Some a => mret a | None => undef end.

Fixpoint for_each {S A} (f : A -> M S unit) (l : list A) : M S unit :=
  match l with
  | [] => skip
  | x :: l' => f x;; for_each f l'
  end.

(** ** A Hoare logic for the monad

    [triple P m Q]: from a state satisfying [P], [m] has no undefined
    behaviour, and if it returns a value then [Q] holds of the value and the
    new state.  (Exiting or still waiting is allowed: what a theorem claims
    about termination is always stated separately, as an equation.) *)
Definition triple {S A} (P : S -> Prop) (m : M S A) (Q : A -> S -> Prop) : Prop :=
  forall s, P s ->
    match m s with
    | Ok (a, s') => Q a s'
    | Undef => False
    | Exit _ | Block => True
    end.

Section Hoare.
Context {S : Type}.

Lemma triple_ret {A} (P : S -> Prop) (a : A) (Q : A -> S -> Prop) :
  (forall s, P s -> Q a s) -> triple P (mret a) Q.
Proof. intros H s Hs. simpl. auto. Qed.

Lemma triple_bind {A B} (P : S -> Prop) (m : M S A) (R : A -> S -> Prop)
    (f : A -> M S B) (Q : B -> S -> Prop) :
  triple P m R -> (forall a, triple (R a) (f a) Q) -> triple P (m ≫= f) Q.
Proof.
  intros Hm Hf s Hs. specialize (Hm s Hs). unfold mbind, M_bind.
  destruct (m s) as [[a s']| | |]; auto. apply Hf. done.
Qed.

Lemma triple_conseq {A} (P P' : S -> Prop) (m : M S A) (Q Q' : A -> S -> Prop) :
  triple P m Q -> (forall s, P' s -> P s) -> (forall a s, Q a s -> Q' a s) ->
  triple P' m Q'.
Proof.
  intros Hm HP HQ s Hs. specialize (Hm s (HP _ Hs)).
  destruct (m s) as [[a s']| | |]; auto.
Qed.

Lemma triple_gets {A} (P : S -> Prop) (f : S -> A) (Q : A -> S -> Prop) :
  (forall s, P s -> Q (f s) s) -> triple P (gets f) Q.
Proof. intros H s Hs. simpl. auto. Qed.

Lemma triple_get (P : S -> Prop) (Q : S -> S -> Prop) :
  (forall s, P s -> Q s s) -> triple P get Q.
Proof. intros H s Hs. simpl. auto. Qed.

Lemma triple_modify (P : S -> Prop) (f : S -> S) (Q : unit -> S -> Prop) :
  (forall s, P s -> Q tt (f s)) -> triple P (modify f) Q.
Proof. intros H s Hs. simpl. auto. Qed.

Lemma triple_exit {A} (P : S -> Prop) w (Q : A -> S -> Prop) :
  triple P (exit_with w) Q.
Proof. intros s Hs. simpl. done. Qed.

Lemma triple_block {A} (P : S -> Prop) (Q : A -> S -> Prop) :
  triple P block Q.
Proof. intros s Hs. simpl. done. Qed.

Lemma triple_skip (P : S -> Prop) (Q : unit -> S -> Prop) :
  (forall s, P s -> Q tt s) -> triple P skip Q.
Proof. intros H s Hs. simpl. auto. Qed.

Lemma triple_when (P : S -> Prop) (b : bool) (m : M S unit) (Q : unit -> S -> Prop) :
  (b = true -> triple P m Q) -> (b = false -> forall s, P s -> Q tt s) ->
  triple P (when b m) Q.
Proof. intros H1 H2. destruct b; simpl; [auto | apply triple_skip; auto]. Qed.

Lemma triple_for_each {A} (I : S -> Prop) (f : A -> M S unit) (l : list A) :
  (forall x, x ∈ l -> triple I (f x) (fun _ => I)) ->
  triple I (for_each f l) (fun _ => I).
Proof.
  induction l as [|x l IH]; intros H; simpl.
  - apply triple_skip. auto.
  - eapply (triple_bind _ _ (fun _ => I)).
    + apply H. left.
    + intros a. apply IH. intros y Hy. apply H. by right.
Qed.
End Hoare.

(** [m] returns from [s] with [Q], or ends the process with a message in [E];
    it neither does what is undefined nor waits for ever. *)
Definition runs {S A} (E : string -> Prop) (m : M S A) (s : S) (Q : A -> S -> Prop) : Prop :=
  match m s with Ok (a, s') => Q a s' | Exit w => E w | _ => False end.

Section Runs.
Context {S : Type} (E : string -> Prop).

Lemma runs_ok {A} (m : M S A) s a s' (Q : A -> S -> Prop) : m s = Ok (a, s') -> Q a s' -> runs E m s Q.
Proof. unfold runs. by intros ->. Qed.

Lemma runs_bind {A B} (m : M S A) (f : A -> M S B) s (Q : B -> S -> Prop) :
  runs E m s (fun a s' => runs E (f a) s' Q) -> runs E (m ≫= f) s Q.
Proof. unfold runs, mbind, M_bind. by destruct (m s) as [[a s']| | |]. Qed.

Lemma runs_mono {A} (m : M S A) s (Q Q' : A -> S -> Prop) : (forall a s', Q a s' -> Q' a s') -> runs E m s Q -> runs E m s Q'.
Proof. unfold runs. intros H. destruct (m s) as [[a s']| | |]; [apply H|done..]. Qed.

(** A loop keeps an invariant that may speak of the number of turns. *)
Lemma runs_for_each {A} (f : A -> M S unit) (l : list A) (I : nat -> S -> Prop) s :
  I 0%nat s -> (forall k x s, l !! k = Some x -> I k s -> runs E (f x) s (fun _ s' => I (Datatypes.S k) s')) ->
  runs E (for_each f l) s (fun _ s' => I (length l) s').
Proof.
  revert I s. induction l as [|x l IH]; intros I s H0 Hs; [done|]. cbn [for_each]. apply runs_bind.
  eapply runs_mono; [|apply (Hs 0%nat x s eq_refl H0)]. intros [] s1 H1.
  apply (IH (fun k => I (Datatypes.S k))); [done|]. intros k y s2 Hy. by apply (Hs (Datatypes.S k)).
Qed.
End Runs.

(** Running one bind on a concrete result. *)
Lemma bind_Ok {S A B} (m : M S A) (f : A -> M S B) s a s' :
  m s = Ok (a, s') -> (m ≫= f) s = f a s'.
Proof. unfold mbind, M_bind. by intros ->. Qed.

Lemma get_bind {S A} (f : S -> M S A) s : (get ≫= f) s = f s s.
Proof. done. Qed.

Lemma modify_bind {S A} (g : S -> S) (f : unit -> M S A) s : (modify g ≫= f) s = f tt (g s).
Proof. done. Qed.

Lemma bind_inv {S A B} (m : M S A) (f : A -> M S B) s b s' :
  (m ≫= f) s = Ok (b, s') -> exists a s1, m s = Ok (a, s1) /\ f a s1 = Ok (b, s').
Proof.
  unfold mbind, M_bind. intros H. destruct (m s) as [[a s1]| | |]; try done. by exists a, s1.
Qed.

Lemma for_each_app {S A} (f : A -> M S unit) l l' s :
  for_each f (l ++ l') s = (for_each f l;; for_each f l') s.
Proof.
  revert s. induction l as [|x l IH]; intros s; [done|]. cbn [app for_each].
  unfold mbind, M_bind in *. destruct (f x s) as [[[] s1]| | |]; [apply IH|done..].
Qed.

(** ** Relational frames

    [keeps R m]: every run of [m] that returns moves the state along [R].
    With [R] a preorder this is closed under the combinators, which is how the
    fields an operation leaves alone, and the ones it only increases, are
    tracked through long handlers. *)
Definition keeps {S A} (R : S -> S -> Prop) (m : M S A) : Prop :=
  forall s a s', m s = Ok (a, s') -> R s s'.

Section Keeps.
Context {S : Type} (R : S -> S -> Prop) `{!PreOrder R}.

Lemma keeps_ret {A} (a : A) : keeps R (mret a).
Proof. intros s b s' [= _ <-]. reflexivity. Qed.

Lemma keeps_bind {A B} (m : M S A) (f : A -> M S B) :
  keeps R m -> (forall a, keeps R (f a)) -> keeps R (m ≫= f).
Proof.
  intros Hm Hf s b s' H. unfold mbind, M_bind in H.
  destruct (m s) as [[a s1]| | |] eqn:E; try done.
  transitivity s1; [by eapply Hm|by eapply Hf].
Qed.

Lemma keeps_gets {A} (f : S -> A) : keeps R (gets f).
Proof. intros s b s' [= _ <-]. reflexivity. Qed.

Lemma keeps_get : keeps R get.
Proof. intros s b s' [= _ <-]. reflexivity. Qed.

Lemma keeps_modify (f : S -> S) : (forall s, R s (f s)) -> keeps R (modify f).
Proof. intros H s b s' E. injection E as _ <-. apply H. Qed.

Lemma keeps_skip : keeps R skip.
Proof. intros s b s' E. injection E as _ <-. reflexivity. Qed.

Lemma keeps_exit {A} w : keeps R (exit_with w : M S A).
Proof. done. Qed.

Lemma keeps_undef {A} : keeps R (undef : M S A).
Proof. done. Qed.

Lemma keeps_block {A} : keeps R (block : M S A).
Proof. done. Qed.

Lemma keeps_lift {A} (o : option A) : keeps R (lift_opt o).
Proof. destruct o; [apply keeps_ret|done]. Qed.

Lemma keeps_when (b : bool) (m : M S unit) : keeps R m -> keeps R (when b m).
Proof. destruct b; [done|intros _; apply keeps_skip]. Qed.

Lemma keeps_for_each {A} (f : A -> M S unit) (l : list A) :
  (forall x, keeps R (f x)) -> keeps R (for_each f l).
Proof.
  intros Hf. induction l as [|x l IH]; [apply keeps_skip|].
  apply keeps_bind; [apply Hf|done].
Qed.
End Keeps.

Create HintDb keeps.
#[export] Hint Resolve keeps_ret keeps_gets keeps_get keeps_skip keeps_exit keeps_undef keeps_block
  keeps_lift : keeps.
#[export] Hint Extern 0 (PreOrder _) => exact _ : keeps.

Ltac preorder := try match goal with |- PreOrder _ => exact _ end.
Ltac keeps_bind := (apply keeps_bind; preorder); [|intros ?].

(** Take an operation apart; what is left are the single updates and the
    operations without a lemma in the hint database. *)
Ltac keeps_step :=
  match goal with
  | |- keeps _ _ => solve [eauto 4 with keeps]
  | |- keeps _ (_ ≫= _) => keeps_bind
  | |- keeps _ (when _ _) => (apply keeps_when; preorder)
  | |- keeps _ (for_each _ _) => (apply keeps_for_each; preorder); intros ?
  | |- keeps _ (match ?x with _ => _ end) => destruct x
  | |- keeps _ (if ?x then _ else _) => destruct x
  end.
Ltac keeps := repeat keeps_step.

(** Runs of closed programs: whether they return. *)
Definition returns {A} (r : res A) : bool := match r with Ok _ => true | _ => false end.

Lemma returns_ok {A} (r : res A) : returns r = true -> exists a, r = Ok a.
Proof. destruct r; [eauto|done..]. Qed.
