(* ===== verification/DiffCodec.v ===== *)
(** * Diff encoding ([src/Tmk/src/diff.c])

    A diff records the words of a page that differ from its twin.  This file
    models the two routines that agree on its format: the scan of
    [Tmk_diff_create], which writes runs [<size in bytes, starting offset>,
    word, word, ...] followed by a zero word, and [diff_apply], which reads
    them back with an unrolled copy loop.  A diff is kept as the list of
    16-bit halves the code reads and writes through its [short *] pointers
    (an [int] is two halves, low half first, as on the i386 target of
    [src/Tmk/lib.i386_linux2]); a page is the list of its 32-bit words. *)
From S2P Require Import Prelude.

(** ** Words and halves *)
Definition is_word (w : Z) : Prop := is_u32 w.

Definition halves (w : Z) : list Z := [u16 w; u16 (w / 65536)].
Definition word_of (lo hi : Z) : Z := (lo + 65536 * hi)%Z.

Definition halves_all (ws : list Z) : list Z := ws ≫= halves.

(** ** The scan of [Tmk_diff_create]

    The C code has two copies of a loop over groups of four words, one used
    while page and twin agree and one while they differ, and jumps between
    the copies in the middle of a group.  [mode] says which copy control is
    in; [k] is the index of the word about to be compared. *)
Inductive mode : Type := Same | Differ.

Record dstate : Type := DState {
  d_buf : list Z;      (** the halves stored through [diff] so far *)
  d_start : nat        (** [start], as an index in [d_buf] *)
}.

(** [start[-1] = (caddr_t) vadr - (caddr_t)(begin + j)] where [vadr] is
    already past the group of four and [j] is [3 - k mod 4]. *)
Definition slot_offset (k : nat) : Z :=
  let vadr := (4 * (Z.of_nat k / 4) + 4)%Z in
  let begin_ := 1%Z in
  u16 (4 * (vadr - (begin_ + (3 - Z.of_nat k `mod` 4)))).

Definition open_run (k : nat) (st : dstate) : dstate :=
  {| d_buf := d_buf st ++ [0%Z; slot_offset k];
     d_start := length (d_buf st) + 2 |}.

Definition push_word (w : Z) (st : dstate) : dstate :=
  {| d_buf := d_buf st ++ halves w; d_start := d_start st |}.

(** [start[-2] = (caddr_t) diff - (caddr_t) start] *)
Definition close_run (st : dstate) : dstate :=
  {| d_buf := <[d_start st - 2 := u16 (2 * (Z.of_nat (length (d_buf st)) - Z.of_nat (d_start st)))]>
                (d_buf st);
     d_start := d_start st |}.

(** The list holds the pairs (twin word, page word) from word [k] on. *)
Fixpoint create_loop (m : mode) (k : nat) (ws : list (Z * Z)) (st : dstate) : mode * dstate :=
  match ws with
  | [] => (m, st)
  | (t, v) :: ws' =>
      match m with
      | Same =>
          if (t =? v)%Z then create_loop Same (S k) ws' st
          else create_loop Differ (S k) ws' (push_word v (open_run k st))
      | Differ =>
          if (t =? v)%Z then create_loop Same (S k) ws' (close_run st)
          else create_loop Differ (S k) ws' (push_word v st)
      end
  end.

Definition diff_create (vadr twin : list Z) : list Z :=
  let '(m, st) := create_loop Same 0 (zip twin vadr) {| d_buf := []; d_start := 0 |} in
  let st := match m with Differ => close_run st | Same => st end in
  d_buf st ++ halves 0.

(** [diff_size]: the number of bytes of a diff, kept in an [unsigned short]. *)
Definition diff_bytes (d : list Z) : Z := (2 * Z.of_nat (length d))%Z.

(** ** [diff_apply] *)
Definition rd_int (d : list Z) : option (Z * list Z) :=
  match d with
  | lo :: hi :: d' => Some (word_of lo hi, d')
  | _ => None
  end.

Definition st_int (page : list Z) (i w : Z) : option (list Z) :=
  if bool_decide (0 <= i < Z.of_nat (length page))%Z
  then Some (<[Z.to_nat i := w]> page) else None.

(** [n] loads through [diff_cur] and the [n] stores through [run_dest_cur]. *)
Fixpoint copy_ints (n : nat) (page : list Z) (dest : Z) (diff : list Z) : option (list Z * list Z) :=
  match n with
  | O => Some (page, diff)
  | S n' =>
      '(w, diff') ← rd_int diff;
      page' ← st_int page dest w;
      copy_ints n' page' (dest + 1)%Z diff'
  end.

(** The [do ... while (diff_cur != diff_run_end)] loop, sixteen bytes a turn. *)
Fixpoint copy_quads (fuel : nat) (page : list Z) (dest left : Z) (diff : list Z)
    : option (list Z * list Z) :=
  match fuel with
  | O => None
  | S fuel' =>
      '(page', diff') ← copy_ints 4 page dest diff;
      if (left - 16 =? 0)%Z then Some (page', diff')
      else copy_quads fuel' page' (dest + 4)%Z (left - 16)%Z diff'
  end.

(** One turn of the outer loop, after the header has been read. *)
Definition apply_run (page : list Z) (dest run_length : Z) (diff : list Z)
    : option (list Z * list Z) :=
  let with8 (page : list Z) (dest run_length : Z) (diff : list Z) :=
    if Z.testbit run_length 3 then
      '(page', diff') ← copy_ints 2 page dest diff;
      if (run_length - 8 =? 0)%Z then Some (page', diff')
      else copy_quads (S (length diff')) page' (dest + 2)%Z (run_length - 8)%Z diff'
    else copy_quads (S (length diff)) page dest run_length diff in
  if Z.testbit run_length 2 then
    '(page', diff') ← copy_ints 1 page dest diff;
    if (run_length - 4 =? 0)%Z then Some (page', diff')
    else with8 page' (dest + 1)%Z (run_length - 4)%Z diff'
  else with8 page dest run_length diff.

(** The outer loop: both header fields are read as signed [short]s.  The
    result is the page and what follows the diff in memory; [None] is an
    access outside the page or the diff. *)
Fixpoint diff_apply_fuel (fuel : nat) (page diff : list Z) : option (list Z * list Z) :=
  match fuel with
  | O => None
  | S fuel' =>
      match diff with
      | size :: offset :: diff' =>
          let run_length := s16 size in
          let run_offset := s16 offset in
          if (run_length >? 0)%Z then
            if (run_offset `mod` 4 =? 0)%Z then
              '(page', diff'') ← apply_run page (run_offset / 4) run_length diff';
              diff_apply_fuel fuel' page' diff''
            else None
          else Some (page, diff')
      | _ => None
      end
  end.

Definition diff_apply (page diff : list Z) : option (list Z * list Z) :=
  diff_apply_fuel (S (length diff)) page diff.

Example diff_create_ex :
  diff_create [1;7;8;4; 5;9;1;2]%Z [1;2;3;4; 5;6;1;2]%Z =
    [8;4; 7;0; 8;0; 4;20; 9;0; 0;0]%Z.
Proof. reflexivity. Qed.

Example diff_apply_ex :
  diff_apply [1;2;3;4; 5;6;1;2]%Z [8;4; 7;0; 8;0; 4;20; 9;0; 0;0; 55]%Z =
    Some ([1;7;8;4; 5;9;1;2]%Z, [55]%Z).
Proof. reflexivity. Qed.

(** ** Words and halves: the round trip *)
Lemma rd_int_halves w d : is_word w -> rd_int (halves w ++ d) = Some (w, d).
Proof.
  intros Hw. unfold is_word, is_u32 in Hw. simpl. unfold word_of, u16.
  assert (0 <= w / 65536 < 65536)%Z by (split; [apply Z.div_pos | apply Z.div_lt_upper_bound]; lia).
  do 2 f_equal. rewrite (Z.mod_small (w / 65536)) by lia.
  pose proof (Z.div_mod w 65536). lia.
Qed.

Lemma halves_all_length ws : length (halves_all ws) = 2 * length ws.
Proof.
  induction ws as [|w ws IH]; [done|].
  change (halves_all (w :: ws)) with (halves w ++ halves_all ws).
  rewrite length_app, IH. simpl. lia.
Qed.

Lemma halves_all_app ws1 ws2 : halves_all (ws1 ++ ws2) = halves_all ws1 ++ halves_all ws2.
Proof. unfold halves_all. by rewrite bind_app. Qed.

Lemma halves_all_snoc ws w : halves_all (ws ++ [w]) = halves_all ws ++ halves w.
Proof. rewrite halves_all_app. unfold halves_all. simpl. done. Qed.

(** ** Overwriting a stretch of a page *)
Definition overlay (o : nat) (ws page : list Z) : list Z :=
  take o page ++ ws ++ drop (o + length ws) page.

Lemma overlay_nil o page : o <= length page -> overlay o [] page = page.
Proof. intros. unfold overlay. simpl. rewrite Nat.add_0_r. apply take_drop. Qed.

Lemma overlay_length o ws page :
  o + length ws <= length page -> length (overlay o ws page) = length page.
Proof. intros. unfold overlay. rewrite !length_app, length_take, length_drop. lia. Qed.

Lemma overlay_overlay o a b page :
  o + length a + length b <= length page ->
  overlay (o + length a) b (overlay o a page) = overlay o (a ++ b) page.
Proof.
  intros H. unfold overlay.
  rewrite take_app, length_take, drop_app, length_take.
  rewrite (take_ge (take o page)) by (rewrite length_take; lia).
  rewrite (drop_ge (take o page)) by (rewrite length_take; lia).
  replace (o + length a - o `min` length page) with (length a) by lia.
  replace (o + length a + length b - o `min` length page) with (length a + length b) by lia.
  rewrite take_app_length, drop_app_add, drop_drop, length_app. simpl.
  rewrite <- !app_assoc. do 4 f_equal. lia.
Qed.

Lemma st_int_overlay page o w :
  o < length page -> st_int page (Z.of_nat o) w = Some (overlay o [w] page).
Proof.
  intros H. unfold st_int. rewrite bool_decide_true by lia. rewrite Nat2Z.id. f_equal.
  unfold overlay. simpl. rewrite insert_take_drop by lia. do 3 f_equal. lia.
Qed.

Lemma copy_ints_spec ws page o rest :
  Forall is_word ws -> o + length ws <= length page ->
  copy_ints (length ws) page (Z.of_nat o) (halves_all ws ++ rest) = Some (overlay o ws page, rest).
Proof.
  revert page o. induction ws as [|w ws IH]; intros page o Hws Hlen.
  - cbn [length copy_ints halves_all]. rewrite overlay_nil by (simpl in Hlen; lia). done.
  - inversion Hws; subst. cbn [length] in *. cbn [copy_ints].
    change (halves_all (w :: ws)) with (halves w ++ halves_all ws). rewrite <- app_assoc.
    rewrite rd_int_halves by done. cbn [mbind option_bind].
    rewrite st_int_overlay by lia. cbn [mbind option_bind].
    replace (Z.of_nat o + 1)%Z with (Z.of_nat (o + length [w])) by (simpl; lia).
    rewrite IH by (try rewrite overlay_length; simpl; auto; lia).
    rewrite overlay_overlay by (simpl; lia). done.
Qed.

Lemma copy_ints_split n ws1 ws2 page o rest :
  n = length ws1 -> Forall is_word ws1 -> o + length ws1 <= length page ->
  copy_ints n page (Z.of_nat o) (halves_all (ws1 ++ ws2) ++ rest) =
    Some (overlay o ws1 page, halves_all ws2 ++ rest).
Proof. intros -> ? ?. rewrite halves_all_app, <- app_assoc. by apply copy_ints_spec. Qed.

(** The unrolled loop copies the same words as the plain loop. *)
Lemma copy_quads_spec m fuel ws page o rest :
  length ws = 4 * S m -> Forall is_word ws -> o + length ws <= length page -> m < fuel ->
  copy_quads fuel page (Z.of_nat o) (Z.of_nat (4 * length ws)) (halves_all ws ++ rest) =
    Some (overlay o ws page, rest).
Proof.
  revert m ws page o. induction fuel as [|fuel IH]; intros m ws page o Hm Hws Hlen Hf; [lia|].
  rewrite <- (take_drop 4 ws) in Hws |- * at 2.
  apply Forall_app in Hws as [Hw1 Hw2].
  cbn [copy_quads]. rewrite copy_ints_split; [|rewrite length_take; lia|done|rewrite length_take; lia].
  cbn [mbind option_bind].
  destruct (Z.eqb_spec (Z.of_nat (4 * length ws) - 16) 0) as [E|E].
  - assert (Hd : drop 4 ws = []) by (apply drop_ge; lia). rewrite Hd. simpl. do 2 f_equal.
    rewrite <- (take_drop 4 ws) at 2. rewrite Hd, app_nil_r. done.
  - destruct m as [|m]; [lia|].
    replace (Z.of_nat o + 4)%Z with (Z.of_nat (o + length (take 4 ws))) by (rewrite length_take; lia).
    replace (Z.of_nat (4 * length ws) - 16)%Z with (Z.of_nat (4 * length (drop 4 ws))) by (rewrite length_drop; lia).
    rewrite (IH m) by (try rewrite overlay_length; rewrite ?length_drop, ?length_take; auto; lia).
    rewrite overlay_overlay by (rewrite length_take, length_drop; lia).
    by rewrite take_drop.
Qed.

Lemma testbit_4 n : Z.testbit (Z.of_nat (4 * n)) 2 = Nat.odd n.
Proof.
  replace (Z.of_nat (4 * n)) with (Z.of_nat n * 2 ^ 2)%Z by lia.
  rewrite Z.mul_pow2_bits by lia. change (2 - 2)%Z with 0%Z.
  rewrite Z.bit0_odd. destruct (Nat.odd n) eqn:E.
  - apply Z.odd_spec. apply Nat.odd_spec in E as [m ->]. exists (Z.of_nat m). lia.
  - rewrite <- Z.negb_even, negb_false_iff. rewrite <- Nat.negb_even, negb_false_iff in E.
    apply Z.even_spec. apply Nat.even_spec in E as [m ->]. exists (Z.of_nat m). lia.
Qed.

Lemma testbit_8 n : Nat.even n = true ->
  Z.testbit (Z.of_nat (4 * n)) 3 = Nat.odd (n / 2).
Proof.
  intros He. apply Nat.even_spec in He as [m ->].
  rewrite (Nat.mul_comm 2 m), Nat.div_mul by lia.
  replace (Z.of_nat (4 * (m * 2))) with (Z.of_nat (4 * m) * 2 ^ 1)%Z by lia.
  rewrite Z.mul_pow2_bits by lia. apply testbit_4.
Qed.

(** [apply_run] is the plain word by word copy, for every run length that is
    a positive number of words. *)
Lemma apply_run_quads ws page o rest :
  0 < length ws -> Nat.even (length ws) = true -> Nat.even (length ws / 2) = true ->
  Forall is_word ws -> o + length ws <= length page ->
  copy_quads (S (length (halves_all ws ++ rest))) page (Z.of_nat o)
    (Z.of_nat (4 * length ws)) (halves_all ws ++ rest) = Some (overlay o ws page, rest).
Proof.
  intros H0 He1 He2 Hws Hlen.
  apply Nat.even_spec in He1 as [a Ha]. rewrite Ha in He2.
  rewrite (Nat.mul_comm 2 a), Nat.div_mul in He2 by lia. apply Nat.even_spec in He2 as [b Hb].
  apply (copy_quads_spec (b - 1)); try done; rewrite ?length_app, ?halves_all_length; lia.
Qed.

Lemma apply_run_eights ws page o rest :
  0 < length ws -> Nat.even (length ws) = true -> Forall is_word ws -> o + length ws <= length page ->
  (if Z.testbit (Z.of_nat (4 * length ws)) 3 then
     '(page', diff') ← copy_ints 2 page (Z.of_nat o) (halves_all ws ++ rest);
     if (Z.of_nat (4 * length ws) - 8 =? 0)%Z then Some (page', diff')
     else copy_quads (S (length diff')) page' (Z.of_nat o + 2)%Z (Z.of_nat (4 * length ws) - 8)%Z diff'
   else copy_quads (S (length (halves_all ws ++ rest))) page (Z.of_nat o)
     (Z.of_nat (4 * length ws)) (halves_all ws ++ rest)) = Some (overlay o ws page, rest).
Proof.
  intros H0 He Hws Hlen. rewrite testbit_8 by done.
  destruct (Nat.odd (length ws / 2)) eqn:Ho.
  2:{ apply apply_run_quads; auto. by rewrite <- Nat.negb_odd, Ho. }
  apply Nat.odd_spec in Ho as [b Hb]. apply Nat.even_spec in He as [a Ha].
  rewrite Ha, (Nat.mul_comm 2 a), Nat.div_mul in Hb by lia.
  rewrite <- (take_drop 2 ws) in Hws |- * at 1. apply Forall_app in Hws as [Hw1 Hw2].
  rewrite copy_ints_split; [|rewrite length_take; lia|done|rewrite length_take; lia].
  cbn [mbind option_bind].
  destruct (Z.eqb_spec (Z.of_nat (4 * length ws) - 8) 0) as [E|E].
  - assert (Hd : drop 2 ws = []) by (apply drop_ge; lia).
    assert (Ht : take 2 ws = ws) by (apply take_ge; lia). by rewrite Hd, Ht.
  - replace (Z.of_nat o + 2)%Z with (Z.of_nat (o + length (take 2 ws))) by (rewrite length_take; lia).
    replace (Z.of_nat (4 * length ws) - 8)%Z with (Z.of_nat (4 * length (drop 2 ws))) by (rewrite length_drop; lia).
    assert (length (drop 2 ws) = 2 * (2 * b)) as Hl by (rewrite length_drop; lia).
    rewrite apply_run_quads; [|lia| | |done|rewrite overlay_length; rewrite ?length_take; lia].
    + rewrite overlay_overlay by (rewrite length_take, length_drop; lia). by rewrite take_drop.
    + rewrite Hl. apply Nat.even_spec. by exists (2 * b).
    + rewrite Hl, (Nat.mul_comm 2 (2 * b)), Nat.div_mul by lia. apply Nat.even_spec. by exists b.
Qed.

Lemma apply_run_spec ws page o rest :
  0 < length ws -> Forall is_word ws -> o + length ws <= length page ->
  apply_run page (Z.of_nat o) (Z.of_nat (4 * length ws)) (halves_all ws ++ rest) =
    Some (overlay o ws page, rest).
Proof.
  intros H0 Hws Hlen. unfold apply_run. rewrite testbit_4.
  destruct (Nat.odd (length ws)) eqn:Ho.
  2:{ apply apply_run_eights; auto. by rewrite <- Nat.negb_odd, Ho. }
  destruct ws as [|w ws]; [simpl in H0; lia|].
  inversion Hws as [|? ? Hw Hws']; subst. cbn [length] in *.
  change (w :: ws) with ([w] ++ ws).
  rewrite (copy_ints_split 1 [w]); [|done|by constructor|simpl; lia].
  cbn [mbind option_bind].
  destruct (Z.eqb_spec (Z.of_nat (4 * S (length ws)) - 4) 0) as [E|E].
  - destruct ws; [done | simpl in E; lia].
  - replace (Z.of_nat o + 1)%Z with (Z.of_nat (o + length [w])) by (simpl; lia).
    replace (Z.of_nat (4 * S (length ws)) - 4)%Z with (Z.of_nat (4 * length ws)) by lia.
    rewrite apply_run_eights; [|lia| |done|rewrite overlay_length; simpl; lia].
    + rewrite overlay_overlay by (simpl; lia). done.
    + rewrite Nat.odd_succ in Ho. done.
Qed.

(** ** Reference: the maximal runs of differing words *)
Definition run : Type := nat * list Z.

Definition run_list (cur : option run) : list run :=
  match cur with Some r => [r] | None => [] end.

Definition extend_run (k : nat) (cur : option run) (v : Z) : option run :=
  match cur with
  | Some (o, ws) => Some (o, ws ++ [v])
  | None => Some (k, [v])
  end.

Fixpoint diff_runs (k : nat) (cur : option run) (ws : list (Z * Z)) : list run :=
  match ws with
  | [] => run_list cur
  | (t, v) :: ws' =>
      if (t =? v)%Z then run_list cur ++ diff_runs (S k) None ws'
      else diff_runs (S k) (extend_run k cur v) ws'
  end.

Definition encode_run (r : run) : list Z :=
  [u16 (4 * Z.of_nat (length r.2)); u16 (4 * Z.of_nat r.1)] ++ halves_all r.2.

Definition encode_runs (rs : list run) : list Z := rs ≫= encode_run.

Definition apply_runs (page : list Z) (rs : list run) : list Z :=
  fold_left (fun page r => overlay r.1 r.2 page) rs page.

(** The words of [page], overwritten where [vadr] differs from [twin]. *)
Definition merge_words (page : list Z) (ws : list (Z * Z)) : list Z :=
  zip_with (fun b '(t, v) => if (t =? v)%Z then b else v) page ws.

Lemma encode_runs_app rs1 rs2 : encode_runs (rs1 ++ rs2) = encode_runs rs1 ++ encode_runs rs2.
Proof. unfold encode_runs. by rewrite bind_app. Qed.

Lemma encode_runs_one r : encode_runs [r] = encode_run r.
Proof. unfold encode_runs. simpl. by rewrite app_nil_r. Qed.

Lemma slot_offset_eq k : slot_offset k = u16 (4 * Z.of_nat k).
Proof. unfold slot_offset. f_equal. pose proof (Z.div_mod (Z.of_nat k) 4). lia. Qed.

(** The state of the scan that has closed the runs [rs] and has [cur] open. *)
Definition scanned (rs : list run) (cur : option run) (m : mode) (st : dstate) : Prop :=
  match cur, m with
  | None, Same => d_buf st = encode_runs rs
  | Some (o, ws), Differ =>
      d_buf st = encode_runs rs ++ [0%Z; u16 (4 * Z.of_nat o)] ++ halves_all ws /\
      d_start st = length (encode_runs rs) + 2
  | _, _ => False
  end.

Lemma scanned_open rs k v st :
  scanned rs None Same st -> scanned rs (Some (k, [v])) Differ (push_word v (open_run k st)).
Proof.
  simpl. intros H. unfold open_run. cbn. rewrite H, slot_offset_eq, <- app_assoc.
  done.
Qed.

Lemma scanned_push rs o ws v st :
  scanned rs (Some (o, ws)) Differ st ->
  scanned rs (Some (o, ws ++ [v])) Differ (push_word v st).
Proof.
  simpl. intros [Hb Hs]. rewrite Hb, halves_all_snoc, <- !app_assoc. done.
Qed.

Lemma scanned_close rs o ws st :
  scanned rs (Some (o, ws)) Differ st ->
  scanned (rs ++ [(o, ws)]) None Same (close_run st).
Proof.
  simpl. intros [Hb Hs]. rewrite encode_runs_app, encode_runs_one. unfold encode_run. cbn [fst snd].
  rewrite Hb, Hs. replace (length (encode_runs rs) + 2 - 2) with (length (encode_runs rs) + 0) by lia.
  rewrite insert_app_r. simpl. do 3 f_equal.
  rewrite length_app. cbn [length]. rewrite halves_all_length. lia.
Qed.

Lemma create_loop_spec ws k rs cur m st m' st' :
  scanned rs cur m st -> create_loop m k ws st = (m', st') ->
  exists rs' cur', scanned rs' cur' m' st' /\
    rs' ++ run_list cur' = rs ++ diff_runs k cur ws.
Proof.
  revert k rs cur m st. induction ws as [|[t v] ws IH]; intros k rs cur m st Hs; cbn [create_loop diff_runs].
  - intros [= -> ->]. eauto.
  - destruct m, cur as [[o cw]|]; try done.
    + destruct (t =? v)%Z; intros Hc.
      * cbn [run_list app]. eapply IH; eauto.
      * eapply IH; eauto. by apply scanned_open.
    + destruct (t =? v)%Z; intros Hc.
      * edestruct IH as (rs' & cur' & H1 & H2); [by apply scanned_close|done|].
        exists rs', cur'. split; [done|]. rewrite H2. simpl. by rewrite <- app_assoc.
      * eapply IH; eauto. by apply scanned_push.
Qed.

Lemma diff_create_runs vadr twin :
  diff_create vadr twin = encode_runs (diff_runs 0 None (zip twin vadr)) ++ halves 0.
Proof.
  unfold diff_create.
  destruct (create_loop _ _ _ _) as [m st] eqn:E.
  eapply (create_loop_spec _ _ []) in E as (rs & cur & Hs & Hr); [|by instantiate (1 := None)].
  simpl in Hr. rewrite <- Hr. f_equal.
  destruct m, cur as [[o ws]|]; try done.
  - by rewrite app_nil_r.
  - apply scanned_close in Hs. exact Hs.
Qed.

(** ** Facts about the reference runs *)
Definition run_ok (n : nat) (r : run) : Prop :=
  0 < length r.2 /\ r.1 + length r.2 <= n /\ Forall is_word r.2.

Lemma diff_runs_ok k cur ws n :
  k + length ws = n -> Forall (fun p => is_word p.2) ws ->
  (forall o cw, cur = Some (o, cw) -> o + length cw = k /\ run_ok n (o, cw)) ->
  Forall (run_ok n) (diff_runs k cur ws).
Proof.
  revert k cur. induction ws as [|[t v] ws IH]; intros k cur Hk Hw Hc; cbn [diff_runs].
  - destruct cur as [[o cw]|]; simpl; [|done]. constructor; [|done]. by apply Hc.
  - inversion Hw as [|? ? Hv Hw']; subst. cbn in Hv. cbn [length] in *.
    destruct (t =? v)%Z.
    + apply Forall_app. split.
      * destruct cur as [[o cw]|]; simpl; [|done]. constructor; [|done]. by apply Hc.
      * apply IH; [lia|done|done].
    + apply IH; [lia|done|]. intros o cw E. destruct cur as [[o' cw']|]; simplify_eq/=.
      * destruct (Hc o cw' eq_refl) as [H1 (H2 & H3 & H4)]. unfold run_ok in *. simpl in *.
        rewrite length_app. simpl. split_and!; try lia. apply Forall_app; auto.
      * unfold run_ok. simpl. split_and!; auto; lia.
Qed.

Lemma merge_words_length page ws : length page = length ws -> length (merge_words page ws) = length ws.
Proof. intros H. unfold merge_words. rewrite length_zip_with. lia. Qed.

Lemma apply_diff_runs k cur ws page :
  k + length ws = length page ->
  (forall o cw, cur = Some (o, cw) -> o + length cw = k) ->
  apply_runs page (diff_runs k cur ws) =
    match cur with
    | None => take k page ++ merge_words (drop k page) ws
    | Some (o, cw) => take o page ++ cw ++ merge_words (drop k page) ws
    end.
Proof.
  revert k cur page. induction ws as [|[t v] ws IH]; intros k cur page Hk Hc; cbn [diff_runs].
  - cbn [length] in Hk. assert (drop k page = []) as Hd by (apply drop_ge; lia).
    destruct cur as [[o cw]|]; simpl.
    + unfold overlay. rewrite (Hc _ _ eq_refl), Hd. done.
    + rewrite Hd, take_ge by lia. unfold merge_words. simpl. by rewrite app_nil_r.
  - cbn [length] in Hk. destruct (lookup_lt_is_Some_2 page k ltac:(lia)) as [b Hb].
    pose proof (drop_S _ _ _ Hb) as Hd. rewrite Hd. cbn.
    destruct (Z.eqb_spec t v) as [->|Hn].
    + destruct cur as [[o cw]|]; cbn [run_list app].
      * pose proof (Hc _ _ eq_refl) as Ho. cbn [apply_runs fold_left]. fold apply_runs.
        change (fold_left _ ?rs ?p) with (apply_runs p rs). cbn [fst snd].
        rewrite IH; [|rewrite overlay_length; lia|done].
        assert (Hov : overlay o cw page = (take o page ++ cw) ++ b :: drop (S k) page)
          by (unfold overlay; rewrite Ho, Hd, <- app_assoc; done).
        rewrite Hov. assert (Hl : length (take o page ++ cw) = k)
          by (rewrite length_app, length_take; lia).
        replace (S k) with (length (take o page ++ cw) + 1) by lia.
        rewrite take_app_add, drop_app_add, Hl. simpl. rewrite drop_0, <- !app_assoc. simpl.
        done.
      * rewrite IH by (try done; lia). rewrite (take_S_r _ _ _ Hb), <- app_assoc. done.
    + destruct cur as [[o cw]|]; cbn [extend_run].
      * rewrite IH; [|lia|]. 
        -- by rewrite <- app_assoc.
        -- intros ? ? [= <- <-]. pose proof (Hc _ _ eq_refl). rewrite length_app. simpl. lia.
      * rewrite IH; [done|lia|]. intros ? ? [= <- <-]. simpl. lia.
Qed.

(** ** Reading the encoded runs back *)

(** The size and the offset of a run survive their trip through a [short]:
    this is where the page size matters. *)
Definition page_fits (n : nat) : Prop := (4 * Z.of_nat n < 32768)%Z.

Lemma s16_u16_small z : (0 <= z < 32768)%Z -> s16 (u16 z) = z.
Proof. intros. rewrite u16_small by (unfold is_u16; lia). apply s16_small. lia. Qed.

Lemma diff_apply_run_step fuel page r rest :
  run_ok (length page) r -> page_fits (length page) ->
  diff_apply_fuel (S fuel) page (encode_run r ++ rest) =
    diff_apply_fuel fuel (overlay r.1 r.2 page) rest.
Proof.
  intros (H1 & H2 & H3) Hfit. unfold page_fits in Hfit. destruct r as [o ws]. cbn [fst snd] in *.
  unfold encode_run. cbn [fst snd app diff_apply_fuel].
  rewrite !s16_u16_small by lia.
  rewrite (proj2 (Z.gtb_lt _ _)) by lia.
  replace (4 * Z.of_nat o)%Z with (Z.of_nat o * 4)%Z by lia.
  rewrite Z.mod_mul, Z.div_mul by lia. cbn [Z.eqb].
  replace (4 * Z.of_nat (length ws))%Z with (Z.of_nat (4 * length ws)) by lia.
  rewrite apply_run_spec by done. done.
Qed.

Lemma diff_apply_encoded rs page rest fuel :
  Forall (run_ok (length page)) rs -> page_fits (length page) -> length rs < fuel ->
  diff_apply_fuel fuel page (encode_runs rs ++ halves 0 ++ rest) = Some (apply_runs page rs, rest).
Proof.
  revert page fuel. induction rs as [|r rs IH]; intros page fuel Hok Hfit Hf.
  - destruct fuel; [simpl in Hf; lia|]. done.
  - destruct fuel; [simpl in Hf; lia|]. inversion Hok as [|? ? Hr Hrs]; subst.
    change (encode_runs (r :: rs)) with (encode_run r ++ encode_runs rs).
    rewrite <- app_assoc, diff_apply_run_step by done.
    assert (Hl : length (overlay r.1 r.2 page) = length page)
      by (apply overlay_length; by destruct Hr as (? & ? & ?)).
    rewrite IH; rewrite ?Hl; auto. simpl in Hf; lia.
Qed.

Lemma encode_runs_length rs : length rs <= length (encode_runs rs).
Proof.
  induction rs as [|r rs IH]; [done|].
  change (encode_runs (r :: rs)) with (encode_run r ++ encode_runs rs).
  rewrite length_app. simpl. lia.
Qed.

Lemma zip_word_ok (vadr twin : list Z) :
  Forall is_word vadr -> Forall (fun p => is_word p.2) (zip twin vadr).
Proof.
  intros H. revert twin. induction H as [|v vs Hv Hvs IH]; intros [|t ts]; simpl; constructor; auto.
Qed.

Lemma diff_create_ok vadr twin :
  length vadr = length twin -> Forall is_word vadr ->
  Forall (run_ok (length vadr)) (diff_runs 0 None (zip twin vadr)).
Proof.
  intros Hl Hw. apply diff_runs_ok; [|by apply zip_word_ok|done].
  rewrite length_zip_with. lia.
Qed.

Lemma diff_apply_create page vadr twin rest :
  length vadr = length twin -> length page = length twin ->
  Forall is_word vadr -> page_fits (length page) ->
  diff_apply page (diff_create vadr twin ++ rest) = Some (merge_words page (zip twin vadr), rest).
Proof.
  intros Hl Hp Hw Hf. rewrite diff_create_runs, <- app_assoc.
  pose proof (diff_create_ok vadr twin Hl Hw) as Hok.
  unfold diff_apply. rewrite diff_apply_encoded; auto.
  - rewrite apply_diff_runs; [done| |done]. rewrite length_zip_with. lia.
  - by rewrite Hp, <- Hl.
  - rewrite length_app. pose proof (encode_runs_length (diff_runs 0 None (zip twin vadr))). lia.
Qed.

Lemma merge_words_lookup page vadr twin i b v t :
  page !! i = Some b -> vadr !! i = Some v -> twin !! i = Some t ->
  merge_words page (zip twin vadr) !! i = Some (if (t =? v)%Z then b else v).
Proof.
  intros H1 H2 H3. unfold merge_words. rewrite lookup_zip_with, H1. simpl.
  rewrite lookup_zip_with, H3. simpl. rewrite H2. done.
Qed.

Lemma merge_words_twin vadr twin :
  length vadr = length twin -> merge_words twin (zip twin vadr) = vadr.
Proof.
  revert twin. induction vadr as [|v vs IH]; intros [|t ts] H; simplify_eq/=; [done|].
  rewrite IH by lia. destruct (Z.eqb_spec t v); by subst.
Qed.

Lemma merge_words_disjoint page v1 v2 twin :
  length v1 = length twin -> length v2 = length twin -> length page = length twin ->
  (forall i t, twin !! i = Some t -> v1 !! i = Some t \/ v2 !! i = Some t) ->
  merge_words (merge_words page (zip twin v1)) (zip twin v2) =
  merge_words (merge_words page (zip twin v2)) (zip twin v1).
Proof.
  revert v1 v2 page. induction twin as [|t ts IH]; intros [|a v1] [|b v2] [|p page] H1 H2 H3 H;
    simplify_eq/=; [done|].
  rewrite IH by (try lia; intros i x Hx; apply (H (S i) x Hx)). f_equal.
  destruct (H 0 t eq_refl) as [E|E]; simplify_eq/=; rewrite Z.eqb_refl; done.
Qed.

(** The size of the encoding, in halves. *)
Fixpoint runs_cost (rs : list run) : nat :=
  match rs with [] => 0 | r :: rs' => 2 + 2 * length r.2 + runs_cost rs' end.

Lemma encode_runs_cost rs : length (encode_runs rs) = runs_cost rs.
Proof.
  induction rs as [|r rs IH]; [done|].
  change (encode_runs (r :: rs)) with (encode_run r ++ encode_runs rs).
  rewrite length_app, IH. unfold encode_run. rewrite length_app, halves_all_length. simpl. lia.
Qed.

Lemma runs_cost_app rs1 rs2 : runs_cost (rs1 ++ rs2) = runs_cost rs1 + runs_cost rs2.
Proof. induction rs1; simpl; lia. Qed.

(** Every run but the last is followed by a word that does not differ. *)
Lemma diff_runs_cost k cur ws :
  runs_cost (diff_runs k cur ws) <= runs_cost (run_list cur) + 2 * length ws + 2 /\
  (cur <> None -> runs_cost (diff_runs k cur ws) <= runs_cost (run_list cur) + 2 * length ws).
Proof.
  revert k cur. induction ws as [|[t v] ws IH]; intros k cur; cbn [diff_runs length]; [lia|].
  destruct (t =? v)%Z.
  - rewrite runs_cost_app. destruct (IH (S k) None) as [H _]. cbn [run_list runs_cost] in H. lia.
  - destruct cur as [[o cw]|]; cbn [extend_run].
    + destruct (IH (S k) (Some (o, cw ++ [v]))) as [_ H]. specialize (H ltac:(done)).
      cbn in *. rewrite length_app in H. simpl in *. lia.
    + destruct (IH (S k) (Some (k, [v]))) as [_ H]. specialize (H ltac:(done)).
      cbn in *. split; [lia | done].
Qed.

(** A page all of whose words differ is one run. *)
Lemma diff_runs_all k o cw vadr twin :
  length vadr = length twin ->
  (forall i v t, vadr !! i = Some v -> twin !! i = Some t -> v <> t) ->
  diff_runs k (Some (o, cw)) (zip twin vadr) = [(o, cw ++ vadr)].
Proof.
  revert k cw twin. induction vadr as [|v vs IH]; intros k cw [|t ts] Hl Hd; simplify_eq/=.
  - by rewrite app_nil_r.
  - destruct (Z.eqb_spec t v) as [->|Hn]; [by destruct (Hd 0 v v)|].
    rewrite IH; [by rewrite <- app_assoc|lia|]. intros i x y. apply (Hd (S i)).
Qed.

(** ** Properties *)

(** C2: applying to the twin the diff created from a page and its twin gives
    the page back, and leaves the read pointer just past the diff, for every
    page smaller than 32768 bytes. *)
Theorem diff_roundtrip vadr twin rest :
  length vadr = length twin -> Forall is_word vadr -> page_fits (length twin) ->
  diff_apply twin (diff_create vadr twin ++ rest) = Some (vadr, rest).
Proof.
  intros Hl Hw Hf. rewrite diff_apply_create by done. by rewrite merge_words_twin.
Qed.

Lemma diff_roundtrip_witness :
  diff_apply [1;2;3;4]%Z (diff_create [1;9;3;70000]%Z [1;2;3;4]%Z ++ [77%Z]) =
    Some ([1;9;3;70000]%Z, [77%Z]).
Proof.
  apply (diff_roundtrip [1;9;3;70000]%Z [1;2;3;4]%Z [77%Z]).
  - reflexivity.
  - repeat constructor; vm_compute; intuition congruence.
  - vm_compute. reflexivity.
Defined.

(** C17: a diff changes exactly the words that differ between the page and its
    twin: applied to any copy of the page, it writes those words and keeps
    every other word of the copy. *)
Theorem diff_apply_exact page vadr twin rest :
  length vadr = length twin -> length page = length twin ->
  Forall is_word vadr -> page_fits (length twin) ->
  exists page', diff_apply page (diff_create vadr twin ++ rest) = Some (page', rest) /\
    length page' = length page /\
    forall i b v t, page !! i = Some b -> vadr !! i = Some v -> twin !! i = Some t ->
      page' !! i = Some (if (t =? v)%Z then b else v).
Proof.
  intros Hl Hp Hw Hf. exists (merge_words page (zip twin vadr)). split_and!.
  - apply diff_apply_create; auto. by rewrite Hp.
  - rewrite merge_words_length; rewrite length_zip_with; lia.
  - intros. by apply merge_words_lookup.
Qed.

Lemma diff_apply_exact_witness :
  exists page', diff_apply [10;20;30;40]%Z (diff_create [1;9;3;7]%Z [1;2;3;4]%Z ++ []) = Some (page', []) /\
    length page' = length [10;20;30;40]%Z /\
    forall i b v t, [10;20;30;40]%Z !! i = Some b -> [1;9;3;7]%Z !! i = Some v -> [1;2;3;4]%Z !! i = Some t ->
      page' !! i = Some (if (t =? v)%Z then b else v).
Proof.
  apply (diff_apply_exact [10;20;30;40]%Z [1;9;3;7]%Z [1;2;3;4]%Z []).
  - reflexivity.
  - reflexivity.
  - repeat constructor; vm_compute; intuition congruence.
  - vm_compute. reflexivity.
Defined.

(** C19: the multiple-writer property: the diffs of two writers of the same
    twin that changed disjoint sets of words can be applied in either order,
    with the same result. *)
Theorem diff_apply_commute page v1 v2 twin :
  length v1 = length twin -> length v2 = length twin -> length page = length twin ->
  Forall is_word v1 -> Forall is_word v2 -> page_fits (length twin) ->
  (forall i t, twin !! i = Some t -> v1 !! i = Some t \/ v2 !! i = Some t) ->
  ('(p, _) ← diff_apply page (diff_create v1 twin); diff_apply p (diff_create v2 twin)) =
  ('(p, _) ← diff_apply page (diff_create v2 twin); diff_apply p (diff_create v1 twin)).
Proof.
  intros L1 L2 Lp W1 W2 Hf Hd.
  assert (Hm : forall v p, length v = length twin -> length p = length twin -> Forall is_word v ->
    diff_apply p (diff_create v twin) = Some (merge_words p (zip twin v), [])).
  { intros v p Lv L Wv. rewrite <- (app_nil_r (diff_create v twin)). apply diff_apply_create; auto.
    by rewrite L. }
  assert (Hz : forall v p, length v = length twin -> length p = length twin ->
    length (merge_words p (zip twin v)) = length twin).
  { intros. rewrite merge_words_length; rewrite length_zip_with; lia. }
  rewrite !Hm by auto. cbn [mbind option_bind]. rewrite !Hm by auto.
  rewrite merge_words_disjoint by auto. done.
Qed.

Lemma diff_apply_commute_witness :
  ('(p, _) ← diff_apply [1;2;3;4]%Z (diff_create [1;9;3;4]%Z [1;2;3;4]%Z);
     diff_apply p (diff_create [1;2;3;8]%Z [1;2;3;4]%Z)) =
  ('(p, _) ← diff_apply [1;2;3;4]%Z (diff_create [1;2;3;8]%Z [1;2;3;4]%Z);
     diff_apply p (diff_create [1;9;3;4]%Z [1;2;3;4]%Z)).
Proof.
  apply (diff_apply_commute [1;2;3;4]%Z [1;9;3;4]%Z [1;2;3;8]%Z [1;2;3;4]%Z); try reflexivity.
  - repeat constructor; vm_compute; intuition congruence.
  - repeat constructor; vm_compute; intuition congruence.
  - intros [|[|[|[|i]]]] t; simpl; intros; simplify_eq; auto.
Defined.

(** What a diff costs. *)
Lemma diff_bytes_le vadr twin :
  length vadr = length twin ->
  (diff_bytes (diff_create vadr twin) <= 4 * Z.of_nat (length vadr) + 8)%Z.
Proof.
  intros Hl. unfold diff_bytes. rewrite diff_create_runs, length_app, encode_runs_cost.
  destruct (diff_runs_cost 0 None (zip twin vadr)) as [H _].
  rewrite length_zip_with in H. cbn in *. lia.
Qed.

(** a diff is at most eight bytes longer than its page, so the overflow
    area of [MTU] bytes at the end of a heap chunk holds any diff that starts
    before it. *)
Theorem diff_create_bound vadr twin :
  length vadr = length twin ->
  (diff_bytes (diff_create vadr twin) <= 4 * Z.of_nat (length vadr) + 8)%Z.
Proof. apply diff_bytes_le. Qed.

Lemma diff_create_bound_witness :
  (diff_bytes (diff_create [1;0;1;0]%Z [0;0;0;0]%Z) <= 4 * Z.of_nat (length [1;0;1;0]%Z) + 8)%Z.
Proof. apply (diff_create_bound [1;0;1;0]%Z [0;0;0;0]%Z). reflexivity. Defined.

(** C40: with 32768-byte pages (4096-byte system pages and the option [-X3],
    which [Tmk_startup] accepts) a page all of whose words changed is lost:
    its run length does not fit the signed [short] that [diff_apply] reads,
    and the diff is applied as if it were empty. *)
Theorem diff_full_page_lost page vadr twin rest :
  Z.of_nat (length vadr) = 8192%Z -> length vadr = length twin ->
  (forall i v t, vadr !! i = Some v -> twin !! i = Some t -> v <> t) ->
  diff_apply page (diff_create vadr twin ++ rest) = Some (page, halves_all vadr ++ halves 0 ++ rest).
Proof.
  intros Hl Hlt Hd. rewrite diff_create_runs.
  destruct vadr as [|v vs], twin as [|t ts]; [done|done|done|].
  cbn [zip_with diff_runs].
  destruct (Z.eqb_spec t v) as [->|Hn]; [by destruct (Hd 0 v v)|]. cbn [extend_run].
  rewrite diff_runs_all; [|by injection Hlt|intros i x y; apply (Hd (S i))].
  rewrite encode_runs_one. unfold encode_run. cbn [fst snd app].
  unfold diff_apply. cbn [diff_apply_fuel app]. rewrite Hl.
  change (s16 (u16 (4 * 8192)) >? 0)%Z with false. cbn iota. by rewrite <- app_assoc.
Qed.

Lemma diff_full_page_lost_witness :
  diff_apply (replicate (Z.to_nat 8192) 0%Z)
    (diff_create (replicate (Z.to_nat 8192) 1%Z) (replicate (Z.to_nat 8192) 0%Z) ++ []) =
  Some (replicate (Z.to_nat 8192) 0%Z, halves_all (replicate (Z.to_nat 8192) 1%Z) ++ halves 0 ++ []).
Proof.
  apply (diff_full_page_lost (replicate (Z.to_nat 8192) 0%Z)).
  - rewrite length_replicate. reflexivity.
  - rewrite !length_replicate. reflexivity.
  - intros i v t [-> _]%lookup_replicate [-> _]%lookup_replicate. discriminate.
Defined.

(** ** Whatever the message holds

    What a step of [diff_apply] keeps: words stay words, the page keeps its
    size, and what is left of the diff is a suffix. *)
Definition step_ok (page diff page' diff' : list Z) : Prop :=
  Forall is_u16 diff -> Forall is_word page ->
  Forall is_word page' /\ length page' = length page /\ exists used, diff = used ++ diff'.

Lemma step_ok_refl page diff : step_ok page diff page diff.
Proof. intros H1 H2. split_and!; [done..|by exists []]. Qed.

Lemma step_ok_trans p d p1 d1 p2 d2 : step_ok p d p1 d1 -> step_ok p1 d1 p2 d2 -> step_ok p d p2 d2.
Proof.
  intros H1 H2 Hd Hp. destruct (H1 Hd Hp) as (W1 & L1 & u1 & E1).
  assert (Hd1 : Forall is_u16 d1) by (subst d; by apply Forall_app in Hd as [_ ?]).
  destruct (H2 Hd1 W1) as (W2 & L2 & u2 & E2). split_and!; [done|congruence|].
  exists (u1 ++ u2). by rewrite E1, E2, app_assoc.
Qed.

(** A loop of copies: what the first part did, and the test that ends it. *)
Lemma step_ok_seq {b : bool} page diff p1 d1 page' diff' k :
  step_ok page diff p1 d1 -> (k = Some (page', diff') -> step_ok p1 d1 page' diff') ->
  (if b then Some (p1, d1) else k) = Some (page', diff') -> step_ok page diff page' diff'.
Proof.
  intros H1 H2 H. destruct b; [by injection H as <- <-|]. exact (step_ok_trans _ _ _ _ _ _ H1 (H2 H)).
Qed.

Lemma copy_ints_step n : forall page dest diff page' diff',
  copy_ints n page dest diff = Some (page', diff') -> step_ok page diff page' diff'.
Proof.
  induction n as [|n IH]; intros page dest diff page' diff' H; cbn [copy_ints] in H.
  - injection H as <- <-. apply step_ok_refl.
  - destruct diff as [|lo [|hi diff]]; [done..|]. cbn in H. unfold st_int in H.
    case_bool_decide; [|done]. cbn in H. apply IH in H. eapply step_ok_trans; [|exact H].
    intros Hd Hp. apply Forall_cons in Hd as [H1 Hd]. apply Forall_cons in Hd as [H2 Hd].
    split_and!; [|by rewrite length_insert|by exists [lo; hi]].
    apply Forall_insert; [done|]. unfold is_word, is_u32, word_of, is_u16 in *. lia.
Qed.

Lemma copy_quads_step fuel : forall page dest left diff page' diff',
  copy_quads fuel page dest left diff = Some (page', diff') -> step_ok page diff page' diff'.
Proof.
  induction fuel as [|fuel IH]; intros page dest left diff page' diff' H; [done|]. cbn [copy_quads] in H.
  destruct (copy_ints 4 page dest diff) as [[p1 d1]|] eqn:E; [|done]. cbn [mbind option_bind] in H.
  eapply step_ok_seq; [by eapply copy_ints_step|by apply IH|exact H].
Qed.

Lemma apply_run_step page dest len diff page' diff' :
  apply_run page dest len diff = Some (page', diff') -> step_ok page diff page' diff'.
Proof.
  assert (H8 : forall page dest len diff, (if Z.testbit len 3 then
      '(page', diff') ← copy_ints 2 page dest diff;
      if (len - 8 =? 0)%Z then Some (page', diff')
      else copy_quads (S (length diff')) page' (dest + 2)%Z (len - 8)%Z diff'
    else copy_quads (S (length diff)) page dest len diff) = Some (page', diff') -> step_ok page diff page' diff').
  { clear page dest len diff. intros page dest len diff H. destruct (Z.testbit len 3); [|by apply copy_quads_step in H].
    destruct (copy_ints 2 page dest diff) as [[p1 d1]|] eqn:E; [|done]. cbn [mbind option_bind] in H.
    eapply step_ok_seq; [by eapply copy_ints_step|apply copy_quads_step|exact H]. }
  intros H. unfold apply_run in H. cbv zeta in H. destruct (Z.testbit len 2); [|by apply H8 in H].
  destruct (copy_ints 1 page dest diff) as [[p1 d1]|] eqn:E; [|done]. cbn [mbind option_bind] in H.
  eapply step_ok_seq; [by eapply copy_ints_step|apply H8|exact H].
Qed.

Lemma diff_apply_step fuel : forall page diff page' rest,
  diff_apply_fuel fuel page diff = Some (page', rest) -> step_ok page diff page' rest.
Proof.
  induction fuel as [|fuel IH]; intros page diff page' rest H; [done|]. cbn [diff_apply_fuel] in H.
  destruct diff as [|size [|offset diff]]; [done..|].
  assert (Hd : forall p, step_ok p (size :: offset :: diff) p diff).
  { intros p H1 H2. split_and!; [done..|by exists [size; offset]]. }
  destruct (_ >? 0)%Z; [|injection H as <- <-; apply Hd]. destruct (_ =? 0)%Z; [|done].
  destruct (apply_run _ _ _ _) as [[p1 d1]|] eqn:E; [|done]. cbn [mbind option_bind] in H.
  eapply step_ok_trans; [apply Hd|]. eapply step_ok_trans; [by eapply apply_run_step|by eapply IH].
Qed.


