(* ===== verification/Pages.v ===== *)
(** * The page table ([src/Tmk/src/Tmk.h], [src/Tmk/src/page.c])

    The page records, the store that holds [page_array_] and [page_dirty],
    and the two pointer lists threaded through it: the dirty list and the
    invalidation list, whose neighbouring entries are merged into runs so
    that one [mprotect] or one write notice range covers a whole run.

    A [page_t] is an index: [i] stands for [&page_array_[i]], and
    [PAGE_DIRTY] for the separate record [page_dirty].  Static storage is
    zero, so a key missing from the store is a zeroed record. *)
From S2P Require Import Prelude.
Local Open Scope Z_scope.

Definition NPROCS : Z := 32.
Definition NPAGES : Z := 16384.

Abbreviation page_t := Z.
Definition NULL_PAGE : page_t := -1.
Definition PAGE_DIRTY : page_t := -2.

(** [enum state] *)
Inductive page_state : Type := valid | invalid | private | empty.
#[export] Instance page_state_eq_dec : EqDecision page_state.
Proof. solve_decision. Defined.

(** The access rights set by [mprotect]. *)
Inductive prot_t : Type := PROT_NONE | PROT_READ | PROT_READ_WRITE.
#[export] Instance prot_t_eq_dec : EqDecision prot_t.
Proof. solve_decision. Defined.

(** An address in one of the chunked heaps: chunk number and offset. *)
Definition addr : Type := Z * Z.

(** [struct interval], without its list links: the intervals of a process
    form a list, oldest first. *)
Record interval : Type := Interval {
  iv_id : Z;
  iv_vt : list Z;                (** [vector_time_] *)
  iv_ranges : list (Z * Z)       (** the write notice ranges, [head] first *)
}.

(** [struct write_notice]; [wn_diff] is the address and the contents of the
    diff ([None] for 0), and [wn_id], [wn_vt] are what the code reads through
    the [interval] pointer. *)
Record write_notice : Type := WriteNotice {
  wn_diff : option (addr * list Z);
  wn_size : Z;                   (** [diff_size] *)
  wn_id : Z;
  wn_vt : list Z
}.

(** [struct page]; [p_mem] is the memory at [vadr], as words, and [p_prot] its
    protection; [p_wn] maps a process to its write notices, newest first. *)
Record page : Type := Page {
  p_prev : page_t;
  p_next : page_t;
  p_partner : page_t;
  p_mem : list Z;
  p_prot : prot_t;
  p_twin : option (list Z);
  p_state : page_state;
  p_manager : Z;
  p_inval : bool;                (** [inval_toggle] *)
  p_dirty : bool;                (** [dirty_toggle] *)
  p_wn : gmap Z (list write_notice)
}.

Definition zero_page : page :=
  {| p_prev := NULL_PAGE; p_next := NULL_PAGE; p_partner := NULL_PAGE; p_mem := [];
     p_prot := PROT_NONE; p_twin := None; p_state := valid; p_manager := 0;
     p_inval := false; p_dirty := false; p_wn := ∅ |}.
#[export] Instance page_inhabited : Inhabited page := populate zero_page.

Definition set_prev (x : page_t) (p : page) : page :=
  Page x (p_next p) (p_partner p) (p_mem p) (p_prot p) (p_twin p) (p_state p) (p_manager p) (p_inval p) (p_dirty p) (p_wn p).
Definition set_next (x : page_t) (p : page) : page :=
  Page (p_prev p) x (p_partner p) (p_mem p) (p_prot p) (p_twin p) (p_state p) (p_manager p) (p_inval p) (p_dirty p) (p_wn p).
Definition set_partner (x : page_t) (p : page) : page :=
  Page (p_prev p) (p_next p) x (p_mem p) (p_prot p) (p_twin p) (p_state p) (p_manager p) (p_inval p) (p_dirty p) (p_wn p).
Definition set_mem (x : list Z) (p : page) : page :=
  Page (p_prev p) (p_next p) (p_partner p) x (p_prot p) (p_twin p) (p_state p) (p_manager p) (p_inval p) (p_dirty p) (p_wn p).
Definition set_prot (x : prot_t) (p : page) : page :=
  Page (p_prev p) (p_next p) (p_partner p) (p_mem p) x (p_twin p) (p_state p) (p_manager p) (p_inval p) (p_dirty p) (p_wn p).
Definition set_twin (x : option (list Z)) (p : page) : page :=
  Page (p_prev p) (p_next p) (p_partner p) (p_mem p) (p_prot p) x (p_state p) (p_manager p) (p_inval p) (p_dirty p) (p_wn p).
Definition set_state (x : page_state) (p : page) : page :=
  Page (p_prev p) (p_next p) (p_partner p) (p_mem p) (p_prot p) (p_twin p) x (p_manager p) (p_inval p) (p_dirty p) (p_wn p).
Definition set_manager (x : Z) (p : page) : page :=
  Page (p_prev p) (p_next p) (p_partner p) (p_mem p) (p_prot p) (p_twin p) (p_state p) x (p_inval p) (p_dirty p) (p_wn p).
Definition set_inval (x : bool) (p : page) : page :=
  Page (p_prev p) (p_next p) (p_partner p) (p_mem p) (p_prot p) (p_twin p) (p_state p) (p_manager p) x (p_dirty p) (p_wn p).
Definition set_dirty (x : bool) (p : page) : page :=
  Page (p_prev p) (p_next p) (p_partner p) (p_mem p) (p_prot p) (p_twin p) (p_state p) (p_manager p) (p_inval p) x (p_wn p).
Definition set_wn (x : gmap Z (list write_notice)) (p : page) : page :=
  Page (p_prev p) (p_next p) (p_partner p) (p_mem p) (p_prot p) (p_twin p) (p_state p) (p_manager p) (p_inval p) (p_dirty p) x.

(** ** The store *)
Abbreviation pstore := (gmap Z page).

Definition upd (i : page_t) (f : page -> page) (m : pstore) : pstore := <[i := f (m !!! i)]> m.

(** A pointer that may be dereferenced: an entry of [page_array_] (with the
    extra one at the end) or [page_dirty]. *)
Definition valid_ptr (p : page_t) : bool :=
  (p =? PAGE_DIRTY) || ((0 <=? p) && (p <=? NPAGES)).

Definition rd {A} (f : page -> A) (p : page_t) : M pstore A := fun m =>
  if valid_ptr p then Ok (f (m !!! p), m) else Undef.

Definition wr (p : page_t) (f : page -> page) : M pstore unit := fun m =>
  if valid_ptr p then Ok (tt, upd p f m) else Undef.

Lemma upd_lookup i f m j : upd i f m !!! j = if decide (i = j) then f (m !!! i) else m !!! j.
Proof.
  unfold upd. destruct (decide (i = j)) as [->|Hn].
  - by rewrite lookup_total_insert_eq.
  - by rewrite lookup_total_insert_ne.
Qed.

Lemma upd_eq i f m : upd i f m !!! i = f (m !!! i).
Proof. rewrite upd_lookup. by rewrite decide_True. Qed.

Lemma upd_ne i f m j : i <> j -> upd i f m !!! j = m !!! j.
Proof. intros. rewrite upd_lookup. by rewrite decide_False. Qed.

(** ** The merged lists *)
Inductive list_kind : Type := Inval | Dirty.

(** [head] ([page_array_[NPAGES]]) and [&page_dirty]. *)
Definition head_of (k : list_kind) : page_t :=
  match k with Inval => NPAGES | Dirty => PAGE_DIRTY end.

Definition toggle (k : list_kind) (p : page) : bool :=
  match k with Inval => p_inval p | Dirty => p_dirty p end.

Definition set_toggle (k : list_kind) (b : bool) (p : page) : page :=
  match k with Inval => set_inval b p | Dirty => set_dirty b p end.

(** [page->toggle ^= 1], and its new value. *)
Definition flip (k : list_kind) (p : page_t) : M pstore bool :=
  t ← rd (toggle k) p;
  wr p (set_toggle k (xorb t true));;
  mret (xorb t true).

(** The common text of [Tmk_page_inval_merge] and [Tmk_page_dirty_merge]:
    link [page1] as a new run or extend the run that ends just before it,
    then absorb the run that starts just after it. *)
Definition merge_first (k : list_kind) (page1 : page_t) : M pstore page_t :=
  t1 ← flip k page1;
  if t1 : bool then
    prev ← rd p_prev (head_of k);
    wr page1 (set_prev prev);;
    wr page1 (set_next (head_of k));;
    wr prev (set_next page1);;
    wr (head_of k) (set_prev page1);;
    mret page1
  else rd p_partner (page1 - 1).

Definition merge_second (k : list_kind) (page2 : page_t) : M pstore page_t :=
  t2 ← flip k page2;
  if t2 : bool then mret (page2 - 1)
  else
    page2__prev ← rd p_prev page2;
    page2__next ← rd p_next page2;
    wr page2__next (set_prev page2__prev);;
    wr page2__prev (set_next page2__next);;
    rd p_partner page2.

Definition merge (k : list_kind) (page1 : page_t) : M pstore unit :=
  first ← merge_first k page1;
  last ← merge_second k (page1 + 1);
  wr first (set_partner last);;
  wr last (set_partner first).

Definition Tmk_page_inval_merge : page_t -> M pstore unit := merge Inval.
Definition Tmk_page_dirty_merge : page_t -> M pstore unit := merge Dirty.

(** [do { body } while ((page = page->prev) != end)], with [prev_of] reading
    the [prev] field in the state of the caller. *)
Fixpoint do_while_prev {St} (prev_of : page_t -> M St page_t) (fuel : nat) (end_ : page_t)
    (body : page_t -> M St unit) (page : page_t) : M St unit :=
  match fuel with
  | O => undef
  | S fuel' =>
      body page;;
      prev ← prev_of page;
      if prev =? end_ then skip else do_while_prev prev_of fuel' end_ body prev
  end.

Lemma keeps_do_while {St} (R : St -> St -> Prop) `{!PreOrder R} prev_of fuel h body p :
  (forall q, keeps R (prev_of q)) -> (forall q, keeps R (body q)) ->
  keeps R (do_while_prev prev_of fuel h body p).
Proof.
  intros Hp Hb. revert p. induction fuel as [|fuel IH]; intros p; cbn [do_while_prev]; [done|].
  keeps_bind; [apply Hb|]. keeps_bind; [apply Hp|]. destruct (_ =? h); [by apply keeps_skip|apply IH].
Qed.

(** No list has more runs than there are pages. *)
Definition list_fuel : nat := Z.to_nat NPAGES.

(** [mprotect(page->vadr, partner->vadr - page->vadr, prot)]: the pages from
    [first] up to, not including, [last]. *)
Definition mprotect_range (first last : page_t) (prot : prot_t) : M pstore unit :=
  for_each (fun i => wr i (set_prot prot)) (seqZ first (last - first)).

Definition inval_body (page : page_t) : M pstore unit :=
  partner ← rd p_partner page;
  wr (partner + 1) (set_inval false);;
  mprotect_range page (partner + 1) PROT_NONE;;
  wr page (set_inval false).

Definition Tmk_page_inval_perform : M pstore unit :=
  page ← rd p_prev (head_of Inval);
  if page =? head_of Inval then skip
  else
    wr (head_of Inval) (set_prev (head_of Inval));;
    wr (head_of Inval) (set_next (head_of Inval));;
    do_while_prev (rd p_prev) list_fuel (head_of Inval) inval_body page.
