(* ===== verification/PageLists.v ===== *)
(** * The merged page lists represent sets of pages

    [Pages.v] models the pointer code.  Here the pointers, partners and
    toggles of one list are related to the set of pages that were merged into
    it: [rep k n m S L] says that in the store [m] the list [k] represents the
    set [S] of pages below [n], with the runs of [S] linked in the order [L].
    Merging a page adds it to the set, and never touches the records of the
    pages of the other list, although both lists live in the same three
    fields. *)
From S2P Require Import Prelude Pages.
Local Open Scope Z_scope.

(** ** Segments of a doubly linked list *)
Fixpoint seg (m : pstore) (x : Z) (L : list Z) (y : Z) : Prop :=
  match L with
  | [] => p_next (m !!! x) = y /\ p_prev (m !!! y) = x
  | z :: L' => p_next (m !!! x) = z /\ p_prev (m !!! z) = x /\ seg m z L' y
  end.

Lemma seg_app m x L1 z L2 y : seg m x (L1 ++ z :: L2) y <-> seg m x L1 z /\ seg m z L2 y.
Proof.
  revert x. induction L1 as [|a L1 IH]; intros x; simpl; [tauto|]. rewrite IH. tauto.
Qed.

Lemma seg_snoc m x L z y :
  seg m x (L ++ [z]) y <-> seg m x L z /\ p_next (m !!! z) = y /\ p_prev (m !!! y) = z.
Proof. rewrite seg_app. simpl. tauto. Qed.

Lemma seg_first m x L y : seg m x L y -> p_next (m !!! x) = hd y L.
Proof. destruct L; simpl; tauto. Qed.

Lemma seg_last m x L y : seg m x L y -> p_prev (m !!! y) = List.last L x.
Proof.
  revert x. induction L as [|z L IH]; intros x; cbn [seg]; [simpl; tauto|].
  intros (? & ? & H). rewrite (IH _ H). clear. simpl.
  destruct L as [|a L]; [done|]. revert a. induction L as [|b L IH]; intros a; [done|]. apply IH.
Qed.

(** A segment only depends on the [next] fields of all but its end and the
    [prev] fields of all but its start. *)
Lemma seg_frame m m' x L y :
  seg m x L y ->
  (forall i, i ∈ x :: L -> p_next (m' !!! i) = p_next (m !!! i)) ->
  (forall i, i ∈ L ++ [y] -> p_prev (m' !!! i) = p_prev (m !!! i)) ->
  seg m' x L y.
Proof.
  revert x. induction L as [|z L IH]; intros x; cbn [seg].
  - intros [H1 H2] Hn Hp. rewrite Hn, Hp by set_solver. done.
  - intros (H1 & H2 & H3) Hn Hp. rewrite Hn, Hp by set_solver.
    split_and!; auto. apply IH; auto; intros; [apply Hn | apply Hp]; set_solver.
Qed.

(** Linking [p] in front of the head [h], at the end of the list. *)
Lemma seg_push m m' h L p :
  seg m h L h -> NoDup (h :: L) -> p <> h -> p ∉ L ->
  p_prev (m' !!! p) = p_prev (m !!! h) -> p_next (m' !!! p) = h ->
  p_prev (m' !!! h) = p -> p_next (m' !!! p_prev (m !!! h)) = p ->
  (forall i, i ∈ h :: L -> i <> p_prev (m !!! h) -> p_next (m' !!! i) = p_next (m !!! i)) ->
  (forall i, i ∈ L -> p_prev (m' !!! i) = p_prev (m !!! i)) ->
  seg m' h (L ++ [p]) h.
Proof.
  intros Hs Hnd Hph HpL H1 H2 H3 H4 Hn Hp. rewrite seg_snoc. split; [|done].
  destruct L as [|l L _] using rev_ind.
  - simpl in *. destruct Hs as [_ Hs]. rewrite Hs in *. done.
  - rewrite seg_snoc in Hs |- *. destruct Hs as (Hs & Hl1 & Hl2). rewrite Hl2 in *.
    assert (Hnd' : l ≠ h /\ l ∉ L /\ h ∉ L).
    { rewrite NoDup_cons, NoDup_app in Hnd. set_solver. }
    split; [|done]. eapply seg_frame; [done| |].
    + intros i Hi. apply Hn; set_solver.
    + intros i Hi. apply Hp; set_solver.
Qed.

(** Unlinking [q]. *)
Lemma seg_unlink m m' x L1 q L2 y :
  seg m x L1 q -> seg m q L2 y -> NoDup (L1 ++ q :: L2) ->
  x ∉ L1 ++ q :: L2 -> y ∉ L1 ++ q :: L2 ->
  p_next (m' !!! p_prev (m !!! q)) = p_next (m !!! q) ->
  p_prev (m' !!! p_next (m !!! q)) = p_prev (m !!! q) ->
  (forall i, i <> p_prev (m !!! q) -> p_next (m' !!! i) = p_next (m !!! i)) ->
  (forall i, i <> p_next (m !!! q) -> p_prev (m' !!! i) = p_prev (m !!! i)) ->
  seg m' x (L1 ++ L2) y.
Proof.
  intros H1 H2 Hnd Hx Hy Hn Hp Fn Fp.
  assert (Hq : q ∉ L1 /\ q ∉ L2 /\ (forall i, i ∈ L1 -> i ∉ L2) /\ NoDup L1 /\ NoDup L2).
  { rewrite NoDup_app, NoDup_cons in Hnd. set_solver. }
  destruct Hq as (Hq1 & Hq2 & Hd & Hnd1 & Hnd2).
  pose proof (seg_last _ _ _ _ H1) as El. pose proof (seg_first _ _ _ _ H2) as Ef.
  assert (Hleft : forall z, p_prev (m !!! q) = z -> p_next (m !!! q) = hd y L2 -> True) by done.
  destruct L1 as [|l L1 _] using rev_ind; destruct L2 as [|r L2]; cbn [hd] in Ef.
  - simpl in *. rewrite El, Ef in *. done.
  - cbn [List.last] in El. rewrite El, Ef in *. cbn [app seg] in *.
    split_and!; auto. destruct H2 as (_ & _ & H2). eapply seg_frame; [done| |].
    + intros i Hi. apply Fn. set_solver.
    + intros i Hi. apply Fp. rewrite NoDup_cons in Hnd2. set_solver.
  - rewrite List.last_last in El. rewrite El, Ef in *. rewrite app_nil_r.
    rewrite seg_snoc in H1 |- *. destruct H1 as (H1 & _). split_and!; auto.
    rewrite NoDup_app in Hnd1. eapply seg_frame; [done| |].
    + intros i Hi. apply Fn. set_solver.
    + intros i Hi. apply Fp. set_solver.
  - rewrite List.last_last in El. rewrite El, Ef in *. rewrite <- app_assoc. cbn [app].
    rewrite seg_snoc in H1. destruct H1 as (H1 & _). cbn [seg] in H2. destruct H2 as (_ & _ & H2).
    rewrite NoDup_app in Hnd1. rewrite NoDup_cons in Hnd2.
    rewrite seg_app. cbn [seg]. split_and!; auto.
    + eapply seg_frame; [done| |]; intros i Hi; [apply Fn | apply Fp]; set_solver.
    + eapply seg_frame; [done| |]; intros i Hi; [apply Fn | apply Fp]; set_solver.
Qed.

(** ** The representation predicate *)

(** [a .. b] is a maximal run of [S]. *)
Definition is_run (S : gset Z) (a b : Z) : Prop :=
  a <= b /\ (forall i, a <= i <= b -> i ∈ S) /\ ~ (a - 1 ∈ S) /\ ~ (b + 1 ∈ S).

Definition is_start (S : gset Z) (a : Z) : Prop := a ∈ S /\ ~ (a - 1 ∈ S).

Record rep (k : list_kind) (n : Z) (m : pstore) (S : gset Z) (L : list Z) : Prop := {
  rep_bound : forall i, i ∈ S -> 0 <= i < n;
  rep_toggle : forall i, 0 <= i <= n ->
    toggle k (m !!! i) = xorb (bool_decide (i ∈ S)) (bool_decide (i - 1 ∈ S));
  rep_partner : forall a b, is_run S a b ->
    p_partner (m !!! a) = b /\ p_partner (m !!! b) = a;
  rep_nodup : NoDup L;
  rep_starts : forall a, a ∈ L <-> is_start S a;
  rep_seg : seg m (head_of k) L (head_of k)
}.

(** The pages a list may touch: its members and its head. *)
Definition touched (k : list_kind) (S : gset Z) (i : Z) : Prop := i ∈ S \/ i = head_of k.

(** Everything of a page record but its three links and the toggle [k]. *)
Definition same_rest (k : list_kind) (p q : page) : Prop :=
  p_mem p = p_mem q /\ p_prot p = p_prot q /\ p_twin p = p_twin q /\ p_state p = p_state q /\
  p_manager p = p_manager q /\ p_wn p = p_wn q /\
  match k with Inval => p_dirty p = p_dirty q | Dirty => p_inval p = p_inval q end.

Definition same_links (p q : page) : Prop :=
  p_prev p = p_prev q /\ p_next p = p_next q /\ p_partner p = p_partner q.

Lemma head_not_page k n i : n <= NPAGES -> 0 <= i < n -> i <> head_of k.
Proof. unfold NPAGES, head_of, PAGE_DIRTY. destruct k; unfold NPAGES; lia. Qed.

Lemma head_valid k : valid_ptr (head_of k) = true.
Proof. by destruct k. Qed.

Lemma page_valid i : 0 <= i <= NPAGES -> valid_ptr i = true.
Proof.
  intros H. unfold valid_ptr. rewrite orb_true_iff, andb_true_iff. right.
  rewrite !Z.leb_le. lia.
Qed.

Lemma run_start S a b : is_run S a b -> is_start S a.
Proof. intros (H1 & H2 & H3 & H4). split; [apply H2; lia|done]. Qed.

(** A bounded run has an end, found by going up from its start. *)
Lemma run_end_exists n S a :
  (forall i, i ∈ S -> i < n) -> is_start S a -> exists b, is_run S a b.
Proof.
  intros Hb [Ha Ha'].
  assert (Hup : forall d c, Z.of_nat d = n - c -> a <= c -> (forall i, a <= i <= c -> i ∈ S) ->
    exists b, c <= b /\ (forall i, a <= i <= b -> i ∈ S) /\ ~ (b + 1 ∈ S)).
  { induction d as [|d IH]; intros c Hd Hc Hin.
    - pose proof (Hb c (Hin c ltac:(lia))). lia.
    - destruct (decide (c + 1 ∈ S)) as [Hs|Hs]; [|exists c; split_and!; auto; lia].
      destruct (IH (c + 1)) as (b & H1 & H2 & H3); [lia|lia| |].
      + intros i Hi. destruct (decide (i = c + 1)) as [->|]; [done|apply Hin; lia].
      + exists b. split_and!; auto. lia. }
  pose proof (Hb a Ha) as Han.
  destruct (Hup (Z.to_nat (n - a)) a) as (b & H1 & H2 & H3); [lia|lia| |].
  - intros i Hi. by replace i with a by lia.
  - exists b. split_and!; auto.
Qed.

Lemma run_begin_exists S b :
  (forall i, i ∈ S -> 0 <= i) -> b ∈ S -> ~ (b + 1 ∈ S) -> exists a, is_run S a b.
Proof.
  intros Hb Hin Hn.
  assert (Hdn : forall d c, Z.of_nat d = c + 1 -> c <= b -> (forall i, c <= i <= b -> i ∈ S) ->
    exists a, a <= c /\ (forall i, a <= i <= b -> i ∈ S) /\ ~ (a - 1 ∈ S)).
  { induction d as [|d IH]; intros c Hd Hc Hi.
    - pose proof (Hb c (Hi c ltac:(lia))). lia.
    - destruct (decide (c - 1 ∈ S)) as [Hs|Hs]; [|exists c; split_and!; auto; lia].
      destruct (IH (c - 1)) as (a & H1 & H2 & H3); [lia|lia| |].
      + intros i Hj. destruct (decide (i = c - 1)) as [->|]; [done|apply Hi; lia].
      + exists a. split_and!; auto. lia. }
  pose proof (Hb b Hin).
  destruct (Hdn (Z.to_nat (b + 1)) b) as (a & H1 & H2 & H3); [lia|lia| |].
  - intros i Hi. by replace i with b by lia.
  - exists a. unfold is_run. split_and!; auto.
Qed.

Lemma run_unique_end S a b b' : is_run S a b -> is_run S a b' -> b = b'.
Proof.
  intros (H1 & H2 & H3 & H4) (H1' & H2' & H3' & H4').
  destruct (Z.lt_trichotomy b b') as [Hl|[Hl|Hl]]; [|done|].
  - exfalso. apply H4, H2'. lia.
  - exfalso. apply H4', H2. lia.
Qed.

(** The list of a store whose records of touched pages keep their links. *)
Lemma rep_frame k n m m' S L :
  rep k n m S L ->
  (forall i, touched k S i -> same_links (m' !!! i) (m !!! i)) ->
  (forall i, 0 <= i <= n -> toggle k (m' !!! i) = toggle k (m !!! i)) ->
  rep k n m' S L.
Proof.
  intros [Hb Ht Hp Hn Hs Hg] Hl Hto.
  assert (HL : forall i, i ∈ L -> touched k S i) by (intros i Hi; left; by apply Hs in Hi as []).
  split; auto.
  - intros i Hi. rewrite Hto by done. auto.
  - intros a b Hr. destruct (Hl a) as (_ & _ & ->); [left; apply Hr; destruct Hr; lia|].
    destruct (Hl b) as (_ & _ & ->); [left; apply Hr; destruct Hr; lia|]. auto.
  - eapply seg_frame; [done| |]; intros i Hi; apply Hl; [|rewrite elem_of_app, list_elem_of_singleton in Hi].
    + apply elem_of_cons in Hi as [->|Hi]; [by right|auto].
    + destruct Hi as [Hi| ->]; [auto|by right].
Qed.

Lemma rep_empty k n m :
  (forall i, 0 <= i <= n -> toggle k (m !!! i) = false) ->
  p_next (m !!! head_of k) = head_of k -> p_prev (m !!! head_of k) = head_of k ->
  rep k n m ∅ [].
Proof.
  intros Ht Hn Hp. split.
  - set_solver.
  - intros i Hi. rewrite Ht by done. rewrite !bool_decide_false by set_solver. done.
  - intros a b (H1 & H2 & _). specialize (H2 a ltac:(lia)). set_solver.
  - constructor.
  - intros a. unfold is_start. set_solver.
  - done.
Qed.

(** ** Running the merge *)
Lemma rd_ok {A} (f : page -> A) p m : valid_ptr p = true -> rd f p m = Ok (f (m !!! p), m).
Proof. unfold rd. by intros ->. Qed.

Lemma wr_ok p f m : valid_ptr p = true -> wr p f m = Ok (tt, upd p f m).
Proof. unfold wr. by intros ->. Qed.

Lemma flip_ok k p m : valid_ptr p = true ->
  flip k p m = Ok (negb (toggle k (m !!! p)), upd p (set_toggle k (negb (toggle k (m !!! p)))) m).
Proof.
  intros H. unfold flip. rewrite (bind_Ok _ _ _ _ _ (rd_ok _ _ _ H)), xorb_true_r.
  by rewrite (bind_Ok _ _ _ _ _ (wr_ok _ _ _ H)).
Qed.

Lemma toggle_set_toggle k b p : toggle k (set_toggle k b p) = b.
Proof. by destruct k. Qed.

Lemma same_rest_refl k p : same_rest k p p.
Proof. unfold same_rest. destruct k; tauto. Qed.

Lemma same_links_refl p : same_links p p.
Proof. unfold same_links. tauto. Qed.
Lemma same_rest_trans k p q r : same_rest k p q -> same_rest k q r -> same_rest k p r.
Proof.
  unfold same_rest. intros (?&?&?&?&?&?&?) (?&?&?&?&?&?&?).
  split_and!; try congruence. destruct k; congruence.
Qed.

Lemma same_links_trans p q r : same_links p q -> same_links q r -> same_links p r.
Proof. unfold same_links. intros (?&?&?) (?&?&?). split_and!; congruence. Qed.

Lemma same_rest_partner k a p : same_rest k (set_partner a p) p.
Proof. unfold same_rest. destruct k; tauto. Qed.

Lemma same_rest_upd k i f m j :
  (forall p, same_rest k (f p) p) -> same_rest k (upd i f m !!! j) (m !!! j).
Proof.
  intros Hf. rewrite upd_lookup. case_decide as H; [rewrite <- H; apply Hf|].
  unfold same_rest. destruct k; tauto.
Qed.
#[export] Hint Resolve same_rest_partner : tmk.
#[export] Hint Resolve same_rest_refl same_links_refl head_valid : tmk.

(** Case analysis on which updates of a store a lookup meets. *)
Ltac upd_cases :=
  repeat rewrite upd_lookup;
  repeat case_decide;
  cbn [toggle set_toggle set_prev set_next set_partner set_inval set_dirty set_prot set_wn
       p_prev p_next p_partner p_mem p_prot p_twin p_state p_manager p_inval p_dirty p_wn];
  rewrite ?toggle_set_toggle;
  repeat match goal with |- _ /\ _ => split end;
  try done; try congruence; try lia.

(** [m'] is [m] with other links and another toggle [k] on pages that [P]
    allows; partners may not change. *)
Definition relinks (k : list_kind) (P : Z -> Prop) (m m' : pstore) : Prop :=
  (forall i, same_rest k (m' !!! i) (m !!! i)) /\
  (forall i, ~ P i -> same_links (m' !!! i) (m !!! i)).

(** Linking a new run: the five stores of the first branch. *)
Definition link_last (k : list_kind) (p : page_t) (m : pstore) : pstore :=
  let prev := p_prev (m !!! head_of k) in
  upd (head_of k) (set_prev p) (upd prev (set_next p)
    (upd p (set_next (head_of k)) (upd p (set_prev prev) m))).

Lemma link_last_seg k p m L :
  seg m (head_of k) L (head_of k) -> NoDup (head_of k :: L) -> p <> head_of k -> p ∉ L ->
  seg (link_last k p m) (head_of k) (L ++ [p]) (head_of k).
Proof.
  intros Hs Hnd Hp HL. pose proof (seg_last _ _ _ _ Hs) as Hlast.
  assert (Hprev : p_prev (m !!! head_of k) ∈ head_of k :: L).
  { rewrite Hlast. clear. induction L as [|a L IH] using rev_ind; [set_solver|].
    rewrite List.last_last. set_solver. }
  assert (p <> p_prev (m !!! head_of k)) by (intros E; rewrite <- E in Hprev; set_solver).
  eapply seg_push; try done; unfold link_last.
  - by upd_cases.
  - by upd_cases.
  - by upd_cases.
  - by upd_cases.
  - intros i Hi Hi'. assert (i <> p) by (intros ->; set_solver). by upd_cases.
  - intros i Hi. assert (i <> p) by (intros ->; set_solver).
    assert (i <> head_of k) by (rewrite NoDup_cons in Hnd; set_solver). by upd_cases.
Qed.

Lemma link_last_partner k p m i : p_partner (link_last k p m !!! i) = p_partner (m !!! i).
Proof. unfold link_last. by upd_cases. Qed.

Lemma link_last_toggle k p m i : toggle k (link_last k p m !!! i) = toggle k (m !!! i).
Proof. unfold link_last. destruct k; by upd_cases. Qed.

Lemma link_last_rest k p m i : same_rest k (link_last k p m !!! i) (m !!! i).
Proof. unfold link_last, same_rest. destruct k; by upd_cases. Qed.

Lemma link_last_links k p m i : i <> p -> i <> head_of k -> i <> p_prev (m !!! head_of k) ->
  same_links (link_last k p m !!! i) (m !!! i).
Proof. intros. unfold link_last, same_links. by upd_cases. Qed.

(** Unlinking a run: the two stores of the second branch. *)
Definition unlink (q : page_t) (m : pstore) : pstore :=
  upd (p_prev (m !!! q)) (set_next (p_next (m !!! q)))
    (upd (p_next (m !!! q)) (set_prev (p_prev (m !!! q))) m).

Lemma unlink_partner q m i : p_partner (unlink q m !!! i) = p_partner (m !!! i).
Proof. unfold unlink. by upd_cases. Qed.

Lemma unlink_toggle k q m i : toggle k (unlink q m !!! i) = toggle k (m !!! i).
Proof. unfold unlink. destruct k; by upd_cases. Qed.

Lemma unlink_rest k q m i : same_rest k (unlink q m !!! i) (m !!! i).
Proof. unfold unlink, same_rest. destruct k; by upd_cases. Qed.

Lemma unlink_links q m i : i <> p_prev (m !!! q) -> i <> p_next (m !!! q) ->
  same_links (unlink q m !!! i) (m !!! i).
Proof. intros. unfold unlink, same_links. by upd_cases. Qed.

Lemma unlink_seg q m h L1 L2 :
  seg m h (L1 ++ q :: L2) h -> NoDup (L1 ++ q :: L2) -> h ∉ L1 ++ q :: L2 ->
  seg (unlink q m) h (L1 ++ L2) h.
Proof.
  intros Hs Hnd Hh. rewrite seg_app in Hs. destruct Hs as [H1 H2].
  eapply seg_unlink; [exact H1|exact H2|done|done|done| | | |]; unfold unlink.
  - by upd_cases.
  - by upd_cases.
  - intros i Hi. by upd_cases.
  - intros i Hi. by upd_cases.
Qed.

(** The neighbours of an element of a circular list are on the list. *)
Lemma seg_neighbours m h L q : seg m h L h -> q ∈ h :: L ->
  p_prev (m !!! q) ∈ h :: L /\ p_next (m !!! q) ∈ h :: L.
Proof.
  intros Hs Hq. apply elem_of_cons in Hq as [->|Hq].
  - rewrite (seg_last _ _ _ _ Hs), (seg_first _ _ _ _ Hs). split.
    + clear. induction L as [|a L IH] using rev_ind; [set_solver|]. rewrite List.last_last. set_solver.
    + destruct L; set_solver.
  - apply list_elem_of_split in Hq as (L1 & L2 & ->). rewrite seg_app in Hs. destruct Hs as [H1 H2].
    rewrite (seg_last _ _ _ _ H1), (seg_first _ _ _ _ H2). split.
    + clear. induction L1 as [|a L IH] using rev_ind; [set_solver|]. rewrite List.last_last. set_solver.
    + destruct L2; set_solver.
Qed.

Lemma run_overlap S a b a' b' x :
  is_run S a b -> is_run S a' b' -> a <= x <= b -> a' <= x <= b' -> a = a' /\ b = b'.
Proof.
  intros (H1 & H2 & H3 & H4) (H1' & H2' & H3' & H4') Hx Hx'. split.
  - destruct (Z.lt_trichotomy a a') as [Hl|[Hl|Hl]]; [|done|]; exfalso.
    + apply H3', H2. lia.
    + apply H3, H2'. lia.
  - destruct (Z.lt_trichotomy b b') as [Hl|[Hl|Hl]]; [|done|]; exfalso.
    + apply H4, H2'. lia.
    + apply H4', H2. lia.
Qed.

(** A run of [S] that is not next to [p] is a run of [S] with [p] added, and
    conversely. *)
Lemma run_apart S p a b :
  is_run (S ∪ {[p]}) a b -> ~ (a <= p <= b) -> is_run S a b.
Proof.
  intros (H1 & H2 & H3 & H4) Hp. split_and!; [done| |set_solver|set_solver].
  intros i Hi. specialize (H2 i Hi). assert (i <> p) by lia. set_solver.
Qed.

(** What the two halves of the merge compute, as functions. *)
Definition st_flip (k : list_kind) (p : Z) (m : pstore) : pstore :=
  upd p (set_toggle k (negb (toggle k (m !!! p)))) m.

Definition st_first (k : list_kind) (p : Z) (m : pstore) : pstore :=
  if toggle k (m !!! p) then st_flip k p m else link_last k p (st_flip k p m).

Definition end_first (k : list_kind) (p : Z) (m : pstore) : Z :=
  if toggle k (m !!! p) then p_partner (m !!! (p - 1)) else p.

Definition st_second (k : list_kind) (q : Z) (m : pstore) : pstore :=
  if toggle k (m !!! q) then unlink q (st_flip k q m) else st_flip k q m.

Definition end_last (k : list_kind) (q : Z) (m : pstore) : Z :=
  if toggle k (m !!! q) then p_partner (m !!! q) else q - 1.

Lemma st_flip_links k p m i : same_links (st_flip k p m !!! i) (m !!! i).
Proof. unfold st_flip, same_links. destruct k; by upd_cases. Qed.

Lemma st_flip_rest k p m i : same_rest k (st_flip k p m !!! i) (m !!! i).
Proof. unfold st_flip, same_rest. destruct k; by upd_cases. Qed.

Lemma st_flip_toggle k p m i :
  toggle k (st_flip k p m !!! i) = xorb (toggle k (m !!! i)) (bool_decide (i = p)).
Proof.
  unfold st_flip. rewrite upd_lookup. case_decide.
  - subst. rewrite toggle_set_toggle, bool_decide_true by done. by rewrite xorb_true_r.
  - rewrite bool_decide_false by congruence. by rewrite xorb_false_r.
Qed.

Lemma merge_first_eq k p m :
  valid_ptr p = true -> valid_ptr (p - 1) = true \/ toggle k (m !!! p) = false ->
  valid_ptr (p_prev (m !!! head_of k)) = true ->
  merge_first k p m = Ok (end_first k p m, st_first k p m).
Proof.
  intros Hp Hp1 Hv. unfold merge_first, end_first, st_first.
  rewrite (bind_Ok _ _ _ _ _ (flip_ok k p m Hp)). fold (st_flip k p m).
  destruct (toggle k (m !!! p)); cbn [negb].
  - destruct Hp1 as [Hp1|]; [|done]. rewrite rd_ok by done. do 2 f_equal. apply st_flip_links.
  - rewrite <- (proj1 (st_flip_links k p m (head_of k))) in Hv.
    rewrite (bind_Ok _ _ _ _ _ (rd_ok _ _ _ (head_valid k))).
    do 2 rewrite (bind_Ok _ _ _ _ _ (wr_ok p _ _ Hp)).
    rewrite (bind_Ok _ _ _ _ _ (wr_ok _ _ _ Hv)).
    by rewrite (bind_Ok _ _ _ _ _ (wr_ok _ _ _ (head_valid k))).
Qed.

Lemma merge_second_eq k q m :
  valid_ptr q = true ->
  (toggle k (m !!! q) = true -> valid_ptr (p_prev (m !!! q)) = true /\ valid_ptr (p_next (m !!! q)) = true) ->
  merge_second k q m = Ok (end_last k q m, st_second k q m).
Proof.
  intros Hq Hv. unfold merge_second, end_last, st_second.
  rewrite (bind_Ok _ _ _ _ _ (flip_ok k q m Hq)). fold (st_flip k q m).
  destruct (toggle k (m !!! q)); cbn [negb]; [|done].
  destruct (Hv eq_refl) as [Hv1 Hv2]. pose proof (st_flip_links k q m q) as (E1 & E2 & E3).
  rewrite <- E1 in Hv1. rewrite <- E2 in Hv2.
  do 2 rewrite (bind_Ok _ _ _ _ _ (rd_ok _ _ _ Hq)).
  rewrite (bind_Ok _ _ _ _ _ (wr_ok _ _ _ Hv2)).
  rewrite (bind_Ok _ _ _ _ _ (wr_ok _ _ _ Hv1)). rewrite rd_ok by done.
  do 2 f_equal. rewrite <- E3. apply unlink_partner.
Qed.

Section Merge.
Context (k : list_kind) (n : Z) (m : pstore) (S : gset Z) (L : list Z) (p : Z).
Context (Hrep : rep k n m S L) (Hn : n <= NPAGES) (Hp : 0 <= p < n) (HpS : ~ (p ∈ S)).

Local Lemma toggle_p : toggle k (m !!! p) = bool_decide (p - 1 ∈ S).
Proof. rewrite (rep_toggle _ _ _ _ _ Hrep) by lia. by rewrite bool_decide_false by done. Qed.

Local Lemma toggle_p1 : toggle k (m !!! (p + 1)) = bool_decide (p + 1 ∈ S).
Proof.
  rewrite (rep_toggle _ _ _ _ _ Hrep) by lia.
  rewrite (bool_decide_false (p + 1 - 1 ∈ S)); [by rewrite xorb_false_r|].
  by replace (p + 1 - 1) with p by lia.
Qed.

Local Lemma start_bound a : a ∈ L -> 0 <= a < n.
Proof. intros [Ha _]%(rep_starts _ _ _ _ _ Hrep). by apply (rep_bound _ _ _ _ _ Hrep). Qed.

Local Lemma head_fresh : NoDup (head_of k :: L).
Proof.
  constructor; [|apply Hrep]. intros Hi. pose proof (start_bound _ Hi).
  by apply (head_not_page k n (head_of k)).
Qed.

Local Lemma p_fresh : p <> head_of k /\ p ∉ L.
Proof.
  split; [by apply (head_not_page k n)|]. by intros [? _]%(rep_starts _ _ _ _ _ Hrep).
Qed.

Local Lemma list_valid i : i ∈ head_of k :: L -> valid_ptr i = true.
Proof.
  rewrite elem_of_cons. intros [->|Hi]; [apply head_valid|].
  pose proof (start_bound _ Hi). apply page_valid. lia.
Qed.

Local Lemma first_run : end_first k p m <= p /\
  (forall i, end_first k p m <= i < p -> i ∈ S) /\ ~ (end_first k p m - 1 ∈ S).
Proof.
  unfold end_first. rewrite toggle_p. case_bool_decide as Hb; [|split_and!; auto; lia].
  destruct (run_begin_exists S (p - 1)) as [a Hr]; auto.
  { intros i Hi. by apply (rep_bound _ _ _ _ _ Hrep). }
  { by replace (p - 1 + 1) with p by lia. }
  destruct (rep_partner _ _ _ _ _ Hrep _ _ Hr) as [_ ->].
  destruct Hr as (H1 & H2 & H3 & H4). split_and!; auto; [lia|]. intros i Hi. apply H2. lia.
Qed.

Local Lemma last_run : p <= end_last k (p + 1) m /\
  (forall i, p < i <= end_last k (p + 1) m -> i ∈ S) /\ ~ (end_last k (p + 1) m + 1 ∈ S).
Proof.
  unfold end_last. rewrite toggle_p1.
  case_bool_decide as Hb; [|replace (p + 1 - 1) with p by lia; split_and!; auto; lia].
  destruct (run_end_exists n S (p + 1)) as [b Hr].
  { intros i Hi. by apply (rep_bound _ _ _ _ _ Hrep). }
  { split; [done|]. by replace (p + 1 - 1) with p by lia. }
  destruct (rep_partner _ _ _ _ _ Hrep _ _ Hr) as [-> _].
  destruct Hr as (H1 & H2 & H3 & H4). split_and!; auto; [lia|]. intros i Hi. apply H2. lia.
Qed.

Local Lemma merged_run : is_run (S ∪ {[p]}) (end_first k p m) (end_last k (p + 1) m).
Proof.
  pose proof first_run as (F1 & F2 & F3). pose proof last_run as (G1 & G2 & G3).
  split_and!; [lia| | |].
  - intros i Hi. destruct (Z.lt_trichotomy i p) as [H|[->|H]]; [|set_solver|].
    + specialize (F2 i ltac:(lia)). set_solver.
    + specialize (G2 i ltac:(lia)). set_solver.
  - assert (end_first k p m - 1 <> p) by lia. set_solver.
  - assert (end_last k (p + 1) m + 1 <> p) by lia. set_solver.
Qed.

Local Lemma union_bound i : i ∈ S ∪ {[p]} -> 0 <= i < n.
Proof. intros [Hi|Hi]%elem_of_union; [by apply (rep_bound _ _ _ _ _ Hrep)|]. set_solver. Qed.

Local Lemma ends_bound : 0 <= end_first k p m < n /\ 0 <= end_last k (p + 1) m < n.
Proof. pose proof merged_run as (H1 & H2 & _). split; apply union_bound, H2; lia. Qed.

Local Lemma first_toggle i :
  toggle k (st_first k p m !!! i) = xorb (toggle k (m !!! i)) (bool_decide (i = p)).
Proof.
  unfold st_first. destruct (toggle k (m !!! p)); rewrite ?link_last_toggle; apply st_flip_toggle.
Qed.

Local Lemma first_partner i : p_partner (st_first k p m !!! i) = p_partner (m !!! i).
Proof.
  unfold st_first. destruct (toggle k (m !!! p)); rewrite ?link_last_partner; apply st_flip_links.
Qed.

Local Lemma first_seg : exists L1,
  seg (st_first k p m) (head_of k) L1 (head_of k) /\ NoDup (head_of k :: L1) /\
  (forall x, x ∈ L1 <-> x ∈ L \/ (x = p /\ ~ (p - 1 ∈ S))).
Proof.
  pose proof head_fresh as Hnd. pose proof p_fresh as [Hph HpL].
  assert (Hs : seg (st_flip k p m) (head_of k) L (head_of k)).
  { eapply seg_frame; [apply Hrep| |]; intros i _; apply st_flip_links. }
  unfold st_first. rewrite toggle_p. case_bool_decide as Hb.
  - exists L. split_and!; auto. intros x. tauto.
  - exists (L ++ [p]). split_and!.
    + by apply link_last_seg.
    + rewrite NoDup_cons in Hnd |- *. rewrite NoDup_app. set_solver by eauto using NoDup_singleton.
    + intros x. rewrite elem_of_app, list_elem_of_singleton. tauto.
Qed.

Local Lemma prev_valid i : i ∈ head_of k :: L -> p_prev (m !!! i) ∈ head_of k :: L.
Proof. intros Hi. by apply (seg_neighbours m _ L i); [apply Hrep|]. Qed.

Local Lemma first_links i : ~ touched k (S ∪ {[p]}) i -> same_links (st_first k p m !!! i) (m !!! i).
Proof.
  intros Hi. pose proof (st_flip_links k p m) as Hf. unfold st_first.
  destruct (toggle k (m !!! p)); [apply Hf|].
  assert (Hin : forall x, x ∈ head_of k :: L -> touched k (S ∪ {[p]}) x).
  { intros x [->|Hx]%elem_of_cons; [by right|]. left.
    apply (rep_starts _ _ _ _ _ Hrep) in Hx as []. set_solver. }
  assert (Hl : same_links (link_last k p (st_flip k p m) !!! i) (st_flip k p m !!! i)).
  { apply link_last_links.
    - intros ->. apply Hi. left. set_solver.
    - intros ->. apply Hi. by right.
    - intros ->. apply Hi, Hin. rewrite (proj1 (Hf (head_of k))). apply prev_valid. set_solver. }
  eapply same_links_trans; [exact Hl|apply Hf].
Qed.

Local Lemma first_rest i : same_rest k (st_first k p m !!! i) (m !!! i).
Proof.
  pose proof (st_flip_rest k p m i) as Hf. unfold st_first. destruct (toggle k (m !!! p)); [done|].
  pose proof (link_last_rest k p (st_flip k p m) i) as Hl.
  by eapply same_rest_trans.
Qed.

Local Lemma second_toggle_p1 :
  toggle k (st_first k p m !!! (p + 1)) = bool_decide (p + 1 ∈ S).
Proof.
  rewrite first_toggle, toggle_p1, (bool_decide_false (p + 1 = p)) by lia. by rewrite xorb_false_r.
Qed.

Local Lemma second_end : end_last k (p + 1) (st_first k p m) = end_last k (p + 1) m.
Proof. unfold end_last. by rewrite second_toggle_p1, toggle_p1, first_partner. Qed.

Local Lemma second_toggle i :
  toggle k (st_second k (p + 1) (st_first k p m) !!! i) =
    xorb (xorb (toggle k (m !!! i)) (bool_decide (i = p))) (bool_decide (i = p + 1)).
Proof.
  unfold st_second. rewrite <- first_toggle.
  destruct (toggle k (st_first k p m !!! (p + 1))); rewrite ?unlink_toggle; apply st_flip_toggle.
Qed.

Local Lemma second_partner i :
  p_partner (st_second k (p + 1) (st_first k p m) !!! i) = p_partner (m !!! i).
Proof.
  unfold st_second. rewrite <- (first_partner i).
  destruct (toggle k (st_first k p m !!! (p + 1))); rewrite ?unlink_partner; apply st_flip_links.
Qed.

Local Lemma second_rest i :
  same_rest k (st_second k (p + 1) (st_first k p m) !!! i) (m !!! i).
Proof.
  pose proof (first_rest i) as Hr.
  pose proof (st_flip_rest k (p + 1) (st_first k p m) i) as Hf. unfold st_second.
  pose proof (unlink_rest k (p + 1) (st_flip k (p + 1) (st_first k p m)) i) as Hl.
  destruct (toggle k (st_first k p m !!! (p + 1))); eauto using same_rest_trans.
Qed.

Local Lemma new_starts x :
  is_start (S ∪ {[p]}) x <-> (is_start S x \/ (x = p /\ ~ (p - 1 ∈ S))) /\ x <> p + 1.
Proof.
  unfold is_start. rewrite !elem_of_union, !elem_of_singleton. split.
  - intros [[Hx| ->] Hn'].
    + split; [left; tauto|]. intros ->. apply Hn'. right. lia.
    + split; [right; tauto|lia].
  - intros [[[Hx Hx']|[-> Hx]] Hne].
    + split; [tauto|]. intros [H|H]; [done|]. lia.
    + split; [tauto|]. intros [H|H]; [done|]. lia.
Qed.

Local Lemma second_seg : exists L2,
  seg (st_second k (p + 1) (st_first k p m)) (head_of k) L2 (head_of k) /\ NoDup L2 /\
  (forall x, x ∈ L2 <-> is_start (S ∪ {[p]}) x).
Proof.
  destruct first_seg as (L1 & Hs & Hnd & HL).
  assert (Hf : seg (st_flip k (p + 1) (st_first k p m)) (head_of k) L1 (head_of k)).
  { eapply seg_frame; [exact Hs| |]; intros i _; apply st_flip_links. }
  assert (HL' : forall x, x ∈ L1 <-> is_start S x \/ (x = p /\ ~ (p - 1 ∈ S))).
  { intros x. by rewrite HL, (rep_starts _ _ _ _ _ Hrep). }
  apply NoDup_cons in Hnd as [Hh Hnd].
  unfold st_second. rewrite second_toggle_p1. case_bool_decide as Hb.
  - assert (Hin : p + 1 ∈ L1).
    { apply HL'. left. split; [done|]. by replace (p + 1 - 1) with p by lia. }
    apply list_elem_of_split in Hin as (A & B & ->). exists (A ++ B). split_and!.
    + by apply unlink_seg.
    + apply NoDup_app in Hnd as (N1 & N2 & N3). apply NoDup_cons in N3 as [N3 N4].
      apply NoDup_app. split_and!; auto. set_solver.
    + intros x. rewrite new_starts, <- HL'. rewrite !elem_of_app, elem_of_cons.
      apply NoDup_app in Hnd as (N1 & N2 & N3). apply NoDup_cons in N3 as [N3 N4].
      split; [|tauto]. intros [Hx|Hx]; (split; [tauto|]); intros ->; [|done].
      apply (N2 _ Hx). set_solver.
  - exists L1. split_and!; auto. intros x. rewrite new_starts, <- HL'. split; [|tauto].
    intros Hx. split; [done|]. intros ->. apply HL' in Hx as [[Hx _]|[Hx _]]; [done|lia].
Qed.

Local Lemma second_neighbours : p + 1 ∈ S ->
  let m1 := st_first k p m in
  touched k (S ∪ {[p]}) (p_prev (m1 !!! (p + 1))) /\ touched k (S ∪ {[p]}) (p_next (m1 !!! (p + 1))).
Proof.
  intros Hb m1. destruct first_seg as (L1 & Hs & Hnd & HL). fold m1 in Hs.
  assert (Hin : forall x, x ∈ head_of k :: L1 -> touched k (S ∪ {[p]}) x).
  { intros x [->|Hx]%elem_of_cons; [by right|]. left. apply HL in Hx as [Hx|[-> _]]; [|set_solver].
    apply (rep_starts _ _ _ _ _ Hrep) in Hx as []. set_solver. }
  assert (Hq : p + 1 ∈ head_of k :: L1).
  { apply elem_of_cons. right. apply HL. left. apply (rep_starts _ _ _ _ _ Hrep).
    split; [done|]. by replace (p + 1 - 1) with p by lia. }
  destruct (seg_neighbours _ _ _ _ Hs Hq). auto.
Qed.

Local Lemma touched_valid i : touched k (S ∪ {[p]}) i -> valid_ptr i = true.
Proof.
  intros [Hi| ->]; [|apply head_valid]. apply union_bound in Hi. apply page_valid. lia.
Qed.

Local Lemma second_links i : ~ touched k (S ∪ {[p]}) i ->
  same_links (st_second k (p + 1) (st_first k p m) !!! i) (m !!! i).
Proof.
  intros Hi. pose proof (first_links i Hi) as F. unfold st_second. rewrite second_toggle_p1.
  pose proof (st_flip_links k (p + 1) (st_first k p m)) as Hf.
  case_bool_decide as Hb.
  - destruct (second_neighbours Hb) as [N1 N2].
    assert (Hl : same_links (unlink (p + 1) (st_flip k (p + 1) (st_first k p m)) !!! i)
                            (st_flip k (p + 1) (st_first k p m) !!! i)).
    { destruct (Hf (p + 1)) as (E1 & E2 & _).
      apply unlink_links; [rewrite E1|rewrite E2]; by intros ->. }
    eauto using same_links_trans.
  - eauto using same_links_trans.
Qed.

Lemma merge_run : exists m' L',
  merge k p m = Ok (tt, m') /\ rep k n m' (S ∪ {[p]}) L' /\
  (forall i, same_rest k (m' !!! i) (m !!! i)) /\
  (forall i, ~ touched k (S ∪ {[p]}) i -> same_links (m' !!! i) (m !!! i)).
Proof.
  destruct second_seg as (L2 & Hs & Hnd & HL). pose proof ends_bound as [Hf Hl].
  set (a := end_first k p m) in *. set (b := end_last k (p + 1) m) in *.
  set (m2 := st_second k (p + 1) (st_first k p m)) in *.
  exists (upd b (set_partner a) (upd a (set_partner b) m2)), L2.
  assert (Hpart : forall i, p_partner (upd b (set_partner a) (upd a (set_partner b) m2) !!! i) =
    if decide (i = b) then a else if decide (i = a) then b else p_partner (m !!! i)).
  { intros i. unfold m2. rewrite <- (second_partner i). by upd_cases. }
  split_and!.
  - unfold merge.
    assert (E1 : merge_first k p m = Ok (a, st_first k p m)).
    { apply merge_first_eq; [apply page_valid; lia| |apply list_valid, prev_valid; set_solver].
      rewrite toggle_p. destruct (bool_decide (p - 1 ∈ S)) eqn:Hb; [left|by right].
      apply bool_decide_eq_true in Hb. apply (rep_bound _ _ _ _ _ Hrep) in Hb. apply page_valid. lia. }
    assert (E2 : merge_second k (p + 1) (st_first k p m) = Ok (b, m2)).
    { unfold b. rewrite <- second_end. apply merge_second_eq; [apply page_valid; lia|].
      rewrite second_toggle_p1. intros Hb%bool_decide_eq_true.
      destruct (second_neighbours Hb). split; by apply touched_valid. }
    rewrite (bind_Ok _ _ _ _ _ E1), (bind_Ok _ _ _ _ _ E2).
    rewrite (bind_Ok _ _ _ _ _ (wr_ok a _ _ (page_valid a ltac:(lia)))).
    by rewrite (wr_ok b _ _ (page_valid b ltac:(lia))).
  - split; auto.
    + apply union_bound.
    + intros i Hi.
      assert (toggle k (upd b (set_partner a) (upd a (set_partner b) m2) !!! i) = toggle k (m2 !!! i)) as ->
        by (destruct k; by upd_cases).
      unfold m2. rewrite second_toggle, (rep_toggle _ _ _ _ _ Hrep) by done.
      destruct (decide (i = p)) as [->|Hip]; [|destruct (decide (i = p + 1)) as [->|Hip1]].
      * repeat case_bool_decide; try done; set_solver by lia.
      * replace (p + 1 - 1) with p by lia. repeat case_bool_decide; try done; set_solver by lia.
      * assert (i - 1 <> p) by lia. repeat case_bool_decide; try done; set_solver.
    + intros x y Hr. rewrite !Hpart.
      destruct (decide (x <= p <= y)) as [Hin|Hin].
      * assert (x = a /\ y = b) as [-> ->].
        { eapply run_overlap; [exact Hr|exact merged_run|exact Hin|].
          pose proof first_run. pose proof last_run. unfold a, b. lia. }
        repeat case_decide; split; congruence.
      * pose proof (run_apart _ _ _ _ Hr Hin) as Hr'.
        assert (forall z, x <= z <= y -> z <> a /\ z <> b) as Hne.
        { pose proof merged_run as Hm. pose proof first_run as F. pose proof last_run as G.
          fold a in Hm, F. fold b in Hm, G.
          intros z Hz. split; intros ->;
            (destruct (run_overlap _ _ _ _ _ _ Hr Hm Hz) as [-> ->]; [lia|]; lia). }
        destruct (rep_partner _ _ _ _ _ Hrep _ _ Hr') as [E1 E2]. destruct Hr as [Hxy _].
        destruct (Hne x), (Hne y); [lia..|]. by rewrite !decide_False.
    + eapply seg_frame; [exact Hs| |]; intros i _; by upd_cases.
  - intros i. eapply same_rest_trans; [|apply second_rest]. fold m2.
    eapply same_rest_trans; apply same_rest_upd; intros; apply same_rest_partner.
  - intros i Hi. pose proof (second_links i Hi) as Hr. fold m2 in Hr.
    assert (Hm : forall z, a <= z <= b -> touched k (S ∪ {[p]}) z).
    { intros z Hz. left. by apply merged_run. }
    assert (a <= b) by (pose proof first_run; pose proof last_run; unfold a, b; lia).
    assert (i <> a /\ i <> b) as [] by (split; intros ->; apply Hi, Hm; lia).
    rewrite !upd_ne by done. done.
Qed.
End Merge.

