(* ===== verification/PageWalk.v ===== *)
(** * Walking the merged page lists

    The loops [do { ... } while ((page = page->prev) != end)] over a list of
    [PageLists.v]: they visit every run once, and [Tmk_page_inval_perform]
    protects exactly the pages of the set and empties the list. *)
From S2P Require Import Prelude Pages PageLists.
Local Open Scope Z_scope.

(** ** Walking a list from its last run back to its head *)
Section Walk.
Context {St : Type} (prev_of : page_t -> M St page_t).
Context (h : Z) (inv : St -> Prop) (body : page_t -> M St unit) (step : page_t -> St -> St).
Context (prevs : page_t -> page_t).

Lemma do_while_prev_fold L fuel s :
  L <> [] -> h ∉ L ->
  (forall L1 a L2, L = L1 ++ a :: L2 -> prevs a = List.last L1 h) ->
  (forall a s', a ∈ L -> inv s' -> prev_of a s' = Ok (prevs a, s')) ->
  (forall a s', a ∈ L -> inv s' -> body a s' = Ok (tt, step a s') /\ inv (step a s')) ->
  inv s -> (length L <= fuel)%nat ->
  do_while_prev prev_of fuel h body (List.last L h) s =
    Ok (tt, fold_right step s L) /\ inv (fold_right step s L).
Proof.
  revert fuel s. induction L as [|a L IH] using rev_ind; [done|].
  intros fuel s _ Hh Hback Hprev Hbody Hs Hf. rewrite length_app in Hf. simpl in Hf.
  destruct fuel as [|fuel]; [lia|]. rewrite List.last_last, foldr_snoc. cbn [do_while_prev].
  destruct (Hbody a s ltac:(set_solver) Hs) as [Hb Hi].
  rewrite (bind_Ok _ _ _ _ _ Hb), (bind_Ok _ _ _ _ _ (Hprev a _ ltac:(set_solver) Hi)).
  rewrite (Hback L a []) by done.
  destruct L as [|x L] using rev_ind.
  - simpl. rewrite Z.eqb_refl. done.
  - clear IHL. rewrite List.last_last. destruct (Z.eqb_spec x h) as [->|_]; [set_solver|].
    rewrite <- (List.last_last L x h) at 1. apply IH; try done.
    + by destruct L.
    + set_solver.
    + intros L1 y L2 E. apply (Hback L1 y (L2 ++ [a])). rewrite E, <- app_assoc. done.
    + intros y s' Hy. apply Hprev. set_solver.
    + intros y s' Hy. apply Hbody. set_solver.
    + lia.
Qed.
End Walk.

Lemma seg_back m h L L1 a L2 : seg m h L h -> L = L1 ++ a :: L2 -> p_prev (m !!! a) = List.last L1 h.
Proof. intros Hs ->. rewrite seg_app in Hs. destruct Hs as [Hs _]. by apply seg_last. Qed.

(** ** [Tmk_page_inval_perform] *)
Definition prot_range (first last : Z) (pr : prot_t) (m : pstore) : pstore :=
  fold_left (fun m i => upd i (set_prot pr) m) (seqZ first (last - first)) m.

Lemma for_each_wr f l m :
  (forall i, i ∈ l -> valid_ptr i = true) ->
  for_each (fun i => wr i f) l m = Ok (tt, fold_left (fun m i => upd i f m) l m).
Proof.
  revert m. induction l as [|i l IH]; intros m Hv; [done|]. cbn [for_each fold_left].
  rewrite (bind_Ok _ _ _ _ _ (wr_ok _ _ _ (Hv i ltac:(set_solver)))). apply IH. set_solver.
Qed.

Lemma fold_upd_lookup f l m j :
  (forall p, f (f p) = f p) ->
  fold_left (fun m i => upd i f m) l m !!! j = if decide (j ∈ l) then f (m !!! j) else m !!! j.
Proof.
  intros Hf. revert m. induction l as [|i l IH]; intros m; [done|]. cbn [fold_left].
  rewrite IH, upd_lookup. destruct (decide (i = j)) as [->|Hij].
  - rewrite (decide_True (P := j ∈ j :: l)) by set_solver. case_decide; [apply Hf|done].
  - destruct (decide (j ∈ l)) as [Hjl|Hjl].
    + rewrite decide_True by set_solver. done.
    + rewrite decide_False by set_solver. done.
Qed.

Lemma prot_range_lookup a b pr m j :
  prot_range a b pr m !!! j = if decide (a <= j < b) then set_prot pr (m !!! j) else m !!! j.
Proof.
  unfold prot_range. rewrite fold_upd_lookup by done.
  destruct (decide (a <= j < b)) as [H|H].
  - rewrite decide_True; [done|]. apply elem_of_seqZ. lia.
  - rewrite decide_False; [done|]. rewrite elem_of_seqZ. lia.
Qed.

Definition inval_step (a : Z) (m : pstore) : pstore :=
  let b := p_partner (m !!! a) in
  upd a (set_inval false) (prot_range a (b + 1) PROT_NONE (upd (b + 1) (set_inval false) m)).

Lemma inval_body_run a m :
  let b := p_partner (m !!! a) in 0 <= a -> a <= b < NPAGES ->
  inval_body a m = Ok (tt, inval_step a m).
Proof.
  intros b Ha Hb. unfold inval_body. rewrite (bind_Ok _ _ _ _ _ (rd_ok _ a _ (page_valid a ltac:(lia)))).
  fold b. rewrite (bind_Ok _ _ _ _ _ (wr_ok (b + 1) _ _ (page_valid (b + 1) ltac:(lia)))).
  unfold mprotect_range. erewrite bind_Ok.
  2:{ apply for_each_wr. intros i Hi%elem_of_seqZ. apply page_valid. lia. }
  by rewrite (wr_ok a _ _ (page_valid a ltac:(lia))).
Qed.

Lemma inval_step_lookup a m j : let b := p_partner (m !!! a) in a <= b ->
  inval_step a m !!! j =
    (let q := if decide (a <= j <= b) then set_prot PROT_NONE (m !!! j) else m !!! j in
     if decide (j = a \/ j = b + 1) then set_inval false q else q).
Proof.
  intros b Hb. unfold inval_step. fold b. cbv zeta. clearbody b.
  rewrite upd_lookup, !prot_range_lookup, !upd_lookup.
  repeat case_decide; try lia; subst; done.
Qed.

(** [s] is [m] after the runs that start in [D] have been protected. *)
Definition inval_done (n : Z) (m : pstore) (D : list Z) (s : pstore) : Prop :=
  let pb a := p_partner (m !!! a) in
  (forall j, j <> NPAGES -> same_links (s !!! j) (m !!! j)) /\
  (forall j, p_mem (s !!! j) = p_mem (m !!! j) /\ p_twin (s !!! j) = p_twin (m !!! j) /\
     p_state (s !!! j) = p_state (m !!! j) /\ p_manager (s !!! j) = p_manager (m !!! j) /\
     p_dirty (s !!! j) = p_dirty (m !!! j) /\ p_wn (s !!! j) = p_wn (m !!! j)) /\
  (forall j a, a ∈ D -> a <= j <= pb a -> p_prot (s !!! j) = PROT_NONE) /\
  (forall j, (forall a, a ∈ D -> ~ (a <= j <= pb a)) -> p_prot (s !!! j) = p_prot (m !!! j)) /\
  (forall j a, a ∈ D -> j = a \/ j = pb a + 1 -> p_inval (s !!! j) = false) /\
  (forall j, p_inval (s !!! j) = true -> p_inval (m !!! j) = true) /\
  (p_prev (s !!! NPAGES) = NPAGES /\ p_next (s !!! NPAGES) = NPAGES).

Lemma inval_step_done n m D s a :
  inval_done n m D s -> a <> NPAGES -> a <= p_partner (m !!! a) ->
  inval_done n m (a :: D) (inval_step a s).
Proof.
  intros (H1 & H2 & H3 & H4 & H5 & H6 & H7) Ha Hb.
  assert (Hp : p_partner (s !!! a) = p_partner (m !!! a)) by (by apply H1).
  assert (Hlk : forall j, inval_step a s !!! j = _) by (intros j; apply inval_step_lookup; rewrite Hp; done).
  rewrite Hp in Hlk. cbv zeta in Hlk.
  unfold inval_done. cbv zeta. split_and!.
  - intros j Hj. rewrite Hlk. specialize (H1 j Hj). unfold same_links in *.
    repeat case_decide; done.
  - intros j. specialize (H2 j). rewrite Hlk. repeat case_decide; done.
  - intros j c [->|Hc]%elem_of_cons Hj; rewrite Hlk.
    + repeat case_decide; try done; lia.
    + specialize (H3 j c Hc Hj). repeat case_decide; done.
  - intros j Hj. rewrite Hlk. rewrite <- H4 by (intros; apply Hj; set_solver).
    pose proof (Hj a ltac:(set_solver)). repeat case_decide; try done; lia.
  - intros j c [->|Hc]%elem_of_cons Hj; rewrite Hlk.
    + by rewrite (decide_True (P := j = a \/ _)) by done.
    + specialize (H5 j c Hc Hj). repeat case_decide; done.
  - intros j. rewrite Hlk. specialize (H6 j). repeat case_decide; done.
  - rewrite Hlk. repeat case_decide; apply H7.
  - rewrite Hlk. repeat case_decide; apply H7.
Qed.

Lemma inval_fold_done n m s L :
  inval_done n m [] s -> (forall a, a ∈ L -> a <> NPAGES /\ a <= p_partner (m !!! a)) ->
  inval_done n m L (fold_right inval_step s L).
Proof.
  intros Hs. induction L as [|a L IH]; intros HL; [done|]. cbn [fold_right].
  destruct (HL a) as [H1 H2]; [set_solver|]. apply inval_step_done; auto. apply IH. set_solver.
Qed.

(** ** The runs of a represented set *)
Section Runs.
Context (k : list_kind) (n : Z) (m : pstore) (S : gset Z) (L : list Z).
Context (Hrep : rep k n m S L) (Hn : n <= NPAGES).

Lemma start_has_run a : a ∈ L -> is_run S a (p_partner (m !!! a)).
Proof.
  intros Ha%(rep_starts _ _ _ _ _ Hrep).
  destruct (run_end_exists n S a) as [b Hb]; auto.
  { intros i Hi. by apply (rep_bound _ _ _ _ _ Hrep). }
  by destruct (rep_partner _ _ _ _ _ Hrep _ _ Hb) as [-> _].
Qed.

Lemma run_in_bounds a : a ∈ L -> 0 <= a /\ a <= p_partner (m !!! a) < n /\ a <> NPAGES /\ a <> PAGE_DIRTY.
Proof.
  intros Ha. pose proof (start_has_run a Ha) as (H1 & H2 & _).
  pose proof (rep_bound _ _ _ _ _ Hrep a (H2 a ltac:(lia))).
  pose proof (rep_bound _ _ _ _ _ Hrep _ (H2 (p_partner (m !!! a)) (conj H1 (Z.le_refl _)))).
  unfold PAGE_DIRTY. lia.
Qed.

Lemma covered j : j ∈ S <-> exists a, a ∈ L /\ a <= j <= p_partner (m !!! a).
Proof.
  split.
  - intros Hj.
    assert (exists a, a <= j /\ is_start S a /\ forall i, a <= i <= j -> i ∈ S) as (a & H1 & H2 & H3).
    { assert (H : forall d c, Z.of_nat d = c + 1 -> c <= j -> (forall i, c <= i <= j -> i ∈ S) ->
        exists a, a <= j /\ is_start S a /\ forall i, a <= i <= j -> i ∈ S).
      { induction d as [|d IH]; intros c Hd Hc Hi.
        - pose proof (rep_bound _ _ _ _ _ Hrep c (Hi c ltac:(lia))). lia.
        - destruct (decide (c - 1 ∈ S)) as [Hs|Hs].
          + apply (IH (c - 1)); [lia|lia|]. intros i Hj'.
            destruct (decide (i = c - 1)) as [->|]; [done|]. apply Hi. lia.
          + exists c. split_and!; auto. split; [apply Hi; lia|done]. }
      pose proof (rep_bound _ _ _ _ _ Hrep j Hj).
      apply (H (Z.to_nat (j + 1)) j); [lia|lia|]. intros i Hi. by replace i with j by lia. }
    exists a. assert (Ha : a ∈ L) by (by apply (rep_starts _ _ _ _ _ Hrep)). split; [done|].
    destruct (start_has_run a Ha) as (R1 & R2 & R3 & R4). split; [done|].
    destruct (decide (j <= p_partner (m !!! a))); [done|]. exfalso. apply R4, H3. lia.
  - intros (a & Ha & Hj). by apply (start_has_run a Ha).
Qed.

Lemma list_short : (length L <= list_fuel)%nat.
Proof.
  assert (Hsub : L ⊆ seqZ 0 NPAGES).
  { intros a Ha. apply elem_of_seqZ. pose proof (run_in_bounds a Ha). lia. }
  assert (H : L ⊆+ seqZ 0 NPAGES) by (apply NoDup_submseteq; [apply Hrep|done]).
  apply submseteq_length in H. rewrite length_seqZ in H. done.
Qed.

(** The runs are disjoint. *)
Lemma runs_disjoint a a' j : a ∈ L -> a' ∈ L -> a <= j <= p_partner (m !!! a) ->
  a' <= j <= p_partner (m !!! a') -> a = a'.
Proof.
  intros Ha Ha' H1 H2. destruct (start_has_run a Ha) as (_ & R1 & S1 & _).
  destruct (start_has_run a' Ha') as (_ & R2 & S2 & _).
  destruct (Z.lt_trichotomy a a') as [H|[H|H]]; [|done|]; exfalso.
  - apply S2, R1. lia.
  - apply S1, R2. lia.
Qed.

End Runs.

Section Perform.
Context (n : Z) (m : pstore) (S : gset Z) (L : list Z).
Context (Hrep : rep Inval n m S L) (Hn : n <= NPAGES).

Local Abbreviation run_in_bounds := (run_in_bounds Inval n m S L Hrep Hn).
Local Abbreviation covered := (covered Inval n m S L Hrep).
Local Abbreviation list_short := (list_short Inval n m S L Hrep Hn).

Let start : pstore := upd NPAGES (set_next NPAGES) (upd NPAGES (set_prev NPAGES) m).

Local Lemma start_done : inval_done n m [] start.
Proof.
  unfold inval_done, start. cbv zeta.
  split_and!; try intros j; rewrite ?upd_lookup; repeat case_decide; subst; try done; set_solver.
Qed.

Lemma inval_perform_run : exists m',
  Tmk_page_inval_perform m = Ok (tt, m') /\ rep Inval n m' ∅ [] /\
  (forall j, j <> NPAGES -> same_links (m' !!! j) (m !!! j)) /\
  (forall j, p_mem (m' !!! j) = p_mem (m !!! j) /\ p_twin (m' !!! j) = p_twin (m !!! j) /\
     p_state (m' !!! j) = p_state (m !!! j) /\ p_manager (m' !!! j) = p_manager (m !!! j) /\
     p_dirty (m' !!! j) = p_dirty (m !!! j) /\ p_wn (m' !!! j) = p_wn (m !!! j)) /\
  (forall j, p_prot (m' !!! j) = if decide (j ∈ S) then PROT_NONE else p_prot (m !!! j)).
Proof.
  pose proof (rep_seg _ _ _ _ _ Hrep) as Hseg. cbn [head_of] in Hseg.
  pose proof (seg_last _ _ _ _ Hseg) as Hlast.
  assert (Hh : NPAGES ∉ L) by (intros Hi; by destruct (run_in_bounds _ Hi) as (_ & _ & ? & _)).
  destruct (inval_fold_done n m start L start_done) as (D1 & D2 & D3 & D4 & D5 & D6 & D7 & D8).
  { intros a Ha. destruct (run_in_bounds a Ha). lia. }
  exists (if decide (L = []) then m else fold_right inval_step start L).
  assert (Hrun : Tmk_page_inval_perform m =
    Ok (tt, if decide (L = []) then m else fold_right inval_step start L)).
  { unfold Tmk_page_inval_perform.
    rewrite (bind_Ok _ _ _ _ _ (rd_ok _ _ _ (head_valid Inval))). cbn [head_of]. rewrite Hlast.
    destruct (decide (L = [])) as [->|HL]; [by rewrite Z.eqb_refl|].
    rewrite (proj2 (Z.eqb_neq _ _)).
    2:{ intros E. apply Hh. rewrite <- E. destruct L as [|x L' _] using rev_ind; [done|].
        rewrite List.last_last. set_solver. }
    do 2 rewrite (bind_Ok _ _ _ _ _ (wr_ok _ _ _ (head_valid Inval))). cbn [head_of]. fold start.
    refine (proj1 (do_while_prev_fold _ NPAGES
      (fun s => forall j, j <> NPAGES -> same_links (s !!! j) (m !!! j) ) inval_body inval_step
      (fun a => p_prev (m !!! a)) L list_fuel start HL Hh _ _ _ _ _)).
    - intros L1 a L2 E. by eapply seg_back.
    - intros a s' Ha Hs'. destruct (run_in_bounds a Ha) as (B1 & B2 & B3 & _).
      rewrite rd_ok by (apply page_valid; lia). do 2 f_equal. by apply Hs'.
    - intros a s' Ha Hs'. destruct (run_in_bounds a Ha) as (B1 & B2 & B3 & _).
      assert (Hp : p_partner (s' !!! a) = p_partner (m !!! a)) by (by apply Hs').
      split; [apply inval_body_run; rewrite ?Hp; lia|].
      intros j Hj. specialize (Hs' j Hj). rewrite inval_step_lookup by (rewrite Hp; lia).
      cbv zeta. unfold same_links in *. repeat case_decide; done.
    - apply start_done.
    - apply list_short. }
  split; [exact Hrun|].
  destruct (decide (L = [])) as [EL|HL].
  - assert (Hemp : S = ∅).
    { apply set_eq. intros j. rewrite covered, EL. set_solver. }
    rewrite Hemp in *. rewrite EL in Hrep. split_and!; [done|intros; apply same_links_refl|done|].
    intros j. by rewrite decide_False by set_solver.
  - split_and!; auto.
    + apply rep_empty.
      * intros i Hi. cbn [toggle]. destruct (p_inval (_ !!! i)) eqn:Ei; [|done].
        exfalso. pose proof (D6 i Ei) as Em.
        pose proof (rep_toggle _ _ _ _ _ Hrep i Hi) as Ht. cbn [toggle] in Ht. rewrite Em in Ht.
        destruct (decide (i ∈ S)) as [HiS|HiS].
        -- assert (Hi1 : ~ (i - 1 ∈ S)) by (repeat case_bool_decide; done).
           assert (Ha : i ∈ L) by (by apply (rep_starts _ _ _ _ _ Hrep)).
           rewrite (D5 i i Ha) in Ei by lia. done.
        -- assert (Hi1 : i - 1 ∈ S) by (repeat case_bool_decide; done).
           apply covered in Hi1 as (a & Ha & Hai).
           assert (Eb : i = p_partner (m !!! a) + 1).
           { destruct (decide (i <= p_partner (m !!! a))); [|lia]. exfalso. apply HiS, covered.
             exists a. split; [done|lia]. }
           rewrite (D5 i a Ha) in Ei by lia. done.
      * done.
      * done.
    + intros j. case_decide as Hj.
      * apply covered in Hj as (a & Ha & Hj). by eapply D3.
      * apply D4. intros a Ha Hj'. apply Hj, covered. eauto.
Qed.
End Perform.
