(* ===== verification/PageSets.v ===== *)
(** * Two sets in one page table

    The dirty list and the invalidation list share the [prev], [next] and
    [partner] fields of the page records.  [lists n m S] says that they
    represent two disjoint sets of pages; every list operation is described by
    what it does to the sets. *)
From S2P Require Import Prelude Pages PageLists PageWalk.
Local Open Scope Z_scope.

(** The invalidated pages and the dirty pages. *)
Definition sets : Type := gset Z * gset Z.
Definition sel (k : list_kind) (S : sets) : gset Z := match k with Inval => S.1 | Dirty => S.2 end.
Definition add_to (k : list_kind) (p : Z) (S : sets) : sets :=
  match k with Inval => (S.1 ∪ {[p]}, S.2) | Dirty => (S.1, S.2 ∪ {[p]}) end.
Definition other (k : list_kind) : list_kind := match k with Inval => Dirty | Dirty => Inval end.

Record lists (n : Z) (m : pstore) (S : sets) : Prop := {
  ls_rep : forall k, exists L, rep k n m (sel k S) L;
  ls_disjoint : S.1 ## S.2;
  ls_bound : n <= NPAGES
}.

#[export] Instance list_kind_eq_dec : EqDecision list_kind.
Proof. solve_decision. Defined.

(** What a page holds besides its place in the lists. *)
Definition same_contents (p q : page) : Prop :=
  p_mem p = p_mem q /\ p_twin p = p_twin q /\ p_state p = p_state q /\
  p_manager p = p_manager q /\ p_wn p = p_wn q.

Lemma same_contents_refl p : same_contents p p.
Proof. done. Qed.

Lemma same_contents_trans p q r : same_contents p q -> same_contents q r -> same_contents p r.
Proof. unfold same_contents. intros (?&?&?&?&?) (?&?&?&?&?). split_and!; congruence. Qed.
#[export] Hint Resolve same_contents_refl : tmk.

Lemma same_rest_contents k p q : same_rest k p q -> same_contents p q /\ p_prot p = p_prot q.
Proof. unfold same_rest, same_contents. tauto. Qed.

Lemma same_rest_other k p q : same_rest k p q -> toggle (other k) p = toggle (other k) q.
Proof. unfold same_rest. destruct k; cbn [other toggle]; tauto. Qed.

Lemma sets_disjoint k S i : S.1 ## S.2 -> i ∈ sel k S -> i ∈ sel (other k) S -> False.
Proof. destruct k; cbn [sel other]; set_solver. Qed.

Lemma head_apart k : head_of k <> head_of (other k).
Proof. by destruct k. Qed.

Lemma other_other k : other (other k) = k.
Proof. by destruct k. Qed.

(** A store in which the records of a list, and its toggles, are unchanged. *)
Lemma lists_merge k n m S p :
  lists n m S -> 0 <= p < n -> p ∉ S.1 -> p ∉ S.2 -> exists m',
    merge k p m = Ok (tt, m') /\ lists n m' (add_to k p S) /\
    forall i, same_contents (m' !!! i) (m !!! i) /\ p_prot (m' !!! i) = p_prot (m !!! i).
Proof.
  intros [Hrep Hd Hn] Hp H1 H2.
  destruct (Hrep k) as [L HL]. destruct (Hrep (other k)) as [Lo HLo].
  assert (Hk : p ∉ sel k S /\ p ∉ sel (other k) S) by (destruct k; done).
  destruct (merge_run k n m (sel k S) L p) as (m' & L' & Hrun & HL' & Hrest & Hlinks); try tauto.
  exists m'. split; [done|]. split; [|intros i; by apply (same_rest_contents k)].
  assert (Ho : rep (other k) n m' (sel (other k) S) Lo).
  { apply (rep_frame _ _ m); [done| |].
    - intros i Hi. apply Hlinks. intros [Hi'| ->].
      + destruct Hi as [Hi| ->].
        * apply elem_of_union in Hi' as [Hi'|Hi'].
          -- by apply (sets_disjoint k S i).
          -- apply elem_of_singleton in Hi' as ->. tauto.
        * assert (0 <= head_of (other k) < n) by (by apply (rep_bound _ _ _ _ _ HL')).
          by apply (head_not_page (other k) n (head_of (other k))).
      + destruct Hi as [Hi|Hi]; [|by apply (head_apart k)].
        pose proof (rep_bound _ _ _ _ _ HLo _ Hi). by apply (head_not_page k n (head_of k)).
    - intros i _. by apply same_rest_other. }
  split.
  - intros j. destruct (decide (j = k)) as [->|Hj].
    + exists L'. by destruct k.
    + replace j with (other k) in * by (by destruct j, k). exists Lo. by destruct k.
  - destruct k; cbn in *; set_solver.
  - done.
Qed.

(** Merging a sequence of distinct pages, each into one of the lists. *)
Definition add_all (ops : list (list_kind * Z)) (S : sets) : sets :=
  fold_left (fun S '(k, p) => add_to k p S) ops S.

Lemma lists_merge_all ops n m S :
  lists n m S -> NoDup (snd <$> ops) ->
  (forall p, p ∈ snd <$> ops -> 0 <= p < n /\ p ∉ S.1 /\ p ∉ S.2) -> exists m',
    for_each (fun '(k, p) => merge k p) ops m = Ok (tt, m') /\
    lists n m' (add_all ops S) /\
    forall i, same_contents (m' !!! i) (m !!! i) /\ p_prot (m' !!! i) = p_prot (m !!! i).
Proof.
  revert m S. induction ops as [|[k p] ops IH]; intros m S Hl Hnd Hps.
  - exists m. split_and!; auto with tmk.
  - apply NoDup_cons in Hnd as [Hp Hnd].
    destruct (Hps p ltac:(set_solver)) as (Hb & H1 & H2).
    destruct (lists_merge k n m S p) as (m1 & Hrun & Hl1 & Hc1); auto.
    destruct (IH m1 (add_to k p S)) as (m2 & Hrun2 & Hl2 & Hc2); auto.
    { intros q Hq. destruct (Hps q ltac:(set_solver)) as (? & ? & ?).
      destruct k; cbn; set_solver. }
    exists m2. cbn [for_each]. rewrite (bind_Ok _ _ _ _ _ Hrun). split_and!; auto.
    intros i. destruct (Hc1 i), (Hc2 i). split; [by eapply same_contents_trans|congruence].
Qed.

Lemma for_each_map {St A B} (f : A -> M St unit) (g : B -> A) (l : list B) s :
  for_each (fun x => f (g x)) l s = for_each f (g <$> l) s.
Proof.
  revert s. induction l as [|x l IH]; intros s; [done|]. cbn.
  unfold mbind, M_bind. destruct (f (g x) s) as [[[] s']| | |]; auto.
Qed.

Lemma add_all_inval ps S : (add_all ((fun p => (Inval, p)) <$> ps) S).1 = S.1 ∪ list_to_set ps /\
  (add_all ((fun p => (Inval, p)) <$> ps) S).2 = S.2.
Proof.
  unfold add_all. revert S. induction ps as [|p ps IH]; intros S; cbn [fmap list_fmap fold_left].
  - cbn [list_to_set]. split; [set_solver|done].
  - destruct (IH (add_to Inval p S)) as [-> ->]. cbn. split; [set_solver|done].
Qed.

(** Performing the invalidations leaves the dirty list alone. *)
Lemma lists_perform n m S : lists n m S -> exists m',
    Tmk_page_inval_perform m = Ok (tt, m') /\ lists n m' (∅, S.2) /\
    (forall i, same_contents (m' !!! i) (m !!! i)) /\
    (forall i, p_prot (m' !!! i) = if decide (i ∈ S.1) then PROT_NONE else p_prot (m !!! i)).
Proof.
  intros [Hrep Hd Hn]. destruct (Hrep Inval) as [L HL]. destruct (Hrep Dirty) as [Lo HLo].
  destruct (inval_perform_run n m S.1 L HL Hn) as (m' & Hrun & HL' & Hlinks & Hc & Hp).
  exists m'. split; [done|]. split; [|split; [|done]].
  - split; [|set_solver|done]. intros [|]; [by exists []|]. exists Lo. cbn [sel].
    apply (rep_frame _ _ m); [done| |].
    + intros i Hi. apply Hlinks. intros ->. destruct Hi as [Hi|Hi]; [|done].
      pose proof (rep_bound _ _ _ _ _ HLo _ Hi). lia.
    + intros i _. cbn [toggle]. apply Hc.
  - intros i. destruct (Hc i) as (?&?&?&?&?&?). done.
Qed.

(** Frame: a change of contents or protection. *)
Lemma lists_frame n m m' S :
  lists n m S ->
  (forall i, same_links (m' !!! i) (m !!! i) /\ p_inval (m' !!! i) = p_inval (m !!! i) /\
     p_dirty (m' !!! i) = p_dirty (m !!! i)) ->
  lists n m' S.
Proof.
  intros [Hrep Hd Hn] Hf. split; auto. intros k. destruct (Hrep k) as [L HL]. exists L.
  eapply rep_frame; [done| |]; intros i _; [apply Hf|]. destruct k; apply (Hf i).
Qed.

(** ** Initial store: both lists empty *)
Lemma lists_empty n m :
  n <= NPAGES -> (forall i, p_inval (m !!! i) = false /\ p_dirty (m !!! i) = false) ->
  (forall k, p_next (m !!! head_of k) = head_of k /\ p_prev (m !!! head_of k) = head_of k) ->
  lists n m (∅, ∅).
Proof.
  intros Hn Ht Hh. split; [|set_solver|done]. intros k. exists [].
  replace (sel k (∅, ∅)) with (∅ : gset Z) by (by destruct k).
  apply rep_empty; [|apply Hh|apply Hh]. intros i _. destruct k; apply Ht.
Qed.

(** The store with both heads linked to themselves. *)
Definition empty_lists : pstore :=
  {[ NPAGES := set_next NPAGES (set_prev NPAGES zero_page);
     PAGE_DIRTY := set_next PAGE_DIRTY (set_prev PAGE_DIRTY zero_page) ]}.

Lemma empty_lists_ok : lists 8 empty_lists (∅, ∅).
Proof.
  assert (E : forall i, empty_lists !!! i = if decide (i = NPAGES) then empty_lists !!! NPAGES
    else if decide (i = PAGE_DIRTY) then empty_lists !!! PAGE_DIRTY else zero_page).
  { intros i. repeat case_decide; subst; try done. unfold empty_lists.
    rewrite lookup_total_insert_ne by done. rewrite lookup_total_alt.
    by rewrite lookup_singleton_ne by done. }
  apply lists_empty; [unfold NPAGES; lia| |].
  - intros i. rewrite E. by repeat case_decide.
  - intros k. rewrite E. by destruct k.
Qed.

(** A batch of invalidations.  Merging the pages [ps] one by one, in any
    order, into an empty invalidation list and then performing the
    invalidations succeeds, leaves the list empty, removes all access from
    exactly the pages of [ps], changes no other protection and no contents,
    and does not disturb the dirty list that shares its link fields. *)
Theorem inval_batch_exact n m D ps :
  lists n m (∅, D) -> NoDup ps -> (forall p, p ∈ ps -> 0 <= p < n /\ p ∉ D) -> exists m',
    (for_each Tmk_page_inval_merge ps;; Tmk_page_inval_perform) m = Ok (tt, m') /\
    lists n m' (∅, D) /\
    (forall i, same_contents (m' !!! i) (m !!! i)) /\
    (forall i, p_prot (m' !!! i) = if decide (i ∈ ps) then PROT_NONE else p_prot (m !!! i)).
Proof.
  intros Hl Hnd Hps.
  assert (Esnd : snd <$> ((fun p => (Inval, p)) <$> ps) = ps).
  { rewrite <- list_fmap_compose. apply list_fmap_id. }
  destruct (lists_merge_all ((fun p => (Inval, p)) <$> ps) n m (∅, D)) as (m1 & Hrun & Hl1 & Hc1); auto.
  { by rewrite Esnd. }
  { rewrite Esnd. intros p Hp. destruct (Hps p Hp). cbn. set_solver. }
  rewrite <- (for_each_map (fun '(k, p) => merge k p) (fun p => (Inval, p))) in Hrun.
  destruct (add_all_inval ps (∅, D)) as [E1 E2].
  destruct (lists_perform _ _ _ Hl1) as (m2 & Hrun2 & Hl2 & Hc2 & Hp2).
  rewrite E2 in Hl2. rewrite E1 in Hp2. exists m2. split_and!.
  - rewrite (bind_Ok _ _ _ _ _ Hrun). done.
  - done.
  - intros i. eapply same_contents_trans; [apply Hc2|apply Hc1].
  - intros i. rewrite Hp2. destruct (Hc1 i) as [_ ->]. cbn.
    repeat case_decide; set_solver.
Qed.

Lemma inval_batch_exact_witness :
  exists m', (for_each Tmk_page_inval_merge [4; 2; 3];; Tmk_page_inval_perform) empty_lists = Ok (tt, m') /\
    lists 8 m' (∅, ∅) /\
    (forall i, same_contents (m' !!! i) (empty_lists !!! i)) /\
    (forall i, p_prot (m' !!! i) = if decide (i ∈ [4; 2; 3]) then PROT_NONE else p_prot (empty_lists !!! i)).
Proof.
  apply (inval_batch_exact 8 empty_lists ∅ [4; 2; 3]).
  - exact empty_lists_ok.
  - vm_compute. repeat constructor; set_solver.
  - intros p Hp. split; [|set_solver]. rewrite !elem_of_cons in Hp.
    destruct Hp as [->|[->|[->|Hp]]]; [lia|lia|lia|inversion Hp].
Defined.

(** The two lists coexist.  Any sequence of merges of distinct pages,
    each into the dirty list or into the invalidation list in any interleaving,
    succeeds and leaves two lists that represent exactly the two sets of pages,
    and changes neither protections nor contents. *)
Theorem merges_interleaved ops n m S :
  lists n m S -> NoDup (snd <$> ops) ->
  (forall p, p ∈ snd <$> ops -> 0 <= p < n /\ p ∉ S.1 /\ p ∉ S.2) -> exists m',
    for_each (fun '(k, p) => merge k p) ops m = Ok (tt, m') /\
    lists n m' (add_all ops S) /\
    forall i, same_contents (m' !!! i) (m !!! i) /\ p_prot (m' !!! i) = p_prot (m !!! i).
Proof. apply lists_merge_all. Qed.

Lemma merges_interleaved_witness :
  let ops := [(Dirty, 5); (Inval, 4); (Dirty, 6); (Inval, 3)] in exists m',
    for_each (fun '(k, p) => merge k p) ops empty_lists = Ok (tt, m') /\
    lists 8 m' (add_all ops (∅, ∅)) /\
    forall i, same_contents (m' !!! i) (empty_lists !!! i) /\ p_prot (m' !!! i) = p_prot (empty_lists !!! i).
Proof.
  apply (merges_interleaved [(Dirty, 5); (Inval, 4); (Dirty, 6); (Inval, 3)] 8 empty_lists (∅, ∅)).
  - exact empty_lists_ok.
  - vm_compute. repeat constructor; set_solver.
  - cbn. intros p Hp. rewrite !elem_of_cons in Hp.
    destruct Hp as [->|[->|[->|[->|Hp]]]]; [..|inversion Hp]; (split; [lia|set_solver]).
Defined.
