(* ===== verification/State.v ===== *)
(** * The state of one TreadMarks process

    The file-scope variables of [src/Tmk/src/*.c], one field or record per
    group, the messages that processes exchange ([struct req_*] of
    [src/Tmk/src/Tmk.h] and the replies), and the interface between a process
    and its surroundings: a list of events that [recv] and the signals deliver
    and a list of the messages sent.  The target is the one of the makefiles,
    [i386_linux2]: [int], [long] and pointers have four bytes. *)
From S2P Require Import Prelude Pages.
Local Open Scope Z_scope.

(** ** Configuration: what [Tmk_startup] fixes *)
Definition MTU : Z := 32768.
Definition SEQNO_INCR : Z := NPROCS.
Definition NBARRIERS : Z := 32.
Definition NCONDS : Z := 4.
Definition NLOCKS : Z := 1024.

(** [struct Tmk]. *)
Record conf : Type := Conf {
  proc_id : Z;
  nprocs : Z;
  page_size : Z;  (** [Tmk_page_size], in bytes *)
  npages : Z;
  vadr0 : Z  (** [page_array_[0].vadr] *)
}.

(** [Tmk_spinmask = ((1 << (Tmk_nprocs - 1)) << 1) - 1], in 32 bits. *)
Definition Tmk_spinmask (c : conf) : Z :=
  u32 (u32 (Z.shiftl (u32 (Z.shiftl 1 (nprocs c - 1))) 1) - 1).

Definition procs_of (c : conf) : list Z := seqZ 0 (nprocs c).
Definition others_of (c : conf) : list Z := filter (fun j => j <> proc_id c) (procs_of c).

(** ** Vector times: arrays of [NPROCS] unsigned shorts *)
Abbreviation vtime := (list Z).
Definition vt_zero : vtime := replicate (Z.to_nat NPROCS) 0.

Definition vt_get (v : vtime) (i : Z) : Z := nth (Z.to_nat i) v 0.
Definition vt_set (i x : Z) (v : vtime) : vtime := <[Z.to_nat i := u16 x]> v.

(** ** Messages *)
Inductive req_type : Type :=
  | REQ_ARRIVAL | REQ_ARRIVAL_REPO | REQ_COND_BROADCAST | REQ_COND_SIGNAL | REQ_COND_WAIT
  | REQ_CONNECT | REQ_DIFF | REQ_DISTRIBUTE | REQ_EXIT | REQ_JOIN | REQ_JOIN_REPO | REQ_LOCK
  | REQ_PAGE | REQ_REPO.
#[export] Instance req_type_eq_dec : EqDecision req_type.
Proof. solve_decision. Defined.

(** The requests: the common header and the fields the other [struct req_*] add. *)
Record request : Type := Request {
  rq_seqno : Z;
  rq_from : Z;
  rq_type : req_type;
  rq_id : Z;
  rq_vt : vtime;  (** [vector_time] of [req_syn] and [req_cond] *)
  rq_data : list Z  (** what follows: the interval data of [req_syn], [id2] of [req_cond], [data] of [req_dif], [size], [ptr] and the bytes of [req_dis] *)
}.

(** [sizeof(struct req_typ)] and [sizeof(struct req_syn)]. *)
Definition sizeof_req_typ : Z := 8.
Definition sizeof_req_syn : Z := 8 + 2 * NPROCS.

Definition set_rq_type (t : req_type) (r : request) : request :=
  Request (rq_seqno r) (rq_from r) t (rq_id r) (rq_vt r) (rq_data r).

(** A reply: the sequence number of the request and what follows it, in the unit the
    receiver reads: unsigned shorts, except for words of a page and fields of [Tmk_stat]. *)
Record reply : Type := Reply {
  rp_seqno : Z;
  rp_data : list Z
}.

(** The socket a message is sent on: [req_fd_[j]] carries this process's
    requests and their replies, [rep_fd_[j]] the requests of [j]. *)
Inductive sent : Type :=
  | SendReq (j : Z) (r : request)
  | SendRep (j : Z) (r : reply).

(** What happens to a process that waits in [recv] with signals unblocked:
    a reply is returned (and then [late] requests raise [SIGIO] before it is
    blocked again), a request arrives and raises [SIGIO], the interval timer
    fires, the call is interrupted, or it fails. *)
Inductive event : Type :=
  | EvRep (r : reply) (late : list (Z * request))
  | EvReq (j : Z) (r : request)
  | EvAlarm
  | EvIntr
  | EvFail.

(** ** The chunked heaps of [interval.c] and [diff.c] *)
Record heap : Type := Heap {
  h_cur : Z;       (** the number of [heap_current] in the list of chunks *)
  h_brk : Z        (** [heap_brk], as an offset in the chunk *)
}.
Definition heap_start : heap := Heap 0 0.

(** Move [heap_brk] by [size]; when it reaches [heap_end], at offset [len],
    continue in the next chunk, which is allocated if there is none. *)
Definition heap_advance (len size : Z) (h : heap) : heap :=
  if len <=? h_brk h + size then Heap (h_cur h + 1) 0 else Heap (h_cur h) (h_brk h + size).

Definition heap_ptr (h : heap) : addr := (h_cur h, h_brk h).

(** ** The components' variables *)

(** [struct Tmk_stat]: unsigned counters. *)
Record Tmk_stat : Type := Stat {
  st_acquires : Z;
  st_acquire_time : Z;
  st_arrivals : Z;
  st_broadcasts : Z;
  st_signals : Z;
  st_waits : Z;
  st_bytes : Z;
  st_bytes_of_data : Z;
  st_cold_misses : Z;
  st_messages : Z;
  st_messages_for_acquires : Z;
  st_rexmits : Z;
  st_diffs : Z;
  st_twins : Z;
  st_repos : Z;
  st_total_diff_size : Z
}.
Definition set_st_acquires (x : Z) (s : Tmk_stat) : Tmk_stat :=
  Stat x (st_acquire_time s) (st_arrivals s) (st_broadcasts s) (st_signals s) (st_waits s) (st_bytes s) (st_bytes_of_data s) (st_cold_misses s) (st_messages s) (st_messages_for_acquires s) (st_rexmits s) (st_diffs s) (st_twins s) (st_repos s) (st_total_diff_size s).
Definition set_st_acquire_time (x : Z) (s : Tmk_stat) : Tmk_stat :=
  Stat (st_acquires s) x (st_arrivals s) (st_broadcasts s) (st_signals s) (st_waits s) (st_bytes s) (st_bytes_of_data s) (st_cold_misses s) (st_messages s) (st_messages_for_acquires s) (st_rexmits s) (st_diffs s) (st_twins s) (st_repos s) (st_total_diff_size s).
Definition set_st_arrivals (x : Z) (s : Tmk_stat) : Tmk_stat :=
  Stat (st_acquires s) (st_acquire_time s) x (st_broadcasts s) (st_signals s) (st_waits s) (st_bytes s) (st_bytes_of_data s) (st_cold_misses s) (st_messages s) (st_messages_for_acquires s) (st_rexmits s) (st_diffs s) (st_twins s) (st_repos s) (st_total_diff_size s).
Definition set_st_broadcasts (x : Z) (s : Tmk_stat) : Tmk_stat :=
  Stat (st_acquires s) (st_acquire_time s) (st_arrivals s) x (st_signals s) (st_waits s) (st_bytes s) (st_bytes_of_data s) (st_cold_misses s) (st_messages s) (st_messages_for_acquires s) (st_rexmits s) (st_diffs s) (st_twins s) (st_repos s) (st_total_diff_size s).
Definition set_st_signals (x : Z) (s : Tmk_stat) : Tmk_stat :=
  Stat (st_acquires s) (st_acquire_time s) (st_arrivals s) (st_broadcasts s) x (st_waits s) (st_bytes s) (st_bytes_of_data s) (st_cold_misses s) (st_messages s) (st_messages_for_acquires s) (st_rexmits s) (st_diffs s) (st_twins s) (st_repos s) (st_total_diff_size s).
Definition set_st_waits (x : Z) (s : Tmk_stat) : Tmk_stat :=
  Stat (st_acquires s) (st_acquire_time s) (st_arrivals s) (st_broadcasts s) (st_signals s) x (st_bytes s) (st_bytes_of_data s) (st_cold_misses s) (st_messages s) (st_messages_for_acquires s) (st_rexmits s) (st_diffs s) (st_twins s) (st_repos s) (st_total_diff_size s).
Definition set_st_bytes (x : Z) (s : Tmk_stat) : Tmk_stat :=
  Stat (st_acquires s) (st_acquire_time s) (st_arrivals s) (st_broadcasts s) (st_signals s) (st_waits s) x (st_bytes_of_data s) (st_cold_misses s) (st_messages s) (st_messages_for_acquires s) (st_rexmits s) (st_diffs s) (st_twins s) (st_repos s) (st_total_diff_size s).
Definition set_st_bytes_of_data (x : Z) (s : Tmk_stat) : Tmk_stat :=
  Stat (st_acquires s) (st_acquire_time s) (st_arrivals s) (st_broadcasts s) (st_signals s) (st_waits s) (st_bytes s) x (st_cold_misses s) (st_messages s) (st_messages_for_acquires s) (st_rexmits s) (st_diffs s) (st_twins s) (st_repos s) (st_total_diff_size s).
Definition set_st_cold_misses (x : Z) (s : Tmk_stat) : Tmk_stat :=
  Stat (st_acquires s) (st_acquire_time s) (st_arrivals s) (st_broadcasts s) (st_signals s) (st_waits s) (st_bytes s) (st_bytes_of_data s) x (st_messages s) (st_messages_for_acquires s) (st_rexmits s) (st_diffs s) (st_twins s) (st_repos s) (st_total_diff_size s).
Definition set_st_messages (x : Z) (s : Tmk_stat) : Tmk_stat :=
  Stat (st_acquires s) (st_acquire_time s) (st_arrivals s) (st_broadcasts s) (st_signals s) (st_waits s) (st_bytes s) (st_bytes_of_data s) (st_cold_misses s) x (st_messages_for_acquires s) (st_rexmits s) (st_diffs s) (st_twins s) (st_repos s) (st_total_diff_size s).
Definition set_st_messages_for_acquires (x : Z) (s : Tmk_stat) : Tmk_stat :=
  Stat (st_acquires s) (st_acquire_time s) (st_arrivals s) (st_broadcasts s) (st_signals s) (st_waits s) (st_bytes s) (st_bytes_of_data s) (st_cold_misses s) (st_messages s) x (st_rexmits s) (st_diffs s) (st_twins s) (st_repos s) (st_total_diff_size s).
Definition set_st_rexmits (x : Z) (s : Tmk_stat) : Tmk_stat :=
  Stat (st_acquires s) (st_acquire_time s) (st_arrivals s) (st_broadcasts s) (st_signals s) (st_waits s) (st_bytes s) (st_bytes_of_data s) (st_cold_misses s) (st_messages s) (st_messages_for_acquires s) x (st_diffs s) (st_twins s) (st_repos s) (st_total_diff_size s).
Definition set_st_diffs (x : Z) (s : Tmk_stat) : Tmk_stat :=
  Stat (st_acquires s) (st_acquire_time s) (st_arrivals s) (st_broadcasts s) (st_signals s) (st_waits s) (st_bytes s) (st_bytes_of_data s) (st_cold_misses s) (st_messages s) (st_messages_for_acquires s) (st_rexmits s) x (st_twins s) (st_repos s) (st_total_diff_size s).
Definition set_st_twins (x : Z) (s : Tmk_stat) : Tmk_stat :=
  Stat (st_acquires s) (st_acquire_time s) (st_arrivals s) (st_broadcasts s) (st_signals s) (st_waits s) (st_bytes s) (st_bytes_of_data s) (st_cold_misses s) (st_messages s) (st_messages_for_acquires s) (st_rexmits s) (st_diffs s) x (st_repos s) (st_total_diff_size s).
Definition set_st_repos (x : Z) (s : Tmk_stat) : Tmk_stat :=
  Stat (st_acquires s) (st_acquire_time s) (st_arrivals s) (st_broadcasts s) (st_signals s) (st_waits s) (st_bytes s) (st_bytes_of_data s) (st_cold_misses s) (st_messages s) (st_messages_for_acquires s) (st_rexmits s) (st_diffs s) (st_twins s) x (st_total_diff_size s).
Definition set_st_total_diff_size (x : Z) (s : Tmk_stat) : Tmk_stat :=
  Stat (st_acquires s) (st_acquire_time s) (st_arrivals s) (st_broadcasts s) (st_signals s) (st_waits s) (st_bytes s) (st_bytes_of_data s) (st_cold_misses s) (st_messages s) (st_messages_for_acquires s) (st_rexmits s) (st_diffs s) (st_twins s) (st_repos s) x.

Definition stat_zero : Tmk_stat := Stat 0 0 0 0 0 0 0 0 0 0 0 0 0 0 0 0.

(** [struct cond]. *)
Record cond : Type := Cond {
  c_head : option Z;  (** [waitq_head], an index in [waitq_] *)
  c_tail : option Z;  (** [waitq_tail]; [None] is [&waitq_head] *)
  c_signal_vt : vtime  (** [signal_vector_time_] *)
}.
Definition set_c_head (x : (option Z)) (s : cond) : cond :=
  Cond x (c_tail s) (c_signal_vt s).
Definition set_c_tail (x : (option Z)) (s : cond) : cond :=
  Cond (c_head s) x (c_signal_vt s).
Definition set_c_signal_vt (x : vtime) (s : cond) : cond :=
  Cond (c_head s) (c_tail s) x.

Definition cond_zero : cond := Cond None None vt_zero.
#[export] Instance cond_inhabited : Inhabited cond := populate cond_zero.

(** [struct lock]. *)
Record lock : Type := Lock {
  lk_manager : Z;
  lk_tail : Z;
  lk_held : bool;
  lk_next : Z;
  lk_release_seqno : Z;
  lk_time : Z;
  lk_cond : gmap Z cond
}.
Definition set_lk_manager (x : Z) (s : lock) : lock :=
  Lock x (lk_tail s) (lk_held s) (lk_next s) (lk_release_seqno s) (lk_time s) (lk_cond s).
Definition set_lk_tail (x : Z) (s : lock) : lock :=
  Lock (lk_manager s) x (lk_held s) (lk_next s) (lk_release_seqno s) (lk_time s) (lk_cond s).
Definition set_lk_held (x : bool) (s : lock) : lock :=
  Lock (lk_manager s) (lk_tail s) x (lk_next s) (lk_release_seqno s) (lk_time s) (lk_cond s).
Definition set_lk_next (x : Z) (s : lock) : lock :=
  Lock (lk_manager s) (lk_tail s) (lk_held s) x (lk_release_seqno s) (lk_time s) (lk_cond s).
Definition set_lk_release_seqno (x : Z) (s : lock) : lock :=
  Lock (lk_manager s) (lk_tail s) (lk_held s) (lk_next s) x (lk_time s) (lk_cond s).
Definition set_lk_time (x : Z) (s : lock) : lock :=
  Lock (lk_manager s) (lk_tail s) (lk_held s) (lk_next s) (lk_release_seqno s) x (lk_cond s).
Definition set_lk_cond (x : (gmap Z cond)) (s : lock) : lock :=
  Lock (lk_manager s) (lk_tail s) (lk_held s) (lk_next s) (lk_release_seqno s) (lk_time s) x.

#[export] Instance lock_inhabited : Inhabited lock := populate (Lock 0 0 false 0 0 0 ∅).

(** [struct waitq_entry]. *)
Record waitq_entry : Type := WaitqEntry {
  wq_next : option Z;
  wq_req : request;
  wq_queued : bool
}.
Definition set_wq_next (x : (option Z)) (s : waitq_entry) : waitq_entry :=
  WaitqEntry x (wq_req s) (wq_queued s).
Definition set_wq_req (x : request) (s : waitq_entry) : waitq_entry :=
  WaitqEntry (wq_next s) x (wq_queued s).
Definition set_wq_queued (x : bool) (s : waitq_entry) : waitq_entry :=
  WaitqEntry (wq_next s) (wq_req s) x.
#[export] Instance waitq_inhabited : Inhabited waitq_entry :=
  populate (WaitqEntry None (Request 0 0 REQ_ARRIVAL 0 vt_zero []) false).

(** [struct barrier] and [struct sched]. *)
Record barrier : Type := Barrier {
  b_manager : Z;
  b_mask : Z
}.
#[export] Instance barrier_inhabited : Inhabited barrier := populate (Barrier 0 0).

(** The data of the allocator in shared memory ([sh_malloc.c]). *)
Record heap_table : Type := HeapTable {
  sh_curbrk : Z;  (** [table->curbrk] *)
  sh_nextfit : gmap Z Z;  (** [table->nextfit], 0 for NULL *)
  sh_index : gmap Z Z;  (** [chain->index] of the chunk at an address *)
  sh_chain : gmap Z Z  (** [chain->chain] *)
}.
Definition set_sh_curbrk (x : Z) (s : heap_table) : heap_table :=
  HeapTable x (sh_nextfit s) (sh_index s) (sh_chain s).
Definition set_sh_nextfit (x : (gmap Z Z)) (s : heap_table) : heap_table :=
  HeapTable (sh_curbrk s) x (sh_index s) (sh_chain s).
Definition set_sh_index (x : (gmap Z Z)) (s : heap_table) : heap_table :=
  HeapTable (sh_curbrk s) (sh_nextfit s) x (sh_chain s).
Definition set_sh_chain (x : (gmap Z Z)) (s : heap_table) : heap_table :=
  HeapTable (sh_curbrk s) (sh_nextfit s) (sh_index s) x.

(** The state of a process. *)
Record node : Type := Node {
  n_conf : conf;  (** the configuration, constant after [Tmk_startup] *)
  n_pages : pstore;  (** [page_array_] and [page_dirty] *)
  n_procs : gmap Z (list interval);  (** [proc_array_]: the intervals of each process, oldest first *)
  n_vt : vtime;  (** [proc_vector_time_] *)
  n_it : vtime;  (** [inverse_time_] *)
  n_local_vt : vtime;  (** the local [vector_time_] of a caller of [Tmk_interval_incorporate] *)
  n_heap : heap;  (** the heap of [interval.c] *)
  n_heap_1 : heap;  (** the diffs created here *)
  n_heap_2 : heap;  (** the diffs received *)
  n_twins : Z;  (** the length of [twin_free_list] *)
  n_locks : gmap Z lock;  (** [lock_array_] *)
  n_tail_ : vtime;  (** [tail_] *)
  n_lock_vt : gmap Z (list Z);  (** [vector_time] of [lock.c] *)
  n_waitq : gmap Z waitq_entry;  (** [waitq_] *)
  n_barriers : gmap Z barrier;  (** [barrier_] *)
  n_bar_repo : Z;  (** [rep.repo] of [barrier.c] *)
  n_bar_data : list Z;  (** [rep.data] of [barrier.c] *)
  n_scheds : gmap Z barrier;  (** [sched_] *)
  n_sched_repo : Z;  (** [rep.repo] of [sched.c] *)
  n_sched_func : Z * Z;  (** [rep.func_ptr], 0 for NULL, and [rep.arg] *)
  n_sched_data : list Z;  (** [rep.data] of [sched.c] *)
  n_repo_mask : Z;  (** [repo_mask] *)
  n_req_seqno : Z;  (** [req_seqno] *)
  n_rep_seqno : gmap Z Z;  (** [rep_seqno_] *)
  n_req_from : gmap Z request;  (** [req_from_] *)
  n_tos : Z;  (** [sigio_buffer_tos - sigio_buffer_stack_] *)
  n_inbox : gmap Z (list request);  (** the datagrams queued on each [rep_fd_] *)
  n_memory : gmap Z (list Z);  (** private objects written by [Tmk_distribute], by address *)
  n_ports : gmap Z (list Z);  (** [Tmk_port_] *)
  n_table : Z;  (** [table] of [sh_malloc.c], 0 for NULL *)
  n_sh : heap_table;  (** what [table] points to and the chunk headers, as this process sees them *)
  n_errno : Z;  (** what the [errnop] argument of [mmap.c] points to *)
  n_exit_flag : bool;  (** [exit_flag] *)
  n_exit_seqno : Z;  (** [rep_seqno] of [exit.c] *)
  n_stat : Tmk_stat;  (** [Tmk_stat] *)
  n_events : list event;  (** what the surroundings deliver next *)
  n_out : list sent  (** the messages sent, oldest first *)
}.
Definition set_n_conf (x : conf) (s : node) : node :=
  Node x (n_pages s) (n_procs s) (n_vt s) (n_it s) (n_local_vt s) (n_heap s) (n_heap_1 s) (n_heap_2 s) (n_twins s) (n_locks s) (n_tail_ s) (n_lock_vt s) (n_waitq s) (n_barriers s) (n_bar_repo s) (n_bar_data s) (n_scheds s) (n_sched_repo s) (n_sched_func s) (n_sched_data s) (n_repo_mask s) (n_req_seqno s) (n_rep_seqno s) (n_req_from s) (n_tos s) (n_inbox s) (n_memory s) (n_ports s) (n_table s) (n_sh s) (n_errno s) (n_exit_flag s) (n_exit_seqno s) (n_stat s) (n_events s) (n_out s).
Definition set_n_pages (x : pstore) (s : node) : node :=
  Node (n_conf s) x (n_procs s) (n_vt s) (n_it s) (n_local_vt s) (n_heap s) (n_heap_1 s) (n_heap_2 s) (n_twins s) (n_locks s) (n_tail_ s) (n_lock_vt s) (n_waitq s) (n_barriers s) (n_bar_repo s) (n_bar_data s) (n_scheds s) (n_sched_repo s) (n_sched_func s) (n_sched_data s) (n_repo_mask s) (n_req_seqno s) (n_rep_seqno s) (n_req_from s) (n_tos s) (n_inbox s) (n_memory s) (n_ports s) (n_table s) (n_sh s) (n_errno s) (n_exit_flag s) (n_exit_seqno s) (n_stat s) (n_events s) (n_out s).
Definition set_n_procs (x : (gmap Z (list interval))) (s : node) : node :=
  Node (n_conf s) (n_pages s) x (n_vt s) (n_it s) (n_local_vt s) (n_heap s) (n_heap_1 s) (n_heap_2 s) (n_twins s) (n_locks s) (n_tail_ s) (n_lock_vt s) (n_waitq s) (n_barriers s) (n_bar_repo s) (n_bar_data s) (n_scheds s) (n_sched_repo s) (n_sched_func s) (n_sched_data s) (n_repo_mask s) (n_req_seqno s) (n_rep_seqno s) (n_req_from s) (n_tos s) (n_inbox s) (n_memory s) (n_ports s) (n_table s) (n_sh s) (n_errno s) (n_exit_flag s) (n_exit_seqno s) (n_stat s) (n_events s) (n_out s).
Definition set_n_vt (x : vtime) (s : node) : node :=
  Node (n_conf s) (n_pages s) (n_procs s) x (n_it s) (n_local_vt s) (n_heap s) (n_heap_1 s) (n_heap_2 s) (n_twins s) (n_locks s) (n_tail_ s) (n_lock_vt s) (n_waitq s) (n_barriers s) (n_bar_repo s) (n_bar_data s) (n_scheds s) (n_sched_repo s) (n_sched_func s) (n_sched_data s) (n_repo_mask s) (n_req_seqno s) (n_rep_seqno s) (n_req_from s) (n_tos s) (n_inbox s) (n_memory s) (n_ports s) (n_table s) (n_sh s) (n_errno s) (n_exit_flag s) (n_exit_seqno s) (n_stat s) (n_events s) (n_out s).
Definition set_n_it (x : vtime) (s : node) : node :=
  Node (n_conf s) (n_pages s) (n_procs s) (n_vt s) x (n_local_vt s) (n_heap s) (n_heap_1 s) (n_heap_2 s) (n_twins s) (n_locks s) (n_tail_ s) (n_lock_vt s) (n_waitq s) (n_barriers s) (n_bar_repo s) (n_bar_data s) (n_scheds s) (n_sched_repo s) (n_sched_func s) (n_sched_data s) (n_repo_mask s) (n_req_seqno s) (n_rep_seqno s) (n_req_from s) (n_tos s) (n_inbox s) (n_memory s) (n_ports s) (n_table s) (n_sh s) (n_errno s) (n_exit_flag s) (n_exit_seqno s) (n_stat s) (n_events s) (n_out s).
Definition set_n_local_vt (x : vtime) (s : node) : node :=
  Node (n_conf s) (n_pages s) (n_procs s) (n_vt s) (n_it s) x (n_heap s) (n_heap_1 s) (n_heap_2 s) (n_twins s) (n_locks s) (n_tail_ s) (n_lock_vt s) (n_waitq s) (n_barriers s) (n_bar_repo s) (n_bar_data s) (n_scheds s) (n_sched_repo s) (n_sched_func s) (n_sched_data s) (n_repo_mask s) (n_req_seqno s) (n_rep_seqno s) (n_req_from s) (n_tos s) (n_inbox s) (n_memory s) (n_ports s) (n_table s) (n_sh s) (n_errno s) (n_exit_flag s) (n_exit_seqno s) (n_stat s) (n_events s) (n_out s).
Definition set_n_heap (x : heap) (s : node) : node :=
  Node (n_conf s) (n_pages s) (n_procs s) (n_vt s) (n_it s) (n_local_vt s) x (n_heap_1 s) (n_heap_2 s) (n_twins s) (n_locks s) (n_tail_ s) (n_lock_vt s) (n_waitq s) (n_barriers s) (n_bar_repo s) (n_bar_data s) (n_scheds s) (n_sched_repo s) (n_sched_func s) (n_sched_data s) (n_repo_mask s) (n_req_seqno s) (n_rep_seqno s) (n_req_from s) (n_tos s) (n_inbox s) (n_memory s) (n_ports s) (n_table s) (n_sh s) (n_errno s) (n_exit_flag s) (n_exit_seqno s) (n_stat s) (n_events s) (n_out s).
Definition set_n_heap_1 (x : heap) (s : node) : node :=
  Node (n_conf s) (n_pages s) (n_procs s) (n_vt s) (n_it s) (n_local_vt s) (n_heap s) x (n_heap_2 s) (n_twins s) (n_locks s) (n_tail_ s) (n_lock_vt s) (n_waitq s) (n_barriers s) (n_bar_repo s) (n_bar_data s) (n_scheds s) (n_sched_repo s) (n_sched_func s) (n_sched_data s) (n_repo_mask s) (n_req_seqno s) (n_rep_seqno s) (n_req_from s) (n_tos s) (n_inbox s) (n_memory s) (n_ports s) (n_table s) (n_sh s) (n_errno s) (n_exit_flag s) (n_exit_seqno s) (n_stat s) (n_events s) (n_out s).
Definition set_n_heap_2 (x : heap) (s : node) : node :=
  Node (n_conf s) (n_pages s) (n_procs s) (n_vt s) (n_it s) (n_local_vt s) (n_heap s) (n_heap_1 s) x (n_twins s) (n_locks s) (n_tail_ s) (n_lock_vt s) (n_waitq s) (n_barriers s) (n_bar_repo s) (n_bar_data s) (n_scheds s) (n_sched_repo s) (n_sched_func s) (n_sched_data s) (n_repo_mask s) (n_req_seqno s) (n_rep_seqno s) (n_req_from s) (n_tos s) (n_inbox s) (n_memory s) (n_ports s) (n_table s) (n_sh s) (n_errno s) (n_exit_flag s) (n_exit_seqno s) (n_stat s) (n_events s) (n_out s).
Definition set_n_twins (x : Z) (s : node) : node :=
  Node (n_conf s) (n_pages s) (n_procs s) (n_vt s) (n_it s) (n_local_vt s) (n_heap s) (n_heap_1 s) (n_heap_2 s) x (n_locks s) (n_tail_ s) (n_lock_vt s) (n_waitq s) (n_barriers s) (n_bar_repo s) (n_bar_data s) (n_scheds s) (n_sched_repo s) (n_sched_func s) (n_sched_data s) (n_repo_mask s) (n_req_seqno s) (n_rep_seqno s) (n_req_from s) (n_tos s) (n_inbox s) (n_memory s) (n_ports s) (n_table s) (n_sh s) (n_errno s) (n_exit_flag s) (n_exit_seqno s) (n_stat s) (n_events s) (n_out s).
Definition set_n_locks (x : (gmap Z lock)) (s : node) : node :=
  Node (n_conf s) (n_pages s) (n_procs s) (n_vt s) (n_it s) (n_local_vt s) (n_heap s) (n_heap_1 s) (n_heap_2 s) (n_twins s) x (n_tail_ s) (n_lock_vt s) (n_waitq s) (n_barriers s) (n_bar_repo s) (n_bar_data s) (n_scheds s) (n_sched_repo s) (n_sched_func s) (n_sched_data s) (n_repo_mask s) (n_req_seqno s) (n_rep_seqno s) (n_req_from s) (n_tos s) (n_inbox s) (n_memory s) (n_ports s) (n_table s) (n_sh s) (n_errno s) (n_exit_flag s) (n_exit_seqno s) (n_stat s) (n_events s) (n_out s).
Definition set_n_tail_ (x : vtime) (s : node) : node :=
  Node (n_conf s) (n_pages s) (n_procs s) (n_vt s) (n_it s) (n_local_vt s) (n_heap s) (n_heap_1 s) (n_heap_2 s) (n_twins s) (n_locks s) x (n_lock_vt s) (n_waitq s) (n_barriers s) (n_bar_repo s) (n_bar_data s) (n_scheds s) (n_sched_repo s) (n_sched_func s) (n_sched_data s) (n_repo_mask s) (n_req_seqno s) (n_rep_seqno s) (n_req_from s) (n_tos s) (n_inbox s) (n_memory s) (n_ports s) (n_table s) (n_sh s) (n_errno s) (n_exit_flag s) (n_exit_seqno s) (n_stat s) (n_events s) (n_out s).
Definition set_n_lock_vt (x : (gmap Z (list Z))) (s : node) : node :=
  Node (n_conf s) (n_pages s) (n_procs s) (n_vt s) (n_it s) (n_local_vt s) (n_heap s) (n_heap_1 s) (n_heap_2 s) (n_twins s) (n_locks s) (n_tail_ s) x (n_waitq s) (n_barriers s) (n_bar_repo s) (n_bar_data s) (n_scheds s) (n_sched_repo s) (n_sched_func s) (n_sched_data s) (n_repo_mask s) (n_req_seqno s) (n_rep_seqno s) (n_req_from s) (n_tos s) (n_inbox s) (n_memory s) (n_ports s) (n_table s) (n_sh s) (n_errno s) (n_exit_flag s) (n_exit_seqno s) (n_stat s) (n_events s) (n_out s).
Definition set_n_waitq (x : (gmap Z waitq_entry)) (s : node) : node :=
  Node (n_conf s) (n_pages s) (n_procs s) (n_vt s) (n_it s) (n_local_vt s) (n_heap s) (n_heap_1 s) (n_heap_2 s) (n_twins s) (n_locks s) (n_tail_ s) (n_lock_vt s) x (n_barriers s) (n_bar_repo s) (n_bar_data s) (n_scheds s) (n_sched_repo s) (n_sched_func s) (n_sched_data s) (n_repo_mask s) (n_req_seqno s) (n_rep_seqno s) (n_req_from s) (n_tos s) (n_inbox s) (n_memory s) (n_ports s) (n_table s) (n_sh s) (n_errno s) (n_exit_flag s) (n_exit_seqno s) (n_stat s) (n_events s) (n_out s).
Definition set_n_barriers (x : (gmap Z barrier)) (s : node) : node :=
  Node (n_conf s) (n_pages s) (n_procs s) (n_vt s) (n_it s) (n_local_vt s) (n_heap s) (n_heap_1 s) (n_heap_2 s) (n_twins s) (n_locks s) (n_tail_ s) (n_lock_vt s) (n_waitq s) x (n_bar_repo s) (n_bar_data s) (n_scheds s) (n_sched_repo s) (n_sched_func s) (n_sched_data s) (n_repo_mask s) (n_req_seqno s) (n_rep_seqno s) (n_req_from s) (n_tos s) (n_inbox s) (n_memory s) (n_ports s) (n_table s) (n_sh s) (n_errno s) (n_exit_flag s) (n_exit_seqno s) (n_stat s) (n_events s) (n_out s).
Definition set_n_bar_repo (x : Z) (s : node) : node :=
  Node (n_conf s) (n_pages s) (n_procs s) (n_vt s) (n_it s) (n_local_vt s) (n_heap s) (n_heap_1 s) (n_heap_2 s) (n_twins s) (n_locks s) (n_tail_ s) (n_lock_vt s) (n_waitq s) (n_barriers s) x (n_bar_data s) (n_scheds s) (n_sched_repo s) (n_sched_func s) (n_sched_data s) (n_repo_mask s) (n_req_seqno s) (n_rep_seqno s) (n_req_from s) (n_tos s) (n_inbox s) (n_memory s) (n_ports s) (n_table s) (n_sh s) (n_errno s) (n_exit_flag s) (n_exit_seqno s) (n_stat s) (n_events s) (n_out s).
Definition set_n_bar_data (x : (list Z)) (s : node) : node :=
  Node (n_conf s) (n_pages s) (n_procs s) (n_vt s) (n_it s) (n_local_vt s) (n_heap s) (n_heap_1 s) (n_heap_2 s) (n_twins s) (n_locks s) (n_tail_ s) (n_lock_vt s) (n_waitq s) (n_barriers s) (n_bar_repo s) x (n_scheds s) (n_sched_repo s) (n_sched_func s) (n_sched_data s) (n_repo_mask s) (n_req_seqno s) (n_rep_seqno s) (n_req_from s) (n_tos s) (n_inbox s) (n_memory s) (n_ports s) (n_table s) (n_sh s) (n_errno s) (n_exit_flag s) (n_exit_seqno s) (n_stat s) (n_events s) (n_out s).
Definition set_n_scheds (x : (gmap Z barrier)) (s : node) : node :=
  Node (n_conf s) (n_pages s) (n_procs s) (n_vt s) (n_it s) (n_local_vt s) (n_heap s) (n_heap_1 s) (n_heap_2 s) (n_twins s) (n_locks s) (n_tail_ s) (n_lock_vt s) (n_waitq s) (n_barriers s) (n_bar_repo s) (n_bar_data s) x (n_sched_repo s) (n_sched_func s) (n_sched_data s) (n_repo_mask s) (n_req_seqno s) (n_rep_seqno s) (n_req_from s) (n_tos s) (n_inbox s) (n_memory s) (n_ports s) (n_table s) (n_sh s) (n_errno s) (n_exit_flag s) (n_exit_seqno s) (n_stat s) (n_events s) (n_out s).
Definition set_n_sched_repo (x : Z) (s : node) : node :=
  Node (n_conf s) (n_pages s) (n_procs s) (n_vt s) (n_it s) (n_local_vt s) (n_heap s) (n_heap_1 s) (n_heap_2 s) (n_twins s) (n_locks s) (n_tail_ s) (n_lock_vt s) (n_waitq s) (n_barriers s) (n_bar_repo s) (n_bar_data s) (n_scheds s) x (n_sched_func s) (n_sched_data s) (n_repo_mask s) (n_req_seqno s) (n_rep_seqno s) (n_req_from s) (n_tos s) (n_inbox s) (n_memory s) (n_ports s) (n_table s) (n_sh s) (n_errno s) (n_exit_flag s) (n_exit_seqno s) (n_stat s) (n_events s) (n_out s).
Definition set_n_sched_func (x : (Z * Z)) (s : node) : node :=
  Node (n_conf s) (n_pages s) (n_procs s) (n_vt s) (n_it s) (n_local_vt s) (n_heap s) (n_heap_1 s) (n_heap_2 s) (n_twins s) (n_locks s) (n_tail_ s) (n_lock_vt s) (n_waitq s) (n_barriers s) (n_bar_repo s) (n_bar_data s) (n_scheds s) (n_sched_repo s) x (n_sched_data s) (n_repo_mask s) (n_req_seqno s) (n_rep_seqno s) (n_req_from s) (n_tos s) (n_inbox s) (n_memory s) (n_ports s) (n_table s) (n_sh s) (n_errno s) (n_exit_flag s) (n_exit_seqno s) (n_stat s) (n_events s) (n_out s).
Definition set_n_sched_data (x : (list Z)) (s : node) : node :=
  Node (n_conf s) (n_pages s) (n_procs s) (n_vt s) (n_it s) (n_local_vt s) (n_heap s) (n_heap_1 s) (n_heap_2 s) (n_twins s) (n_locks s) (n_tail_ s) (n_lock_vt s) (n_waitq s) (n_barriers s) (n_bar_repo s) (n_bar_data s) (n_scheds s) (n_sched_repo s) (n_sched_func s) x (n_repo_mask s) (n_req_seqno s) (n_rep_seqno s) (n_req_from s) (n_tos s) (n_inbox s) (n_memory s) (n_ports s) (n_table s) (n_sh s) (n_errno s) (n_exit_flag s) (n_exit_seqno s) (n_stat s) (n_events s) (n_out s).
Definition set_n_repo_mask (x : Z) (s : node) : node :=
  Node (n_conf s) (n_pages s) (n_procs s) (n_vt s) (n_it s) (n_local_vt s) (n_heap s) (n_heap_1 s) (n_heap_2 s) (n_twins s) (n_locks s) (n_tail_ s) (n_lock_vt s) (n_waitq s) (n_barriers s) (n_bar_repo s) (n_bar_data s) (n_scheds s) (n_sched_repo s) (n_sched_func s) (n_sched_data s) x (n_req_seqno s) (n_rep_seqno s) (n_req_from s) (n_tos s) (n_inbox s) (n_memory s) (n_ports s) (n_table s) (n_sh s) (n_errno s) (n_exit_flag s) (n_exit_seqno s) (n_stat s) (n_events s) (n_out s).
Definition set_n_req_seqno (x : Z) (s : node) : node :=
  Node (n_conf s) (n_pages s) (n_procs s) (n_vt s) (n_it s) (n_local_vt s) (n_heap s) (n_heap_1 s) (n_heap_2 s) (n_twins s) (n_locks s) (n_tail_ s) (n_lock_vt s) (n_waitq s) (n_barriers s) (n_bar_repo s) (n_bar_data s) (n_scheds s) (n_sched_repo s) (n_sched_func s) (n_sched_data s) (n_repo_mask s) x (n_rep_seqno s) (n_req_from s) (n_tos s) (n_inbox s) (n_memory s) (n_ports s) (n_table s) (n_sh s) (n_errno s) (n_exit_flag s) (n_exit_seqno s) (n_stat s) (n_events s) (n_out s).
Definition set_n_rep_seqno (x : (gmap Z Z)) (s : node) : node :=
  Node (n_conf s) (n_pages s) (n_procs s) (n_vt s) (n_it s) (n_local_vt s) (n_heap s) (n_heap_1 s) (n_heap_2 s) (n_twins s) (n_locks s) (n_tail_ s) (n_lock_vt s) (n_waitq s) (n_barriers s) (n_bar_repo s) (n_bar_data s) (n_scheds s) (n_sched_repo s) (n_sched_func s) (n_sched_data s) (n_repo_mask s) (n_req_seqno s) x (n_req_from s) (n_tos s) (n_inbox s) (n_memory s) (n_ports s) (n_table s) (n_sh s) (n_errno s) (n_exit_flag s) (n_exit_seqno s) (n_stat s) (n_events s) (n_out s).
Definition set_n_req_from (x : (gmap Z request)) (s : node) : node :=
  Node (n_conf s) (n_pages s) (n_procs s) (n_vt s) (n_it s) (n_local_vt s) (n_heap s) (n_heap_1 s) (n_heap_2 s) (n_twins s) (n_locks s) (n_tail_ s) (n_lock_vt s) (n_waitq s) (n_barriers s) (n_bar_repo s) (n_bar_data s) (n_scheds s) (n_sched_repo s) (n_sched_func s) (n_sched_data s) (n_repo_mask s) (n_req_seqno s) (n_rep_seqno s) x (n_tos s) (n_inbox s) (n_memory s) (n_ports s) (n_table s) (n_sh s) (n_errno s) (n_exit_flag s) (n_exit_seqno s) (n_stat s) (n_events s) (n_out s).
Definition set_n_tos (x : Z) (s : node) : node :=
  Node (n_conf s) (n_pages s) (n_procs s) (n_vt s) (n_it s) (n_local_vt s) (n_heap s) (n_heap_1 s) (n_heap_2 s) (n_twins s) (n_locks s) (n_tail_ s) (n_lock_vt s) (n_waitq s) (n_barriers s) (n_bar_repo s) (n_bar_data s) (n_scheds s) (n_sched_repo s) (n_sched_func s) (n_sched_data s) (n_repo_mask s) (n_req_seqno s) (n_rep_seqno s) (n_req_from s) x (n_inbox s) (n_memory s) (n_ports s) (n_table s) (n_sh s) (n_errno s) (n_exit_flag s) (n_exit_seqno s) (n_stat s) (n_events s) (n_out s).
Definition set_n_inbox (x : (gmap Z (list request))) (s : node) : node :=
  Node (n_conf s) (n_pages s) (n_procs s) (n_vt s) (n_it s) (n_local_vt s) (n_heap s) (n_heap_1 s) (n_heap_2 s) (n_twins s) (n_locks s) (n_tail_ s) (n_lock_vt s) (n_waitq s) (n_barriers s) (n_bar_repo s) (n_bar_data s) (n_scheds s) (n_sched_repo s) (n_sched_func s) (n_sched_data s) (n_repo_mask s) (n_req_seqno s) (n_rep_seqno s) (n_req_from s) (n_tos s) x (n_memory s) (n_ports s) (n_table s) (n_sh s) (n_errno s) (n_exit_flag s) (n_exit_seqno s) (n_stat s) (n_events s) (n_out s).
Definition set_n_memory (x : (gmap Z (list Z))) (s : node) : node :=
  Node (n_conf s) (n_pages s) (n_procs s) (n_vt s) (n_it s) (n_local_vt s) (n_heap s) (n_heap_1 s) (n_heap_2 s) (n_twins s) (n_locks s) (n_tail_ s) (n_lock_vt s) (n_waitq s) (n_barriers s) (n_bar_repo s) (n_bar_data s) (n_scheds s) (n_sched_repo s) (n_sched_func s) (n_sched_data s) (n_repo_mask s) (n_req_seqno s) (n_rep_seqno s) (n_req_from s) (n_tos s) (n_inbox s) x (n_ports s) (n_table s) (n_sh s) (n_errno s) (n_exit_flag s) (n_exit_seqno s) (n_stat s) (n_events s) (n_out s).
Definition set_n_ports (x : (gmap Z (list Z))) (s : node) : node :=
  Node (n_conf s) (n_pages s) (n_procs s) (n_vt s) (n_it s) (n_local_vt s) (n_heap s) (n_heap_1 s) (n_heap_2 s) (n_twins s) (n_locks s) (n_tail_ s) (n_lock_vt s) (n_waitq s) (n_barriers s) (n_bar_repo s) (n_bar_data s) (n_scheds s) (n_sched_repo s) (n_sched_func s) (n_sched_data s) (n_repo_mask s) (n_req_seqno s) (n_rep_seqno s) (n_req_from s) (n_tos s) (n_inbox s) (n_memory s) x (n_table s) (n_sh s) (n_errno s) (n_exit_flag s) (n_exit_seqno s) (n_stat s) (n_events s) (n_out s).
Definition set_n_table (x : Z) (s : node) : node :=
  Node (n_conf s) (n_pages s) (n_procs s) (n_vt s) (n_it s) (n_local_vt s) (n_heap s) (n_heap_1 s) (n_heap_2 s) (n_twins s) (n_locks s) (n_tail_ s) (n_lock_vt s) (n_waitq s) (n_barriers s) (n_bar_repo s) (n_bar_data s) (n_scheds s) (n_sched_repo s) (n_sched_func s) (n_sched_data s) (n_repo_mask s) (n_req_seqno s) (n_rep_seqno s) (n_req_from s) (n_tos s) (n_inbox s) (n_memory s) (n_ports s) x (n_sh s) (n_errno s) (n_exit_flag s) (n_exit_seqno s) (n_stat s) (n_events s) (n_out s).
Definition set_n_sh (x : heap_table) (s : node) : node :=
  Node (n_conf s) (n_pages s) (n_procs s) (n_vt s) (n_it s) (n_local_vt s) (n_heap s) (n_heap_1 s) (n_heap_2 s) (n_twins s) (n_locks s) (n_tail_ s) (n_lock_vt s) (n_waitq s) (n_barriers s) (n_bar_repo s) (n_bar_data s) (n_scheds s) (n_sched_repo s) (n_sched_func s) (n_sched_data s) (n_repo_mask s) (n_req_seqno s) (n_rep_seqno s) (n_req_from s) (n_tos s) (n_inbox s) (n_memory s) (n_ports s) (n_table s) x (n_errno s) (n_exit_flag s) (n_exit_seqno s) (n_stat s) (n_events s) (n_out s).
Definition set_n_errno (x : Z) (s : node) : node :=
  Node (n_conf s) (n_pages s) (n_procs s) (n_vt s) (n_it s) (n_local_vt s) (n_heap s) (n_heap_1 s) (n_heap_2 s) (n_twins s) (n_locks s) (n_tail_ s) (n_lock_vt s) (n_waitq s) (n_barriers s) (n_bar_repo s) (n_bar_data s) (n_scheds s) (n_sched_repo s) (n_sched_func s) (n_sched_data s) (n_repo_mask s) (n_req_seqno s) (n_rep_seqno s) (n_req_from s) (n_tos s) (n_inbox s) (n_memory s) (n_ports s) (n_table s) (n_sh s) x (n_exit_flag s) (n_exit_seqno s) (n_stat s) (n_events s) (n_out s).
Definition set_n_exit_flag (x : bool) (s : node) : node :=
  Node (n_conf s) (n_pages s) (n_procs s) (n_vt s) (n_it s) (n_local_vt s) (n_heap s) (n_heap_1 s) (n_heap_2 s) (n_twins s) (n_locks s) (n_tail_ s) (n_lock_vt s) (n_waitq s) (n_barriers s) (n_bar_repo s) (n_bar_data s) (n_scheds s) (n_sched_repo s) (n_sched_func s) (n_sched_data s) (n_repo_mask s) (n_req_seqno s) (n_rep_seqno s) (n_req_from s) (n_tos s) (n_inbox s) (n_memory s) (n_ports s) (n_table s) (n_sh s) (n_errno s) x (n_exit_seqno s) (n_stat s) (n_events s) (n_out s).
Definition set_n_exit_seqno (x : Z) (s : node) : node :=
  Node (n_conf s) (n_pages s) (n_procs s) (n_vt s) (n_it s) (n_local_vt s) (n_heap s) (n_heap_1 s) (n_heap_2 s) (n_twins s) (n_locks s) (n_tail_ s) (n_lock_vt s) (n_waitq s) (n_barriers s) (n_bar_repo s) (n_bar_data s) (n_scheds s) (n_sched_repo s) (n_sched_func s) (n_sched_data s) (n_repo_mask s) (n_req_seqno s) (n_rep_seqno s) (n_req_from s) (n_tos s) (n_inbox s) (n_memory s) (n_ports s) (n_table s) (n_sh s) (n_errno s) (n_exit_flag s) x (n_stat s) (n_events s) (n_out s).
Definition set_n_stat (x : Tmk_stat) (s : node) : node :=
  Node (n_conf s) (n_pages s) (n_procs s) (n_vt s) (n_it s) (n_local_vt s) (n_heap s) (n_heap_1 s) (n_heap_2 s) (n_twins s) (n_locks s) (n_tail_ s) (n_lock_vt s) (n_waitq s) (n_barriers s) (n_bar_repo s) (n_bar_data s) (n_scheds s) (n_sched_repo s) (n_sched_func s) (n_sched_data s) (n_repo_mask s) (n_req_seqno s) (n_rep_seqno s) (n_req_from s) (n_tos s) (n_inbox s) (n_memory s) (n_ports s) (n_table s) (n_sh s) (n_errno s) (n_exit_flag s) (n_exit_seqno s) x (n_events s) (n_out s).
Definition set_n_events (x : (list event)) (s : node) : node :=
  Node (n_conf s) (n_pages s) (n_procs s) (n_vt s) (n_it s) (n_local_vt s) (n_heap s) (n_heap_1 s) (n_heap_2 s) (n_twins s) (n_locks s) (n_tail_ s) (n_lock_vt s) (n_waitq s) (n_barriers s) (n_bar_repo s) (n_bar_data s) (n_scheds s) (n_sched_repo s) (n_sched_func s) (n_sched_data s) (n_repo_mask s) (n_req_seqno s) (n_rep_seqno s) (n_req_from s) (n_tos s) (n_inbox s) (n_memory s) (n_ports s) (n_table s) (n_sh s) (n_errno s) (n_exit_flag s) (n_exit_seqno s) (n_stat s) x (n_out s).
Definition set_n_out (x : (list sent)) (s : node) : node :=
  Node (n_conf s) (n_pages s) (n_procs s) (n_vt s) (n_it s) (n_local_vt s) (n_heap s) (n_heap_1 s) (n_heap_2 s) (n_twins s) (n_locks s) (n_tail_ s) (n_lock_vt s) (n_waitq s) (n_barriers s) (n_bar_repo s) (n_bar_data s) (n_scheds s) (n_sched_repo s) (n_sched_func s) (n_sched_data s) (n_repo_mask s) (n_req_seqno s) (n_rep_seqno s) (n_req_from s) (n_tos s) (n_inbox s) (n_memory s) (n_ports s) (n_table s) (n_sh s) (n_errno s) (n_exit_flag s) (n_exit_seqno s) (n_stat s) (n_events s) x.

(** Static storage before [Tmk_startup]: zero, except for [repo_mask]. *)
Definition zero_node (c : conf) : node :=
  Node c ∅ ∅ vt_zero vt_zero vt_zero heap_start heap_start heap_start 0 ∅ vt_zero ∅ ∅ ∅ 0 [] ∅ 0 (0, 0) [] 1 0 ∅ ∅ 0 ∅ ∅ ∅ 0 (HeapTable 0 ∅ ∅ ∅) 0 false 0 stat_zero [] [].

Abbreviation Proc := (M node).

(** ** Access to the state *)
Definition me : Proc Z := gets (fun s => proc_id (n_conf s)).
Definition config : Proc conf := gets n_conf.

Definition upd_pages (f : pstore -> pstore) (s : node) : node := set_n_pages (f (n_pages s)) s.

(** An operation of [Pages.v] in a process. *)
Definition on_pages {A} (m : M pstore A) : Proc A := fun s =>
  match m (n_pages s) with
  | Ok (a, p) => Ok (a, set_n_pages p s)
  | Exit w => Exit w
  | Undef => Undef
  | Block => Block
  end.

Definition pg {A} (f : page -> A) (p : page_t) : Proc A := on_pages (rd f p).
Definition set_pg (p : page_t) (f : page -> page) : Proc unit := on_pages (wr p f).

Definition mprotect (p : page_t) (pr : prot_t) : Proc unit := set_pg p (set_prot pr).

Definition intervals_of (s : node) (i : Z) : list interval := default [] (n_procs s !! i).

Definition stat (f : Tmk_stat -> Tmk_stat) : Proc unit := modify (fun s => set_n_stat (f (n_stat s)) s).

(** [Tmk_stat.field += x], unsigned. *)
Definition bump (rd_f : Tmk_stat -> Z) (wr_f : Z -> Tmk_stat -> Tmk_stat) (x : Z) : Proc unit :=
  stat (fun t => wr_f (u32 (rd_f t + x)) t).

(** [while (0 > send(...)) Tmk_errno_check(...)]: a send that fails with
    [ENOBUFS] is repeated and any other failure ends the process, so what is
    left is the message. *)
Definition send_req (j : Z) (r : request) : Proc unit := modify (fun s => set_n_out (n_out s ++ [SendReq j r]) s).
Definition send_rep (j : Z) (r : reply) : Proc unit := modify (fun s => set_n_out (n_out s ++ [SendRep j r]) s).

(** [req_seqno += SEQNO_INCR]. *)
Definition next_seqno : Proc Z :=
  modify (fun s => set_n_req_seqno (u32 (n_req_seqno s + SEQNO_INCR)) s);;
  gets n_req_seqno.

(** The array a [vector_time_] argument points to. *)
Inductive vt_ptr : Type := VtNull | VtProc | VtLocal.

Definition vt_read (v : vt_ptr) : Proc vtime :=
  match v with VtNull => undef | VtProc => gets n_vt | VtLocal => gets n_local_vt end.

Definition vt_write (v : vt_ptr) (f : vtime -> vtime) : Proc unit :=
  match v with
  | VtNull => undef
  | VtProc => modify (fun s => set_n_vt (f (n_vt s)) s)
  | VtLocal => modify (fun s => set_n_local_vt (f (n_local_vt s)) s)
  end.

(** [memcpy(vector_time_, proc_vector_time_, ...)] into a local array. *)
Definition save_vt : Proc unit := modify (fun s => set_n_local_vt (n_vt s) s).
