(* ===== verification/Rpc.v ===== *)
(** * Requests and replies, signals and waiting

    Every operation that asks another process for something has the same
    shape in the sources: take the next sequence number, send, arm the
    interval timer, unblock [SIGALRM] and [SIGIO], and [recv] in a loop that
    retransmits after a timeout, retries after an interruption, ignores
    replies with another sequence number, and gives up on any other error.
    While it waits, [SIGIO] runs [sigio_handler].  What the handler does is
    an interface here ([Signals]); [Sigio.v] is its instance. *)
From S2P Require Import Prelude Pages State.
Local Open Scope Z_scope.

(** What the operations need from [sigio.c]: [sigio_handler()]. *)
Class Signals : Type := sigio_handler : Proc unit.

(** A datagram reaches [rep_fd_[j]]. *)
Definition enqueue (j : Z) (r : request) : Proc unit :=
  modify (fun s => set_n_inbox (<[j := default [] (n_inbox s !! j) ++ [r]]> (n_inbox s)) s).

(** [recv] on [rep_fd_[j]]. *)
Definition dequeue (j : Z) : Proc (option request) := fun s =>
  match default [] (n_inbox s !! j) with
  | [] => Ok (None, s)
  | r :: rs => Ok (Some r, set_n_inbox (<[j := rs]> (n_inbox s)) s)
  end.

(** [sigio_buffer_tos++] and [Tmk_sigio_buffer_release]. *)
Definition buffer_hold : Proc unit := modify (fun s => set_n_tos (n_tos s + 1) s).
Definition Tmk_sigio_buffer_release : Proc unit := modify (fun s => set_n_tos (n_tos s - 1) s).

(** A message written at the start of a static buffer. *)
Definition over (new old : list Z) : list Z := new ++ drop (length new) old.

Section Wait.
Context {signals : Signals}.

(** [SIGIO] is raised for the requests in [rs]. *)
Definition deliver (rs : list (Z * request)) : Proc unit :=
  for_each (fun '(j, r) => enqueue j r;; sigio_handler) rs.

Definition set_events (evs : list event) : Proc unit := modify (set_n_events evs).

(** The receive loop.  [resend] is the code at [rexmit]; [eager] is set in
    [Tmk_diff_request], which retransmits at once when a later reply shows
    that the one it wants was lost, unless it has just retransmitted
    ([fresh] is [req_data_ptr == 0]).  [recvd] is what [recv] stores, for
    any reply, before its sequence number is looked at. *)
Fixpoint await (evs : list event) (eager fresh : bool) (seqno : Z) (resend : Proc unit)
    (recvd : reply -> Proc unit) : Proc reply :=
  match evs with
  | [] => block
  | ev :: evs' =>
      set_events evs';;
      match ev with
      | EvRep r late =>
          recvd r;;
          if rp_seqno r =? seqno then deliver late;; mret r
          else if eager && fresh && (seqno <? rp_seqno r)
          then resend;; await evs' eager false seqno resend recvd
          else await evs' eager fresh seqno resend recvd
      | EvReq j r => deliver [(j, r)];; await evs' eager fresh seqno resend recvd
      | EvAlarm => resend;; await evs' eager false seqno resend recvd
      | EvIntr => await evs' eager fresh seqno resend recvd
      | EvFail => exit_with "recv"
      end
  end.

Definition discard (r : reply) : Proc unit := skip.

(** [rexmit: send ...; retry: recv ...]: the same code sends the request the
    first time and again. *)
Definition send_await (seqno : Z) (send : Proc unit) (recvd : reply -> Proc unit) : Proc reply :=
  send;;
  evs ← gets n_events;
  await evs false true seqno send recvd.

(** [while (busy) sigio_handler();], and [while (busy) sigsuspend(...)]:
    [SIGIO] is pending when there is something in the inbox. *)
Fixpoint spin_on (evs : list event) (busy : node -> bool) : Proc unit :=
  b ← gets busy;
  if b : bool then
    sigio_handler;;
    b' ← gets busy;
    if b' : bool then
      match evs with
      | [] => block
      | ev :: evs' =>
          set_events evs';;
          match ev with EvReq j r => enqueue j r | _ => skip end;;
          spin_on evs' busy
      end
    else skip
  else skip.

Definition spin (busy : node -> bool) : Proc unit :=
  evs ← gets n_events;
  spin_on evs busy.
End Wait.

(** ** The reply that is waited for is the next event *)
Section Next.
Context {signals : Signals}.

Lemma await_next evs eager fresh seqno resend recvd d s s1 : recvd (Reply seqno d) (set_n_events evs s) = Ok (tt, s1) ->
  await (EvRep (Reply seqno d) [] :: evs) eager fresh seqno resend recvd s = Ok (Reply seqno d, s1).
Proof.
  intros R. cbn [await]. rewrite (bind_Ok (set_events evs) _ s tt (set_n_events evs s) eq_refl).
  rewrite (bind_Ok _ _ _ _ _ R). cbn [rp_seqno]. by rewrite Z.eqb_refl.
Qed.

Lemma send_await_next seqno send recvd d evs s s1 s2 : send s = Ok (tt, s1) ->
  n_events s1 = EvRep (Reply seqno d) [] :: evs -> recvd (Reply seqno d) (set_n_events evs s1) = Ok (tt, s2) ->
  send_await seqno send recvd s = Ok (Reply seqno d, s2).
Proof.
  intros Hs He R. unfold send_await. rewrite (bind_Ok _ _ _ _ _ Hs), (bind_Ok (gets n_events) _ s1 (n_events s1) s1 eq_refl), He.
  by apply await_next.
Qed.
End Next.
