(* ===== verification/Twins.v ===== *)
(** * Twins ([src/Tmk/src/segv.c])

    The copy of a page made at the first write, and the free list the copies
    come from.  Access to the shared pages is checked against the protection
    set by [mprotect]: the run-time system itself would fault. *)
From S2P Require Import Prelude Pages State.
Local Open Scope Z_scope.

(** Loads and stores at [page->vadr] by the run-time system. *)
Definition load_page (p : page_t) : Proc (list Z) :=
  pr ← pg p_prot p;
  match pr with PROT_NONE => undef | _ => pg p_mem p end.

Definition store_page (p : page_t) (mem : list Z) : Proc unit :=
  pr ← pg p_prot p;
  match pr with PROT_READ_WRITE => set_pg p (set_mem mem) | _ => undef end.

(** The buffer goes to the front of [twin_free_list]; freeing a NULL twin
    would write through it. *)
Definition Tmk_twin_free (p : page_t) : Proc unit :=
  twin ← pg p_twin p;
  match twin with
  | None => undef
  | Some _ =>
      set_pg p (set_twin None);;
      modify (fun s => set_n_twins (n_twins s + 1) s)
  end.

(** A buffer comes from the free list, or from [malloc], which is counted. *)
Definition Tmk_twin_alloc_and_copy (p : page_t) : Proc unit :=
  free ← gets n_twins;
  (if 0 <? free then modify (set_n_twins (free - 1))
   else bump st_twins set_st_twins 1);;
  mem ← load_page p;
  set_pg p (set_twin (Some mem)).
