(* ===== verification/Diffs.v ===== *)
(** * Making, requesting and serving diffs ([src/Tmk/src/diff.c])

    [DiffCodec.v] models the encoding itself; here are the two heaps the
    diffs live in, [Tmk_diff_create] on a page and a write notice,
    [Tmk_diff_request], which sorts the write notices whose diffs are missing,
    groups them in requests and applies the replies, and
    [Tmk_diff_sigio_handler], which serves a request in messages of at most
    [MTU] bytes. *)
From S2P Require Import Prelude DiffCodec Pages State Rpc Twins.
Local Open Scope Z_scope.

(** The offset of [heap_overflow_]: [H_SIZE - MTU - sizeof(struct heap * )]. *)
Definition DIFF_HEAP : Z := 1048576 - MTU - 4.

(** Chunks of the second heap are numbered below zero, to keep its addresses
    apart from those of the first. *)
Definition heap_2_ptr (h : heap) : addr := (- 1 - h_cur h, h_brk h).

Definition Tmk_diff_repo : Proc unit :=
  modify (fun s => set_n_heap_2 heap_start (set_n_heap_1 heap_start s)).

Definition Tmk_diff_repo_test : Proc bool :=
  gets (fun s => negb (h_cur (n_heap_1 s) =? 0)).

(** A [write_notice_t]: the process and the position in its list. *)
Definition wn_ref : Type := Z * nat.

Definition wn_lookup (p : page) (w : wn_ref) : option write_notice :=
  ws ← p_wn p !! w.1; ws !! w.2.

Definition wn_update (w : wn_ref) (f : write_notice -> write_notice) (p : page) : page :=
  set_wn (<[w.1 := alter f w.2 (default [] (p_wn p !! w.1))]> (p_wn p)) p.

Definition set_diff (a : addr) (d : list Z) (w : write_notice) : write_notice :=
  WriteNotice (Some (a, d)) (u16 (diff_bytes d)) (wn_id w) (wn_vt w).

(** [write_notice_[pid]] and following [next]: newest first. *)
Definition wn_list (p : page) (pid : Z) : list write_notice := default [] (p_wn p !! pid).

Definition Tmk_diff_create (p : page_t) (w : wn_ref) : Proc unit :=
  vadr ← load_page p;
  twin ← pg p_twin p ≫= lift_opt;
  h ← gets n_heap_1;
  let d := diff_create vadr twin in
  set_pg p (wn_update w (set_diff (heap_ptr h) d));;
  modify (fun s => set_n_heap_1 (heap_advance DIFF_HEAP (diff_bytes d) h) s);;
  bump st_diffs set_st_diffs 1;;
  bump st_total_diff_size set_st_total_diff_size (u16 (diff_bytes d)).

(** ** [Tmk_diff_request]: sorting *)

(** [NWRITES]. *)
Definition NWRITES : Z := (MTU - sizeof_req_typ) / 4.

(** An entry of [write_]: the write notice and its [interval]'s fields. *)
Record wentry : Type := WEntry { we_ref : wn_ref; we_id : Z; we_vt : vtime }.

(** The interval of [a] is older than, or the same as, one [b] has seen:
    [b->vector_time_[a->id] >= a->vector_time_[a->id]]. *)
Definition seen (a b : wentry) : bool := vt_get (we_vt a) (we_id a) <=? vt_get (we_vt b) (we_id a).

(** From index [j] on, skip the entries that [w] has not seen and put [w] in
    front of the first that it has, or of the sentinel; the result also says
    where it is. *)
Fixpoint insert_from (w : wentry) (ws : list wentry) : list wentry * nat :=
  match ws with
  | [] => ([w], O)
  | x :: ws' =>
      if seen x w then (w :: ws, O)
      else let '(r, k) := insert_from w ws' in (x :: r, S k)
  end.

Definition insert_at (j : nat) (w : wentry) (ws : list wentry) : list wentry * nat :=
  let '(r, k) := insert_from w (drop j ws) in (take j ws ++ r, (j + k)%nat).

(** [for (j = 0; write && write->diff == 0; j++)] *)
Fixpoint sort_proc (pid : Z) (pos j : nat) (wns : list write_notice) (ws : list wentry)
    : list wentry :=
  match wns with
  | [] => ws
  | w :: wns' =>
      match wn_diff w with
      | Some _ => ws
      | None =>
          let '(ws', k) := insert_at j (WEntry (pid, pos) (wn_id w) (wn_vt w)) ws in
          sort_proc pid (S pos) (S k) wns' ws'
      end
  end.

Definition sort_writes (c : conf) (p : page) : list wentry :=
  fold_left (fun ws i => sort_proc i 0 0 (wn_list p i) ws) (procs_of c) [].

(** ** [Tmk_diff_request]: grouping

    [struct preq]: the entries from [pr_n] down to [pr_i + 1]. *)
Record preq : Type := Preq { pr_to : Z; pr_i : Z; pr_n : Z }.

Definition pairs_of (w : wentry) : list Z := [u16 (we_id w); vt_get (we_vt w) (we_id w)].

Definition entry (ws : list wentry) (i : Z) : wentry :=
  nth (Z.to_nat i) ws (WEntry (0, O) 0 vt_zero).

(** [do { ... } while (--n > dom)] *)
Fixpoint push_down (fuel : nat) (ws : list wentry) (dom n : Z) (data : list Z) : list Z * Z :=
  match fuel with
  | O => (data, n)
  | S fuel' =>
      let data' := data ++ pairs_of (entry ws n) in
      if dom <? n - 1 then push_down fuel' ws dom (n - 1) data' else (data', n - 1)
  end.

(** [dom] has seen all of [n + 1 .. dom + 1]. *)
Definition dominates (ws : list wentry) (dom n : Z) : bool :=
  forallb (fun i => seen (entry ws i) (entry ws dom)) (seqZ (dom + 1) (n + 1 - dom)).

(** [redo: ... if (--dom < 0) goto xmit; goto redo;] *)
Fixpoint find_dom (fuel : nat) (ws : list wentry) (dom n : Z) : option Z :=
  match fuel with
  | O => None
  | S fuel' =>
      if dominates ws dom n then Some dom
      else if dom - 1 <? 0 then None
      else find_dom fuel' ws (dom - 1) n
  end.

(** [for (;; dom = MIN(dom, n - 1))]: the data of one request and the next [n]. *)
Fixpoint fill (fuel : nat) (ws : list wentry) (dom n : Z) (data : list Z) : list Z * Z :=
  match fuel with
  | O => (data, n)
  | S fuel' =>
      let '(data', n') := push_down (S (length ws)) ws dom n data in
      if n' <? 0 then (data', n')
      else match find_dom (S (length ws)) ws dom n' with
           | None => (data', n')
           | Some dom' => fill fuel' ws (Z.min dom' (n' - 1)) n' data'
           end
  end.

(** [do { ... } while (n >= 0)]: the requests, each with its data. *)
Fixpoint group (fuel : nat) (ws : list wentry) (n : Z) : list (preq * list Z) :=
  match fuel with
  | O => []
  | S fuel' =>
      let '(data, n') := fill (S (length ws)) ws (n - 1) n [] in
      let to := nth (length data - 2) data 0 in
      (Preq to n' n, data) :: (if 0 <=? n' then group fuel' ws n' else [])
  end.

Definition groups (ws : list wentry) : list (preq * list Z) :=
  match ws with [] => [] | _ => group (length ws) ws (Z.of_nat (length ws) - 1) end.

(** ** [Tmk_diff_request]: exchanging *)
Definition diff_req (seqno from id : Z) (data : list Z) : request :=
  Request seqno from REQ_DIFF id [] data.

(** The entries [n], [n - 1], ..., [i + 1]. *)
Definition entries_down (ws : list wentry) (i n : Z) : list wentry :=
  reverse (take (Z.to_nat (n - i)) (drop (Z.to_nat (i + 1)) ws)).

Section Exchange.
Context {signals : Signals}.

(** At [receive]: one reply, which goes to the second heap. *)
Definition receive_diffs (p : page_t) (to seqno : Z) (rest : list wentry) : Proc (addr * list Z) :=
  self ← me;
  evs ← gets n_events;
  r ← await evs true true seqno
    (send_req to (diff_req seqno self p (rest ≫= pairs_of));;
     bump st_rexmits set_st_rexmits 1) discard;
  let size := diff_bytes (rp_data r) in
  bump st_messages set_st_messages 1;;
  bump st_bytes set_st_bytes (4 + size);;
  bump st_bytes_of_data set_st_bytes_of_data size;;
  h ← gets n_heap_2;
  modify (fun s => set_n_heap_2 (heap_advance DIFF_HEAP size h) s);;
  mret (heap_2_ptr h, rp_data r).

(** [for (;;)]: apply the diffs of a message to the page, in order; when
    the message is used up, the next one has the next sequence number. *)
Fixpoint apply_diffs (p : page_t) (to seqno : Z) (rest : list wentry)
    (cur : option (addr * list Z)) : Proc unit :=
  match rest with
  | [] => skip
  | w :: rest' =>
      '(a, diff) ← (match cur with
                    | Some x => mret x
                    | None => receive_diffs p to seqno rest
                    end);
      mem ← load_page p;
      '(mem', diff') ← lift_opt (diff_apply mem diff);
      store_page p mem';;
      let used := take (length diff - length diff') diff in
      set_pg p (wn_update (we_ref w) (set_diff a used));;
      match rest', diff' with
      | [], _ => skip
      | _, [] =>
          let seqno' := u32 (seqno + SEQNO_INCR) in
          modify (fun s => set_n_req_seqno (Z.max (n_req_seqno s) seqno') s);;
          apply_diffs p to seqno' rest' None
      | _, _ => apply_diffs p to seqno rest' (Some ((a.1, a.2 + diff_bytes used), diff'))
      end
  end.

(** [write_] has [NWRITES] entries and a sentinel, [preq_] [NPROCS * NPROCS]. *)
Definition Tmk_diff_request (p : page_t) : Proc unit :=
  c ← config;
  ws ← pg (sort_writes c) p;
  if (NWRITES <? Z.of_nat (length ws)) || (NPROCS * NPROCS <? Z.of_nat (length (groups ws))) then undef
  else match ws with
  | [] => skip
  | _ =>
      seqno ← next_seqno;
      for_each (fun '(q, data) => send_req (pr_to q) (diff_req seqno (proc_id c) p data)) (groups ws);;
      for_each (fun '(q, _) =>
        apply_diffs p (pr_to q) seqno (entries_down ws (pr_i q) (pr_n q)) None) (groups ws)
  end.
End Exchange.

(** ** [Tmk_diff_sigio_handler] *)

(** [UIO_MAXIOV] of Linux. *)
Definition MSG_MAXIOVLEN : Z := 1024.

(** An entry of [iov]: base, length and the bytes there. *)
Record iovec : Type := Iovec { iov_base : addr; iov_len : Z; iov_data : list Z }.

(** [seqno], [size] and the entries of [iov] from index 1, last first. *)
Record serving : Type := Serving { sv_seqno : Z; sv_size : Z; sv_iov : list iovec }.

Definition iov_index (sv : serving) : Z := 1 + Z.of_nat (length (sv_iov sv)).

Definition flush (from : Z) (sv : serving) : Proc unit :=
  send_rep from (Reply (sv_seqno sv) (concat (reverse (map iov_data (sv_iov sv))))).

(** [while (write_notice->interval->vector_time_[pid] != time)] *)
Fixpoint find_wn (pid time : Z) (pos : nat) (wns : list write_notice) : option wn_ref :=
  match wns with
  | [] => None
  | w :: wns' =>
      if vt_get (wn_vt w) pid =? time then Some (pid, pos) else find_wn pid time (S pos) wns'
  end.

(** Add a diff: start a new message when it would exceed [MTU], extend the
    last entry when it is contiguous, and send when the entries are used up. *)
Definition add_diff (from : Z) (a : addr) (size : Z) (d : list Z) (sv : serving) : Proc serving :=
  sv1 ← (if MTU <? sv_size sv + size
         then flush from sv;; mret (Serving (u32 (sv_seqno sv + SEQNO_INCR)) (4 + size) [])
         else mret (Serving (sv_seqno sv) (sv_size sv + size) (sv_iov sv)));
  match sv_iov sv1 with
  | e :: es =>
      if (2 <? iov_index sv1) && bool_decide (a = ((iov_base e).1, (iov_base e).2 + iov_len e))
      then mret (Serving (sv_seqno sv1) (sv_size sv1)
                   (Iovec (iov_base e) (iov_len e + size) (iov_data e ++ d) :: es))
      else
        let sv2 := Serving (sv_seqno sv1) (sv_size sv1) (Iovec a size d :: e :: es) in
        if iov_index sv2 =? MSG_MAXIOVLEN
        then flush from sv2;; mret (Serving (u32 (sv_seqno sv2 + SEQNO_INCR)) 4 [])
        else mret sv2
  | [] => mret (Serving (sv_seqno sv1) (sv_size sv1) [Iovec a size d])
  end.

(** One turn of the loop over [req->data]. *)
Definition serve_one (p : page_t) (from pid time : Z) (sv : serving) (made : bool)
    : Proc (serving * bool) :=
  pr ← pg id p;
  w ← lift_opt (find_wn pid time 0 (wn_list pr pid));
  made' ← (match wn_lookup pr w ≫= wn_diff with
           | None => Tmk_diff_create p w;; mret true
           | Some _ => mret made
           end);
  pr' ← pg id p;
  wn ← lift_opt (wn_lookup pr' w);
  '(a, d) ← lift_opt (wn_diff wn);
  sv' ← add_diff from a (wn_size wn) d sv;
  mret (sv', made').

(** [do { ... } while ((ptr += 2) < end)] *)
Fixpoint serve_pairs (p : page_t) (from : Z) (data : list Z) (sv : serving) (made : bool)
    : Proc (serving * bool) :=
  match data with
  | pid :: time :: [] => serve_one p from pid time sv made
  | pid :: time :: data' =>
      '(sv', made') ← serve_one p from pid time sv made;
      serve_pairs p from data' sv' made'
  | _ => undef
  end.

Definition Tmk_diff_sigio_handler (r : request) : Proc unit :=
  let p := rq_id r in
  '(sv, made) ← serve_pairs p (rq_from r) (rq_data r) (Serving (rq_seqno r) 4 []) false;
  when (1 <? iov_index sv) (flush (rq_from r) sv);;
  when made (mprotect p PROT_READ;; Tmk_twin_free p).

Definition Tmk_diff_initialize : Proc unit := Tmk_diff_repo.
