(* ===== verification/Interval.v ===== *)
(** * Intervals and write notices ([src/Tmk/src/interval.c])

    An interval records the pages a process wrote between two
    synchronisations.  This file models creating one from the dirty list,
    writing the intervals that another process lacks into a message, and
    incorporating such a message: new intervals and write notices, and the
    invalidation of the pages they name. *)
From S2P Require Import Prelude DiffCodec Pages State Twins Diffs.
Local Open Scope Z_scope.

(** ** The heap *)
Definition sizeof_interval : Z := 84.
Definition sizeof_range : Z := 8.
Definition sizeof_write_notice : Z := 16.

(** The offset of [heap_overflow_]. *)
Definition INTERVAL_HEAP : Z := 262144 - sizeof_interval - 4.

Definition heap_alloc (size : Z) : Proc addr :=
  h ← gets n_heap;
  modify (set_n_heap (heap_advance INTERVAL_HEAP size h));;
  mret (heap_ptr h).

Definition Tmk_interval_repo_test : Proc bool := gets (fun s => negb (h_cur (n_heap s) =? 0)).

Definition Tmk_interval_repo : Proc unit :=
  c ← config;
  for_each (fun i => modify (fun s => set_n_procs (<[i := []]> (n_procs s)) s)) (procs_of c);;
  modify (set_n_heap heap_start).

Definition Tmk_interval_initialize : Proc unit := Tmk_interval_repo.

(** ** Creating *)

(** Link a new interval at the end of the list of [pid]. *)
Definition enqueue_interval (pid : Z) (iv : interval) : Proc unit :=
  modify (fun s => set_n_procs (<[pid := intervals_of s pid ++ [iv]]> (n_procs s)) s).

(** [write_notice_range] is filled in after the record has been linked. *)
Definition last_range (pid : Z) (rg : Z * Z) : Proc unit :=
  modify (fun s => set_n_procs (alter (fun l =>
    alter (fun iv => Interval (iv_id iv) (iv_vt iv) (iv_ranges iv ++ [rg])) (pred (length l)) l)
    pid (n_procs s)) s).

(** A write notice for [pid], in front of the others of the page. *)
Definition push_notice (pid : Z) (id : Z) (vt : vtime) (p : page_t) : Proc unit :=
  heap_alloc sizeof_write_notice;;
  set_pg p (fun pg => set_wn (<[pid := WriteNotice None 0 id vt :: wn_list pg pid]> (p_wn pg)) pg).

(** One run of the dirty list; [first] says whether its range is the one
    inside the interval record or a new one. *)
Definition create_run (vt : vtime) (page : page_t) : Proc unit :=
  self ← me;
  partner ← pg p_partner page;
  last_range self (u16 page, u16 partner);;
  set_pg (partner + 1) (set_dirty false);;
  set_pg page (set_dirty false);;
  for_each (push_notice self self vt) (reverse (seqZ page (partner - page + 1))).

(** [heap_alloc] for every range but the first. *)
Definition create_rest (vt : vtime) (page : page_t) : Proc unit :=
  heap_alloc sizeof_range;;
  create_run vt page.

Definition Tmk_interval_create (vector_time_ : vt_ptr) : Proc unit :=
  page ← pg p_prev PAGE_DIRTY;
  if page =? PAGE_DIRTY then skip
  else
    set_pg PAGE_DIRTY (set_prev PAGE_DIRTY);;
    set_pg PAGE_DIRTY (set_next PAGE_DIRTY);;
    heap_alloc sizeof_interval;;
    self ← me;
    vt_write vector_time_ (fun v => vt_set self (vt_get v self + 1) v);;
    vt ← vt_read vector_time_;
    enqueue_interval self (Interval self vt []);;
    create_run vt page;;
    prev ← pg p_prev page;
    if prev =? PAGE_DIRTY then skip
    else do_while_prev (pg p_prev) list_fuel PAGE_DIRTY (create_rest vt) prev.

(** ** Writing a message

    All fields are unsigned shorts: [~pid], the vector time, and the ranges.
    A range of one page is its number, one of two pages is both numbers, and
    a longer one is the marker [~NPROCS] and both ends. *)
Definition not_pid (pid : Z) : Z := u16 (- 1 - pid).
Definition RANGE_MARK : Z := u16 (- 1 - NPROCS).
Definition PID_LIMIT : Z := u16 (- NPROCS).

Definition put_range (rg : Z * Z) : list Z :=
  let '(first, last) := rg in
  let j := last - first in
  if 0 <? j then (if 1 <? j then [RANGE_MARK] else []) ++ [first; last] else [last].

Definition put_interval (i : Z) (iv : interval) : list Z :=
  not_pid i :: iv_vt iv ++ (iv_ranges iv ≫= put_range).

(** [while (time < interval__prev->vector_time_[i])]: from the newest back. *)
Fixpoint newer (i time : Z) (rev_ivs : list interval) : list interval :=
  match rev_ivs with
  | [] => []
  | iv :: rest => if time <? vt_get (iv_vt iv) i then newer i time rest ++ [iv] else []
  end.

Definition Tmk_interval_request_proc (s : node) (i time : Z) : list Z :=
  newer i time (reverse (intervals_of s i)) ≫= put_interval i.

Definition Tmk_interval_request (s : node) (vector_time_ : vtime) : list Z :=
  procs_of (n_conf s) ≫= fun i => Tmk_interval_request_proc s i (vt_get vector_time_ i).

(** ** Incorporating a message *)

(** [while (page->twin)]: make the diff if a write notice waits for it, else
    end the current interval, which makes the write notice. *)
Fixpoint untwin (fuel : nat) (vector_time_ : vt_ptr) (page : page_t) : Proc unit :=
  match fuel with
  | O => undef
  | S fuel' =>
      twin ← pg p_twin page;
      match twin with
      | None => skip
      | Some _ =>
          self ← me;
          ws ← pg (fun p => wn_list p self) page;
          (match ws with
           | WriteNotice None _ _ _ :: _ =>
               Tmk_diff_create page (self, O);;
               Tmk_twin_free page
           | _ =>
               Tmk_interval_create vector_time_;;
               vt ← vt_read vector_time_;
               modify (fun s => set_n_vt (vt_set self (vt_get vt self) (n_vt s)) s)
           end);;
          untwin fuel' vector_time_ page
      end
  end.

(** One page of a range: the write notice, and the change of status. *)
Definition note_page (vector_time_ : vt_ptr) (pid : Z) (vt : vtime) (page : page_t) : Proc unit :=
  push_notice pid pid vt page;;
  st ← pg p_state page;
  match st with
  | valid =>
      set_pg page (set_state invalid);;
      untwin 3 vector_time_ page;;
      on_pages (Tmk_page_inval_merge page)
  | _ => skip
  end.

(** [do { ... } while ((page += 1) <= page_end)]: at least one page. *)
Definition pages_from (u v : Z) : list Z := u :: seqZ (u + 1) (v - u).

(** The ranges of one interval, from [u = *msgp]; the result is the rest of
    the message.  [head] says that the range is the one inside the interval
    record.  [last_range] follows the code's order: it stores the range before
    the pages are visited. *)
Fixpoint get_ranges (head : bool) (vector_time_ : vt_ptr) (pid : Z) (vt : vtime) (msg : list Z)
    : Proc (list Z) :=
  match msg with
  | [] => undef
  | u :: msg1 =>
      when (negb head) (heap_alloc sizeof_range;; skip);;
      let range u v :=
        last_range pid (u, v);;
        for_each (note_page vector_time_ pid vt) (pages_from u v) in
      if u =? RANGE_MARK then
        match msg1 with
        | u' :: v :: msg2 =>
            range u' v;;
            match msg2 with
            | u2 :: _ => if u2 <? PID_LIMIT then get_ranges false vector_time_ pid vt msg2 else mret msg2
            | [] => mret msg2
            end
        | _ => undef
        end
      else
        range u u;;
        match msg1 with
        | u2 :: _ => if u2 <? PID_LIMIT then get_ranges false vector_time_ pid vt msg1 else mret msg1
        | [] => mret msg1
        end
  end.

(** [for (...; msgp < msg_end && *msgp < (unsigned short) -NPROCS; msgp++)] *)
Fixpoint skip_ranges (msg : list Z) : list Z :=
  match msg with
  | u :: msg' => if u <? PID_LIMIT then skip_ranges msg' else msg
  | [] => []
  end.

(** One turn of [while (msgp < msg_end)], after [pid] has been read; an
    identifier outside [proc_array_] or a truncated record is an access
    outside the arrays. *)
Definition get_interval (vector_time_ : vt_ptr) (pid : Z) (msg : list Z) : Proc (list Z) :=
  if (0 <=? pid) && (pid <? NPROCS) && (NPROCS <=? Z.of_nat (length msg)) then
    let vt := take (Z.to_nat NPROCS) msg in
    let msg' := drop (Z.to_nat NPROCS) msg in
    let u := vt_get vt pid in
    mine ← gets (fun s => vt_get (n_vt s) pid);
    if mine <? u then
      modify (fun s => set_n_vt (vt_set pid u (n_vt s)) s);;
      heap_alloc sizeof_interval;;
      enqueue_interval pid (Interval pid vt []);;
      rest ← get_ranges true vector_time_ pid vt msg';
      self ← me;
      let u := vt_get vt self in
      inv ← gets (fun s => vt_get (n_it s) pid);
      when (inv <? u) (modify (fun s => set_n_it (vt_set pid u (n_it s)) s));;
      mret rest
    else mret (skip_ranges msg')
  else undef.

(** [int pid = ~*(short * ) msgp++] *)
Definition pid_of (x : Z) : Z := - 1 - s16 x.

Fixpoint incorporate_loop (fuel : nat) (vector_time_ : vt_ptr) (msg : list Z) : Proc unit :=
  match fuel, msg with
  | _, [] => skip
  | O, _ => undef
  | S fuel', x :: msg' =>
      rest ← get_interval vector_time_ (pid_of x) msg';
      incorporate_loop fuel' vector_time_ rest
  end.

Definition Tmk_interval_incorporate (msg : list Z) (vector_time_ : vt_ptr) : Proc unit :=
  incorporate_loop (length msg) vector_time_ msg;;
  match vector_time_ with
  | VtNull => skip
  | _ => on_pages Tmk_page_inval_perform
  end.
