(* ===== verification/Faults.v ===== *)
(** * Page faults ([src/Tmk/src/segv.c], [src/Tmk/src/page.c])

    Fetching a page from its manager, serving such a request, the handler of
    protection faults, and the initial state of the page table. *)
From S2P Require Import Prelude Pages State Rpc Twins Diffs.
Local Open Scope Z_scope.

Section Faults.
Context {signals : Signals}.

(** [recvmsg] puts what follows the sequence number of any reply at
    [page->vadr]; at most [Tmk_page_size] bytes are stored. *)
Definition recv_page (page : page_t) (r : reply) : Proc unit :=
  c ← config;
  mem ← load_page page;
  let data := take (Z.to_nat (page_size c / 4)) (rp_data r) in
  store_page page (data ++ drop (length data) mem).

Definition Tmk_page_request (page : page_t) : Proc unit :=
  c ← config;
  seqno ← next_seqno;
  manager ← pg p_manager page;
  r ← send_await seqno
        (send_req manager (Request seqno (proc_id c) REQ_PAGE (u16 page) [] []))
        (recv_page page);
  bump st_bytes set_st_bytes (4 + 4 * Z.of_nat (length (rp_data r)));;
  bump st_bytes_of_data set_st_bytes_of_data (page_size c);;
  bump st_cold_misses set_st_cold_misses 1.

(** [twin: ...] *)
Definition twin_and_link (page : page_t) : Proc unit :=
  Tmk_twin_alloc_and_copy page;;
  on_pages (Tmk_page_dirty_merge page).

(** The handler for a fault at [page_array_[0].vadr + offset]; [write] is
    bit 1 of the error code.  The result says whether the program resumes;
    otherwise the default action has been restored. *)
Definition segv_handler (offset : Z) (write : bool) : Proc bool :=
  c ← config;
  let i := Z.shiftr (u32 offset) (Z.log2 (page_size c)) in
  if i <? npages c then
    mprotect i PROT_READ_WRITE;;
    st ← pg p_state i;
    (if decide (st = valid) then twin_and_link i
     else
       when (bool_decide (st = empty)) (Tmk_page_request i);;
       set_pg i (set_state valid);;
       Tmk_diff_request i;;
       if write then twin_and_link i else mprotect i PROT_READ);;
    mret true
  else
    for_each (fun j => mprotect j PROT_READ) (seqZ 0 (npages c));;
    mret false.
End Faults.

(** [sendmsg] with an unreadable buffer fails with [EFAULT]. *)
Definition send_page (from seqno : Z) (page : page_t) : Proc unit :=
  twin ← pg p_twin page;
  match twin with
  | Some data => send_rep from (Reply seqno data)
  | None =>
      pr ← pg p_prot page;
      mem ← pg p_mem page;
      match pr with
      | PROT_NONE => exit_with "Tmk_page_sigio_handler<sendmsg>"
      | _ => send_rep from (Reply seqno mem)
      end
  end.

Definition Tmk_page_sigio_handler (r : request) : Proc unit :=
  let page := rq_id r in
  twin ← pg p_twin page;
  st ← pg p_state page;
  when (match twin with None => bool_decide (st = invalid) | Some _ => false end)
    (mprotect page PROT_READ);;
  send_page (rq_from r) (rq_seqno r) page;;
  st ← pg p_state page;
  match st with
  | invalid => mprotect page PROT_NONE
  | private =>
      set_pg page (set_state valid);;
      twin ← pg p_twin page;
      match twin with
      | Some _ => exit_with "assert"
      | None => mprotect page PROT_READ
      end
  | _ => skip
  end.

(** ** [Tmk_page_initialize] *)

(** [for (i = 1 << page_shift; i < Tmk_page_size; i <<= 1) page_shift++;] *)
Fixpoint page_shift_loop (fuel : nat) (size i shift : Z) : Z :=
  match fuel with
  | O => shift
  | S fuel' =>
      if i <? size then page_shift_loop fuel' size (Z.shiftl i 1) (shift + 1) else shift
  end.

(** [Tmk_page_size] and the final [page_shift], from [getpagesize()] and the
    shift chosen with [-X]. *)
Definition page_geometry (getpagesize page_shift : Z) : Z * Z :=
  let size := Z.shiftl getpagesize page_shift in
  (size, page_shift_loop 32 size (Z.shiftl 1 page_shift) page_shift).

(** What the loop does to page [i], after the [mmap] of zero pages and the
    [mprotect] of the whole range at [i == 0]. *)
Definition init_page (c : conf) (to_valid : bool) (i : Z) (p : page) : page :=
  let prot :=
    if to_valid then (if 1 <? nprocs c then PROT_READ else PROT_READ_WRITE)
    else (if proc_id c =? 0 then PROT_READ_WRITE else PROT_NONE) in
  let p1 := if i <? npages c
            then set_prot prot (set_mem (replicate (Z.to_nat (page_size c / 4)) 0) p) else p in
  set_manager 0 (set_state
    (if to_valid then valid else if proc_id c =? 0 then private else empty) p1).

Definition Tmk_page_initialize (to_valid : bool) : Proc unit :=
  c ← config;
  for_each (fun i => set_pg i (init_page c to_valid i)) (seqZ 0 (npages c + 1));;
  on_pages (for_each (fun h => wr h (set_prev h);; wr h (set_next h)) [head_of Inval; PAGE_DIRTY]).
