(* ===== verification/Lock.v ===== *)
(** * Locks and condition variables ([src/Tmk/src/lock.c])

    A lock's token moves along a distributed queue: [next] is the process that
    gets the token after this one (this process itself while nobody has asked
    for it), and the lock's manager keeps the [tail] of the queue and forwards
    requests to it.  A grant carries the intervals the new holder lacks. *)
From S2P Require Import Prelude Pages State Rpc Interval.
Local Open Scope Z_scope.

Definition lock_at (id : Z) : Proc lock :=
  if (0 <=? id) && (id <? NLOCKS) then gets (fun s => n_locks s !!! id) else undef.

Definition set_lock (id : Z) (f : lock -> lock) : Proc unit :=
  if (0 <=? id) && (id <? NLOCKS)
  then modify (fun s => set_n_locks (<[id := f (n_locks s !!! id)]> (n_locks s)) s) else undef.

(** [rep.seqno = seqno; send(..., &rep, Tmk_interval_request(rep.data, vt) - &rep)] *)
Definition send_intervals (to seqno : Z) (vt : vtime) : Proc unit :=
  s ← get;
  send_rep to (Reply seqno (Tmk_interval_request s vt)).

(** [inverse_time_[j] = proc_vector_time_[Tmk_proc_id]] *)
Definition set_inverse (j : Z) : Proc unit :=
  self ← me;
  modify (fun s => set_n_it (vt_set j (vt_get (n_vt s) self) (n_it s)) s).

(** [send(fd, req, sizeof(struct req_syn))]: without [id2]. *)
Definition as_req_syn (r : request) : request :=
  Request (rq_seqno r) (rq_from r) (rq_type r) (rq_id r) (rq_vt r) [].

(** ** Serving requests *)
Definition Tmk_lock_sigio_handler (r : request) : Proc unit :=
  self ← me;
  let id := rq_id r in
  let from := rq_from r in
  lk ← lock_at id;
  if lk_next lk =? self then
    (if negb (lk_held lk) then
       now ← gets (fun s => vt_get (n_vt s) self);
       when (lk_time lk =? now) (Tmk_interval_create VtProc);;
       set_lock id (set_lk_release_seqno (rq_seqno r));;
       send_intervals from (rq_seqno r) (rq_vt r);;
       set_inverse from
     else modify (fun s => set_n_lock_vt (<[from := rq_vt r]> (n_lock_vt s)) s));;
    set_lock id (set_lk_next from);;
    when (lk_manager lk =? self) (set_lock id (set_lk_tail from))
  else if lk_manager lk =? self then
    let tail := lk_tail lk in
    send_req tail (as_req_syn r);;
    modify (fun s => set_n_tail_ (vt_set from tail (n_tail_ s)) s);;
    set_lock id (set_lk_tail from)
  else exit_with "Tmk_lock_sigio_handler<next>".

Definition Tmk_lock_sigio_duplicate_handler (r : request) : Proc unit :=
  self ← me;
  lk ← lock_at (rq_id r);
  let from := rq_from r in
  if lk_release_seqno lk =? rq_seqno r then send_intervals from (rq_seqno r) (rq_vt r)
  else if lk_held lk && (lk_next lk =? from) then skip
  else if lk_manager lk =? self then
    tail ← gets (fun s => vt_get (n_tail_ s) from);
    send_req tail (as_req_syn r)
  else skip.

(** ** Releasing *)
Definition Tmk_lock_release (lock_id : Z) : Proc unit :=
  if lock_id <? NLOCKS then
    lk ← lock_at lock_id;
    if lk_held lk then
      self ← me;
      set_lock lock_id (set_lk_held false);;
      let to := lk_next lk in
      if negb (to =? self) then
        Tmk_interval_create VtProc;;
        seqno ← gets (fun s => default 0 (n_rep_seqno s !! to));
        set_lock lock_id (set_lk_release_seqno seqno);;
        vt ← gets (fun s => default vt_zero (n_lock_vt s !! to));
        send_intervals to seqno vt;;
        set_inverse to
      else
        now ← gets (fun s => vt_get (n_vt s) self);
        set_lock lock_id (set_lk_time now)
    else exit_with "Tmk_lock_release: REreleased"
  else exit_with "Tmk_lock_release: lock id".

(** ** Condition variables: the queue of waiting processes

    [waitq_head], [waitq_tail] and the [next] fields are pointers into
    [waitq_]; the tail of an empty queue points to [waitq_head] itself. *)
Definition cond_at (id id2 : Z) : Proc cond :=
  lk ← lock_at id;
  if (0 <=? id2) && (id2 <? NCONDS) then mret (lk_cond lk !!! id2) else undef.

Definition set_cond (id id2 : Z) (f : cond -> cond) : Proc unit :=
  set_lock id (fun lk => set_lk_cond (<[id2 := f (lk_cond lk !!! id2)]> (lk_cond lk)) lk).

Definition set_waitq (i : Z) (f : waitq_entry -> waitq_entry) : Proc unit :=
  modify (fun s => set_n_waitq (<[i := f (n_waitq s !!! i)]> (n_waitq s)) s).

(** [we->next = NULL; cond->waitq_tail = cond->waitq_tail->next = we; we->queued = 1;] *)
Definition waitq_enqueue (id id2 we : Z) : Proc unit :=
  set_waitq we (set_wq_next None);;
  c ← cond_at id id2;
  (match c_tail c with
   | None => set_cond id id2 (set_c_head (Some we))
   | Some t => set_waitq t (set_wq_next (Some we))
   end);;
  set_cond id id2 (set_c_tail (Some we));;
  set_waitq we (set_wq_queued true).

Fixpoint update_max (n : nat) (a b : vtime) : vtime :=
  match n, a, b with
  | S n', x :: a', y :: b' => Z.max x y :: update_max n' a' b'
  | _, _, _ => b
  end.

(** [update_time]: the elementwise maximum, for the first [Tmk_nprocs]. *)
Definition update_time (id id2 : Z) (vt : vtime) : Proc unit :=
  c ← config;
  set_cond id id2 (fun cd => set_c_signal_vt (update_max (Z.to_nat (nprocs c)) vt (c_signal_vt cd)) cd).

(** The first waiting process is made to ask for the lock: its request is
    served as if it had just arrived.  The result is [NULL] or not. *)
Definition waitq_dequeue (id id2 : Z) : Proc bool :=
  self ← me;
  c ← cond_at id id2;
  match c_head c with
  | None => mret false
  | Some we =>
      next ← gets (fun s => wq_next (n_waitq s !!! we));
      set_cond id id2 (set_c_head next);;
      when (negb (bool_decide (is_Some next))) (set_cond id id2 (set_c_tail None));;
      set_waitq we (set_wq_queued false);;
      r ← gets (fun s => wq_req (n_waitq s !!! we));
      when (negb (rq_from r =? self))
        (set_waitq we (set_wq_req (set_rq_type REQ_LOCK r));;
         Tmk_lock_sigio_handler (set_rq_type REQ_LOCK r));;
      mret true
  end.

(** [while (waitq_dequeue(cond));], with fuel for a queue of all processes. *)
Fixpoint dequeue_all (fuel : nat) (id id2 : Z) : Proc unit :=
  match fuel with
  | O => undef
  | S fuel' =>
      b ← waitq_dequeue id id2;
      if b : bool then dequeue_all fuel' id id2 else skip
  end.

Definition waitq_fuel : nat := S (Z.to_nat NPROCS).

Definition id2_of (r : request) : Z := hd 0 (rq_data r).

Definition ack (r : request) : Proc unit := send_rep (rq_from r) (Reply (rq_seqno r) []).

Definition Tmk_cond_broadcast_sigio_handler (r : request) : Proc unit :=
  dequeue_all waitq_fuel (rq_id r) (id2_of r);;
  update_time (rq_id r) (id2_of r) (rq_vt r);;
  ack r.

Definition Tmk_cond_signal_sigio_handler (r : request) : Proc unit :=
  waitq_dequeue (rq_id r) (id2_of r);;
  update_time (rq_id r) (id2_of r) (rq_vt r);;
  ack r.

Definition Tmk_cond_wait_sigio_handler (r : request) : Proc unit :=
  c ← cond_at (rq_id r) (id2_of r);
  let from := rq_from r in
  if vt_get (rq_vt r) from <=? vt_get (c_signal_vt c) from
  then Tmk_lock_sigio_handler (set_rq_type REQ_LOCK r)
  else
    set_waitq from (set_wq_req r);;
    waitq_enqueue (rq_id r) (id2_of r) from.

Definition Tmk_cond_wait_sigio_duplicate_handler (r : request) : Proc unit :=
  we ← gets (fun s => n_waitq s !!! rq_from r);
  if wq_queued we && (rq_seqno (wq_req we) =? rq_seqno r) then skip
  else Tmk_lock_sigio_duplicate_handler (set_rq_type REQ_LOCK r).

(** ** The operations of the program *)
Section Operations.
Context {signals : Signals}.

(** [size]: the bytes of a reply with interval data. *)
Definition reply_bytes (r : reply) : Z := 4 + 2 * Z.of_nat (length (rp_data r)).

(** A request that carries [proc_vector_time_], as it is when it is sent. *)
Definition send_syn (to seqno : Z) (t : req_type) (id : Z) (data : list Z) : Proc unit :=
  self ← me;
  vt ← gets n_vt;
  send_req to (Request seqno self t (u16 id) vt data).

Definition Tmk_lock_acquire (lock_id : Z) : Proc unit :=
  if lock_id <? NLOCKS then
    bump st_acquires set_st_acquires 1;;
    lk ← lock_at lock_id;
    if lk_held lk then exit_with "Tmk_lock_acquire: REacquired"
    else
      self ← me;
      set_lock lock_id (set_lk_held true);;
      if lk_next lk =? self then skip
      else
        set_lock lock_id (set_lk_next self);;
        let from := if lk_manager lk =? self then lk_tail lk else lk_manager lk in
        when (lk_manager lk =? self) (set_lock lock_id (set_lk_tail self));;
        seqno ← next_seqno;
        r ← send_await seqno (send_syn from seqno REQ_LOCK lock_id [];; save_vt) discard;
        bump st_bytes set_st_bytes (reply_bytes r);;
        bump st_messages_for_acquires set_st_messages_for_acquires 1;;
        Tmk_interval_incorporate (rp_data r) VtLocal
  else exit_with "Tmk_lock_acquire: lock id".

(** [req_broadcast], [req_signal]: ask the manager and wait for its reply. *)
Definition ask_manager (t : req_type) (manager lock_id cond_id : Z) : Proc unit :=
  seqno ← next_seqno;
  r ← send_await seqno (send_syn manager seqno t lock_id [cond_id]) discard;
  bump st_messages set_st_messages 1;;
  bump st_bytes set_st_bytes (reply_bytes r).

Definition Tmk_lock_cond_broadcast (lock_id cond_id : Z) : Proc unit :=
  if lock_id <? NLOCKS then
    if cond_id <? NCONDS then
      bump st_broadcasts set_st_broadcasts 1;;
      self ← me;
      lk ← lock_at lock_id;
      if lk_manager lk =? self then
        dequeue_all waitq_fuel lock_id cond_id;;
        vt ← gets n_vt;
        update_time lock_id cond_id vt
      else ask_manager REQ_COND_BROADCAST (lk_manager lk) lock_id cond_id
    else exit_with "Tmk_lock_cond_broadcast: cond id"
  else exit_with "Tmk_lock_cond_broadcast: lock id".

Definition Tmk_lock_cond_signal (lock_id cond_id : Z) : Proc unit :=
  if lock_id <? NLOCKS then
    if cond_id <? NCONDS then
      bump st_signals set_st_signals 1;;
      self ← me;
      lk ← lock_at lock_id;
      if lk_manager lk =? self then
        waitq_dequeue lock_id cond_id;;
        vt ← gets n_vt;
        update_time lock_id cond_id vt
      else ask_manager REQ_COND_SIGNAL (lk_manager lk) lock_id cond_id
    else exit_with "Tmk_lock_cond_signal: cond id"
  else exit_with "Tmk_lock_cond_signal: lock id".

Definition Tmk_lock_cond_wait (lock_id cond_id : Z) : Proc unit :=
  if lock_id <? NLOCKS then
    if cond_id <? NCONDS then
      bump st_waits set_st_waits 1;;
      self ← me;
      lk ← lock_at lock_id;
      if negb (lk_held lk) then exit_with "Tmk_lock_cond_wait: lock not held"
      else
        spin (fun s => lk_next (n_locks s !!! lock_id) =? self);;
        Tmk_lock_release lock_id;;
        if lk_manager lk =? self then
          waitq_enqueue lock_id cond_id self;;
          spin (fun s => wq_queued (n_waitq s !!! self));;
          Tmk_lock_acquire lock_id
        else
          set_lock lock_id (set_lk_held true);;
          set_lock lock_id (set_lk_next self);;
          seqno ← next_seqno;
          r ← send_await seqno
                (send_syn (lk_manager lk) seqno REQ_COND_WAIT lock_id [cond_id];; save_vt) discard;
          bump st_messages set_st_messages 1;;
          bump st_bytes set_st_bytes (reply_bytes r);;
          Tmk_interval_incorporate (rp_data r) VtLocal
    else exit_with "Tmk_lock_cond_wait: cond id"
  else exit_with "Tmk_lock_cond_wait: lock id".
End Operations.

(** The fields set by [Tmk_lock_initialize]; the others are zero before. *)
Definition init_lock (c : conf) (i : Z) (lk : lock) : lock :=
  Lock (i `mod` nprocs c) 0 false 0 (lk_release_seqno lk) (lk_time lk)
    (list_to_map ((fun j => (j, Cond None None vt_zero)) <$> seqZ 0 NCONDS)).

Definition Tmk_lock_initialize : Proc unit :=
  c ← config;
  for_each (fun i => set_lock i (init_lock c i)) (seqZ 0 NLOCKS);;
  set_waitq (proc_id c) (fun we =>
    set_wq_req (Request (rq_seqno (wq_req we)) (proc_id c) (rq_type (wq_req we)) (rq_id (wq_req we))
                  (rq_vt (wq_req we)) (rq_data (wq_req we))) we).
