(* ===== verification/Repo.v ===== *)
(** * Repossession ([src/Tmk/src/repo.c])

    When a heap has grown past its first chunk, all processes together
    discard their consistency information: every page ends up valid, or empty
    with a manager that has a valid copy, and then the intervals, write
    notices and diffs are dropped. *)
From S2P Require Import Prelude Pages State Rpc Twins Diffs Interval.
Local Open Scope Z_scope.

Definition Tmk_repo_sigio_handler (r : request) : Proc unit :=
  modify (fun s => set_n_repo_mask (Z.lor (n_repo_mask s) (Z.shiftl 1 (rq_from r))) s).

Definition Tmk_repo_sigio_duplicate_handler (r : request) : Proc unit :=
  mask ← gets n_repo_mask;
  when (Z.land mask (Z.shiftl 1 (rq_from r)) =? 0) (send_rep (rq_from r) (Reply (rq_seqno r) [])).

(** [for (j++; j < Tmk_nprocs; j++)]: move to the newest write notice of the
    next process unless the current interval is greater in some component. *)
Fixpoint newest (nprocs_ : Z) (id : Z) (vt : vtime) (heads : list (option write_notice)) : Z :=
  match heads with
  | [] => id
  | None :: heads' => newest nprocs_ id vt heads'
  | Some w :: heads' =>
      if forallb (fun k => vt_get vt k <=? vt_get (wn_vt w) k) (seqZ 0 nprocs_)
      then newest nprocs_ (wn_id w) (wn_vt w) heads'
      else newest nprocs_ id vt heads'
  end.

(** The new manager, if there is any write notice. *)
Fixpoint choose_manager (nprocs_ : Z) (heads : list (option write_notice)) : option Z :=
  match heads with
  | [] => None
  | None :: heads' => choose_manager nprocs_ heads'
  | Some w :: heads' => Some (newest nprocs_ (wn_id w) (wn_vt w) heads')
  end.

Definition wn_heads (c : conf) (p : page) : list (option write_notice) :=
  map (fun j => head (wn_list p j)) (procs_of c).

Definition repo_update_manager (page : page_t) : Proc bool :=
  c ← config;
  heads ← pg (wn_heads c) page;
  match choose_manager (nprocs c) heads with
  | Some m => set_pg page (set_manager m);; mret true
  | None => mret false
  end.

(** The pages named by the intervals: the least first and the greatest last
    page of all ranges. *)
Definition range_bounds (ivs : list interval) (b : Z * Z) : Z * Z :=
  fold_left (fun '(f, l) '(first, last) => (Z.min first f, Z.max last l)) (ivs ≫= iv_ranges) b.

Definition repo_bounds (s : node) : Z * Z :=
  fold_left (fun b i => range_bounds (reverse (intervals_of s i)) b)
    (procs_of (n_conf s)) (npages (n_conf s), -1).

(** [for (i = first_page_id; i <= last_page_id; i++)] *)
Definition repo_pages (b : Z * Z) : list Z := seqZ b.1 (b.2 - b.1 + 1).

Section Repo.
Context {signals : Signals}.

Definition repo_barrier : Proc unit :=
  c ← config;
  if proc_id c =? 0 then
    spin (fun s => negb (Z.lxor (n_repo_mask s) (Tmk_spinmask (n_conf s)) =? 0));;
    modify (set_n_repo_mask 1);;
    for_each (fun j =>
      seqno ← gets (fun s => default 0 (n_rep_seqno s !! j));
      send_rep j (Reply seqno [])) (seqZ 1 (nprocs c - 1))
  else
    seqno ← next_seqno;
    send_await seqno (send_req 0 (Request seqno (proc_id c) REQ_REPO 0 [] [])) discard;;
    bump st_messages set_st_messages 1;;
    bump st_bytes set_st_bytes 4.

(** [discard:] *)
Definition discard_page (page : page_t) : Proc unit :=
  set_pg page (set_state empty);;
  b ← repo_update_manager page;
  if b : bool then skip else exit_with "Tmk_repo".

(** An interval of another process that has seen the newest interval here
    in which the page was written. *)
Definition seen_by_other (c : conf) (time : Z) (p : page) : bool :=
  existsb (fun j => match head (wn_list p j) with
                    | Some w => time <=? vt_get (wn_vt w) (proc_id c)
                    | None => false
                    end) (others_of c).

Definition repo_page (page : page_t) : Proc unit :=
  c ← config;
  st ← pg p_state page;
  match st with
  | valid =>
      twin ← pg p_twin page;
      match twin with
      | Some _ => Tmk_twin_free page;; set_pg page (set_state private)
      | None => skip
      end
  | invalid =>
      mine ← pg (fun p => head (wn_list p (proc_id c))) page;
      match mine with
      | Some w =>
          other ← pg (seen_by_other c (vt_get (wn_vt w) (proc_id c))) page;
          if other : bool then discard_page page
          else
            mprotect page PROT_READ_WRITE;;
            set_pg page (set_state valid);;
            Tmk_diff_request page;;
            mprotect page PROT_READ
      | None => discard_page page
      end
  | empty => repo_update_manager page;; skip
  | private => skip
  end.

Definition Tmk_repo : Proc unit :=
  bump st_repos set_st_repos 1;;
  b ← gets repo_bounds;
  for_each repo_page (repo_pages b);;
  repo_barrier;;
  modify (fun s => set_n_it vt_zero (set_n_vt vt_zero s));;
  for_each (fun i => set_pg i (set_wn ∅)) (repo_pages b);;
  Tmk_diff_repo;;
  Tmk_interval_repo;;
  repo_barrier.
End Repo.
