(* ===== verification/Barrier.v ===== *)
(** * Barriers ([src/Tmk/src/barrier.c])

    The manager of a barrier collects the arrivals, with the intervals of the
    arriving processes, in [mask], and then sends every process the intervals
    it lacks.  [rep] is one static buffer, into which the manager of one
    barrier writes replies and the client of another receives its own. *)
From S2P Require Import Prelude Pages State Rpc Twins Diffs Interval Repo Lock.
Local Open Scope Z_scope.

(** [1 << j] and [mask |= 1 << j], in an [unsigned]. *)
Definition bit (j : Z) : Z := u32 (Z.shiftl 1 j).

Definition bool_to_Z (b : bool) : Z := if b then 1 else 0.

(** [if ((repo = Tmk_diff_repo_test()) == 0) repo = Tmk_interval_repo_test();] *)
Definition repo_test : Proc bool :=
  d ← Tmk_diff_repo_test;
  if d : bool then mret true else Tmk_interval_repo_test.

(** [req_from_[j].req]; a null pointer when nothing has been received. *)
Definition held_request (j : Z) : Proc request := fun s =>
  match n_req_from s !! j with Some r => Ok (r, s) | None => Undef end.

Definition barrier_at (id : Z) : Proc barrier :=
  if (0 <=? id) && (id <? NBARRIERS) then gets (fun s => n_barriers s !!! id) else undef.

Definition set_mask (id : Z) (f : Z -> Z) : Proc unit :=
  if (0 <=? id) && (id <? NBARRIERS) then
    modify (fun s => let b := n_barriers s !!! id in
      set_n_barriers (<[id := Barrier (b_manager b) (f (b_mask b))]> (n_barriers s)) s)
  else undef.

(** [rep.seqno = seqno; size = Tmk_interval_request(rep.data, vt) - &rep; send(...)] *)
Definition send_departure (j seqno : Z) (vt : vtime) : Proc unit :=
  s ← get;
  let data := Tmk_interval_request s vt in
  modify (fun s => set_n_bar_data (over data (n_bar_data s)) s);;
  send_rep j (Reply seqno (n_bar_repo s :: data)).

Definition Tmk_barrier_sigio_handler (r : request) : Proc unit :=
  self ← me;
  set_mask (rq_id r) (fun m => Z.lor m (bit (rq_from r)));;
  b ← barrier_at (rq_id r);
  when (negb (Z.land (b_mask b) (bit self) =? 0))
    (Tmk_interval_incorporate (rq_data r) VtNull;;
     when (bool_decide (rq_type r = REQ_ARRIVAL_REPO)) (modify (set_n_bar_repo 1))).

Definition Tmk_barrier_sigio_duplicate_handler (r : request) : Proc unit :=
  b ← barrier_at (rq_id r);
  when (Z.land (b_mask b) (bit (rq_from r)) =? 0)
    (send_departure (rq_from r) (rq_seqno r) (rq_vt r)).

Section Barrier.
Context {signals : Signals}.

(** [recv(..., (char * )&rep, sizeof(rep), 0)] *)
Definition recv_departure (r : reply) : Proc unit :=
  match rp_data r with
  | repo :: data => modify (fun s => set_n_bar_data (over data (n_bar_data s)) (set_n_bar_repo repo s))
  | [] => skip
  end.

(** An arrival received before the manager itself arrived. *)
Definition early_arrival (id j : Z) : Proc unit :=
  b ← barrier_at id;
  when (negb (Z.land (bit j) (b_mask b) =? 0))
    (r ← held_request j;
     Tmk_interval_incorporate (rq_data r) VtNull;;
     when (bool_decide (rq_type r = REQ_ARRIVAL_REPO)) (modify (set_n_bar_repo 1))).

Definition depart (j : Z) : Proc unit :=
  r ← held_request j;
  Tmk_sigio_buffer_release;;
  send_departure j (rq_seqno r) (rq_vt r).

Definition barrier_master (id : Z) (repo : bool) : Proc unit :=
  c ← config;
  modify (set_n_bar_repo (bool_to_Z repo));;
  for_each (early_arrival id) (others_of c);;
  set_mask id (fun m => Z.lor m (bit (proc_id c)));;
  spin (fun s => negb (Z.lxor (b_mask (n_barriers s !!! id)) (Tmk_spinmask (n_conf s)) =? 0));;
  set_mask id (fun _ => 0);;
  for_each depart (others_of c);;
  on_pages Tmk_page_inval_perform.

Definition barrier_slave (id manager : Z) (repo : bool) : Proc unit :=
  c ← config;
  s ← get;
  let self := proc_id c in
  let data := Tmk_interval_request_proc s self (vt_get (n_it s) manager) in
  let t := if repo then REQ_ARRIVAL_REPO else REQ_ARRIVAL in
  seqno ← next_seqno;
  r ← send_await seqno
        (vt ← gets n_vt; send_req manager (Request seqno self t id vt data))
        recv_departure;
  bump st_messages set_st_messages 1;;
  bump st_bytes set_st_bytes (reply_bytes r);;
  buf ← gets n_bar_data;
  Tmk_interval_incorporate (take (length (rp_data r) - 1) buf) VtProc.

Definition Tmk_barrier (id : Z) : Proc unit :=
  bump st_arrivals set_st_arrivals 1;;
  if id <? NBARRIERS then
    c ← config;
    Tmk_interval_create VtProc;;
    repo ← repo_test;
    b ← barrier_at id;
    (if b_manager b =? proc_id c then barrier_master id repo
     else barrier_slave id (b_manager b) repo);;
    for_each set_inverse (others_of c);;
    repo ← gets n_bar_repo;
    when (negb (repo =? 0)) Tmk_repo
  else exit_with "Tmk_barrier: id".
End Barrier.

Definition Tmk_barrier_initialize : Proc unit :=
  c ← config;
  modify (fun s => set_n_barriers (list_to_map ((fun i =>
    (i, Barrier (i `mod` nprocs c) (b_mask (n_barriers s !!! i)))) <$> seqZ 0 NBARRIERS)) s).
