(* ===== verification/Sched.v ===== *)
(** * Fork and join ([src/Tmk/src/sched.c])

    The loop scheduler for parallelised programs: slaves serve in
    [Tmk_sched_start], and the master runs a function on all processes with
    [Tmk_sched_fork] after it has collected them with [Tmk_sched_join]. *)
From S2P Require Import Prelude Pages State Rpc Twins Diffs Interval Repo Lock Barrier.
Local Open Scope Z_scope.

Definition sched_at (id : Z) : Proc barrier :=
  if (0 <=? id) && (id <? NPROCS) then gets (fun s => n_scheds s !!! id) else undef.

Definition set_sched_mask (id : Z) (f : Z -> Z) : Proc unit :=
  if (0 <=? id) && (id <? NPROCS) then
    modify (fun s => let b := n_scheds s !!! id in
      set_n_scheds (<[id := Barrier (b_manager b) (f (b_mask b))]> (n_scheds s)) s)
  else undef.

(** The reply: [repo], [func_ptr], [arg], and the intervals. *)
Definition send_work (j seqno : Z) (vt : vtime) : Proc unit :=
  s ← get;
  let data := Tmk_interval_request s vt in
  modify (fun s => set_n_sched_data (over data (n_sched_data s)) s);;
  send_rep j (Reply seqno (n_sched_repo s :: (n_sched_func s).1 :: (n_sched_func s).2 :: data)).

Definition Tmk_sched_sigio_handler (r : request) : Proc unit :=
  self ← me;
  set_sched_mask (rq_id r) (fun m => Z.lor m (bit (rq_from r)));;
  b ← sched_at (rq_id r);
  when (negb (Z.land (b_mask b) (bit self) =? 0))
    (Tmk_interval_incorporate (rq_data r) VtNull;;
     when (bool_decide (rq_type r = REQ_JOIN_REPO)) (modify (set_n_sched_repo 1))).

Definition Tmk_sched_sigio_duplicate_handler (r : request) : Proc unit :=
  b ← sched_at (rq_id r);
  when (Z.land (b_mask b) (bit (rq_from r)) =? 0)
    (send_work (rq_from r) (rq_seqno r) (rq_vt r)).

Section Sched.
Context {signals : Signals}.

(** The functions of the application, called through [func_ptr]. *)
Context (call : Z -> Z -> Proc unit).

Definition early_join (j : Z) : Proc unit :=
  self ← me;
  b ← sched_at self;
  when (negb (Z.land (bit j) (b_mask b) =? 0))
    (r ← held_request j;
     Tmk_interval_incorporate (rq_data r) VtNull;;
     when (bool_decide (rq_type r = REQ_JOIN_REPO)) (modify (set_n_sched_repo 1))).

Definition Tmk_sched_join : Proc unit :=
  c ← config;
  Tmk_interval_create VtProc;;
  repo ← repo_test;
  modify (set_n_sched_repo (bool_to_Z repo));;
  for_each early_join (others_of c);;
  set_sched_mask (proc_id c) (fun m => Z.lor m (bit (proc_id c)));;
  spin (fun s => negb (Z.lxor (b_mask (n_scheds s !!! proc_id c)) (Tmk_spinmask (n_conf s)) =? 0));;
  on_pages Tmk_page_inval_perform.

Definition recv_work (r : reply) : Proc unit :=
  match rp_data r with
  | repo :: f :: arg :: data =>
      modify (fun s => set_n_sched_data (over data (n_sched_data s))
        (set_n_sched_func (f, arg) (set_n_sched_repo repo s)))
  | _ => skip
  end.

(** One turn of the slave's [for (;;)]: the function to run. *)
Definition sched_turn (manager : Z) : Proc (Z * Z) :=
  c ← config;
  Tmk_interval_create VtProc;;
  repo ← repo_test;
  s ← get;
  let self := proc_id c in
  let data := Tmk_interval_request_proc s self (vt_get (n_it s) manager) in
  let t := if repo : bool then REQ_JOIN_REPO else REQ_JOIN in
  seqno ← next_seqno;
  r ← send_await seqno
        (vt ← gets n_vt; send_req manager (Request seqno self t manager vt data)) recv_work;
  bump st_messages set_st_messages 1;;
  bump st_bytes set_st_bytes (reply_bytes r);;
  buf ← gets n_sched_data;
  Tmk_interval_incorporate (take (length (rp_data r) - 3) buf) VtProc;;
  for_each set_inverse (others_of c);;
  repo ← gets n_sched_repo;
  when (negb (repo =? 0)) Tmk_repo;;
  gets n_sched_func.

(** [fuel] turns; a slave that is still serving then is still waiting. *)
Fixpoint sched_serve (fuel : nat) (manager : Z) : Proc Z :=
  match fuel with
  | O => block
  | S fuel' =>
      '(f, arg) ← sched_turn manager;
      if f =? 0 then mret 0 else call f arg;; sched_serve fuel' manager
  end.

Definition Tmk_sched_start (fuel : nat) (manager : Z) : Proc Z :=
  c ← config;
  if manager =? proc_id c then Tmk_sched_join;; mret 1
  else if manager <? nprocs c then sched_serve fuel manager
  else exit_with "Tmk_sched_start: manager".

Definition give_work (j : Z) : Proc unit :=
  r ← held_request j;
  Tmk_sigio_buffer_release;;
  send_work j (rq_seqno r) (rq_vt r).

(** [arg] is [None] for a null pointer, which leaves [rep.arg] as it is. *)
Definition Tmk_sched_fork (func : Z) (arg : option Z) : Proc unit :=
  c ← config;
  modify (fun s => set_n_sched_func (func, default (n_sched_func s).2 arg) s);;
  set_sched_mask (proc_id c) (fun _ => 0);;
  Tmk_interval_create VtProc;;
  for_each give_work (others_of c);;
  for_each set_inverse (others_of c);;
  repo ← gets n_sched_repo;
  when (negb (repo =? 0)) Tmk_repo;;
  when (negb (func =? 0)) (call func (default 0 arg)).

Definition Tmk_sched_exit : Proc unit := Tmk_sched_fork 0 None.
End Sched.

Definition Tmk_sched_initialize : Proc unit :=
  c ← config;
  for_each (fun i => modify (fun s =>
    set_n_scheds (<[i := Barrier (i `mod` nprocs c) (b_mask (n_scheds s !!! i))]> (n_scheds s)) s))
    (procs_of c).
