(* ===== verification/Exit.v ===== *)
(** * Distribution of private data and termination
    ([src/Tmk/src/distribute.c], [src/Tmk/src/exit.c]) *)
From S2P Require Import Prelude Pages State Rpc Lock.
Local Open Scope Z_scope.

(** ** [distribute.c]

    An object of private memory is named by its address; its bytes are the
    list stored there. *)
Definition memory_at (s : node) (ptr : Z) : list Z := default [] (n_memory s !! ptr).

Definition Tmk_distribute_sigio_handler (r : request) : Proc unit :=
  match rq_data r with
  | size :: ptr :: bytes =>
      modify (fun s => set_n_memory
        (<[ptr := over (take (Z.to_nat size) bytes) (memory_at s ptr)]> (n_memory s)) s);;
      ack r
  | _ => undef
  end.

Section Exit.
Context {signals : Signals}.

Definition distribute_to (ptr size i : Z) : Proc unit :=
  self ← me;
  seqno ← next_seqno;
  send_await seqno
    (s ← get;
     send_req i (Request seqno self REQ_DISTRIBUTE 0 []
                   (size :: ptr :: take (Z.to_nat size) (memory_at s ptr)))) discard;;
  bump st_messages set_st_messages 1;;
  bump st_bytes set_st_bytes 4.

Definition Tmk_distribute (ptr size : Z) : Proc unit :=
  c ← config;
  for_each (distribute_to ptr size) (others_of c).

(** ** [exit.c] *)
Definition stat_fields (t : Tmk_stat) : list Z :=
  [st_acquires t; st_acquire_time t; st_arrivals t; st_broadcasts t; st_signals t; st_waits t;
   st_bytes t; st_bytes_of_data t; st_cold_misses t; st_messages t; st_messages_for_acquires t;
   st_rexmits t; st_diffs t; st_twins t; st_repos t; st_total_diff_size t].

Definition stat_of (l : list Z) : Tmk_stat :=
  let f i := nth i l 0 in
  Stat (f 0%nat) (f 1%nat) (f 2%nat) (f 3%nat) (f 4%nat) (f 5%nat) (f 6%nat) (f 7%nat)
       (f 8%nat) (f 9%nat) (f 10%nat) (f 11%nat) (f 12%nat) (f 13%nat) (f 14%nat) (f 15%nat).

(** [stat->messages += stat->messages_for_acquires + stat->cold_misses]. *)
Definition count_messages (t : Tmk_stat) : Tmk_stat :=
  set_st_messages (u32 (st_messages t + (st_messages_for_acquires t + st_cold_misses t))) t.

(** The sums at the end of the loop over the other processes. *)
Definition add_stat (t x : Tmk_stat) : Tmk_stat :=
  Stat (u32 (st_acquires t + st_acquires x)) (u32 (st_acquire_time t + st_acquire_time x))
    (st_arrivals t) (st_broadcasts t) (st_signals t) (st_waits t)
    (u32 (st_bytes t + st_bytes x)) (u32 (st_bytes_of_data t + st_bytes_of_data x))
    (u32 (st_cold_misses t + st_cold_misses x)) (u32 (st_messages t + st_messages x))
    (u32 (st_messages_for_acquires t + st_messages_for_acquires x))
    (u32 (st_rexmits t + st_rexmits x)) (u32 (st_diffs t + st_diffs x))
    (u32 (st_twins t + st_twins x)) (st_repos t)
    (u32 (st_total_diff_size t + st_total_diff_size x)).

Definition collect (i : Z) : Proc unit :=
  self ← me;
  seqno ← next_seqno;
  r ← send_await seqno (send_req i (Request seqno self REQ_EXIT 0 [] [])) discard;
  stat (fun t => add_stat t (count_messages (stat_of (rp_data r)))).

(** [Tmk_exit] up to [exit(value)]. *)
Definition exit_sync : Proc unit :=
  c ← config;
  if negb (proc_id c =? 0) then
    spin (fun s => negb (n_exit_flag s));;
    s ← get;
    send_rep 0 (Reply (n_exit_seqno s) (stat_fields (n_stat s)))
  else
    stat count_messages;;
    for_each collect (seqZ 1 (nprocs c - 1)).

Definition Tmk_exit : Proc unit := exit_sync;; exit_with "exit".
End Exit.

Definition Tmk_exit_sigio_handler (r : request) : Proc unit :=
  modify (fun s => set_n_exit_seqno (rq_seqno r) (set_n_exit_flag true s)).
