(* ===== verification/Sigio.v ===== *)
(** * Dispatching requests ([src/Tmk/src/sigio.c])

    [sigio_handler] reads the requests that have arrived, tells new ones from
    retransmissions by their sequence numbers, and calls the handler of the
    request's type.  It is the [Signals] instance the operations run with. *)
From S2P Require Import Prelude Pages State Rpc Twins Diffs Interval Faults Lock Repo Barrier Sched Exit.
Local Open Scope Z_scope.

Definition Tmk_connect_sigio_handler (r : request) : Proc unit :=
  exit_with "sigio_handler: unexpected REQ_CONNECT".

(** [sigio_handlers_] *)
Definition sigio_handlers_ (t : req_type) : request -> Proc unit :=
  match t with
  | REQ_ARRIVAL | REQ_ARRIVAL_REPO => Tmk_barrier_sigio_handler
  | REQ_COND_BROADCAST => Tmk_cond_broadcast_sigio_handler
  | REQ_COND_SIGNAL => Tmk_cond_signal_sigio_handler
  | REQ_COND_WAIT => Tmk_cond_wait_sigio_handler
  | REQ_CONNECT => Tmk_connect_sigio_handler
  | REQ_DIFF => Tmk_diff_sigio_handler
  | REQ_DISTRIBUTE => Tmk_distribute_sigio_handler
  | REQ_EXIT => Tmk_exit_sigio_handler
  | REQ_JOIN | REQ_JOIN_REPO => Tmk_sched_sigio_handler
  | REQ_LOCK => Tmk_lock_sigio_handler
  | REQ_PAGE => Tmk_page_sigio_handler
  | REQ_REPO => Tmk_repo_sigio_handler
  end.

Definition Tmk_ack : request -> Proc unit := ack.

(** [sigio_duplicate_handlers_] *)
Definition sigio_duplicate_handlers_ (t : req_type) : request -> Proc unit :=
  match t with
  | REQ_ARRIVAL | REQ_ARRIVAL_REPO => Tmk_barrier_sigio_duplicate_handler
  | REQ_COND_BROADCAST | REQ_COND_SIGNAL | REQ_CONNECT | REQ_DISTRIBUTE => Tmk_ack
  | REQ_COND_WAIT => Tmk_cond_wait_sigio_duplicate_handler
  | REQ_DIFF => Tmk_diff_sigio_handler
  | REQ_EXIT => Tmk_exit_sigio_handler
  | REQ_JOIN | REQ_JOIN_REPO => Tmk_sched_sigio_duplicate_handler
  | REQ_LOCK => Tmk_lock_sigio_duplicate_handler
  | REQ_PAGE => Tmk_page_sigio_handler
  | REQ_REPO => Tmk_repo_sigio_duplicate_handler
  end.

(** [SIGIO_BUFFER_HOLD] *)
Definition sigio_buffer_hold (t : req_type) : bool :=
  match t with
  | REQ_ARRIVAL | REQ_ARRIVAL_REPO | REQ_JOIN | REQ_JOIN_REPO => true
  | _ => false
  end.

(** [recv] puts at most [MTU] bytes in the buffer at the top of the stack. *)
Definition request_bytes (r : request) : Z :=
  sizeof_req_typ + 2 * Z.of_nat (length (rq_vt r) + length (rq_data r)).

(** What is done with a request after [recv]. *)
Definition handle_request (r : request) : Proc unit :=
  last ← gets (fun s => default 0 (n_rep_seqno s !! rq_from r));
  (if last <? rq_seqno r then
     modify (fun s => set_n_rep_seqno (<[rq_from r := rq_seqno r]> (n_rep_seqno s)) s);;
     when (sigio_buffer_hold (rq_type r))
       (modify (fun s => set_n_req_from (<[rq_from r := r]> (n_req_from s)) s);;
        buffer_hold);;
     sigio_handlers_ (rq_type r) r
   else sigio_duplicate_handlers_ (rq_type r) r);;
  bump st_messages set_st_messages 1;;
  bump st_bytes set_st_bytes (request_bytes r).

(** [for (i = 0; i < Tmk_nprocs; i++)], over the descriptors in [readfds]. *)
Definition handle_from (j : Z) : Proc unit :=
  r ← dequeue j;
  match r with
  | Some r => handle_request r
  | None => skip
  end.

(** [select] on [rep_fds] with a zero timeout. *)
Definition readable (s : node) : list Z :=
  filter (fun j => default [] (n_inbox s !! j) <> []) (others_of (n_conf s)).

(** [redo:]; every turn reads at least one request. *)
Fixpoint sigio_loop (fuel : nat) : Proc unit :=
  match fuel with
  | O => undef
  | S fuel' =>
      js ← gets readable;
      match js with
      | [] => skip
      | _ => for_each handle_from js;; sigio_loop fuel'
      end
  end.

Definition inbox_size (s : node) : nat :=
  sum_list_with (fun j => length (default [] (n_inbox s !! j))) (others_of (n_conf s)).

#[export] Instance sigio : Signals :=
  n ← gets inbox_size;
  sigio_loop (S n).

(** [Tmk_sigio_initialize]: the stack of free buffers is full. *)
Definition Tmk_sigio_initialize : Proc unit := modify (set_n_tos 0).
