(* ===== verification/Malloc.v ===== *)
(** * The shared memory allocator ([src/Tmk/src/sh_malloc.c])

    Free chunks of each bucket form a list; a chunk starts with its
    scrambled bucket number.  Bucket [i] has chunks of [2 ^ k] or
    [3 * 2 ^ (k - 1)] bytes.  The data are in shared memory, under the lock
    [TABLE_LOCK]; here is the view of the process that holds the lock. *)
From S2P Require Import Prelude Pages State Rpc Lock Exit.
Local Open Scope Z_scope.

Definition TABLE_LOCK : Z := 0.
Definition BUCKET_END : Z := 59.
Definition BUCKET_BEGIN : Z := 8.

(** [((2 | (i & 1)) << (i >> 1))] in an [unsigned long]. *)
Definition BUCKET_SIZE (i : Z) : Z := u32 (Z.shiftl (Z.lor 2 (Z.land i 1)) (Z.shiftr i 1)).

Definition C_xor_index : Z := u32 (-16909321).

(** [sizeof(chain->index)], [sizeof(struct Table)]. *)
Definition sizeof_index : Z := 4.
Definition sizeof_Table : Z := 4 + 4 * BUCKET_END.

(** [while (BUCKET_SIZE(bucket) < n) bucket++;]  A shift by 32 is undefined. *)
Fixpoint find_bucket (fuel : nat) (n bucket : Z) : option Z :=
  match fuel with
  | O => None
  | S fuel' => if BUCKET_SIZE bucket <? n then find_bucket fuel' n (bucket + 1) else Some bucket
  end.

Definition bucket_for (n : Z) : option Z := find_bucket 56 n BUCKET_BEGIN.

(** ** Accesses *)
Definition nextfit (b : Z) : M heap_table Z :=
  if (0 <=? b) && (b <? BUCKET_END) then gets (fun t => default 0 (sh_nextfit t !! b)) else undef.
Definition set_nextfit (b x : Z) : M heap_table unit :=
  if (0 <=? b) && (b <? BUCKET_END)
  then modify (fun t => set_sh_nextfit (<[b := x]> (sh_nextfit t)) t) else undef.
Definition chain_of (a : Z) : M heap_table Z := gets (fun t => default 0 (sh_chain t !! a)).
Definition index_of (a : Z) : M heap_table Z := gets (fun t => default 0 (sh_index t !! a)).
Definition set_index (a x : Z) : M heap_table unit :=
  modify (fun t => set_sh_index (<[a := x]> (sh_index t)) t).
Definition set_chain (a x : Z) : M heap_table unit :=
  modify (fun t => set_sh_chain (<[a := x]> (sh_chain t)) t).

(** [chain->index = bucket ^ C_xor_index; chain->chain = table->nextfit[bucket];
    table->nextfit[bucket] = chain;] *)
Definition push_chunk (bucket chain : Z) : M heap_table unit :=
  set_index chain (Z.lxor bucket C_xor_index);;
  next ← nextfit bucket;
  set_chain chain next;;
  set_nextfit bucket chain.

(** [assert(bucket == chain->index ^ C_xor_index)]: [==] binds tighter than [^]. *)
Definition assert_index (bucket chain : Z) : M heap_table unit :=
  i ← index_of chain;
  if Z.lxor (if bucket =? i then 1 else 0) C_xor_index =? 0 then exit_with "assert" else skip.

(** ** [sh_resize] *)

(** [while (bucket > start + 1) { ... }] *)
Fixpoint split_loop (fuel : nat) (start bucket : Z) : M heap_table unit :=
  match fuel with
  | O => undef
  | S fuel' =>
      if start + 1 <? bucket then
        chain ← nextfit bucket;
        next ← chain_of chain;
        set_nextfit bucket next;;
        assert_index bucket chain;;
        if bucket - 2 =? start + 1 then
          let low := 2 * (start / 2) in
          push_chunk low chain;;
          push_chunk start (chain + BUCKET_SIZE low);;
          push_chunk start (chain + BUCKET_SIZE low + BUCKET_SIZE start);;
          split_loop fuel' start start
        else
          push_chunk (bucket - 2) chain;;
          push_chunk (bucket - 2) (chain + BUCKET_SIZE (bucket - 2));;
          split_loop fuel' start (bucket - 2)
      else skip
  end.

(** [for (bucket = start + 2; bucket < BUCKET_END; bucket++) if (...) { ...; return 1; }] *)
Fixpoint resize_from (fuel : nat) (start bucket : Z) : M heap_table bool :=
  match fuel with
  | O => mret false
  | S fuel' =>
      if bucket <? BUCKET_END then
        chain ← nextfit bucket;
        if chain =? 0 then resize_from fuel' start (bucket + 1)
        else split_loop 60 start bucket;; mret true
      else mret false
  end.

Definition sh_resize (start : Z) : M heap_table bool := resize_from 60 start (start + 2).

(** ** Allocation and release, with the lock held *)

(** A new chunk at [curbrk], or NULL when it would pass the end.  The chunk's
    index is stored first: behind the last page that is a fault which
    [segv_handler] does not resolve. *)
Definition extend (page_size limit bucket : Z) : M heap_table Z :=
  when (page_size <=? BUCKET_SIZE bucket)
    (modify (fun t => set_sh_curbrk
       (u32 (Z.ldiff (sh_curbrk t + page_size) (page_size - 1) - sizeof_index)) t));;
  modify (fun t => set_sh_curbrk (Z.lor (sh_curbrk t) sizeof_index) t);;
  chain ← gets sh_curbrk;
  (if chain <? limit then set_index chain (Z.lxor bucket C_xor_index) else undef);;
  modify (fun t => set_sh_curbrk (u32 (sh_curbrk t + BUCKET_SIZE bucket)) t);;
  brk ← gets sh_curbrk;
  if limit <? brk then modify (set_sh_curbrk chain);; mret 0 else mret chain.

(** [while ((chain = table->nextfit[bucket]) == 0) if (0 == sh_resize(bucket)) ...] *)
Fixpoint take_chunk (fuel : nat) (page_size limit bucket : Z) : M heap_table Z :=
  match fuel with
  | O => undef
  | S fuel' =>
      chain ← nextfit bucket;
      if chain =? 0 then
        b ← sh_resize bucket;
        if b : bool then take_chunk fuel' page_size limit bucket
        else extend page_size limit bucket
      else
        next ← chain_of chain;
        set_nextfit bucket next;;
        mret chain
  end.

Definition release_chunk (chain bucket : Z) : M heap_table unit :=
  next ← nextfit bucket;
  set_chain chain next;;
  set_nextfit bucket chain.

(** [Tmk_sbrk], with the lock held.  Pointers have 32 bits. *)
Definition sbrk_locked (limit size : Z) : M heap_table Z :=
  brk ← gets sh_curbrk;
  let vadr := Z.ldiff (u32 (brk + 7)) 7 in
  if limit <? u32 (vadr + size) then mret 0
  else modify (set_sh_curbrk (u32 (vadr + size)));; mret vadr.

(** ** The operations *)
Definition on_sh {A} (m : M heap_table A) : Proc A := fun s =>
  match m (n_sh s) with
  | Ok (a, t) => Ok (a, set_n_sh t s)
  | Exit w => Exit w
  | Undef => Undef
  | Block => Block
  end.

(** [page_array_[Tmk_npages].vadr] *)
Definition limit_of (c : conf) : Z := vadr0 c + npages c * page_size c.

Section Operations.
Context {signals : Signals}.

(** The address of [table] itself, for [Tmk_distribute]. *)
Context (table_ptr : Z).

Definition table_initialize : Proc unit :=
  c ← config;
  bucket ← lift_opt (bucket_for sizeof_Table);
  modify (set_n_table (vadr0 c));;
  on_sh (modify (fun t => set_sh_nextfit ∅ (set_sh_curbrk (vadr0 c + BUCKET_SIZE bucket) t)));;
  modify (fun s => set_n_memory (<[table_ptr := [n_table s]]> (n_memory s)) s);;
  Tmk_distribute table_ptr 4.

Definition ensure_table : Proc unit :=
  t ← gets n_table;
  when (t =? 0) table_initialize.

Definition Tmk_sbrk (size : Z) : Proc Z :=
  let size := Z.ldiff (u32 (size + 7)) 7 in
  Tmk_lock_acquire TABLE_LOCK;;
  ensure_table;;
  c ← config;
  vadr ← on_sh (sbrk_locked (limit_of c) size);
  Tmk_lock_release TABLE_LOCK;;
  mret vadr.

(** The result is [&chain->chain], or 0. *)
Definition Tmk_malloc (size : Z) : Proc Z :=
  bucket ← lift_opt (bucket_for (u32 (size + sizeof_index)));
  Tmk_lock_acquire TABLE_LOCK;;
  ensure_table;;
  c ← config;
  chain ← on_sh (take_chunk 2 (page_size c) (limit_of c) bucket);
  Tmk_lock_release TABLE_LOCK;;
  if chain =? 0 then mret 0
  else on_sh (assert_index bucket chain);; mret (chain + sizeof_index).

Definition Tmk_free (ptr : Z) : Proc unit :=
  if ptr =? 0 then skip
  else
    let chain := u32 (ptr - sizeof_index) in
    i ← on_sh (index_of chain);
    let bucket := Z.lxor i C_xor_index in
    if bucket <? BUCKET_END then
      Tmk_lock_acquire TABLE_LOCK;;
      ensure_table;;
      on_sh (release_chunk chain bucket);;
      Tmk_lock_release TABLE_LOCK
    else skip.
End Operations.
