(* ===== verification/Mmap.v ===== *)
(** * Mapping files into shared memory ([src/Tmk/src/mmap.c]) *)
From S2P Require Import Prelude Pages State Rpc Twins Diffs Faults Lock Malloc.
Local Open Scope Z_scope.

Definition MAP_FAILED : Z := u32 (-1).
Definition MAP_FIXED : Z := 16.
Definition PROT_WRITE_BIT : Z := 2.
Definition EINVAL : Z := 22.
Definition ENOMEM : Z := 12.

Definition PAGE_ALIGNED (c : conf) (addr : Z) : bool := Z.land addr (page_size c - 1) =? 0.

(** [_addr + _len] wraps around. *)
Definition RANGE_WITHIN_BOUNDS (c : conf) (addr len : Z) : bool :=
  (vadr0 c <=? addr) && (addr <? u32 (addr + len)) && (u32 (addr + len) <=? limit_of c).

Definition vadr (c : conf) (i : page_t) : Z := vadr0 c + i * page_size c.

(** The pages from the one [addr] is in, while [page->vadr < addr + len]. *)
Definition pages_of_range (c : conf) (addr len : Z) : list page_t :=
  let i := Z.shiftr (u32 (addr - vadr0 c)) (Z.log2 (page_size c)) in
  seqZ i ((addr + len - vadr c i + page_size c - 1) / page_size c).

Definition set_errno (e : Z) : Proc unit := modify (set_n_errno e).

Section Mmap.
Context {signals : Signals}.
Context (table_ptr : Z).

(** The system calls: [munmap addr len] and [mmap addr len prot flags] give
    0 or an error number, and [file] is what a mapped page then holds. *)
Context (munmap : Z -> Z -> Z) (mmap : Z -> Z -> Z -> Z -> Z) (file : page_t -> list Z).

(** The cases fall through: [empty], [invalid], [valid]. *)
Definition fetch_and_twin (page : page_t) (st : page_state) : Proc unit :=
  when (bool_decide (st = empty)) (Tmk_page_request page);;
  when (bool_decide (st = empty \/ st = invalid))
    (set_pg page (set_state valid);; Tmk_diff_request page);;
  twin_and_link page.

Definition mmap_page (page : page_t) : Proc unit :=
  st ← pg p_state page;
  twin ← pg p_twin page;
  if decide (st = private) then skip
  else match twin with
  | None => mprotect page PROT_READ_WRITE;; fetch_and_twin page st
  | Some _ => if decide (st = valid) then skip else exit_with "assert"
  end.

Definition do_mmap (addr len prot flags : Z) : Proc Z :=
  c ← config;
  for_each mmap_page (pages_of_range c addr len);;
  set_errno 0;;
  let e := munmap addr len in
  if negb (e =? 0) then set_errno e;; mret MAP_FAILED
  else
    let e := mmap addr len prot (Z.lor flags MAP_FIXED) in
    if negb (e =? 0) then set_errno e;; mret MAP_FAILED
    else
      for_each (fun i => set_pg i (set_mem (file i))) (pages_of_range c addr len);;
      mret addr.

Definition Tmk_mmap (addr len prot flags : Z) : Proc Z :=
  c ← config;
  if negb (Z.land flags MAP_FIXED =? 0) then
    if PAGE_ALIGNED c addr && RANGE_WITHIN_BOUNDS c addr len
    then do_mmap addr len prot flags
    else set_errno EINVAL;; mret MAP_FAILED
  else
    addr ← Tmk_malloc table_ptr (Z.ldiff (u32 (len + (page_size c - 1))) (page_size c - 1));
    if negb (addr =? 0) then do_mmap addr len prot flags
    else set_errno ENOMEM;; mret MAP_FAILED.

(** [cur_addr = addr; cur_addr < addr + len; cur_addr += Tmk_page_size] and
    the read that touches the page: a fault when it is protected. *)
Definition touch (page : page_t) : Proc unit :=
  c ← config;
  pr ← pg p_prot page;
  match pr with
  | PROT_NONE => segv_handler (page * page_size c) false;; skip
  | _ => skip
  end.

Context (msync : Z -> Z -> Z -> Z).

Definition Tmk_msync (addr len flags : Z) : Proc Z :=
  c ← config;
  if PAGE_ALIGNED c addr && RANGE_WITHIN_BOUNDS c addr len then
    for_each touch (pages_of_range c addr len);;
    let e := msync addr len flags in
    if negb (e =? 0) then set_errno e;; mret (-1) else mret 0
  else set_errno EINVAL;; mret (-1).
End Mmap.
