(* ===== verification/Startup.v ===== *)
(** * Startup ([src/Tmk/src/startup.c], [open_udp.c], [timeout.c])

    The command line, the number of processes, the initialisation of every
    component, and the handshake that connects each pair of processes and
    starts the sequence numbers. *)
From S2P Require Import Prelude Pages State Rpc Diffs Interval Faults Lock Repo Barrier Sched Exit Sigio.
Local Open Scope Z_scope.

(** ** Options *)

(** What [getopt] returns, for the options that have an effect on the state;
    the argument is what [atoi] or [atol] makes of it. *)
Inductive option_t : Type :=
  | Opt_f (file : string) | Opt_h (host : string) | Opt_i (n : Z) | Opt_m (addr : Z)
  | Opt_n (n : Z) | Opt_P (n : Z) | Opt_p (port : Z) | Opt_r | Opt_S | Opt_s | Opt_t | Opt_v
  | Opt_X (n : Z) | Opt_unknown | Opt_obsolete.

Record options : Type := Options {
  o_file : option string;
  o_hosts : list string;         (** [Tmk_hostlist[0 .. i - 1]] *)
  o_proc_id : Z;
  o_vadr0 : Z;
  o_nprocs : Z;
  o_npages : Z;
  o_ports : list Z;              (** [Tmk_port_[0 .. j - 1][Tmk_proc_id]] *)
  o_netrc : bool;
  o_stat : Z;
  o_debug : bool;
  o_to_valid : bool;
  o_page_shift : Z
}.

(** One turn of the [getopt] loop.  [Tmk_nprocs], [Tmk_npages] and
    [page_shift] are unsigned. *)
Definition parse_option (o : options) (a : option_t) : res options :=
  let 'Options f hs i m n P ps r s t v X := o in
  match a with
  | Opt_f x => Ok (Options (Some x) hs i m n P ps r s t v X)
  | Opt_h x =>
      if Z.of_nat (length hs) <? NPROCS then Ok (Options f (hs ++ [x]) i m n P ps r s t v X) else Undef
  | Opt_i x => Ok (Options f hs (u32 x) m n P ps r s t v X)
  | Opt_m x => Ok (Options f hs i (u32 x) n P ps r s t v X)
  | Opt_n x =>
      if NPROCS <? u32 x then Exit "exceeds the process limit"
      else if u32 x =? 0 then Exit "invalid argument for -n"
      else Ok (Options f hs i m (u32 x) P ps r s t v X)
  | Opt_P x =>
      if NPAGES <? u32 x then Exit "exceeds the page limit"
      else Ok (Options f hs i m n (u32 x) ps r s t v X)
  | Opt_p x =>
      if Z.of_nat (length ps) <? NPROCS then Ok (Options f hs i m n P (ps ++ [x]) r s t v X) else Undef
  | Opt_r => Ok (Options f hs i m n P ps true s t v X)
  | Opt_S => Ok (Options f hs i m n P ps r 2 t v X)
  | Opt_s => Ok (Options f hs i m n P ps r 1 t v X)
  | Opt_t => Ok (Options f hs i m n P ps r s true v X)
  | Opt_v => Ok (Options f hs i m n P ps r s t true X)
  | Opt_X x =>
      if 3 <? u32 x then Exit "exceeds the maximum page size"
      else Ok (Options f hs i m n P ps r s t v (u32 x))
  | Opt_unknown => Exit "usage"
  | Opt_obsolete => Ok o
  end.

Fixpoint parse_options (o : options) (args : list option_t) : res options :=
  match args with
  | [] => Ok o
  | a :: args' => match parse_option o a with
                  | Ok o' => parse_options o' args'
                  | Exit w => Exit w
                  | Undef => Undef
                  | Block => Block
                  end
  end.

(** ** The host list

    [file] is the list of words in the host file; [fscanf] reads at most
    [Tmk_nprocs] of them, or one more than the limit. *)
Definition read_hosts (nprocs_ : Z) (file : list string) : list string :=
  take (Z.to_nat (if 0 <? nprocs_ then nprocs_ else NPROCS + 1)) file.

(** The number of hosts found and the number of processes. *)
Definition count_hosts (i nprocs_ : Z) : res (Z * Z) :=
  if NPROCS <? i then Exit "exceeds the process limit"
  else if i <? nprocs_ then Exit "contains less hosts"
  else if nprocs_ =? 0 then Ok (i, i)
  else if nprocs_ <? i then Ok (nprocs_, nprocs_)
  else Ok (i, nprocs_).

Definition hosts (o : options) (open_file : option string -> option (list string))
    : res (list string * Z) :=
  let found :=
    match o_hosts o with
    | [] => match open_file (o_file o) with
            | Some words => Ok (read_hosts (o_nprocs o) words)
            | None => Exit "fopen"
            end
    | hs => match o_file o with
            | Some _ => Exit "the -f and -h options are incompatible"
            | None => Ok hs
            end
    end in
  match found with
  | Ok hs => match count_hosts (Z.of_nat (length hs)) (o_nprocs o) with
             | Ok (i, n) => Ok (take (Z.to_nat i) hs, n)
             | Exit w => Exit w
             | Undef => Undef
             | Block => Block
             end
  | Exit w => Exit w
  | Undef => Undef
  | Block => Block
  end.

(** A licence that is not valid now reduces the run to one process. *)
Definition licensed_nprocs (past future now n : Z) : Z :=
  if (now <? past) || (future <=? now) then 1 else n.

(** ** Initialisation *)
Definition initialize_all (to_valid : bool) : Proc unit :=
  Tmk_page_initialize to_valid;;
  Tmk_interval_initialize;;
  Tmk_diff_initialize;;
  Tmk_barrier_initialize;;
  Tmk_lock_initialize;;
  Tmk_sched_initialize;;
  Tmk_sigio_initialize.

(** ** Connecting *)

(** [req_typ.from = req_seqno = Tmk_proc_id] *)
Definition Tmk_connect_initialize : Proc unit :=
  self ← me;
  modify (set_n_req_seqno self).

(** [Tmk_port_[Tmk_proc_id][i]] is the port [fd_create] bound. *)
Definition Tmk_accept_initialize (bound i : Z) : Proc unit :=
  self ← me;
  modify (fun s => let row := default (replicate (Z.to_nat NPROCS) 0) (n_ports s !! self) in
    set_n_ports (<[self := <[Z.to_nat i := bound]> row]> (n_ports s)) s).

Definition send_connect (i seqno : Z) : Proc unit :=
  self ← me;
  ports ← gets (fun s => default [] (n_ports s !! self));
  send_req i (Request seqno self REQ_CONNECT 0 [] ports).

Section Connect.
Context {signals : Signals}.

Definition Tmk_connect (i : Z) : Proc unit :=
  seqno ← next_seqno;
  send_await seqno (send_connect i seqno) discard;;
  skip.

(** [retry: recvmsg(fd, &rep_hdr, 0)] on a socket of its own: only an
    interruption is retried. *)
Fixpoint accept_recv (evs : list event) (i : Z) : Proc request :=
  match evs with
  | [] => block
  | ev :: evs' =>
      set_events evs';;
      match ev with
      | EvReq j r => if j =? i then mret r else deliver [(j, r)];; accept_recv evs' i
      | EvAlarm | EvIntr => accept_recv evs' i
      | EvRep _ _ => accept_recv evs' i
      | EvFail => exit_with "recvmsg"
      end
  end.

Definition Tmk_accept (i : Z) : Proc unit :=
  evs ← gets n_events;
  r ← accept_recv evs i;
  modify (fun s => set_n_ports (<[i := rq_data r]> (n_ports s)) s);;
  modify (fun s => set_n_rep_seqno (<[i := rq_seqno r]> (n_rep_seqno s)) s);;
  send_rep i (Reply (rq_seqno r) []).

(** [start_process] has no effect on this state. *)
Definition connect_all : Proc unit :=
  c ← config;
  for_each (fun i => Tmk_connect i;; Tmk_accept i) (seqZ 0 (proc_id c));;
  for_each (fun i => Tmk_accept i;; Tmk_connect i)
    (seqZ (proc_id c + 1) (nprocs c - proc_id c - 1)).

(** [Tmk_startup], once the configuration is known; [bound] gives the ports
    of the sockets. *)
Definition Tmk_startup (to_valid : bool) (bound : Z -> Z) : Proc unit :=
  initialize_all to_valid;;
  c ← config;
  for_each (fun i => Tmk_accept_initialize (bound i) i) (others_of c);;
  Tmk_connect_initialize;;
  connect_all.
End Connect.
