(* ===== verification/Uber.v ===== *)
(** * The ride services over RPC ([src/Practica02], [src/Practica02_2])

    Two servers that assign vehicles to passengers; the procedures are called
    one at a time by the stubs that rpcgen generates.  Module [Estructura] is
    [Practica02/estructura_server.c], Module [Servidor] is
    [Practica02_2/UBER_Servidor.c].

    Distances are computed in [double]s.  For coordinates that differ by at
    most [ALCANCE] the square root of the sum of squares orders the distances
    as the sums themselves are ordered, and truncating it gives the integer
    square root; larger differences are outside the model ([Undef]).  What
    [rand] returns is an argument: a value that is not negative for each use,
    in each turn of the loop that initialises the vehicles. *)
From S2P Require Import Prelude.
Local Open Scope Z_scope.

Definition ALCANCE : Z := 2 ^ 25.

(** A position, and the square of the distance between two. *)
Record Posicion : Type := Pos { pos_x : Z; pos_y : Z }.
Definition alcance (p q : Posicion) : bool :=
  (Z.abs (pos_x p - pos_x q) <=? ALCANCE) && (Z.abs (pos_y p - pos_y q) <=? ALCANCE).
Definition cuadrado (p q : Posicion) : Z := (pos_x p - pos_x q) ^ 2 + (pos_y p - pos_y q) ^ 2.

Definition distancia {S} (p q : Posicion) : M S Z := if alcance p q then mret (cuadrado p q) else undef.

(** [int] arithmetic: an overflow is undefined. *)
Definition int {S} (z : Z) : M S Z := if (-2147483648 <=? z) && (z <? 2147483648) then mret z else undef.

(** ['A' + n] *)
Definition letra (n : Z) : Z := 65 + n.

Module Estructura.
(** ** [Practica02/estructura_server.c] *)
Definition N : nat := 5.

Inductive tipo_t : Type := UberPlanet | UberXL | UberBlack | SinTipo.

Record vehiculo : Type := Vehiculo {
  disponible : bool;
  placa : list Z;               (** the characters before the terminator *)
  tipo : tipo_t;                (** [SinTipo] is the empty string *)
  posicion : Posicion
}.
Definition set_disponible (b : bool) (v : vehiculo) : vehiculo := Vehiculo b (placa v) (tipo v) (posicion v).

Record servidor : Type := Estado {
  vehiculos : list vehiculo;
  ganancias : Z;
  viajes : Z;
  vehiculos_inicializados : bool
}.
Definition set_vehiculos (l : list vehiculo) (s : servidor) : servidor :=
  Estado l (ganancias s) (viajes s) (vehiculos_inicializados s).

(** Static storage. *)
Definition inicio : servidor := Estado (replicate N (Vehiculo false [] SinTipo (Pos 0 0))) 0 0 false.

Record InfoAuto : Type := Info {
  ia_pos : Posicion;
  ia_tipo : tipo_t;
  ia_tarifa : Z;
  ia_placa : list Z
}.

(** What [rand] gives for one vehicle: number, letters, type and position. *)
Record azar : Type := Azar { az_num : Z; az_a : Z; az_b : Z; az_c : Z; az_tipo : Z; az_x : Z; az_y : Z }.

(** ["%03d%c%c%c"], for a number below 1000. *)
Definition hacer_placa (z : azar) : list Z :=
  let n := az_num z `mod` 1000 in
  [48 + n / 100; 48 + n / 10 `mod` 10; 48 + n `mod` 10;
   letra (az_a z `mod` 26); letra (az_b z `mod` 26); letra (az_c z `mod` 26)].

Definition tipos (n : Z) : tipo_t := if n =? 0 then UberPlanet else if n =? 1 then UberXL else UberBlack.

Definition inicializar_vehiculos (az : nat -> azar) : list vehiculo :=
  map (fun i => let z := az i in
         Vehiculo true (hacer_placa z) (tipos (az_tipo z `mod` 3)) (Pos (az_x z `mod` 100) (az_y z `mod` 100)))
    (seq 0 N).

Definition asegurar_inicio (az : nat -> azar) : M servidor unit :=
  s ← get;
  when (negb (vehiculos_inicializados s))
    (modify (fun s => Estado (inicializar_vehiculos az) (ganancias s) (viajes s) true)).

(** [vehiculos_disponibles_indices] *)
Definition indices_disponibles (l : list vehiculo) : list nat :=
  filter (fun i => disponible <$> l !! i = Some true) (seq 0 (length l)).

(** The loop over the indices: [None] is [DBL_MAX]. *)
Fixpoint mas_cercano (l : list vehiculo) (p : Posicion) (indices : list nat) (minima : option Z) (mejor : nat)
    : M servidor nat :=
  match indices with
  | [] => mret mejor
  | i :: indices' =>
      v ← lift_opt (l !! i);
      d ← distancia (posicion v) p;
      if (match minima with None => true | Some m => d <? m end)
      then mas_cercano l p indices' (Some d) i
      else mas_cercano l p indices' minima mejor
  end.

(** Without a type the member keeps what [malloc] left there. *)
Definition tarifa_de (t : tipo_t) : option Z :=
  match t with UberPlanet => Some 10 | UberXL => Some 15 | UberBlack => Some 25 | SinTipo => None end.

Definition solicitarviaje_1_svc (az : nat -> azar) (p : Posicion) : M servidor (option InfoAuto) :=
  asegurar_inicio az;;
  l ← gets vehiculos;
  match indices_disponibles l with
  | [] => mret None
  | indices =>
      i ← mas_cercano l p indices None O;
      v ← lift_opt (l !! i);
      t ← lift_opt (tarifa_de (tipo v));
      modify (set_vehiculos (alter (set_disponible false) i l));;
      mret (Some (Info (posicion v) (tipo v) t (placa v)))
  end.

Record TerminarViajeArgs : Type := TerminarArgs { ta_pos : Posicion; ta_costo : Z; ta_placa : list Z }.

(** [for (...) if (strcmp(...) == 0)]: the first vehicle with the plate. *)
Fixpoint buscar (pl : list Z) (i : nat) (l : list vehiculo) : option (nat * vehiculo) :=
  match l with
  | [] => None
  | v :: l' => if decide (placa v = pl) then Some (i, v) else buscar pl (S i) l'
  end.

(** [int costo_viaje = distancia_del_viaje * arg1.costo_viaje;] truncates;
    the result is exact while the square is below [2 ^ 50]. *)
Definition costo (d2 tarifa : Z) : M servidor Z :=
  let z := d2 * tarifa ^ 2 in
  if z <? 2 ^ 50 then mret (Z.sgn tarifa * Z.sqrt z) else undef.

(** The result says whether the pointer is not NULL. *)
Definition terminarviaje_1_svc (a : TerminarViajeArgs) : M servidor bool :=
  s ← get;
  match buscar (ta_placa a) 0 (vehiculos s) with
  | None => mret false
  | Some (i, v) =>
      d ← distancia (ta_pos a) (posicion v);
      c ← costo d (ta_costo a);
      g ← int (ganancias s + c);
      n ← int (viajes s + 1);
      modify (fun s => Estado (alter (fun v => Vehiculo true (placa v) (tipo v) (ta_pos a)) i (vehiculos s))
                         g n (vehiculos_inicializados s));;
      mret true
  end.

Record InfoServicio : Type := Servicio { is_ganancias : Z; is_viajes : Z; is_disponibles : Z }.

Definition estadoservicio_1_svc (az : nat -> azar) : M servidor InfoServicio :=
  asegurar_inicio az;;
  s ← get;
  mret (Servicio (ganancias s) (viajes s)
          (Z.of_nat (length (filter (fun v => disponible v = true) (vehiculos s))))).
End Estructura.

Module Servidor.
(** ** [Practica02_2/UBER_Servidor.c] *)
Definition NUM_AUTOS : nat := 8.
Definition UBER_PLANET : Z := 1.
Definition UBER_BLACK : Z := 3.
Definition UberPlanet : Z := 10.
Definition UberXL : Z := 15.
Definition UberBlack : Z := 25.

Record InfoAuto : Type := Auto {
  disponible : Z;
  posicion : Posicion;
  tipoUber : Z;
  tarifa : Z;
  placa : option (list Z)       (** [None] is the null pointer *)
}.

Record servidor : Type := Estado {
  autos : list InfoAuto;
  viajesRealizados : Z;
  ganancia_total : Z;
  isFirstTime : bool;
  autoDisponible : InfoAuto
}.

Definition auto_cero : InfoAuto := Auto 0 (Pos 0 0) 0 0 None.
Definition inicio : servidor := Estado (replicate NUM_AUTOS auto_cero) 0 0 true auto_cero.

Record azar : Type := Azar { az_x : Z; az_y : Z; az_tipo : Z; az_num : Z; az_a : Z; az_b : Z; az_c : Z }.

(** ["%d"] for a number that is not negative and below 1000. *)
Definition digitos (n : Z) : list Z :=
  (if 100 <=? n then [48 + n / 100] else []) ++ (if 10 <=? n then [48 + n / 10 `mod` 10] else []) ++ [48 + n `mod` 10].

(** [sprintf (plate, "%d%d%c%c%c", ...)] with [char plate[7]]: six characters
    and the terminator fit. *)
Definition plate (i : Z) (z : azar) : M servidor (list Z) :=
  let s := digitos i ++ digitos (az_num z `mod` 1000) ++
           [letra (az_a z `mod` 26); letra (az_b z `mod` 26); letra (az_c z `mod` 26)] in
  if 7 <=? Z.of_nat (length s) then undef else mret s.

(** [n] turns from [i] on. *)
Fixpoint inicializarAutos (n i : nat) (az : nat -> azar) : M servidor (list InfoAuto) :=
  match n with
  | O => mret []
  | S n' =>
      let z := az i in
      p ← plate (Z.of_nat i) z;
      l ← inicializarAutos n' (S i) az;
      mret (Auto 1 (Pos (az_x z `mod` 51) (az_y z `mod` 51)) (UBER_PLANET + az_tipo z `mod` UBER_BLACK) 0 (Some p) :: l)
  end.

(** Outside the three cases the function ends without a value. *)
Definition calcularTarifa (tipoUBER kilometro : Z) : M servidor Z :=
  if tipoUBER =? 1 then int (UberPlanet * kilometro)
  else if tipoUBER =? 2 then int (UberXL * kilometro)
  else if tipoUBER =? 3 then int (UberBlack * kilometro)
  else undef.

(** The loop: [distancia < distanciaMinima] compares with [INFINITY] for the
    first free vehicle, and then [break]s. *)
Fixpoint buscar_auto (i : nat) (l : list InfoAuto) (p : Posicion) : M servidor (option nat) :=
  match l with
  | [] => mret None
  | a :: l' =>
      if disponible a =? 1 then distancia (posicion a) p;; mret (Some i)
      else buscar_auto (S i) l' p
  end.

Definition set_disponible (d : Z) (a : InfoAuto) : InfoAuto :=
  Auto d (posicion a) (tipoUber a) (tarifa a) (placa a).
Definition set_tarifa (t : Z) (a : InfoAuto) : InfoAuto :=
  Auto (disponible a) (posicion a) (tipoUber a) t (placa a).

(** The result is [autoDisponible]. *)
Definition solicitarviaje_1_svc (az : nat -> azar) (p : Posicion) : M servidor InfoAuto :=
  s ← get;
  when (isFirstTime s)
    (l ← inicializarAutos NUM_AUTOS 0 az;
     modify (fun s => Estado l (viajesRealizados s) (ganancia_total s) false (autoDisponible s)));;
  l ← gets autos;
  o ← buscar_auto 0 l p;
  (match o with
   | Some i =>
       a ← lift_opt (l !! i);
       d ← distancia (posicion a) p;
       t ← calcularTarifa (tipoUber a) (Z.sqrt d);
       v ← gets viajesRealizados;
       v' ← int (v + 1);
       let a' := set_tarifa t a in
       modify (fun s => Estado (<[i := set_disponible 0 a']> l) v' (ganancia_total s) (isFirstTime s) a')
   | None =>
       modify (fun s => Estado (autos s) (viajesRealizados s) (ganancia_total s) (isFirstTime s)
                          (set_disponible 0 (autoDisponible s)))
   end);;
  gets autoDisponible.

Record ViajeInfo : Type := Viaje { vi_pos : Posicion; vi_costo : Z; vi_placa : list Z }.

(** [strcmp] of a null pointer faults. *)
Fixpoint buscar_placa (pl : list Z) (i : nat) (l : list InfoAuto) : M servidor (option nat) :=
  match l with
  | [] => mret None
  | a :: l' =>
      x ← lift_opt (placa a);
      if decide (x = pl) then mret (Some i) else buscar_placa pl (S i) l'
  end.

Definition terminarviaje_1_svc (v : ViajeInfo) : M servidor unit :=
  l ← gets autos;
  o ← buscar_placa (vi_placa v) 0 l;
  match o with
  | None => skip
  | Some i =>
      g ← gets ganancia_total;
      g' ← int (g + vi_costo v);
      modify (fun s => Estado (alter (fun a => Auto 1 (vi_pos v) (tipoUber a) (tarifa a) (placa a)) i (autos s))
                         (viajesRealizados s) g' (isFirstTime s) (autoDisponible s))
  end.

Record InfoServicio : Type := Servicio { numViajes : Z; numAutosLibres : Z; gananciaTotal : Z }.

Definition estadoservicio_1_svc : M servidor InfoServicio :=
  s ← get;
  mret (Servicio (viajesRealizados s) (Z.of_nat (length (filter (fun a => disponible a = 1) (autos s))))
          (ganancia_total s)).
End Servidor.

(** ** Examples *)
Definition azar_ex (i : nat) : Estructura.azar :=
  let k := Z.of_nat i in Estructura.Azar (100 + k) 0 1 k k (10 * k) 0.
Definition azar_cero (i : nat) : Servidor.azar := Servidor.Azar 0 0 0 0 0 0 0.
Definition flota_ex : Estructura.servidor :=
  Estructura.Estado (Estructura.inicializar_vehiculos azar_ex) 0 0 true.

Example solicitar_ex :
  match Estructura.solicitarviaje_1_svc azar_ex (Pos 22 3) flota_ex with
  | Ok (Some a, s) => (Estructura.ia_pos a, Estructura.ia_tarifa a,
                       Estructura.disponible <$> Estructura.vehiculos s) = (Pos 20 0, 25, [true; true; false; true; true])
  | _ => False
  end.
Proof. reflexivity. Qed.

Example placa_larga : returns (Servidor.plate 0 (Servidor.Azar 0 0 0 100 0 0 0) Servidor.inicio) = false.
Proof. reflexivity. Qed.

(** ** Assigning the nearest vehicle *)
Module Viajes.
Import Estructura.

Abbreviation libre l := (fun i : nat => disponible <$> l !! i = Some true).

Lemma indices_sorted (l : list vehiculo) n : forall a,
  Forall (fun j => (a <= j)%nat) (filter (libre l) (seq a n)) /\
  forall i j k m, filter (libre l) (seq a n) = i ++ j :: k -> m ∈ k -> (j < m)%nat.
Proof.
  induction n as [|n IH]; intros a; cbn [seq]; [split; [constructor|]; intros [|] ? ? ? ?; discriminate|].
  destruct (IH (S a)) as [F S]. rewrite filter_cons. case_decide as Hl.
  - split; [constructor; [lia|]; eapply Forall_impl; [exact F|]; cbn; lia|].
    intros [|x i] j k m E Hm; injection E as <- E; [|by eapply S].
    subst k. rewrite Forall_forall in F. pose proof (F m Hm). lia.
  - split; [eapply Forall_impl; [exact F|]; cbn; lia|exact S].
Qed.

(** [i] is the first of the nearest among [ix]. *)
Definition nearest (l : list vehiculo) (p : Posicion) (ix : list nat) (i : nat) : Prop :=
  i ∈ ix /\ forall v j w, l !! i = Some v -> j ∈ ix -> l !! j = Some w ->
    cuadrado (posicion v) p <= cuadrado (posicion w) p /\
    (cuadrado (posicion v) p = cuadrado (posicion w) p -> (i <= j)%nat).

Definition alcanzables (l : list vehiculo) (p : Posicion) : Prop :=
  forall v, v ∈ l -> alcance (posicion v) p = true.

Lemma mas_cercano_from (l : list vehiculo) p : alcanzables l p -> forall ix mejor v s,
  l !! mejor = Some v -> (forall j, j ∈ ix -> is_Some (l !! j)) ->
  (forall i j k m, mejor :: ix = i ++ j :: k -> m ∈ k -> (j < m)%nat) ->
  exists i, mas_cercano l p ix (Some (cuadrado (posicion v) p)) mejor s = Ok (i, s) /\ nearest l p (mejor :: ix) i.
Proof.
  intros Ha. induction ix as [|j ix IH]; intros mejor v s Hv Hix Hs; cbn [mas_cercano].
  - exists mejor. split; [done|]. split; [by left|]. intros v' j w Hv' Hj Hw.
    apply list_elem_of_singleton in Hj as ->. rewrite Hv' in Hw. injection Hw as ->. lia.
  - destruct (Hix j ltac:(by left)) as [w Hw]. rewrite Hw.
    assert (Hd : distancia (posicion w) p s = Ok (cuadrado (posicion w) p, s)).
    { unfold distancia. rewrite (Ha w) by (by eapply list_elem_of_lookup_2). done. }
    rewrite (bind_Ok (lift_opt (Some w)) _ s w s eq_refl), (bind_Ok _ _ _ _ _ Hd).
    assert (Hjm : (mejor < j)%nat) by (apply (Hs [] mejor (j :: ix)); [done|by left]).
    destruct (Z.ltb_spec (cuadrado (posicion w) p) (cuadrado (posicion v) p)) as [Hlt|Hge].
    + destruct (IH j w s Hw) as (i & R & Hi & Hn).
      { intros m Hm. apply Hix. by right. }
      { intros i j' k m E. apply (Hs (mejor :: i) j' k m). cbn. by rewrite E. }
      exists i. split; [exact R|]. split; [by right|]. intros v' m x Hv' Hm Hx.
      apply elem_of_cons in Hm as [->|Hm]; [|by apply Hn].
      rewrite Hv in Hx. injection Hx as <-. destruct (Hn v' j w Hv' ltac:(by left) Hw). lia.
    + destruct (IH mejor v s Hv) as (i & R & Hi & Hn).
      { intros m Hm. apply Hix. by right. }
      { intros [|x i] j' k m E Hm.
        - injection E as <- <-. apply (Hs [] mejor (j :: ix)); [done|by right].
        - injection E as <- E. apply (Hs (mejor :: j :: i) j' k m); [cbn; by rewrite E|done]. }
      exists i. split; [exact R|]. apply elem_of_cons in Hi as Hi'. split; [rewrite !elem_of_cons; tauto|].
      intros v' m x Hv' Hm Hx. apply elem_of_cons in Hm as [->|Hm]; [apply (Hn v' mejor x); [done|by left|done]|].
      apply elem_of_cons in Hm as [->|Hm]; [|apply (Hn v' m x); [done|by right|done]].
      rewrite Hw in Hx. injection Hx as <-. destruct (Hn v' mejor v Hv' ltac:(by left) Hv) as [H1 H2]. split; [lia|].
      intros E. assert (i <= mejor)%nat by (apply H2; lia). lia.
Qed.

Lemma elige_el_mas_cercano (l : list vehiculo) p i0 ix s : alcanzables l p -> indices_disponibles l = i0 :: ix ->
  exists i, mas_cercano l p (i0 :: ix) None O s = Ok (i, s) /\ nearest l p (i0 :: ix) i.
Proof.
  intros Ha E. assert (Hin : forall j, j ∈ i0 :: ix -> is_Some (l !! j)).
  { intros j Hj. rewrite <- E in Hj. apply list_elem_of_filter in Hj as [Hj _]. destruct (l !! j); [by eexists|done]. }
  destruct (Hin i0 ltac:(by left)) as [v Hv]. cbn [mas_cercano]. rewrite Hv.
  assert (Hd : distancia (posicion v) p s = Ok (cuadrado (posicion v) p, s)).
  { unfold distancia. rewrite (Ha v) by (by eapply list_elem_of_lookup_2). done. }
  rewrite (bind_Ok (lift_opt (Some v)) _ s v s eq_refl), (bind_Ok _ _ _ _ _ Hd).
  apply mas_cercano_from; [done|done| |].
  - intros j Hj. apply Hin. by right.
  - intros i j k m E' Hm. destruct (indices_sorted l (length l) 0) as [_ S]. apply (S i j k m); [|done].
    rewrite <- E'. exact E.
Qed.

Lemma list_alter_insert {A} (f : A -> A) i (l : list A) x : l !! i = Some x -> alter f i l = <[i := f x]> l.
Proof.
  revert i. induction l as [|y l IH]; intros [|i] H; [done..| |]; cbn in *; [by injection H as ->|].
  f_equal. by apply IH.
Qed.

(** Every vehicle has a type, as [inicializar_vehiculos] gives it. *)
Definition con_tipo (l : list vehiculo) : Prop := forall v, v ∈ l -> tipo v <> SinTipo.

Lemma sin_libres (l : list vehiculo) : indices_disponibles l = [] -> forall v, v ∈ l -> disponible v = false.
Proof.
  intros E v Hv. apply list_elem_of_lookup in Hv as (i & Hi). destruct (disponible v) eqn:Ed; [|done].
  assert (Hin : i ∈ indices_disponibles l); [|rewrite E in Hin; by apply elem_of_nil in Hin].
  apply list_elem_of_filter. rewrite Hi. cbn. rewrite Ed. split; [done|].
  apply elem_of_seq. apply lookup_lt_Some in Hi. lia.
Qed.

Lemma asegurado az s : vehiculos_inicializados s = true -> asegurar_inicio az s = Ok (tt, s).
Proof. intros H. unfold asegurar_inicio. rewrite (bind_Ok get _ s s s eq_refl), H. done. Qed.

(** What [solicitarviaje_1_svc] does when there is a free vehicle. *)
Record asignado (p : Posicion) (s : servidor) (i : nat) (v : vehiculo) (a : InfoAuto) (s' : servidor) : Prop := {
  as_vehiculo : vehiculos s !! i = Some v /\ disponible v = true;
  as_info : exists t, tarifa_de (tipo v) = Some t /\ a = Info (posicion v) (tipo v) t (placa v);
  as_cercano : forall j w, vehiculos s !! j = Some w -> disponible w = true ->
    cuadrado (posicion v) p <= cuadrado (posicion w) p /\
    (cuadrado (posicion v) p = cuadrado (posicion w) p -> (i <= j)%nat);
  as_estado : s' = set_vehiculos (<[i := set_disponible false v]> (vehiculos s)) s
}.

Lemma solicitar_run az p s : vehiculos_inicializados s = true -> alcanzables (vehiculos s) p ->
  con_tipo (vehiculos s) ->
  (solicitarviaje_1_svc az p s = Ok (None, s) /\ forall v, v ∈ vehiculos s -> disponible v = false) \/
  exists i v a s', solicitarviaje_1_svc az p s = Ok (Some a, s') /\ asignado p s i v a s'.
Proof.
  intros Hi Ha Ht. unfold solicitarviaje_1_svc. rewrite (bind_Ok _ _ _ _ _ (asegurado az s Hi)).
  rewrite (bind_Ok (gets vehiculos) _ s (vehiculos s) s eq_refl). set (l := vehiculos s) in *.
  destruct (indices_disponibles l) as [|i0 ix] eqn:E; [left; split; [done|by apply sin_libres]|right].
  destruct (elige_el_mas_cercano l p i0 ix s Ha E) as (i & R & Hix & Hn).
  rewrite <- E in Hix, Hn. apply list_elem_of_filter in Hix as [Hd _].
  destruct (l !! i) as [v|] eqn:Ev; [|done]. injection Hd as Hd.
  assert (Hv : v ∈ l) by (by eapply list_elem_of_lookup_2).
  destruct (tarifa_de (tipo v)) as [t|] eqn:Et; [|by destruct (tipo v) eqn:E'; [..|by apply (Ht v) in E']].
  exists i, v, (Info (posicion v) (tipo v) t (placa v)), (set_vehiculos (<[i := set_disponible false v]> l) s).
  rewrite (bind_Ok _ _ _ _ _ R), Ev, (bind_Ok (lift_opt (Some v)) _ s v s eq_refl), Et.
  split; [|split; [done|by exists t| |done]].
  - change (Ok (Some (Info (posicion v) (tipo v) t (placa v)), set_vehiculos (alter (set_disponible false) i l) s) =
      Ok (Some (Info (posicion v) (tipo v) t (placa v)), set_vehiculos (<[i := set_disponible false v]> l) s)).
    f_equal. f_equal. f_equal. by apply list_alter_insert.
  - intros j w Hw Hdw. fold l in Hw. apply Hn; [done| |done]. apply list_elem_of_filter. rewrite Hw. cbn. rewrite Hdw.
    split; [done|]. apply elem_of_seq. apply lookup_lt_Some in Hw. lia.
Qed.

(** C36: [solicitarviaje_1_svc] gives the passenger the nearest free vehicle,
    the first of them if several are equally near, with its tariff, and marks
    only that one as taken; it answers NULL and changes nothing exactly when
    none is free. *)
Theorem asigna_el_mas_cercano az p s : vehiculos_inicializados s = true ->
  alcanzables (vehiculos s) p -> con_tipo (vehiculos s) ->
  (solicitarviaje_1_svc az p s = Ok (None, s) /\ forall v, v ∈ vehiculos s -> disponible v = false) \/
  exists i v t, solicitarviaje_1_svc az p s = Ok (Some (Info (posicion v) (tipo v) t (placa v)),
      set_vehiculos (<[i := set_disponible false v]> (vehiculos s)) s) /\
    vehiculos s !! i = Some v /\ disponible v = true /\ tarifa_de (tipo v) = Some t /\
    forall j w, vehiculos s !! j = Some w -> disponible w = true ->
      cuadrado (posicion v) p <= cuadrado (posicion w) p /\
      (cuadrado (posicion v) p = cuadrado (posicion w) p -> (i <= j)%nat).
Proof.
  intros Hi Ha Ht. destruct (solicitar_run az p s Hi Ha Ht) as [H|(i & v & a & s' & R & [[H1 H2] (t & Et & ->) Hn ->])];
    [by left|right]. exists i, v, t. split_and!; done.
Qed.

Lemma buscar_first pl (l : list vehiculo) : forall k i v, l !! i = Some v -> placa v = pl ->
  (forall j w, l !! j = Some w -> placa w = pl -> j = i) -> buscar pl k l = Some ((k + i)%nat, v).
Proof.
  induction l as [|w l IH]; intros k [|i] v Hv Hp Hu; [done..| |]; cbn [buscar].
  - injection Hv as ->. rewrite decide_True by done. by rewrite Nat.add_0_r.
  - rewrite decide_False; [|intros Hw; by specialize (Hu O w eq_refl Hw)].
    rewrite (IH (S k) i v Hv Hp); [f_equal; f_equal; lia|].
    intros j x Hx Hpx. by injection (Hu (S j) x Hx Hpx).
Qed.

(** A trip from the request to its end: with plates that are all
    different, the vehicle that was assigned is found by its plate and is free
    again, at the place where the trip ended; the earnings grow by the length
    of the trip times the tariff, truncated, the trips by one, and all other
    vehicles are as they were before the request. *)
Theorem viaje_completo az p q s a s1 : vehiculos_inicializados s = true ->
  alcanzables (vehiculos s) p -> alcanzables (vehiculos s) q -> con_tipo (vehiculos s) ->
  NoDup (placa <$> vehiculos s) -> solicitarviaje_1_svc az p s = Ok (Some a, s1) ->
  let ganado := Z.sqrt (cuadrado q (ia_pos a) * ia_tarifa a ^ 2) in
  cuadrado q (ia_pos a) * ia_tarifa a ^ 2 < 2 ^ 50 ->
  0 <= ganancias s < 2 ^ 31 - 2 ^ 25 -> 0 <= viajes s < 2 ^ 31 - 1 ->
  exists i v, vehiculos s !! i = Some v /\ disponible v = true /\ posicion v = ia_pos a /\
    terminarviaje_1_svc (TerminarArgs q (ia_tarifa a) (ia_placa a)) s1 =
      Ok (true, Estado (<[i := Vehiculo true (placa v) (tipo v) q]> (vehiculos s))
                  (ganancias s + ganado) (viajes s + 1) true).
Proof.
  intros Hi Ha Hq Ht Hnd R ganado Hc Hg Hn.
  destruct (solicitar_run az p s Hi Ha Ht) as [[R' _]|(i & v & a' & s' & R' & [[H1 H2] (t & Et & ->) _ ->])];
    rewrite R in R'; [done|]. injection R' as -> ->. cbn [ia_pos ia_tarifa ia_placa] in *.
  exists i, v. split_and!; [done..|]. unfold terminarviaje_1_svc. cbn [ta_placa ta_pos ta_costo].
  set (s1 := set_vehiculos _ s). rewrite (bind_Ok get _ s1 s1 s1 eq_refl).
  assert (Hlt : (i < length (vehiculos s))%nat) by (by eapply lookup_lt_Some).
  assert (Hu : forall j w, vehiculos s1 !! j = Some w -> placa w = placa v -> j = i).
  { intros j w Hw Hp. destruct (decide (j = i)) as [|Hne]; [done|]. cbn in Hw. rewrite list_lookup_insert_ne in Hw by done.
    apply (NoDup_lookup (placa <$> vehiculos s) j i (placa v)); [done|..]; rewrite list_lookup_fmap;
      [by rewrite Hw; cbn; rewrite Hp|by rewrite H1]. }
  assert (Hv1 : vehiculos s1 !! i = Some (set_disponible false v)) by (cbn; by apply list_lookup_insert_eq).
  rewrite (buscar_first (placa v) (vehiculos s1) 0 i (set_disponible false v) Hv1 eq_refl Hu).
  change (0 + i)%nat with i. cbn [posicion set_disponible].
  assert (Hal : alcance q (posicion v) = true).
  { pose proof (Hq v ltac:(by eapply list_elem_of_lookup_2)) as Hal. unfold alcance in *. lia. }
  assert (Hd : distancia q (posicion v) s1 = Ok (cuadrado q (posicion v), s1)) by (unfold distancia; by rewrite Hal).
  rewrite (bind_Ok _ _ _ _ _ Hd).
  assert (Htp : 0 < t) by (destruct (tipo v); cbn in Et; congruence || (injection Et as <-; lia)).
  assert (Hcost : costo (cuadrado q (posicion v)) t s1 = Ok (ganado, s1)).
  { unfold costo. cbv zeta. rewrite (proj2 (Z.ltb_lt _ _) Hc), Z.sgn_pos, Z.mul_1_l by done. done. }
  rewrite (bind_Ok _ _ _ _ _ Hcost).
  assert (Hr : 0 <= ganado < 2 ^ 25).
  { unfold ganado. assert (0 <= cuadrado q (posicion v)) by (unfold cuadrado; nia). split; [apply Z.sqrt_nonneg|].
    apply Z.sqrt_lt_square; [nia|lia|]. change (2 ^ 25 * 2 ^ 25) with (2 ^ 50). lia. }
  assert (Hint : forall z, 0 <= z < 2 ^ 31 -> @int servidor z s1 = Ok (z, s1)).
  { intros z Hz. unfold int. assert ((-2147483648 <=? z) && (z <? 2147483648) = true) as -> by lia. done. }
  rewrite (bind_Ok _ _ _ _ _ (Hint (ganancias s + ganado) ltac:(lia))), (bind_Ok _ _ _ _ _ (Hint (viajes s + 1) ltac:(lia))).
  match goal with |- ?X = _ => change X with (Ok (true, Estado (alter (fun v0 => Vehiculo true (placa v0) (tipo v0) q) i (vehiculos s1))
    (ganancias s + ganado) (viajes s + 1) (vehiculos_inicializados s))) end.
  do 2 f_equal. rewrite Hi. f_equal. cbn. rewrite (list_alter_insert _ _ _ (set_disponible false v)) by done. cbn.
  by rewrite list_insert_insert_eq.
Qed.

Lemma flota_ex_alcanzables p : forallb (fun v => alcance (posicion v) p) (vehiculos flota_ex) = true ->
  alcanzables (vehiculos flota_ex) p.
Proof. intros H v Hv. rewrite forallb_forall in H. apply H. by apply list_elem_of_In. Qed.

Lemma flota_ex_tipos : con_tipo (vehiculos flota_ex).
Proof.
  intros v Hv. assert (H : forallb (fun v => match tipo v with SinTipo => false | _ => true end) (vehiculos flota_ex) = true)
    by (vm_compute; reflexivity).
  rewrite forallb_forall in H. apply list_elem_of_In in Hv. apply H in Hv. intros E. by rewrite E in Hv.
Qed.

Lemma asigna_el_mas_cercano_witness :
  exists i v t, solicitarviaje_1_svc azar_ex (Pos 22 3) flota_ex = Ok (Some (Info (posicion v) (tipo v) t (placa v)),
      set_vehiculos (<[i := set_disponible false v]> (vehiculos flota_ex)) flota_ex) /\
    disponible v = true /\ forall j w, vehiculos flota_ex !! j = Some w -> disponible w = true ->
      cuadrado (posicion v) (Pos 22 3) <= cuadrado (posicion w) (Pos 22 3).
Proof.
  destruct (asigna_el_mas_cercano azar_ex (Pos 22 3) flota_ex) as [[R _]|(i & v & t & R & _ & Hd & _ & Hn)].
  - reflexivity.
  - apply flota_ex_alcanzables. vm_compute. reflexivity.
  - exact flota_ex_tipos.
  - exfalso. assert (E : returns (solicitarviaje_1_svc azar_ex (Pos 22 3) flota_ex) = true) by (vm_compute; reflexivity).
    assert (F : match solicitarviaje_1_svc azar_ex (Pos 22 3) flota_ex with Ok (Some _, _) => True | _ => False end)
      by (vm_compute; exact I). rewrite R in F. exact F.
  - exists i, v, t. split; [exact R|]. split; [exact Hd|]. intros j w Hw Hdw. exact (proj1 (Hn j w Hw Hdw)).
Defined.

(** The trip of the example, from (20, 0) to (23, 4): five units at 25. *)
Lemma viaje_completo_witness :
  exists s1, solicitarviaje_1_svc azar_ex (Pos 22 3) flota_ex = Ok (Some (Info (Pos 20 0) UberBlack 25 [49; 48; 50; 65; 66; 67]), s1) /\
  exists i v, vehiculos flota_ex !! i = Some v /\ disponible v = true /\ posicion v = Pos 20 0 /\
    terminarviaje_1_svc (TerminarArgs (Pos 23 4) 25 [49; 48; 50; 65; 66; 67]) s1 =
      Ok (true, Estado (<[i := Vehiculo true (placa v) (tipo v) (Pos 23 4)]> (vehiculos flota_ex)) (0 + 125) 1 true).
Proof.
  eexists. split; [vm_compute; reflexivity|].
  apply (viaje_completo azar_ex (Pos 22 3) (Pos 23 4) flota_ex (Info (Pos 20 0) UberBlack 25 [49; 48; 50; 65; 66; 67])).
  - reflexivity.
  - apply flota_ex_alcanzables. vm_compute. reflexivity.
  - apply flota_ex_alcanzables. vm_compute. reflexivity.
  - exact flota_ex_tipos.
  - apply (bool_decide_unpack _). vm_compute. exact I.
  - vm_compute. reflexivity.
  - vm_compute. reflexivity.
  - split; vm_compute; (reflexivity || discriminate).
  - split; vm_compute; (reflexivity || discriminate).
Defined.
End Viajes.

(** ** The second server *)
Module Primero.
Import Servidor.

Lemma buscar_auto_first pre a post p s : Forall (fun x => disponible x <> 1) pre -> disponible a = 1 ->
  alcance (posicion a) p = true -> forall k,
  buscar_auto k (pre ++ a :: post) p s = Ok (Some (k + length pre)%nat, s).
Proof.
  intros Hf Ha Hp. assert (Hd : @distancia servidor (posicion a) p s = Ok (cuadrado (posicion a) p, s))
    by (unfold distancia; by rewrite Hp).
  induction Hf as [|x pre Hx Hf IH]; intros k; cbn [app buscar_auto].
  - rewrite Ha. cbn [Z.eqb Pos.eqb]. rewrite (bind_Ok _ _ _ _ _ Hd). cbn. by rewrite Nat.add_0_r.
  - rewrite (proj2 (Z.eqb_neq _ _) Hx), IH. do 3 f_equal. cbn. lia.
Qed.

Lemma tarifa_run a d s : 1 <= tipoUber a <= 3 -> 0 <= d < 2 ^ 52 ->
  calcularTarifa (tipoUber a) (Z.sqrt d) s =
    Ok ((if tipoUber a =? 1 then 10 else if tipoUber a =? 2 then 15 else 25) * Z.sqrt d, s).
Proof.
  intros Ht Hd. assert (Hr : 0 <= Z.sqrt d < 2 ^ 26).
  { split; [apply Z.sqrt_nonneg|]. apply Z.sqrt_lt_square; [lia|lia|]. change (2 ^ 26 * 2 ^ 26) with (2 ^ 52). lia. }
  assert (Hint : forall z, 0 <= z < 2 ^ 31 -> @int servidor z s = Ok (z, s)).
  { intros z Hz. unfold int. assert ((-2147483648 <=? z) && (z <? 2147483648) = true) as -> by lia. done. }
  unfold calcularTarifa, UberPlanet, UberXL, UberBlack.
  assert (Hc : tipoUber a = 1 \/ tipoUber a = 2 \/ tipoUber a = 3) by lia.
  destruct Hc as [-> | [-> | ->]]; cbn [Z.eqb Pos.eqb]; apply Hint; lia.
Qed.

(** The second server gives the passenger the first free vehicle in the
    table, however far away it is and wherever the other free ones are: the
    loop that computes the distances ends at the first.  The tariff is the
    one of the vehicle's type times the whole kilometres to the passenger;
    only that vehicle is marked as taken, and the trip is counted. *)
Theorem toma_el_primero az p s pre a post : isFirstTime s = false ->
  autos s = pre ++ a :: post -> Forall (fun x => disponible x <> 1) pre -> disponible a = 1 ->
  1 <= tipoUber a <= 3 -> alcance (posicion a) p = true -> 0 <= viajesRealizados s < 2 ^ 31 - 1 ->
  let km := Z.sqrt (cuadrado (posicion a) p) in
  let a' := set_tarifa ((if tipoUber a =? 1 then 10 else if tipoUber a =? 2 then 15 else 25) * km) a in
  solicitarviaje_1_svc az p s =
    Ok (a', Estado (pre ++ set_disponible 0 a' :: post) (viajesRealizados s + 1) (ganancia_total s) false a').
Proof.
  intros Hi El Hf Ha Ht Hp Hn km a'. unfold solicitarviaje_1_svc.
  rewrite (bind_Ok get _ s s s eq_refl), Hi, (bind_Ok (when false _) _ s tt s eq_refl).
  rewrite (bind_Ok (gets autos) _ s (autos s) s eq_refl), El.
  rewrite (bind_Ok _ _ _ _ _ (buscar_auto_first pre a post p s Hf Ha Hp 0)). change (0 + length pre)%nat with (length pre).
  rewrite lookup_app_r, Nat.sub_diag by lia. cbn [lookup list_lookup].
  assert (Hd : @distancia servidor (posicion a) p s = Ok (cuadrado (posicion a) p, s)) by (unfold distancia; by rewrite Hp).
  assert (Hc : 0 <= cuadrado (posicion a) p < 2 ^ 52).
  { unfold alcance, ALCANCE, cuadrado in *. apply andb_prop in Hp as [H1 H2].
    assert (Hx : -33554432 <= pos_x (posicion a) - pos_x p <= 33554432) by lia.
    assert (Hy : -33554432 <= pos_y (posicion a) - pos_y p <= 33554432) by lia. nia. }
  assert (Hv : @int servidor (viajesRealizados s + 1) s = Ok (viajesRealizados s + 1, s)).
  { unfold int. assert ((-2147483648 <=? viajesRealizados s + 1) && (viajesRealizados s + 1 <? 2147483648) = true) as -> by lia. done. }
  set (s' := Estado (pre ++ set_disponible 0 a' :: post) (viajesRealizados s + 1) (ganancia_total s) false a').
  match goal with |- (?m ≫= ?k) s = _ => assert (R : m s = Ok (tt, s')) end.
  { rewrite (bind_Ok (lift_opt (Some a)) _ s a s eq_refl), (bind_Ok _ _ _ _ _ Hd).
    rewrite (bind_Ok _ _ _ _ _ (tarifa_run a _ s Ht Hc)).
    rewrite (bind_Ok (gets viajesRealizados) _ s (viajesRealizados s) s eq_refl), (bind_Ok _ _ _ _ _ Hv).
    subst s'. cbv zeta. unfold modify. rewrite Hi, insert_app_r_alt by lia. by rewrite Nat.sub_diag. }
  by rewrite (bind_Ok _ _ _ _ _ R).
Qed.

(** A free vehicle stands where the passenger is; the one ten away is sent. *)
Definition dos_autos : servidor :=
  Estado [Auto 1 (Pos 6 8) 1 0 (Some [48]); Auto 1 (Pos 0 0) 1 0 (Some [49])] 0 0 false auto_cero.

Lemma toma_el_primero_witness :
  solicitarviaje_1_svc azar_cero (Pos 0 0) dos_autos =
    Ok (Auto 1 (Pos 6 8) 1 100 (Some [48]),
        Estado [Auto 0 (Pos 6 8) 1 100 (Some [48]); Auto 1 (Pos 0 0) 1 0 (Some [49])] 1 0 false
          (Auto 1 (Pos 6 8) 1 100 (Some [48]))).
Proof.
  apply (toma_el_primero azar_cero (Pos 0 0) dos_autos [] (Auto 1 (Pos 6 8) 1 0 (Some [48])) [Auto 1 (Pos 0 0) 1 0 (Some [49])]).
  - reflexivity.
  - reflexivity.
  - constructor.
  - reflexivity.
  - split; vm_compute; discriminate.
  - reflexivity.
  - split; vm_compute; (reflexivity || discriminate).
Defined.
End Primero.
