(* ===== verification/Chars.v ===== *)
(** * Characters and decimal numbers

    What the parsers use of the C library: the classes of characters, the
    conversion of a number to decimal ([sprintf] with [%d]) and back ([strtol],
    as in [atoi] and the conversion [%d] of [sscanf]).  A character is its
    code; a string in memory ends at the first 0. *)
From Stdlib Require Import Ascii String.
From S2P Require Import Prelude.
Local Open Scope list_scope.
Local Open Scope Z_scope.

Abbreviation text := (list Z).

(** The codes of a string constant. *)
Definition codes (s : string) : text := (fun c => Z.of_N (N_of_ascii c)) <$> list_ascii_of_string s.

Definition is_digit (c : Z) : bool := (48 <=? c) && (c <=? 57).
(** [isspace] *)
Definition is_space (c : Z) : bool := (c =? 32) || ((9 <=? c) && (c <=? 13)).

(** The characters up to the first one for which [P] fails, and the rest. *)
Fixpoint span (P : Z -> bool) (s : text) : text * text :=
  match s with
  | [] => ([], [])
  | c :: s' => if P c then let '(a, b) := span P s' in (c :: a, b) else ([], s)
  end.

Definition skip_while (P : Z -> bool) (s : text) : text := (span P s).2.

(** A string in memory. *)
Definition c_string (s : text) : text := (span (fun c => negb (c =? 0)) s).1.

(** ** Decimal numbers *)
Fixpoint dec_digits (fuel : nat) (n : Z) (acc : text) : text :=
  match fuel with
  | O => acc
  | S fuel' => let acc' := 48 + n `mod` 10 :: acc in if n <? 10 then acc' else dec_digits fuel' (n `div` 10) acc'
  end.

Definition dec (n : Z) : text :=
  if n <? 0 then 45 :: dec_digits (S (Z.to_nat (Z.log2 (- n)))) (- n) [] else dec_digits (S (Z.to_nat (Z.log2 n))) n [].

Definition digits_value (acc : Z) (s : text) : Z := foldl (fun v c => 10 * v + (c - 48)) acc s.

(** White space, a sign, and at least one digit; the number and what follows. *)
Definition scan_int (s : text) : option (Z * text) :=
  let s := skip_while is_space s in
  let '(sign, s) := match s with 45 :: s' => (-1, s') | 43 :: s' => (1, s') | _ => (1, s) end in
  let '(ds, rest) := span is_digit s in
  match ds with [] => None | _ => Some (sign * digits_value 0 ds, rest) end.

Definition INT_MIN : Z := -2147483648.
Definition LONG_MAX : Z := 2147483647.

(** [(int) strtol(s, NULL, 10)], with a [long] of 32 bits. *)
Definition atoi (s : text) : Z :=
  match scan_int (c_string s) with Some (n, _) => Z.max INT_MIN (Z.min n LONG_MAX) | None => 0 end.

(** ** Lemmas *)
Lemma span_app P a b : (forall c, c ∈ a -> P c = true) -> (forall c b', b = c :: b' -> P c = false) -> span P (a ++ b) = (a, b).
Proof.
  intros Ha Hb. induction a as [|c a IH]; cbn.
  - destruct b as [|c b]; [done|]. cbn. by rewrite (Hb c b).
  - rewrite (Ha c) by left. rewrite IH; [done|]. intros c' Hc'. apply Ha. by right.
Qed.

Lemma span_all P a : (forall c, c ∈ a -> P c = true) -> span P a = (a, []).
Proof. intros Ha. rewrite <- (app_nil_r a) at 1. by apply span_app. Qed.

Lemma skip_app P a b : (forall c, c ∈ a -> P c = true) -> (forall c b', b = c :: b' -> P c = false) -> skip_while P (a ++ b) = b.
Proof. intros. unfold skip_while. by rewrite span_app. Qed.

Lemma digits_value_app acc s s' : digits_value acc (s ++ s') = digits_value (digits_value acc s) s'.
Proof. apply foldl_app. Qed.

Lemma dec_digits_spec fuel : forall n acc, 0 <= n < 10 ^ Z.of_nat fuel -> (0 < fuel)%nat ->
  exists ds, dec_digits fuel n acc = ds ++ acc /\ ds <> [] /\ (forall c, c ∈ ds -> is_digit c = true) /\
    forall v, digits_value v ds = v * 10 ^ Z.of_nat (List.length ds) + n.
Proof.
  induction fuel as [|fuel IH]; intros n acc Hn Hf; [lia|]. cbn [dec_digits].
  pose proof (Z.mod_pos_bound n 10 ltac:(lia)) as Hm.
  assert (Hd : is_digit (48 + n `mod` 10) = true) by (unfold is_digit; lia).
  destruct (Z.ltb_spec n 10) as [Hlt|Hge].
  - exists [48 + n `mod` 10]. rewrite Z.mod_small in * by lia. split_and!; [done..|by intros c ->%list_elem_of_singleton|].
    intros v. cbn. lia.
  - rewrite Nat2Z.inj_succ, Z.pow_succ_r in Hn by lia. assert (Hq : 0 <= n `div` 10 < 10 ^ Z.of_nat fuel).
    { split; [apply Z.div_pos; lia|apply Z.div_lt_upper_bound; lia]. }
    destruct fuel as [|fuel]; [cbn in Hq; lia|].
    destruct (IH (n `div` 10) (48 + n `mod` 10 :: acc) Hq ltac:(lia)) as (ds & E & Hne & Hds & Hv).
    exists (ds ++ [48 + n `mod` 10]). rewrite E, <- app_assoc. split_and!; [done|by destruct ds| |].
    + intros c [Hc| ->%list_elem_of_singleton]%elem_of_app; auto.
    + intros v. rewrite digits_value_app, Hv, List.length_app. unfold digits_value. cbn [foldl List.length].
      rewrite Nat2Z.inj_add, Z.pow_add_r by lia. change (10 ^ Z.of_nat 1) with 10.
      pose proof (Z.div_mod n 10 ltac:(lia)). lia.
Qed.

Lemma dec_fuel n : 0 <= n -> n < 10 ^ Z.of_nat (S (Z.to_nat (Z.log2 n))).
Proof.
  intros Hn. rewrite Nat2Z.inj_succ, Z2Nat.id by apply Z.log2_nonneg. destruct (Z.eq_dec n 0) as [->|Hne]; [done|].
  pose proof (Z.log2_spec n ltac:(lia)) as [_ H]. eapply Z.lt_le_trans; [exact H|].
  apply Z.pow_le_mono_l. lia.
Qed.

(** The digits of a number that is not negative. *)
Lemma dec_spec n : 0 <= n -> dec n <> [] /\ (forall c, c ∈ dec n -> is_digit c = true) /\ digits_value 0 (dec n) = n.
Proof.
  intros Hn. unfold dec. destruct (Z.ltb_spec n 0); [lia|].
  destruct (dec_digits_spec (S (Z.to_nat (Z.log2 n))) n [] (conj Hn (dec_fuel n Hn)) ltac:(lia)) as (ds & -> & Hne & Hds & Hv).
  rewrite app_nil_r. split_and!; [done..|]. by rewrite Hv.
Qed.

Lemma digit_not_space c : is_digit c = true -> is_space c = false.
Proof. unfold is_digit, is_space. lia. Qed.

Definition not_digit_first (s : text) : Prop := forall c s', s = c :: s' -> is_digit c = false.

(** Reading back a number after white space. *)
Lemma scan_dec blanks n rest : 0 <= n -> (forall c, c ∈ blanks -> is_space c = true) -> not_digit_first rest ->
  scan_int (blanks ++ dec n ++ rest) = Some (n, rest).
Proof.
  intros Hn Hb Hr. destruct (dec_spec n Hn) as (Hne & Hds & Hv). unfold scan_int.
  destruct (dec n) as [|c ds] eqn:E; [done|]. assert (Hc : is_digit c = true) by (apply Hds; left).
  rewrite skip_app; [|done|].
  - cbn [app]. assert (Hm : match c :: ds ++ rest with 45 :: s' => (-1, s') | 43 :: s' => (1, s') | _ => (1, c :: ds ++ rest) end = (1, c :: ds ++ rest)).
    { unfold is_digit in Hc. assert (c <> 45 /\ c <> 43) as [H1 H2] by lia. clear -H1 H2.
      repeat (match goal with |- context [match ?x with _ => _ end] => is_var x; destruct x end; try done). }
    rewrite Hm. change (c :: ds ++ rest) with ((c :: ds) ++ rest). rewrite span_app by done. rewrite Hv. by rewrite Z.mul_1_l.
  - intros c' b' [= <- _]. by apply digit_not_space.
Qed.

Lemma scan_dec_first n rest : 0 <= n -> not_digit_first rest -> scan_int (dec n ++ rest) = Some (n, rest).
Proof. intros Hn Hr. apply (scan_dec []); [done|by intros ? ?%elem_of_nil|done]. Qed.

Lemma c_string_app a b : (forall c, c ∈ a -> c <> 0) -> c_string (a ++ 0 :: b) = a.
Proof.
  intros Ha. unfold c_string. rewrite span_app; [done| |by intros c b' [= <- _]].
  intros c Hc. specialize (Ha c Hc). by rewrite (proj2 (Z.eqb_neq c 0)).
Qed.

Lemma space_or_digit_not_0 c : is_space c = true \/ is_digit c = true -> c <> 0.
Proof. unfold is_space, is_digit. lia. Qed.

(** [atoi] of a string that starts with a number. *)
Lemma atoi_dec_rest blanks n a b : 0 <= n <= LONG_MAX -> (forall c, c ∈ blanks -> is_space c = true) ->
  (forall c, c ∈ a -> c <> 0) -> not_digit_first a -> atoi (blanks ++ dec n ++ a ++ 0 :: b) = n.
Proof.
  intros Hn Hb Ha Hf. destruct (dec_spec n ltac:(lia)) as (_ & Hds & _). unfold atoi.
  replace (blanks ++ dec n ++ a ++ 0 :: b) with ((blanks ++ dec n ++ a) ++ 0 :: b) by (by rewrite <- !app_assoc).
  rewrite c_string_app; [rewrite scan_dec by (lia || done); unfold INT_MIN; lia|].
  intros c [Hc|[Hc|Hc]%elem_of_app]%elem_of_app; [apply space_or_digit_not_0..|]; auto.
Qed.

Lemma atoi_dec blanks n b : 0 <= n <= LONG_MAX -> (forall c, c ∈ blanks -> is_space c = true) ->
  atoi (blanks ++ dec n ++ 0 :: b) = n.
Proof. intros Hn Hb. apply (atoi_dec_rest blanks n [] b Hn Hb); [by intros ? ?%elem_of_nil|by intros c s' E]. Qed.

(** ** Input *)

(** [fgets] into [size] characters: up to and with the next newline, but at
    most [size - 1] characters; [None] at the end of the input. *)
Fixpoint fgets (size : nat) (input : text) {struct input} : text * text :=
  match input with
  | [] => ([], [])
  | c :: input' =>
      if (size <=? 1)%nat then ([], input)
      else if c =? 10 then ([c], input')
      else let '(l, rest) := fgets (size - 1) input' in (c :: l, rest)
  end.

Lemma fgets_line size l rest : (S (S (List.length l)) <= size)%nat -> 10 ∉ l -> fgets size (l ++ 10 :: rest) = (l ++ [10], rest).
Proof.
  revert size. induction l as [|c l IH]; intros size Hs Hl; cbn [List.length] in Hs; cbn [fgets app];
    rewrite (proj2 (Nat.leb_gt size 1)) by lia; [done|].
  rewrite (proj2 (Z.eqb_neq c 10)) by (intros ->; apply Hl; left). rewrite IH; [done|lia|]. intros H. apply Hl. by right.
Qed.

(** The directive [%s] with a maximal width: white space is skipped, and at
    least one other character is needed. *)
Definition scan_word (width : nat) (s : text) : option (text * text) :=
  let s := skip_while is_space s in
  let w := take width (span (fun c => negb (is_space c)) s).1 in
  match w with [] => None | _ => Some (w, drop (List.length w) s) end.

Lemma scan_word_app width w rest : w <> [] -> (List.length w <= width)%nat -> (forall c, c ∈ w -> is_space c = false) ->
  (forall c s', rest = c :: s' -> is_space c = true) -> scan_word width (w ++ rest) = Some (w, rest).
Proof.
  intros Hne Hw Hsp Hr. unfold scan_word. destruct w as [|c w]; [done|].
  rewrite (skip_app _ [] ((c :: w) ++ rest)); [|by intros ? ?%elem_of_nil|intros c' s' [= <- _]; apply Hsp; left].
  rewrite span_app; [|intros c' Hc'; by rewrite Hsp|intros c' s' E; by rewrite (Hr _ _ E)].
  cbn [fst]. rewrite take_ge by done. by rewrite drop_app_length.
Qed.

(** What matches the literal part of a format; a blank in it stands for any
    white space. *)
Fixpoint match_format (f s : text) : option text :=
  match f with
  | [] => Some s
  | c :: f' =>
      if is_space c then match_format f' (skip_while is_space s)
      else match s with c' :: s' => if c =? c' then match_format f' s' else None | [] => None end
  end.

Lemma match_format_text f g s : (forall c, c ∈ f -> is_space c = false) -> match_format (f ++ g) (f ++ s) = match_format g s.
Proof.
  intros Hf. induction f as [|c f IH]; [done|]. cbn [app match_format]. rewrite (Hf c), Z.eqb_refl by left.
  apply IH. intros c' Hc'. apply Hf. by right.
Qed.

Lemma match_format_blank g s : (forall c s', s = c :: s' -> is_space c = false) -> match_format (32 :: g) (32 :: s) = match_format g s.
Proof.
  intros Hs. cbn [match_format]. change (is_space 32) with true. cbv iota.
  change (32 :: s) with ([32] ++ s). by rewrite skip_app by (done || by intros c ->%list_elem_of_singleton).
Qed.

(** A word as it stands in a format. *)
Lemma word_no_space w : forallb (fun c => negb (is_space c)) w = true -> forall c, c ∈ w -> is_space c = false.
Proof.
  intros Hw c Hc. apply forallb_forall with (x := c) in Hw; [by apply negb_true_iff in Hw|]. by apply list_elem_of_In.
Qed.
