(* ===== verification/Registro.v ===== *)
(** * Registration over a socket ([src/Practica01/clienteTCPCodificar.c], [servidorTCPDecodificar.c])

    The client reads a name, the key of a course and a group, and sends them
    separated by [#]; the server takes the request apart, appends the student
    to an array, and answers with the number of requests, which the client
    reads back.  [servidorPrueba.c] has the same loop. *)
From Stdlib Require Import Sorted.
From S2P Require Import Prelude Chars.
Local Open Scope list_scope.
Local Open Scope Z_scope.

Definition HASH : Z := 35.

(** ** The client *)

(** [while (getchar() != '\n');], which does not end at the end of the input. *)
Fixpoint limpia (input : text) : option text :=
  match input with [] => None | c :: input' => if c =? 10 then Some input' else limpia input' end.

(** [name], [claveUEA] and [grupo], as they are read from the terminal.  What
    is not read at the end of the input stays without a value. *)
Definition lee_nombre : M text text :=
  input ← get;
  let '(l, rest) := fgets 100 input in
  match l with
  | [] => undef
  | _ => modify (fun _ => rest);; mret (c_string (span (fun c => negb (c =? 10)) l).1)
  end.

Definition lee_palabra (width : nat) : M text text :=
  input ← get;
  match scan_word width input with
  | None => undef
  | Some (w, rest) =>
      match limpia rest with None => block | Some rest' => modify (fun _ => rest');; mret (c_string w) end
  end.

(** The request: [sprintf(request, "%s#%s#%s", name, claveUEA, grupo)]. *)
Definition codifica (name claveUEA grupo : text) : text := name ++ HASH :: claveUEA ++ HASH :: grupo.

Definition peticion : M text text :=
  name ← lee_nombre;
  claveUEA ← lee_palabra 7;
  grupo ← lee_palabra 5;
  mret (codifica name claveUEA grupo).

(** The two numbers of the answer. *)
Definition lee_respuesta (datos_recibidos : text) : option (Z * Z) :=
  let s := c_string datos_recibidos in
  match match_format (codes "Cupo total: ") s with
  | None => None
  | Some s =>
      match scan_int s with
      | None => None
      | Some (cupo_total, s) =>
          match match_format (codes ", Solicitud recibida: ") s with
          | None => None
          | Some s => match scan_int s with None => None | Some (n, _) => Some (cupo_total, n) end
          end
      end
  end.

(** ** The server *)
Definition ETHSIZE : nat := 400.

Record Alumno : Type := MkAlumno { nombre : text; claveUEA : text; grupo : text }.

(** [request], which keeps what earlier requests have left in it, and the part
    of [alumnos] that is in use. *)
Record servidor : Type := Servidor { request : text; alumnos : list Alumno }.

Definition numSolictudes (s : servidor) : Z := Z.of_nat (List.length (alumnos s)).
Definition cupoGrupo : Z := 30.

(** [read(newSocket_fd, request, ETHSIZE)] *)
Definition recibe (bytes : text) : M servidor unit :=
  modify (fun s => Servidor (take ETHSIZE bytes ++ drop (List.length (take ETHSIZE bytes)) (request s)) (alumnos s)).

(** The directive [%[^#]] into an array of [size] characters: at least one
    character; [None] if nothing matches, [Some None] if the array overflows. *)
Definition hasta_hash (size : nat) (s : text) : res (text * text) :=
  let '(w, rest) := span (fun c => negb (c =? HASH)) s in
  match w with [] => Undef | _ => if (List.length w <? size)%nat then Ok (w, rest) else Undef end.

Definition salta_hash (s : text) : res text :=
  match s with c :: s' => if c =? HASH then Ok s' else Undef | [] => Undef end.

(** [%s] into an array of [size] characters. *)
Definition palabra (size : nat) (s : text) : res text :=
  match scan_word (List.length s) s with
  | None => Undef
  | Some (w, _) => if (List.length w <? size)%nat then Ok w else Undef
  end.

Definition en_servidor {A} (r : res A) : M servidor A := fun s =>
  match r with Ok a => Ok (a, s) | Exit w => Exit w | Undef => Undef | Block => Block end.

(** [sscanf(request, "%[^#]#%[^#]#%s", name, claveUEA, grupo)]; variables that
    it does not set have no value, and [request] must end somewhere. *)
Definition decodifica : M servidor Alumno :=
  s ← get;
  if decide (0 ∈ request s) then
    '(name, r) ← en_servidor (hasta_hash 100 (c_string (request s)));
    r ← en_servidor (salta_hash r);
    '(clave, r) ← en_servidor (hasta_hash 8 r);
    r ← en_servidor (salta_hash r);
    g ← en_servidor (palabra 6 r);
    mret (MkAlumno name clave g)
  else undef.

(** The array has ten elements. *)
Definition registra (a : Alumno) : M servidor unit :=
  s ← get;
  if numSolictudes s <? 10 then modify (fun s => Servidor (request s) (alumnos s ++ [a])) else undef.

Definition responde : M servidor text :=
  s ← get;
  mret (codes "Cupo total: " ++ dec cupoGrupo ++ codes ", Solicitud recibida: " ++ dec (numSolictudes s) ++ [0]).

(** One connection: the bytes that are received, and the answer. *)
Definition atiende (bytes : text) : M servidor text :=
  recibe bytes;;
  a ← decodifica;
  registra a;;
  responde.

Fixpoint atiende_todas (requests : list text) : M servidor (list text) :=
  match requests with
  | [] => mret []
  | b :: requests' => r ← atiende b; rs ← atiende_todas requests'; mret (r :: rs)
  end.

(** [request] is a local array that is not initialised; here it starts out with
    zeros, as a page of the stack that was not used before does. *)
Definition primero : servidor := Servidor (replicate ETHSIZE 0) [].

Example dos_alumnos :
  match atiende_todas [codes "Ana Luz#1151038#CBL01"; codes "Luis Enrique#1151039#CBL02"] primero with
  | Ok (rs, s) => (lee_respuesta <$> rs, nombre <$> alumnos s, grupo <$> alumnos s)
  | _ => ([], [], [])
  end = ([Some (30, 1); Some (30, 2)], [codes "Ana Luz"; codes "Luis Enrique"], [codes "CBL01"; codes "CBL02"]).
Proof. vm_compute. reflexivity. Qed.

(** ** What can be registered *)
Record correcto (a : Alumno) : Prop := {
  co_nombre : nombre a <> [] /\ (List.length (nombre a) <= 98)%nat /\ forall c, c ∈ nombre a -> c <> HASH /\ c <> 0 /\ c <> 10;
  co_clave : claveUEA a <> [] /\ (List.length (claveUEA a) <= 7)%nat /\ forall c, c ∈ claveUEA a -> c <> HASH /\ c <> 0 /\ is_space c = false;
  co_grupo : grupo a <> [] /\ (List.length (grupo a) <= 5)%nat /\ forall c, c ∈ grupo a -> c <> 0 /\ is_space c = false
}.

Definition mensaje (a : Alumno) : text := codifica (nombre a) (claveUEA a) (grupo a).

(** What is typed for it. *)
Definition terminal (a : Alumno) : text := nombre a ++ 10 :: claveUEA a ++ 10 :: grupo a ++ [10].

(** ** The client *)
Lemma c_string_id a : (forall c, c ∈ a -> c <> 0) -> c_string a = a.
Proof. intros Ha. unfold c_string. rewrite span_all; [done|]. intros c Hc. by rewrite (proj2 (Z.eqb_neq c 0) (Ha c Hc)). Qed.

Lemma lee_palabra_run width w rest : w <> [] -> (List.length w <= width)%nat -> (forall c, c ∈ w -> c <> 0 /\ is_space c = false) ->
  lee_palabra width (w ++ 10 :: rest) = Ok (w, rest).
Proof.
  intros Hne Hl Hw. unfold lee_palabra. rewrite get_bind, scan_word_app; [|done|done|intros c Hc; by apply Hw|by intros c s' [= <- _]].
  cbn. rewrite c_string_id; [done|]. intros c Hc. by apply Hw.
Qed.

Lemma peticion_run a rest : correcto a -> peticion (terminal a ++ rest) = Ok (mensaje a, rest).
Proof.
  intros [(Hn1 & Hn2 & Hn3) (Hc1 & Hc2 & Hc3) (Hg1 & Hg2 & Hg3)]. unfold peticion, terminal.
  assert (Hname : lee_nombre ((nombre a ++ 10 :: claveUEA a ++ 10 :: grupo a ++ [10]) ++ rest) =
    Ok (nombre a, claveUEA a ++ 10 :: grupo a ++ 10 :: rest)).
  { unfold lee_nombre. rewrite get_bind. rewrite <- !app_assoc. cbn [app]. rewrite fgets_line; [|lia|intros H; by destruct (Hn3 10 H) as (_ & _ & ?)].
    destruct (nombre a ++ [10]) as [|x l] eqn:E; [by destruct (nombre a)|]. rewrite <- E. cbn.
    rewrite span_app; [|intros c Hc; destruct (Hn3 c Hc) as (_ & _ & Hx); by rewrite (proj2 (Z.eqb_neq c 10) Hx)|by intros c b' [= <- _]].
    cbn [fst]. rewrite c_string_id by (intros c Hc; by apply Hn3). by repeat (rewrite <- app_assoc; cbn [app]). }
  rewrite (bind_Ok _ _ _ _ _ Hname). rewrite (bind_Ok _ _ _ _ _ (lee_palabra_run 7 _ _ Hc1 Hc2 (fun c Hc => proj2 (Hc3 c Hc)))).
  by rewrite (bind_Ok _ _ _ _ _ (lee_palabra_run 5 _ rest Hg1 Hg2 Hg3)).
Qed.

Lemma mensaje_length a : correcto a -> (List.length (mensaje a) <= 112)%nat.
Proof.
  intros [(_ & Hn & _) (_ & Hc & _) (_ & Hg & _)]. unfold mensaje, codifica. rewrite List.length_app. cbn. rewrite List.length_app. cbn. lia.
Qed.

(** ** The server *)
Lemma hasta_hash_run size w rest : w <> [] -> (List.length w < size)%nat -> (forall c, c ∈ w -> c <> HASH) ->
  hasta_hash size (w ++ HASH :: rest) = Ok (w, HASH :: rest).
Proof.
  intros Hne Hl Hw. unfold hasta_hash. rewrite span_app.
  - destruct w; [done|]. by rewrite (proj2 (Nat.ltb_lt _ _) Hl).
  - intros c Hc. by rewrite (proj2 (Z.eqb_neq c HASH) (Hw c Hc)).
  - by intros c b' [= <- _].
Qed.

(** What follows a request in the buffer, up to white space, becomes part of
    the group. *)
Definition resto (cola : text) : text := (span (fun c => negb (is_space c)) (c_string cola)).1.

Lemma span_more P a b : (forall c, c ∈ a -> P c = true) -> (span P (a ++ b)).1 = a ++ (span P b).1.
Proof.
  intros Ha. induction a as [|c a IH]; [done|]. cbn. rewrite Ha by left. specialize (IH ltac:(intros; apply Ha; by right)).
  destruct (span P (a ++ b)). cbn in *. by rewrite IH.
Qed.

Lemma span_length P s : (List.length (span P s).1 <= List.length s)%nat.
Proof. induction s as [|c s IH]; cbn; [done|]. destruct (P c); [|cbn; lia]. destruct (span P s). cbn in *. lia. Qed.

Lemma c_string_more a b : (forall c, c ∈ a -> c <> 0) -> c_string (a ++ b) = a ++ c_string b.
Proof. intros Ha. unfold c_string. apply span_more. intros c Hc. by rewrite (proj2 (Z.eqb_neq c 0) (Ha c Hc)). Qed.

Lemma palabra_run g s : g <> [] -> (forall c, c ∈ g -> is_space c = false) ->
  let w := g ++ (span (fun c => negb (is_space c)) s).1 in
  palabra 6 (g ++ s) = if (List.length w <? 6)%nat then Ok w else Undef.
Proof.
  intros Hne Hg w. unfold palabra, scan_word. destruct g as [|c g]; [done|].
  rewrite (skip_app _ [] ((c :: g) ++ s)); [|by intros ? ?%elem_of_nil|intros c' s' [= <- _]; apply Hg; left].
  rewrite span_more by (intros c' Hc'; by rewrite Hg). fold w. rewrite take_ge; [done|].
  unfold w. rewrite !List.length_app. pose proof (span_length (fun c => negb (is_space c)) s). lia.
Qed.

Lemma decodifica_run a cola s : correcto a -> 0 ∈ cola -> request s = mensaje a ++ cola ->
  decodifica s = let g := grupo a ++ resto cola in
    if (List.length g <? 6)%nat then Ok (MkAlumno (nombre a) (claveUEA a) g, s) else Undef.
Proof.
  intros [(Hn1 & Hn2 & Hn3) (Hc1 & Hc2 & Hc3) (Hg1 & Hg2 & Hg3)] Hcola Hr. unfold decodifica. rewrite get_bind, Hr.
  rewrite decide_True by (apply elem_of_app; by right).
  assert (E : c_string (mensaje a ++ cola) = nombre a ++ HASH :: claveUEA a ++ HASH :: grupo a ++ c_string cola).
  { rewrite c_string_more.
    - unfold mensaje, codifica. rewrite <- !app_assoc. cbn. by rewrite <- !app_assoc.
    - intros c. unfold mensaje, codifica. rewrite elem_of_app, elem_of_cons, elem_of_app, elem_of_cons.
      intros [H|[->|[H|[->|H]]]]; [by apply Hn3|done|by apply Hc3|done|by apply Hg3]. }
  rewrite E. assert (R1 : en_servidor (hasta_hash 100 (nombre a ++ HASH :: claveUEA a ++ HASH :: grupo a ++ c_string cola)) s =
    Ok ((nombre a, HASH :: claveUEA a ++ HASH :: grupo a ++ c_string cola), s)).
  { unfold en_servidor. rewrite hasta_hash_run; [done|done|lia|]. intros c Hc. by apply Hn3. }
  rewrite (bind_Ok _ _ _ _ _ R1). rewrite (bind_Ok _ _ _ (claveUEA a ++ HASH :: grupo a ++ c_string cola) s eq_refl).
  assert (R2 : en_servidor (hasta_hash 8 (claveUEA a ++ HASH :: grupo a ++ c_string cola)) s = Ok ((claveUEA a, HASH :: grupo a ++ c_string cola), s)).
  { unfold en_servidor. rewrite hasta_hash_run; [done|done|lia|]. intros c Hc. by apply Hc3. }
  rewrite (bind_Ok _ _ _ _ _ R2). rewrite (bind_Ok _ _ _ (grupo a ++ c_string cola) s eq_refl).
  assert (R3 : en_servidor (palabra 6 (grupo a ++ c_string cola)) s =
    if (List.length (grupo a ++ resto cola) <? 6)%nat then Ok (grupo a ++ resto cola, s) else Undef).
  { unfold en_servidor. rewrite palabra_run; [|done|intros c Hc; by apply Hg3]. fold (resto cola). by destruct (_ <? _)%nat. }
  cbv zeta. destruct (_ <? _)%nat; [by rewrite (bind_Ok _ _ _ _ _ R3)|]. unfold mbind, M_bind. by rewrite R3.
Qed.

(** ** One connection *)

(** The buffer after a request. *)
Definition tras (a : Alumno) (buffer : text) : text := mensaje a ++ drop (List.length (mensaje a)) buffer.

Lemma recibe_run a s : correcto a -> recibe (mensaje a) s = Ok (tt, Servidor (tras a (request s)) (alumnos s)).
Proof.
  intros Ha. pose proof (mensaje_length a Ha). unfold recibe, modify, tras, ETHSIZE. by rewrite take_ge by lia.
Qed.

Definition respuesta (n : Z) : text := codes "Cupo total: " ++ dec cupoGrupo ++ codes ", Solicitud recibida: " ++ dec n ++ [0].

(** What one request does, with whatever earlier ones have left. *)
Lemma atiende_run a s : correcto a -> 0 ∈ drop (List.length (mensaje a)) (request s) -> (List.length (alumnos s) < 10)%nat ->
  atiende (mensaje a) s =
    let g := grupo a ++ resto (drop (List.length (mensaje a)) (request s)) in
    if (List.length g <? 6)%nat then
      Ok (respuesta (numSolictudes s + 1), Servidor (tras a (request s)) (alumnos s ++ [MkAlumno (nombre a) (claveUEA a) g]))
    else Undef.
Proof.
  intros Ha H0 Hn. unfold atiende. rewrite (bind_Ok _ _ _ _ _ (recibe_run a s Ha)).
  set (s1 := Servidor _ _). pose proof (decodifica_run a _ s1 Ha H0 eq_refl) as Hd. cbv zeta in *.
  destruct (_ <? 6)%nat; [|unfold mbind, M_bind; by rewrite Hd]. rewrite (bind_Ok _ _ _ _ _ Hd).
  assert (Hr : forall x, registra x s1 = Ok (tt, Servidor (request s1) (alumnos s1 ++ [x]))).
  { intros x. unfold registra. rewrite get_bind. unfold numSolictudes, s1. cbn. rewrite (proj2 (Z.ltb_lt _ 10)) by lia. done. }
  rewrite (bind_Ok _ _ _ _ _ (Hr _)). unfold responde. rewrite get_bind. unfold numSolictudes, respuesta, s1. cbn [alumnos request].
  rewrite List.length_app. cbn [List.length]. rewrite Nat2Z.inj_add. done.
Qed.

(** ** The answer *)
Lemma digits_first n rest : 0 <= n -> forall c s, dec n ++ rest = c :: s -> is_space c = false.
Proof.
  intros Hn c s E. destruct (dec_spec n Hn) as (Hne & Hds & _). destruct (dec n) as [|c' ds]; [done|]. injection E as -> _.
  apply digit_not_space, Hds. left.
Qed.

Lemma primera_parte rest : (forall c s, rest = c :: s -> is_space c = false) -> match_format (codes "Cupo total: ") (codes "Cupo total: " ++ rest) = Some rest.
Proof.
  intros Hr. change (codes "Cupo total: ") with (codes "Cupo" ++ 32 :: codes "total:" ++ [32]).
  rewrite <- app_assoc. cbn [app]. rewrite match_format_text by (by apply word_no_space). rewrite match_format_blank by (by intros c s [= <- _]).
  rewrite <- app_assoc. cbn [app]. rewrite match_format_text by (by apply word_no_space). by rewrite match_format_blank.
Qed.

Lemma segunda_parte rest : (forall c s, rest = c :: s -> is_space c = false) ->
  match_format (codes ", Solicitud recibida: ") (codes ", Solicitud recibida: " ++ rest) = Some rest.
Proof.
  intros Hr. change (codes ", Solicitud recibida: ") with (codes "," ++ 32 :: codes "Solicitud" ++ 32 :: codes "recibida:" ++ [32]).
  repeat (rewrite <- app_assoc; cbn [app]; rewrite match_format_text by (by apply word_no_space); rewrite match_format_blank by (done || by intros c s [= <- _])).
  done.
Qed.

Lemma lee_respuesta_run n : 0 <= n -> lee_respuesta (respuesta n) = Some (cupoGrupo, n).
Proof.
  intros Hn. destruct (dec_spec n Hn) as (_ & Hds & _). unfold lee_respuesta, respuesta.
  assert (E : c_string (codes "Cupo total: " ++ dec cupoGrupo ++ codes ", Solicitud recibida: " ++ dec n ++ [0]) =
    codes "Cupo total: " ++ dec cupoGrupo ++ codes ", Solicitud recibida: " ++ dec n).
  { rewrite !app_assoc. apply c_string_app. intros c [Hc|Hc]%elem_of_app; [|apply space_or_digit_not_0; right; by apply Hds].
    revert Hc. apply (proj1 (Forall_forall (fun c => c <> 0) _)). by apply (bool_decide_unpack _). }
  rewrite E, primera_parte by (by apply digits_first).
  rewrite scan_dec_first by (done || by intros c s [= <- _]).
  rewrite segunda_parte by (intros c s Es; by apply (digits_first n [] Hn c s); rewrite app_nil_r).
  pose proof (scan_dec_first n [] Hn ltac:(done)) as Hs. rewrite app_nil_r in Hs. by rewrite Hs.
Qed.

(** ** Sessions *)
Definition largo (a : Alumno) : nat := List.length (mensaje a).

(** The buffer holds one request, and zeros. *)
Definition buffer_de (m : text) : text := m ++ replicate (ETHSIZE - List.length m) 0.

Lemma drop_buffer k m : (List.length m <= k <= 112)%nat -> drop k (buffer_de m) = replicate (ETHSIZE - k) 0.
Proof.
  intros Hk. unfold buffer_de, ETHSIZE. rewrite drop_app_ge by lia. rewrite drop_replicate. f_equal. lia.
Qed.

Lemma zeros_end k : (k < ETHSIZE)%nat -> 0 ∈ replicate (ETHSIZE - k) 0 /\ resto (replicate (ETHSIZE - k) 0) = [].
Proof. intros Hk. destruct (ETHSIZE - k)%nat as [|j] eqn:E; [lia|]. split; [left|done]. Qed.

Lemma mensaje_nonzero a c : correcto a -> c ∈ mensaje a -> c <> 0.
Proof.
  intros [(_ & _ & Hn) (_ & _ & Hc) (_ & _ & Hg)]. unfold mensaje, codifica. rewrite elem_of_app, elem_of_cons, elem_of_app, elem_of_cons.
  intros [H|[->|[H|[->|H]]]]; [by apply Hn|done|by apply Hc|done|by apply Hg].
Qed.

(** A request that is not shorter than the one before it. *)
Lemma atiende_mayor a m l : correcto a -> (List.length m <= largo a)%nat -> (List.length l < 10)%nat ->
  atiende (mensaje a) (Servidor (buffer_de m) l) =
    Ok (respuesta (Z.of_nat (List.length l) + 1), Servidor (buffer_de (mensaje a)) (l ++ [a])).
Proof.
  intros Ha Hm Hl. pose proof (mensaje_length a Ha) as Hlen. unfold largo in Hm.
  destruct (zeros_end (List.length (mensaje a)) ltac:(unfold ETHSIZE; lia)) as [H0 Hr].
  rewrite atiende_run; cbn [request alumnos]; [|done|by rewrite drop_buffer by lia|done].
  rewrite drop_buffer, Hr, app_nil_r by lia. destruct (co_grupo a Ha) as (_ & Hg & _). cbv zeta.
  rewrite (proj2 (Nat.ltb_lt _ 6)) by lia. unfold tras. rewrite drop_buffer by lia. by destruct a.
Qed.

Lemma sesion l : forall m hechos, Forall correcto l -> Sorted (fun a b => (largo a <= largo b)%nat) l ->
  (forall a l', l = a :: l' -> (List.length m <= largo a)%nat) -> (List.length hechos + List.length l <= 10)%nat ->
  exists rs s, atiende_todas (mensaje <$> l) (Servidor (buffer_de m) hechos) = Ok (rs, s) /\ alumnos s = hechos ++ l /\
    lee_respuesta <$> rs = (fun n => Some (cupoGrupo, n)) <$> seqZ (Z.of_nat (List.length hechos) + 1) (Z.of_nat (List.length l)).
Proof.
  induction l as [|a l IH]; intros m hechos Hc Hs Hm Hl.
  { exists [], (Servidor (buffer_de m) hechos). by rewrite app_nil_r. }
  apply Forall_cons in Hc as [Ha Hc]. apply Sorted_inv in Hs as [Hs Hhd]. cbn [List.length] in Hl.
  destruct (IH (mensaje a) (hechos ++ [a]) Hc Hs) as (rs & s & E & Hal & Hr).
  { intros b l' ->. by inversion Hhd. }
  { rewrite List.length_app. cbn. lia. }
  exists (respuesta (Z.of_nat (List.length hechos) + 1) :: rs), s. rewrite !fmap_cons. cbn [atiende_todas].
  pose proof (atiende_mayor a m hechos Ha (Hm a l eq_refl) ltac:(lia)) as E1.
  rewrite (bind_Ok _ _ _ _ _ E1). rewrite (bind_Ok _ _ _ _ _ E). split_and!; [done|by rewrite Hal, <- app_assoc|].
  cbn [List.length]. rewrite seqZ_cons, fmap_cons, lee_respuesta_run, Hr, List.length_app by lia. cbn [List.length].
  do 3 f_equal; lia.
Qed.

(** C38: Let the server start with zeros in its buffer and every request come in
    one piece: up to ten registrations whose requests do not get shorter are
    recorded as they were typed, in their order, and every client reads from
    the answer the size of the group and the number of its request. *)
Theorem registro_exacto l : Forall correcto l -> Sorted (fun a b => (largo a <= largo b)%nat) l -> (List.length l <= 10)%nat ->
  Forall (fun a => peticion (terminal a) = Ok (mensaje a, [])) l /\
  exists rs s, atiende_todas (mensaje <$> l) primero = Ok (rs, s) /\ alumnos s = l /\
    lee_respuesta <$> rs = (fun n => Some (cupoGrupo, n)) <$> seqZ 1 (Z.of_nat (List.length l)).
Proof.
  intros Hc Hs Hl. split.
  - eapply Forall_impl; [exact Hc|]. intros a Ha. rewrite <- (app_nil_r (terminal a)). by apply peticion_run.
  - apply (sesion l [] []); [done|done|intros; cbn; lia|done].
Qed.

(** A student for the examples. *)
Definition alumno (n c g : string) : Alumno := MkAlumno (codes n) (codes c) (codes g).

Definition correctob (a : Alumno) : bool :=
  bool_decide (nombre a <> []) && (List.length (nombre a) <=? 98)%nat && forallb (fun c => negb ((c =? HASH) || (c =? 0) || (c =? 10))) (nombre a) &&
  bool_decide (claveUEA a <> []) && (List.length (claveUEA a) <=? 7)%nat && forallb (fun c => negb ((c =? HASH) || (c =? 0) || is_space c)) (claveUEA a) &&
  bool_decide (grupo a <> []) && (List.length (grupo a) <=? 5)%nat && forallb (fun c => negb ((c =? 0) || is_space c)) (grupo a).

Lemma correctob_correcto a : correctob a = true -> correcto a.
Proof.
  unfold correctob. rewrite !andb_true_iff, !bool_decide_eq_true, !Nat.leb_le, !forallb_forall.
  intros [[[[[[[[H1 H2] H3] H4] H5] H6] H7] H8] H9].
  split; (split_and!; [done..|]); intros c Hc%list_elem_of_In; [specialize (H3 c Hc)|specialize (H6 c Hc)|specialize (H9 c Hc)];
    rewrite ?negb_true_iff, ?orb_false_iff, ?Z.eqb_neq in *; tauto.
Qed.

Definition tres_alumnos : list Alumno := [alumno "Ana Luz" "1151038" "CBL01"; alumno "Luis Paz" "1151038" "CBL01"; alumno "Eva Maria Gil" "1151040" "CBL02"].

Lemma registro_exacto_witness : Forall correcto tres_alumnos /\
  exists rs s, atiende_todas (mensaje <$> tres_alumnos) primero = Ok (rs, s) /\ alumnos s = tres_alumnos /\
    lee_respuesta <$> rs = (fun n => Some (cupoGrupo, n)) <$> seqZ 1 3.
Proof.
  assert (Hc : Forall correcto tres_alumnos) by (unfold tres_alumnos; repeat (apply Forall_cons_2; [apply correctob_correcto; vm_compute; reflexivity|]); apply Forall_nil_2).
  split; [exact Hc|]. apply (registro_exacto tres_alumnos Hc).
  - unfold tres_alumnos. repeat first [apply Sorted_cons|apply Sorted_nil|apply HdRel_cons|apply HdRel_nil]; apply Nat.leb_le; vm_compute; reflexivity.
  - apply Nat.leb_le. vm_compute. reflexivity.
Defined.

(** A request that is shorter than the one before it gets its end: the
    group is recorded with what the buffer still holds up to the next white
    space, and if that is more than five characters the array is written
    past its end. *)
Theorem registro_resto a b : correcto a -> correcto b -> (largo b < largo a)%nat ->
  let g := grupo b ++ (span (fun c => negb (is_space c)) (drop (largo b) (mensaje a))).1 in
  exists r s, atiende (mensaje a) primero = Ok (r, s) /\
    atiende (mensaje b) s =
      if (List.length g <? 6)%nat then Ok (respuesta 2, Servidor (tras b (buffer_de (mensaje a))) [a; MkAlumno (nombre b) (claveUEA b) g])
      else Undef.
Proof.
  intros Ha Hb Hlt g. pose proof (mensaje_length a Ha) as Hla.
  exists (respuesta 1), (Servidor (buffer_de (mensaje a)) [a]). split.
  - apply (atiende_mayor a [] [] Ha); cbn; lia.
  - assert (Hd : drop (largo b) (buffer_de (mensaje a)) = drop (largo b) (mensaje a) ++ replicate (ETHSIZE - List.length (mensaje a)) 0).
    { unfold buffer_de, largo in *. by rewrite drop_app_le by lia. }
    destruct (zeros_end (List.length (mensaje a)) ltac:(unfold ETHSIZE; lia)) as [H0 _].
    rewrite atiende_run; cbn [request alumnos List.length]; [|done| |lia].
    + fold (largo b). rewrite Hd. unfold resto. rewrite c_string_more.
      * destruct (ETHSIZE - List.length (mensaje a))%nat as [|j]; [by apply elem_of_nil in H0|]. cbn [replicate c_string span fst negb Z.eqb].
        change (c_string (0 :: replicate j 0)) with (@nil Z). by rewrite app_nil_r.
      * intros c Hc. apply (mensaje_nonzero a); [done|]. eapply elem_of_submseteq; [exact Hc|]. apply sublist_submseteq, sublist_drop.
    + fold (largo b). rewrite Hd. apply elem_of_app. by right.
Qed.

(** [Eva] asks for group [CB1] and gets the last digit of the request before. *)
Lemma registro_resto_witness :
  let a := alumno "Ana" "1151038" "CB11" in let b := alumno "Eva" "1151038" "CB1" in
  correcto a /\ correcto b /\ exists r s, atiende (mensaje a) primero = Ok (r, s) /\
    atiende (mensaje b) s = Ok (respuesta 2, Servidor (tras b (buffer_de (mensaje a))) [a; alumno "Eva" "1151038" "CB11"]).
Proof.
  assert (Ha : correcto (alumno "Ana" "1151038" "CB11")) by (apply correctob_correcto; vm_compute; reflexivity).
  assert (Hb : correcto (alumno "Eva" "1151038" "CB1")) by (apply correctob_correcto; vm_compute; reflexivity).
  split; [exact Ha|]. split; [exact Hb|].
  exact (registro_resto _ _ Ha Hb ltac:(apply Nat.ltb_lt; vm_compute; reflexivity)).
Defined.

(** The eleventh request writes past the end of the array. *)
Lemma registro_once a s : correcto a -> (10 <= List.length (alumnos s))%nat -> forall r, atiende (mensaje a) s <> Ok r.
Proof.
  intros Ha Hl r. unfold atiende. rewrite (bind_Ok _ _ _ _ _ (recibe_run a s Ha)). unfold mbind, M_bind.
  set (s1 := Servidor _ _). destruct (decodifica s1) as [[x s2]| | |] eqn:E; try done.
  assert (E2 : alumnos s2 = alumnos s).
  { revert E. unfold decodifica. rewrite get_bind. case_decide; [|done]. unfold mbind, M_bind, en_servidor.
    destruct (hasta_hash _ _) as [[]| | |]; try done. destruct (salta_hash _); try done. destruct (hasta_hash _ _) as [[]| | |]; try done.
    destruct (salta_hash _); try done. destruct (palabra _ _); try done. intros [= _ <-]. done. }
  unfold registra. rewrite get_bind. unfold numSolictudes. rewrite E2. by rewrite (proj2 (Z.ltb_ge _ 10)) by lia.
Qed.
