(* ===== verification/Programs.v ===== *)
(** * Programs over the shared memory

    The interface of the library ([src/Tmk/include/Tmk.h]) as its programs see
    it: reads and writes of shared memory, [Tmk_lock_acquire],
    [Tmk_lock_release] and [Tmk_barrier]; and output.  A process is a tree of these
    operations, a system a list of processes that take turns in any order.
    [Coherence], [LockProtocol] and [Departures] show that the library keeps
    this contract for programs without data races; the rules below prove of a
    program that it has none, what it computes, and that it ends. *)
From S2P Require Import Prelude.
From Stdlib Require Import Relation_Operators Transitive_Closure Wf_nat.
Local Open Scope Z_scope.

(** ** Processes *)
Section Prog.
Context {L V : Type}.

Inductive prog (A : Type) : Type :=
  | Done (a : A)
  | Read (l : L) (k : V -> prog A)
  | Write (l : L) (v : V) (p : prog A)
  | Acquire (n : Z) (p : prog A)
  | Release (n : Z) (p : prog A)
  | Barrier (b : Z) (p : prog A)
  | Print (vs : list V) (p : prog A).
#[global] Arguments Done {A} a.
#[global] Arguments Read {A} l k.
#[global] Arguments Write {A} l v p.
#[global] Arguments Acquire {A} n p.
#[global] Arguments Release {A} n p.
#[global] Arguments Barrier {A} b p.
#[global] Arguments Print {A} vs p.

#[global] Instance prog_ret : MRet prog := @Done.
#[global] Instance prog_bind : MBind prog := fun A B f =>
  fix go (p : prog A) : prog B :=
    match p with
    | Done a => f a
    | Read l k => Read l (fun v => go (k v))
    | Write l v p => Write l v (go p)
    | Acquire n p => Acquire n (go p)
    | Release n p => Release n (go p)
    | Barrier b p => Barrier b (go p)
    | Print vs p => Print vs (go p)
    end.

Definition rd (l : L) : prog V := Read l Done.
Definition wr (l : L) (v : V) : prog unit := Write l v (Done tt).
Definition barrier (b : Z) : prog unit := Barrier b (Done tt).
Definition acquire (n : Z) : prog unit := Acquire n (Done tt).
Definition release (n : Z) : prog unit := Release n (Done tt).
Definition printf (vs : list V) : prog unit := Print vs (Done tt).

(** A [for] loop over the values of its index, with what it accumulates. *)
Fixpoint loop {A} (f : A -> Z -> prog A) (acc : A) (l : list Z) : prog A :=
  match l with [] => mret acc | x :: l => acc' ← f acc x; loop f acc' l end.

Definition for_all (f : Z -> prog unit) (l : list Z) : prog unit := loop (fun _ => f) tt l.
End Prog.
#[global] Arguments prog : clear implicits.

(** [for (k = first; k < last; k += stride)] *)
Definition strided (first last stride : Z) : list Z :=
  (fun t => first + t * stride) <$> seqZ 0 ((last - first + stride - 1) `div` stride).

Lemma elem_of_strided first last stride k : 0 < stride ->
  k ∈ strided first last stride <-> first <= k < last /\ k `mod` stride = first `mod` stride.
Proof.
  intros Hs. unfold strided. rewrite list_elem_of_fmap. split.
  - intros (t & -> & [Ht1 Ht2]%elem_of_seqZ). rewrite Z.add_0_l in Ht2.
    pose proof (Z.mul_div_le (last - first + stride - 1) stride Hs).
    rewrite Z_mod_plus_full. split; [nia|done].
  - intros [[H1 H2] Hm]. exists ((k - first) `div` stride).
    assert (E : (k - first) `mod` stride = 0).
    { rewrite Zminus_mod, Hm, Z.sub_diag. apply Z.mod_0_l. lia. }
    pose proof (Z.div_mod (k - first) stride ltac:(lia)) as D. rewrite E in D.
    split; [lia|]. apply elem_of_seqZ. split; [apply Z.div_pos; lia|].
    rewrite Z.add_0_l. apply Z.div_lt_upper_bound; [lia|].
    pose proof (Z.div_mod (last - first + stride - 1) stride ltac:(lia)).
    pose proof (Z.mod_pos_bound (last - first + stride - 1) stride Hs). nia.
Qed.

(** The element at which a loop over consecutive indices is. *)
Lemma seqZ_nth m n xs x ys : seqZ m n = xs ++ x :: ys -> x = m + Z.of_nat (length xs) /\ m <= x < m + n.
Proof.
  intros E. assert (Hl : seqZ m n !! length xs = Some x) by (rewrite E; by apply list_lookup_middle).
  apply lookup_seqZ in Hl. lia.
Qed.

(** ** Systems *)
Section System.
Context {L V : Type} `{Countable L} `{!Inhabited V} {A : Type}.
Implicit Types (p : prog L V A) (ps : list (prog L V A)) (m : gmap L V).

(** The memory, who holds which lock, what has been printed (the last first),
    and the processes. *)
Record system : Type := System {
  sy_mem : gmap L V;
  sy_held : gmap Z nat;
  sy_out : list (list V);
  sy_procs : list (prog L V A)
}.

Inductive step : system -> system -> Prop :=
  | step_read m h o ps i l k : ps !! i = Some (Read l k) ->
      step (System m h o ps) (System m h o (<[i := k (m !!! l)]> ps))
  | step_write m h o ps i l v p : ps !! i = Some (Write l v p) ->
      step (System m h o ps) (System (<[l := v]> m) h o (<[i := p]> ps))
  | step_acquire m h o ps i n p : ps !! i = Some (Acquire n p) -> h !! n = None ->
      step (System m h o ps) (System m (<[n := i]> h) o (<[i := p]> ps))
  | step_release m h o ps i n p : ps !! i = Some (Release n p) -> h !! n = Some i ->
      step (System m h o ps) (System m (delete n h) o (<[i := p]> ps))
  | step_barrier m h o ps b ps' : ps <> [] -> Forall2 (fun p p' => p = Barrier b p') ps ps' ->
      step (System m h o ps) (System m h o ps')
  | step_print m h o ps i vs p : ps !! i = Some (Print vs p) ->
      step (System m h o ps) (System m h (vs :: o) (<[i := p]> ps)).

(** An execution with a given order of turns: process [i] performs its next
    operation, or, when all are at the barrier, all of them leave it. *)
Definition leave (b : Z) (p : prog L V A) : option (prog L V A) :=
  match p with Barrier b' q => if b =? b' then Some q else None | _ => None end.

Definition turn (s : system) (i : nat) : system :=
  let 'System m h o ps := s in
  match ps !! i with
  | Some (Read l k) => System m h o (<[i := k (m !!! l)]> ps)
  | Some (Write l v p) => System (<[l := v]> m) h o (<[i := p]> ps)
  | Some (Acquire n p) => match h !! n with None => System m (<[n := i]> h) o (<[i := p]> ps) | Some _ => s end
  | Some (Release n p) => if decide (h !! n = Some i) then System m (delete n h) o (<[i := p]> ps) else s
  | Some (Barrier b _) => match mapM (leave b) ps with Some ps' => System m h o ps' | None => s end
  | Some (Print vs p) => System m h (vs :: o) (<[i := p]> ps)
  | _ => s
  end.

Definition turns (s : system) (order : list nat) : system := foldl turn s order.

Lemma scheduled_step s i : rtc step s (turn s i).
Proof.
  destruct s as [m h o ps]. unfold turn. destruct (ps !! i) as [p|] eqn:Hi; [|done]. destruct p.
  - done.
  - apply rtc_once. by eapply step_read.
  - apply rtc_once. by eapply step_write.
  - destruct (h !! n) eqn:Hn; [done|]. apply rtc_once. by eapply step_acquire.
  - case_decide; [|done]. apply rtc_once. by eapply step_release.
  - destruct (mapM _ ps) as [ps'|] eqn:HM; [|done]. apply rtc_once, (step_barrier _ _ _ _ b); [by intros ->|].
    apply mapM_Some in HM. eapply Forall2_impl; [exact HM|]. intros q q' Hq. destruct q; simplify_eq/=.
    destruct (Z.eqb_spec b b0); by simplify_eq.
  - apply rtc_once. by eapply step_print.
Qed.

Lemma turns_steps s order : rtc step s (turns s order).
Proof. revert s. induction order as [|i order IH]; intros s; [done|]. etrans; [apply scheduled_step|apply IH]. Qed.

(** Two processes are about to access the same place, and one of them writes. *)
Definition accesses (p : prog L V A) : option (L * bool) :=
  match p with Read l _ => Some (l, false) | Write l _ _ => Some (l, true) | _ => None end.

Definition race (s : system) : Prop :=
  exists i j p q l w w', i <> j /\ sy_procs s !! i = Some p /\ sy_procs s !! j = Some q /\
    accesses p = Some (l, w) /\ accesses q = Some (l, w') /\ w || w' = true.

(** ** Every execution ends *)

(** The rest of a process after its next operation. *)
Inductive after : prog L V A -> prog L V A -> Prop :=
  | after_read l k v : after (k v) (Read l k)
  | after_write l v p : after p (Write l v p)
  | after_acquire n p : after p (Acquire n p)
  | after_release n p : after p (Release n p)
  | after_barrier b p : after p (Barrier b p)
  | after_print vs p : after p (Print vs p).

Lemma after_wf : well_founded after.
Proof. intros p. induction p; constructor; intros q Hq; inversion Hq; subst; auto. Qed.

Definition one_after ps' ps : Prop :=
  exists i p p', ps !! i = Some p /\ after p' p /\ ps' = <[i := p']> ps.

Lemma one_after_cons p ps : Acc after p -> Acc one_after ps -> Acc one_after (p :: ps).
Proof.
  intros Hp. revert ps. induction Hp as [p _ IHp]. intros ps Hps. induction Hps as [ps Hps IHps].
  constructor. intros ps' (i & q & q' & Hi & Ha & ->). destruct i as [|i]; simplify_eq/=.
  - apply IHp; [done|by constructor].
  - apply IHps. by exists i, q, q'.
Qed.

Lemma one_after_wf : well_founded one_after.
Proof.
  intros ps. induction ps as [|p ps IH]; [|by apply one_after_cons; [apply after_wf|]].
  constructor. intros ps' (i & p & p' & Hi & _). done.
Qed.

Lemma barrier_after b ps ps' : ps <> [] -> Forall2 (fun p p' => p = Barrier b p') ps ps' ->
  clos_trans _ one_after ps' ps.
Proof.
  intros Hne HF. induction HF as [|p p' ps ps' -> HF IH]; [done|].
  assert (Hhead : one_after (p' :: ps) (Barrier b p' :: ps)) by (exists 0%nat, (Barrier b p'), p'; split_and!; [done|constructor|done]).
  destruct ps as [|q ps]; [inversion HF; subst; by constructor|].
  apply t_trans with (p' :: q :: ps); [|by constructor].
  clear Hhead Hne. assert (IH' := IH ltac:(done)). clear IH HF.
  induction IH' as [x y (i & r & r' & Hi & Ha & ->)|x y z _ IH1 _ IH2]; [|by eapply t_trans].
  constructor. by exists (S i), r, r'.
Qed.

(** No execution goes on for ever. *)
Lemma step_wf : well_founded (fun s' s => step s s').
Proof.
  intros [m h o ps]. revert m h o.
  induction (Transitive_Closure.wf_clos_trans _ _ one_after_wf ps) as [ps _ IH]. intros m h o.
  constructor. intros s' Hs. inversion Hs; subst; apply IH;
    solve [by eapply barrier_after | constructor; eexists _, _, _; split_and!; [done|constructor|done]].
Qed.
End System.
#[global] Arguments system L V {_ _} A.

(** ** What a process does until it next waits

    [wp R W p Q m]: from memory [m], and on its own, [p] reads only places in
    [R] and writes only places in [W] until it has ended or is at a barrier,
    where [Q] holds of the rest of it and of the memory. *)
Section Alone.
Context {L V : Type} `{Countable L} `{!Inhabited V}.
Context (R W : L -> Prop).

Fixpoint wp {A} (p : prog L V A) (Q : prog L V A -> gmap L V -> Prop) (m : gmap L V) : Prop :=
  match p with
  | Done _ | Barrier _ _ => Q p m
  | Read l k => R l /\ wp (k (m !!! l)) Q m
  | Write l v p => W l /\ wp p Q (<[l := v]> m)
  | Acquire _ _ | Release _ _ => False
  | Print _ p => wp p Q m
  end.

(** [p] comes to its end without a barrier. *)
Definition does {A} (p : prog L V A) (m : gmap L V) (Q : A -> gmap L V -> Prop) : Prop :=
  wp p (fun q m' => exists a, q = Done a /\ Q a m') m.

Lemma wp_mono {A} (p : prog L V A) (Q Q' : prog L V A -> gmap L V -> Prop) m :
  wp p Q m -> (forall q m', Q q m' -> Q' q m') -> wp p Q' m.
Proof. intros Hp HQ. revert m Hp. induction p; cbn; intros m; naive_solver. Qed.

Lemma wp_bind {A B} (p : prog L V A) (f : A -> prog L V B) Q m :
  does p m (fun a m' => wp (f a) Q m') -> wp (p ≫= f) Q m.
Proof. unfold does. revert m. induction p; cbn; intros m; naive_solver. Qed.

(** [p] at the beginning of a sequence that is bracketed to the left. *)
Lemma wp_seq2 {A B C D} (p : prog L V A) (f : A -> prog L V B) (g : B -> prog L V C) (h : C -> prog L V D) Q m :
  does p m (fun a m' => wp (((f a ≫= g) ≫= h)) Q m') -> wp (((p ≫= f) ≫= g) ≫= h) Q m.
Proof. unfold does. revert m. induction p; cbn; intros m; naive_solver. Qed.

Lemma wp_seq3 {A B C D E} (p : prog L V A) (f : A -> prog L V B) (g : B -> prog L V C) (h : C -> prog L V D)
    (k : D -> prog L V E) Q m :
  does p m (fun a m' => wp (((f a ≫= g) ≫= h) ≫= k) Q m') -> wp ((((p ≫= f) ≫= g) ≫= h) ≫= k) Q m.
Proof. unfold does. revert m. induction p; cbn; intros m; naive_solver. Qed.

Lemma does_bind {A B} (p : prog L V A) (f : A -> prog L V B) m Q :
  does p m (fun a m' => does (f a) m' Q) -> does (p ≫= f) m Q.
Proof. apply wp_bind. Qed.

Lemma does_ret {A} (a : A) m (Q : A -> gmap L V -> Prop) : Q a m -> does (mret a) m Q.
Proof. by exists a. Qed.

Lemma does_mono {A} (p : prog L V A) m (Q Q' : A -> gmap L V -> Prop) :
  does p m Q -> (forall a m', Q a m' -> Q' a m') -> does p m Q'.
Proof. intros Hp HQ. eapply wp_mono; [exact Hp|]. intros q m' (a & -> & Ha). exists a. auto. Qed.

Lemma does_rd l m (Q : V -> gmap L V -> Prop) : R l -> Q (m !!! l) m -> does (rd l) m Q.
Proof. intros HR HQ. split; [done|]. by eexists. Qed.

Lemma does_wr l v m (Q : unit -> gmap L V -> Prop) : W l -> Q tt (<[l := v]> m) -> does (wr l v) m Q.
Proof. intros HR HQ. split; [done|]. by eexists. Qed.

(** [I done acc] holds when the indices [done] have been gone through. *)
Lemma does_loop {A} (f : A -> Z -> prog L V A) (I : list Z -> A -> gmap L V -> Prop) l acc m :
  I [] acc m ->
  (forall xs x acc m, (exists ys, l = xs ++ x :: ys) -> I xs acc m -> does (f acc x) m (I (xs ++ [x]))) ->
  does (loop f acc l) m (I l).
Proof.
  intros H0 Hf.
  assert (Hgen : forall ys xs acc m, xs ++ ys = l -> I xs acc m -> does (loop f acc ys) m (I l)).
  { intros ys. induction ys as [|y ys IH]; cbn; intros xs acc' m' E HI.
    - apply does_ret. rewrite app_nil_r in E. by subst.
    - apply does_bind. eapply does_mono; [apply (Hf xs); [by exists ys|exact HI]|].
      intros acc'' m'' HI'. apply (IH (xs ++ [y])); [by rewrite <- app_assoc|done]. }
  by apply (Hgen l []).
Qed.
End Alone.

(** With more places than it needs. *)
Lemma does_access {L V : Type} `{Countable L} `{!Inhabited V} (R R' W W' : L -> Prop) {A} (p : prog L V A) m Q :
  (forall l, R l -> R' l) -> (forall l, W l -> W' l) -> does R W p m Q -> does R' W' p m Q.
Proof. intros HR HW. unfold does. revert m. induction p; cbn; intros m; naive_solver. Qed.

(** ** Processes that do not disturb each other

    Between two barriers each process [i] has places [W i] of its own, which no
    other reads or writes.  Then it does what it would do alone, whatever the
    order in which the processes take turns. *)
Section Phase.
Context {L V : Type} `{Countable L} `{!Inhabited V} {A : Type}.
Context (R W : nat -> L -> Prop) (Q : nat -> prog L V A -> gmap L V -> Prop) (n : nat).
Hypothesis apart : forall i j l, (i < n)%nat -> (j < n)%nat -> i <> j -> W i l -> ~ R j l /\ ~ W j l.

(** [v] is the memory as process [i] sees it. *)
Definition view (i : nat) (v m : gmap L V) : Prop := forall l, R i l \/ W i l -> v !!! l = m !!! l.

Definition in_phase (m0 : gmap L V) (s : system L V A) : Prop :=
  length (sy_procs s) = n /\ sy_held s = ∅ /\
  (forall i p, sy_procs s !! i = Some p -> exists v, view i v (sy_mem s) /\ wp (R i) (W i) p (Q i) v) /\
  (forall l, (forall i, (i < n)%nat -> ~ W i l) -> sy_mem s !!! l = m0 !!! l).

Lemma phase_start m o ps : length ps = n ->
  (forall i p, ps !! i = Some p -> wp (R i) (W i) p (Q i) m) -> in_phase m (System m ∅ o ps).
Proof. intros Hl Hps. split_and!; [done..| |done]. intros i p Hp. exists m. split; [done|by apply Hps]. Qed.

Lemma view_insert i v m l x : view i v m -> view i (<[l := x]> v) (<[l := x]> m).
Proof.
  intros Hv l' Hl'. destruct (decide (l = l')) as [->|Hne]; [by rewrite !lookup_total_insert_eq|].
  rewrite !lookup_total_insert_ne by done. auto.
Qed.

Lemma view_other i j v m l x : (i < n)%nat -> (j < n)%nat -> i <> j -> W i l -> view j v m -> view j v (<[l := x]> m).
Proof.
  intros Hi Hj Hij Hw Hv l' Hl'. destruct (apart i j l Hi Hj Hij Hw) as [HR HW].
  rewrite lookup_total_insert_ne; [auto|]. intros ->. tauto.
Qed.

Lemma phase_step m0 s s' : in_phase m0 s -> step s s' ->
  in_phase m0 s' \/
  exists b, n <> 0%nat /\ sy_mem s' = sy_mem s /\ sy_held s' = ∅ /\ Forall2 (fun p p' => p = Barrier b p') (sy_procs s) (sy_procs s').
Proof.
  intros (Hl & Hh & Hp & Hrest) Hs.
  assert (Hupd : forall i p, sy_procs s !! i = Some p -> (i < n)%nat).
  { intros i p Hi. rewrite <- Hl. by eapply lookup_lt_Some. }
  inversion Hs as [m h o ps i l k Hi|m h o ps i l v p Hi|m h o ps i c p Hi Hfree|m h o ps i c p Hi Hheld|m h o ps b ps' Hne HF|m h o ps i vs p Hi];
    subst s s'; cbn in *.
  - left. destruct (Hp _ _ Hi) as (v & Hv & Hr & Hwp). split_and!; cbn; [by rewrite length_insert|done| |done].
    intros j q Hj. destruct (decide (i = j)) as [<-|Hne].
    + rewrite list_lookup_insert_eq in Hj by (rewrite Hl; eauto). injection Hj as <-. exists v. split; [done|].
      rewrite <- (Hv l) by auto. done.
    + rewrite list_lookup_insert_ne in Hj by done. auto.
  - left. destruct (Hp _ _ Hi) as (u & Hv & Hw & Hwp). split_and!; cbn; [by rewrite length_insert|done| |].
    + intros j q Hj. destruct (decide (i = j)) as [<-|Hne].
      * rewrite list_lookup_insert_eq in Hj by (rewrite Hl; eauto). injection Hj as <-.
        exists (<[l := v]> u). split; [by apply view_insert|done].
      * rewrite list_lookup_insert_ne in Hj by done. destruct (Hp _ _ Hj) as (v' & Hv' & Hwp'). exists v'.
        split; [|done]. eapply (view_other i); eauto.
    + intros l' Hl'. rewrite lookup_total_insert_ne; [auto|]. intros ->. by apply (Hl' i); eauto.
  - by destruct (Hp _ _ Hi) as (v & _ & Hwp).
  - by destruct (Hp _ _ Hi) as (v & _ & Hwp).
  - right. exists b. split_and!; [by destruct ps; subst n|done..].
  - left. destruct (Hp _ _ Hi) as (u & Hv & Hwp). split_and!; cbn; [by rewrite length_insert|done| |done].
    intros j q Hj. destruct (decide (i = j)) as [<-|Hne].
    + rewrite list_lookup_insert_eq in Hj by (rewrite Hl; eauto). injection Hj as <-. by exists u.
    + rewrite list_lookup_insert_ne in Hj by done. auto.
Qed.

(** No two processes are ever about to use the same place. *)
Lemma phase_no_race m0 s : in_phase m0 s -> ~ race s.
Proof.
  intros (Hl & _ & Hp & _) (i & j & p & q & l & w & w' & Hij & Hi & Hj & Hai & Haj & Hw).
  assert (Hi' : (i < n)%nat) by (rewrite <- Hl; by eapply lookup_lt_Some).
  assert (Hj' : (j < n)%nat) by (rewrite <- Hl; by eapply lookup_lt_Some).
  destruct (Hp _ _ Hi) as (v & _ & Hwp), (Hp _ _ Hj) as (v' & _ & Hwp').
  assert (Hacc : forall k r u lw, wp (R k) (W k) r (Q k) u -> accesses r = Some (l, lw) -> if lw : bool then W k l else R k l).
  { intros k r u lw Hr Ha. destruct r; simplify_eq/=; by destruct Hr. }
  apply (Hacc i _ _ w) in Hwp; [|done]. apply (Hacc j _ _ w') in Hwp'; [|done].
  destruct w, w'; simplify_eq/=.
  - by destruct (apart i j l Hi' Hj' Hij Hwp).
  - by destruct (apart i j l Hi' Hj' Hij Hwp).
  - by destruct (apart j i l Hj' Hi' (not_eq_sym Hij) Hwp').
Qed.

(** Unless all processes have ended or are at a barrier, one of them goes on. *)
Lemma phase_progress m0 s : in_phase m0 s ->
  (exists s', step s s') \/ forall i p, sy_procs s !! i = Some p -> (exists a, p = Done a) \/ exists b q, p = Barrier b q.
Proof.
  intros (Hl & Hh & Hp & _). destruct s as [m h o ps]. cbn in *.
  set (waits := fun p : prog L V A => match p with Done _ | Barrier _ _ => true | _ => false end).
  destruct (decide (Forall (fun p => waits p = true) ps)) as [Hall|[p [(i & Hi)%list_elem_of_lookup Hw]]%not_Forall_Exists%Exists_exists]; [|left|apply _].
  - right. intros i p Hi. eapply Forall_lookup_1 in Hall; [|done]. destruct p; simplify_eq/=; eauto.
  - destruct (Hp _ _ Hi) as (v & _ & Hwp).
    destruct p; cbn in *; try done; eexists; [by eapply step_read|by eapply step_write|by eapply step_print].
Qed.

(** What holds at the end of the phase. *)
Lemma phase_end m0 s i p : in_phase m0 s -> sy_procs s !! i = Some p ->
  (exists a, p = Done a) \/ (exists b q, p = Barrier b q) -> exists v, view i v (sy_mem s) /\ Q i p v.
Proof. intros (_ & _ & Hp & _) Hi Hb. destruct (Hp _ _ Hi) as (v & Hv & Hwp). exists v. split; [done|]. by destruct Hb as [(a & ->)|(b & q & ->)]. Qed.
End Phase.

(** ** A program as a sequence of phases

    Each stage [t] of a program is a phase that begins with a memory that is
    [good t]; where the phase does not end the program, the barriers lead to
    the next stage. *)
Section Stages.
Context {L V : Type} `{Countable L} `{!Inhabited V} {A T : Type}.
Context (R W : T -> nat -> L -> Prop) (Q : T -> nat -> prog L V A -> gmap L V -> Prop).
Context (good : T -> gmap L V -> Prop) (ends : T -> bool) (n : nat).
Hypothesis apart : forall t i j l, (i < n)%nat -> (j < n)%nat -> i <> j -> W t i l -> ~ R t j l /\ ~ W t j l.
Hypothesis together : forall t i p v, (i < n)%nat -> Q t i p v ->
  if ends t then exists a, p = Done a else exists q, p = Barrier 0 q.
Hypothesis advance : forall t m0 m ps, ends t = false -> good t m0 -> length ps = n ->
  (forall l, (forall i, (i < n)%nat -> ~ W t i l) -> m !!! l = m0 !!! l) ->
  (forall i p, ps !! i = Some p -> exists v, view (R t) (W t) i v m /\ Q t i (Barrier 0 p) v) ->
  exists t', good t' m /\ forall i p, ps !! i = Some p -> wp (R t' i) (W t' i) p (Q t' i) m.

Definition staged (s : system L V A) : Prop := exists t m0, good t m0 /\ in_phase (R t) (W t) (Q t) n m0 s.

Lemma stages_start t m o ps : good t m -> length ps = n ->
  (forall i p, ps !! i = Some p -> wp (R t i) (W t i) p (Q t i) m) -> staged (System m ∅ o ps).
Proof. intros Hg Hl Hwp. exists t, m. split; [done|]. by apply phase_start. Qed.

Lemma staged_step s s' : staged s -> step s s' -> staged s'.
Proof.
  intros (t & m0 & Hg & Hph) Hs. destruct (phase_step _ _ _ _ (apart t) m0 s s' Hph Hs) as [Hph'|(b & Hn & Hm & Hh & HF)].
  { by exists t, m0. }
  destruct s as [m h o ps], s' as [m' h' o' ps']. cbn in *. subst m' h'.
  assert (Hat : forall i p, ps' !! i = Some p -> exists v, view (R t) (W t) i v m /\ Q t i (Barrier b p) v).
  { intros i p Hi. destruct (Forall2_lookup_r _ _ _ _ _ HF Hi) as (q & Hq & ->). apply (phase_end _ _ _ _ _ _ i _ Hph Hq). eauto. }
  destruct Hph as (Hl & _ & _ & Hrest). cbn in *. assert (Hl' : length ps' = n) by (by rewrite <- (Forall2_length _ _ _ HF)).
  destruct ps' as [|p0 ps']; [cbn in *; lia|].
  destruct (Hat 0%nat p0 eq_refl) as (v0 & _ & HQ0). apply together in HQ0 as HB; [|lia].
  destruct (ends t) eqn:Ht; [by destruct HB|]. destruct HB as (q & HB). injection HB as -> _.
  destruct (advance t m0 m (p0 :: ps') Ht Hg Hl' Hrest Hat) as (t' & Hg' & Hwp). by apply (stages_start t').
Qed.

Lemma staged_reachable s s' : staged s -> rtc step s s' -> staged s'.
Proof. intros Hs Hr. induction Hr as [|s s1 s' H1 _ IH]; [done|]. apply IH. by eapply staged_step. Qed.

(** In no order do two processes come to use the same place. *)
Lemma staged_no_race s : staged s -> ~ race s.
Proof. intros (t & m0 & _ & Hph). exact (phase_no_race _ _ _ _ (apart t) m0 s Hph). Qed.

(** There is no deadlock: a process goes on, or all have ended, and what the
    last phase establishes holds. *)
Lemma staged_outcome s : n <> 0%nat -> staged s ->
  (exists s', step s s') \/
  exists t m0, ends t = true /\ good t m0 /\ in_phase (R t) (W t) (Q t) n m0 s /\
    forall i p, sy_procs s !! i = Some p ->
      (exists a, p = Done a) /\ exists v, view (R t) (W t) i v (sy_mem s) /\ Q t i p v.
Proof.
  intros Hn (t & m0 & Hg & Hph). destruct (phase_progress _ _ _ _ (apart t) m0 s Hph) as [?|Hb]; [by left|].
  assert (HQ : forall i p, sy_procs s !! i = Some p -> (i < n)%nat /\ exists v, view (R t) (W t) i v (sy_mem s) /\ Q t i p v).
  { intros i p Hi. split; [|exact (phase_end _ _ _ _ _ _ i _ Hph Hi (Hb i p Hi))]. destruct Hph as (<- & _). by eapply lookup_lt_Some. }
  destruct (ends t) eqn:Ht.
  - right. exists t, m0. split_and!; [done..|]. intros i p Hi. destruct (HQ i p Hi) as (Hlt & v & Hv & Hq).
    split; [|by exists v]. apply together in Hq; [|done]. by rewrite Ht in Hq.
  - left. destruct s as [m h o ps]. destruct Hph as (Hl & _ & _). cbn in *.
    assert (HF : exists ps', Forall2 (fun p p' => p = Barrier 0 p') ps ps').
    { assert (Hall : forall p, p ∈ ps -> exists p', p = Barrier 0 p').
      { intros p (i & Hi)%list_elem_of_lookup. destruct (HQ i p Hi) as (Hlt & v & _ & Hq). apply together in Hq; [|done]. by rewrite Ht in Hq. }
      clear -Hall. induction ps as [|p ps IH]; [by exists []|]. destruct (Hall p) as [p' ->]; [left|].
      destruct IH as [ps' ?]; [intros q Hq; apply Hall; by right|]. exists (p' :: ps'). by constructor. }
    destruct HF as [ps' HF]. eexists. apply (step_barrier _ _ _ _ 0 ps'); [by intros ->|done].
Qed.
End Stages.
