(* ===== verification/Shared.v ===== *)
(** * Processes that share memory under locks

    A rule for programs that are not a sequence of phases: an invariant of the
    memory, the locks, the output and a local state of every process, which
    exists only in the proof.  [safe i p t Q] says of process [i] alone that
    each of its operations keeps the invariant, whatever the others have done
    in between, if its own local state is [t]; the rules make that a statement
    about the whole system. *)
From S2P Require Import Prelude Programs.
Local Open Scope Z_scope.

(** The number of processes does not change. *)
Lemma steps_length {L V : Type} `{Countable L} `{!Inhabited V} {A : Type} (s s' : system L V A) :
  rtc step s s' -> length (sy_procs s') = length (sy_procs s).
Proof.
  intros Hr. induction Hr as [|s s1 s' H1 _ IH]; [done|]. rewrite IH. clear IH.
  inversion H1; subst; cbn; rewrite ?length_insert; try done. symmetry. by eapply Forall2_length.
Qed.

Section Shared.
Context {L V : Type} `{Countable L} `{!Inhabited V} {T : Type}.
Context (Inv : gmap L V -> gmap Z nat -> list (list V) -> list T -> Prop).
(** Does a process with this local state hold a lock? *)
Context (holds : T -> bool).
Hypothesis holder : forall m h o ts n i, Inv m h o ts -> h !! n = Some i -> exists t, ts !! i = Some t /\ holds t = true.

Fixpoint safe {A} (i : nat) (p : prog L V A) (t : T) (Q : T -> A -> Prop) : Prop :=
  match p with
  | Done a => Q t a
  | Read l k => forall m h o ts, ts !! i = Some t -> Inv m h o ts ->
      exists t', Inv m h o (<[i := t']> ts) /\ safe i (k (m !!! l)) t' Q
  | Write l v p => forall m h o ts, ts !! i = Some t -> Inv m h o ts ->
      exists t', Inv (<[l := v]> m) h o (<[i := t']> ts) /\ safe i p t' Q
  | Acquire n p => holds t = false /\ forall m h o ts, ts !! i = Some t -> Inv m h o ts -> h !! n = None ->
      exists t', Inv m (<[n := i]> h) o (<[i := t']> ts) /\ safe i p t' Q
  | Release n p => forall m h o ts, ts !! i = Some t -> Inv m h o ts -> h !! n = Some i /\
      exists t', Inv m (delete n h) o (<[i := t']> ts) /\ safe i p t' Q
  | Barrier _ _ => False
  | Print vs p => forall m h o ts, ts !! i = Some t -> Inv m h o ts ->
      exists t', Inv m h (vs :: o) (<[i := t']> ts) /\ safe i p t' Q
  end.

(** ** Rules for the parts of a process *)
Lemma safe_mono {A} i (p : prog L V A) t (Q Q' : T -> A -> Prop) :
  safe i p t Q -> (forall t' a, Q t' a -> Q' t' a) -> safe i p t Q'.
Proof.
  intros Hp HQ. revert t Hp. induction p as [a|l k IH|l v p IH|n p IH|n p IH|b p IH|vs p IH]; intros t Hp; cbn [safe] in *; auto.
  - intros m h o ts Ht HI. destruct (Hp m h o ts Ht HI) as (t' & ? & ?). eauto.
  - intros m h o ts Ht HI. destruct (Hp m h o ts Ht HI) as (t' & ? & ?). eauto.
  - destruct Hp as [Hh Hp]. split; [done|]. intros m h o ts Ht HI Hn. destruct (Hp m h o ts Ht HI Hn) as (t' & ? & ?). eauto.
  - intros m h o ts Ht HI. destruct (Hp m h o ts Ht HI) as (Hn & t' & ? & ?). eauto.
  - intros m h o ts Ht HI. destruct (Hp m h o ts Ht HI) as (t' & ? & ?). eauto.
Qed.

Lemma safe_bind {A B} i (p : prog L V A) (f : A -> prog L V B) t Q :
  safe i p t (fun t' a => safe i (f a) t' Q) -> safe i (p ≫= f) t Q.
Proof.
  revert t. induction p as [a|l k IH|l v p IH|n p IH|n p IH|b p IH|vs p IH]; intros t Hp; cbn [safe mbind prog_bind] in *; auto.
  - intros m h o ts Ht HI. destruct (Hp m h o ts Ht HI) as (t' & ? & ?). eexists. split; [done|]. by apply IH.
  - intros m h o ts Ht HI. destruct (Hp m h o ts Ht HI) as (t' & ? & ?). eexists. split; [done|]. by apply IH.
  - destruct Hp as [Hh Hp]. split; [done|]. intros m h o ts Ht HI Hn. destruct (Hp m h o ts Ht HI Hn) as (t' & ? & ?). eexists. split; [done|]. by apply IH.
  - intros m h o ts Ht HI. destruct (Hp m h o ts Ht HI) as (Hn & t' & ? & ?). split; [done|]. eexists. split; [done|]. by apply IH.
  - intros m h o ts Ht HI. destruct (Hp m h o ts Ht HI) as (t' & ? & ?). eexists. split; [done|]. by apply IH.
Qed.

(** A read after which the process knows nothing it did not know before. *)
Lemma safe_read {A} i l (k : V -> prog L V A) t Q :
  (forall m h o ts, ts !! i = Some t -> Inv m h o ts -> safe i (k (m !!! l)) t Q) -> safe i (Read l k) t Q.
Proof. intros Hk m h o ts Ht HI. exists t. split; [by rewrite list_insert_id|]. by eapply Hk. Qed.

(** ** Systems *)
Context {A : Type} (Q : T -> A -> Prop).
Hypothesis ended : forall t a, Q t a -> holds t = false.

Definition all_safe (s : system L V A) : Prop := exists ts, length ts = length (sy_procs s) /\
  Inv (sy_mem s) (sy_held s) (sy_out s) ts /\
  forall i p t, sy_procs s !! i = Some p -> ts !! i = Some t -> safe i p t Q.

(** One process has made a step. *)
Lemma all_safe_one m h o (ps : list (prog L V A)) ts i p t' :
  length ts = length ps -> (forall j q t, ps !! j = Some q -> ts !! j = Some t -> safe j q t Q) ->
  Inv m h o (<[i := t']> ts) -> safe i p t' Q -> all_safe (System m h o (<[i := p]> ps)).
Proof.
  intros Hl Hs HI Hp. exists (<[i := t']> ts). cbn. rewrite !length_insert. split_and!; [done..|].
  intros j q t Hj Ht. apply list_lookup_insert_Some in Hj as [(-> & -> & Hlt)|[Hne Hj]].
  - rewrite list_lookup_insert_eq in Ht by lia. by injection Ht as <-.
  - rewrite list_lookup_insert_ne in Ht by done. by eapply Hs.
Qed.

Lemma all_safe_step s s' : all_safe s -> step s s' -> all_safe s'.
Proof.
  intros (ts & Hl & HI & Hs) Hst.
  assert (Hat : forall ps i p, ps = sy_procs s -> ps !! i = Some p -> exists t, ts !! i = Some t /\ safe i p t Q).
  { intros ps i p -> Hi. destruct (lookup_lt_is_Some_2 ts i) as [t Ht]; [rewrite Hl; by eapply lookup_lt_Some|]. eauto. }
  destruct Hst as [m h o ps i l k Hi|m h o ps i l v p Hi|m h o ps i n p Hi Hn|m h o ps i n p Hi Hn|m h o ps b ps' Hne HF|m h o ps i vs p Hi]; cbn in *.
  5:{ destruct ps as [|p ps]; [done|]. destruct (Hat (p :: ps) 0%nat p eq_refl eq_refl) as (t & _ & Ht).
      apply Forall2_cons_inv_l in HF as (p' & ps1 & -> & _ & _). done. }
  all: destruct (Hat ps i _ eq_refl Hi) as (t & Ht & Hsafe); cbn [safe] in Hsafe.
  - destruct (Hsafe m h o ts Ht HI) as (t' & HI' & Hs'). by eapply all_safe_one.
  - destruct (Hsafe m h o ts Ht HI) as (t' & HI' & Hs'). by eapply all_safe_one.
  - destruct Hsafe as [_ Hsafe]. destruct (Hsafe m h o ts Ht HI Hn) as (t' & HI' & Hs'). by eapply all_safe_one.
  - destruct (Hsafe m h o ts Ht HI) as (_ & t' & HI' & Hs'). by eapply all_safe_one.
  - destruct (Hsafe m h o ts Ht HI) as (t' & HI' & Hs'). by eapply all_safe_one.
Qed.

Lemma all_safe_reachable s s' : all_safe s -> rtc step s s' -> all_safe s'.
Proof. intros Hs Hr. induction Hr as [|s s1 s' H1 _ IH]; [done|]. apply IH. by eapply all_safe_step. Qed.

(** A process that has not ended can go on, or waits for a lock; and the one
    that holds it does neither. *)
Lemma all_safe_goes s ts i p t : length ts = length (sy_procs s) -> Inv (sy_mem s) (sy_held s) (sy_out s) ts ->
  (forall i p t, sy_procs s !! i = Some p -> ts !! i = Some t -> safe i p t Q) ->
  sy_procs s !! i = Some p -> ts !! i = Some t ->
  (exists s', step s s') \/ holds t = false /\ ((exists a, p = Done a) \/ exists n q, p = Acquire n q).
Proof.
  intros Hl HI Hs Hi Ht. pose proof (Hs i p t Hi Ht) as Hp. destruct s as [m h o ps]. cbn in *.
  destruct p as [a|l k|l v p|n p|n p|b p|vs p]; cbn in Hp.
  - right. split; [by eapply ended|]. left. eauto.
  - left. eexists. by eapply step_read.
  - left. eexists. by eapply step_write.
  - right. destruct Hp as [Hh _]. split; [done|]. right. eauto.
  - left. destruct (Hp m h o ts Ht HI) as [Hn _]. eexists. by eapply step_release.
  - done.
  - left. eexists. by eapply step_print.
Qed.

(** There is no deadlock. *)
Lemma all_safe_progress s : all_safe s ->
  (exists s', step s s') \/ exists ts, length ts = length (sy_procs s) /\ Inv (sy_mem s) (sy_held s) (sy_out s) ts /\
    forall i p t, sy_procs s !! i = Some p -> ts !! i = Some t -> exists a, p = Done a /\ Q t a.
Proof.
  intros (ts & Hl & HI & Hs).
  assert (Hat : forall i p, sy_procs s !! i = Some p -> exists t, ts !! i = Some t).
  { intros i p Hi. apply lookup_lt_is_Some_2. rewrite Hl. by eapply lookup_lt_Some. }
  set (is_done := fun p : prog L V A => match p with Done _ => true | _ => false end).
  destruct (decide (Forall (fun p => is_done p = true) (sy_procs s))) as [Hall|[p [Hin Hp]]%not_Forall_Exists%Exists_exists]; [| |apply _].
  - right. exists ts. split_and!; [done..|]. intros i p t Hi Ht. pose proof (Forall_lookup_1 _ _ _ _ Hall Hi) as Hd.
    pose proof (Hs i p t Hi Ht) as Hq. destruct p; try done. eauto.
  - left. apply list_elem_of_lookup in Hin as [i Hi]. destruct (Hat i p Hi) as [t Ht].
    destruct (all_safe_goes s ts i p t Hl HI Hs Hi Ht) as [?|[_ [(a & ->)|(n & q & ->)]]]; [done|by destruct Hp|].
    destruct (sy_held s !! n) as [j|] eqn:Hn.
    + destruct (holder _ _ _ _ n j HI Hn) as (u & Hu & Hheld).
      destruct (lookup_lt_is_Some_2 (sy_procs s) j) as [r Hr]; [rewrite <- Hl; by eapply lookup_lt_Some|].
      destruct (all_safe_goes s ts j r u Hl HI Hs Hr Hu) as [?|[Hno _]]; [done|congruence].
    + destruct s as [m h o ps]. cbn in *. eexists. by eapply step_acquire.
Qed.
End Shared.
