(* ===== verification/RayHeap.v ===== *)
(** * The heap of the ray tracer ([src/Tmk/apps/raytrace_c/src/MEMORY.C])

    One piece of shared memory, cut into nodes, each with a header of four
    words; the free nodes are linked in the order of their addresses, and a
    node that is freed is put together with free neighbours.  The memory is
    modelled word by word, with the headers where they are.  Every operation
    but the first holds lock 0, so that one process at a time is modelled. *)
From S2P Require Import Prelude.
Local Open Scope list_scope.
Local Open Scope Z_scope.

Definition CKSM : Z := 1437226410.
Definition nodesize : Z := 16.
Definition THRESHOLD : Z := nodesize + 16.
Definition ROUND_UP (x : Z) : Z := u32 (Z.shiftl (Z.shiftr (u32 (x + 7)) 3) 3).
Definition NODE_ADD (x y : Z) : Z := u32 (x + y).

(** The shared words by address, and the variables. *)
Record arena : Type := Arena { words : gmap Z Z; freelist : Z; begmem : Z; endmem : Z }.

Abbreviation MH := (M arena).

(** Words of the heap; what is outside it is not its own. *)
Definition inside (h : arena) (a : Z) : bool := (begmem h <=? a) && (a <? endmem h).
Definition peek (a : Z) : MH Z := fun h => if inside h a then Ok (words h !!! a, h) else Undef.
Definition poke (a v : Z) : MH unit := fun h =>
  if inside h a then Ok (tt, Arena (<[a := v]> (words h)) (freelist h) (begmem h) (endmem h)) else Undef.
Definition set_freelist (v : Z) : MH unit := modify (fun h => Arena (words h) v (begmem h) (endmem h)).

(** The fields of a [NODE]. *)
Definition get_next (a : Z) : MH Z := peek a.
Definition get_size (a : Z) : MH Z := peek (a + 4).
Definition get_free (a : Z) : MH Z := peek (a + 8).
Definition get_cksm (a : Z) : MH Z := peek (a + 12).
Definition set_next (a v : Z) : MH unit := poke a v.
Definition set_size (a v : Z) : MH unit := poke (a + 4) v.
Definition set_free (a v : Z) : MH unit := poke (a + 8) v.
Definition set_cksm (a v : Z) : MH unit := poke (a + 12) v.

Definition TRUE : Z := 1.
Definition FALSE : Z := 0.

Definition check_cksm (a : Z) (why : string) : MH unit :=
  c ← get_cksm a; if c =? CKSM then skip else exit_with why.

(** As many turns as nodes fit into the heap. *)
Definition node_turns (h : arena) : nat := S (Z.to_nat ((endmem h - begmem h) `div` nodesize)).

(** ** [GlobalHeapInit] *)

(** [ptr]: what [Tmk_malloc] returns. *)
Definition GlobalHeapInit (ptr size : Z) : MH unit :=
  let size := ROUND_UP size in
  if ptr =? 0 then exit_with "Tmk_exit"
  else
    modify (fun h => Arena (words h) ptr ptr (NODE_ADD ptr size));;
    set_size ptr (u32 (size - nodesize));;
    set_next ptr 0;;
    set_free ptr TRUE;;
    set_cksm ptr CKSM.

(** ** [GlobalMalloc] *)

(** First fit: the node before the one that is found, and that one, or 0. *)
Fixpoint find_fit (fuel : nat) (size prev curr : Z) : MH (Z * Z) :=
  if curr =? 0 then mret (prev, curr)
  else
    s ← get_size curr;
    if s <? size then
      check_cksm curr "GlobalMalloc: Invalid checksum in node.";;
      f ← get_free curr;
      if negb (f =? TRUE) then exit_with "GlobalMalloc: Node in free list not marked as free."
      else n ← get_next curr; match fuel with O => block | S fuel' => find_fit fuel' size curr n end
    else mret (prev, curr).

(** What follows [curr] in the list when it has been taken: the rest of it, if
    that is large enough, or the next one. *)
Definition cut_node (curr size : Z) : MH Z :=
  s ← get_size curr;
  if THRESHOLD <? u32 (s - size) then
    let next := NODE_ADD curr (u32 (nodesize + size)) in
    s ← get_size curr;
    set_size next (u32 (u32 (s - nodesize) - size));;
    n ← get_next curr;
    set_next next n;;
    set_free next TRUE;;
    set_cksm next CKSM;;
    set_size curr size;;
    mret next
  else get_next curr.

Definition set_after (prev v : Z) : MH unit := if prev =? 0 then set_freelist v else set_next prev v.

(** [GlobalMallocSec] is the same without the lock. *)
Definition GlobalMalloc (size : Z) : MH Z :=
  if size =? 0 then mret 0
  else
    h ← get;
    let size := ROUND_UP size in
    '(prev, curr) ← find_fit (node_turns h) size 0 (freelist h);
    if curr =? 0 then exit_with "cannot allocate global memory."
    else
      next ← cut_node curr size;
      set_after prev next;;
      set_next curr 0;;
      set_free curr FALSE;;
      mret (NODE_ADD curr nodesize).

(** ** [GlobalFree] *)

(** The last free node before [pn], and whether it ends at [pn]. *)
Fixpoint find_prev (fuel : nat) (pn prev : Z) (pcom : bool) (curr : Z) : MH (Z * bool) :=
  h ← get;
  if (curr <? pn) && (curr <? endmem h) then
    check_cksm curr "GlobalFree: Invalid checksum in previous node.";;
    f ← get_free curr;
    s ← get_size curr;
    let '(prev, pcom) := if negb (f =? 0) then (curr, true) else (prev, false) in
    match fuel with O => block | S fuel' => find_prev fuel' pn prev pcom (NODE_ADD curr (u32 (s + nodesize))) end
  else if endmem h <=? curr then exit_with "GlobalFree: Search for previous block fell off end of memory."
  else mret (prev, pcom).

(** The first free node from [curr] on, and whether nothing is in between. *)
Fixpoint find_next (fuel : nat) (ncom : bool) (curr : Z) : MH (Z * bool) :=
  h ← get;
  if curr <? endmem h then
    check_cksm curr "GlobalFree: Invalid checksum in next node.";;
    f ← get_free curr;
    s ← get_size curr;
    if negb (f =? 0) then mret (curr, ncom)
    else match fuel with O => block | S fuel' => find_next fuel' false (NODE_ADD curr (u32 (s + nodesize))) end
  else mret (0, false).

(** The combinations, in their order. *)
Definition combine (prev curr next : Z) (pcom ncom : bool) : MH unit :=
  let has_next := negb (next =? 0) in
  let has_prev := negb (prev =? 0) in
  if has_next && negb ncom && pcom then
    set_next prev next;;
    p ← get_size prev; c ← get_size curr;
    set_size prev (u32 (p + u32 (c + nodesize)))
  else if has_next && negb ncom && has_prev && negb pcom then
    set_next prev curr;;
    set_next curr next
  else if has_next && negb ncom && negb has_prev then
    set_freelist curr;;
    set_next curr next
  else if ncom && pcom then
    n ← get_next next;
    set_next prev n;;
    p ← get_size prev; c ← get_size curr; s ← get_size next;
    set_size prev (u32 (p + u32 (u32 (c + s) + 2 * nodesize)))
  else if ncom && has_prev && negb pcom then
    set_next prev curr;;
    n ← get_next next;
    set_next curr n;;
    c ← get_size curr; s ← get_size next;
    set_size curr (u32 (c + u32 (s + nodesize)))
  else if ncom && negb has_prev then
    set_freelist curr;;
    n ← get_next next;
    set_next curr n;;
    c ← get_size curr; s ← get_size next;
    set_size curr (u32 (c + u32 (s + nodesize)))
  else if negb has_next && pcom then
    set_next prev 0;;
    p ← get_size prev; c ← get_size curr;
    set_size prev (u32 (p + u32 (c + nodesize)))
  else if negb has_next && has_prev && negb pcom then
    set_next prev curr;;
    set_next curr 0
  else if negb has_next && negb has_prev then
    set_freelist curr;;
    set_next curr 0
  else skip.

Definition GlobalFree (p : Z) : MH unit :=
  h ← get;
  if begmem h =? 0 then skip
  else
    let pn := NODE_ADD p (- nodesize) in
    check_cksm pn "GlobalFree: Attempted to free node with invalid checksum.";;
    f ← get_free pn;
    if negb (f =? 0) then exit_with "GlobalFree: Attempted to free unallocated node."
    else
      '(prev, pcom) ← (if freelist h =? 0 then mret (0, false) else find_prev (node_turns h) pn 0 false (freelist h));
      s ← get_size pn;
      '(next, ncom) ← find_next (node_turns h) true (NODE_ADD pn (u32 (s + nodesize)));
      set_free pn TRUE;;
      combine prev pn next pcom ncom.

(** ** [GlobalRealloc] *)

(** The free node before [next] in the list, and where the search stops. *)
Fixpoint find_node (fuel : nat) (next prev curr : Z) : MH (Z * Z) :=
  h ← get;
  if negb (curr =? 0) && (curr <? next) && (curr <? endmem h) then
    n ← get_next curr;
    match fuel with O => block | S fuel' => find_node fuel' next curr n end
  else mret (prev, curr).

(** Growing into the free node behind; true if that was possible. *)
Definition grow (p pn newsize oldsize : Z) : MH bool :=
  h ← get;
  let next := NODE_ADD p oldsize in
  s ← get_size next;
  let totsize := u32 (u32 (oldsize + nodesize) + s) in
  f ← (if next <? endmem h then get_free next else mret 0);
  if (next <? endmem h) && negb (f =? 0) && (newsize <=? totsize) then
    '(prev, curr) ← find_node (node_turns h) next 0 (freelist h);
    if negb (curr =? next) then exit_with "GlobalRealloc: Could not find next node in free list."
    else if u32 (totsize - newsize) <? THRESHOLD then
      n ← get_next next;
      set_after prev n;;
      set_next next 0;;
      set_free next FALSE;;
      set_size pn totsize;;
      mret true
    else
      let node := NODE_ADD p newsize in
      n ← get_next next;
      set_next node n;;
      set_size node (u32 (u32 (totsize - nodesize) - newsize));;
      set_free node TRUE;;
      set_cksm node CKSM;;
      set_after prev node;;
      set_next next 0;;
      set_free next FALSE;;
      set_size pn newsize;;
      mret true
  else mret false.

Definition copy_words (q p : Z) (k : Z) : MH unit :=
  for_each (fun i => v ← peek (p + 4 * i); poke (q + 4 * i) v) (seqZ 0 k).

Definition GlobalRealloc (p size : Z) : MH Z :=
  if size =? 0 then GlobalFree p;; mret 0
  else if p =? 0 then GlobalMalloc size
  else
    let pn := NODE_ADD p (- nodesize) in
    check_cksm pn "GlobalRealloc: Attempted to realloc node with invalid checksum.";;
    f ← get_free pn;
    if negb (f =? 0) then exit_with "GlobalRealloc: Attempted to realloc an unallocated node."
    else
      let newsize := ROUND_UP size in
      oldsize ← get_size pn;
      if newsize <=? oldsize then
        if u32 (oldsize - newsize) <? THRESHOLD then mret p
        else
          set_size pn newsize;;
          let next := NODE_ADD p newsize in
          set_size next (u32 (u32 (oldsize - nodesize) - newsize));;
          set_next next 0;;
          set_free next FALSE;;
          set_cksm next CKSM;;
          GlobalFree (NODE_ADD next nodesize);;
          mret p
      else
        flag ← grow p pn newsize oldsize;
        if flag : bool then mret p
        else
          q ← GlobalMalloc newsize;
          if q =? 0 then mret 0
          else
            copy_words q p (Z.shiftr oldsize 2);;
            GlobalFree p;;
            mret q.

(** ** [GlobalCalloc] *)
Definition zero_words (p k : Z) : MH unit := for_each (fun i => poke (p + 4 * i) 0) (seqZ 0 k).

Definition GlobalCalloc (n size : Z) : MH Z :=
  let nbytes := ROUND_UP (u32 (n * size)) in
  p ← GlobalMalloc nbytes;
  zero_words p (Z.shiftr nbytes 2);;
  mret p.

(** ** What is available *)
Fixpoint over_free (f : Z -> Z -> Z) (fuel : nat) (acc curr : Z) : MH Z :=
  if curr =? 0 then mret acc
  else
    s ← get_size curr;
    n ← get_next curr;
    match fuel with O => block | S fuel' => over_free f fuel' (f acc s) n end.

Definition ROUND_DN (x : Z) : Z := Z.land x 4294967288.

Definition GlobalMemAvl : MH Z :=
  h ← get;
  total ← over_free (fun total s => u32 (total + s)) (node_turns h) 0 (freelist h);
  mret (ROUND_DN total).

Definition GlobalMemMax : MH Z :=
  h ← get;
  max ← over_free (fun max s => if max <? s then s else max) (node_turns h) 0 (freelist h);
  mret (ROUND_DN max).

Definition no_arena : arena := Arena ∅ 0 0 0.

(** Three pieces, of which the middle one is freed, and then the rest. *)
Example three_pieces :
  match (GlobalHeapInit 4096 400;; a ← GlobalMalloc 36; b ← GlobalMalloc 40; c ← GlobalMalloc 41; m1 ← GlobalMemAvl;
         GlobalFree b;; m2 ← GlobalMemAvl; d ← GlobalMalloc 24; GlobalFree c;; GlobalFree a;; GlobalFree d;; m3 ← GlobalMemAvl;
         mret [a; b; c; d; m1; m2; m3]) no_arena with
  | Ok (l, h) => (l, freelist h)
  | _ => ([], 0)
  end = ([4112; 4168; 4224; 4168; 208; 248; 384], 4096).
Proof. vm_compute. reflexivity. Qed.

(** Growing a piece by one step into a larger free node writes over the new
    link: the rest of the free list is lost. *)
Example realloc_loses :
  match (GlobalHeapInit 4096 400;; a ← GlobalMalloc 40; b ← GlobalMalloc 40; c ← GlobalMalloc 40; GlobalFree b;; m1 ← GlobalMemAvl;
         p ← GlobalRealloc a 48; m2 ← GlobalMemAvl; mret [a; p; m1; m2]) no_arena with
  | Ok (l, _) => l
  | _ => []
  end = [4112; 4112; 256; 32].
Proof. vm_compute. reflexivity. Qed.

(** A product that does not fit in 32 bits: 65537 elements of 65536 bytes get
    a piece of 65536 bytes. *)
Example calloc_wraps :
  match (GlobalHeapInit 4096 70000;; a ← GlobalCalloc 65537 65536; s ← get_size (a - nodesize); mret [a; s]) no_arena with
  | Ok (l, _) => l
  | _ => []
  end = [4112; 65536].
Proof. vm_compute. reflexivity. Qed.

(** ** Nodes *)
Record nd : Type := Nd { na : Z; nsz : Z; nfr : bool }.

Definition frees (ns : list nd) : list nd := List.filter nfr ns.

(** The nodes lie one behind the other from [a] to [e]. *)
Fixpoint tiles (a e : Z) (ns : list nd) : Prop :=
  match ns with [] => a = e | n :: ns' => na n = a /\ 0 <= nsz n /\ nsz n `mod` 8 = 0 /\ tiles (a + 16 + nsz n) e ns' end.

Definition head_ok (w : gmap Z Z) (n : nd) : Prop :=
  w !!! (na n + 4) = nsz n /\ w !!! (na n + 8) = (if nfr n then TRUE else FALSE) /\ w !!! (na n + 12) = CKSM.

(** The links lead from [f] through [ns] to [e]. *)
Fixpoint seg (w : gmap Z Z) (f : Z) (ns : list nd) (e : Z) : Prop :=
  match ns with [] => f = e | n :: ns' => f = na n /\ seg w (w !!! na n) ns' e end.

(** No two free nodes are next to each other. *)
Fixpoint coalesced (ns : list nd) : Prop :=
  match ns with
  | n :: ns' => (nfr n = true -> match ns' with m :: _ => nfr m = false | [] => True end) /\ coalesced ns'
  | [] => True
  end.

Record wf (h : arena) (ns : list nd) : Prop := {
  wf_range : 0 < begmem h /\ endmem h < 4294967296;
  wf_tiles : tiles (begmem h) (endmem h) ns;
  wf_heads n : n ∈ ns -> head_ok (words h) n;
  wf_links : seg (words h) (freelist h) (frees ns) 0;
  wf_coalesced : coalesced ns;
  wf_some : begmem h + 16 <= endmem h
}.

Lemma tiles_app l r : forall a e, tiles a e (l ++ r) <-> exists m, tiles a m l /\ tiles m e r.
Proof.
  induction l as [|n l IH]; intros a e; cbn; [naive_solver|]. rewrite IH. naive_solver.
Qed.

Lemma tiles_le a e ns : tiles a e ns -> a <= e.
Proof.
  revert a. induction ns as [|n ns IH]; intros a; cbn; [lia|]. intros (_ & Hs & _ & Ht). apply IH in Ht. lia.
Qed.

Lemma tiles_elem ns : forall a e n, tiles a e ns -> n ∈ ns -> a <= na n /\ 0 <= nsz n /\ na n + 16 + nsz n <= e /\ na n `mod` 8 = a `mod` 8.
Proof.
  induction ns as [|m ns IH]; intros a e n; cbn; [by intros _ ?%elem_of_nil|]. intros (Hm & Hs & Hmod & Ht) [->|Hin]%elem_of_cons.
  - apply tiles_le in Ht. rewrite Hm. split_and!; [lia..|done].
  - destruct (IH _ _ _ Ht Hin) as (H1 & H2 & H3 & H4). split_and!; [lia..|]. rewrite H4.
    rewrite <- Z.add_mod_idemp_r, Hmod, Z.add_0_r by done. by rewrite <- Z.add_mod_idemp_r, Z.add_0_r.
Qed.

Lemma tiles_length ns : forall a e, tiles a e ns -> 16 * Z.of_nat (length ns) <= e - a.
Proof.
  induction ns as [|n ns IH]; intros a e; cbn [tiles length]; [lia|]. intros (_ & ? & _ & Ht). apply IH in Ht. lia.
Qed.

Lemma links_app w l r : forall f e, seg w f (l ++ r) e <-> exists m, seg w f l m /\ seg w m r e.
Proof. induction l as [|n l IH]; intros f e; cbn; [naive_solver|]. rewrite IH. naive_solver. Qed.

Lemma seg_same w w' ns : forall f e, (forall n, n ∈ ns -> w' !!! na n = w !!! na n) -> seg w f ns e -> seg w' f ns e.
Proof.
  induction ns as [|n ns IH]; intros f e Hs; cbn; [done|]. intros [-> H]. split; [done|]. rewrite Hs by left.
  apply IH; [|done]. intros m Hm. apply Hs. by right.
Qed.

Lemma frees_app l r : frees (l ++ r) = frees l ++ frees r.
Proof. apply List.filter_app. Qed.

Lemma elem_of_frees n ns : n ∈ frees ns <-> n ∈ ns /\ nfr n = true.
Proof. unfold frees. by rewrite !list_elem_of_In, filter_In. Qed.

(** A free node, among all nodes. *)
Lemma frees_split ns : forall l n r, frees ns = l ++ n :: r -> exists l' r', ns = l' ++ n :: r' /\ frees l' = l /\ frees r' = r /\ nfr n = true.
Proof.
  induction ns as [|m ns IH]; intros l n r E; cbn in E; [by destruct l|]. destruct (nfr m) eqn:Em.
  - destruct l as [|x l]; injection E as -> E.
    + exists [], ns. split_and!; [done|done|exact E|done].
    + destruct (IH l n r E) as (l' & r' & -> & <- & <- & Hn). exists (x :: l'), r'. cbn. by rewrite Em.
  - destruct (IH l n r E) as (l' & r' & -> & <- & <- & Hn). exists (m :: l'), r'. cbn. by rewrite Em.
Qed.

(** The address of the last node. *)
Definition lastaddr (prev : Z) (l : list nd) : Z := foldl (fun _ n => na n) prev l.

Lemma lastaddr_in prev l : lastaddr prev l = prev /\ l = [] \/ exists n, n ∈ l /\ lastaddr prev l = na n.
Proof.
  destruct l as [|n l] using rev_ind; [by left|]. right. exists n. unfold lastaddr. rewrite foldl_app. split; [|done]. apply elem_of_app. right. left.
Qed.

(** ** Running the operations *)
Lemma peek_bind {A} a (f : Z -> MH A) h : inside h a = true -> (peek a ≫= f) h = f (words h !!! a) h.
Proof. intros E. unfold mbind, M_bind, peek. by rewrite E. Qed.

Lemma poke_run a v h : inside h a = true -> poke a v h = Ok (tt, Arena (<[a := v]> (words h)) (freelist h) (begmem h) (endmem h)).
Proof. intros E. unfold poke. by rewrite E. Qed.

Lemma poke_bind {A} a v (f : unit -> MH A) h : inside h a = true ->
  (poke a v ≫= f) h = f tt (Arena (<[a := v]> (words h)) (freelist h) (begmem h) (endmem h)).
Proof. intros E. apply bind_Ok. by apply poke_run. Qed.

Lemma inside_range h a : begmem h <= a < endmem h -> inside h a = true.
Proof. unfold inside. lia. Qed.

Lemma cksm_bind {A} a why (f : unit -> MH A) h : inside h (a + 12) = true -> words h !!! (a + 12) = CKSM -> (check_cksm a why ≫= f) h = f tt h.
Proof.
  intros Hi E. apply bind_Ok. unfold check_cksm, get_cksm. rewrite peek_bind by done. by rewrite E, Z.eqb_refl.
Qed.

(** The words of a node that lies in the heap. *)
Definition within (h : arena) (n : nd) : Prop := begmem h <= na n /\ na n + 16 <= endmem h.

Lemma wf_within h ns n : wf h ns -> n ∈ ns -> within h n.
Proof. intros Hw Hn. destruct (tiles_elem _ _ _ _ (wf_tiles _ _ Hw) Hn) as (? & ? & ? & _). split; lia. Qed.

(** ** [GlobalMalloc] *)
Lemma find_fit_run h size : forall fs fuel prev curr, (forall n, n ∈ fs -> within h n /\ na n <> 0 /\ head_ok (words h) n /\ nfr n = true) ->
  seg (words h) curr fs 0 -> (length fs <= fuel)%nat ->
  (Forall (fun n => nsz n < size) fs /\ find_fit fuel size prev curr h = Ok ((lastaddr prev fs, 0), h)) \/
  exists l n r, fs = l ++ n :: r /\ Forall (fun n => nsz n < size) l /\ size <= nsz n /\
    find_fit fuel size prev curr h = Ok ((lastaddr prev l, na n), h).
Proof.
  induction fs as [|n fs IH]; intros fuel prev curr Hall Hseg Hf; cbn in Hseg.
  { left. split; [done|]. subst. by destruct fuel. }
  destruct Hseg as [-> Hseg]. destruct (Hall n ltac:(left)) as ([Hw1 Hw2] & Hne & (Hs & Hfr & Hc) & Hfree). rewrite Hfree in Hfr.
  assert (Hrun : forall fuel, find_fit fuel size prev (na n) h =
    if nsz n <? size then match fuel with O => Block | S fuel' => find_fit fuel' size (na n) (words h !!! na n) h end else Ok ((prev, na n), h)).
  { intros fuel'. destruct fuel'; cbn [find_fit]; rewrite (proj2 (Z.eqb_neq _ 0) Hne); unfold get_size; rewrite peek_bind, Hs by (apply inside_range; lia);
      (destruct (nsz n <? size); [|done]); rewrite cksm_bind by (apply inside_range || done; lia); unfold get_free, get_next;
      rewrite peek_bind, Hfr by (apply inside_range; lia); cbn [negb Z.eqb TRUE Pos.eqb]; by rewrite peek_bind by (apply inside_range; lia). }
  rewrite Hrun. destruct (Z.ltb_spec (nsz n) size) as [Hlt|Hge].
  - destruct fuel as [|fuel]; [cbn in Hf; lia|]. destruct (IH fuel (na n) (words h !!! na n)) as [[HF R]|(l & m & r & -> & HF & Hm & R)];
      [intros m Hm; apply Hall; by right|done|cbn in Hf; lia|left; split; [by constructor|done]|].
    right. exists (n :: l), m, r. split_and!; [done|by constructor|done|done].
  - right. exists [], n, fs. by split_and!.
Qed.

Lemma links_last w l : forall f e v, seg w f l e -> l <> [] -> NoDup (na <$> l) ->
  seg (<[lastaddr 0 l := v]> w) f l v.
Proof.
  induction l as [|n l IH] using rev_ind; intros f e v Hs Hne Hnd; [done|]. clear IH Hne.
  unfold lastaddr. rewrite foldl_app. cbn. rewrite fmap_app in Hnd. apply NoDup_app in Hnd as (_ & Hnd & _).
  apply links_app in Hs as (m & H1 & H2). cbn in H2. destruct H2 as [-> _]. apply links_app. exists (na n). split.
  - eapply seg_same; [|exact H1]. intros x Hx. rewrite lookup_total_insert_ne; [done|]. intros E. apply (Hnd (na x)); [by apply list_elem_of_fmap_2|].
    rewrite <- E. left.
  - cbn. split; [done|]. by rewrite lookup_total_insert_eq.
Qed.

Lemma tiles_NoDup ns : forall a e, tiles a e ns -> NoDup (na <$> ns).
Proof.
  induction ns as [|n ns IH]; intros a e; [by constructor|]. intros Ht. pose proof Ht as (Hn & Hs & _ & Ht'). rewrite fmap_cons. constructor; [|by eapply IH].
  intros (m & E & Hm)%list_elem_of_fmap. destruct (tiles_elem _ _ _ _ Ht' Hm) as (H1 & _). lia.
Qed.

Lemma frees_NoDup ns : NoDup (na <$> ns) -> NoDup (na <$> frees ns).
Proof.
  induction ns as [|n ns IH]; [done|]. rewrite fmap_cons. intros [Hn Hnd]%NoDup_cons. cbn. destruct (nfr n); [|by apply IH].
  rewrite fmap_cons. constructor; [|by apply IH]. intros (m & E & Hm)%list_elem_of_fmap. apply Hn. rewrite E. apply list_elem_of_fmap_2.
  by apply elem_of_frees in Hm as [Hm _].
Qed.

(** The link that leads to the node after [l]. *)
Lemma set_after_run h l e v : seg (words h) (freelist h) l e -> NoDup (na <$> l) -> (forall n, n ∈ l -> within h n /\ na n <> 0) ->
  exists w f, set_after (lastaddr 0 l) v h = Ok (tt, Arena w f (begmem h) (endmem h)) /\ seg w f l v /\
    forall x, (forall n, n ∈ l -> x <> na n) -> w !!! x = words h !!! x.
Proof.
  intros Hs Hnd Hall. unfold set_after. destruct (lastaddr_in 0 l) as [[E ->]|(n & Hn & E)].
  - rewrite E. exists (words h), v. cbn. by split_and!.
  - destruct (Hall n Hn) as [[H1 H2] Hne]. rewrite E, (proj2 (Z.eqb_neq _ 0) Hne). eexists _, _. unfold set_next.
    rewrite poke_run by (apply inside_range; lia). split_and!; [done| |].
    + rewrite <- E. eapply links_last; [done| |done]. intros ->. by apply elem_of_nil in Hn.
    + intros x Hx. apply lookup_total_insert_ne. intros <-. by apply (Hx n).
Qed.

(** The size of a request. *)
Definition rounded (size : Z) : Z := 8 * ((size + 7) `div` 8).

Lemma ROUND_UP_small size : 0 <= size -> size + 7 < 4294967296 -> ROUND_UP size = rounded size.
Proof.
  intros H0 H1. unfold ROUND_UP, rounded. rewrite (u32_small (size + 7)) by (unfold is_u32; lia).
  rewrite Z.shiftr_div_pow2, Z.shiftl_mul_pow2 by lia. change (2 ^ 3) with 8.
  pose proof (Z.mul_div_le (size + 7) 8 ltac:(lia)). pose proof (Z.div_pos (size + 7) 8 ltac:(lia) ltac:(lia)).
  rewrite u32_small by (unfold is_u32; lia). lia.
Qed.

Lemma rounded_spec size : 0 < size -> size <= rounded size /\ rounded size < size + 8 /\ 8 <= rounded size /\ rounded size `mod` 8 = 0.
Proof.
  intros H. unfold rounded. pose proof (Z.div_mod (size + 7) 8 ltac:(lia)). pose proof (Z.mod_pos_bound (size + 7) 8 ltac:(lia)).
  split_and!; [lia..|]. rewrite Z.mul_comm. by apply Z.mod_mul.
Qed.

(** A heap whose nodes are [l ++ ms ++ r] after the words of [ms] have been
    written. *)
Lemma wf_rebuild h l ms0 ms r w f : wf h (l ++ ms0 ++ r) ->
  (forall a e, tiles a e ms0 -> tiles a e ms) -> coalesced (l ++ ms ++ r) ->
  (forall n d, n ∈ l \/ n ∈ r -> d = 4 \/ d = 8 \/ d = 12 -> w !!! (na n + d) = words h !!! (na n + d)) ->
  (forall n, n ∈ ms -> head_ok w n) -> seg w f (frees (l ++ ms ++ r)) 0 ->
  wf (Arena w f (begmem h) (endmem h)) (l ++ ms ++ r).
Proof.
  intros [Hrange Htiles Hheads _ _ Hsome] Ht Hco Hsame Hms Hseg. split; cbn; [done| | |done..].
  - apply tiles_app in Htiles as (m1 & H1 & (m2 & H2 & H3)%tiles_app). apply tiles_app. exists m1. split; [done|]. apply tiles_app. exists m2. auto.
  - intros n. rewrite !elem_of_app. intros Hn. assert (Hold : n ∈ l \/ n ∈ r -> head_ok w n).
    { intros Hn'. destruct (Hheads n) as (E1 & E2 & E3); [rewrite !elem_of_app; tauto|]. unfold head_ok. rewrite !Hsame by auto. done. }
    destruct Hn as [Hn|[Hn|Hn]]; auto.
Qed.

(** Reads of a word after writes at known addresses. *)
Ltac wsimp := repeat first [rewrite lookup_total_insert_eq|rewrite lookup_total_insert_ne by lia].

(** What becomes of a free node when [s] bytes of it are taken. *)
Definition cut_rest (a sz s : Z) : list nd := if THRESHOLD <? sz - s then [Nd (a + 16 + s) (sz - 16 - s) true] else [].
Definition cut (a sz s : Z) : list nd := Nd a (if THRESHOLD <? sz - s then s else sz) false :: cut_rest a sz s.

Lemma cut_tiles a sz s b e : 0 <= s <= sz -> s `mod` 8 = 0 -> tiles b e [Nd a sz true] -> tiles b e (cut a sz s).
Proof.
  intros Hs Hmod. unfold cut, cut_rest, THRESHOLD, nodesize. destruct (Z.ltb_spec (16 + 16) (sz - s)); cbn; intros (-> & H1 & H2 & He); [|done].
  split_and!; [done|lia|done|lia|lia| |lia]. rewrite Zminus_mod, Hmod, Z.sub_0_r, Zmod_mod. rewrite Zminus_mod, H2. done.
Qed.

Lemma cut_node_run h a sz s : begmem h <= a -> a + 16 + sz <= endmem h -> endmem h < 4294967296 -> 0 < begmem h -> 0 <= s <= sz ->
  words h !!! (a + 4) = sz ->
  exists v w, cut_node a s h = Ok (v, Arena w (freelist h) (begmem h) (endmem h)) /\
    (forall x, x <> a + 4 -> x <= a + 15 \/ a + 16 + sz <= x -> w !!! x = words h !!! x) /\
    w !!! (a + 4) = (if THRESHOLD <? sz - s then s else sz) /\
    (forall n, n ∈ cut_rest a sz s -> head_ok w n) /\ seg w v (cut_rest a sz s) (words h !!! a).
Proof.
  intros Hb He Hmax H0 Hs Hsz. unfold cut_node, get_size. rewrite peek_bind, Hsz by (apply inside_range; lia).
  rewrite (u32_small (sz - s)) by (unfold is_u32; lia). unfold cut_rest, THRESHOLD, nodesize. destruct (Z.ltb_spec (16 + 16) (sz - s)) as [Hlt|Hge].
  - unfold NODE_ADD. rewrite (u32_small (16 + s)), (u32_small (a + (16 + s))) by (unfold is_u32; lia).
    replace (a + (16 + s)) with (a + 16 + s) by lia. set (nx := a + 16 + s).
    assert (Hnx : begmem h <= nx /\ nx + 16 <= a + sz /\ a + 16 <= nx) by (unfold nx; lia). clearbody nx.
    rewrite peek_bind, Hsz by (apply inside_range; lia).
    unfold set_size, set_next, set_free, set_cksm, get_next. rewrite (u32_small (sz - 16)), (u32_small (sz - 16 - s)) by (unfold is_u32; lia).
    rewrite poke_bind by (apply inside_range; lia). rewrite peek_bind by (apply inside_range; cbn; lia). cbn [words freelist begmem endmem].
    do 3 (rewrite poke_bind by (apply inside_range; cbn; lia); cbn [words freelist begmem endmem]).
    rewrite poke_bind by (apply inside_range; cbn; lia). cbn [words freelist begmem endmem].
    eexists _, _. split; [reflexivity|]. split_and!.
    + intros x Hx Hr. by wsimp.
    + by wsimp.
    + intros n ->%list_elem_of_singleton. unfold head_ok. cbn. by wsimp.
    + cbn. split; [done|]. by wsimp.
  - unfold get_next, peek. rewrite inside_range by lia. exists (words h !!! a), (words h). split_and!; [by destruct h|done|done|by intros n ?%elem_of_nil|done].
Qed.

Lemma coalesced_app l r : coalesced (l ++ r) <-> coalesced l /\ coalesced r /\
  (forall n m, last l = Some n -> head r = Some m -> nfr n = true -> nfr m = false).
Proof.
  induction l as [|n l IH]; [cbn; naive_solver|]. destruct l as [|m l].
  - clear IH. cbn. destruct r as [|x r]; cbn; naive_solver.
  - change (last (n :: m :: l)) with (last (m :: l)). change ((n :: m :: l) ++ r) with (n :: (m :: l) ++ r).
    cbn [coalesced]. cbn [coalesced] in IH. rewrite IH. cbn [app]. naive_solver.
Qed.

(** Taking from a free node keeps free nodes apart. *)
Lemma cut_coalesced l a sz s r : coalesced (l ++ Nd a sz true :: r) -> coalesced (l ++ cut a sz s ++ r).
Proof.
  rewrite !(coalesced_app l). intros (H1 & [H2 H3] & H4). cbn in H2. split; [done|]. unfold cut, cut_rest. split.
  - destruct (THRESHOLD <? sz - s); cbn; naive_solver.
  - cbn. by intros n m _ [= <-].
Qed.

Lemma frees_middle l n r : nfr n = true -> frees (l ++ n :: r) = frees l ++ n :: frees r.
Proof. intros E. rewrite frees_app. cbn. by rewrite E. Qed.

Lemma frees_cut a sz s : frees (cut a sz s) = cut_rest a sz s.
Proof. unfold cut, cut_rest. by destruct (THRESHOLD <? sz - s). Qed.

Lemma wf_fuel h ns : wf h ns -> (length ns <= node_turns h)%nat.
Proof.
  intros Hw. pose proof (tiles_length _ _ _ (wf_tiles _ _ Hw)) as Hl. unfold node_turns, nodesize.
  pose proof (Z.div_le_lower_bound (endmem h - begmem h) 16 (Z.of_nat (length ns)) ltac:(lia) ltac:(lia)). lia.
Qed.

Lemma wf_nonzero h ns n : wf h ns -> n ∈ ns -> na n <> 0.
Proof. intros Hw Hn. destruct (wf_within h ns n Hw Hn). pose proof (wf_range _ _ Hw). lia. Qed.

(** Two nodes are at least a header apart. *)
Lemma wf_apart h ns m n : wf h ns -> m ∈ ns -> n ∈ ns -> na m = na n \/ na m + 16 <= na n \/ na n + 16 <= na m.
Proof.
  intros Hw. pose proof (wf_tiles _ _ Hw) as Ht. clear Hw. revert Ht. generalize (begmem h). induction ns as [|x ns IH]; intros a; [by intros _ ?%elem_of_nil|].
  intros (Hx & Hs & _ & Ht). assert (Hlater : forall y, y ∈ ns -> na x + 16 <= na y) by (intros y Hy; destruct (tiles_elem _ _ _ _ Ht Hy) as (? & _); lia).
  intros [->|Hm]%elem_of_cons [->|Hn]%elem_of_cons; [by left|right; left; auto|right; right; auto|by eapply IH].
Qed.

(** The nodes before and behind one. *)
Lemma wf_around h l n r : wf h (l ++ n :: r) -> (forall m, m ∈ l -> na m + 16 <= na n) /\ (forall m, m ∈ r -> na n + 16 + nsz n <= na m) /\
  0 <= nsz n /\ nsz n `mod` 8 = 0 /\ na n `mod` 8 = begmem h `mod` 8 /\ na n + 16 + nsz n <= endmem h.
Proof.
  intros Hw. pose proof (wf_tiles _ _ Hw) as Ht.
  destruct (tiles_elem _ _ _ n Ht ltac:(apply elem_of_app; right; left)) as (_ & Hs & He & Ha).
  apply tiles_app in Ht as (a & H1 & (E & _ & Hsm & H2)). subst a. split_and!; [| |done..].
  - intros m Hm. destruct (tiles_elem _ _ _ _ H1 Hm) as (_ & ? & ? & _). lia.
  - intros m Hm. destruct (tiles_elem _ _ _ _ H2 Hm) as (? & _). lia.
Qed.

Lemma wf_before h l n r m : wf h (l ++ n :: r) -> m ∈ l -> na m + 16 + nsz m <= na n.
Proof.
  intros Hw Hm. pose proof (wf_tiles _ _ Hw) as Ht. apply tiles_app in Ht as (a & H1 & (-> & _)). by destruct (tiles_elem _ _ _ _ H1 Hm) as (_ & _ & ? & _).
Qed.

(** Taking the node that was found. *)
Lemma take_node_run h l a sz r s : wf h (l ++ Nd a sz true :: r) -> 0 <= s <= sz -> s `mod` 8 = 0 ->
  exists w f, (next ← cut_node a s; set_after (lastaddr 0 (frees l)) next;; set_next a 0;; set_free a FALSE;; mret (NODE_ADD a nodesize)) h =
      Ok (a + 16, Arena w f (begmem h) (endmem h)) /\ wf (Arena w f (begmem h) (endmem h)) (l ++ cut a sz s ++ r).
Proof.
  intros Hw Hs Hmod. destruct (wf_around _ _ _ _ Hw) as (Hl & Hr & H0 & Hm & _ & He). cbn in Hl, Hr, H0, Hm, He.
  destruct (wf_within h _ (Nd a sz true) Hw ltac:(apply elem_of_app; right; left)) as [Hb _]. cbn in Hb.
  destruct (wf_range _ _ Hw) as (Hb0 & Hmax). destruct (wf_heads _ _ Hw (Nd a sz true) ltac:(apply elem_of_app; right; left)) as (E1 & E2 & E3). cbn in E1, E2, E3.
  destruct (cut_node_run h a sz s Hb He Hmax Hb0 Hs E1) as (v & w1 & R1 & Hw1 & Hsz & Hrest & Hseg1).
  pose proof (wf_links _ _ Hw) as Hlinks. rewrite frees_middle in Hlinks by done. apply links_app in Hlinks as (f1 & HL & [-> HR]). cbn in HR.
  assert (HLin : forall n, n ∈ frees l -> n ∈ l) by (by intros n [? _]%elem_of_frees).
  assert (HRin : forall n, n ∈ frees r -> n ∈ r) by (by intros n [? _]%elem_of_frees).
  assert (Hnd : NoDup (na <$> frees l)).
  { apply frees_NoDup. pose proof (tiles_NoDup _ _ _ (wf_tiles _ _ Hw)) as Hnd. rewrite fmap_app in Hnd. by apply NoDup_app in Hnd as (? & _). }
  destruct (set_after_run (Arena w1 (freelist h) (begmem h) (endmem h)) (frees l) a v) as (w2 & f2 & R2 & HL2 & Hw2).
  { cbn. eapply seg_same; [|exact HL]. intros n Hn%HLin%Hl. apply Hw1; lia. }
  { done. }
  { intros n Hn%HLin. split; [apply (wf_within h _ n Hw)|apply (wf_nonzero h _ n Hw)]; apply elem_of_app; by left. }
  cbn [words begmem endmem] in *. exists (<[a + 8 := FALSE]> (<[a := 0]> w2)), f2. split.
  - rewrite (bind_Ok _ _ _ _ _ R1), (bind_Ok _ _ _ _ _ R2). unfold set_next, set_free.
    do 2 (rewrite poke_bind by (apply inside_range; cbn; lia)). cbn [words freelist begmem endmem]. unfold NODE_ADD, nodesize. by rewrite u32_small by (unfold is_u32; lia).
  - assert (Hfar : forall x, a <= x -> w2 !!! x = w1 !!! x).
    { intros x Hx. apply Hw2. intros n Hn%HLin%Hl. lia. }
    assert (Hcut : forall n, n ∈ cut_rest a sz s -> a + 16 <= na n).
    { unfold cut_rest, THRESHOLD, nodesize. destruct (Z.ltb_spec (16 + 16) (sz - s)); [|by intros n ?%elem_of_nil]. intros n ->%list_elem_of_singleton. cbn. lia. }
    apply (wf_rebuild h l [Nd a sz true] (cut a sz s) r); [exact Hw|by intros; apply cut_tiles|by apply cut_coalesced, (wf_coalesced _ _ Hw)|..].
    + intros n d [Hn|Hn] Hd.
      * specialize (Hl n Hn). wsimp. rewrite Hw2; [apply Hw1; lia|]. intros m Hmm%HLin E.
        destruct (wf_apart _ _ m n Hw) as [?|[?|?]]; [apply elem_of_app; by left..| | |]; lia.
      * specialize (Hr n Hn). wsimp. rewrite Hfar by lia. apply Hw1; lia.
    + intros n [->|Hn]%elem_of_cons.
      * unfold head_ok. cbn. wsimp. rewrite !Hfar by lia. split_and!; [done|done|]. rewrite Hw1 by lia. done.
      * specialize (Hcut n Hn). destruct (Hrest n Hn) as (F1 & F2 & F3). unfold head_ok. wsimp. by rewrite !Hfar by lia.
    + rewrite !frees_app, frees_cut. apply links_app. exists v. split.
      { eapply seg_same; [|exact HL2]. intros n Hn%HLin%Hl. by wsimp. }
      apply links_app. exists (words h !!! a). split.
      * eapply seg_same; [|exact Hseg1]. intros n Hn%Hcut. wsimp. by apply Hfar; lia.
      * eapply seg_same; [|exact HR]. intros n Hn%HRin%Hr. wsimp. rewrite Hfar by lia. apply Hw1; lia.
Qed.

Lemma wf_free_nodes h ns n : wf h ns -> n ∈ frees ns -> within h n /\ na n <> 0 /\ head_ok (words h) n /\ nfr n = true.
Proof.
  intros Hw [Hn Hf]%elem_of_frees. split_and!; [by apply (wf_within h ns)|by apply (wf_nonzero h ns)|by apply (wf_heads _ _ Hw)|done].
Qed.

Lemma frees_length ns : (length (frees ns) <= length ns)%nat.
Proof. apply filter_length_le. Qed.

Lemma GlobalMalloc_run h ns size : wf h ns -> 0 < size -> size + 7 < 4294967296 -> let s := rounded size in
  (exists l a sz r w f, ns = l ++ Nd a sz true :: r /\ Forall (fun n => nsz n < s) (frees l) /\ s <= sz /\
    GlobalMalloc size h = Ok (a + 16, Arena w f (begmem h) (endmem h)) /\ wf (Arena w f (begmem h) (endmem h)) (l ++ cut a sz s ++ r)) \/
  (Forall (fun n => nsz n < s) (frees ns) /\ GlobalMalloc size h = Exit "cannot allocate global memory.").
Proof.
  intros Hw Hs Hmax s. destruct (rounded_spec size Hs) as (H1 & H2 & H3 & H4). fold s in H1, H2, H3, H4.
  unfold GlobalMalloc. rewrite (proj2 (Z.eqb_neq size 0)) by lia. rewrite get_bind, ROUND_UP_small by lia. fold s.
  destruct (find_fit_run h s (frees ns) (node_turns h) 0 (freelist h)) as [[HF R]|(l0 & n & r0 & E & HF & Hn & R)].
  - intros n Hn. by apply (wf_free_nodes h ns).
  - by apply wf_links.
  - pose proof (wf_fuel h ns Hw). pose proof (frees_length ns). lia.
  - right. split; [done|]. by rewrite (bind_Ok _ _ _ _ _ R).
  - left. destruct (frees_split ns l0 n r0 E) as (l & r & -> & <- & <- & Hfree). destruct n as [a sz fr]. cbn in Hn, Hfree. subst fr.
    destruct (take_node_run h l a sz r s Hw ltac:(lia) H4) as (w & f & R' & Hw'). exists l, a, sz, r, w, f. split_and!; [done..| |done].
    rewrite (bind_Ok _ _ _ _ _ R). cbn [na]. rewrite (proj2 (Z.eqb_neq a 0)); [exact R'|].
    apply (wf_nonzero h _ (Nd a sz true) Hw), elem_of_app. right. left.
Qed.

(** ** [GlobalFree] *)

(** The last free node of a list, and whether it is the last node. *)
Definition prev_of (acc : Z * bool) (l : list nd) : Z * bool :=
  foldl (fun acc n => if nfr n then (na n, true) else (acc.1, false)) acc l.

Lemma find_prev_run h pn : pn < endmem h -> endmem h < 4294967296 -> 0 < begmem h -> forall l fuel prev pcom curr, tiles curr pn l ->
  (forall n, n ∈ l -> head_ok (words h) n) -> begmem h <= curr -> (length l <= fuel)%nat ->
  find_prev fuel pn prev pcom curr h = Ok (prev_of (prev, pcom) l, h).
Proof.
  intros He Hmax H0. induction l as [|n l IH]; intros fuel prev pcom curr Ht Hh Hb Hf.
  - cbn in Ht. subst. assert (Hs : find_prev fuel pn prev pcom pn h = Ok ((prev, pcom), h)); [|exact Hs].
    destruct fuel; cbn [find_prev]; rewrite get_bind, (Z.ltb_irrefl pn), (proj2 (Z.leb_gt (endmem h) pn)) by done; done.
  - pose proof Ht as (<- & Hs & _ & Ht'). pose proof (tiles_le _ _ _ Ht') as Hle. destruct (Hh n ltac:(left)) as (E1 & E2 & E3).
    destruct fuel as [|fuel]; [cbn in Hf; lia|]. cbn [find_prev]. rewrite get_bind.
    rewrite (proj2 (Z.ltb_lt (na n) pn)), (proj2 (Z.ltb_lt (na n) (endmem h))) by lia. cbn [andb].
    rewrite cksm_bind by (apply inside_range || done; lia). unfold get_free, get_size.
    rewrite peek_bind, E2 by (apply inside_range; lia). rewrite peek_bind, E1 by (apply inside_range; lia).
    assert (Hn : NODE_ADD (na n) (u32 (nsz n + nodesize)) = na n + 16 + nsz n).
    { unfold NODE_ADD, nodesize. rewrite (u32_small (nsz n + 16)), u32_small by (unfold is_u32; lia). lia. }
    cbv zeta. rewrite Hn. change (prev_of (prev, pcom) (n :: l)) with (prev_of (if nfr n then (na n, true) else (prev, false)) l).
    assert (Hh' : forall m, m ∈ l -> head_ok (words h) m) by (intros m Hm; apply Hh; by right).
    destruct (nfr n); cbn; apply IH; try done; cbn in Hf; lia.
Qed.

(** The first free node, and whether it is the first node. *)
Fixpoint next_of (ncom : bool) (r : list nd) : Z * bool :=
  match r with [] => (0, false) | n :: r' => if nfr n then (na n, ncom) else next_of false r' end.

Lemma find_next_run h : endmem h < 4294967296 -> 0 < begmem h -> forall r fuel ncom curr, tiles curr (endmem h) r ->
  (forall n, n ∈ r -> head_ok (words h) n) -> begmem h <= curr -> (length r <= fuel)%nat ->
  find_next fuel ncom curr h = Ok (next_of ncom r, h).
Proof.
  intros Hmax H0. induction r as [|n r IH]; intros fuel ncom curr Ht Hh Hb Hf.
  - cbn in Ht. subst. destruct fuel; cbn [find_next]; by rewrite get_bind, Z.ltb_irrefl.
  - pose proof Ht as (<- & Hs & _ & Ht'). pose proof (tiles_le _ _ _ Ht') as Hle. destruct (Hh n ltac:(left)) as (E1 & E2 & E3).
    destruct fuel as [|fuel]; [cbn in Hf; lia|]. cbn [find_next next_of]. rewrite get_bind, (proj2 (Z.ltb_lt (na n) (endmem h))) by lia.
    rewrite cksm_bind by (apply inside_range || done; lia). unfold get_free, get_size.
    rewrite peek_bind, E2 by (apply inside_range; lia). rewrite peek_bind, E1 by (apply inside_range; lia).
    assert (Hn : NODE_ADD (na n) (u32 (nsz n + nodesize)) = na n + 16 + nsz n).
    { unfold NODE_ADD, nodesize. rewrite (u32_small (nsz n + 16)), u32_small by (unfold is_u32; lia). lia. }
    rewrite Hn. destruct (nfr n); cbn; [done|]. apply IH; [done|intros m Hm; apply Hh; by right|lia|cbn in Hf; lia].
Qed.

Definition last_free (l : list nd) : bool := match last l with Some n => nfr n | None => false end.
Definition head_free (r : list nd) : bool := match r with n :: _ => nfr n | [] => false end.
Definition headaddr (r : list nd) : Z := match r with n :: _ => na n | [] => 0 end.

Lemma prev_of_eq l : forall p c, l <> [] -> prev_of (p, c) l = (lastaddr p (frees l), last_free l).
Proof.
  induction l as [|n l IH] using rev_ind; intros p c Hne; [done|]. unfold prev_of, lastaddr, last_free. rewrite foldl_app, last_snoc, frees_app, foldl_app.
  cbn [foldl frees List.filter]. destruct (nfr n) eqn:En; cbn; [done|]. destruct l as [|m l]; [done|].
  change (foldl (fun acc n0 => if nfr n0 then (na n0, true) else (acc.1, false)) (p, c) (m :: l)) with (prev_of (p, c) (m :: l)). by rewrite IH.
Qed.

Lemma next_of_eq r : forall nc, next_of nc r = (headaddr (frees r), head_free r && nc).
Proof.
  induction r as [|n r IH]; intros nc; [done|]. cbn. destruct (nfr n); [done|]. rewrite IH. by rewrite andb_false_r.
Qed.

(** The search for the free node before an allocated one. *)
Lemma before_run h l n r : wf h (l ++ n :: r) -> nfr n = false ->
  (if freelist h =? 0 then mret (0, false) else find_prev (node_turns h) (na n) 0 false (freelist h)) h = Ok ((lastaddr 0 (frees l), last_free l), h).
Proof.
  intros Hw Hn. pose proof (wf_links _ _ Hw) as Hlinks. destruct (wf_around _ _ _ _ Hw) as (Hl & Hr & H0 & _ & _ & He).
  destruct (wf_range _ _ Hw) as (Hb0 & Hmax). rewrite frees_app in Hlinks. cbn in Hlinks. rewrite Hn in Hlinks. fold (frees r) in Hlinks.
  destruct (frees l) as [|x fl] eqn:El.
  - assert (Hlast : last_free l = false).
    { unfold last_free. destruct (last l) as [m|] eqn:Em; [|done]. apply last_Some in Em as [l' ->]. rewrite frees_app in El. cbn in El.
      destruct (nfr m); [by apply app_eq_nil in El as [_ ?]|done]. }
    rewrite Hlast. destruct (frees r) as [|y fr] eqn:Er; cbn in Hlinks; [by rewrite Hlinks|]. destruct Hlinks as [-> _].
    assert (Hy : y ∈ l ++ n :: r /\ y ∈ r).
    { assert (Hy : y ∈ frees r) by (rewrite Er; left). apply elem_of_frees in Hy as [Hy _]. split; [apply elem_of_app; right; by right|done]. }
    destruct Hy as [Hy Hyr]. rewrite (proj2 (Z.eqb_neq _ 0)) by by apply (wf_nonzero h _ y Hw). specialize (Hr y Hyr).
    destruct (wf_within h _ y Hw Hy) as [_ Hy2]. unfold node_turns. cbn [find_prev]. rewrite get_bind, (proj2 (Z.ltb_ge (na y) (na n))) by lia.
    cbn [andb]. by rewrite (proj2 (Z.leb_gt _ _)) by lia.
  - destruct Hlinks as [-> _]. destruct (frees_split l [] x fl El) as (l1 & l2 & -> & E1 & E2 & Hx).
    rewrite (proj2 (Z.eqb_neq _ 0)) by (apply (wf_nonzero h _ x Hw); rewrite !elem_of_app, elem_of_cons; tauto).
    pose proof (wf_tiles _ _ Hw) as Ht. rewrite <- app_assoc in Ht. cbn in Ht. apply tiles_app in Ht as (a1 & H1 & H2).
    change (x :: l2 ++ n :: r) with ((x :: l2) ++ n :: r) in H2. apply tiles_app in H2 as (a2 & H2 & (E & _)). subst a2.
    assert (Hx1 : na x = a1) by (by destruct H2). rewrite <- Hx1 in H2.
    rewrite (find_prev_run h (na n) ltac:(lia) Hmax Hb0 (x :: l2) _ _ _ _ H2).
    + rewrite prev_of_eq by done. do 2 f_equal. rewrite <- El, frees_app, E1. f_equal. unfold last_free. by rewrite last_app_cons.
    + intros m Hm. apply (wf_heads _ _ Hw). rewrite !elem_of_app. tauto.
    + apply tiles_le in H1. lia.
    + pose proof (wf_fuel h _ Hw) as Hf. rewrite !length_app in Hf. cbn in *. lia.
Qed.

(** The nine combinations are four: the free neighbours before and behind. *)
Definition grow_by (a k : Z) : MH unit := s ← get_size a; set_size a (u32 (s + k)).

Lemma combine_prev prev curr next : prev <> 0 -> combine prev curr next true false =
  (set_next prev next;; p ← get_size prev; c ← get_size curr; set_size prev (u32 (p + u32 (c + nodesize)))).
Proof.
  intros Hp. unfold combine. rewrite (proj2 (Z.eqb_neq prev 0) Hp). destruct (Z.eqb_spec next 0) as [->|Hn]; done.
Qed.

Lemma combine_both prev curr next : prev <> 0 -> next <> 0 -> combine prev curr next true true =
  (n ← get_next next; set_next prev n;; p ← get_size prev; c ← get_size curr; s ← get_size next;
   set_size prev (u32 (p + u32 (u32 (c + s) + 2 * nodesize)))).
Proof. intros Hp Hn. unfold combine. by rewrite (proj2 (Z.eqb_neq prev 0) Hp), (proj2 (Z.eqb_neq next 0) Hn). Qed.

Lemma combine_none prev curr next : combine prev curr next false false = (set_after prev curr;; set_next curr next).
Proof. unfold combine, set_after. by destruct (Z.eqb_spec next 0) as [->|Hn], (Z.eqb_spec prev 0) as [->|Hp]. Qed.

Lemma combine_next prev curr next : next <> 0 -> combine prev curr next false true =
  (set_after prev curr;; n ← get_next next; set_next curr n;; c ← get_size curr; s ← get_size next; set_size curr (u32 (c + u32 (s + nodesize)))).
Proof.
  intros Hn. unfold combine, set_after. rewrite (proj2 (Z.eqb_neq next 0) Hn). by destruct (Z.eqb_spec prev 0) as [->|Hp].
Qed.

(** A header is nobody's link. *)
Lemma head_not_link h ns m n d : wf h ns -> m ∈ ns -> n ∈ ns -> d = 4 \/ d = 8 \/ d = 12 -> na m + d <> na n.
Proof. intros Hw Hm Hn Hd. destruct (wf_apart h ns m n Hw Hm Hn) as [?|[?|?]]; lia. Qed.

Lemma coalesced_put l n r : coalesced l -> coalesced r -> last_free l = false -> head_free r = false -> coalesced (l ++ n :: r).
Proof.
  unfold last_free, head_free. intros Hl Hr H1 H2. apply coalesced_app. split; [done|]. split; [split; [by destruct r|done]|].
  intros x m Hx _. rewrite Hx in H1. congruence.
Qed.

Lemma coalesced_split l n r : coalesced (l ++ n :: r) -> coalesced l /\ coalesced r /\ (nfr n = true -> last_free l = false /\ head_free r = false).
Proof.
  rewrite coalesced_app. cbn. intros (H1 & [H2 H3] & H4). split_and!; [done..|]. intros Hn. unfold last_free, head_free. split.
  - destruct (last l) as [x|]; [|done]. specialize (H4 x n eq_refl eq_refl). destruct (nfr x); [|done]. specialize (H4 eq_refl). congruence.
  - specialize (H2 Hn). by destruct r.
Qed.

(** The links around a node that is not free. *)
Lemma links_around h l n r : wf h (l ++ n :: r) -> nfr n = false ->
  seg (words h) (freelist h) (frees l) (headaddr (frees r)) /\ seg (words h) (headaddr (frees r)) (frees r) 0.
Proof.
  intros Hw Hn. pose proof (wf_links _ _ Hw) as Hs. rewrite frees_app in Hs. cbn in Hs. rewrite Hn in Hs. fold (frees r) in Hs.
  apply links_app in Hs as (m & H1 & H2). assert (m = headaddr (frees r)) as -> by (destruct (frees r); cbn in H2; naive_solver). done.
Qed.

(** Where no free node is next to it: it is linked in between. *)
Lemma link_in h l a sz r : wf h (l ++ Nd a sz false :: r) -> last_free l = false ->
  exists w f, set_after (lastaddr 0 (frees l)) a (Arena (<[a + 8 := TRUE]> (words h)) (freelist h) (begmem h) (endmem h)) =
      Ok (tt, Arena w f (begmem h) (endmem h)) /\ seg w f (frees l) a /\
    (forall x, (forall n, n ∈ frees l -> x <> na n) -> w !!! x = <[a + 8 := TRUE]> (words h) !!! x).
Proof.
  intros Hw Hlast. destruct (links_around _ _ _ _ Hw eq_refl) as [HL _].
  destruct (wf_around _ _ _ _ Hw) as (Hl & _). cbn in Hl.
  assert (HLin : forall n, n ∈ frees l -> n ∈ l) by (by intros n [? _]%elem_of_frees).
  destruct (set_after_run (Arena (<[a + 8 := TRUE]> (words h)) (freelist h) (begmem h) (endmem h)) (frees l) (headaddr (frees r)) a) as (w & f & R & H1 & H2).
  - cbn. eapply seg_same; [|exact HL]. intros n Hn%HLin%Hl. by wsimp.
  - apply frees_NoDup. pose proof (tiles_NoDup _ _ _ (wf_tiles _ _ Hw)) as Hnd. rewrite fmap_app in Hnd. by apply NoDup_app in Hnd as (? & _).
  - intros n Hn%HLin. split; [apply (wf_within h _ n Hw)|apply (wf_nonzero h _ n Hw)]; apply elem_of_app; by left.
  - by exists w, f.
Qed.

Abbreviation freed h a := (Arena (<[a + 8 := TRUE]> (words h)) (freelist h) (begmem h) (endmem h)).

Lemma combine_none_run h l a sz r : wf h (l ++ Nd a sz false :: r) -> last_free l = false -> head_free r = false ->
  exists w f, combine (lastaddr 0 (frees l)) a (headaddr (frees r)) false false (freed h a) = Ok (tt, Arena w f (begmem h) (endmem h)) /\
    wf (Arena w f (begmem h) (endmem h)) (l ++ [Nd a sz true] ++ r).
Proof.
  intros Hw Hlast Hhead. destruct (link_in h l a sz r Hw Hlast) as (w & f & R & HL & Hw').
  destruct (wf_around _ _ _ _ Hw) as (Hl & Hr & H0 & _ & _ & He). cbn in Hl, Hr, H0, He.
  assert (Hn : Nd a sz false ∈ l ++ Nd a sz false :: r) by (apply elem_of_app; right; left).
  destruct (wf_within h _ _ Hw Hn) as [Hb _]. cbn in Hb. destruct (wf_heads _ _ Hw _ Hn) as (E1 & E2 & E3). cbn in E1, E2, E3.
  assert (HLin : forall n, n ∈ frees l -> n ∈ l) by (by intros n [? _]%elem_of_frees).
  assert (HRin : forall n, n ∈ frees r -> n ∈ r) by (by intros n [? _]%elem_of_frees).
  assert (Hfar : forall x, a <= x -> w !!! x = <[a + 8 := TRUE]> (words h) !!! x) by (intros x Hx; apply Hw'; intros n Hn'%HLin%Hl; lia).
  rewrite combine_none, (bind_Ok _ _ _ _ _ R). unfold set_next. rewrite poke_run by (apply inside_range; cbn; lia). cbn.
  eexists _, _. split; [reflexivity|].
  destruct (coalesced_split _ _ _ (wf_coalesced _ _ Hw)) as (C1 & C2 & _).
  apply (wf_rebuild h l [Nd a sz false] [Nd a sz true] r _ _ Hw); [done|by apply coalesced_put|..].
  - intros n d [Hin|Hin] Hd.
    + specialize (Hl n Hin). wsimp. rewrite Hw'; [by wsimp|]. intros m Hm%HLin. apply (head_not_link h _ n m d Hw); [apply elem_of_app; by left..|done].
    + specialize (Hr n Hin). wsimp. rewrite Hfar by lia. by wsimp.
  - intros n ->%list_elem_of_singleton. unfold head_ok. cbn. wsimp. rewrite !Hfar by lia. by wsimp.
  - rewrite !frees_app. apply links_app. exists a. split.
    { eapply seg_same; [|exact HL]. intros n Hin%HLin%Hl. by wsimp. }
    cbn. split; [done|]. wsimp. destruct (links_around _ _ _ _ Hw eq_refl) as [_ HR]. eapply seg_same; [|exact HR].
    intros n Hin%HRin%Hr. wsimp. rewrite Hfar by lia. by wsimp.
Qed.

Lemma mod8_add a b : a `mod` 8 = 0 -> b `mod` 8 = 0 -> (a + b) `mod` 8 = 0.
Proof. intros Ha Hb. by rewrite Z.add_mod, Ha, Hb. Qed.

Lemma combine_next_run h l a sz m r : wf h (l ++ Nd a sz false :: m :: r) -> last_free l = false -> nfr m = true ->
  exists w f, combine (lastaddr 0 (frees l)) a (na m) false true (freed h a) = Ok (tt, Arena w f (begmem h) (endmem h)) /\
    wf (Arena w f (begmem h) (endmem h)) (l ++ [Nd a (sz + 16 + nsz m) true] ++ r).
Proof.
  intros Hw Hlast Hm. destruct (link_in h l a sz (m :: r) Hw Hlast) as (w & f & R & HL & Hw').
  destruct (wf_around _ _ _ _ Hw) as (Hl & Hr & H0 & Hs8 & _ & He). cbn in Hl, Hr, H0, Hs8, He.
  assert (Hn : Nd a sz false ∈ l ++ Nd a sz false :: m :: r) by (apply elem_of_app; right; left).
  assert (Hmin : m ∈ l ++ Nd a sz false :: m :: r) by (apply elem_of_app; right; right; left).
  destruct (wf_within h _ _ Hw Hn) as [Hb _]. cbn in Hb. destruct (wf_within h _ _ Hw Hmin) as [Hb1 Hb2]. destruct (wf_range _ _ Hw) as (Hb0 & Hmax).
  destruct (wf_heads _ _ Hw _ Hn) as (E1 & E2 & E3). cbn in E1, E2, E3. destruct (wf_heads _ _ Hw _ Hmin) as (M1 & M2 & M3).
  change (l ++ Nd a sz false :: m :: r) with (l ++ [Nd a sz false] ++ m :: r) in Hw. rewrite app_assoc in Hw.
  destruct (wf_around _ _ _ _ Hw) as (_ & Hrm & Hm0 & Hm8 & _ & Hme). rewrite <- app_assoc in Hw. specialize (Hr m ltac:(left)) as Ham.
  assert (HLin : forall n, n ∈ frees l -> n ∈ l) by (by intros n [? _]%elem_of_frees).
  assert (HRin : forall n, n ∈ frees r -> n ∈ r) by (by intros n [? _]%elem_of_frees).
  assert (Hfar : forall x, a <= x -> w !!! x = <[a + 8 := TRUE]> (words h) !!! x) by (intros x Hx; apply Hw'; intros n Hn'%HLin%Hl; lia).
  rewrite combine_next by lia. rewrite (bind_Ok _ _ _ _ _ R). unfold get_next, get_size, set_next, set_size.
  rewrite peek_bind by (apply inside_range; cbn; lia). rewrite poke_bind by (apply inside_range; cbn; lia).
  do 2 (rewrite peek_bind by (apply inside_range; cbn; lia)). rewrite poke_run by (apply inside_range; cbn; lia). cbn [words freelist begmem endmem].
  wsimp. rewrite !Hfar by lia. wsimp. rewrite E1, M1. unfold nodesize. rewrite (u32_small (nsz m + 16)), u32_small by (unfold is_u32; lia).
  eexists _, _. split; [reflexivity|]. destruct (coalesced_split _ _ _ (wf_coalesced _ _ Hw)) as (C1 & C2 & _).
  apply (coalesced_split [] m r) in C2 as (_ & C2 & C3). destruct (C3 Hm) as [_ C4].
  apply (wf_rebuild h l [Nd a sz false; m] [Nd a (sz + 16 + nsz m) true] r _ _ Hw); [|by apply coalesced_put|..].
  - cbn. intros b e (-> & _ & _ & _ & _ & _ & <-). split_and!; [done|lia|by repeat apply mod8_add|lia].
  - intros n d [Hin|Hin] Hd.
    + specialize (Hl n Hin). wsimp. rewrite Hw'; [by wsimp|]. intros k Hk%HLin. apply (head_not_link h _ n k d Hw); [apply elem_of_app; by left..|done].
    + specialize (Hrm n Hin). wsimp. rewrite Hfar by lia. by wsimp.
  - intros n ->%list_elem_of_singleton. unfold head_ok. cbn. wsimp. rewrite !Hfar by lia. wsimp. split_and!; [lia|done|done].
  - rewrite !frees_app. apply links_app. exists a. split.
    { eapply seg_same; [|exact HL]. intros n Hin%HLin%Hl. by wsimp. }
    cbn. split; [done|]. wsimp. destruct (links_around _ _ _ _ Hw eq_refl) as [_ HR]. cbn in HR. rewrite Hm in HR. cbn in HR. destruct HR as [_ HR].
    eapply seg_same; [|exact HR]. intros n Hin%HRin%Hrm. wsimp. rewrite Hfar by lia. by wsimp.
Qed.

(** The free node before. *)
Lemma links_before h l p n r : wf h (l ++ p :: n :: r) -> nfr p = true -> nfr n = false ->
  seg (words h) (freelist h) (frees l) (na p) /\ words h !!! na p = headaddr (frees r) /\ seg (words h) (headaddr (frees r)) (frees r) 0.
Proof.
  intros Hw Hp Hn. change (l ++ p :: n :: r) with (l ++ [p] ++ n :: r) in Hw. rewrite app_assoc in Hw.
  destruct (links_around _ _ _ _ Hw Hn) as [H1 H2]. rewrite frees_app in H1. cbn in H1. rewrite Hp in H1.
  apply links_app in H1 as (m & H1 & [-> H3]). done.
Qed.

Lemma tiles_next h l p n r : wf h (l ++ p :: n :: r) -> na n = na p + 16 + nsz p.
Proof. intros Hw. pose proof (wf_tiles _ _ Hw) as Ht. apply tiles_app in Ht as (m & _ & (-> & _ & _ & -> & _)). done. Qed.

Lemma combine_prev_run h l p a sz r : wf h (l ++ p :: Nd a sz false :: r) -> nfr p = true -> head_free r = false ->
  exists w f, combine (na p) a (headaddr (frees r)) true false (freed h a) = Ok (tt, Arena w f (begmem h) (endmem h)) /\
    wf (Arena w f (begmem h) (endmem h)) (l ++ [Nd (na p) (nsz p + 16 + sz) true] ++ r).
Proof.
  intros Hw Hp Hhead. destruct (links_before _ _ _ _ _ Hw Hp eq_refl) as (HL & Hlink & HR). pose proof (tiles_next _ _ _ _ _ Hw) as Ea. cbn in Ea.
  destruct (wf_around _ _ _ _ Hw) as (Hl & Hr & Hp0 & Hp8 & _ & Hpe). specialize (Hr (Nd a sz false) ltac:(left)) as Han. cbn in Han.
  assert (Hn : Nd a sz false ∈ l ++ p :: Nd a sz false :: r) by (apply elem_of_app; right; right; left).
  assert (Hpin : p ∈ l ++ p :: Nd a sz false :: r) by (apply elem_of_app; right; left).
  destruct (tiles_elem _ _ _ _ (wf_tiles _ _ Hw) Hn) as (_ & H0 & He & _). cbn in H0, He. destruct (wf_within h _ _ Hw Hpin) as [Hb _]. destruct (wf_range _ _ Hw) as (Hb0 & Hmax).
  destruct (wf_heads _ _ Hw _ Hn) as (E1 & E2 & E3). cbn in E1, E2, E3. destruct (wf_heads _ _ Hw _ Hpin) as (P1 & P2 & P3). rewrite Hp in P2.
  assert (HLin : forall n, n ∈ frees l -> n ∈ l) by (by intros n [? _]%elem_of_frees).
  assert (HRin : forall n, n ∈ frees r -> n ∈ r) by (by intros n [? _]%elem_of_frees).
  assert (Hrn : forall n, n ∈ r -> a + 16 + sz <= na n).
  { change (l ++ p :: Nd a sz false :: r) with (l ++ [p] ++ Nd a sz false :: r) in Hw. rewrite app_assoc in Hw. by destruct (wf_around _ _ _ _ Hw) as (_ & ? & _). }
  rewrite combine_prev by lia. unfold set_next, get_size, set_size.
  rewrite poke_bind by (apply inside_range; cbn; lia). do 2 (rewrite peek_bind by (apply inside_range; cbn; lia)). rewrite poke_run by (apply inside_range; cbn; lia).
  cbn [words freelist begmem endmem]. wsimp. rewrite P1, E1. unfold nodesize. rewrite (u32_small (sz + 16)), u32_small by (unfold is_u32; lia).
  eexists _, _. split; [reflexivity|]. destruct (coalesced_split _ _ _ (wf_coalesced _ _ Hw)) as (C1 & C2 & C3). destruct (C3 Hp) as [C4 _].
  apply (coalesced_split [] _ r) in C2 as (_ & C2 & _).
  apply (wf_rebuild h l [p; Nd a sz false] [Nd (na p) (nsz p + 16 + sz) true] r _ _ Hw); [|by apply coalesced_put|..].
  - cbn. intros b e (Hb' & _ & _ & _ & _ & Hs8 & <-). split_and!; [done|lia|by repeat apply mod8_add|lia].
  - intros n d [Hin|Hin] Hd.
    + specialize (Hl n Hin). by wsimp.
    + specialize (Hrn n Hin). by wsimp.
  - intros n ->%list_elem_of_singleton. unfold head_ok. cbn. wsimp. split_and!; [lia|done|done].
  - rewrite !frees_app. apply links_app. exists (na p). split.
    { eapply seg_same; [|exact HL]. intros n Hin%HLin%Hl. by wsimp. }
    cbn. split; [done|]. wsimp. eapply seg_same; [|exact HR]. intros n Hin%HRin%Hrn. by wsimp.
Qed.

Lemma combine_both_run h l p a sz m r : wf h (l ++ p :: Nd a sz false :: m :: r) -> nfr p = true -> nfr m = true ->
  exists w f, combine (na p) a (na m) true true (freed h a) = Ok (tt, Arena w f (begmem h) (endmem h)) /\
    wf (Arena w f (begmem h) (endmem h)) (l ++ [Nd (na p) (nsz p + 16 + sz + 16 + nsz m) true] ++ r).
Proof.
  intros Hw Hp Hm. destruct (links_before _ _ _ _ _ Hw Hp eq_refl) as (HL & Hlink & HR). pose proof (tiles_next _ _ _ _ _ Hw) as Ea. cbn in Ea.
  destruct (wf_around _ _ _ _ Hw) as (Hl & Hr & Hp0 & Hp8 & _ & Hpe). specialize (Hr m ltac:(right; left)) as Ham.
  assert (Hn : Nd a sz false ∈ l ++ p :: Nd a sz false :: m :: r) by (apply elem_of_app; right; right; left).
  assert (Hpin : p ∈ l ++ p :: Nd a sz false :: m :: r) by (apply elem_of_app; right; left).
  assert (Hmin : m ∈ l ++ p :: Nd a sz false :: m :: r) by (apply elem_of_app; right; right; right; left).
  destruct (tiles_elem _ _ _ _ (wf_tiles _ _ Hw) Hn) as (_ & H0 & He & _). cbn in H0, He. destruct (tiles_elem _ _ _ _ (wf_tiles _ _ Hw) Hmin) as (_ & Hm0 & Hme & _).
  destruct (wf_within h _ _ Hw Hpin) as [Hb _]. destruct (wf_range _ _ Hw) as (Hb0 & Hmax).
  destruct (wf_heads _ _ Hw _ Hn) as (E1 & E2 & E3). cbn in E1, E2, E3. destruct (wf_heads _ _ Hw _ Hpin) as (P1 & P2 & P3). rewrite Hp in P2.
  destruct (wf_heads _ _ Hw _ Hmin) as (M1 & M2 & M3).
  assert (HLin : forall n, n ∈ frees l -> n ∈ l) by (by intros n [? _]%elem_of_frees).
  assert (HRin : forall n, n ∈ frees r -> n ∈ r) by (by intros n [? _]%elem_of_frees).
  assert (Eb : na m = a + 16 + sz).
  { change (l ++ p :: Nd a sz false :: m :: r) with (l ++ [p] ++ Nd a sz false :: m :: r) in Hw. rewrite app_assoc in Hw. exact (tiles_next _ _ _ _ _ Hw). }
  assert (Hrn : forall n, n ∈ r -> na m + 16 + nsz m <= na n).
  { change (l ++ p :: Nd a sz false :: m :: r) with (l ++ [p; Nd a sz false] ++ m :: r) in Hw. rewrite app_assoc in Hw. by destruct (wf_around _ _ _ _ Hw) as (_ & ? & _). }
  rewrite combine_both by lia. unfold get_next, set_next, get_size, set_size.
  rewrite peek_bind by (apply inside_range; cbn; lia). rewrite poke_bind by (apply inside_range; cbn; lia).
  do 3 (rewrite peek_bind by (apply inside_range; cbn; lia)). rewrite poke_run by (apply inside_range; cbn; lia).
  cbn [words freelist begmem endmem]. wsimp. rewrite P1, E1, M1. unfold nodesize.
  rewrite (u32_small (sz + nsz m)), (u32_small (sz + nsz m + 2 * 16)), u32_small by (unfold is_u32; lia).
  eexists _, _. split; [reflexivity|]. destruct (coalesced_split _ _ _ (wf_coalesced _ _ Hw)) as (C1 & C2 & C3). destruct (C3 Hp) as [C4 _].
  apply (coalesced_split [] _ (m :: r)) in C2 as (_ & C2 & _). apply (coalesced_split [] m r) in C2 as (_ & C2 & C5). destruct (C5 Hm) as [_ C6].
  apply (wf_rebuild h l [p; Nd a sz false; m] [Nd (na p) (nsz p + 16 + sz + 16 + nsz m) true] r _ _ Hw); [|by apply coalesced_put|..].
  - cbn. intros b e (Hb' & _ & _ & _ & _ & Hs8 & _ & _ & Hm8 & <-). split_and!; [done|lia|by repeat apply mod8_add|lia].
  - intros n d [Hin|Hin] Hd.
    + specialize (Hl n Hin). by wsimp.
    + specialize (Hrn n Hin). by wsimp.
  - intros n ->%list_elem_of_singleton. unfold head_ok. cbn. wsimp. split_and!; [lia|done|done].
  - rewrite !frees_app. apply links_app. exists (na p). split.
    { eapply seg_same; [|exact HL]. intros n Hin%HLin%Hl. by wsimp. }
    cbn. split; [done|]. cbn in HR. rewrite Hm in HR. cbn in HR. destruct HR as [_ HR]. wsimp.
    eapply seg_same; [|exact HR]. intros n Hin%HRin%Hrn. by wsimp.
Qed.

(** What becomes of a node that is freed, between its neighbours. *)
Definition absorb (n : nd) (r : list nd) : list nd :=
  match r with m :: r' => if nfr m then Nd (na n) (nsz n + 16 + nsz m) true :: r' else n :: r | [] => [n] end.

Definition released (l : list nd) (a sz : Z) (r : list nd) : list nd :=
  match last l with
  | Some p => if nfr p then removelast l ++ absorb (Nd (na p) (nsz p + 16 + sz) true) r else l ++ absorb (Nd a sz true) r
  | None => l ++ absorb (Nd a sz true) r
  end.

Lemma GlobalFree_run h l a sz r : wf h (l ++ Nd a sz false :: r) ->
  exists w f, GlobalFree (a + 16) h = Ok (tt, Arena w f (begmem h) (endmem h)) /\ wf (Arena w f (begmem h) (endmem h)) (released l a sz r).
Proof.
  intros Hw. assert (Hn : Nd a sz false ∈ l ++ Nd a sz false :: r) by (apply elem_of_app; right; left).
  destruct (wf_range _ _ Hw) as (Hb0 & Hmax). destruct (wf_within h _ _ Hw Hn) as [Hb Ha16]. cbn in Hb, Ha16.
  destruct (wf_heads _ _ Hw _ Hn) as (E1 & E2 & E3). cbn in E1, E2, E3. destruct (wf_around _ _ _ _ Hw) as (_ & Hr & H0 & _ & _ & He). cbn in Hr, H0, He.
  unfold GlobalFree. rewrite get_bind, (proj2 (Z.eqb_neq _ 0)) by lia.
  assert (Epn : NODE_ADD (a + 16) (- nodesize) = a) by (unfold NODE_ADD, nodesize; rewrite u32_small by (unfold is_u32; lia); lia).
  rewrite Epn. cbv zeta. rewrite cksm_bind by (apply inside_range || done; lia). unfold get_free at 1. rewrite peek_bind, E2 by (apply inside_range; lia).
  cbn [negb Z.eqb FALSE]. pose proof (before_run h l (Nd a sz false) r Hw eq_refl) as R1. cbn [na] in R1. rewrite (bind_Ok _ _ _ _ _ R1).
  unfold get_size at 1. rewrite peek_bind, E1 by (apply inside_range; lia).
  assert (Enx : NODE_ADD a (u32 (sz + nodesize)) = a + 16 + sz).
  { unfold NODE_ADD, nodesize. rewrite (u32_small (sz + 16)), u32_small by (unfold is_u32; lia). lia. }
  rewrite Enx. assert (R2 : find_next (node_turns h) true (a + 16 + sz) h = Ok ((headaddr (frees r), head_free r), h)).
  { rewrite (find_next_run h Hmax Hb0 r).
    - rewrite next_of_eq. by rewrite andb_true_r.
    - pose proof (wf_tiles _ _ Hw) as Ht. apply tiles_app in Ht as (m & _ & (<- & _ & _ & Ht)). exact Ht.
    - intros n Hin. apply (wf_heads _ _ Hw), elem_of_app. right. by right.
    - lia.
    - pose proof (wf_fuel h _ Hw) as Hf. rewrite length_app in Hf. cbn in Hf. lia. }
  rewrite (bind_Ok _ _ _ _ _ R2). unfold set_free. rewrite poke_bind by (apply inside_range; lia).
  unfold released, last_free, head_free in *. destruct (last l) as [p|] eqn:El; [destruct (nfr p) eqn:Ep|].
  - apply last_Some in El as [l0 ->]. rewrite removelast_last. rewrite frees_app. cbn [frees List.filter]. rewrite Ep. unfold lastaddr. rewrite foldl_app. cbn [foldl].
    rewrite <- app_assoc in Hw. cbn [app] in Hw. destruct r as [|m r]; [|destruct (nfr m) eqn:Em].
    + exact (combine_prev_run h l0 p a sz [] Hw Ep eq_refl).
    + cbn. rewrite Em. exact (combine_both_run h l0 p a sz m r Hw Ep Em).
    + cbn [absorb]. rewrite Em. exact (combine_prev_run h l0 p a sz (m :: r) Hw Ep Em).
  - assert (Hlast : last_free l = false) by (unfold last_free; by rewrite El). destruct r as [|m r]; [|destruct (nfr m) eqn:Em].
    + exact (combine_none_run h l a sz [] Hw Hlast eq_refl).
    + cbn. rewrite Em. exact (combine_next_run h l a sz m r Hw Hlast Em).
    + cbn [absorb]. rewrite Em. exact (combine_none_run h l a sz (m :: r) Hw Hlast Em).
  - assert (Hlast : last_free l = false) by (unfold last_free; by rewrite El). destruct r as [|m r]; [|destruct (nfr m) eqn:Em].
    + exact (combine_none_run h l a sz [] Hw Hlast eq_refl).
    + cbn. rewrite Em. exact (combine_next_run h l a sz m r Hw Hlast Em).
    + cbn [absorb]. rewrite Em. exact (combine_none_run h l a sz (m :: r) Hw Hlast Em).
Qed.

(** ** [GlobalHeapInit] *)
Lemma GlobalHeapInit_run ptr size h : 0 < ptr -> 16 <= size -> size + 7 < 4294967296 -> ptr + rounded size < 4294967296 ->
  exists w, GlobalHeapInit ptr size h = Ok (tt, Arena w ptr ptr (ptr + rounded size)) /\
    wf (Arena w ptr ptr (ptr + rounded size)) [Nd ptr (rounded size - 16) true].
Proof.
  intros Hp Hs Hm Hmax. destruct (rounded_spec size ltac:(lia)) as (H1 & H2 & H3 & H4). unfold GlobalHeapInit. cbv zeta.
  rewrite ROUND_UP_small by lia. set (s := rounded size) in *. rewrite (proj2 (Z.eqb_neq ptr 0)) by lia.
  assert (En : NODE_ADD ptr s = ptr + s) by (unfold NODE_ADD; by rewrite u32_small by (unfold is_u32; lia)). rewrite En.
  rewrite (bind_Ok _ _ _ tt (Arena (words h) ptr ptr (ptr + s)) eq_refl). unfold set_size, set_next, set_free, set_cksm, nodesize. rewrite u32_small by (unfold is_u32; lia).
  do 3 (rewrite poke_bind by (apply inside_range; cbn; lia); cbn [words freelist begmem endmem]). rewrite poke_run by (apply inside_range; cbn; lia).
  cbn [words freelist begmem endmem]. eexists. split; [reflexivity|]. split; cbn.
  - lia.
  - split_and!; [done|lia| |lia]. by rewrite Zminus_mod, H4.
  - intros n ->%list_elem_of_singleton. unfold head_ok. cbn. wsimp. by split_and!.
  - split; [done|]. by wsimp.
  - by split.
  - lia.
Qed.

(** ** The heap as its users see it *)

(** The states the operations lead to, with the pieces that are in use: their
    addresses and the sizes that were asked for.  In between the users write
    into their pieces. *)
Inductive reach : arena -> gmap Z Z -> Prop :=
  | reach_init ptr size h0 h : 0 < ptr -> 16 <= size -> size + 7 < 4294967296 -> ptr + rounded size < 4294967296 ->
      GlobalHeapInit ptr size h0 = Ok (tt, h) -> reach h ∅
  | reach_malloc h live size p h' : reach h live -> 0 < size -> size + 7 < 4294967296 -> GlobalMalloc size h = Ok (p, h') ->
      reach h' (<[p := size]> live)
  | reach_free h live p size h' : reach h live -> live !! p = Some size -> GlobalFree p h = Ok (tt, h') -> reach h' (delete p live)
  | reach_write h live p size x v h' : reach h live -> live !! p = Some size -> p <= x < p + size -> poke x v h = Ok (tt, h') -> reach h' live.

(** The pieces are the nodes that are not free. *)
Definition pieces (ns : list nd) (live : gmap Z Z) : Prop :=
  (forall n, n ∈ ns -> nfr n = false -> exists s, live !! (na n + 16) = Some s /\ 0 < s <= nsz n) /\
  (forall p s, live !! p = Some s -> exists n, n ∈ ns /\ nfr n = false /\ na n + 16 = p).

Lemma pieces_node h ns live p s : wf h ns -> pieces ns live -> live !! p = Some s ->
  exists l sz r, ns = l ++ Nd (p - 16) sz false :: r /\ 0 < s <= sz.
Proof.
  intros Hw [H1 H2] Hp. destruct (H2 p s Hp) as (n & Hn & Hf & E). destruct (H1 n Hn Hf) as (s' & Hs' & Hr).
  rewrite E, Hp in Hs'. injection Hs' as <-. apply list_elem_of_split in Hn as (l & r & ->). exists l, (nsz n), r. split; [|done].
  destruct n as [a sz fr]. cbn in *. subst fr. by replace (p - 16) with a by lia.
Qed.

(** The allocated nodes after an operation. *)
Lemma elem_cut n a sz s : n ∈ cut a sz s -> nfr n = false -> na n = a /\ (s <= sz -> s <= nsz n).
Proof.
  unfold cut, cut_rest. intros [->|Hn]%elem_of_cons Hf.
  - cbn. split; [done|]. destruct (_ <? _); lia.
  - destruct (_ <? _); [|by apply elem_of_nil in Hn]. by apply list_elem_of_singleton in Hn as ->.
Qed.

Lemma pieces_malloc h l a sz r s size live : wf h (l ++ Nd a sz true :: r) -> s <= sz -> 0 < size <= s -> pieces (l ++ Nd a sz true :: r) live ->
  live !! (a + 16) = None /\ pieces (l ++ cut a sz s ++ r) (<[a + 16 := size]> live).
Proof.
  intros Hw Hs Hsize [H1 H2]. destruct (wf_around _ _ _ _ Hw) as (Hl & Hr & H0 & _). cbn in Hl, Hr, H0.
  assert (Hne : forall n, n ∈ l \/ n ∈ r -> na n <> a) by (intros n [Hn|Hn]; [specialize (Hl n Hn)|specialize (Hr n Hn)]; lia).
  split.
  - apply eq_None_not_Some. intros [s' Hs']. destruct (H2 _ _ Hs') as (n & Hn & Hf & E). assert (na n = a) by lia.
    apply elem_of_app in Hn as [Hn|[->|Hn]%elem_of_cons]; [by apply (Hne n); auto|done|by apply (Hne n); auto].
  - split.
    + intros n Hn Hf. rewrite !elem_of_app in Hn. assert (Hout : n ∈ l \/ n ∈ r -> exists s0, <[a + 16 := size]> live !! (na n + 16) = Some s0 /\ 0 < s0 <= nsz n).
      { intros Ho. specialize (Hne n Ho). rewrite lookup_insert_ne by lia. apply H1; [|done]. rewrite elem_of_app, elem_of_cons. tauto. }
      destruct Hn as [Hn|[Hn|Hn]]; [auto| |auto]. destruct (elem_cut n a sz s Hn Hf) as [-> Hsz]. exists size. rewrite lookup_insert_eq. split; [done|lia].
    + intros p s0 [[<- <-]|[Hp Hs0]]%lookup_insert_Some.
      * exists (Nd a (if THRESHOLD <? sz - s then s else sz) false). split_and!; [|done|done]. rewrite !elem_of_app. right. left. left.
      * destruct (H2 p s0 Hs0) as (n & Hn & Hf & E). exists n. split_and!; [|done|done]. rewrite !elem_of_app.
        apply elem_of_app in Hn as [Hn|[->|Hn]%elem_of_cons]; [by left|done|by right; right].
Qed.

Lemma elem_absorb n m r : nfr m = true -> nfr n = false -> n ∈ absorb m r <-> n ∈ r.
Proof.
  intros Hm Hn. unfold absorb. destruct r as [|x r].
  - rewrite list_elem_of_singleton. split; [intros ->; congruence|by intros ?%elem_of_nil].
  - destruct (nfr x) eqn:Ex; rewrite !elem_of_cons; naive_solver congruence.
Qed.

Lemma elem_released n l a sz r : nfr n = false -> n ∈ released l a sz r <-> n ∈ l \/ n ∈ r.
Proof.
  intros Hn. unfold released. destruct (last l) as [p|] eqn:El; [destruct (nfr p) eqn:Ep|]; rewrite elem_of_app, elem_absorb by done; [|tauto|tauto].
  apply last_Some in El as [l0 ->]. rewrite removelast_last, elem_of_app, list_elem_of_singleton. split; [tauto|]. intros [[?| ->]|?]; [tauto|congruence|tauto].
Qed.

Lemma pieces_free h l a sz r live : wf h (l ++ Nd a sz false :: r) -> pieces (l ++ Nd a sz false :: r) live -> pieces (released l a sz r) (delete (a + 16) live).
Proof.
  intros Hw [H1 H2]. destruct (wf_around _ _ _ _ Hw) as (Hl & Hr & H0 & _). cbn in Hl, Hr, H0.
  assert (Hne : forall n, n ∈ l \/ n ∈ r -> na n <> a) by (intros n [Hn|Hn]; [specialize (Hl n Hn)|specialize (Hr n Hn)]; lia). split.
  - intros n Hn Hf. apply elem_released in Hn; [|done]. specialize (Hne n Hn). rewrite lookup_delete_ne by lia. apply H1; [|done].
    rewrite elem_of_app, elem_of_cons. tauto.
  - intros p s [Hp Hs]%lookup_delete_Some. destruct (H2 p s Hs) as (n & Hn & Hf & E). exists n. split_and!; [|done|done]. apply elem_released; [done|].
    apply elem_of_app in Hn as [Hn|[->|Hn]%elem_of_cons]; [by left|cbn in E; lia|by right].
Qed.

(** A write into a piece does not touch the headers. *)
Lemma wf_write h ns live p s x v : wf h ns -> pieces ns live -> live !! p = Some s -> p <= x < p + s ->
  wf (Arena (<[x := v]> (words h)) (freelist h) (begmem h) (endmem h)) ns.
Proof.
  intros Hw Hp Hs Hx. destruct (pieces_node _ _ _ _ _ Hw Hp Hs) as (l & sz & r & -> & Hsz).
  destruct (wf_around _ _ _ _ Hw) as (Hl & Hr & H0 & _). cbn in Hl, Hr, H0.
  assert (Hfar : forall n d, n ∈ l ++ Nd (p - 16) sz false :: r -> 0 <= d < 16 -> <[x := v]> (words h) !!! (na n + d) = words h !!! (na n + d)).
  { intros n d Hn Hd. apply elem_of_app in Hn as [Hn|[->|Hn]%elem_of_cons]; [specialize (Hl n Hn)|cbn|specialize (Hr n Hn)]; by wsimp. }
  destruct Hw as [W1 W2 W3 W4 W5 W6]. split; cbn; [done|done| | |done..].
  - intros n Hn. unfold head_ok. rewrite !Hfar by (done || lia). by apply W3.
  - eapply seg_same; [|exact W4]. intros n [Hn _]%elem_of_frees. specialize (Hfar n 0 Hn ltac:(lia)). by rewrite Z.add_0_r in Hfar.
Qed.

Lemma reach_wf h live : reach h live -> exists ns, wf h ns /\ pieces ns live.
Proof.
  induction 1 as [ptr size h0 h Hp Hs Hm Hmax R|h live size p h' _ (ns & Hw & Hpc) Hs Hm R|h live p size h' _ (ns & Hw & Hpc) Hp R|h live p size x v h' _ (ns & Hw & Hpc) Hp Hx R].
  - destruct (GlobalHeapInit_run ptr size h0 Hp Hs Hm Hmax) as (w & R' & Hw). rewrite R in R'. injection R' as ->. eexists. split; [exact Hw|]. split.
    + by intros n ->%list_elem_of_singleton.
    + intros p s. by rewrite lookup_empty.
  - destruct (rounded_spec size Hs) as (S1 & S2 & S3 & S4).
    destruct (GlobalMalloc_run h ns size Hw Hs Hm) as [(l & a & sz & r & w & f & -> & _ & Hsz & R' & Hw')|[_ R']]; rewrite R in R'; [|done].
    injection R' as -> ->. eexists. split; [exact Hw'|]. by apply (pieces_malloc h l a sz r).
  - destruct (pieces_node _ _ _ _ _ Hw Hpc Hp) as (l & sz & r & -> & Hsz). destruct (GlobalFree_run h l (p - 16) sz r Hw) as (w & f & R' & Hw').
    replace (p - 16 + 16) with p in R' by lia. rewrite R in R'. injection R' as ->. eexists. split; [exact Hw'|].
    replace p with (p - 16 + 16) at 2 by lia. by apply (pieces_free h).
  - exists ns. unfold poke in R. destruct (inside h x); [|done]. injection R as <-. split; [by eapply wf_write|done].
Qed.

(** ** [GlobalCalloc] *)

(** The words of a piece in use are set to 0. *)
Lemma zero_words_run E h live p s k : reach h live -> live !! p = Some s -> 0 <= k -> 4 * k <= s ->
  runs E (zero_words p k) h (fun _ h' => reach h' live /\ forall i, 0 <= i < k -> words h' !!! (p + 4 * i) = 0).
Proof.
  intros Hr Hp Hk Hs. eapply runs_mono; [|apply (runs_for_each E (fun i => poke (p + 4 * i) 0) (seqZ 0 k)
    (fun j h' => reach h' live /\ forall i, 0 <= i < Z.of_nat j -> words h' !!! (p + 4 * i) = 0))].
  - intros [] h' [H1 H2]. rewrite length_seqZ in H2. split; [done|]. intros i Hi. apply H2. lia.
  - split; [done|lia].
  - intros j x h1 [-> Hj]%lookup_seqZ [H1 H2]. rewrite Z.add_0_l. destruct (reach_wf h1 live H1) as (ns & Hw & Hpc).
    destruct (pieces_node _ _ _ _ _ Hw Hpc Hp) as (l & sz & r & -> & Hsz). destruct (wf_around _ _ _ _ Hw) as (_ & _ & _ & _ & _ & He).
    destruct (wf_within h1 _ (Nd (p - 16) sz false) Hw ltac:(apply elem_of_app; right; left)) as [Hb _]. cbn in Hb, He.
    assert (R := poke_run (p + 4 * Z.of_nat j) 0 h1 ltac:(apply inside_range; lia)).
    eapply runs_ok; [exact R|]. split.
    + apply (reach_write h1 live p s (p + 4 * Z.of_nat j) 0 _ H1 Hp ltac:(lia) R).
    + intros i Hi. cbn [words]. destruct (decide (i = Z.of_nat j)) as [->|Hne]; [by rewrite lookup_total_insert_eq|].
      rewrite lookup_total_insert_ne by lia. apply H2. lia.
Qed.

Lemma rounded_idem size : rounded (rounded size) = rounded size.
Proof.
  unfold rounded. f_equal. replace (8 * ((size + 7) `div` 8) + 7) with (7 + ((size + 7) `div` 8) * 8) by lia.
  rewrite Z.div_add by lia. by rewrite (Z.div_small 7 8).
Qed.

(** If the product of the arguments is a size, a new piece of that size is
    handed out, and its words are 0; or the program ends with a message. *)
Lemma GlobalCalloc_zero h live n size : reach h live -> 0 < n * size -> n * size + 14 < 4294967296 ->
  runs (eq "cannot allocate global memory."%string) (GlobalCalloc n size) h (fun p h' => live !! p = None /\
    reach h' (<[p := rounded (n * size)]> live) /\ forall i, 0 <= i < rounded (n * size) / 4 -> words h' !!! (p + 4 * i) = 0).
Proof.
  intros Hr Hs Hm. destruct (rounded_spec (n * size) Hs) as (S1 & S2 & S3 & S4). destruct (reach_wf h live Hr) as (ns & Hw & Hpc).
  unfold GlobalCalloc. cbv zeta. rewrite (u32_small (n * size)), ROUND_UP_small by (unfold is_u32; lia). apply runs_bind.
  destruct (GlobalMalloc_run h ns (rounded (n * size)) Hw ltac:(lia) ltac:(lia)) as [(l & a & sz & r & w & f & -> & _ & Hsz & R & _)|[_ R]].
  2:{ unfold runs. by rewrite R. }
  rewrite rounded_idem in Hsz.
  eapply runs_ok; [exact R|]. pose proof (reach_malloc _ _ (rounded (n * size)) _ _ Hr ltac:(lia) ltac:(lia) R) as Hr'.
  destruct (pieces_malloc h l a sz r (rounded (n * size)) (rounded (n * size)) live Hw) as [Hnone _]; [lia|lia|done|].
  rewrite Z.shiftr_div_pow2 by lia. change (2 ^ 2) with 4. pose proof (Z.mul_div_le (rounded (n * size)) 4 ltac:(lia)). pose proof (Z.div_pos (rounded (n * size)) 4 ltac:(lia) ltac:(lia)).
  apply runs_bind. eapply runs_mono; [|eapply (zero_words_run _ _ _ (a + 16) (rounded (n * size))); [exact Hr'|apply lookup_insert_eq|lia..]].
  intros [] h' [H1 H2]. eapply runs_ok; [reflexivity|]. done.
Qed.

(** ** [GlobalMemMax] *)
Lemma over_free_run h g : forall fs fuel acc curr, (forall n, n ∈ fs -> within h n /\ na n <> 0 /\ head_ok (words h) n /\ nfr n = true) ->
  seg (words h) curr fs 0 -> (length fs <= fuel)%nat -> over_free g fuel acc curr h = Ok (foldl (fun acc n => g acc (nsz n)) acc fs, h).
Proof.
  induction fs as [|n fs IH]; intros fuel acc curr Hall Hseg Hf; cbn in Hseg; [subst; by destruct fuel|].
  destruct Hseg as [-> Hseg]. destruct (Hall n ltac:(left)) as ([Hw1 Hw2] & Hne & (Hs & _) & _). destruct fuel as [|fuel]; [cbn in Hf; lia|].
  cbn [over_free foldl]. rewrite (proj2 (Z.eqb_neq _ 0) Hne). unfold get_size, get_next. rewrite peek_bind, Hs by (apply inside_range; lia).
  rewrite peek_bind by (apply inside_range; lia). apply IH; [intros m Hm; apply Hall; by right|done|cbn in Hf; lia].
Qed.

Lemma land_at_most a b : 0 <= a -> 0 <= b -> Z.land a b <= a.
Proof.
  intros Ha Hb. assert (E : Z.ldiff (Z.land a b) a = 0).
  { apply Z.bits_inj'. intros n _. rewrite Z.ldiff_spec, Z.land_spec, Z.bits_0. by destruct (Z.testbit a n), (Z.testbit b n). }
  pose proof (Z.sub_nocarry_ldiff a (Z.land a b) E). assert (0 <= Z.ldiff a (Z.land a b)) by (apply Z.ldiff_nonneg; by left). lia.
Qed.

Lemma GlobalMemMax_bound h ns s : wf h ns -> 0 < s -> Forall (fun n => nsz n < s) (frees ns) -> exists m, GlobalMemMax h = Ok (m, h) /\ m < s.
Proof.
  intros Hw Hs HF. unfold GlobalMemMax. rewrite get_bind.
  pose proof (over_free_run h (fun max s => if max <? s then s else max) (frees ns) (node_turns h) 0 (freelist h)) as R.
  pose proof (wf_fuel h ns Hw). pose proof (frees_length ns).
  specialize (R ltac:(intros n Hn; by apply (wf_free_nodes h ns)) (wf_links _ _ Hw) ltac:(lia)). rewrite (bind_Ok _ _ _ _ _ R). eexists. split.
  - reflexivity.
  - assert (Hgen : forall fs acc, 0 <= acc < s -> (forall n, n ∈ fs -> 0 <= nsz n) -> Forall (fun n => nsz n < s) fs ->
      0 <= foldl (fun acc n => if acc <? nsz n then nsz n else acc) acc fs < s).
    { induction fs as [|n fs IH]; intros acc Hacc Hnn HFs; [done|]. apply Forall_cons in HFs as [Hn HFs]. cbn. apply IH; [|intros m Hm; apply Hnn; by right|done].
      specialize (Hnn n ltac:(left)). destruct (acc <? nsz n); lia. }
    unfold ROUND_DN. specialize (Hgen (frees ns) 0 ltac:(lia)). destruct Hgen as [G0 G1]; [|done|].
    + intros n [Hn _]%elem_of_frees. by destruct (tiles_elem _ _ _ _ (wf_tiles _ _ Hw) Hn) as (_ & ? & _).
    + pose proof (land_at_most _ 4294967288 G0 ltac:(lia)). lia.
Qed.

(** C29: the heap is safe, whatever sequence of [GlobalMalloc], [GlobalFree] and
    writes into pieces in use has led to its state.  The pieces in use lie
    inside the heap, behind a header, at its alignment, and do not overlap;
    each of them can be freed; a request either gets a piece that is not in
    use or ends the program with its message, and the latter only if every
    free node is too small; and when nothing is in use the heap is one free
    node again. *)
Theorem heap_safe h live : reach h live ->
  (forall p s, live !! p = Some s -> begmem h + 16 <= p /\ p + s <= endmem h /\ p `mod` 8 = begmem h `mod` 8) /\
  (forall p s q t, live !! p = Some s -> live !! q = Some t -> p <> q -> p + s <= q \/ q + t <= p) /\
  (forall p s, live !! p = Some s -> exists h', GlobalFree p h = Ok (tt, h')) /\
  (forall size, 0 < size -> size + 7 < 4294967296 ->
    (exists p h', GlobalMalloc size h = Ok (p, h') /\ live !! p = None) \/
    (exists m, GlobalMemMax h = Ok (m, h) /\ m < rounded size /\ GlobalMalloc size h = Exit "cannot allocate global memory.")) /\
  (live = ∅ -> freelist h = begmem h /\ words h !!! (begmem h + 4) = endmem h - begmem h - 16).
Proof.
  intros Hreach. destruct (reach_wf h live Hreach) as (ns & Hw & Hp). split_and!.
  - intros p s Hs. destruct (pieces_node _ _ _ _ _ Hw Hp Hs) as (l & sz & r & -> & Hsz). destruct (wf_around _ _ _ _ Hw) as (_ & _ & _ & _ & Hmod & He).
    destruct (wf_within h _ (Nd (p - 16) sz false) Hw ltac:(apply elem_of_app; right; left)) as [Hb _]. cbn in *. split_and!; [lia..|].
    rewrite <- Hmod. replace p with (p - 16 + 2 * 8) at 1 by lia. by rewrite Z.mod_add.
  - intros p s q t Hs Ht Hne. destruct (pieces_node _ _ _ _ _ Hw Hp Hs) as (l & sz & r & -> & Hsz). destruct (pieces_node _ _ _ _ _ Hw Hp Ht) as (l' & tz & r' & E & Htz).
    destruct (wf_around _ _ _ _ Hw) as (Hl & Hr & _). assert (Hq : Nd (q - 16) tz false ∈ l ++ Nd (p - 16) sz false :: r) by (rewrite E; apply elem_of_app; right; left).
    pose proof Hw as Hw0. clear Hl. cbn in Hr.
    apply elem_of_app in Hq as [Hq|[[= Hq _]|Hq]%elem_of_cons]; [|lia|left; specialize (Hr _ Hq); cbn in Hr; lia].
    right. apply list_elem_of_split in Hq as (l1 & l2 & ->). pose proof (wf_before h _ (Nd (p - 16) sz false) r (Nd (q - 16) tz false) Hw0) as Hb. cbn in Hb.
    specialize (Hb ltac:(apply elem_of_app; right; left)). lia.
  - intros p s Hs. destruct (pieces_node _ _ _ _ _ Hw Hp Hs) as (l & sz & r & -> & Hsz). destruct (GlobalFree_run h l (p - 16) sz r Hw) as (w & f & R & _).
    replace (p - 16 + 16) with p in R by lia. eauto.
  - intros size Hs Hm. destruct (rounded_spec size Hs) as (S1 & S2 & S3 & S4).
    destruct (GlobalMalloc_run h ns size Hw Hs Hm) as [(l & a & sz & r & w & f & -> & _ & Hsz & R & _)|[HF R]].
    + left. eexists _, _. split; [exact R|]. by apply (pieces_malloc h l a sz r (rounded size) size live Hw Hsz).
    + right. destruct (GlobalMemMax_bound h ns (rounded size) Hw ltac:(lia) HF) as (m & ? & ?). by exists m.
  - intros ->. destruct Hp as [H1 _]. assert (Hall : forall n, n ∈ ns -> nfr n = true).
    { intros n Hn. destruct (nfr n) eqn:E; [done|]. destruct (H1 n Hn E) as (s & Hs & _). by rewrite lookup_empty in Hs. }
    destruct Hw as [W1 W2 W3 W4 W5 W6]. destruct ns as [|n [|m ns]].
    + cbn in W2. lia.
    + cbn in W2, W4. rewrite (Hall n) in W4 by left. destruct W2 as (<- & _ & _ & W2). destruct (W3 n ltac:(left)) as (E1 & _).
      split; [apply W4|]. rewrite E1. lia.
    + destruct W5 as [W5 _]. specialize (W5 (Hall n ltac:(left))). specialize (Hall m ltac:(right; left)). congruence.
Qed.

(** A heap with two pieces. *)
Definition after {A} (m : MH A) (h : arena) : arena := match m h with Ok (_, h') => h' | _ => h end.
Definition heap0 : arena := after (GlobalHeapInit 4096 400) no_arena.
Definition heap1 : arena := after (GlobalMalloc 36) heap0.
Definition heap2 : arena := after (GlobalMalloc 41) heap1.
Definition live2 : gmap Z Z := <[4168 := 41]> (<[4112 := 36]> ∅).

Lemma reach_heap0 : reach heap0 ∅.
Proof. apply (reach_init 4096 400 no_arena); try (vm_compute; reflexivity). vm_compute. discriminate. Qed.

Lemma reach_heap2 : reach heap2 live2.
Proof.
  unfold live2. apply (reach_malloc heap1 _ 41 4168); try (vm_compute; reflexivity).
  apply (reach_malloc heap0 _ 36 4112); try (vm_compute; reflexivity). apply reach_heap0.
Qed.

Lemma heap_safe_witness : (4112 + 36 <= 4168 \/ 4168 + 41 <= 4112) /\ (exists h', GlobalFree 4112 heap2 = Ok (tt, h')) /\
  exists m, GlobalMemMax heap2 = Ok (m, heap2) /\ m < rounded 10000 /\ GlobalMalloc 10000 heap2 = Exit "cannot allocate global memory.".
Proof.
  destruct (heap_safe heap2 live2 reach_heap2) as (_ & H2 & H3 & H4 & _).
  split; [exact (H2 4112 36 4168 41 eq_refl eq_refl ltac:(discriminate))|]. split; [exact (H3 4112 36 eq_refl)|].
  destruct (H4 10000 eq_refl eq_refl) as [(p & h' & R & _)|R]; [exfalso|exact R]. vm_compute in R. discriminate R.
Defined.

(** ** Room for pieces of the same size *)
Lemma tiles_unique w ns : forall ns' a e, (forall n, n ∈ ns -> head_ok w n) -> (forall n, n ∈ ns' -> head_ok w n) -> tiles a e ns -> tiles a e ns' -> ns = ns'.
Proof.
  induction ns as [|n ns IH]; intros [|n' ns'] a e H1 H2 T1 T2; [done|..].
  - destruct T2 as (<- & Hs & _ & T2). apply tiles_le in T2. cbn in T1. lia.
  - destruct T1 as (<- & Hs & _ & T1). apply tiles_le in T1. cbn in T2. lia.
  - destruct T1 as (En & _ & _ & T1), T2 as (En' & _ & _ & T2). destruct (H1 n ltac:(left)) as (S1 & F1 & _), (H2 n' ltac:(left)) as (S2 & F2 & _).
    assert (n = n') as ->.
    { destruct n as [a1 s1 f1], n' as [a2 s2 f2]. cbn in *. subst a1 a2. rewrite S1 in S2. rewrite F1 in F2. destruct f1, f2; by subst. }
    f_equal. apply (IH ns' (a + 16 + nsz n') e); [intros m Hm; apply H1; by right|intros m Hm; apply H2; by right|done..].
Qed.

Lemma wf_unique h ns ns' : wf h ns -> wf h ns' -> ns = ns'.
Proof. intros [_ T1 H1 _ _ _] [_ T2 H2 _ _ _]. by apply (tiles_unique (words h) ns ns' (begmem h) (endmem h)). Qed.

(** A piece is in use. *)
Definition in_use (h : arena) (p : Z) : Prop := exists ns n, wf h ns /\ n ∈ ns /\ nfr n = false /\ na n + 16 = p.

(** Room for [k] more pieces of [size] bytes, each with its header. *)
Definition room (size : Z) (h : arena) (k : nat) : Prop := exists ns, wf h ns /\
  (k = 0%nat \/ exists n, n ∈ frees ns /\ (rounded size + 16) * Z.of_nat k <= nsz n).

Lemma malloc_room size h k : 16 < size -> size + 7 < 4294967296 -> room size h (S k) ->
  exists p h', GlobalMalloc size h = Ok (p, h') /\ p <> 0 /\ ~ in_use h p /\ (forall q, in_use h' q <-> q = p \/ in_use h q) /\ room size h' k.
Proof.
  intros Hs Hm (ns & Hw & [?|(n & Hn & Hk)]); [done|]. destruct (rounded_spec size ltac:(lia)) as (S1 & S2 & S3 & S4).
  destruct (GlobalMalloc_run h ns size Hw ltac:(lia) Hm) as [(l & a & sz & r & w & f & -> & _ & Hsz & R & Hw')|[HF _]].
  2:{ rewrite Forall_forall in HF. specialize (HF n Hn). nia. }
  assert (Ha : Nd a sz true ∈ l ++ Nd a sz true :: r) by (apply elem_of_app; right; left).
  exists (a + 16), (Arena w f (begmem h) (endmem h)). split_and!; [done| | | |].
  - pose proof (wf_nonzero h _ _ Hw Ha). destruct (wf_within h _ _ Hw Ha). pose proof (wf_range _ _ Hw). cbn in *. lia.
  - intros (ns & m & Hw2 & Hmin & Hf & E). rewrite <- (wf_unique _ _ _ Hw Hw2) in Hmin.
    destruct (wf_apart h _ m (Nd a sz true) Hw Hmin Ha) as [?|[?|?]]; cbn in *; [|lia..].
    destruct (wf_heads _ _ Hw m Hmin) as (_ & F1 & _), (wf_heads _ _ Hw _ Ha) as (_ & F2 & _). cbn in F2. rewrite Hf in F1.
    replace (na m) with a in F1 by lia. by rewrite F1 in F2.
  - intros q. split.
    + intros (ns & m & Hw2 & Hmin & Hf & E). rewrite <- (wf_unique _ _ _ Hw' Hw2) in Hmin. rewrite !elem_of_app in Hmin. destruct Hmin as [Hmin|[Hmin|Hmin]].
      * right. exists (l ++ Nd a sz true :: r), m. split_and!; [done| |done..]. apply elem_of_app. by left.
      * left. destruct (elem_cut m a sz _ Hmin Hf) as [? _]. lia.
      * right. exists (l ++ Nd a sz true :: r), m. split_and!; [done| |done..]. apply elem_of_app. right. by right.
    + intros [->|(ns & m & Hw2 & Hmin & Hf & E)].
      * eexists _, (Nd a _ false). split_and!; [exact Hw'| |done|done]. rewrite !elem_of_app. right. left. left.
      * rewrite <- (wf_unique _ _ _ Hw Hw2) in Hmin. exists (l ++ cut a sz (rounded size) ++ r), m. split_and!; [done| |done..].
        rewrite !elem_of_app. apply elem_of_app in Hmin as [?|[->|?]%elem_of_cons]; [by left|done|by right; right].
  - exists (l ++ cut a sz (rounded size) ++ r). split; [done|]. destruct k as [|k]; [by left|]. right.
    rewrite frees_middle in Hn by done. apply elem_of_app in Hn as [Hn|[->|Hn]%elem_of_cons].
    + exists n. rewrite !frees_app, !elem_of_app. split; [by left|nia].
    + cbn in Hk. exists (Nd (a + 16 + rounded size) (sz - 16 - rounded size) true). rewrite !frees_app, frees_cut, !elem_of_app. split; [|cbn; nia].
      right. left. unfold cut_rest, THRESHOLD, nodesize. rewrite (proj2 (Z.ltb_lt (16 + 16) (sz - rounded size))) by nia. left.
    + exists n. rewrite !frees_app, !elem_of_app. split; [by right; right|nia].
Qed.
