(* ===== verification/RayPool.v ===== *)
(** * The work pools of the ray tracer ([src/Tmk/apps/raytrace_c/src/WORKPOOL.C])

    The screen is cut into blocks, which are dealt to the processes, and every
    block into bundles of pixels, the jobs.  The pool of a process is a stack of
    jobs, linked through shared memory that [GlobalMalloc] hands out. *)
From S2P Require Import Prelude.
Local Open Scope Z_scope.

(** ** Shared memory *)

(** What is used of [GMEM], and the fields of a [WPJOB] at an address. *)
Inductive place : Type :=
  | wpstat (pid : Z) | workpool (pid : Z)
  | xpix (a : Z) | ypix (a : Z) | xdim (a : Z) | ydim (a : Z) | next (a : Z).

#[global] Instance place_eq_dec : EqDecision place.
Proof. solve_decision. Defined.
#[global] Instance place_countable : Countable place.
Proof.
  refine (inj_countable'
    (fun l => match l with wpstat i => (0, i) | workpool i => (1, i) | xpix a => (2, a) | ypix a => (3, a) | xdim a => (4, a) | ydim a => (5, a) | next a => (6, a) end)
    (fun '(t, a) => match t with 0 => wpstat a | 1 => workpool a | 2 => xpix a | 3 => ypix a | 4 => xdim a | 5 => ydim a | _ => next a end) _).
  by intros [].
Defined.

Abbreviation memory := (gmap place Z).

Definition WPS_EMPTY : Z := 0.
Definition WPS_VALID : Z := 1.
Definition MAX_PROCS : Z := 128.
Definition sizeof_WPJOB : Z := 20.

(** What the pools need of the allocator: as long as there is room, a piece of
    memory that is not in use. *)
Class Heap (H : Type) : Type := {
  heap_malloc : Z -> M H Z;
  heap_live : H -> Z -> Prop;
  heap_room : H -> nat -> Prop;
  heap_malloc_ok h k : heap_room h (S k) -> exists a h', heap_malloc sizeof_WPJOB h = Ok (a, h') /\ a <> 0 /\ ~ heap_live h a /\
    (forall b, heap_live h' b <-> b = a \/ heap_live h b) /\ heap_room h' k
}.

Record gmem (H : Type) : Type := Gmem { shared : memory; heap : H }.
#[global] Arguments Gmem {H} _ _.
#[global] Arguments shared {H} _.
#[global] Arguments heap {H} _.

Section Pool.
Context {H : Type} `{Heap H}.

Definition in_arrays (l : place) : bool :=
  match l with wpstat i | workpool i => (0 <=? i) && (i <? MAX_PROCS) | _ => true end.

Definition load (l : place) : M (gmem H) Z := if in_arrays l then gets (fun s => shared s !!! l) else undef.
Definition store (l : place) (v : Z) : M (gmem H) unit :=
  if in_arrays l then modify (fun s => Gmem (<[l := v]> (shared s)) (heap s)) else undef.

Definition GlobalMalloc (size : Z) : M (gmem H) Z := fun s =>
  match heap_malloc size (heap s) with
  | Ok (a, h) => Ok (a, Gmem (shared s) h)
  | Exit w => Exit w
  | Undef => Undef
  | Block => Block
  end.

(** ** [PutJob] *)

(** [xb_size] and [yb_size]: up to the end of the block. *)
Definition bundle_size (addr be last : Z) : Z :=
  if s32 (s32 (addr + be) - 1) <=? last then be else s32 (s32 (last - addr) + 1).

Definition put_bundle (xb_addr yb_addr xb_size yb_size pid : Z) : M (gmem H) unit :=
  wpentry ← GlobalMalloc sizeof_WPJOB;
  store (xpix wpentry) xb_addr;;
  store (ypix wpentry) yb_addr;;
  store (xdim wpentry) xb_size;;
  store (ydim wpentry) yb_size;;
  top ← load (workpool pid);
  (if top =? 0 then store (next wpentry) 0 else top ← load (workpool pid); store (next wpentry) top);;
  store (workpool pid) wpentry.

Section Bundles.
Context (fuel : nat) (xs ys xe ye xbe ybe pid : Z).

Definition xb_end : Z := s32 (s32 (xs + xe) - 1).
Definition yb_end : Z := s32 (s32 (ys + ye) - 1).

(** The loop over [j], and the one over [i]; without an end they do not return. *)
Fixpoint put_row (fuel : nat) (yb_addr j xb_addr : Z) : M (gmem H) unit :=
  if j <? xe then
    match fuel with
    | O => block
    | S fuel' =>
        put_bundle xb_addr yb_addr (bundle_size xb_addr xbe xb_end) (bundle_size yb_addr ybe yb_end) pid;;
        put_row fuel' yb_addr (s32 (j + xbe)) (s32 (xb_addr + xbe))
    end
  else skip.

Fixpoint put_rows (fuel' : nat) (i yb_addr : Z) : M (gmem H) unit :=
  if i <? ye then
    match fuel' with
    | O => block
    | S fuel' => put_row fuel yb_addr 0 xs;; put_rows fuel' (s32 (i + ybe)) (s32 (yb_addr + ybe))
    end
  else skip.

Definition PutJob : M (gmem H) unit := put_rows fuel 0 ys.
End Bundles.

(** ** [InitWorkPool] *)
Section Init.
Context (fuel : nat) (nprocs xres yres blockx blocky bundlex bundley : Z).

Definition clear_pools : M (gmem H) unit :=
  for_each (fun i => store (wpstat i) WPS_VALID;; store (workpool i) 0) (seqZ 0 nprocs).

(** How much of a block fits the screen. *)
Definition extent (x xsize xres : Z) : Z := if xres <? s32 (x + xsize) then s32 (xres - x) else xsize.

(** The loops over [x] and [y]; the result is [i]. *)
Fixpoint init_row (fuel' : nat) (xsize y ye x i : Z) : M (gmem H) Z :=
  if x <? xres then
    match fuel' with
    | O => block
    | S fuel' =>
        PutJob fuel x y (extent x xsize xres) ye bundlex bundley i;;
        init_row fuel' xsize y ye (s32 (x + xsize)) (s32 (i + 1) `rem` nprocs)
    end
  else mret i.

Fixpoint init_rows (fuel' : nat) (xsize ysize y i : Z) : M (gmem H) Z :=
  if y <? yres then
    match fuel' with
    | O => block
    | S fuel' =>
        i ← init_row fuel xsize y (extent y ysize yres) 0 i;
        init_rows fuel' xsize ysize (s32 (y + ysize)) i
    end
  else mret i.

Definition InitWorkPool : M (gmem H) unit :=
  clear_pools;;
  if (blockx =? 0) || (blocky =? 0) then undef
  else
    _ ← init_rows fuel (xres `quot` blockx) (yres `quot` blocky) 0 0;
    mret tt.
End Init.
End Pool.

(** ** Rectangles *)
Record job : Type := Job { jx : Z; jy : Z; jw : Z; jh : Z }.

(** A row or a column of [n] pixels, cut into pieces of [step]: where they
    start, and how long they are. *)
Fixpoint cuts (fuel : nat) (a n step : Z) : list (Z * Z) :=
  if n <=? 0 then []
  else match fuel with O => [] | S fuel' => (a, Z.min step n) :: cuts fuel' (a + step) (n - step) step end.

Definition bundles (fuel : nat) (bundlex bundley x y w h : Z) : list job :=
  cy ← cuts fuel y h bundley; cx ← cuts fuel x w bundlex; [Job cx.1 cy.1 cx.2 cy.2].

Abbreviation pixel := (list Z).
Definition grid (xs ys : list Z) : list pixel := y ← ys; (fun x => [x; y]) <$> xs.
Definition pixels (j : job) : list pixel := grid (seqZ (jx j) (jw j)) (seqZ (jy j) (jh j)).
Abbreviation screen xres yres := (pixels (Job 0 0 xres yres)).

Lemma cuts_cover fuel : forall a n step, 0 < step -> n <= Z.of_nat fuel -> (cuts fuel a n step ≫= fun c => seqZ c.1 c.2) = seqZ a n.
Proof.
  induction fuel as [|fuel IH]; intros a n step Hs Hn; cbn [cuts]; destruct (Z.leb_spec n 0).
  1-3: by rewrite seqZ_nil by lia.
  - cbn [mbind list_bind fst snd]. change (seqZ a (Z.min step n) ++ (cuts fuel (a + step) (n - step) step ≫= fun c => seqZ c.1 c.2) = seqZ a n).
    rewrite IH by lia. destruct (Z.le_gt_cases step n).
    + rewrite Z.min_l by lia. replace n with (step + (n - step)) at 2 by lia. by rewrite seqZ_app by lia.
    + rewrite Z.min_r by lia. by rewrite (seqZ_nil (a + step)), app_nil_r by lia.
Qed.

Lemma cuts_elem fuel : forall a n step c, 0 < step -> c ∈ cuts fuel a n step -> a <= c.1 /\ 0 < c.2 /\ c.2 <= step /\ c.1 + c.2 <= a + n.
Proof.
  induction fuel as [|fuel IH]; intros a n step c Hs Hc; cbn [cuts] in Hc; destruct (Z.leb_spec n 0); try by apply elem_of_nil in Hc.
  apply elem_of_cons in Hc as [->|Hc]; [cbn; lia|]. apply IH in Hc; lia.
Qed.

Lemma bind_assoc_list {A B C} (l : list A) (f : A -> list B) (g : B -> list C) : (l ≫= f) ≫= g = l ≫= fun x => f x ≫= g.
Proof. induction l as [|x l IH]; [done|]. cbn. by rewrite bind_app, IH. Qed.

Lemma list_bind_ext {A B} (l : list A) (f g : A -> list B) : (forall x, x ∈ l -> f x ≡ₚ g x) -> l ≫= f ≡ₚ l ≫= g.
Proof.
  induction l as [|x l IH]; intros Hfg; [done|]. cbn. apply Permutation_app; [apply Hfg; left|]. apply IH. intros y Hy. apply Hfg. by right.
Qed.

Lemma grid_app_r xs ys ys' : grid xs (ys ++ ys') = grid xs ys ++ grid xs ys'.
Proof. apply bind_app. Qed.

Lemma grid_app_l xs xs' ys : grid (xs ++ xs') ys ≡ₚ grid xs ys ++ grid xs' ys.
Proof.
  induction ys as [|y ys IH]; [done|]. cbn. change (ys ≫= fun y0 => (fun x => [x; y0]) <$> xs ++ xs') with (grid (xs ++ xs') ys).
  rewrite IH, fmap_app. rewrite <- !app_assoc. apply Permutation_app_head. rewrite !app_assoc. apply Permutation_app_tail, Permutation_app_comm.
Qed.

Lemma grid_nil_l ys : grid [] ys = [].
Proof. induction ys as [|y ys IH]; [done|]. exact IH. Qed.

(** A grid cut in both directions. *)
Lemma grid_cuts {A B} (f : A -> list Z) (g : B -> list Z) cxs cys :
  (cy ← cys; cx ← cxs; grid (f cx) (g cy)) ≡ₚ grid (cxs ≫= f) (cys ≫= g).
Proof.
  induction cys as [|cy cys IH]; [done|]. cbn [mbind list_bind]. rewrite grid_app_r. apply Permutation_app; [|exact IH].
  clear IH. induction cxs as [|cx cxs IH]; cbn [mbind list_bind]; [by rewrite grid_nil_l|]. rewrite grid_app_l. by apply Permutation_app.
Qed.

Lemma bundles_pixels fuel bundlex bundley x y w h : 0 < bundlex -> 0 < bundley -> w <= Z.of_nat fuel -> h <= Z.of_nat fuel ->
  (bundles fuel bundlex bundley x y w h ≫= pixels) ≡ₚ pixels (Job x y w h).
Proof.
  intros Hx Hy Hw Hh. unfold bundles, pixels at 2. cbn [jx jy jw jh].
  rewrite <- (cuts_cover fuel x w bundlex), <- (cuts_cover fuel y h bundley) by done. rewrite <- grid_cuts.
  rewrite bind_assoc_list. apply list_bind_ext. intros cy _. rewrite bind_assoc_list. apply list_bind_ext. intros cx _. cbn. by rewrite app_nil_r.
Qed.

(** ** The pools as lists of jobs *)
Fixpoint chain (m : memory) (a : Z) (ads : list Z) : Prop :=
  match ads with [] => a = 0 | b :: ads' => a = b /\ b <> 0 /\ chain m (m !!! next b) ads' end.

Definition job_at (m : memory) (a : Z) : job := Job (m !!! xpix a) (m !!! ypix a) (m !!! xdim a) (m !!! ydim a).

(** The fields of an entry. *)
Definition field_of (l : place) : option Z :=
  match l with wpstat _ | workpool _ => None | xpix a | ypix a | xdim a | ydim a | next a => Some a end.

Lemma chain_frame m m' ads : forall a, (forall b, b ∈ ads -> m' !!! next b = m !!! next b) -> chain m a ads -> chain m' a ads.
Proof.
  induction ads as [|b ads IH]; intros a Hf; [done|]. cbn. intros (-> & Hb & Hc). split_and!; [done..|]. rewrite Hf by left.
  apply IH; [|done]. intros c Hcin. apply Hf. by right.
Qed.

Section Pools.
Context {H : Type} `{Heap H}.

Record pools (s : gmem H) (js : list (list job)) : Prop := {
  po_size : Z.of_nat (length js) <= MAX_PROCS;
  po_stat i : (i < length js)%nat -> shared s !!! wpstat (Z.of_nat i) = WPS_VALID;
  po_chain i q : js !! i = Some q -> exists ads, chain (shared s) (shared s !!! workpool (Z.of_nat i)) ads /\
    job_at (shared s) <$> ads = q /\ forall a, a ∈ ads -> heap_live (heap s) a
}.

Lemma load_ok l (s : gmem H) : in_arrays l = true -> load l s = Ok (shared s !!! l, s).
Proof. intros E. unfold load. by rewrite E. Qed.

Lemma store_ok l v (s : gmem H) : in_arrays l = true -> store l v s = Ok (tt, Gmem (<[l := v]> (shared s)) (heap s)).
Proof. intros E. unfold store. by rewrite E. Qed.

Lemma load_bind {A} l (f : Z -> M (gmem H) A) s : in_arrays l = true -> (load l ≫= f) s = f (shared s !!! l) s.
Proof. intros E. apply bind_Ok. by apply load_ok. Qed.

Lemma store_bind {A} l v (f : unit -> M (gmem H) A) s : in_arrays l = true ->
  (store l v ≫= f) s = f tt (Gmem (<[l := v]> (shared s)) (heap s)).
Proof. intros E. apply bind_Ok. by apply store_ok. Qed.

(** [m] puts the jobs [l], the last one on top, into pool [pid]. *)
Definition pushes (m : M (gmem H) unit) (pid : nat) (l : list job) : Prop := forall s js k,
  pools s js -> heap_room (heap s) (k + length l) -> (pid < length js)%nat ->
  exists s', m s = Ok (tt, s') /\ pools s' (alter (fun q => rev l ++ q) pid js) /\ heap_room (heap s') k.

Lemma pushes_nil pid : pushes skip pid [].
Proof.
  intros s js k Hp Hr Hl. exists s. split_and!; [done| |by rewrite Nat.add_0_r in Hr].
  rewrite list_alter_id by done. done.
Qed.

Lemma pushes_app m m' pid l l' : pushes m pid l -> pushes m' pid l' -> pushes (m;; m') pid (l ++ l').
Proof.
  intros Hm Hm' s js k Hp Hr Hl. rewrite length_app in Hr.
  destruct (Hm s js (k + length l')%nat Hp) as (s1 & R1 & Hp1 & Hr1); [by replace (k + length l' + length l)%nat with (k + (length l + length l'))%nat by lia|done|].
  destruct (Hm' s1 _ k Hp1 Hr1) as (s2 & R2 & Hp2 & Hr2); [by rewrite length_alter|].
  exists s2. split_and!; [by rewrite (bind_Ok _ _ _ _ _ R1)| |done]. rewrite rev_app_distr.
  rewrite list_alter_alter_eq in Hp2. erewrite list_alter_ext; [exact Hp2| |done]. intros q _. cbn. by rewrite app_assoc.
Qed.

Lemma push_one x y w h pid : pushes (put_bundle x y w h (Z.of_nat pid)) pid [Job x y w h].
Proof.
  intros s js k [Hsize Hstat Hchain] Hr Hl. rewrite Nat.add_comm in Hr. cbn [length Nat.add] in Hr.
  destruct (heap_malloc_ok (heap s) k Hr) as (a & h' & R & Ha & Hnew & Hlive & Hr').
  assert (Hin : in_arrays (workpool (Z.of_nat pid)) = true) by (cbn; unfold MAX_PROCS in *; lia).
  unfold put_bundle, GlobalMalloc. unfold mbind at 1, M_bind. rewrite R.
  set (top := shared s !!! workpool (Z.of_nat pid)).
  set (m1 := <[ydim a := h]> (<[xdim a := w]> (<[ypix a := y]> (<[xpix a := x]> (shared s))))).
  set (m2 := <[workpool (Z.of_nat pid) := a]> (<[next a := top]> m1)).
  exists (Gmem m2 h'). split_and!; [|split|done]; cbn [shared heap].
  - do 4 (rewrite store_bind by done; cbn [shared heap]). fold m1. rewrite load_bind by done. cbn [shared heap].
    assert (Et : m1 !!! workpool (Z.of_nat pid) = top) by (unfold m1; by rewrite !lookup_total_insert_ne by done).
    rewrite Et. destruct (Z.eqb_spec top 0) as [E0|E0].
    + rewrite store_bind by done. cbn [shared heap]. rewrite store_ok by done. cbn. unfold m2. by rewrite E0.
    + assert (Rn : (top ← load (workpool (Z.of_nat pid)); store (next a) top) (Gmem m1 h') = Ok (tt, Gmem (<[next a := top]> m1) h')).
      { rewrite load_bind by done. cbn [shared]. rewrite Et. by apply store_ok. }
      rewrite (bind_Ok _ _ _ _ _ Rn). by apply store_ok.
  - by rewrite length_alter.
  - rewrite length_alter. intros i Hi. unfold m2, m1. rewrite !lookup_total_insert_ne by done. by apply Hstat.
  - assert (Hold : forall l b, field_of l = Some b -> b <> a -> m2 !!! l = shared s !!! l).
    { intros l b Hf Hb. unfold m2, m1. destruct l; cbn in Hf; simplify_eq; by rewrite !lookup_total_insert_ne by congruence. }
    assert (Hkeep : forall i q ads, chain (shared s) (shared s !!! workpool (Z.of_nat i)) ads -> job_at (shared s) <$> ads = q ->
      (forall b, b ∈ ads -> heap_live (heap s) b) -> chain m2 (shared s !!! workpool (Z.of_nat i)) ads /\ job_at m2 <$> ads = q).
    { intros i q ads Hc <- Hl'. assert (Hne : forall b, b ∈ ads -> b <> a) by (intros b Hb ->; by apply Hnew, Hl').
      split; [eapply chain_frame; [|exact Hc]; intros b Hb; by apply (Hold (next b) b); [|apply Hne]|].
      apply list_fmap_ext. intros j b Hb. apply list_elem_of_lookup_2, Hne in Hb. unfold job_at.
      f_equal; eapply Hold; done. }
    intros i q Hi. rewrite list_lookup_alter in Hi. case_decide as Eq.
    + subst i. apply fmap_Some in Hi as (q0 & Hq0 & ->). destruct (Hchain pid q0 Hq0) as (ads & Hc & Hj & Hl').
      destruct (Hkeep pid q0 ads Hc Hj Hl') as [Hc2 Hj2]. exists (a :: ads).
      assert (E : forall l, field_of l = Some a \/ l = workpool (Z.of_nat pid) -> m2 !!! l =
        match l with xpix _ => x | ypix _ => y | xdim _ => w | ydim _ => h | next _ => top | _ => a end).
      { intros l Hf. unfold m2, m1. destruct l; destruct Hf as [Hf|Hf]; cbn in Hf; simplify_eq;
          repeat (rewrite lookup_total_insert_ne by done); by rewrite lookup_total_insert_eq. }
      split_and!.
      * rewrite E by by right. cbn. rewrite E by by left. done.
      * cbn. rewrite Hj2. unfold job_at. by rewrite !E by by left.
      * intros b [->|Hb]%elem_of_cons; apply Hlive; [by left|right; auto].
    + destruct (Hchain i q Hi) as (ads & Hc & Hj & Hl'). exists ads. destruct (Hkeep i q ads Hc Hj Hl') as [Hc2 Hj2].
      assert (E : m2 !!! workpool (Z.of_nat i) = shared s !!! workpool (Z.of_nat i)).
      { unfold m2, m1. by rewrite !lookup_total_insert_ne by (done || intros [= ?]; lia). }
      rewrite E. split_and!; [done..|]. intros b Hb. apply Hlive. right. auto.
Qed.

(** ** [PutJob] *)
Section Bundles.
Context (fuel : nat) (xs ys xe ye xbe ybe : Z) (pid : nat).
Hypothesis xs_range : 0 <= xs /\ 0 <= xe /\ xs + xe <= 1073741824.
Hypothesis ys_range : 0 <= ys /\ 0 <= ye /\ ys + ye <= 1073741824.
Hypothesis xbe_range : 0 < xbe <= 1073741823.
Hypothesis ybe_range : 0 < ybe <= 1073741823.
Hypothesis fuel_enough : xe <= Z.of_nat fuel /\ ye <= Z.of_nat fuel.

Lemma bundle_size_min a n be d : 0 <= a -> 0 <= n -> a + n <= 1073741824 -> 0 < be <= 1073741823 -> 0 <= d < n ->
  bundle_size (a + d) be (s32 (s32 (a + n) - 1)) = Z.min be (n - d).
Proof.
  intros. unfold bundle_size. rewrite !s32_small by (rewrite ?s32_small; lia). destruct (Z.leb_spec (a + d + be - 1) (a + n - 1)); lia.
Qed.

Lemma put_row_pushes fuel' : forall i j, 0 <= i < ye -> 0 <= j -> j < xe + xbe -> xe - j <= Z.of_nat fuel' ->
  pushes (put_row xs ys xe ye xbe ybe (Z.of_nat pid) fuel' (ys + i) j (xs + j)) pid
    (cx ← cuts fuel' (xs + j) (xe - j) xbe; [Job cx.1 (ys + i) cx.2 (Z.min ybe (ye - i))]).
Proof.
  induction fuel' as [|fuel' IH]; intros i j Hi Hj Hj' Hf; cbn [put_row cuts]; destruct (Z.ltb_spec j xe), (Z.leb_spec (xe - j) 0); try lia;
    try apply pushes_nil.
  rewrite !s32_small by lia. unfold xb_end, yb_end. rewrite !bundle_size_min by lia. cbn [mbind list_bind]. apply pushes_app; [by apply push_one|].
  replace (xs + j + xbe) with (xs + (j + xbe)) by lia. replace (xe - j - xbe) with (xe - (j + xbe)) by lia. apply IH; lia.
Qed.

Lemma put_rows_pushes fuel' : forall i, 0 <= i -> i < ye + ybe -> ye - i <= Z.of_nat fuel' ->
  pushes (put_rows fuel xs ys xe ye xbe ybe (Z.of_nat pid) fuel' i (ys + i)) pid
    (cy ← cuts fuel' (ys + i) (ye - i) ybe; cx ← cuts fuel xs xe xbe; [Job cx.1 cy.1 cx.2 cy.2]).
Proof.
  induction fuel' as [|fuel' IH]; intros i Hi Hi' Hf; cbn [put_rows cuts]; destruct (Z.ltb_spec i ye), (Z.leb_spec (ye - i) 0); try lia;
    try apply pushes_nil.
  rewrite !s32_small by lia. cbn [mbind list_bind]. apply pushes_app.
  - pose proof (put_row_pushes fuel i 0 ltac:(lia) ltac:(lia) ltac:(lia) ltac:(lia)) as Hrow. by rewrite Z.add_0_r, Z.sub_0_r in Hrow.
  - replace (ys + i + ybe) with (ys + (i + ybe)) by lia. replace (ye - i - ybe) with (ye - (i + ybe)) by lia. apply IH; lia.
Qed.

Lemma PutJob_pushes : pushes (PutJob fuel xs ys xe ye xbe ybe (Z.of_nat pid)) pid (bundles fuel xbe ybe xs ys xe ye).
Proof.
  pose proof (put_rows_pushes fuel 0 ltac:(lia) ltac:(lia) ltac:(lia)) as Hrows. by rewrite Z.add_0_r, Z.sub_0_r in Hrows.
Qed.
End Bundles.

(** ** [InitWorkPool] *)

(** Blocks of jobs are dealt to the pools in turn. *)
Fixpoint deal (i : nat) (bs : list (list job)) (js : list (list job)) : list (list job) :=
  match bs with [] => js | b :: bs' => deal ((i + 1) `mod` length js) bs' (alter (fun q => rev b ++ q) i js) end.

Lemma length_deal bs : forall i js, length (deal i bs js) = length js.
Proof. induction bs as [|b bs IH]; intros i js; cbn [deal]; [done|]. by rewrite IH, length_alter. Qed.

Lemma deal_app bs bs' : forall i js, (i < length js)%nat ->
  deal i (bs ++ bs') js = deal ((i + length bs) `mod` length js) bs' (deal i bs js).
Proof.
  induction bs as [|b bs IH]; intros i js Hi; cbn [deal app length].
  - by rewrite Nat.add_0_r, Nat.mod_small.
  - rewrite IH by (rewrite length_alter; apply Nat.mod_upper_bound; lia). rewrite length_alter. f_equal.
    rewrite Nat.Div0.add_mod_idemp_l. f_equal. lia.
Qed.

Lemma concat_alter {X} (l : list X) js : forall i, (i < length js)%nat -> concat (alter (fun q => l ++ q) i js) ≡ₚ l ++ concat js.
Proof.
  induction js as [|q js IH]; intros [|i] Hi; cbn in *; try lia; [by rewrite app_assoc|].
  change (list_alter (fun q => l ++ q) i js) with (alter (fun q => l ++ q) i js). rewrite IH by lia. by rewrite Permutation_app_swap_app.
Qed.

(** Nothing is lost. *)
Lemma deal_all bs : forall i js, (i < length js)%nat -> concat (deal i bs js) ≡ₚ concat bs ++ concat js.
Proof.
  induction bs as [|b bs IH]; intros i js Hi; [done|]. cbn [deal concat]. rewrite IH by (rewrite length_alter; apply Nat.mod_upper_bound; lia).
  rewrite concat_alter by done. rewrite <- (Permutation_rev b), <- app_assoc. by rewrite Permutation_app_swap_app.
Qed.

Section Init.
Context (fuel : nat) (xres yres bundlex bundley : Z) (n : nat).
Hypothesis xres_range : 0 <= xres <= 1073741823.
Hypothesis yres_range : 0 <= yres <= 1073741823.
Hypothesis bundlex_range : 0 < bundlex <= 1073741823.
Hypothesis bundley_range : 0 < bundley <= 1073741823.
Hypothesis fuel_enough : xres <= Z.of_nat fuel /\ yres <= Z.of_nat fuel.

(** [m], from pool [i] on, deals the blocks [bs]. *)
Definition deals (m : Z -> M (gmem H) Z) (bs : list (list job)) : Prop := forall i s js k,
  length js = n -> (i < n)%nat -> pools s js -> heap_room (heap s) (k + length (concat bs)) ->
  exists s', m (Z.of_nat i) s = Ok (Z.of_nat ((i + length bs) `mod` n), s') /\ pools s' (deal i bs js) /\ heap_room (heap s') k.

Lemma deals_nil : deals mret [].
Proof.
  intros i s js k Hn Hi Hp Hr. exists s. cbn in *. rewrite Nat.add_0_r in *. by rewrite Nat.mod_small by lia.
Qed.

Lemma deals_app m m' bs bs' : deals m bs -> deals m' bs' -> deals (fun i => i ← m i; m' i) (bs ++ bs').
Proof.
  intros Hm Hm' i s js k Hn Hi Hp Hr. rewrite concat_app, length_app in Hr.
  destruct (Hm i s js (k + length (concat bs'))%nat Hn Hi Hp) as (s1 & R1 & Hp1 & Hr1).
  { by replace (k + length (concat bs') + length (concat bs))%nat with (k + (length (concat bs) + length (concat bs')))%nat by lia. }
  destruct (Hm' ((i + length bs) `mod` n)%nat s1 (deal i bs js) k) as (s2 & R2 & Hp2 & Hr2); [by rewrite length_deal| |exact Hp1|exact Hr1|].
  { apply Nat.mod_upper_bound. lia. }
  exists s2. rewrite (bind_Ok _ _ _ _ _ R1). split_and!; [|by rewrite deal_app, Hn by lia|done].
  rewrite R2, length_app. do 3 f_equal. rewrite Nat.Div0.add_mod_idemp_l. f_equal. lia.
Qed.

Lemma deals_one m b (Hn : Z.of_nat n <= MAX_PROCS) : (forall pid, pushes (m (Z.of_nat pid)) pid b) ->
  deals (fun i => m i;; mret (s32 (i + 1) `rem` Z.of_nat n)) [b].
Proof.
  intros Hm i s js k Hl Hi Hp Hr. cbn [concat length] in *. rewrite app_nil_r in Hr.
  destruct (Hm i s js k Hp Hr ltac:(lia)) as (s1 & R1 & Hp1 & Hr1). exists s1. rewrite (bind_Ok _ _ _ _ _ R1).
  split_and!; [|done|done]. unfold MAX_PROCS in *. rewrite s32_small, Z.rem_mod_nonneg by lia.
  replace (Z.of_nat i + 1) with (Z.of_nat (i + 1)) by lia. by rewrite <- Nat2Z.inj_mod.
Qed.

Lemma extent_min x xsize r : 0 <= x -> 0 < xsize <= 1073741823 -> 0 <= r <= 1073741823 -> x < r -> extent x xsize r = Z.min xsize (r - x).
Proof. intros. unfold extent. rewrite !s32_small by lia. destruct (Z.ltb_spec r (x + xsize)); lia. Qed.

Lemma init_row_deals (Hn : Z.of_nat n <= MAX_PROCS) xsize y ye fuel' : 0 < xsize <= 1073741823 -> 0 <= y -> 0 <= ye -> y + ye <= yres ->
  forall x, 0 <= x < xres + xsize -> xres - x <= Z.of_nat fuel' ->
  deals (init_row fuel (Z.of_nat n) xres bundlex bundley fuel' xsize y ye x)
    ((fun cx => bundles fuel bundlex bundley cx.1 y cx.2 ye) <$> cuts fuel' x (xres - x) xsize).
Proof.
  intros Hs Hy Hye Hyr. induction fuel' as [|fuel' IH]; intros x Hx Hf i s js k; cbn [init_row cuts];
    destruct (Z.ltb_spec x xres), (Z.leb_spec (xres - x) 0); try lia; try apply deals_nil.
  rewrite fmap_cons. cbn [fst snd]. rewrite extent_min, (s32_small (x + xsize)) by lia. intros Hl Hi Hp Hr.
  destruct (deals_app (fun i => PutJob fuel x y (Z.min xsize (xres - x)) ye bundlex bundley i;; mret (s32 (i + 1) `rem` Z.of_nat n))
    (init_row fuel (Z.of_nat n) xres bundlex bundley fuel' xsize y ye (x + xsize)) [bundles fuel bundlex bundley x y (Z.min xsize (xres - x)) ye]
    ((fun cx => bundles fuel bundlex bundley cx.1 y cx.2 ye) <$> cuts fuel' (x + xsize) (xres - x - xsize) xsize)) with i s js k as (s' & R & Hrest); try done.
  - apply deals_one; [done|]. intros pid. apply PutJob_pushes; lia.
  - replace (xres - x - xsize) with (xres - (x + xsize)) by lia. apply IH; lia.
  - exists s'. split; [|done]. refine (eq_trans _ R). unfold mbind, M_bind. by destruct (PutJob _ _ _ _ _ _ _ _ s) as [[]| | |].
Qed.

Lemma init_rows_deals (Hn : Z.of_nat n <= MAX_PROCS) xsize ysize fuel' : 0 < xsize <= xres -> 0 < ysize <= yres ->
  forall y, 0 <= y < yres + ysize -> yres - y <= Z.of_nat fuel' ->
  deals (init_rows fuel (Z.of_nat n) xres yres bundlex bundley fuel' xsize ysize y)
    (cy ← cuts fuel' y (yres - y) ysize; (fun cx => bundles fuel bundlex bundley cx.1 cy.1 cx.2 cy.2) <$> cuts fuel 0 xres xsize).
Proof.
  intros Hx Hy. induction fuel' as [|fuel' IH]; intros y Hy' Hf i s js k; cbn [init_rows cuts];
    destruct (Z.ltb_spec y yres), (Z.leb_spec (yres - y) 0); try lia; try apply deals_nil.
  cbn [mbind list_bind fst snd]. rewrite extent_min, (s32_small (y + ysize)) by lia. apply deals_app.
  - pose proof (init_row_deals Hn xsize y (Z.min ysize (yres - y)) fuel) as Hrow. specialize (Hrow ltac:(lia) ltac:(lia) ltac:(lia) ltac:(lia) 0 ltac:(lia) ltac:(lia)).
    by rewrite Z.sub_0_r in Hrow.
  - replace (yres - y - ysize) with (yres - (y + ysize)) by lia. apply IH; lia.
Qed.
End Init.

Lemma clear_pools_run n (s : gmem H) : Z.of_nat n <= MAX_PROCS -> exists m, clear_pools (Z.of_nat n) s = Ok (tt, Gmem m (heap s)) /\
  forall i, (i < n)%nat -> m !!! wpstat (Z.of_nat i) = WPS_VALID /\ m !!! workpool (Z.of_nat i) = 0.
Proof.
  unfold clear_pools. induction n as [|n IH]; intros Hn; [exists (shared s); split; [by destruct s|lia]|].
  destruct IH as (m & R & Hm); [lia|]. exists (<[workpool (Z.of_nat n) := 0]> (<[wpstat (Z.of_nat n) := WPS_VALID]> m)). split.
  - rewrite seqZ_S, Z.add_0_l, for_each_app, (bind_Ok _ _ _ _ _ R). cbn [for_each]. unfold MAX_PROCS in *.
    assert (R1 : (store (wpstat (Z.of_nat n)) WPS_VALID;; store (workpool (Z.of_nat n)) 0) (Gmem m (heap s)) =
      Ok (tt, Gmem (<[workpool (Z.of_nat n) := 0]> (<[wpstat (Z.of_nat n) := WPS_VALID]> m)) (heap s))).
    { rewrite store_bind by (cbn; unfold MAX_PROCS; lia). by rewrite store_ok by (cbn; unfold MAX_PROCS; lia). }
    by rewrite (bind_Ok _ _ _ _ _ R1).
  - intros i Hi. destruct (decide (i = n)) as [->|Hne].
    + rewrite lookup_total_insert_ne, !lookup_total_insert_eq by done. done.
    + rewrite !lookup_total_insert_ne by (done || intros [= ?]; lia). apply Hm. lia.
Qed.

(** The blocks of the screen, each as a list of bundles. *)
Definition blocks (fuel : nat) (xres yres blockx blocky bundlex bundley : Z) : list (list job) :=
  cy ← cuts fuel 0 yres (yres `quot` blocky);
  (fun cx => bundles fuel bundlex bundley cx.1 cy.1 cx.2 cy.2) <$> cuts fuel 0 xres (xres `quot` blockx).

Lemma quot_range a b : 0 < b -> b <= a -> 0 < a `quot` b <= a.
Proof.
  intros Hb Ha. rewrite Z.quot_div_nonneg by lia. split; [apply Z.div_str_pos; lia|]. apply Z.div_le_upper_bound; nia.
Qed.

Lemma bind_fmap {X Y Z'} (f : X -> Y) (g : Y -> list Z') l : (f <$> l) ≫= g = l ≫= fun x => g (f x).
Proof. induction l as [|x l IH]; [done|]. cbn. by rewrite <- IH. Qed.

Lemma concat_bind {X Y} (ll : list (list X)) (g : X -> list Y) : concat ll ≫= g = ll ≫= fun l => l ≫= g.
Proof. induction ll as [|l ll IH]; [done|]. cbn. by rewrite bind_app, IH. Qed.

Lemma blocks_screen fuel xres yres blockx blocky bundlex bundley : 0 < blockx <= xres -> 0 < blocky <= yres -> 0 < bundlex -> 0 < bundley ->
  xres <= Z.of_nat fuel -> yres <= Z.of_nat fuel ->
  concat (blocks fuel xres yres blockx blocky bundlex bundley) ≫= pixels ≡ₚ screen xres yres.
Proof.
  intros Hbx Hby Hux Huy Hfx Hfy. destruct (quot_range xres blockx), (quot_range yres blocky); try lia.
  unfold pixels at 2. cbn [jx jy jw jh]. rewrite concat_bind.
  rewrite <- (cuts_cover fuel 0 xres (xres `quot` blockx)), <- (cuts_cover fuel 0 yres (yres `quot` blocky)) by lia.
  rewrite <- grid_cuts. unfold blocks. rewrite bind_assoc_list. apply list_bind_ext. intros cy Hcy. rewrite bind_fmap.
  apply list_bind_ext. intros cx Hcx. apply cuts_elem in Hcx, Hcy; [|lia..]. by rewrite bundles_pixels by lia.
Qed.

Lemma InitWorkPool_run fuel n xres yres blockx blocky bundlex bundley (s : gmem H) k :
  (0 < n)%nat -> Z.of_nat n <= MAX_PROCS -> 0 < blockx <= xres -> 0 < blocky <= yres -> xres <= 1073741823 -> yres <= 1073741823 ->
  0 < bundlex <= 1073741823 -> 0 < bundley <= 1073741823 -> xres <= Z.of_nat fuel -> yres <= Z.of_nat fuel ->
  let bs := blocks fuel xres yres blockx blocky bundlex bundley in
  heap_room (heap s) (k + length (concat bs)) ->
  exists s', InitWorkPool fuel (Z.of_nat n) xres yres blockx blocky bundlex bundley s = Ok (tt, s') /\
    pools s' (deal 0 bs (replicate n [])) /\ heap_room (heap s') k.
Proof.
  intros Hn Hmax Hbx Hby Hxr Hyr Hux Huy Hfx Hfy bs Hroom. destruct (quot_range xres blockx), (quot_range yres blocky); try lia.
  destruct (clear_pools_run n s Hmax) as (m & R & Hm).
  destruct (init_rows_deals fuel xres yres bundlex bundley n ltac:(lia) ltac:(lia) ltac:(lia) ltac:(lia) ltac:(lia) Hmax (xres `quot` blockx) (yres `quot` blocky)
    fuel ltac:(lia) ltac:(lia) 0 ltac:(lia) ltac:(lia) 0%nat (Gmem m (heap s)) (replicate n []) k) as (s' & R' & Hp & Hr).
  - by rewrite length_replicate.
  - done.
  - split; [by rewrite length_replicate|rewrite length_replicate; intros i Hi; by apply Hm|].
    intros i q [-> Hi]%lookup_replicate. exists []. cbn. split_and!; [by apply Hm|done|by intros a ?%elem_of_nil].
  - by rewrite Z.sub_0_r.
  - rewrite Z.sub_0_r in *. exists s'. split; [|done]. unfold InitWorkPool. rewrite (bind_Ok _ _ _ _ _ R).
    rewrite !(proj2 (Z.eqb_neq _ 0)) by lia. cbn [orb]. change (Z.of_nat 0) with 0 in R'. by rewrite (bind_Ok _ _ _ _ _ R').
Qed.

(** With more blocks than pixels in a row, [xsize] is 0 and the loop over [x]
    does not move. *)
Lemma PutJob_empty fuel xs ys ye xbe ybe pid (s : gmem H) : let r := PutJob fuel xs ys 0 ye xbe ybe pid s in r = Ok (tt, s) \/ r = Block.
Proof.
  unfold PutJob. assert (Hgen : forall fuel' i yb, let r := put_rows fuel xs ys 0 ye xbe ybe pid fuel' i yb s in r = Ok (tt, s) \/ r = Block).
  { induction fuel' as [|fuel' IH]; intros i yb; cbn [put_rows]; destruct (i <? ye); auto. cbn zeta.
    assert (R : put_row xs ys 0 ye xbe ybe pid fuel yb 0 xs s = Ok (tt, s)) by by destruct fuel. rewrite (bind_Ok _ _ _ _ _ R). apply IH. }
  apply Hgen.
Qed.

Lemma init_row_endless fuel n xres bundlex bundley y ye fuel' : 0 < xres <= 1073741823 ->
  forall i (s : gmem H), init_row fuel n xres bundlex bundley fuel' 0 y ye 0 i s = Block.
Proof.
  intros Hx. induction fuel' as [|fuel' IH]; intros i s; cbn [init_row]; rewrite (proj2 (Z.ltb_lt 0 xres)) by lia; [done|].
  unfold extent. change (s32 (0 + 0)) with 0. rewrite (proj2 (Z.ltb_ge xres 0)) by lia.
  destruct (PutJob_empty fuel 0 y ye bundlex bundley i s) as [R|R].
  - rewrite (bind_Ok _ _ _ _ _ R). apply IH.
  - unfold mbind, M_bind. by rewrite R.
Qed.

Lemma InitWorkPool_endless fuel n xres yres blockx blocky bundlex bundley (s : gmem H) :
  0 < xres < blockx -> xres <= 1073741823 -> 0 < yres -> blocky <> 0 -> Z.of_nat n <= MAX_PROCS ->
  InitWorkPool fuel (Z.of_nat n) xres yres blockx blocky bundlex bundley s = Block.
Proof.
  intros Hx Hxr Hy Hby Hn. destruct (clear_pools_run n s Hn) as (m & R & _). unfold InitWorkPool. rewrite (bind_Ok _ _ _ _ _ R).
  rewrite !(proj2 (Z.eqb_neq _ 0)) by lia. cbn [orb]. rewrite Z.quot_small by lia. unfold mbind at 1, M_bind.
  destruct fuel as [|fuel]; cbn [init_rows]; rewrite (proj2 (Z.ltb_lt 0 yres)) by lia; [done|].
  unfold mbind, M_bind. by rewrite init_row_endless by lia.
Qed.
End Pools.
