(* ===== verification/RayTrace.v ===== *)
(** * The processes of the ray tracer ([src/Tmk/apps/raytrace_c/src/TRACE.C], [WORKPOOL.C])

    Every process takes jobs, first from its own pool and then from those of
    the others, under a lock for each pool, and traces the pixels of each job.
    Of the tracing of a pixel only its address is modelled, as output; the rest
    is arithmetic on [double]s that shares nothing but the frame buffer. *)
From S2P Require Import Prelude Programs Shared RayHeap RayPool.
Local Open Scope Z_scope.

Abbreviation process := (prog place Z).

(** ** [RAYJOB] and [GetRayJobFromBundle] *)
Record rayjob : Type := Rayjob { rj_x : Z; rj_y : Z; rj_xlen : Z; rj_ylen : Z; rj_xcurr : Z; rj_ycurr : Z }.

Definition GetRayJobFromBundle (job : rayjob) : option (Z * Z * rayjob) :=
  let '(Rayjob x y xlen ylen xcurr ycurr) := job in
  if s32 (y + ylen) =? ycurr then None
  else
    let xcurr' := s32 (xcurr + 1) in
    Some (xcurr, ycurr,
      if s32 (x + xlen) =? xcurr' then Rayjob x y xlen ylen x (s32 (ycurr + 1)) else Rayjob x y xlen ylen xcurr' ycurr).

(** ** [GetJob] and [GetJobs] *)
Definition GetJob (pid : Z) : process (option rayjob) :=
  acquire (10 + pid);;
  wpentry ← rd (workpool pid);
  flag ← (if wpentry =? 0 then wr (wpstat pid) WPS_EMPTY;; mret true
          else n ← rd (next wpentry); wr (workpool pid) n;; mret false);
  release (10 + pid);;
  if flag : bool then mret None
  else
    x ← rd (xpix wpentry); y ← rd (ypix wpentry);
    xcurr ← rd (xpix wpentry); ycurr ← rd (ypix wpentry);
    xlen ← rd (xdim wpentry); ylen ← rd (ydim wpentry);
    mret (Some (Rayjob x y xlen ylen xcurr ycurr)).

Definition try_pool (i : Z) : process (option rayjob) :=
  st ← rd (wpstat i);
  if st =? WPS_VALID then GetJob i else mret None.

(** [NoFuel]: the loop has not ended. *)
Inductive got : Type := Valid (job : rayjob) | Empty | NoFuel.

Section Trace.
Context (nprocs : Z).

Fixpoint steal (fuel : nat) (pid i : Z) : process got :=
  if i =? pid then mret Empty
  else
    match fuel with
    | O => mret NoFuel
    | S fuel' =>
        r ← try_pool i;
        match r with Some job => mret (Valid job) | None => steal fuel' pid (s32 (i + 1) `rem` nprocs) end
    end.

Definition GetJobs (pid : Z) : process got :=
  r ← try_pool pid;
  match r with
  | Some job => mret (Valid job)
  | None => steal (Z.to_nat nprocs) pid (s32 (pid + 1) `rem` nprocs)
  end.

(** ** [RayTrace] *)

(** The loop over the pixels of a job; false if the fuel was not enough. *)
Fixpoint trace_bundle (fuel : nat) (job : rayjob) : process bool :=
  match GetRayJobFromBundle job with
  | None => mret true
  | Some (x, y, job') => printf [x; y];; match fuel with O => mret false | S fuel' => trace_bundle fuel' job' end
  end.

Fixpoint RayTrace (jobs npixels : nat) (pid : Z) : process bool :=
  r ← GetJobs pid;
  match r with
  | Empty => mret true
  | NoFuel => mret false
  | Valid job =>
      ok ← trace_bundle npixels job;
      if ok : bool then match jobs with O => mret false | S jobs' => RayTrace jobs' npixels pid end else mret false
  end.
End Trace.

(** ** The pixels of a job *)
Record job_ok (j : job) : Prop := {
  ok_x : 0 <= jx j /\ 0 < jw j /\ jx j + jw j <= 1073741824;
  ok_y : 0 <= jy j /\ 0 < jh j /\ jy j + jh j <= 1073741824
}.

(** What is left of job [j] when the next pixel is [x], [y]. *)
Definition remaining (j : job) (x y : Z) : list pixel :=
  if jy j + jh j =? y then []
  else ((fun x => [x; y]) <$> seqZ x (jx j + jw j - x)) ++ grid (seqZ (jx j) (jw j)) (seqZ (y + 1) (jy j + jh j - y - 1)).

Abbreviation as_rayjob j x y := (Rayjob (jx j) (jy j) (jw j) (jh j) x y).

Lemma next_pixel j x y : job_ok j -> jx j <= x < jx j + jw j -> jy j <= y <= jy j + jh j ->
  match GetRayJobFromBundle (as_rayjob j x y) with
  | None => remaining j x y = []
  | Some (x0, y0, job') => x0 = x /\ y0 = y /\ exists x' y', job' = as_rayjob j x' y' /\
      jx j <= x' < jx j + jw j /\ jy j <= y' <= jy j + jh j /\ remaining j x y = [x; y] :: remaining j x' y'
  end.
Proof.
  intros [Hox Hoy] Hx Hy. unfold GetRayJobFromBundle. rewrite !s32_small by lia.
  destruct (Z.eqb_spec (jy j + jh j) y) as [E|E]; [unfold remaining; by rewrite (proj2 (Z.eqb_eq _ _)) by done|]. do 2 (split; [done|]).
  assert (Er : remaining j x y = ((fun x => [x; y]) <$> seqZ x (jx j + jw j - x)) ++ grid (seqZ (jx j) (jw j)) (seqZ (y + 1) (jy j + jh j - y - 1)))
    by (unfold remaining; by rewrite (proj2 (Z.eqb_neq _ _) E)).
  rewrite Er. clear Er.
  rewrite (seqZ_cons x) by lia. rewrite fmap_cons. cbn [app].
  destruct (Z.eqb_spec (jx j + jw j) (x + 1)) as [Ex|Ex].
  - exists (jx j), (y + 1). split_and!; [done|lia..|]. f_equal. rewrite (seqZ_nil (Z.succ x)) by lia. cbn [fmap list_fmap app].
    unfold remaining. destruct (Z.eqb_spec (jy j + jh j) (y + 1)) as [Ey|Ey]; [by rewrite (seqZ_nil (y + 1)) by lia|].
    rewrite (seqZ_cons (y + 1)) by lia. change (grid ?xs (?z :: ?zs)) with (((fun x => [x; z]) <$> xs) ++ grid xs zs).
    f_equal; [do 2 f_equal; lia|]. do 2 f_equal; lia.
  - exists (x + 1), y. split_and!; [done|lia..|]. f_equal. unfold remaining. rewrite (proj2 (Z.eqb_neq _ _) E).
    f_equal. do 2 f_equal; lia.
Qed.

Lemma remaining_all j : job_ok j -> remaining j (jx j) (jy j) = pixels j.
Proof.
  intros [Hx Hy]. unfold remaining, pixels. rewrite (proj2 (Z.eqb_neq _ _)) by lia. rewrite (seqZ_cons (jy j)) by lia.
  change (grid ?xs (?z :: ?zs)) with (((fun x => [x; z]) <$> xs) ++ grid xs zs).
  f_equal; [do 2 f_equal; lia|]. do 2 f_equal; lia.
Qed.

(** ** The invariant of all processes *)

(** What a process knows: whether it holds the lock of a pool, and then what
    it has found at the top; the pixels it still has to trace; how many jobs
    it has taken; and the pools it has seen empty. *)
Inductive phase : Type := Free | Locked (i : nat) | Top (i : nat) (a : Z).
Record local : Type := Local { ph : phase; todo : list pixel; taken : nat; seen : list nat }.

Definition lock_of (t : local) : option nat := match ph t with Free => None | Locked i | Top i _ => Some i end.
Definition holds_lock (t : local) : bool := match ph t with Free => false | _ => true end.

Section Invariant.
(** The number of pools, the memory at the beginning, the number of jobs, and
    the pixels of the screen. *)
Context (n : nat) (m0 : memory) (J : nat) (scr : list pixel).

(** The addresses of the jobs in the pools. *)
Record stacks (m : memory) (o : list pixel) (ts : list local) (chs : list (list Z)) : Prop := {
  st_length : length chs = n;
  st_chain i ch : chs !! i = Some ch -> chain m0 (m !!! workpool (Z.of_nat i)) ch;
  st_stat i : (i < n)%nat -> m !!! wpstat (Z.of_nat i) <> WPS_VALID -> chs !! i = Some [];
  st_seen j t i : ts !! j = Some t -> i ∈ seen t -> chs !! i = Some [];
  st_pixels : (concat chs ≫= fun a => pixels (job_at m0 a)) ++ (ts ≫= todo) ++ o ≡ₚ scr;
  st_count : (length (concat chs) + sum_list (taken <$> ts) = J)%nat;
  st_ok : Forall (fun a => job_ok (job_at m0 a)) (concat chs)
}.

Record Inv (m : memory) (h : gmap Z nat) (o : list pixel) (ts : list local) : Prop := {
  in_fields l a : field_of l = Some a -> m !!! l = m0 !!! l;
  in_stacks : exists chs, stacks m o ts chs;
  in_held l j : h !! l = Some j -> exists t i, ts !! j = Some t /\ lock_of t = Some i /\ l = 10 + Z.of_nat i;
  in_locks j t i : ts !! j = Some t -> lock_of t = Some i -> h !! (10 + Z.of_nat i) = Some j;
  in_top j t i a : ts !! j = Some t -> ph t = Top i a -> m !!! workpool (Z.of_nat i) = a
}.

Lemma inv_holder m h o ts l j : Inv m h o ts -> h !! l = Some j -> exists t, ts !! j = Some t /\ holds_lock t = true.
Proof.
  intros HI Hl. destruct (in_held _ _ _ _ HI l j Hl) as (t & i & Ht & Hi & _). exists t. split; [done|].
  unfold lock_of, holds_lock in *. by destruct (ph t).
Qed.

(** Changing one local state. *)
Lemma insert_split (ts : list local) i t : ts !! i = Some t -> exists rest, ts ≡ₚ t :: rest /\ forall t', <[i := t']> ts ≡ₚ t' :: rest.
Proof.
  intros Hi. exists (take i ts ++ drop (S i) ts). split.
  - rewrite <- (take_drop_middle ts i t Hi) at 1. by rewrite <- Permutation_middle.
  - intros t'. rewrite insert_take_drop by (by eapply lookup_lt_Some). by rewrite <- Permutation_middle.
Qed.

Lemma todo_insert (ts : list local) i t t' l : ts !! i = Some t -> todo t ≡ₚ l ++ todo t' ->
  (ts ≫= todo) ≡ₚ l ++ (<[i := t']> ts ≫= todo).
Proof.
  intros Hi Hl. destruct (insert_split ts i t Hi) as (rest & H1 & H2). rewrite (H2 t'), H1. cbn. by rewrite Hl, <- app_assoc.
Qed.

Lemma sum_list_perm (l l' : list nat) : l ≡ₚ l' -> sum_list l = sum_list l'.
Proof. induction 1; cbn; lia. Qed.

Lemma taken_insert (ts : list local) i t t' k : ts !! i = Some t -> taken t' = (k + taken t)%nat ->
  sum_list (taken <$> <[i := t']> ts) = (k + sum_list (taken <$> ts))%nat.
Proof.
  intros Hi Hk. destruct (insert_split ts i t Hi) as (rest & H1 & H2).
  rewrite (sum_list_perm _ _ (fmap_Permutation taken _ _ (H2 t'))), (sum_list_perm _ _ (fmap_Permutation taken _ _ H1)). cbn. lia.
Qed.

(** The locks and what the processes know of the tops, when process [j]
    changes its local state. *)
Lemma inv_local m h o ts j t t' : Inv m h o ts -> ts !! j = Some t -> lock_of t' = lock_of t ->
  (forall i a, ph t' = Top i a -> m !!! workpool (Z.of_nat i) = a) ->
  (forall chs, stacks m o ts chs -> stacks m o (<[j := t']> ts) chs) -> Inv m h o (<[j := t']> ts).
Proof.
  intros [Hf (chs & Hst) Hh Hl Ht] Hj Hlock Htop Hs. pose proof (lookup_lt_Some _ _ _ Hj) as Hlt. split; [done|by exists chs; auto|..].
  - intros l j' Hl'. destruct (Hh l j' Hl') as (u & i & Hu & Hi & ->). destruct (decide (j = j')) as [<-|Hne].
    + exists t', i. rewrite list_lookup_insert_eq by done. split_and!; [done|congruence|done].
    + exists u, i. by rewrite list_lookup_insert_ne.
  - intros j' u i Hu Hi. apply list_lookup_insert_Some in Hu as [(<- & <- & _)|[Hne Hu]]; [|by eapply Hl]. eapply Hl; [exact Hj|congruence].
  - intros j' u i a Hu Hi. apply list_lookup_insert_Some in Hu as [(<- & <- & _)|[Hne Hu]]; eauto.
Qed.

Lemma stacks_local m o ts chs j t t' : stacks m o ts chs -> ts !! j = Some t -> todo t' = todo t -> taken t' = taken t ->
  (forall i, i ∈ seen t' -> chs !! i = Some []) -> stacks m o (<[j := t']> ts) chs.
Proof.
  intros [H1 H2 H3 H4 H5 H6 H7] Hj Htodo Htaken Hseen. split; [done..| | | |done].
  - intros j' u i Hu Hi. apply list_lookup_insert_Some in Hu as [(<- & <- & _)|[Hne Hu]]; eauto.
  - rewrite <- H5. apply Permutation_app_head, Permutation_app_tail. symmetry. apply (todo_insert ts j t t' [] Hj). by rewrite Htodo.
  - rewrite (taken_insert ts j t t' 0 Hj) by (by rewrite Htaken). done.
Qed.

Lemma inv_acquire m h o ts j i td k sn : Inv m h o ts -> ts !! j = Some (Local Free td k sn) -> h !! (10 + Z.of_nat i) = None ->
  Inv m (<[10 + Z.of_nat i := j]> h) o (<[j := Local (Locked i) td k sn]> ts).
Proof.
  intros [Hf (chs & Hst) Hh Hl Ht] Hj Hfree. pose proof (lookup_lt_Some _ _ _ Hj) as Hlt. split; [done| |..].
  - exists chs. apply (stacks_local _ _ _ _ _ _ _ Hst Hj); [done..|]. intros i'. by apply (st_seen _ _ _ _ Hst _ _ _ Hj).
  - intros l j' [[<- <-]|[Hne Hl']]%lookup_insert_Some.
    + eexists _, i. by rewrite list_lookup_insert_eq.
    + destruct (Hh l j' Hl') as (u & i' & Hu & Hi' & ->). exists u, i'. rewrite list_lookup_insert_ne; [done|]. intros <-.
      rewrite Hj in Hu. by injection Hu as <-.
  - intros j' u i' Hu Hi'. apply list_lookup_insert_Some in Hu as [(<- & <- & _)|[Hne Hu]].
    + injection Hi' as <-. by rewrite lookup_insert_eq.
    + rewrite lookup_insert_ne; [by eapply Hl|]. intros E. specialize (Hl _ _ _ Hu Hi'). rewrite <- E in Hl. congruence.
  - intros j' u i' a Hu Hi'. apply list_lookup_insert_Some in Hu as [(<- & <- & _)|[Hne Hu]]; [done|eauto].
Qed.

Lemma inv_release m h o ts j t i : Inv m h o ts -> ts !! j = Some t -> lock_of t = Some i ->
  h !! (10 + Z.of_nat i) = Some j /\ Inv m (delete (10 + Z.of_nat i) h) o (<[j := Local Free (todo t) (taken t) (seen t)]> ts).
Proof.
  intros [Hf (chs & Hst) Hh Hl Ht] Hj Hi. pose proof (lookup_lt_Some _ _ _ Hj) as Hlt. split; [by eapply Hl|]. split; [done| |..].
  - exists chs. apply (stacks_local _ _ _ _ _ _ _ Hst Hj); [done..|]. intros i'. by apply (st_seen _ _ _ _ Hst _ _ _ Hj).
  - intros l j' [Hne Hl']%lookup_delete_Some. destruct (Hh l j' Hl') as (u & i' & Hu & Hi' & ->). exists u, i'.
    rewrite list_lookup_insert_ne; [done|]. intros <-. rewrite Hj in Hu. injection Hu as <-. congruence.
  - intros j' u i' Hu Hi'. apply list_lookup_insert_Some in Hu as [(<- & <- & _)|[Hne Hu]]; [done|].
    rewrite lookup_delete_ne; [by eapply Hl|]. intros E. pose proof (Hl _ _ _ Hu Hi') as E2. pose proof (Hl _ _ _ Hj Hi) as E1.
    rewrite E in E1. congruence.
  - intros j' u i' a Hu Hi'. apply list_lookup_insert_Some in Hu as [(<- & <- & _)|[Hne Hu]]; [done|eauto].
Qed.

(** The top that a process has read is the top of the stack. *)
Lemma top_chain m h o ts j t i a chs : Inv m h o ts -> stacks m o ts chs -> (i < n)%nat -> ts !! j = Some t -> ph t = Top i a ->
  exists ch, chs !! i = Some ch /\ chain m0 a ch.
Proof.
  intros HI Hst Hi Hj Hp. destruct (lookup_lt_is_Some_2 chs i) as [ch Hch]; [by rewrite (st_length _ _ _ _ Hst)|].
  exists ch. split; [done|]. rewrite <- (in_top _ _ _ _ HI j t i a Hj Hp). by apply (st_chain _ _ _ _ Hst).
Qed.

Lemma inv_empty m h o ts j i td k sn : Inv m h o ts -> ts !! j = Some (Local (Top i 0) td k sn) -> (i < n)%nat ->
  Inv (<[wpstat (Z.of_nat i) := WPS_EMPTY]> m) h o (<[j := Local (Top i 0) td k (i :: sn)]> ts).
Proof.
  intros HI Hj Hi. destruct (in_stacks _ _ _ _ HI) as (chs & Hst). destruct (top_chain _ _ _ _ _ _ i 0 chs HI Hst Hi Hj eq_refl) as (ch & Hch & Hc).
  assert (ch = []) as -> by (destruct ch as [|b ch]; [done|]; cbn in Hc; by destruct Hc as (<- & ? & _)).
  assert (HI' : Inv m h o (<[j := Local (Top i 0) td k (i :: sn)]> ts)).
  { apply (inv_local _ _ _ _ _ _ _ HI Hj); [done|intros i' a [= <- <-]; by apply (in_top _ _ _ _ HI _ _ _ _ Hj)|].
    intros chs' Hst'. apply (stacks_local _ _ _ _ _ _ _ Hst' Hj); [done..|]. cbn. intros i' [->|Hs]%elem_of_cons.
    - destruct (top_chain _ _ _ _ _ _ i 0 chs' HI Hst' Hi Hj eq_refl) as ([|b ch] & Hch' & Hc'); [done|]. cbn in Hc'. by destruct Hc' as (<- & ? & _).
    - by apply (st_seen _ _ _ _ Hst' _ _ _ Hj). }
  clear HI Hst Hch. destruct HI' as [Hf (chs' & Hst') Hh Hl Ht]. split; [|exists chs'; destruct Hst' as [H1 H2 H3 H4 H5 H6 H7]; split|..]; try done.
  - intros l a Hl'. rewrite lookup_total_insert_ne by (intros <-; done). eauto.
  - intros i' ch' Hch'. rewrite lookup_total_insert_ne by done. eauto.
  - intros i' Hi' Hne. destruct (decide (i' = i)) as [->|Hii]; [|rewrite lookup_total_insert_ne in Hne by (intros [= ?]; lia); eauto].
    apply (H4 j (Local (Top i 0) td k (i :: sn))); [|left]. apply list_lookup_insert_eq. by eapply lookup_lt_Some.
  - intros j' u i' a Hu Hp. rewrite lookup_total_insert_ne by done. eauto.
Qed.

Lemma concat_pop {X} (chs : list (list X)) : forall i a ch, chs !! i = Some (a :: ch) -> concat chs ≡ₚ a :: concat (<[i := ch]> chs).
Proof.
  induction chs as [|c chs IH]; intros [|i] a ch Hi; cbn in *; try done; [by injection Hi as ->|].
  change (list_insert i ch chs) with (<[i := ch]> chs). rewrite (IH i a ch Hi). by rewrite Permutation_middle.
Qed.

(** What is known of a job that is taken after [k] others. *)
Definition took (k : nat) (b : job) : Prop := job_ok b /\ (k < J)%nat /\ (length (pixels b) <= length scr)%nat.

Lemma inv_take m h o ts j i a k sn : Inv m h o ts -> ts !! j = Some (Local (Top i a) [] k sn) -> (i < n)%nat -> a <> 0 ->
  took k (job_at m0 a) /\
  Inv (<[workpool (Z.of_nat i) := m0 !!! next a]> m) h o (<[j := Local (Locked i) (pixels (job_at m0 a)) (S k) sn]> ts).
Proof.
  intros HI Hj Hi Ha. destruct (in_stacks _ _ _ _ HI) as (chs & Hst). destruct (top_chain _ _ _ _ _ _ i a chs HI Hst Hi Hj eq_refl) as (ch & Hch & Hc).
  destruct ch as [|b ch]; [done|]. cbn in Hc. destruct Hc as (<- & _ & Hc). pose proof (concat_pop chs i a ch Hch) as HP.
  pose proof (lookup_lt_Some _ _ _ Hj) as Hlt.
  destruct HI as [Hf _ Hh Hl Ht]. destruct Hst as [H1 H2 H3 H4 H5 H6 H7]. rewrite HP in H7. apply Forall_cons in H7 as [Hok H7].
  assert (Hnot : forall i', chs !! i' = Some [] -> i' <> i) by (intros i' E ->; congruence).
  split; [split_and!; [done|..]|split].
  - destruct (insert_split ts j _ Hj) as (rest & P1 & _). rewrite <- H6, (sum_list_perm _ _ (fmap_Permutation taken _ _ P1)), (Permutation_length HP).
    cbn. lia.
  - rewrite <- H5, HP. cbn. rewrite !length_app. lia.
  - intros l b Hl'. rewrite lookup_total_insert_ne by (intros <-; done). eauto.
  - exists (<[i := ch]> chs). split.
    + by rewrite length_insert.
    + intros i' ch' [(<- & -> & _)|[Hne Hi']]%list_lookup_insert_Some; [by rewrite lookup_total_insert_eq|].
      rewrite lookup_total_insert_ne by (intros [= ?]; lia). eauto.
    + intros i' Hi' Hne. rewrite lookup_total_insert_ne in Hne by done. specialize (H3 i' Hi' Hne).
      rewrite list_lookup_insert_ne; [done|]. intros E. by apply (Hnot i').
    + intros j' u i' Hu Hs. assert (E : chs !! i' = Some []).
      { apply list_lookup_insert_Some in Hu as [(<- & <- & _)|[Hne Hu]]; [|by eapply H4]. by apply (H4 j (Local (Top i a) [] k sn)). }
      rewrite list_lookup_insert_ne; [done|]. intros Eii. by apply (Hnot i').
    + rewrite <- H5. rewrite HP. cbn. rewrite <- !app_assoc.
      destruct (insert_split ts j _ Hj) as (rest & P1 & P2). rewrite (P2 _), P1. cbn. rewrite <- !app_assoc. apply Permutation_app_swap_app.
    + rewrite (taken_insert ts j _ _ 1 Hj) by done. rewrite (Permutation_length HP) in H6. cbn in H6. lia.
    + done.
  - intros l j' Hl'. destruct (Hh l j' Hl') as (u & i' & Hu & Hi' & ->). destruct (decide (j = j')) as [<-|Hne].
    + eexists _, i'. rewrite list_lookup_insert_eq by done. split_and!; [done| |done]. rewrite Hj in Hu. by injection Hu as <-.
    + exists u, i'. by rewrite list_lookup_insert_ne.
  - intros j' u i' Hu Hi'. apply list_lookup_insert_Some in Hu as [(<- & <- & _)|[Hne Hu]]; [|by eapply Hl]. by eapply Hl.
  - intros j' u i' b Hu Hp. apply list_lookup_insert_Some in Hu as [(<- & <- & _)|[Hne Hu]]; [done|].
    rewrite lookup_total_insert_ne; [by eapply Ht|]. intros [= E]. assert (i' = i) as -> by lia.
    assert (E1 : h !! (10 + Z.of_nat i) = Some j) by by eapply Hl. assert (E2 : h !! (10 + Z.of_nat i) = Some j') by (eapply Hl; [done|]; unfold lock_of; by rewrite Hp).
    congruence.
Qed.

Lemma inv_print m h o ts j p td k sn : Inv m h o ts -> ts !! j = Some (Local Free (p :: td) k sn) ->
  Inv m h (p :: o) (<[j := Local Free td k sn]> ts).
Proof.
  intros HI Hj. assert (Hgen : forall chs, stacks m o ts chs -> stacks m (p :: o) (<[j := Local Free td k sn]> ts) chs).
  { intros chs [H1 H2 H3 H4 H5 H6 H7]. split; [done..| | | |done].
    - intros j' u i Hu Hs. apply list_lookup_insert_Some in Hu as [(<- & <- & _)|[Hne Hu]]; [|by eapply H4].
      by apply (H4 j (Local Free (p :: td) k sn)).
    - rewrite <- H5. apply Permutation_app_head. destruct (insert_split ts j _ Hj) as (rest & P1 & P2). rewrite (P2 _), P1. cbn.
      by rewrite <- Permutation_middle.
    - by rewrite (taken_insert ts j _ _ 0 Hj). }
  destruct HI as [Hf (chs & Hst) Hh Hl Ht]. pose proof (lookup_lt_Some _ _ _ Hj) as Hlt. split; [done|exists chs; auto|..].
  - intros l j' Hl'. destruct (Hh l j' Hl') as (u & i & Hu & Hi & ->). destruct (decide (j = j')) as [<-|Hne].
    + rewrite Hj in Hu. by injection Hu as <-.
    + exists u, i. by rewrite list_lookup_insert_ne.
  - intros j' u i Hu Hi. apply list_lookup_insert_Some in Hu as [(<- & <- & _)|[Hne Hu]]; [done|eauto].
  - intros j' u i a Hu Hi. apply list_lookup_insert_Some in Hu as [(<- & <- & _)|[Hne Hu]]; [done|eauto].
Qed.

(** ** One process *)
Abbreviation Safe := (safe Inv holds_lock).

(** The field of an entry has the value it had at the beginning. *)
Lemma safe_field {A} j l a (k : Z -> process A) t (Q : local -> A -> Prop) : field_of l = Some a ->
  Safe j (k (m0 !!! l)) t Q -> Safe j (Read l k) t Q.
Proof. intros Hf Hk. apply safe_read. intros m h o ts _ HI. by rewrite (in_fields _ _ _ _ HI l a Hf). Qed.

Lemma try_pool_safe j i k sn (Q : local -> option rayjob -> Prop) : (i < n)%nat ->
  Q (Local Free [] k (i :: sn)) None ->
  (forall b, took k b -> Q (Local Free (pixels b) (S k) sn) (Some (as_rayjob b (jx b) (jy b)))) ->
  Safe j (try_pool (Z.of_nat i)) (Local Free [] k sn) Q.
Proof.
  intros Hi HNone HSome. intros m h o ts Hj HI. cbn. destruct (decide (m !!! wpstat (Z.of_nat i) = WPS_VALID)) as [Ev|Ev]; cycle 1.
  { exists (Local Free [] k (i :: sn)). rewrite (proj2 (Z.eqb_neq _ _) Ev). split; [|exact HNone]. apply (inv_local _ _ _ _ _ _ _ HI Hj); [done..|].
    intros chs Hst. apply (stacks_local _ _ _ _ _ _ _ Hst Hj); [done..|]. cbn. intros i' [->|Hs]%elem_of_cons; [by apply (st_stat _ _ _ _ Hst)|].
    by apply (st_seen _ _ _ _ Hst _ _ _ Hj). }
  exists (Local Free [] k sn). rewrite (proj2 (Z.eqb_eq _ _) Ev). split; [by rewrite list_insert_id|]. clear m h o ts Hj HI Ev. split; [done|].
  intros m h o ts Hj HI Hfree. exists (Local (Locked i) [] k sn). split; [by apply inv_acquire|]. clear m h o ts Hj HI Hfree.
  intros m h o ts Hj HI. set (a := m !!! workpool (Z.of_nat i)). exists (Local (Top i a) [] k sn). split.
  { apply (inv_local _ _ _ _ _ _ _ HI Hj); [done|by intros i' a' [= <- <-]|].
    intros chs Hst. apply (stacks_local _ _ _ _ _ _ _ Hst Hj); [done..|]. intros i'. by apply (st_seen _ _ _ _ Hst _ _ _ Hj). }
  clearbody a. clear m h o ts Hj HI. destruct (Z.eqb_spec a 0) as [->|Ha].
  - intros m h o ts Hj HI. exists (Local (Top i 0) [] k (i :: sn)). split; [by apply inv_empty|]. clear m h o ts Hj HI.
    intros m h o ts Hj HI. destruct (inv_release m h o ts j _ i HI Hj eq_refl) as [Hh HI']. split; [done|]. by eexists.
  - apply (safe_field j (next a) a); [done|]. intros m h o ts Hj HI. destruct (inv_take m h o ts j i a k sn HI Hj Hi Ha) as [Hok HI'].
    eexists. split; [exact HI'|]. clear m h o ts Hj HI HI'.
    intros m h o ts Hj HI. destruct (inv_release m h o ts j _ i HI Hj eq_refl) as [Hh HI']. split; [done|]. eexists. split; [exact HI'|].
    do 6 (eapply safe_field; [done|]). apply (HSome (job_at m0 a) Hok).
Qed.

(** The search of the other pools: [pid] has been seen empty, and what lies
    between it and [i]. *)
Lemma steal_safe j pid k (Q : local -> got -> Prop) (Hn : Z.of_nat n <= MAX_PROCS) (Hpid : (pid < n)%nat) :
  (forall sn, (forall i, (i < n)%nat -> i ∈ sn) -> Q (Local Free [] k sn) Empty) ->
  (forall sn b, took k b -> Q (Local Free (pixels b) (S k) sn) (Valid (as_rayjob b (jx b) (jy b)))) ->
  forall fuel d sn, (0 < d <= n)%nat -> (n - d <= fuel)%nat -> (forall e, (e < d)%nat -> ((pid + e) `mod` n)%nat ∈ sn) ->
  Safe j (steal (Z.of_nat n) fuel (Z.of_nat pid) (Z.of_nat ((pid + d) `mod` n))) (Local Free [] k sn) Q.
Proof.
  intros HE HV. induction fuel as [|fuel IH]; intros d sn Hd Hf Hs; cbn [steal].
  all: destruct (Z.eqb_spec (Z.of_nat ((pid + d) `mod` n)) (Z.of_nat pid)) as [E|E]; [apply HE|].
  1,3: intros i Hi; destruct (decide (d = n)) as [->|Hdn];
    [|exfalso; assert ((pid + d) `mod` n = pid)%nat as E' by lia; destruct (decide (pid + d < n)%nat); [rewrite Nat.mod_small in E'; lia|];
      replace (pid + d)%nat with (pid + d - n + 1 * n)%nat in E' by lia; rewrite Nat.Div0.mod_add, Nat.mod_small in E'; lia].
  1,2: specialize (Hs ((i + n - pid) `mod` n)%nat ltac:(apply Nat.mod_upper_bound; lia)); rewrite Nat.Div0.add_mod_idemp_r in Hs;
    replace (pid + (i + n - pid))%nat with (i + 1 * n)%nat in Hs by lia; by rewrite Nat.Div0.mod_add, Nat.mod_small in Hs.
  - exfalso. apply E. replace (pid + d)%nat with (pid + 1 * n)%nat by lia. by rewrite Nat.Div0.mod_add, Nat.mod_small.
  - assert (Hlt : ((pid + d) `mod` n < n)%nat) by (apply Nat.mod_upper_bound; lia).
    assert (Hdn : (d < n)%nat).
    { destruct (decide (d = n)) as [->|?]; [|lia]. exfalso. apply E. replace (pid + n)%nat with (pid + 1 * n)%nat by lia. by rewrite Nat.Div0.mod_add, Nat.mod_small. }
    apply safe_bind, try_pool_safe; [done| |intros b Hb; by apply HV].
    replace (s32 (Z.of_nat ((pid + d) `mod` n) + 1) `rem` Z.of_nat n) with (Z.of_nat ((pid + S d) `mod` n)).
    + apply IH; [lia..|]. intros e He. destruct (decide (e = d)) as [->|]; [left|right; apply Hs; lia].
    + unfold MAX_PROCS in *. rewrite s32_small, Z.rem_mod_nonneg by lia.
      replace (Z.of_nat ((pid + d) `mod` n) + 1) with (Z.of_nat ((pid + d) `mod` n + 1)) by lia. rewrite <- Nat2Z.inj_mod.
      f_equal. rewrite Nat.Div0.add_mod_idemp_l. f_equal. lia.
Qed.

Lemma GetJobs_safe j pid k sn (Q : local -> got -> Prop) (Hn : Z.of_nat n <= MAX_PROCS) (Hpid : (pid < n)%nat) :
  (forall sn, (forall i, (i < n)%nat -> i ∈ sn) -> Q (Local Free [] k sn) Empty) ->
  (forall sn b, took k b -> Q (Local Free (pixels b) (S k) sn) (Valid (as_rayjob b (jx b) (jy b)))) ->
  Safe j (GetJobs (Z.of_nat n) (Z.of_nat pid)) (Local Free [] k sn) Q.
Proof.
  intros HE HV. unfold GetJobs. apply safe_bind, try_pool_safe; [done| |intros b Hb; by apply HV].
  replace (s32 (Z.of_nat pid + 1) `rem` Z.of_nat n) with (Z.of_nat ((pid + 1) `mod` n)).
  - apply steal_safe; [done..|lia|lia|]. intros e He. replace e with 0%nat by lia. rewrite Nat.add_0_r, Nat.mod_small by done. left.
  - unfold MAX_PROCS in *. rewrite s32_small, Z.rem_mod_nonneg by lia. replace (Z.of_nat pid + 1) with (Z.of_nat (pid + 1)) by lia. by rewrite <- Nat2Z.inj_mod.
Qed.

Lemma trace_bundle_safe j k sn b (Q : local -> bool -> Prop) : job_ok b -> Q (Local Free [] k sn) true ->
  forall fuel x y, jx b <= x < jx b + jw b -> jy b <= y <= jy b + jh b -> (length (remaining b x y) <= fuel)%nat ->
  Safe j (trace_bundle fuel (as_rayjob b x y)) (Local Free (remaining b x y) k sn) Q.
Proof.
  intros Hb HQ. induction fuel as [|fuel IH]; intros x y Hx Hy Hf; cbn [trace_bundle]; pose proof (next_pixel b x y Hb Hx Hy) as Hnext;
    destruct (GetRayJobFromBundle (as_rayjob b x y)) as [[[x0 y0] job']|]; try (by rewrite Hnext);
    destruct Hnext as (-> & -> & x' & y' & -> & Hx' & Hy' & Er); rewrite Er in Hf |- *; cbn in Hf; [lia|].
  intros m h o ts Hj HI. eexists. split; [by eapply inv_print|]. apply IH; [done..|lia].
Qed.

(** The process ends when it has seen all pools empty, and its fuel is enough. *)
Definition ended_ok (t : local) (ok : bool) : Prop :=
  ok = true /\ ph t = Free /\ todo t = [] /\ forall i, (i < n)%nat -> i ∈ seen t.

Lemma RayTrace_safe j pid npixels (Hn : Z.of_nat n <= MAX_PROCS) (Hpid : (pid < n)%nat) (Hpix : (length scr <= npixels)%nat) :
  forall jobs k sn, (J <= jobs + k)%nat -> Safe j (RayTrace (Z.of_nat n) jobs npixels (Z.of_nat pid)) (Local Free [] k sn) ended_ok.
Proof.
  induction jobs as [|jobs IH]; intros k sn HJ; cbn [RayTrace]; apply safe_bind, (GetJobs_safe j pid k sn _ Hn Hpid); try (by intros; split_and!);
    intros sn' b (Hok & Hk & Hl); [lia|].
  apply safe_bind. rewrite <- (remaining_all b Hok). apply (trace_bundle_safe j _ _ b _ Hok); [|destruct Hok; lia..|rewrite remaining_all by done; lia].
  apply IH. lia.
Qed.

(** ** The beginning *)
Lemma Inv_start m h ts chs : m0 = m -> stacks m [] ts chs -> h = ∅ -> (forall j t, ts !! j = Some t -> ph t = Free) -> Inv m h [] ts.
Proof.
  intros <- Hst -> Hf. split; [by intros|by exists chs|intros l j; by rewrite lookup_empty| |].
  - intros j t i Ht. unfold lock_of. by rewrite (Hf j t Ht).
  - intros j t i a Ht. by rewrite (Hf j t Ht).
Qed.

(** When all processes have ended, everything has been traced. *)
Lemma Inv_end m h o ts : Inv m h o ts -> ts <> [] -> (forall t, t ∈ ts -> exists ok, ended_ok t ok) -> o ≡ₚ scr.
Proof.
  intros HI Hne Hall. destruct (in_stacks _ _ _ _ HI) as (chs & [H1 H2 H3 H4 H5 H6 H7]).
  assert (E1 : concat chs = []).
  { destruct ts as [|t ts]; [done|]. destruct (Hall t) as (ok & _ & _ & _ & Hs); [left|].
    assert (Hch : Forall (fun ch => ch = []) chs).
    { apply Forall_lookup. intros i ch Hi. assert (Hi' : (i < n)%nat) by (rewrite <- H1; by eapply lookup_lt_Some).
      specialize (H4 0%nat t i eq_refl (Hs i Hi')). congruence. }
    clear -Hch. induction Hch as [|ch chs -> _ IH]; [done|]. exact IH. }
  assert (E2 : ts ≫= todo = []).
  { clear -Hall. induction ts as [|t ts IH]; [done|]. cbn. destruct (Hall t) as (ok & _ & _ & -> & _); [left|]. apply IH. intros u Hu. apply Hall. by right. }
  rewrite E1, E2 in H5. done.
Qed.

(** No pixel is traced twice. *)
Lemma Inv_once m h o ts : Inv m h o ts -> o ⊆+ scr.
Proof.
  intros HI. destruct (in_stacks _ _ _ _ HI) as (chs & [_ _ _ _ H5 _ _]). rewrite <- H5. apply submseteq_inserts_l, submseteq_inserts_l. done.
Qed.
End Invariant.

Lemma list_choice {X Y} (P : nat -> X -> Y -> Prop) (l : list X) : (forall i x, l !! i = Some x -> exists y, P i x y) ->
  exists l' : list Y, length l' = length l /\ forall i x y, l !! i = Some x -> l' !! i = Some y -> P i x y.
Proof.
  revert P. induction l as [|x l IH]; intros P HP; [by exists []|]. destruct (HP 0%nat x eq_refl) as [y Hy].
  destruct (IH (fun i => P (S i))) as (l' & Hl & Hl'); [intros i x' Hx'; by apply HP|].
  exists (y :: l'). split; [cbn; lia|]. intros [|i] x' y' Hx Hy'; cbn in *; [by simplify_eq|eauto].
Qed.

Section Render.
Context {H : Type} `{Heap H}.
Context (n : nat) (xres yres blockx blocky bundlex bundley : Z) (fuel : nat).

(** The parameters: between 1 and 128 processes, at most one block for each
    pixel of a row or column, bundles with at least one pixel, and sizes that
    do not overflow. *)
Record params_ok : Prop := {
  pa_procs : (0 < n)%nat /\ Z.of_nat n <= MAX_PROCS;
  pa_x : 0 < blockx <= xres /\ xres <= 1073741823 /\ xres <= Z.of_nat fuel;
  pa_y : 0 < blocky <= yres /\ yres <= 1073741823 /\ yres <= Z.of_nat fuel;
  pa_bundle : 0 < bundlex <= 1073741823 /\ 0 < bundley <= 1073741823
}.
Hypothesis params : params_ok.

Abbreviation bs := (blocks fuel xres yres blockx blocky bundlex bundley).
Abbreviation scr := (screen xres yres).

(** Every job of a block lies on the screen. *)
Lemma blocks_ok b : b ∈ concat bs -> job_ok b.
Proof.
  destruct params as [_ (Hbx & Hxr & Hfx) (Hby & Hyr & Hfy) [Hux Huy]]. destruct (quot_range xres blockx), (quot_range yres blocky); try lia.
  intros Hb. apply list_elem_of_In, in_concat in Hb as (l & Hl & Hb). apply list_elem_of_In in Hl, Hb. unfold blocks in Hl.
  apply list_elem_of_bind in Hl as (cy & Hl & Hcy). apply list_elem_of_fmap in Hl as (cx & -> & Hcx).
  unfold bundles in Hb. apply list_elem_of_bind in Hb as (dy & Hb & Hdy). apply list_elem_of_bind in Hb as (dx & Hb & Hdx).
  apply list_elem_of_singleton in Hb as ->. apply cuts_elem in Hcx, Hcy, Hdx, Hdy; [|lia..]. split; cbn; lia.
Qed.

Lemma pools_stacks s k : pools s (deal 0 bs (replicate n [])) ->
  exists chs, stacks n (shared s) (length (concat bs)) scr (shared s) [] (replicate k (Local Free [] 0 [])) chs.
Proof.
  intros [Hsize Hstat Hchain]. set (js := deal 0 bs (replicate n [])) in *.
  destruct params as [[Hn Hmax] (Hbx & Hxr & Hfx) (Hby & Hyr & Hfy) [Hux Huy]].
  assert (Hjs : length js = n) by (unfold js; by rewrite length_deal, length_replicate).
  assert (HP : concat js ≡ₚ concat bs).
  { unfold js. rewrite deal_all by (rewrite length_replicate; lia). assert (E : concat (replicate n (@nil job)) = []) by (clear; induction n; done).
    by rewrite E, app_nil_r. }
  destruct (list_choice (fun i q ch => chain (shared s) (shared s !!! workpool (Z.of_nat i)) ch /\ job_at (shared s) <$> ch = q) js) as (chs & Hl & Hchs).
  { intros i q Hq. destruct (Hchain i q Hq) as (ads & ? & ? & _). by exists ads. }
  assert (Hjobs : job_at (shared s) <$> concat chs = concat js).
  { change (map (job_at (shared s)) (concat chs) = concat js). rewrite concat_map. f_equal. apply list_eq. intros i.
    assert (E : map (map (job_at (shared s))) chs !! i = option_map (map (job_at (shared s))) (chs !! i)) by apply list_lookup_fmap. rewrite E.
    destruct (js !! i) as [q|] eqn:Hq; [|by rewrite lookup_ge_None_2 by (apply lookup_ge_None in Hq; lia)].
    destruct (lookup_lt_is_Some_2 chs i) as [ch Hch]; [rewrite Hl; by eapply lookup_lt_Some|].
    rewrite Hch. cbn. f_equal. by apply (Hchs i q ch Hq Hch). }
  exists chs. split.
  - lia.
  - intros i ch Hi. destruct (lookup_lt_is_Some_2 js i) as [q Hq]; [rewrite <- Hl; by eapply lookup_lt_Some|]. by apply (Hchs i q ch Hq Hi).
  - intros i Hi Hne. by rewrite Hstat in Hne by lia.
  - intros j t i [-> _]%lookup_replicate Hin. by apply elem_of_nil in Hin.
  - rewrite app_nil_r. assert (E : replicate k (Local Free [] 0 []) ≫= todo = []) by (clear; induction k; done).
    rewrite E, app_nil_r, <- (bind_fmap (job_at (shared s)) pixels). rewrite Hjobs. rewrite HP. apply blocks_screen; lia.
  - assert (E : sum_list (taken <$> replicate k (Local Free [] 0 [])) = 0%nat) by (clear; induction k; done).
    rewrite E, Nat.add_0_r, <- HP, <- Hjobs. by rewrite length_fmap.
  - apply Forall_forall. intros a Ha. apply blocks_ok. rewrite <- HP, <- Hjobs. by apply list_elem_of_fmap_2.
Qed.

(** C28: every pixel of the screen is traced exactly once.  Let one process fill
    the pools and then any number of processes trace, each with any pool as its
    own, taking turns in any order.  Then [InitWorkPool] returns; every
    execution ends, without a deadlock; at no time a pixel has been traced
    twice; and at the end all processes have left their loops and the pixels
    traced are those of the screen, each once. *)
Theorem raytrace_exact (s : gmem H) (pids : list nat) (jobs npixels : nat) :
  pids <> [] -> Forall (fun pid => (pid < n)%nat) pids -> heap_room (heap s) (length (concat bs)) ->
  (length (concat bs) <= jobs)%nat -> (length scr <= npixels)%nat ->
  exists s', InitWorkPool fuel (Z.of_nat n) xres yres blockx blocky bundlex bundley s = Ok (tt, s') /\
  forall e, rtc step (System (shared s') ∅ [] ((fun pid => RayTrace (Z.of_nat n) jobs npixels (Z.of_nat pid)) <$> pids)) e ->
    Acc (fun e' e => step e e') e /\ sy_out e ⊆+ scr /\
    ((exists e', step e e') \/ (forall i p, sy_procs e !! i = Some p -> p = Done true) /\ sy_out e ≡ₚ scr).
Proof.
  intros Hne Hpids Hroom Hjobs Hpix. destruct params as [[Hn Hmax] (Hbx & Hxr & Hfx) (Hby & Hyr & Hfy) [Hux Huy]].
  destruct (InitWorkPool_run fuel n xres yres blockx blocky bundlex bundley s 0) as (s' & R & Hp & _); [lia..|done|].
  exists s'. split; [done|]. destruct (pools_stacks s' (length pids) Hp) as (chs & Hst).
  set (m0 := shared s') in *. set (I := Inv n m0 (length (concat bs)) scr).
  assert (Hstart : all_safe I holds_lock (ended_ok n)
    (System m0 ∅ [] ((fun pid => RayTrace (Z.of_nat n) jobs npixels (Z.of_nat pid)) <$> pids))).
  { exists (replicate (length pids) (Local Free [] 0 [])). cbn. split_and!; [by rewrite length_replicate, length_fmap| |].
    - apply (Inv_start n m0 _ _ m0 ∅ _ chs); [done..|]. by intros j t [-> _]%lookup_replicate.
    - intros i p t Hi [-> _]%lookup_replicate. rewrite list_lookup_fmap in Hi. apply fmap_Some in Hi as (pid & Hpid & ->).
      apply RayTrace_safe; [done|exact (Forall_lookup_1 _ _ _ _ Hpids Hpid)|done|lia]. }
  intros e Hr. pose proof (all_safe_reachable _ _ _ _ _ Hstart Hr) as He. split; [apply step_wf|]. split.
  - destruct He as (ts & _ & HI & _). by eapply Inv_once.
  - destruct (all_safe_progress _ _ (inv_holder n m0 _ scr) (ended_ok n) (fun t a Q => match Q with conj _ (conj E _) => ltac:(unfold holds_lock; by rewrite E) end) e He)
      as [?|(ts & Hl & HI & Hd)]; [by left|]. right.
    pose proof (steps_length _ _ Hr) as Hlen. cbn in Hlen. rewrite length_fmap in Hlen.
    split.
    + intros i p Hi. destruct (lookup_lt_is_Some_2 ts i) as [t Ht]; [rewrite Hl; by eapply lookup_lt_Some|].
      destruct (Hd i p t Hi Ht) as (a & -> & -> & _). done.
    + apply (Inv_end n m0 _ scr _ _ _ ts HI); [intros ->; destruct pids; [done|cbn in *; lia]|].
      intros t [i Ht]%list_elem_of_lookup. destruct (lookup_lt_is_Some_2 (sy_procs e) i) as [p Hi]; [rewrite <- Hl; by eapply lookup_lt_Some|].
      destruct (Hd i p t Hi Ht) as (a & _ & Hq). by exists a.
Qed.
End Render.

(** ** With the heap of the ray tracer *)
#[global] Instance ray_heap : Heap arena.
Proof.
  refine {| heap_malloc := RayHeap.GlobalMalloc; heap_live := in_use; heap_room := room sizeof_WPJOB |}.
  intros h k Hr. by apply malloc_room.
Defined.

(** A screen of two by two pixels, four jobs, two processes. *)
Lemma room_four : heap_room heap0 4.
Proof.
  destruct (GlobalHeapInit_run 4096 400 no_arena) as (w & R & Hw); [done..|].
  assert (E : heap0 = Arena w 4096 4096 (4096 + rounded 400)) by (unfold heap0, after; by rewrite R).
  rewrite E. exists [Nd 4096 (rounded 400 - 16) true]. split; [exact Hw|]. right. eexists. split; [left|]. done.
Qed.

Lemma small_params : params_ok 2 2 2 1 2 1 1 2.
Proof. split; unfold MAX_PROCS; lia. Qed.

Lemma raytrace_exact_witness : exists s', InitWorkPool 2 2 2 2 1 2 1 1 (Gmem ∅ heap0) = Ok (tt, s') /\
  forall e, rtc step (System (shared s') ∅ [] ((fun pid => RayTrace 2 4 4 (Z.of_nat pid)) <$> [0; 1]%nat)) e ->
    Acc (fun e' e => step e e') e /\ sy_out e ⊆+ [[0; 0]; [1; 0]; [0; 1]; [1; 1]] /\
    ((exists e', step e e') \/ (forall i p, sy_procs e !! i = Some p -> p = Done true) /\ sy_out e ≡ₚ [[0; 0]; [1; 0]; [0; 1]; [1; 1]]).
Proof.
  apply (raytrace_exact 2 2 2 1 2 1 1 2 small_params (Gmem ∅ heap0) [0; 1]%nat 4 4).
  - discriminate.
  - repeat constructor.
  - apply room_four.
  - vm_compute. lia.
  - vm_compute. lia.
Defined.

(** Three processes, one of which starts with the pool of another, in one order
    of turns; what has been traced, the last first. *)
Example four_pixels :
  match InitWorkPool 2 2 2 2 1 2 1 1 (Gmem ∅ heap0) with
  | Ok (_, s') => sy_out (turns (System (shared s') ∅ [] ((fun pid => RayTrace 2 4 4 pid) <$> [1; 0; 0])) (concat (replicate 40 [2; 0; 1]%nat)))
  | _ => []
  end = [[0; 1]; [0; 0]; [1; 1]; [1; 0]].
Proof. vm_compute. reflexivity. Qed.
