(* ===== verification/Float32.v ===== *)
(** * Single precision numbers

    The C type [float] as the IEEE 754 format with 24 bits of precision, and
    the conversion from [int].  The arithmetic of the integers it represents is
    exact as long as the result is below [2^24]. *)
From S2P Require Import Prelude.
From Stdlib Require Export SpecFloat.
Local Open Scope Z_scope.

Abbreviation float := spec_float.
Definition fsub : float -> float -> float := SFsub 24 128.
Definition fmul : float -> float -> float := SFmul 24 128.
Definition fdiv : float -> float -> float := SFdiv 24 128.

(** The conversion [(float) n]. *)
Definition float_of (n : Z) : float := binary_normalize 24 128 n 0 false.

#[global] Instance float_inhabited : Inhabited float := populate (S754_zero false).

(** ** Shifts *)
Lemma digits_double p : digits2_pos (p~0) = Pos.succ (digits2_pos p).
Proof. done. Qed.

Lemma digits_shift (k : nat) p :
  Z.pos (digits2_pos (Nat.iter k xO p)) = Z.pos (digits2_pos p) + Z.of_nat k.
Proof. induction k as [|k IH]; [cbn; lia|]. rewrite Nat2Z.inj_succ. change (Nat.iter (S k) xO p) with (xO (Nat.iter k xO p)). rewrite digits_double. lia. Qed.

Lemma digits_pow p : 2 ^ (Z.pos (digits2_pos p) - 1) <= Z.pos p < 2 ^ Z.pos (digits2_pos p).
Proof.
  induction p as [p IH|p IH|]; [| |done]; change (digits2_pos _) with (Pos.succ (digits2_pos p));
    rewrite Pos2Z.inj_succ; replace (Z.succ (Z.pos (digits2_pos p)) - 1) with (Z.succ (Z.pos (digits2_pos p) - 1)) by lia;
    rewrite !Z.pow_succ_r by lia; lia.
Qed.

Lemma digits_small p : Z.pos p < 2 ^ 24 -> Z.pos (digits2_pos p) <= 24.
Proof.
  intros Hp. destruct (Z.le_gt_cases (Z.pos (digits2_pos p)) 24) as [|Hd]; [done|].
  pose proof (digits_pow p). pose proof (Z.pow_le_mono_r 2 24 (Z.pos (digits2_pos p) - 1) ltac:(lia) ltac:(lia)). lia.
Qed.

(** The mantissa [p * 2^k]. *)
Definition shifted (k : Z) (p : positive) : positive := Nat.iter (Z.to_nat k) xO p.

Lemma shifted_add a b p : 0 <= a -> 0 <= b -> shifted a (shifted b p) = shifted (a + b) p.
Proof. intros Ha Hb. unfold shifted. rewrite Z2Nat.inj_add by lia. by rewrite Nat.iter_add. Qed.

Lemma shifted_value k p : 0 <= k -> Z.pos (shifted k p) = Z.pos p * 2 ^ k.
Proof.
  intros Hk. unfold shifted. rewrite <- (Z2Nat.id k) at 2 by done. induction (Z.to_nat k) as [|j IH]; [cbn; lia|].
  rewrite Nat2Z.inj_succ, Z.pow_succ_r by lia. change (Nat.iter (S j) xO p) with (xO (Nat.iter j xO p)). rewrite Pos2Z.inj_xO. lia.
Qed.

Lemma shifted_digits k p : 0 <= k -> Z.pos (digits2_pos (shifted k p)) = Z.pos (digits2_pos p) + k.
Proof. intros Hk. unfold shifted. rewrite digits_shift. lia. Qed.

Lemma shl_align_shifted p e e' : shl_align p e e' = if e' <? e then (shifted (e - e') p, e') else (p, e).
Proof.
  unfold shl_align. destruct (Z.ltb_spec e' e) as [H|H].
  - destruct (e' - e) as [|d|d] eqn:E; [lia..|]. unfold shifted. replace (Z.to_nat (e - e')) with (Pos.to_nat d) by lia.
    by rewrite Pos2Nat.inj_iter.
  - by destruct (e' - e) eqn:E; [..|lia].
Qed.

Lemma iter_pos_nat {A} (f : A -> A) n x : iter_pos f n x = Nat.iter (Pos.to_nat n) f x.
Proof.
  revert x. induction n as [n IH|n IH|]; intros x; cbn [iter_pos].
  - rewrite Pos2Nat.inj_xI, !IH, <- Nat.iter_add. replace (S (2 * Pos.to_nat n)) with (Pos.to_nat n + Pos.to_nat n + 1)%nat by lia.
    by rewrite (Nat.iter_add (_ + _)).
  - rewrite Pos2Nat.inj_xO, !IH, <- Nat.iter_add. f_equal. lia.
  - done.
Qed.

(** Shifting back what has been shifted loses nothing. *)
Lemma shr_shifted k p e : 0 <= k ->
  shr (Build_shr_record (Z.pos (shifted k p)) false false) e k = (Build_shr_record (Z.pos p) false false, e + k).
Proof.
  intros Hk. unfold shr. destruct k as [|k|k]; [by rewrite Z.add_0_r|rewrite iter_pos_nat|lia]. f_equal.
  unfold shifted. rewrite Z2Nat.inj_pos. generalize (Pos.to_nat k) as j. intros j.
  induction j as [|j IH]; [done|]. rewrite Nat.iter_succ_r. exact IH.
Qed.

(** ** Rounding of what is exact *)
Lemma fexp_small d : 0 < d <= 24 -> fexp 24 128 d = d - 24.
Proof. unfold fexp, emin. lia. Qed.

Definition canonical (p : positive) : float :=
  S754_finite false (shifted (24 - Z.pos (digits2_pos p)) p) (Z.pos (digits2_pos p) - 24).

Lemma shr_fexp_none p e : fexp 24 128 (Z.pos (digits2_pos p) + e) <= e ->
  shr_fexp 24 128 (Z.pos p) e loc_Exact = (Build_shr_record (Z.pos p) false false, e).
Proof.
  intros H. unfold shr_fexp. cbn [Zdigits2 shr_record_of_loc]. unfold shr. by destruct (fexp _ _ _ - e) eqn:E; [|lia|].
Qed.

Lemma round_exact k p : 0 <= k -> Z.pos p < 2 ^ 24 -> binary_round 24 128 false (shifted k p) (- k) = canonical p.
Proof.
  intros Hk Hp. pose proof (digits_small p Hp) as Hd. unfold binary_round.
  rewrite shifted_digits by done. replace (_ + k + - k) with (Z.pos (digits2_pos p)) by lia.
  rewrite fexp_small by lia. rewrite shl_align_shifted. set (d := Z.pos (digits2_pos p)) in *.
  assert (Hfin : forall q e, q = shifted (24 - d) p -> e = d - 24 ->
    (let '(mrs'', e'') := shr_fexp 24 128 (Z.pos q) e loc_Exact in
      match shr_m mrs'' with
      | Z0 => S754_zero false
      | Zpos m => if Z.leb e'' (Z.sub 128 24) then S754_finite false m e'' else S754_infinity false
      | _ => S754_nan
      end) = canonical p).
  { intros q e -> ->. rewrite shr_fexp_none.
    - cbn [shr_m]. destruct (Z.leb_spec (d - 24) (128 - 24)); [done|lia].
    - rewrite shifted_digits by lia. replace (_ + (24 - d) + (d - 24)) with d by lia. by rewrite fexp_small by lia. }
  destruct (Z.ltb_spec (d - 24) (- k)) as [H|H]; unfold binary_round_aux.
  - rewrite shr_fexp_none.
    + cbn [shr_m loc_of_shr_record round_nearest_even]. apply Hfin; [|done]. rewrite shifted_add by lia. f_equal. lia.
    + rewrite shifted_add, shifted_digits by lia. replace (_ + _ + (d - 24)) with d by lia. by rewrite fexp_small by lia.
  - unfold shr_fexp at 1. cbn [Zdigits2 shr_record_of_loc]. rewrite shifted_digits by done.
    replace (_ + k + - k) with d by lia. rewrite fexp_small by lia.
    replace k with ((d - 24 - - k) + (24 - d)) at 1 by lia. rewrite <- shifted_add by lia.
    rewrite shr_shifted by lia. cbn [shr_m loc_of_shr_record round_nearest_even]. apply Hfin; [done|lia].
Qed.

Lemma float_of_pos p : Z.pos p < 2 ^ 24 -> float_of (Z.pos p) = canonical p.
Proof. apply (round_exact 0); done. Qed.

Lemma align_canonical p e : e <= Z.pos (digits2_pos p) - 24 <= 0 ->
  fst (shl_align (shifted (24 - Z.pos (digits2_pos p)) p) (Z.pos (digits2_pos p) - 24) e) = shifted (- e) p.
Proof.
  intros He. rewrite shl_align_shifted. destruct (Z.ltb_spec e (Z.pos (digits2_pos p) - 24)); cbn [fst].
  - rewrite shifted_add by lia. f_equal. lia.
  - f_equal. lia.
Qed.

(** The subtraction of integers is exact. *)
Lemma fsub_exact a b : 0 <= b <= a -> a < 2 ^ 24 -> fsub (float_of a) (float_of b) = float_of (a - b).
Proof.
  intros Hb Ha. destruct b as [|q|q]; [|destruct a as [|p|p]; [lia| |lia]|lia].
  { rewrite Z.sub_0_r. destruct a as [|p|p]; [done|by rewrite float_of_pos|lia]. }
  rewrite !float_of_pos by lia. unfold fsub, canonical, SFsub. cbv zeta.
  pose proof (digits_small p Ha). pose proof (digits_small q ltac:(lia)).
  set (e := Z.min _ _). assert (He : e <= Z.pos (digits2_pos p) - 24 /\ e <= Z.pos (digits2_pos q) - 24) by (unfold e; lia).
  rewrite !align_canonical by lia. cbn [cond_Zopp]. rewrite !shifted_value by lia. rewrite <- Z.mul_sub_distr_r.
  destruct (Z.pos p - Z.pos q) as [|r|r] eqn:Er; [by rewrite Z.mul_0_l| |lia].
  rewrite <- shifted_value by lia. rewrite float_of_pos by lia. cbn [binary_normalize].
  rewrite <- (round_exact (- e)) by lia. by rewrite Z.opp_involutive.
Qed.
