(* ===== verification/Gauss.v ===== *)
(** * Gaussian elimination ([src/Tmk/apps/gauss_c/src/gauss.c])

    The processes own the rows of the matrix in turns.  In each sweep the owner
    of the pivot row finds the pivot, exchanges two columns of its row, divides
    it, and publishes the column in one of two variables, for the odd and the
    even sweeps; after a barrier everybody eliminates in the rows it owns, and
    goes on to the next sweep without another barrier. *)
From S2P Require Import Prelude Float32 Programs.
Local Open Scope Z_scope.

(** ** Shared memory: [Global->a], and the two pivot variables *)
Inductive loc : Type := Elem (i j : Z) | odd_sweep_pivot | even_sweep_pivot.

#[global] Instance loc_eq_dec : EqDecision loc.
Proof. solve_decision. Defined.
#[global] Instance loc_countable : Countable loc.
Proof.
  refine (inj_countable' (fun l => match l with Elem i j => inl (i, j) | odd_sweep_pivot => inr true | even_sweep_pivot => inr false end)
    (fun x => match x with inl (i, j) => Elem i j | inr true => odd_sweep_pivot | inr false => even_sweep_pivot end) _).
  by intros [].
Defined.

(** What a place holds: a [float] or an [int]. *)
Inductive val : Type := VFloat (f : float) | VInt (n : Z).
#[global] Instance val_inhabited : Inhabited val := populate (VInt 0).
Definition as_float (v : val) : float := match v with VFloat f => f | VInt _ => inhabitant end.
Definition as_int (v : val) : Z := match v with VInt n => n | VFloat _ => 0 end.

Abbreviation memory := (gmap loc val).
Abbreviation process := (prog loc val).

Definition rd_float (i j : Z) : process float := v ← rd (Elem i j); mret (as_float v).
Definition wr_float (i j : Z) (f : float) : process unit := wr (Elem i j) (VFloat f).
Definition rd_int (l : loc) : process Z := v ← rd l; mret (as_int v).

(** The macros [SWAP] and [ABS] on elements of the matrix. *)
Definition SWAP (i j i' j' : Z) : process unit :=
  tmp ← rd_float i j;
  b ← rd_float i' j';
  wr_float i j b;;
  wr_float i' j' tmp.

Definition ABS (i j : Z) : process float :=
  x ← rd_float i j;
  if SFltb (float_of 0) x then rd_float i j else y ← rd_float i j; mret (SFopp y).

Section Program.
(** [Tmk_nprocs], [size] and [iters]. *)
Context (nprocs size iters : Z).

Definition InitArray (proc_id : Z) : process unit :=
  for_all (fun i =>
    for_all (fun j => wr_float i j (float_of (j * 2 + 2))) (seqZ 0 i);;
    for_all (fun j => wr_float i j (float_of (i * 2 + 2))) (seqZ i (size - i))) (strided proc_id size nprocs).

(** The column with the largest absolute value in the pivot row. *)
Definition find_pivot (curr_pivot : Z) : process Z :=
  max ← ABS curr_pivot curr_pivot;
  '(pivot_col, _) ← loop (fun '(pivot_col, max) j =>
    abs_j ← ABS curr_pivot j;
    mret (if SFltb max abs_j then (j, abs_j) else (pivot_col, max))) (curr_pivot, max) (seqZ (curr_pivot + 1) (size - curr_pivot - 1));
  mret pivot_col.

Definition pivot_place (curr_pivot : Z) : loc :=
  if Z.land curr_pivot 1 =? 0 then even_sweep_pivot else odd_sweep_pivot.

Definition pivot_row (curr_pivot : Z) : process unit :=
  pivot_col ← find_pivot curr_pivot;
  SWAP curr_pivot curr_pivot curr_pivot pivot_col;;
  wr (pivot_place curr_pivot) (VInt pivot_col);;
  for_all (fun j =>
    x ← rd_float curr_pivot j;
    y ← rd_float curr_pivot curr_pivot;
    wr_float curr_pivot j (fdiv x y)) (seqZ (curr_pivot + 1) (size - curr_pivot - 1)).

(** What a sweep does before the barrier: the next [starting_row]. *)
Definition before_barrier (curr_pivot starting_row : Z) : process Z :=
  if starting_row =? curr_pivot then pivot_row curr_pivot;; mret (starting_row + nprocs) else mret starting_row.

Definition eliminate_in (curr_pivot pivot_col k : Z) : process unit :=
  SWAP k curr_pivot k pivot_col;;
  for_all (fun j =>
    x ← rd_float k j;
    y ← rd_float k curr_pivot;
    z ← rd_float curr_pivot j;
    wr_float k j (fsub x (fmul y z))) (seqZ (curr_pivot + 1) (size - (curr_pivot + 1))).

(** And after it. *)
Definition after_barrier (curr_pivot starting_row : Z) : process Z :=
  pivot_col ← rd_int (pivot_place curr_pivot);
  for_all (eliminate_in curr_pivot pivot_col) (strided starting_row size nprocs);;
  mret starting_row.

Definition sweep (starting_row curr_pivot : Z) : process Z :=
  starting_row ← before_barrier curr_pivot starting_row;
  barrier 0;;
  after_barrier curr_pivot starting_row.

Definition Compute (proc_id : Z) : process unit :=
  loop sweep proc_id (seqZ 0 iters);;
  barrier 0.

(** ** The verification step of process 0 *)
Definition LOWERVAL : float := float_of 0.
Definition UPPERVAL : float := float_of 2.

Definition TransposeAndZero : process unit :=
  for_all (fun i => for_all (fun j => SWAP i j j i;; wr_float i j (float_of 0)) (seqZ 0 i)) (seqZ 0 size).

Definition CheckRow (i : Z) : process Z :=
  errorcount ← loop (fun errorcount j =>
    x ← rd_float i j; mret (if negb (SFeqb x LOWERVAL) then errorcount + 1 else errorcount)) 0 (seqZ 0 i);
  loop (fun errorcount j =>
    x ← rd_float i j; mret (if negb (SFeqb x UPPERVAL) then errorcount + 1 else errorcount)) errorcount (seqZ i (size - i)).

Definition CheckArray : process Z :=
  loop (fun errorcount i => e ← CheckRow i; mret (errorcount + e)) 0 (seqZ 0 size).

(** The end of [main]: the number of errors, for process 0 after a complete
    elimination. *)
Definition verification (proc_id : Z) : process Z :=
  if (proc_id =? 0) && (iters =? size - 1) then TransposeAndZero;; CheckArray else mret 0.

(** [main], after the matrix has been allocated and distributed. *)
Definition gauss_main (proc_id : Z) : process Z :=
  barrier 0;;
  InitArray proc_id;;
  barrier 0;;
  Compute proc_id;;
  verification proc_id.
End Program.

(** [iters], as [main] sets it from the option. *)
Definition iterations (size iters : Z) : Z :=
  if iters =? 0 then size - 1
  else if (iters <? 1) || (size <=? iters) then size - 1 else iters.

Definition processes (nprocs : Z) (p : Z -> process Z) : list (process Z) := p <$> seqZ 0 nprocs.
