(* ===== verification/GaussRows.v ===== *)
(** * Gaussian elimination: what is done to a row

    The elimination as a function of matrices, and that the loops of
    [Gauss] compute it row by row, in terms of the rules of [Programs]. *)
From S2P Require Import Prelude Float32 Programs Gauss.
Local Open Scope Z_scope.

(** ** The reference *)
Abbreviation row := (Z -> float).
Abbreviation matrix := (Z -> row).

Definition fabs (x : float) : float := if SFltb (float_of 0) x then x else SFopp x.

Section Reference.
Context (size : Z).

Definition better (r : row) (best : Z * float) (j : Z) : Z * float :=
  if SFltb best.2 (fabs (r j)) then (j, fabs (r j)) else best.

(** The first column from [c] on with the largest absolute value. *)
Definition pivot (c : Z) (r : row) : Z := (foldl (better r) (c, fabs (r c)) (seqZ (c + 1) (size - c - 1))).1.

Definition exchanged (c c' : Z) (r : row) : row := fun j => if decide (j = c') then r c else if decide (j = c) then r c' else r j.

Definition divided (c : Z) (r : row) : row := fun j => if decide (c < j < size) then fdiv (r j) (r c) else r j.

Definition reduced (c : Z) (prow r : row) : row := fun j => if decide (c < j < size) then fsub (r j) (fmul (r c) (prow j)) else r j.

(** The matrix at the barrier of sweep [c], and at its end. *)
Definition halfway (c : Z) (a : matrix) : matrix := fun k =>
  if decide (k = c) then divided c (exchanged c (pivot c (a c)) (a c)) else a k.

Definition swept (c : Z) (a : matrix) : matrix := fun k =>
  if decide (c < k < size) then reduced c (halfway c a c) (exchanged c (pivot c (a c)) (a k)) else halfway c a k.

Fixpoint eliminated (n : nat) (a : matrix) : matrix :=
  match n with O => a | S n => swept (Z.of_nat n) (eliminated n a) end.
End Reference.

(** ** Rows in memory *)
Definition elem (m : memory) (k j : Z) : float := as_float (m !!! Elem k j).

(** Only row [k] has changed. *)
Definition only_row (k : Z) (m m' : memory) : Prop := forall l, (forall j, l <> Elem k j) -> m' !!! l = m !!! l.

#[global] Instance only_row_preorder k : PreOrder (only_row k).
Proof. split; [by intros m l|]. intros m1 m2 m3 H1 H2 l Hl. by rewrite H2, H1. Qed.

Lemma only_row_elem k m m' i j : only_row k m m' -> i <> k -> elem m' i j = elem m i j.
Proof. intros H Hi. unfold elem. rewrite H; [done|]. congruence. Qed.

Lemma only_row_insert k j v m : only_row k m (<[Elem k j := v]> m).
Proof. intros l Hl. apply lookup_total_insert_ne. intros E. by apply (Hl j). Qed.

Lemma elem_insert m k j f i j' : elem (<[Elem k j := VFloat f]> m) i j' = if decide (i = k /\ j' = j) then f else elem m i j'.
Proof.
  unfold elem. destruct (decide _) as [[-> ->]|Hne]; [by rewrite lookup_total_insert_eq|].
  rewrite lookup_total_insert_ne; [done|]. intros [= -> ->]. by apply Hne.
Qed.

Section Rows.
Context (R W : loc -> Prop).
Implicit Types (m : memory).

Lemma does_rd_float i j m (Q : float -> memory -> Prop) : R (Elem i j) -> Q (elem m i j) m -> does R W (rd_float i j) m Q.
Proof. intros HR HQ. apply does_bind, does_rd; [done|]. by apply does_ret. Qed.

Lemma does_wr_float i j f m (Q : unit -> memory -> Prop) :
  W (Elem i j) -> Q tt (<[Elem i j := VFloat f]> m) -> does R W (wr_float i j f) m Q.
Proof. apply does_wr. Qed.

Lemma does_SWAP k c c' m (Q : unit -> memory -> Prop) :
  (forall j, j = c \/ j = c' -> R (Elem k j) /\ W (Elem k j)) ->
  (forall m', only_row k m m' -> (forall j, elem m' k j = exchanged c c' (elem m k) j) -> Q tt m') ->
  does R W (SWAP k c k c') m Q.
Proof.
  intros Hk HQ. destruct (Hk c) as [HR HW], (Hk c') as [HR' HW']; [by auto..|].
  apply does_bind, does_rd_float; [done|]. apply does_bind, does_rd_float; [done|].
  apply does_bind, does_wr_float; [done|]. apply does_wr_float; [done|]. apply HQ.
  - etrans; apply only_row_insert.
  - intros j. rewrite !elem_insert. unfold exchanged. repeat case_decide; naive_solver.
Qed.

Lemma does_ABS i j m (Q : float -> memory -> Prop) : R (Elem i j) -> Q (fabs (elem m i j)) m -> does R W (ABS i j) m Q.
Proof.
  intros HR HQ. apply does_bind, does_rd_float; [done|]. unfold fabs in HQ. destruct (SFltb _ _).
  - by apply does_rd_float.
  - apply does_bind, does_rd_float; [done|]. by apply does_ret.
Qed.

(** A loop over columns that sets each element of a row to a value that does
    not depend on the elements set before. *)
Lemma does_row_loop (body : Z -> process unit) k first last (g : Z -> float) m :
  (forall j m', first <= j < last -> only_row k m m' -> (forall j', j' < first \/ j <= j' -> elem m' k j' = elem m k j') ->
     does R W (body j) m' (fun _ m'' => m'' = <[Elem k j := VFloat (g j)]> m')) ->
  does R W (for_all body (seqZ first (last - first))) m (fun _ m' =>
    only_row k m m' /\ forall j, elem m' k j = if decide (first <= j < last) then g j else elem m k j).
Proof.
  intros Hb. eapply does_mono.
  - apply (does_loop _ _ _ (fun xs _ m' => only_row k m m' /\
      forall j, elem m' k j = if decide (first <= j < first + Z.of_nat (length xs)) then g j else elem m k j)).
    + split; [done|]. intros j. rewrite decide_False by (cbn; lia). done.
    + intros xs x [] m' [ys E] [Ho He].
      apply seqZ_nth in E as [Hx Hlast]. eapply does_mono.
      * apply Hb; [lia|done|]. intros j' Hj'. rewrite He, decide_False by lia. done.
      * intros _ m'' ->. split; [etrans; [exact Ho|apply only_row_insert]|].
        intros j. rewrite elem_insert, He, length_app. cbn. repeat case_decide; try lia; try done.
        destruct_and?. by subst.
  - intros _ m' [Ho He]. split; [done|]. intros j. rewrite He, length_seqZ. repeat case_decide; try done; lia.
Qed.

Context (nprocs size : Z).

Lemma does_find_pivot c m (Q : Z -> memory -> Prop) : c < size ->
  (forall j, c <= j < size -> R (Elem c j)) -> Q (pivot size c (elem m c)) m -> does R W (find_pivot size c) m Q.
Proof.
  intros Hc HR HQ. apply does_bind, does_ABS; [apply HR; lia|]. apply does_bind. eapply does_mono.
  - apply (does_loop _ _ _ (fun xs acc m' => m' = m /\ acc = foldl (better (elem m c)) (c, fabs (elem m c c)) xs)); [done|].
    intros xs x [pc mx] m' [ys E] [-> Ea]. apply does_bind, does_ABS.
    + apply HR. assert (x ∈ seqZ (c + 1) (size - c - 1)) as Hx%elem_of_seqZ; [|lia].
      rewrite E. apply elem_of_app. right. left.
    + apply does_ret. split; [done|]. rewrite foldl_app, <- Ea. done.
  - intros [pc mx] m' [-> Ea]. apply does_ret. unfold pivot in HQ. by rewrite <- Ea in HQ.
Qed.

Lemma pivot_range c r : c < size -> c <= pivot size c r < size.
Proof.
  intros Hc. unfold pivot.
  assert (Hgen : forall l best, (forall x, x ∈ l -> c <= x < size) -> c <= best.1 < size -> c <= (foldl (better r) best l).1 < size).
  { intros l. induction l as [|x l IH]; intros best Hl Hb; [done|]. apply IH; [intros y Hy; apply Hl; by right|].
    unfold better. destruct (SFltb _ _); [|done]. cbn. apply Hl. left. }
  apply Hgen; [|cbn; lia]. intros x Hx%elem_of_seqZ. lia.
Qed.

(** The pivot row, and the variable for its column. *)
Lemma does_pivot_row c m : 0 <= c < size ->
  (forall j, 0 <= j < size -> R (Elem c j) /\ W (Elem c j)) -> W (pivot_place c) ->
  does R W (pivot_row size c) m (fun _ m' =>
    (forall l, (forall j, l <> Elem c j) -> l <> pivot_place c -> m' !!! l = m !!! l) /\
    as_int (m' !!! pivot_place c) = pivot size c (elem m c) /\
    forall j, elem m' c j = divided size c (exchanged c (pivot size c (elem m c)) (elem m c)) j).
Proof.
  intros Hc HRW Hp. pose proof (pivot_range c (elem m c) ltac:(lia)) as Hpr. set (pc := pivot _ _ _) in *.
  assert (Hnp : forall j, pivot_place c <> Elem c j) by (intros j; unfold pivot_place; by case_match).
  apply does_bind, does_find_pivot; [lia|intros j Hj; apply HRW; lia|]. fold pc.
  apply does_bind, does_SWAP; [intros j Hj; apply HRW; lia|]. intros m1 Ho1 He1.
  apply does_bind, does_wr; [done|]. set (m2 := <[_ := _]> m1).
  assert (He2 : forall j, elem m2 c j = elem m1 c j).
  { intros j. unfold elem, m2. by rewrite lookup_total_insert_ne. }
  eapply does_mono.
  - replace (size - c - 1) with (size - (c + 1)) by lia.
    apply (does_row_loop _ c (c + 1) size (fun j => fdiv (elem m2 c j) (elem m2 c c))).
    intros j m' Hj Ho He. apply does_bind, does_rd_float; [apply HRW; lia|]. apply does_bind, does_rd_float; [apply HRW; lia|].
    apply does_wr_float; [apply HRW; lia|]. rewrite !He by lia. done.
  - intros _ m3 [Ho3 He3]. split_and!.
    + intros l Hl Hlp. rewrite Ho3 by done. unfold m2. rewrite lookup_total_insert_ne by done. by apply Ho1.
    + rewrite Ho3 by done. unfold m2. by rewrite lookup_total_insert_eq.
    + intros j. rewrite He3, !He2, !He1. unfold divided. repeat case_decide; try done; lia.
Qed.

(** A row below the pivot row. *)
Lemma does_eliminate_in c pc k m : 0 <= c < k -> c <= pc < size -> k < size ->
  (forall j, 0 <= j < size -> R (Elem k j) /\ W (Elem k j) /\ R (Elem c j)) ->
  does R W (eliminate_in size c pc k) m (fun _ m' => only_row k m m' /\
    forall j, elem m' k j = reduced size c (elem m c) (exchanged c pc (elem m k)) j).
Proof.
  intros Hc Hpc Hk HRW. apply does_bind, does_SWAP; [intros j Hj; split; apply HRW; lia|]. intros m1 Ho1 He1.
  eapply does_mono.
  - apply (does_row_loop _ k (c + 1) size (fun j => fsub (elem m1 k j) (fmul (elem m1 k c) (elem m1 c j)))).
    intros j m' Hj Ho He. apply does_bind, does_rd_float; [apply HRW; lia|].
    apply does_bind, does_rd_float; [apply HRW; lia|]. apply does_bind, does_rd_float; [apply HRW; lia|].
    apply does_wr_float; [apply HRW; lia|]. rewrite !He by lia. by rewrite (only_row_elem k m1 m' c j) by (done || lia).
  - intros _ m2 [Ho2 He2]. split; [by etrans|]. intros j. rewrite He2, !He1. unfold reduced.
    rewrite !(only_row_elem k m m1 c) by (done || lia). repeat case_decide; try done; lia.
Qed.

(** A loop over rows, each of which changes that row only. *)
Lemma does_rows (body : Z -> process unit) l (g : Z -> row) m : NoDup l ->
  (forall k m', k ∈ l -> (forall l', (forall k' j, k' ∈ l -> l' <> Elem k' j) -> m' !!! l' = m !!! l') ->
     (forall j, elem m' k j = elem m k j) ->
     does R W (body k) m' (fun _ m'' => only_row k m' m'' /\ forall j, 0 <= j < size -> elem m'' k j = g k j)) ->
  does R W (for_all body l) m (fun _ m' =>
    (forall l', (forall k j, k ∈ l -> l' <> Elem k j) -> m' !!! l' = m !!! l') /\
    forall k j, k ∈ l -> 0 <= j < size -> elem m' k j = g k j).
Proof.
  intros Hnd Hb.
  apply (does_loop _ _ _ (fun xs _ m' => (forall l', (forall k j, k ∈ xs -> l' <> Elem k j) -> m' !!! l' = m !!! l') /\
    forall k j, k ∈ xs -> 0 <= j < size -> elem m' k j = g k j)).
  - split; [done|]. intros k j Hk. by apply not_elem_of_nil in Hk.
  - intros xs x [] m' [ys E] [Ho He].
    assert (Hx : x ∉ xs).
    { rewrite E in Hnd. apply NoDup_app in Hnd as (_ & Hnd & _). intros Hin. apply (Hnd x Hin). left. }
    eapply does_mono.
    + apply Hb; [rewrite E; apply elem_of_app; right; left| |].
      * intros l' Hl'. apply Ho. intros k j Hk. apply Hl'. rewrite E. apply elem_of_app. by left.
      * intros j. unfold elem. rewrite Ho; [done|]. intros k j' Hk [= -> ->]. done.
    + intros _ m'' [Ho' He']. split.
      * intros l' Hl'. rewrite Ho'; [apply Ho; intros k j Hk|intros j]; apply Hl', elem_of_app; [by left|right; left].
      * intros k j [Hk| ->%list_elem_of_singleton]%elem_of_app Hj; [|by apply He'].
        rewrite (only_row_elem x m' m''); [by apply He|done|]. by intros ->.
Qed.

Lemma strided_NoDup first last stride : 0 < stride -> NoDup (strided first last stride).
Proof. intros Hs. unfold strided. apply NoDup_fmap_2; [intros x y E; nia|apply NoDup_seqZ]. Qed.

(** What follows the barrier of sweep [c], in the rows of one process. *)
Lemma does_after_barrier c start m : 0 < nprocs -> 0 <= c < start -> c < size ->
  let pc := as_int (m !!! pivot_place c) in c <= pc < size -> R (pivot_place c) ->
  (forall j, 0 <= j < size -> R (Elem c j)) ->
  (forall k j, k ∈ strided start size nprocs -> 0 <= j < size -> R (Elem k j) /\ W (Elem k j)) ->
  does R W (after_barrier nprocs size c start) m (fun r m' => r = start /\
    (forall l', (forall k j, k ∈ strided start size nprocs -> l' <> Elem k j) -> m' !!! l' = m !!! l') /\
    forall k j, k ∈ strided start size nprocs -> 0 <= j < size ->
      elem m' k j = reduced size c (elem m c) (exchanged c pc (elem m k)) j).
Proof.
  intros Hn Hc Hs pc Hpc HR HRc HRW. apply does_bind, does_bind, does_rd; [done|]. apply does_ret. fold pc.
  apply does_bind. eapply does_mono.
  - apply (does_rows _ _ (fun k => reduced size c (elem m c) (exchanged c pc (elem m k)))); [by apply strided_NoDup|].
    intros k m' Hk Ho He. pose proof Hk as Hk'%elem_of_strided; [|done]. eapply does_mono.
    + apply does_eliminate_in; [lia..|]. intros j Hj. destruct (HRW k j Hk Hj). auto.
    + intros _ m'' [Ho' He']. split; [done|]. intros j Hj. rewrite He'.
      assert (Ec : forall j, elem m' c j = elem m c j).
      { intros j'. unfold elem. rewrite Ho; [done|]. intros k' j0 Hk0 [= -> ->]. apply elem_of_strided in Hk0; lia. }
      unfold reduced, exchanged. by rewrite !He, !Ec.
  - intros [] m' H. by apply does_ret.
Qed.

Lemma does_InitArray i m : 0 < nprocs -> 0 <= i ->
  (forall k j, k ∈ strided i size nprocs -> 0 <= j < size -> W (Elem k j)) ->
  does R W (InitArray nprocs size i) m (fun _ m' =>
    forall k j, k ∈ strided i size nprocs -> 0 <= j < size -> elem m' k j = float_of (2 * Z.min k j + 2)).
Proof.
  intros Hn Hi HW. eapply does_mono.
  - apply (does_rows _ _ (fun k j => float_of (2 * Z.min k j + 2))); [by apply strided_NoDup|].
    intros k m' Hk _ _. pose proof Hk as Hk'%elem_of_strided; [|done]. apply does_bind. eapply does_mono.
    + pose proof (does_row_loop (fun j => wr_float k j (float_of (j * 2 + 2))) k 0 k (fun j => float_of (j * 2 + 2)) m') as Hd.
      rewrite Z.sub_0_r in Hd. apply Hd. intros j m'' Hj _ _. apply does_wr_float; [apply HW; [done|lia]|done].
    + intros _ m1 [Ho1 He1]. eapply does_mono.
      * apply (does_row_loop _ k k size (fun _ => float_of (k * 2 + 2))). intros j m'' Hj _ _.
        apply does_wr_float; [apply HW; [done|lia]|done].
      * intros _ m2 [Ho2 He2]. split; [by etrans|]. intros j Hj. rewrite He2, He1.
        repeat case_decide; try lia; f_equal; lia.
  - intros _ m' [_ He]. done.
Qed.
End Rows.
