(* ===== verification/GaussRun.v ===== *)
(** * Gaussian elimination: the processes together

    The sweeps as phases: in the phase that leads to the barrier of sweep [c] a
    process changes the rows it owns from [c] on, and the variable for the
    pivot of sweep [c], and reads the pivot row and the other variable. *)
From S2P Require Import Prelude Float32 Programs Gauss GaussRows.
Local Open Scope Z_scope.

(** ** The reference, in the range of the indices *)
Definition same (size : Z) (a a' : matrix) : Prop := forall k j, 0 <= k < size -> 0 <= j < size -> a k j = a' k j.

Section Range.
Context (size : Z).

Lemma pivot_ext c r r' : 0 <= c < size -> (forall j, 0 <= j < size -> r j = r' j) -> pivot size c r = pivot size c r'.
Proof.
  intros Hc Hr. unfold pivot. rewrite (Hr c) by lia.
  assert (Hgen : forall l best, (forall x, x ∈ l -> 0 <= x < size) -> foldl (better r) best l = foldl (better r') best l).
  { intros l. induction l as [|x l IH]; intros best Hl; [done|]. cbn. rewrite IH by (intros y Hy; apply Hl; by right).
    unfold better. rewrite Hr; [done|]. apply Hl. left. }
  rewrite Hgen; [done|]. intros x Hx%elem_of_seqZ. lia.
Qed.

Lemma divided_ext c pc r r' j : 0 <= c < size -> 0 <= pc < size -> 0 <= j < size -> (forall j, 0 <= j < size -> r j = r' j) ->
  divided size c (exchanged c pc r) j = divided size c (exchanged c pc r') j.
Proof. intros Hc Hpc Hj Hr. unfold divided, exchanged. repeat case_decide; rewrite ?(Hr c), ?(Hr pc), ?(Hr j) by lia; done. Qed.

Lemma reduced_ext c pc p p' r r' j : 0 <= c < size -> 0 <= pc < size -> 0 <= j < size ->
  (forall j, 0 <= j < size -> p j = p' j) -> (forall j, 0 <= j < size -> r j = r' j) ->
  reduced size c p (exchanged c pc r) j = reduced size c p' (exchanged c pc r') j.
Proof.
  intros Hc Hpc Hj Hp Hr. unfold reduced, exchanged.
  repeat case_decide; rewrite ?(Hr c), ?(Hr pc), ?(Hr j), ?(Hp j) by lia; done.
Qed.
End Range.

(** ** The phases *)
Inductive stage : Type := Begin | Init | Sweep (c : Z) | Finish.

Definition init_value (k j : Z) : float := float_of (2 * Z.min k j + 2).

Section Run.
Context (n : nat) (size iters : Z) (a0 : matrix).
Context (post : Z -> process Z) (Rp Wp : nat -> loc -> Prop) (Qp : nat -> Z -> memory -> Prop).
Hypothesis Hn : (n <> 0)%nat.
Hypothesis Hiters : 0 <= iters < size.

(** The matrix at the beginning of sweep [c]. *)
Definition el (c : Z) : matrix := eliminated size (Z.to_nat c) a0.

Hypothesis post_apart : forall i j l, (i < n)%nat -> (j < n)%nat -> i <> j -> Wp i l -> ~ Rp j l /\ ~ Wp j l.
Hypothesis post_does : forall i m, (i < n)%nat -> same size (elem m) (el iters) ->
  does (Rp i) (Wp i) (post (Z.of_nat i)) m (Qp i).

Abbreviation nprocs := (Z.of_nat n).

(** The row with which process [i] goes on at the beginning of sweep [c]. *)
Definition next (c : Z) (i : nat) : Z := c + (Z.of_nat i - c) `mod` nprocs.

Definition body (t : stage) (i : nat) : process Z :=
  match t with
  | Begin => barrier 0;; InitArray nprocs size (Z.of_nat i);; barrier 0;; Compute nprocs size iters (Z.of_nat i);; post (Z.of_nat i)
  | Init => InitArray nprocs size (Z.of_nat i);; barrier 0;; Compute nprocs size iters (Z.of_nat i);; post (Z.of_nat i)
  | Sweep c =>
      if decide (c = 0) then Compute nprocs size iters (Z.of_nat i);; post (Z.of_nat i)
      else
        ((sr ← after_barrier nprocs size (c - 1) (next c i); loop (sweep nprocs size) sr (seqZ c (iters - c)));; barrier 0);;
        post (Z.of_nat i)
  | Finish => post (Z.of_nat i)
  end.

Definition writes (t : stage) (i : nat) (l : loc) : Prop :=
  match t, l with
  | Begin, _ => False
  | Init, Elem k _ => 0 <= k < size /\ k `mod` nprocs = Z.of_nat i
  | Init, _ => False
  | Sweep c, Elem k _ => c <= k < size /\ k `mod` nprocs = Z.of_nat i
  | Sweep c, l => l = pivot_place c /\ c `mod` nprocs = Z.of_nat i
  | Finish, _ => Wp i l
  end.

Definition reads (t : stage) (i : nat) (l : loc) : Prop :=
  match t, l with
  | Sweep c, Elem k _ => k = c - 1 \/ writes t i l
  | Sweep c, l => l = pivot_place (c - 1) \/ writes t i l
  | Finish, _ => Rp i l
  | _, _ => False
  end.

(** The matrix at the end of the phase, and the pivot of the sweep. *)
Definition target (c : Z) : matrix := if decide (c < iters) then halfway size c (el c) else el iters.
Definition pivot_of (c : Z) : Z := pivot size c (el c c).

Definition good (t : stage) (m : memory) : Prop :=
  match t with
  | Begin | Init => forall k j, 0 <= k < size -> 0 <= j < size -> a0 k j = init_value k j
  | Sweep c => 0 <= c <= iters /\
      if decide (c = 0) then same size (elem m) a0
      else same size (elem m) (target (c - 1)) /\ as_int (m !!! pivot_place (c - 1)) = pivot_of (c - 1)
  | Finish => same size (elem m) (el iters)
  end.

Definition reached (t : stage) (i : nat) (p : process Z) (v : memory) : Prop :=
  match t with
  | Begin => p = Barrier 0 (body Init i)
  | Init => p = Barrier 0 (body (Sweep 0) i) /\
      forall k j, 0 <= k < size -> k `mod` nprocs = Z.of_nat i -> 0 <= j < size -> elem v k j = init_value k j
  | Sweep c => p = Barrier 0 (body (if decide (c < iters) then Sweep (c + 1) else Finish) i) /\
      (forall k j, c <= k < size -> k `mod` nprocs = Z.of_nat i -> 0 <= j < size -> elem v k j = target c k j) /\
      (c < iters -> c `mod` nprocs = Z.of_nat i -> as_int (v !!! pivot_place c) = pivot_of c)
  | Finish => exists a, p = Done a /\ Qp i a v
  end.

Definition last_stage (t : stage) : bool := match t with Finish => true | _ => false end.

(** ** Places *)
Lemma places_differ c : pivot_place c <> pivot_place (c - 1).
Proof.
  unfold pivot_place. change 1 with (Z.ones 1) at 1 3. rewrite !Z.land_ones by lia. change (2 ^ 1) with 2.
  pose proof (Z.mod_pos_bound c 2 ltac:(lia)). pose proof (Z.mod_pos_bound (c - 1) 2 ltac:(lia)).
  pose proof (Z.div_mod c 2 ltac:(lia)). pose proof (Z.div_mod (c - 1) 2 ltac:(lia)).
  destruct (Z.eqb_spec (c `mod` 2) 0), (Z.eqb_spec ((c - 1) `mod` 2) 0); [lia|done|done|lia].
Qed.

Lemma place_not_elem c k j : pivot_place c <> Elem k j.
Proof. unfold pivot_place. by case_match. Qed.

Lemma place_write c i : c `mod` nprocs = Z.of_nat i -> writes (Sweep c) i (pivot_place c).
Proof. intros Hc. unfold writes. destruct (pivot_place c) eqn:E; [|done..]. unfold pivot_place in E. by case_match. Qed.

Lemma place_read c i : reads (Sweep c) i (pivot_place (c - 1)).
Proof. unfold reads. destruct (pivot_place (c - 1)) eqn:E; [|by left..]. unfold pivot_place in E. by case_match. Qed.

Lemma phases_apart t i j l : (i < n)%nat -> (j < n)%nat -> i <> j -> writes t i l -> ~ reads t j l /\ ~ writes t j l.
Proof.
  intros Hi Hj Hij. pose proof (places_differ) as Hp. destruct t as [| |c|]; [done| |..].
  - destruct l as [k j'| |]; cbn; [lia|tauto..].
  - destruct l as [k j'| |]; cbn; [lia|..]; intros [E Hc]; rewrite E; (split; [intros [E'|[_ Hc']]; [by apply (Hp c)|lia]|lia]).
  - by apply post_apart.
Qed.

Lemma phases_together t i p v : (i < n)%nat -> reached t i p v ->
  if last_stage t then exists a, p = Done a else exists q, p = Barrier 0 q.
Proof. intros _. destruct t; cbn; [eauto|naive_solver..]. Qed.

(** ** The owners of the rows *)
Lemma next_spec c i : (i < n)%nat -> c <= next c i < c + nprocs /\ next c i `mod` nprocs = Z.of_nat i.
Proof.
  intros Hi. unfold next. pose proof (Z.mod_pos_bound (Z.of_nat i - c) nprocs ltac:(lia)). split; [lia|].
  rewrite Zplus_mod_idemp_r. replace (c + (Z.of_nat i - c)) with (Z.of_nat i) by lia. apply Z.mod_small. lia.
Qed.

(** Two numbers less than [nprocs] apart with the same remainder are equal. *)
Lemma same_owner x y : x `mod` nprocs = y `mod` nprocs -> - nprocs < x - y < nprocs -> x = y.
Proof.
  intros E H. pose proof (Z.div_mod x nprocs ltac:(lia)). pose proof (Z.div_mod y nprocs ltac:(lia)).
  destruct (Z.lt_trichotomy (x `div` nprocs) (y `div` nprocs)) as [Hd|[Hd|Hd]]; nia.
Qed.

Lemma next_own c i : (i < n)%nat -> next c i = c <-> c `mod` nprocs = Z.of_nat i.
Proof.
  intros Hi. destruct (next_spec c i Hi) as [H1 H2]. split; [by intros <-|]. intros E.
  apply same_owner; [congruence|lia].
Qed.

Lemma next_after c i : (i < n)%nat -> next (c + 1) i = if next c i =? c then c + nprocs else next c i.
Proof.
  intros Hi. destruct (next_spec c i Hi) as [H1 H2], (next_spec (c + 1) i Hi) as [H3 H4].
  destruct (Z.eqb_spec (next c i) c) as [E|E]; apply same_owner; try lia.
  rewrite Z.add_mod, Z_mod_same_full, Z.add_0_r, Z.mod_mod by lia. congruence.
Qed.

Lemma own_rows c i k : (i < n)%nat -> k ∈ strided (next c i) size nprocs <-> c <= k < size /\ k `mod` nprocs = Z.of_nat i.
Proof.
  intros Hi. destruct (next_spec c i Hi) as [H1 H2]. rewrite elem_of_strided, H2 by lia. split; [lia|].
  intros [H3 H4]. split; [|done]. split; [|lia].
  destruct (Z.le_gt_cases (next c i) k) as [|H]; [done|]. assert (k = next c i); [|lia]. apply same_owner; [congruence|lia].
Qed.

(** ** Each phase *)
Lemma el_next c : 0 <= c -> el (c + 1) = swept size c (el c).
Proof. clear. intros Hc. unfold el. replace (Z.to_nat (c + 1)) with (S (Z.to_nat c)) by lia. cbn. by rewrite Z2Nat.id by lia. Qed.

(** A row above the pivot is not touched any more. *)
Lemma target_old c k : 0 < c <= iters -> k < c -> target (c - 1) k = target c k.
Proof.
  intros Hc Hk. unfold target. destruct (decide (c - 1 < iters)); [|lia].
  assert (E : el c k = halfway size (c - 1) (el (c - 1)) k).
  { replace c with (c - 1 + 1) at 1 by lia. rewrite el_next by lia. unfold swept. by rewrite decide_False by lia. }
  case_decide; [|by replace iters with c by lia]. unfold halfway at 2. rewrite decide_False by lia. by rewrite E.
Qed.

(** The head of the loop, up to the barrier of sweep [c] or to the last one. *)
Lemma sweep_head c i m : (i < n)%nat -> 0 <= c <= iters ->
  (forall k j, c <= k < size -> k `mod` nprocs = Z.of_nat i -> 0 <= j < size -> elem m k j = el c k j) ->
  wp (reads (Sweep c) i) (writes (Sweep c) i)
    ((loop (sweep nprocs size) (next c i) (seqZ c (iters - c));; barrier 0);; post (Z.of_nat i)) (reached (Sweep c) i) m.
Proof.
  intros Hi Hc Hm. destruct (Z.eq_dec c iters) as [->|Hne].
  { rewrite seqZ_nil by lia. cbn. rewrite decide_False by lia. split_and!; [done| |lia].
    intros k j Hk Ho Hj. unfold target. rewrite decide_False by lia. apply Hm; (lia || done). }
  rewrite seqZ_cons by lia. cbn [loop]. unfold sweep at 1.
  assert (Hend : forall sr m', sr = next (c + 1) i ->
    (forall k j, c <= k < size -> k `mod` nprocs = Z.of_nat i -> 0 <= j < size -> elem m' k j = target c k j) ->
    (c `mod` nprocs = Z.of_nat i -> as_int (m' !!! pivot_place c) = pivot_of c) ->
    reached (Sweep c) i (Barrier 0 (((sr ← after_barrier nprocs size c sr;
      loop (sweep nprocs size) sr (seqZ (Z.succ c) (Z.pred (iters - c))));; barrier 0);; post (Z.of_nat i))) m').
  { intros sr m' -> He Hp. unfold reached. destruct (decide (c < iters)) as [_|]; [|lia]. split; [|by auto].
    unfold body. rewrite decide_False by lia. replace (c + 1 - 1) with c by lia.
    replace (Z.succ c) with (c + 1) by lia. by replace (Z.pred (iters - c)) with (iters - (c + 1)) by lia. }
  apply wp_seq3. unfold before_barrier. pose proof (next_after c i Hi) as Hnext.
  destruct (Z.eqb_spec (next c i) c) as [E|E].
  - assert (Hc' : c `mod` nprocs = Z.of_nat i) by by apply next_own.
    apply does_bind. eapply does_mono.
    + apply does_pivot_row; [lia| |].
      * cbn. intros j _. split; [right|]; (split; [lia|done]).
      * by apply place_write.
    + intros [] m' (Ho & Hp & He). apply does_ret. cbn. apply Hend; [by rewrite Hnext, E| |].
      * intros k j Hk Hown Hj. unfold target. rewrite decide_True by lia. unfold halfway. destruct (decide (k = c)) as [->|Hkc].
        -- rewrite He. pose proof (pivot_range size c (el c c) ltac:(lia)).
           rewrite (pivot_ext size c (elem m c) (el c c)) by (lia || (intros; apply Hm; [lia|done|done])).
           apply divided_ext; [lia..|]. intros j' Hj'. apply Hm; (lia || done).
        -- unfold elem. rewrite Ho; [apply Hm; (lia || done)|congruence|]. apply not_eq_sym, place_not_elem.
      * intros _. rewrite Hp. apply pivot_ext; [lia|]. intros j Hj. apply Hm; (lia || done).
  - apply does_ret. cbn. assert (Hc' : c `mod` nprocs <> Z.of_nat i) by (rewrite <- next_own; done).
    apply Hend; [done| |done]. intros k j Hk Hown Hj. unfold target, halfway. rewrite decide_True by lia.
    rewrite decide_False by (intros ->; done). apply Hm; (lia || done).
Qed.

(** A phase that begins with the elimination of the sweep before it. *)
Lemma sweep_body c i m : (i < n)%nat -> 0 <= c <= iters -> good (Sweep c) m ->
  wp (reads (Sweep c) i) (writes (Sweep c) i) (body (Sweep c) i) (reached (Sweep c) i) m.
Proof.
  intros Hi Hc [_ Hm]. unfold body. case_decide as Hc0.
  { subst c. pose proof (next_spec 0 i Hi) as [H1 H2]. rewrite Z.mod_small in H2 by lia.
    pose proof (sweep_head 0 i m Hi ltac:(lia)) as Hw. rewrite H2, Z.sub_0_r in Hw. apply Hw.
    intros k j Hk _ Hj. apply Hm; lia. }
  destruct Hm as [Hm Hp]. apply wp_seq2. destruct (next_spec c i Hi) as [H1 H2].
  pose proof (pivot_range size (c - 1) (el (c - 1) (c - 1)) ltac:(lia)) as Hpr. fold (pivot_of (c - 1)) in Hpr.
  eapply does_mono.
  - apply (does_after_barrier _ _ nprocs size (c - 1) (next c i)); [lia..| | | |]; rewrite ?Hp; [lia| | |].
    + apply place_read.
    + intros j _. by left.
    + intros k j Hk _. apply own_rows in Hk; [|done]. cbn. tauto.
  - intros sr m' (-> & Ho & He). apply sweep_head; [done..|]. intros k j Hk Hown Hj.
    rewrite He by (done || by apply own_rows). rewrite Hp.
    replace (el c) with (el (c - 1 + 1)) by (f_equal; lia). rewrite el_next by lia.
    unfold swept. rewrite decide_True by lia. fold (pivot_of (c - 1)).
    assert (Ht : target (c - 1) = halfway size (c - 1) (el (c - 1))) by (unfold target; by rewrite decide_True by lia).
    rewrite Ht in Hm. apply reduced_ext; [lia..| |]; intros j' Hj'.
    + apply Hm; lia.
    + rewrite Hm by lia. unfold halfway. by rewrite decide_False by lia.
Qed.

Lemma stage_body t i m : (i < n)%nat -> good t m -> wp (reads t i) (writes t i) (body t i) (reached t i) m.
Proof.
  intros Hi Hg. destruct t as [| |c|].
  - done.
  - apply wp_bind. eapply does_mono.
    + apply does_InitArray; [lia..|]. intros k j Hk _. apply elem_of_strided in Hk as [Hk Ho]; [|lia].
      cbn. rewrite (Z.mod_small (Z.of_nat i)) in Ho by lia. split; [lia|done].
    + intros [] m' He. split; [done|]. intros k j Hk Ho Hj. apply He; [|done]. apply elem_of_strided; [lia|].
      rewrite (Z.mod_small (Z.of_nat i)) by lia. split; [|done]. pose proof (Z.mod_le k nprocs ltac:(lia) ltac:(lia)). lia.
  - destruct Hg as [Hc Hg]. by apply sweep_body.
  - by apply post_does.
Qed.

(** Every row is somebody's. *)
Lemma owner k : exists i, (i < n)%nat /\ k `mod` nprocs = Z.of_nat i.
Proof. pose proof (Z.mod_pos_bound k nprocs ltac:(lia)). exists (Z.to_nat (k `mod` nprocs)). lia. Qed.

Definition following (t : stage) : stage :=
  match t with Begin => Init | Init => Sweep 0 | Sweep c => if decide (c < iters) then Sweep (c + 1) else Finish | Finish => Finish end.

Lemma reached_following t i p v : last_stage t = false -> reached t i (Barrier 0 p) v -> p = body (following t) i.
Proof. destruct t; intros ? H; [by injection H|by destruct H as [[= ->] _]|by destruct H as [[= ->] _]|done]. Qed.

(** The matrix after a phase, from what its processes see. *)
Lemma good_following t m0 m : last_stage t = false -> good t m0 ->
  (forall l, (forall i, (i < n)%nat -> ~ writes t i l) -> m !!! l = m0 !!! l) ->
  (forall i, (i < n)%nat -> exists p v, view (reads t) (writes t) i v m /\ reached t i p v) -> good (following t) m.
Proof.
  intros Hlast Hg Hrest Hv. destruct t as [| |c|]; [done| | |done].
  - cbn. split; [lia|]. intros k j Hk Hj. destruct (owner k) as (i & Hi & Ho). destruct (Hv i Hi) as (p & v & Hview & _ & He).
    rewrite Hg by done. rewrite <- He by done. unfold elem. rewrite (Hview (Elem k j)); [done|]. right. by split.
  - destruct Hg as [Hc Hg].
    assert (Hrows : same size (elem m) (target c)).
    { intros k j Hk Hj. destruct (Z.le_gt_cases c k) as [Hck|Hck].
      - destruct (owner k) as (i & Hi & Ho). destruct (Hv i Hi) as (p & v & Hview & _ & He & _).
        rewrite <- He by (lia || done). unfold elem. rewrite (Hview (Elem k j)); [done|]. right. cbn. split; [lia|done].
      - rewrite <- target_old by lia. rewrite decide_False in Hg by lia. destruct Hg as [Hg _]. rewrite <- Hg by done.
        unfold elem. rewrite Hrest; [done|]. intros i _. cbn. lia. }
    unfold following. destruct (decide (c < iters)) as [Hci|Hci]; unfold good.
    + split; [lia|]. rewrite decide_False by lia. replace (c + 1 - 1) with c by lia. split; [done|].
      destruct (owner c) as (i & Hi & Ho). destruct (Hv i Hi) as (p & v & Hview & _ & _ & Hp).
      rewrite <- Hp by done. rewrite (Hview (pivot_place c)); [done|]. right. by apply place_write.
    + unfold target in Hrows. by rewrite decide_False in Hrows by done.
Qed.

Lemma phases_advance t m0 m ps : last_stage t = false -> good t m0 -> length ps = n ->
  (forall l, (forall i, (i < n)%nat -> ~ writes t i l) -> m !!! l = m0 !!! l) ->
  (forall i p, ps !! i = Some p -> exists v, view (reads t) (writes t) i v m /\ reached t i (Barrier 0 p) v) ->
  exists t', good t' m /\ forall i p, ps !! i = Some p -> wp (reads t' i) (writes t' i) p (reached t' i) m.
Proof.
  intros Hlast Hg Hl Hrest Hv. exists (following t).
  assert (Hg' : good (following t) m).
  { apply (good_following t m0); [done..|]. intros i Hi. rewrite <- Hl in Hi. apply lookup_lt_is_Some in Hi as [p Hp].
    destruct (Hv i p Hp) as (v & ? & ?). by exists (Barrier 0 p), v. }
  split; [done|]. intros i p Hp. destruct (Hv i p Hp) as (v & _ & Hr). apply reached_following in Hr as ->; [|done].
  apply stage_body; [|done]. rewrite <- Hl. by eapply lookup_lt_Some.
Qed.

(** ** All executions *)
Abbreviation staged := (staged reads writes reached good n).

Lemma run_staged t m o s : good t m -> rtc step (System m ∅ o (body t <$> seq 0 n)) s -> staged s.
Proof.
  intros Hg. apply (staged_reachable _ _ _ _ last_stage n phases_apart phases_together phases_advance).
  apply (stages_start _ _ _ _ n t); [done|by rewrite length_fmap, length_seq|].
  intros i p Hi. apply list_lookup_fmap_Some in Hi as (j & -> & [Hj1 Hj2]%lookup_seq). cbn in Hj1. subst j. by apply stage_body.
Qed.

Lemma run_no_race s : staged s -> ~ race s.
Proof. apply (staged_no_race _ _ _ _ n phases_apart). Qed.

(** Somebody goes on, or all have ended after the last phase. *)
Lemma run_outcome s : staged s ->
  (exists s', step s s') \/
  exists m0, same size (elem m0) (el iters) /\
    (forall l, (forall i, (i < n)%nat -> ~ Wp i l) -> sy_mem s !!! l = m0 !!! l) /\
    forall i p, sy_procs s !! i = Some p -> exists a v, p = Done a /\ Qp i a v.
Proof.
  intros Hs. destruct (staged_outcome _ _ _ _ last_stage n phases_apart phases_together phases_advance s Hn Hs) as [?|(t & m0 & Ht & Hg & Hph & Hall)]; [by left|].
  right. destruct t; try done. exists m0. split; [done|]. split; [apply Hph|].
  intros i p Hi. destruct (Hall i p Hi) as (_ & v & _ & a & Ha & HQ). by exists a, v.
Qed.
End Run.

Lemma processes_seq n (p : Z -> process Z) : processes (Z.of_nat n) p = (fun i => p (Z.of_nat i)) <$> seq 0 n.
Proof.
  unfold processes, seqZ. rewrite Nat2Z.id, <- list_fmap_compose. apply list_fmap_ext. intros i x _. cbn. by rewrite Z.add_0_r.
Qed.

(** C23: whatever the matrix, the number of processes and the order in which
    they take turns, [Compute] has no data race and no deadlock, ends, and
    leaves the matrix that the elimination by one process gives: the one
    barrier in a sweep, with two variables for the pivot column, is enough. *)
Theorem elimination_parallel n size iters m o s : n <> 0%nat -> 0 <= iters < size ->
  let start := System m ∅ o (processes (Z.of_nat n) (fun i => Compute (Z.of_nat n) size iters i;; mret 0)) in
  rtc step start s ->
  Acc (fun s' s => step s s') s /\ ~ race s /\
  ((exists s', step s s') \/
   (forall i p, sy_procs s !! i = Some p -> p = Done 0) /\
   same size (elem (sy_mem s)) (eliminated size (Z.to_nat iters) (elem m))).
Proof.
  intros Hn Hi start Hr. unfold start in Hr. rewrite processes_seq in Hr.
  set (none := fun (_ : nat) (_ : loc) => False). set (post := fun _ : Z => mret 0 : process Z).
  set (Qp := fun (_ : nat) (a : Z) (_ : memory) => a = 0).
  assert (Hap : forall i j l, (i < n)%nat -> (j < n)%nat -> i <> j -> none i l -> ~ none j l /\ ~ none j l) by done.
  assert (Hpost : forall i m', (i < n)%nat -> same size (elem m') (el size (elem m) iters) ->
    does (none i) (none i) (post (Z.of_nat i)) m' (Qp i)) by (intros i m' _ _; by apply does_ret).
  pose proof (run_staged n size iters (elem m) post none none Qp Hn Hi Hap Hpost (Sweep 0) m o s (conj (conj (Z.le_refl 0) (proj1 Hi)) (fun _ _ _ _ => eq_refl)) Hr) as Hs.
  split; [apply step_wf|]. split; [by apply (run_no_race n size iters (elem m) post none none Qp Hn Hi Hap)|].
  destruct (run_outcome n size iters (elem m) post none none Qp Hn Hi Hap Hpost s Hs) as [?|(m0 & Hm0 & Hrest & Hall)]; [by left|].
  right. split.
  - intros i p Hp. by destruct (Hall i p Hp) as (a & v & -> & ->).
  - intros k j Hk Hj. unfold elem at 1. rewrite Hrest by (intros i _ []). by apply Hm0.
Qed.

(** A matrix whose pivots are not on the diagonal, and two processes of which
    the second is always ahead. *)
Definition three_rows : memory :=
  list_to_map [(Elem 0 0, VFloat (float_of 1)); (Elem 0 1, VFloat (float_of 4)); (Elem 0 2, VFloat (float_of 2));
    (Elem 1 0, VFloat (float_of 3)); (Elem 1 1, VFloat (float_of 8)); (Elem 1 2, VFloat (float_of 6));
    (Elem 2 0, VFloat (float_of 5)); (Elem 2 1, VFloat (float_of 4)); (Elem 2 2, VFloat (float_of 7))].

Definition three_by_two : system loc val Z :=
  turns (System three_rows ∅ [] (processes 2 (fun i => Compute 2 3 2 i;; mret 0))) (concat (replicate 100 [1; 1; 0]%nat)).

Example three_pivots : (pivot 3 0 (elem three_rows 0), pivot 3 1 (eliminated 3 1 (elem three_rows) 1)) = (1, 2).
Proof. vm_compute. reflexivity. Qed.

Lemma elimination_parallel_witness : sy_procs three_by_two = [Done 0; Done 0] /\ ~ race three_by_two /\
  ((exists s', step three_by_two s') \/
   (forall i p, sy_procs three_by_two !! i = Some p -> p = Done 0) /\
   same 3 (elem (sy_mem three_by_two)) (eliminated 3 2 (elem three_rows))).
Proof.
  split; [vm_compute; reflexivity|].
  apply (elimination_parallel 2 3 2 three_rows [] three_by_two); [lia|lia|].
  exact (turns_steps (System three_rows ∅ [] (processes 2 (fun i => Compute 2 3 2 i;; mret 0))) (concat (replicate 100 [1; 1; 0]%nat))).
Defined.
