(* ===== verification/GaussCheck.v ===== *)
(** * Gaussian elimination: the verification step

    For the matrix that the program sets up, the elimination gives twos on and
    below the diagonal and ones above, exactly, in single precision; process 0
    transposes the result, and finds no error. *)
From S2P Require Import Prelude Float32 Programs Gauss GaussRows GaussRun.
Local Open Scope Z_scope.

Definition small_size (size : Z) : Prop := 0 < size < 2 ^ 23.

(** ** The elimination of this matrix *)
Section Elimination.
Context (size : Z) (Hsize : small_size size).

(** The matrix at the beginning of sweep [c]. *)
Definition shape (c k j : Z) : float :=
  if decide (c <= k /\ c <= j) then float_of (2 * (Z.min k j - c) + 2)
  else if decide (j <= k) then float_of 2 else float_of 1.

Lemma shape_pivot c r : 0 <= c < size -> (forall j, c <= j < size -> r j = float_of 2) -> pivot size c r = c.
Proof.
  intros Hc Hr. unfold pivot. rewrite (Hr c) by lia. change (fabs (float_of 2)) with (float_of 2).
  assert (Hgen : forall l, (forall x, x ∈ l -> c <= x < size) -> foldl (better r) (c, float_of 2) l = (c, float_of 2)).
  { intros l. induction l as [|x l IH]; intros Hl; [done|]. cbn [foldl].
    assert (E : better r (c, float_of 2) x = (c, float_of 2)).
    { unfold better. rewrite Hr by (apply Hl; left). done. }
    rewrite E. apply IH. intros y Hy. apply Hl. by right. }
  rewrite Hgen; [done|]. intros x Hx%elem_of_seqZ. lia.
Qed.

Lemma exchanged_same c r j : exchanged c c r j = r j.
Proof. unfold exchanged. case_decide; by subst. Qed.

Lemma shape_swept c a : 0 <= c < size - 1 -> same size a (shape c) -> same size (swept size c a) (shape (c + 1)).
Proof.
  intros Hc Ha.
  assert (Hrow : forall j, c <= j < size -> a c j = float_of 2).
  { intros j Hj. rewrite Ha by lia. unfold shape. rewrite decide_True by lia. f_equal. lia. }
  assert (Hhalf : forall j, 0 <= j < size -> halfway size c a c j = if decide (j <= c) then float_of 2 else float_of 1).
  { intros j Hj. unfold halfway. rewrite decide_True by done. rewrite shape_pivot by (lia || done).
    unfold divided. rewrite !exchanged_same. destruct (decide (j <= c)).
    - rewrite decide_False by lia. rewrite Ha by lia. unfold shape. case_decide; [f_equal; lia|]. by rewrite decide_True by lia.
    - rewrite decide_True by lia. by rewrite !Hrow by lia. }
  intros k j Hk Hj. unfold swept. destruct (decide (c < k < size)) as [Hck|Hck].
  - rewrite shape_pivot by (lia || done). unfold reduced. rewrite !exchanged_same. destruct (decide (c < j < size)) as [Hcj|Hcj].
    + rewrite Hhalf by lia. rewrite decide_False by lia. rewrite !Ha by lia. unfold shape.
      rewrite (decide_True (P := c <= k /\ c <= j)) by lia. rewrite (decide_True (P := c <= k /\ c <= c)) by lia.
      rewrite decide_True by lia. replace (2 * (Z.min k c - c) + 2) with 2 by lia.
      change (fmul (float_of 2) (float_of 1)) with (float_of 2). rewrite fsub_exact; [f_equal; lia|lia|].
      unfold small_size in Hsize. change (2 ^ 24) with (2 * 2 ^ 23). lia.
    + rewrite Ha by lia. unfold shape. rewrite (decide_False (P := c + 1 <= k /\ c + 1 <= j)) by lia.
      rewrite (decide_True (P := j <= k)) by lia. case_decide; [f_equal; lia|done].
  - destruct (Z.eq_dec k c) as [->|Hkc].
    + rewrite Hhalf by lia. unfold shape. by rewrite (decide_False (P := c + 1 <= c /\ _)) by lia.
    + unfold halfway. rewrite decide_False by lia. rewrite Ha by lia. unfold shape. rewrite !(decide_False (P := _ /\ _)) by lia. done.
Qed.

Lemma shape_el c : 0 <= c <= size - 1 -> same size (el size init_value c) (shape c).
Proof.
  intros Hc. destruct Hc as [Hc Hc']. revert Hc'. pattern c. apply natlike_ind; [| |done].
  - intros _ k j Hk Hj. change (el size init_value 0) with init_value. unfold shape, init_value. rewrite decide_True by lia. f_equal. lia.
  - intros x Hx IH Hx'. rewrite <- Z.add_1_r, el_next by done. apply shape_swept; [lia|]. apply IH. lia.
Qed.

(** At the end. *)
Lemma eliminated_lower k j : 0 <= j <= k -> k < size -> el size init_value (size - 1) k j = float_of 2.
Proof.
  intros Hj Hk. rewrite shape_el by lia. unfold shape. case_decide; [f_equal; lia|]. by rewrite decide_True by lia.
Qed.
End Elimination.

(** ** [TransposeAndZero] and [CheckArray] *)
Section Verification.
Context (size : Z).
Abbreviation everything := (fun _ : loc => True).

(** With the first [i] rows and columns transposed, and of row [i] the first
    [jj] elements. *)
Definition transposed (i jj : Z) (m : memory) : Prop := forall k j, 0 <= k < size -> 0 <= j < size ->
  if decide (Z.max k j < i \/ Z.max k j = i /\ k <> j /\ Z.min k j < jj)
  then elem m k j = if decide (j < k) then float_of 0 else float_of 2
  else j <= k -> elem m k j = float_of 2.

Lemma transpose_exchange i j m : 0 <= j < i -> i < size -> transposed i j m ->
  does everything everything (SWAP i j j i;; wr_float i j (float_of 0)) m (fun _ => transposed i (j + 1)).
Proof.
  intros Hj Hi Hm. apply does_bind, does_bind, does_rd_float; [done|]. apply does_bind, does_rd_float; [done|].
  apply does_bind, does_wr_float; [done|]. apply does_wr_float; [done|]. apply does_wr_float; [done|].
  assert (Hij : elem m i j = float_of 2).
  { specialize (Hm i j ltac:(lia) ltac:(lia)). rewrite decide_False in Hm by lia. apply Hm. lia. }
  intros k' j' Hk' Hj'. specialize (Hm k' j' Hk' Hj'). rewrite !elem_insert, Hij.
  destruct (decide (k' = i /\ j' = j)) as [[-> ->]|H1].
  { rewrite !decide_True by lia. done. }
  destruct (decide (k' = j /\ j' = i)) as [[-> ->]|H2].
  { rewrite decide_True by lia. by rewrite decide_False by lia. }
  repeat case_decide; first [done|lia].
Qed.

Lemma TransposeAndZero_does m : (forall k j, 0 <= j <= k -> k < size -> elem m k j = float_of 2) ->
  does everything everything (TransposeAndZero size) m (fun _ => transposed size 0).
Proof.
  intros Hm. eapply does_mono.
  - apply (does_loop _ _ _ (fun xs _ => transposed (Z.of_nat (length xs)) 0)).
    + intros k j Hk Hj. rewrite decide_False by (cbn; lia). intros. apply Hm; lia.
    + intros xs i [] m1 [ys E] H1. apply seqZ_nth in E as Hi. destruct Hi as [Hi Hr]. rewrite Z.add_0_l in Hi.
      rewrite <- Hi in H1. eapply does_mono.
      * apply (does_loop _ _ _ (fun zs _ => transposed i (Z.of_nat (length zs)))); [done|].
        intros zs j [] m2 [ws E'] H2. apply seqZ_nth in E' as Hj. destruct Hj as [Hj Hjr]. rewrite Z.add_0_l in Hj.
        rewrite length_app, Nat2Z.inj_add. cbn [length]. rewrite <- Hj in *. apply transpose_exchange; [lia..|done].
      * intros [] m2 H2. rewrite length_seqZ in H2. rewrite length_app, Nat2Z.inj_add. cbn [length]. rewrite <- Hi.
        intros k j Hk Hj. specialize (H2 k j Hk Hj). rewrite Z2Nat.id in H2 by lia.
        destruct (decide (k = j)); subst; repeat case_decide; try lia; try done. apply H2. lia.
  - intros [] m' H'. rewrite length_seqZ in H'. intros k j Hk Hj. specialize (H' k j Hk Hj).
    rewrite Z2Nat.id in H' by lia. rewrite decide_True in * by lia. done.
Qed.

(** A loop that counts the elements of a row that differ from a value. *)
Lemma count_errors f i e l m : (forall j, j ∈ l -> SFeqb (elem m i j) f = true) ->
  does everything everything (loop (fun errorcount j =>
    x ← rd_float i j; mret (if negb (SFeqb x f) then errorcount + 1 else errorcount)) e l) m (fun r m' => r = e /\ m' = m).
Proof.
  intros Hm. apply (does_loop _ _ _ (fun _ r m' => r = e /\ m' = m)); [done|].
  intros xs x acc m' [ys E] [-> ->]. apply does_bind, does_rd_float; [done|]. apply does_ret.
  rewrite Hm; [done|]. rewrite E. apply elem_of_app. right. left.
Qed.

Lemma CheckArray_does m : transposed size 0 m ->
  does everything everything (CheckArray size) m (fun r _ => r = 0).
Proof.
  intros Hm. eapply does_mono.
  - apply (does_loop _ _ _ (fun _ r m' => r = 0 /\ m' = m)); [done|].
    intros xs i acc m' [ys E] [-> ->]. apply seqZ_nth in E as [Hi Hr].
    apply does_bind, does_bind. eapply does_mono; [apply count_errors|].
    + intros j Hj%elem_of_seqZ. specialize (Hm i j ltac:(lia) ltac:(lia)). rewrite decide_True in Hm by lia.
      rewrite decide_True in Hm by lia. by rewrite Hm.
    + intros e m' [-> ->]. eapply does_mono; [apply count_errors|].
      * intros j Hj%elem_of_seqZ. specialize (Hm i j ltac:(lia) ltac:(lia)). rewrite decide_True in Hm by lia.
        rewrite decide_False in Hm by lia. by rewrite Hm.
      * intros e m' [-> ->]. by apply does_ret.
  - by intros r m' [-> _].
Qed.
End Verification.

(** ** [main] *)

(** After the elimination only process 0 uses the matrix. *)
Definition checker (i : nat) (_ : loc) : Prop := i = 0%nat.

Lemma verification_does size i m : small_size size -> same size (elem m) (el size init_value (size - 1)) ->
  does (checker i) (checker i) (verification size (size - 1) (Z.of_nat i)) m (fun r _ => r = 0).
Proof.
  intros Hs Hm. unfold verification. rewrite Z.eqb_refl, andb_true_r. destruct (Z.eqb_spec (Z.of_nat i) 0); [|by apply does_ret].
  assert (i = 0%nat) as -> by lia.
  assert (Hmain : does (fun _ => True) (fun _ => True) (TransposeAndZero size;; CheckArray size) m (fun r _ => r = 0)).
  { apply does_bind. eapply does_mono.
    - apply (TransposeAndZero_does size). intros k j Hj Hk. unfold small_size in Hs. rewrite Hm by lia. by apply eliminated_lower.
    - intros [] m'. apply CheckArray_does. }
  revert Hmain. by apply does_access.
Qed.

(** Without the option, and with a wrong one, the elimination is complete. *)
Lemma iterations_all size opt : opt <= 0 \/ size - 1 <= opt -> iterations size opt = size - 1.
Proof.
  intros H. unfold iterations. destruct (Z.eqb_spec opt 0); [done|].
  destruct (Z.ltb_spec opt 1), (Z.leb_spec size opt); cbn; lia.
Qed.

(** C25: the program verifies itself: with up to [2^23 - 1] rows, any number
    of processes and any order of their turns, there is no data race, every
    execution ends, there is no deadlock, and at the end process 0 has counted
    no errors in the result. *)
Theorem gauss_verified n size opt m o s : n <> 0%nat -> small_size size -> opt <= 0 \/ size - 1 <= opt ->
  rtc step (System m ∅ o (processes (Z.of_nat n) (gauss_main (Z.of_nat n) size (iterations size opt)))) s ->
  Acc (fun s' s => step s s') s /\ ~ race s /\
  ((exists s', step s s') \/ forall i p, sy_procs s !! i = Some p -> p = Done 0).
Proof.
  intros Hn Hs Hopt Hr. rewrite iterations_all in Hr by done. rewrite processes_seq in Hr.
  assert (Hi : 0 <= size - 1 < size) by (unfold small_size in Hs; lia).
  set (post := verification size (size - 1)). set (Qp := fun (_ : nat) (a : Z) (_ : memory) => a = 0).
  assert (Hap : forall i j l, (i < n)%nat -> (j < n)%nat -> i <> j -> checker i l -> ~ checker j l /\ ~ checker j l)
    by (unfold checker; lia).
  assert (Hpost : forall i m', (i < n)%nat -> same size (elem m') (el size init_value (size - 1)) ->
    does (checker i) (checker i) (post (Z.of_nat i)) m' (Qp i)) by (intros i m' _; by apply verification_does).
  pose proof (run_staged n size (size - 1) init_value post checker checker Qp Hn Hi Hap Hpost Begin m o s (fun _ _ _ _ => eq_refl) Hr) as Hst.
  split; [apply step_wf|]. split; [by apply (run_no_race n size (size - 1) init_value post checker checker Qp Hn Hi Hap)|].
  destruct (run_outcome n size (size - 1) init_value post checker checker Qp Hn Hi Hap Hpost s Hst) as [?|(m0 & _ & _ & Hall)]; [by left|].
  right. intros i p Hp. by destruct (Hall i p Hp) as (a & v & -> & ->).
Qed.

(** Two processes on three rows, in turns, until they have ended. *)
Definition two_on_three : system loc val Z :=
  turns (System ∅ ∅ [] (processes 2 (gauss_main 2 3 (iterations 3 0)))) (concat (replicate 150 [0; 1]%nat)).

Example two_on_three_ended : sy_procs two_on_three = [Done 0; Done 0].
Proof. vm_compute. reflexivity. Qed.

Lemma gauss_verified_witness : small_size 3 /\ sy_procs two_on_three = [Done 0; Done 0] /\ ~ race two_on_three.
Proof.
  split; [unfold small_size; lia|]. split; [vm_compute; reflexivity|].
  apply (gauss_verified 2 3 0 ∅ [] two_on_three); [lia|unfold small_size; lia|lia|].
  exact (turns_steps (System ∅ ∅ [] (processes 2 (gauss_main 2 3 (iterations 3 0)))) (concat (replicate 150 [0; 1]%nat))).
Defined.
