(* ===== verification/Suma.v ===== *)
(** * The sum of a shared array ([src/codigo/suma_tmk.c], [src/Tmk/Tmk_ejems/sumaArrtmk.c])

    Process 0 fills the array.  Every process prints its part of it when it is
    its turn, adds its part up, and adds the result to a shared sum, in a
    critical section; process 0 prints the sum.  [sumaArrtmk.c] is the same
    program without the turns.  Of the output only the lines with elements and
    the last line are modelled, not the headings. *)
From S2P Require Import Prelude Programs.
Local Open Scope Z_scope.

(** ** [shared], and the array it points to *)
Inductive place : Type := turn_ | sum_ | array (i : Z).

#[global] Instance place_eq_dec : EqDecision place.
Proof. solve_decision. Defined.
#[global] Instance place_countable : Countable place.
Proof.
  refine (inj_countable' (fun l => match l with array i => inl i | turn_ => inr true | sum_ => inr false end)
    (fun x => match x with inl i => array i | inr true => turn_ | inr false => sum_ end) _).
  by intros [].
Defined.

Abbreviation memory := (gmap place Z).
Abbreviation process := (prog place Z).

Section Suma.
(** [DIM] and [Tmk_nprocs]. *)
Context (DIM nprocs : Z).

Definition inicializa (id : Z) : process unit :=
  if id =? 0 then
    for_all (fun i => wr (array i) (i + 1)) (seqZ 0 DIM);;
    wr turn_ 0;;
    wr sum_ 0
  else mret tt.

(** The interval of a process is from [limite id] up to [limite (id + 1)]. *)
Definition limite (id : Z) : Z :=
  let perProc := DIM `quot` nprocs in
  let leftOver := DIM `rem` nprocs in
  s32 (id * perProc + s32 (id * leftOver) `quot` nprocs).

Definition mis_elementos (id : Z) : list Z := seqZ (limite id) (limite (id + 1) - limite id).

Definition imprime_elemento (i : Z) : process unit := v ← rd (array i); printf [i; v].

Definition turno (id : Z) : process unit :=
  t ← rd turn_;
  (if t =? id then
     for_all imprime_elemento (mis_elementos id);;
     t ← rd turn_;
     wr turn_ (s32 (t + 1))
   else mret tt);;
  barrier 0.

Definition imprime_por_turnos (id : Z) : process unit := for_all (fun _ => turno id) (seqZ 0 nprocs).

Definition suma_elemento (mySum i : Z) : process Z := v ← rd (array i); mret (s32 (mySum + v)).

Definition agrega (mySum : Z) : process unit :=
  acquire 0;;
  s ← rd sum_;
  wr sum_ (s32 (s + mySum));;
  release 0.

Definition resultado (id : Z) : process unit :=
  if id =? 0 then s ← rd sum_; printf [s] else mret tt.

(** What [sumaArrtmk.c] has too. *)
Definition suma (id : Z) : process unit :=
  mySum ← loop suma_elemento 0 (mis_elementos id);
  agrega mySum;;
  barrier 0;;
  resultado id.

Definition suma_main (id : Z) : process unit :=
  inicializa id;;
  barrier 0;;
  imprime_por_turnos id;;
  suma id.
End Suma.

Definition procesos (n : nat) (p : Z -> process unit) : list (process unit) := (fun i => p (Z.of_nat i)) <$> seq 0 n.

(** ** The intervals *)
Section Intervalos.
Context (DIM nprocs : Z) (Hdim : 0 <= DIM) (Hn : 0 < nprocs) (Hint : nprocs * DIM < 2147483648).

(** The products do not overflow. *)
Lemma limite_eq id : 0 <= id <= nprocs -> limite DIM nprocs id = id * (DIM `div` nprocs) + (id * (DIM `mod` nprocs)) `div` nprocs.
Proof.
  intros Hid. unfold limite. rewrite Z.quot_div_nonneg, Z.rem_mod_nonneg by lia.
  pose proof (Z.mod_pos_bound DIM nprocs Hn). pose proof (Z.div_mod DIM nprocs ltac:(lia)).
  pose proof (Z.mod_le DIM nprocs Hdim Hn). pose proof (Z.div_pos DIM nprocs Hdim Hn).
  assert (0 <= id * (DIM `mod` nprocs) < 2147483648) by nia.
  rewrite (s32_small (id * _)) by lia. rewrite Z.quot_div_nonneg by lia. apply s32_small.
  pose proof (Z.div_pos (id * (DIM `mod` nprocs)) nprocs ltac:(lia) Hn).
  assert ((id * (DIM `mod` nprocs)) `div` nprocs <= DIM `mod` nprocs) by (apply Z.div_le_upper_bound; nia). nia.
Qed.

Lemma limite_first : limite DIM nprocs 0 = 0.
Proof. rewrite limite_eq by lia. by rewrite !Z.mul_0_l, Z.div_0_l by lia. Qed.

(** The last interval ends where the array does. *)
Lemma limite_last : limite DIM nprocs nprocs = DIM.
Proof.
  rewrite limite_eq by lia. rewrite (Z.mul_comm _ (DIM `mod` nprocs)), Z.div_mul by lia.
  pose proof (Z.div_mod DIM nprocs ltac:(lia)). lia.
Qed.

Lemma limite_mono id id' : 0 <= id <= id' -> id' <= nprocs -> limite DIM nprocs id <= limite DIM nprocs id'.
Proof.
  intros H H'. rewrite !limite_eq by lia. pose proof (Z.div_pos DIM nprocs Hdim Hn). pose proof (Z.mod_pos_bound DIM nprocs Hn).
  pose proof (Z.div_le_mono (id * (DIM `mod` nprocs)) (id' * (DIM `mod` nprocs)) nprocs Hn ltac:(nia)). nia.
Qed.

Lemma limite_range id : 0 <= id <= nprocs -> 0 <= limite DIM nprocs id <= DIM.
Proof.
  intros H. pose proof (limite_mono 0 id ltac:(lia) ltac:(lia)) as H1. pose proof (limite_mono id nprocs ltac:(lia) ltac:(lia)) as H2.
  rewrite limite_first in H1. rewrite limite_last in H2. done.
Qed.
End Intervalos.
