(* ===== verification/SumaRun.v ===== *)
(** * The sum of a shared array: the processes together

    The points of the program, what a process does next at each of them, and
    the invariant of all processes, first while they print in turns, then while
    they add up. *)
From S2P Require Import Prelude Programs Suma.
Local Open Scope Z_scope.

(** ** The points of the program *)
Inductive punto : Type :=
  | Rellena (k : Z) | PoneSuma | Inicio
  | Vuelta (p : Z) | Muestra (p k : Z) | Elemento (p k v : Z) | Avanza (p t : Z) | Espera (p : Z)
  | Parcial (k acc : Z) | Lee (acc : Z) | Escribe (acc x : Z) | Sale | Fin
  | Resultado | Imprime (x : Z) | Acabado.

(** The next operation, and the point it leads to. *)
Inductive operacion : Type :=
  | Leer (l : place) (g : Z -> punto)
  | Escribir (l : place) (v : Z) (q : punto)
  | Tomar (q : punto)
  | Soltar (q : punto)
  | Barrera (q : punto)
  | Mostrar (vs : list Z) (q : punto)
  | Nada.

Section Puntos.
Context (DIM : Z) (n : nat).
Abbreviation nprocs := (Z.of_nat n).
Abbreviation lim i := (limite DIM nprocs (Z.of_nat i)).
Abbreviation lim' i := (limite DIM nprocs (Z.of_nat i + 1)).

Definition vueltas (i : nat) (p : Z) : process unit :=
  loop (fun _ _ => turno DIM nprocs (Z.of_nat i)) tt (seqZ p (nprocs - p));; suma DIM nprocs (Z.of_nat i).

Definition salida (i : nat) : process unit := release 0;; barrier 0;; resultado (Z.of_nat i).

(** What is left of the program at a point. *)
Definition codigo (i : nat) (q : punto) : process unit :=
  match q with
  | Rellena k => (loop (fun _ i => wr (array i) (i + 1)) tt (seqZ k (DIM - k));; wr turn_ 0;; wr sum_ 0);; barrier 0;; vueltas i 0
  | PoneSuma => Write sum_ 0 (Barrier 0 (vueltas i 0))
  | Inicio => Barrier 0 (vueltas i 0)
  | Vuelta p => vueltas i p
  | Muestra p k =>
      (u ← ((loop (fun _ => imprime_elemento) tt (seqZ k (lim' i - k));; t ← rd turn_; wr turn_ (s32 (t + 1)));; barrier 0);
       loop (fun _ _ => turno DIM nprocs (Z.of_nat i)) u (seqZ (p + 1) (nprocs - (p + 1))));;
      suma DIM nprocs (Z.of_nat i)
  | Elemento p k v => Print [k; v]
      ((u ← ((loop (fun _ => imprime_elemento) tt (seqZ (k + 1) (lim' i - (k + 1)));; t ← rd turn_; wr turn_ (s32 (t + 1)));; barrier 0);
        loop (fun _ _ => turno DIM nprocs (Z.of_nat i)) u (seqZ (p + 1) (nprocs - (p + 1))));;
       suma DIM nprocs (Z.of_nat i))
  | Avanza p t => Write turn_ (s32 (t + 1)) (Barrier 0 (vueltas i (p + 1)))
  | Espera p => Barrier 0 (vueltas i (p + 1))
  | Parcial k acc =>
      mySum ← loop suma_elemento acc (seqZ k (lim' i - k)); agrega mySum;; barrier 0;; resultado (Z.of_nat i)
  | Lee acc => Read sum_ (fun s => Write sum_ (s32 (s + acc)) (salida i))
  | Escribe acc x => Write sum_ (s32 (x + acc)) (salida i)
  | Sale => salida i
  | Fin => Barrier 0 (resultado (Z.of_nat i))
  | Resultado => resultado (Z.of_nat i)
  | Imprime x => Print [x] (Done tt)
  | Acabado => Done tt
  end.

Definition siguiente (i : nat) (q : punto) : operacion :=
  match q with
  | Rellena k => if k <? DIM then Escribir (array k) (k + 1) (Rellena (k + 1)) else Escribir turn_ 0 PoneSuma
  | PoneSuma => Escribir sum_ 0 Inicio
  | Inicio => Barrera (Vuelta 0)
  | Vuelta p => Leer turn_ (fun t => if t =? Z.of_nat i then Muestra p (lim i) else Espera p)
  | Muestra p k => if k <? lim' i then Leer (array k) (Elemento p k) else Leer turn_ (Avanza p)
  | Elemento p k v => Mostrar [k; v] (Muestra p (k + 1))
  | Avanza p t => Escribir turn_ (s32 (t + 1)) (Espera p)
  | Espera p => Barrera (if p + 1 <? nprocs then Vuelta (p + 1) else Parcial (lim i) 0)
  | Parcial k acc => if k <? lim' i then Leer (array k) (fun v => Parcial (k + 1) (s32 (acc + v))) else Tomar (Lee acc)
  | Lee acc => Leer sum_ (Escribe acc)
  | Escribe acc x => Escribir sum_ (s32 (x + acc)) Sale
  | Sale => Soltar Fin
  | Fin => Barrera Resultado
  | Resultado => if Z.of_nat i =? 0 then Leer sum_ Imprime else Nada
  | Imprime x => Mostrar [x] Acabado
  | Acabado => Nada
  end.

(** The points at which a process can be. *)
Definition valido (q : punto) : Prop := match q with Vuelta p | Espera p => 0 <= p < nprocs | _ => True end.

(** [siguiente] says what [codigo] does. *)
Lemma codigo_siguiente i q : valido q ->
  match siguiente i q with
  | Leer l g => exists f, codigo i q = Read l f /\ forall v, f v = codigo i (g v)
  | Escribir l v q' => codigo i q = Write l v (codigo i q')
  | Tomar q' => codigo i q = Acquire 0 (codigo i q')
  | Soltar q' => codigo i q = Release 0 (codigo i q')
  | Barrera q' => codigo i q = Barrier 0 (codigo i q')
  | Mostrar vs q' => codigo i q = Print vs (codigo i q')
  | Nada => codigo i q = Done tt
  end.
Proof.
  intros Hq. destruct q; cbn [siguiente]; try done.
  - destruct (Z.ltb_spec k DIM); cbn [codigo].
    + rewrite seqZ_cons by lia. replace (Z.succ k) with (k + 1) by lia. by replace (Z.pred (DIM - k)) with (DIM - (k + 1)) by lia.
    + by rewrite seqZ_nil by lia.
  - cbn in Hq |- *. unfold vueltas. rewrite seqZ_cons by lia. eexists. split; [done|]. intros t. cbn.
    replace (Z.pred (nprocs - p)) with (nprocs - (p + 1)) by lia. replace (Z.succ p) with (p + 1) by lia.
    by destruct (Z.eqb_spec t (Z.of_nat i)).
  - destruct (Z.ltb_spec k (lim' i)); cbn [codigo].
    + rewrite (seqZ_cons k) by lia. eexists. split; [done|]. intros v. cbn.
      replace (Z.succ k) with (k + 1) by lia. by replace (Z.pred (lim' i - k)) with (lim' i - (k + 1)) by lia.
    + rewrite (seqZ_nil k) by lia. by eexists.
  - cbn in Hq |- *. destruct (Z.ltb_spec (p + 1) nprocs); [done|]. unfold vueltas. by rewrite seqZ_nil by lia.
  - destruct (Z.ltb_spec k (lim' i)); cbn [codigo].
    + rewrite (seqZ_cons k) by lia. eexists. split; [done|]. intros v. cbn.
      replace (Z.succ k) with (k + 1) by lia. by replace (Z.pred (lim' i - k)) with (lim' i - (k + 1)) by lia.
    + by rewrite (seqZ_nil k) by lia.
  - by eexists.
  - cbn. unfold resultado. destruct (Z.of_nat i =? 0); [by eexists|done].
Qed.

(** ** All processes *)
Record estado : Type := Estado {
  e_mem : gmap place Z;
  e_held : gmap Z nat;
  e_out : list (list Z);
  e_pts : list punto
}.

Definition concreto (e : estado) : system place Z unit :=
  System (e_mem e) (e_held e) (e_out e) (imap codigo (e_pts e)).

(** A step of process [i], which is at [q]. *)
Inductive accion (m : gmap place Z) (h : gmap Z nat) (o : list (list Z)) (pts : list punto) (i : nat) : operacion -> estado -> Prop :=
  | acc_leer l g : accion m h o pts i (Leer l g) (Estado m h o (<[i := g (m !!! l)]> pts))
  | acc_escribir l v q : accion m h o pts i (Escribir l v q) (Estado (<[l := v]> m) h o (<[i := q]> pts))
  | acc_tomar q : h !! 0 = None -> accion m h o pts i (Tomar q) (Estado m (<[0 := i]> h) o (<[i := q]> pts))
  | acc_soltar q : h !! 0 = Some i -> accion m h o pts i (Soltar q) (Estado m (delete 0 h) o (<[i := q]> pts))
  | acc_mostrar vs q : accion m h o pts i (Mostrar vs q) (Estado m h (vs :: o) (<[i := q]> pts)).

Inductive paso (e : estado) : estado -> Prop :=
  | paso_uno i q e' : e_pts e !! i = Some q ->
      accion (e_mem e) (e_held e) (e_out e) (e_pts e) i (siguiente i q) e' -> paso e e'
  | paso_todos pts' : e_pts e <> [] -> length pts' = length (e_pts e) ->
      (forall i q, e_pts e !! i = Some q -> exists q', siguiente i q = Barrera q' /\ pts' !! i = Some q') ->
      paso e (Estado (e_mem e) (e_held e) (e_out e) pts').

Lemma codigo_insert i q (pts : list punto) : <[i := codigo i q]> (imap codigo pts) = imap codigo (<[i := q]> pts).
Proof.
  apply list_eq. intros j. destruct (decide (i = j)) as [<-|Hne].
  - rewrite list_lookup_imap. destruct (decide (i < length pts)%nat) as [Hl|Hl].
    + rewrite !list_lookup_insert_eq by (rewrite ?length_imap; done). done.
    + rewrite !list_insert_ge by (rewrite ?length_imap; lia). by rewrite list_lookup_imap.
  - by rewrite list_lookup_insert_ne, !list_lookup_imap, list_lookup_insert_ne.
Qed.

Lemma lookup_concreto e i p : sy_procs (concreto e) !! i = Some p -> exists q, e_pts e !! i = Some q /\ p = codigo i q.
Proof. cbn. rewrite list_lookup_imap. intros (q & -> & Hq)%fmap_Some. by exists q. Qed.

(** The points describe every step of the program. *)
Lemma pasos e s : (forall i q, e_pts e !! i = Some q -> valido q) -> step (concreto e) s -> exists e', s = concreto e' /\ paso e e'.
Proof.
  intros Hv Hs. unfold concreto in Hs.
  assert (Hat : forall i p, imap codigo (e_pts e) !! i = Some p -> exists q, e_pts e !! i = Some q /\ p = codigo i q) by apply lookup_concreto.
  assert (Huno : forall i q op e', e_pts e !! i = Some q -> siguiente i q = op -> accion (e_mem e) (e_held e) (e_out e) (e_pts e) i op e' ->
    s = concreto e' -> exists e', s = concreto e' /\ paso e e').
  { intros i q op e' Hi <- Ha ->. exists e'. split; [done|]. by eapply paso_uno. }
  inversion Hs as [m h o ps i l k Hi|m h o ps i l v p Hi|m h o ps i c p Hi Hfree|m h o ps i c p Hi Hheld|m h o ps b ps' Hne HF|m h o ps i vs p Hi]; subst;
    try (apply Hat in Hi as (q & Hq & Ep); pose proof (codigo_siguiente i q (Hv _ _ Hq)) as Hn; destruct (siguiente i q) eqn:En;
      first [destruct Hn as (f & Ef & Hf)|rename Hn into Ef]; rewrite Ef in Ep; simplify_eq;
      eapply Huno; [exact Hq|exact En|by constructor|unfold concreto; cbn; rewrite ?Hf, codigo_insert; done]).
  assert (HF' : forall i q, e_pts e !! i = Some q -> exists q', siguiente i q = Barrera q' /\ ps' !! i = Some (codigo i q')).
  { intros i q Hq. assert (Hi : imap codigo (e_pts e) !! i = Some (codigo i q)) by (rewrite list_lookup_imap, Hq; done).
    destruct (Forall2_lookup_l _ _ _ _ _ HF Hi) as (p' & Hp' & Ep). pose proof (codigo_siguiente i q (Hv _ _ Hq)) as Hn.
    destruct (siguiente i q) as [| | | |q'| |] eqn:En; first [destruct Hn as (f & Ef & Hf)|rename Hn into Ef]; rewrite Ef in Ep; simplify_eq.
    by exists q'. }
  set (pts' := imap (fun i q => match siguiente i q with Barrera q' => q' | _ => q end) (e_pts e)).
  exists (Estado (e_mem e) (e_held e) (e_out e) pts'). split.
  - unfold concreto. cbn. f_equal. apply list_eq. intros i. unfold pts'. rewrite !list_lookup_imap.
    destruct (e_pts e !! i) as [q|] eqn:Hq; cbn.
    + destruct (HF' i q Hq) as (q' & En & ->). by rewrite En.
    + apply lookup_ge_None in Hq. apply lookup_ge_None. rewrite <- (Forall2_length _ _ _ HF), length_imap. done.
  - apply paso_todos; [by intros E; rewrite E in Hne|by unfold pts'; rewrite length_imap|].
    intros i q Hq. destruct (HF' i q Hq) as (q' & En & _). exists q'. split; [done|]. unfold pts'. by rewrite list_lookup_imap, Hq; cbn; rewrite En.
Qed.

(** A process that is not waiting goes on. *)
Lemma avanza e i q : e_pts e !! i = Some q -> valido q ->
  match siguiente i q with
  | Leer _ _ | Escribir _ _ _ | Mostrar _ _ => True
  | Tomar _ => e_held e !! 0 = None
  | Soltar _ => e_held e !! 0 = Some i
  | _ => False
  end -> exists s, step (concreto e) s.
Proof.
  intros Hq Hv Hop. pose proof (codigo_siguiente i q Hv) as Hn.
  assert (Hi : imap codigo (e_pts e) !! i = Some (codigo i q)) by (rewrite list_lookup_imap, Hq; done).
  destruct (siguiente i q); try done; first [destruct Hn as (f & Ef & Hf)|rename Hn into Ef]; rewrite Ef in Hi; eexists;
    first [by eapply step_read|by eapply step_write|by eapply step_acquire|by eapply step_release|by eapply step_print].
Qed.

(** When all processes are at the barrier, they leave it. *)
Lemma salen e : e_pts e <> [] -> (forall i q, e_pts e !! i = Some q -> valido q /\ exists q', siguiente i q = Barrera q') ->
  exists s, step (concreto e) s.
Proof.
  intros Hne Hb. eexists. apply (step_barrier _ _ _ _ 0 (imap (fun i q => match siguiente i q with Barrera q' => codigo i q' | _ => codigo i q end) (e_pts e))).
  - intros E. apply Hne. apply (f_equal length) in E. rewrite length_imap in E. by destruct (e_pts e).
  - apply Forall2_same_length_lookup_2; [by rewrite !length_imap|]. intros i p p'. rewrite !list_lookup_imap.
    destruct (e_pts e !! i) as [q|] eqn:Hq; [|done]. intros [= <-] [= <-]. destruct (Hb i q Hq) as (Hv & q' & En).
    pose proof (codigo_siguiente i q Hv) as Hn. by rewrite En in *.
Qed.
End Puntos.
