(* ===== verification/SumaTotal.v ===== *)
(** * The sum of a shared array: what is printed

    The invariant: while the processes print, the variable [turn] says whose
    elements come next, although it is read and written without a lock; while
    they add up, the sum is what the processes that have left the critical
    section contributed. *)
From S2P Require Import Prelude Programs Suma SumaRun.
Local Open Scope Z_scope.

(** [1 + ... + k] *)
Definition tri (k : Z) : Z := (k * (k + 1)) `div` 2.

Lemma tri_succ k : tri (k + 1) = tri k + (k + 1).
Proof. unfold tri. replace ((k + 1) * (k + 1 + 1)) with (k * (k + 1) + (k + 1) * 2) by lia. by rewrite Z.div_add by lia. Qed.

Lemma tri_mono a b : 0 <= a <= b -> tri a <= tri b.
Proof. intros H. unfold tri. apply Z.div_le_mono; [lia|]. nia. Qed.

(** The lines with the first [K] elements. *)
Definition lineas (K : Z) : list (list Z) := (fun k => [k; k + 1]) <$> seqZ 0 K.

Lemma lineas_succ K : 0 <= K -> lineas (K + 1) = lineas K ++ [[K; K + 1]].
Proof. intros H. unfold lineas. rewrite seqZ_app by lia. by rewrite fmap_app. Qed.

Lemma lineas_prefix K K' : 0 <= K <= K' -> lineas K `prefix_of` lineas K'.
Proof.
  intros H. unfold lineas. replace K' with (K + (K' - K)) by lia. rewrite seqZ_app by lia. rewrite fmap_app. by apply prefix_app_r.
Qed.

(** What holds of all processes after one has moved. *)
Lemma tras_paso (P : nat -> punto -> Prop) i q' (pts : list punto) :
  P i q' -> (forall j q, j <> i -> pts !! j = Some q -> P j q) -> forall j q, <[i := q']> pts !! j = Some q -> P j q.
Proof. intros Hi Hj j q H. apply list_lookup_insert_Some in H as [(-> & -> & _)|[Hne H]]; auto. Qed.

Section Total.
Context (DIM : Z) (n : nat).
Hypothesis Hn : n <> 0%nat.
Hypothesis Hdim : 0 <= DIM.
Hypothesis Hint : Z.of_nat n < 2147483648 /\ Z.of_nat n * DIM < 2147483648 /\ DIM * (DIM + 1) < 4294967296.
Abbreviation nprocs := (Z.of_nat n).
Definition lim (i : nat) : Z := limite DIM nprocs (Z.of_nat i).

Lemma lim_S i : limite DIM nprocs (Z.of_nat i + 1) = lim (S i).
Proof. unfold lim. f_equal. lia. Qed.

Lemma lim_0 : lim 0 = 0.
Proof. apply limite_first; lia. Qed.
Lemma lim_n : lim n = DIM.
Proof. apply limite_last; lia. Qed.
Lemma lim_range i : (i < n)%nat -> 0 <= lim i <= lim (S i) /\ lim (S i) <= DIM.
Proof.
  intros Hi. pose proof (limite_range DIM nprocs Hdim ltac:(lia) ltac:(lia) (Z.of_nat i) ltac:(lia)).
  pose proof (limite_range DIM nprocs Hdim ltac:(lia) ltac:(lia) (Z.of_nat (S i)) ltac:(lia)).
  pose proof (limite_mono DIM nprocs Hdim ltac:(lia) ltac:(lia) (Z.of_nat i) (Z.of_nat (S i)) ltac:(lia) ltac:(lia)).
  unfold lim. lia.
Qed.

Definition lleno (m : gmap place Z) : Prop := forall k, 0 <= k < DIM -> m !!! array k = k + 1.

(** ** Process 0 prepares *)
Definition prepara_en (m : gmap place Z) (i : nat) (q : punto) : Prop :=
  match q with
  | Rellena k => i = 0%nat /\ 0 <= k <= DIM /\ forall j, 0 <= j < k -> m !!! array j = j + 1
  | PoneSuma => i = 0%nat /\ lleno m /\ m !!! turn_ = 0
  | Inicio => i = 0%nat -> lleno m /\ m !!! turn_ = 0 /\ m !!! sum_ = 0
  | _ => False
  end.

Definition prepara (e : estado) : Prop :=
  e_held e = ∅ /\ e_out e = [] /\ forall i q, e_pts e !! i = Some q -> prepara_en (e_mem e) i q.

(** ** The turns: it is iteration [p], process [T]'s turn, and [K] lines have
    been printed *)
Definition turnos_en (p : Z) (T : nat) (K : Z) (i : nat) (q : punto) : Prop :=
  match q with
  | Vuelta p' => p' = p /\ (i = T -> K = lim i)
  | Muestra p' k => p' = p /\ i = T /\ K = k /\ lim i <= k <= lim (S i)
  | Elemento p' k v => p' = p /\ i = T /\ K = k /\ lim i <= k < lim (S i) /\ v = k + 1
  | Avanza p' t => p' = p /\ i = T /\ t = Z.of_nat T /\ K = lim (S i)
  | Espera p' => p' = p /\ (i = T -> p < Z.of_nat T /\ K = lim i)
  | _ => False
  end.

Definition turnos (p : Z) (T : nat) (K : Z) (e : estado) : Prop :=
  0 <= p < nprocs /\ p <= Z.of_nat T <= nprocs /\ lleno (e_mem e) /\ e_mem e !!! turn_ = Z.of_nat T /\ e_mem e !!! sum_ = 0 /\
  e_held e = ∅ /\ 0 <= K <= DIM /\ e_out e = reverse (lineas K) /\ (T = n -> K = DIM) /\
  forall i q, e_pts e !! i = Some q -> turnos_en p T K i q.

(** ** The sums of the processes in [D] have been added *)
Definition parte (i : nat) : Z := tri (lim (S i)) - tri (lim i).
Definition partes (D : list nat) : Z := foldr (fun i s => parte i + s) 0 D.

Definition suma_en (D : list nat) (h : gmap Z nat) (m : gmap place Z) (i : nat) (q : punto) : Prop :=
  match q with
  | Parcial k acc => lim i <= k <= lim (S i) /\ acc = tri k - tri (lim i) /\ i ∉ D /\ h !! 0 <> Some i
  | Lee acc => acc = parte i /\ i ∉ D /\ h !! 0 = Some i
  | Escribe acc x => acc = parte i /\ i ∉ D /\ h !! 0 = Some i /\ x = m !!! sum_
  | Sale => i ∈ D /\ h !! 0 = Some i
  | Fin => i ∈ D /\ h !! 0 <> Some i
  | _ => False
  end.

Definition sumas (D : list nat) (e : estado) : Prop :=
  lleno (e_mem e) /\ e_out e = reverse (lineas DIM) /\ e_mem e !!! sum_ = partes D /\ NoDup D /\
  (forall i, i ∈ D -> (i < n)%nat) /\ (forall i, e_held e !! 0 = Some i -> (i < n)%nat) /\
  forall i q, e_pts e !! i = Some q -> suma_en D (e_held e) (e_mem e) i q.

(** ** The result *)
Definition final_en (o : list (list Z)) (i : nat) (q : punto) : Prop :=
  match q with
  | Resultado => i = 0%nat -> o = reverse (lineas DIM)
  | Imprime x => i = 0%nat /\ x = tri DIM /\ o = reverse (lineas DIM)
  | Acabado => i = 0%nat /\ o = [tri DIM] :: reverse (lineas DIM)
  | _ => False
  end.

Definition final (e : estado) : Prop :=
  e_mem e !!! sum_ = tri DIM /\ (e_out e = reverse (lineas DIM) \/ e_out e = [tri DIM] :: reverse (lineas DIM)) /\
  forall i q, e_pts e !! i = Some q -> final_en (e_out e) i q.

Definition invariante (e : estado) : Prop :=
  length (e_pts e) = n /\
  (prepara e \/ (exists p T K, turnos p T K e) \/ (exists D, sumas D e) \/ final e).

(** ** Each stage *)
Ltac uno := match goal with H : accion _ _ _ _ _ _ _ |- _ => inversion H; subst; clear H end; cbn [e_mem e_held e_out e_pts].

Lemma tras_lleno m k v : lleno m -> (forall i, k <> array i) -> lleno (<[k := v]> m).
Proof. intros Hm Hk i Hi. rewrite lookup_total_insert_ne by done. auto. Qed.

Lemma prepara_paso e e' : length (e_pts e) = n -> prepara e -> paso DIM n e e' -> invariante e'.
Proof.
  intros Hl (Hh & Ho & Hp) Hpaso. destruct e as [m h o pts].
  inversion Hpaso as [i q e1 Hi Ha|pts' Hne Hl' Hb]; subst; cbn [e_mem e_held e_out e_pts] in *.
  - split; [by uno; rewrite ?length_insert|]. left. pose proof (Hp i q Hi) as Hq.
    destruct q; try done; cbn [siguiente] in Ha; [|destruct Hq as (-> & Hm & Ht)|by inversion Ha].
    + destruct Hq as (-> & Hk & Hm). destruct (Z.ltb_spec k DIM); uno; (split_and!; [done|done|]); apply tras_paso; cbn [e_mem].
      * split; [done|]. split; [lia|]. intros j Hj. destruct (decide (j = k)) as [->|]; [by rewrite lookup_total_insert_eq|].
        rewrite lookup_total_insert_ne by congruence. apply Hm. lia.
      * intros j q Hj Hq. apply Hp in Hq. destruct q; cbn in *; lia || done || tauto.
      * split_and!; [done| |by rewrite lookup_total_insert_eq]. apply tras_lleno; [|done]. intros j Hj. apply Hm. lia.
      * intros j q Hj Hq. apply Hp in Hq. destruct q; cbn in *; lia || done || tauto.
    + uno. split_and!; [done|done|]. apply tras_paso; cbn [e_mem].
      * intros _. split_and!; [by apply tras_lleno|by rewrite lookup_total_insert_ne|by rewrite lookup_total_insert_eq].
      * intros j q Hj Hq. apply Hp in Hq. destruct q; cbn in *; lia || done || tauto.
  - split; [cbn; congruence|]. right. left. exists 0, 0%nat, 0. cbn.
    destruct (lookup_lt_is_Some_2 pts 0%nat ltac:(lia)) as [q0 H0]. destruct (Hb 0%nat q0 H0) as (q0' & En & _).
    pose proof (Hp 0%nat q0 H0) as Hq0. destruct q0; try done. 1: cbn in En; by case_match.
    destruct (Hq0 eq_refl) as (Hm & Ht & Hs). split_and!; try done; [lia..|].
    intros i q' Hi. cbn in Hi. destruct (lookup_lt_is_Some_2 pts i) as [q Hq]; [rewrite <- Hl'; by eapply lookup_lt_Some|].
    destruct (Hb i q Hq) as (q1 & En1 & E1). simplify_eq. pose proof (Hp i q Hq) as Hq1. destruct q; try done.
    1: cbn in En1; by case_match. cbn in En1; injection En1 as <-. cbn. split; [done|]. intros ->. by rewrite lim_0.
Qed.

(** The others do not notice what the process whose turn it is does. *)
Lemma turnos_otros p T K K' i q : i <> T -> turnos_en p T K i q -> turnos_en p T K' i q.
Proof. intros Hi Hq. destruct q; cbn in *; lia || done || naive_solver. Qed.

Lemma turnos_uno p T K e i q e' : length (e_pts e) = n -> turnos p T K e -> e_pts e !! i = Some q ->
  accion (e_mem e) (e_held e) (e_out e) (e_pts e) i (siguiente DIM n i q) e' -> exists T' K', turnos p T' K' e'.
Proof.
  intros Hl (Hp & HT & Hm & Ht & Hs & Hh & HK & Ho & Hend & Hall) Hi Ha. destruct e as [m h o pts]. cbn [e_mem e_held e_out e_pts] in *.
  pose proof (Hall i q Hi) as Hq. assert (Hin : (i < n)%nat) by (rewrite <- Hl; by eapply lookup_lt_Some).
  pose proof (lim_range i Hin) as [Hlim Hlim']. destruct q as [| | |p'|p' k|p' k v|p' t|p'| | | | | | | |]; try done; cbn [siguiente] in Ha.
  - destruct Hq as [-> HqK]. uno. exists T, K. split_and!; cbn [e_mem e_held e_out e_pts]; try done; try lia. apply tras_paso; [|auto].
    rewrite Ht. destruct (Z.eqb_spec (Z.of_nat T) (Z.of_nat i)) as [E|E]; cbn.
    + assert (i = T) as -> by lia. unfold lim in *. split_and!; (lia || done || auto).
    + split; [done|]. intros ->. lia.
  - destruct Hq as (-> & -> & -> & Hk). rewrite lim_S in Ha. destruct (Z.ltb_spec k (lim (S T))); uno; exists T, k;
      (split_and!; cbn [e_mem e_held e_out e_pts]; try done; try lia); apply tras_paso; [|auto| |auto].
    + cbn. split_and!; [done..|lia|lia|]. apply Hm. lia.
    + cbn. split_and!; [done..|lia].
  - destruct Hq as (-> & -> & -> & Hk & ->). uno. exists T, (k + 1). split_and!; cbn [e_mem e_held e_out e_pts]; try done; try lia.
    + rewrite lineas_succ by lia. by rewrite reverse_app.
    + apply tras_paso; [cbn; lia|]. intros j q Hj Hq. eapply turnos_otros; [done|]. by apply Hall.
  - destruct Hq as (-> & -> & -> & ->). uno. exists (S T), (lim (S T)). split_and!; cbn [e_mem e_held e_out e_pts]; try done; try lia.
    + by apply tras_lleno.
    + rewrite lookup_total_insert_eq, s32_small; lia.
    + by rewrite lookup_total_insert_ne.
    + intros HTn. rewrite HTn. apply lim_n.
    + apply tras_paso; [cbn; lia|]. intros j q Hj Hq. apply Hall in Hq. destruct q; cbn in *; try done; try lia.
      * destruct Hq as [-> _]. split; [done|]. by intros ->.
      * destruct Hq as [-> _]. split; [done|]. intros ->. split; [lia|done].
  - by inversion Ha.
Qed.

Lemma turnos_todos p T K e pts' : length (e_pts e) = n -> turnos p T K e -> length pts' = length (e_pts e) ->
  (forall i q, e_pts e !! i = Some q -> exists q', siguiente DIM n i q = Barrera q' /\ pts' !! i = Some q') ->
  invariante (Estado (e_mem e) (e_held e) (e_out e) pts').
Proof.
  intros Hl (Hp & HT & Hm & Ht & Hs & Hh & HK & Ho & Hend & Hall) Hl' Hb. destruct e as [m h o pts]. cbn [e_mem e_held e_out e_pts] in *.
  assert (Hat : forall i q', pts' !! i = Some q' -> (i = T -> p < Z.of_nat T /\ K = lim i) /\
    q' = if p + 1 <? nprocs then Vuelta (p + 1) else Parcial (lim i) 0).
  { intros i q' Hi. destruct (lookup_lt_is_Some_2 pts i) as [q Hq]; [rewrite <- Hl'; by eapply lookup_lt_Some|].
    destruct (Hb i q Hq) as (q1 & En & E1). assert (q1 = q') as -> by congruence. apply Hall in Hq.
    destruct q; cbn in Hq, En; try done; [by case_match|]. destruct Hq as [-> Hq]. by injection En as <-. }
  split; [cbn; congruence|]. right.
  assert (HpT : p < Z.of_nat T).
  { destruct (decide (T < n)%nat) as [HTn|]; [|lia].
    destruct (lookup_lt_is_Some_2 pts' T ltac:(lia)) as [q Hq]. by apply (Hat T q Hq). }
  destruct (Z.ltb_spec (p + 1) nprocs) as [Hlast|Hlast].
  - left. exists (p + 1), T, K. split_and!; cbn [e_mem e_held e_out e_pts]; try done; try lia.
    intros i q Hi. destruct (Hat i q Hi) as [Hi' ->]. split; [done|]. intros E. by apply Hi'.
  - right. left. exists []. assert (K = DIM) as -> by (apply Hend; lia).
    split_and!; cbn [e_mem e_held e_out e_pts]; try done.
    + constructor.
    + intros i Hi. by apply not_elem_of_nil in Hi.
    + intros i Hi. by rewrite Hh in Hi.
    + intros i q Hi. destruct (Hat i q Hi) as [_ ->]. assert (Hin : (i < n)%nat) by (rewrite <- Hl, <- Hl'; by eapply lookup_lt_Some).
      pose proof (lim_range i Hin). cbn. split_and!; [lia..|apply not_elem_of_nil|by rewrite Hh].
Qed.

Lemma turnos_paso p T K e e' : length (e_pts e) = n -> turnos p T K e -> paso DIM n e e' -> invariante e'.
Proof.
  intros Hl Ht Hpaso. inversion Hpaso as [i q e1 Hi Ha|pts' Hne Hl' Hb]; subst.
  - destruct (turnos_uno p T K e i q e' Hl Ht Hi Ha) as (T' & K' & Ht'). split; [|right; left; by exists p, T', K'].
    by destruct Ha; cbn; rewrite length_insert.
  - by eapply turnos_todos.
Qed.

(** ** The shares *)
Lemma partes_perm D D' : D ≡ₚ D' -> partes D = partes D'.
Proof. unfold partes. induction 1; cbn; [done|lia|lia|congruence]. Qed.

Lemma partes_app D D' : partes (D ++ D') = partes D + partes D'.
Proof. unfold partes. induction D as [|i D IH]; cbn; [done|lia]. Qed.

Lemma parte_range i : (i < n)%nat -> 0 <= parte i.
Proof. intros Hi. pose proof (lim_range i Hi). unfold parte. pose proof (tri_mono (lim i) (lim (S i)) ltac:(lia)). lia. Qed.

Lemma partes_nonneg D : (forall i, i ∈ D -> (i < n)%nat) -> 0 <= partes D.
Proof.
  unfold partes. intros HD. induction D as [|i D IH]; cbn; [done|]. pose proof (parte_range i (HD i ltac:(left))).
  specialize (IH ltac:(intros j Hj; apply HD; by right)). lia.
Qed.

Lemma partes_all : partes (seq 0 n) = tri DIM.
Proof.
  assert (Hgen : forall b a, partes (seq a b) = tri (lim (a + b)) - tri (lim a)).
  { intros b. induction b as [|b IH]; intros a; cbn; [rewrite Nat.add_0_r; lia|].
    rewrite IH. unfold parte. replace (S a + b)%nat with (a + S b)%nat by lia. lia. }
  rewrite Hgen. cbn. rewrite lim_n, lim_0. change (tri 0) with 0. lia.
Qed.

Lemma partes_range D : NoDup D -> (forall i, i ∈ D -> (i < n)%nat) -> 0 <= partes D <= tri DIM.
Proof.
  intros Hnd HD. split; [by apply partes_nonneg|].
  assert (Hs : D ⊆+ seq 0 n) by (apply NoDup_submseteq; [done|]; intros i Hi; apply elem_of_seq; specialize (HD i Hi); lia).
  apply submseteq_Permutation in Hs as [D' HP]. rewrite <- partes_all, (partes_perm _ _ HP), partes_app.
  assert (0 <= partes D'); [|lia]. apply partes_nonneg. intros i Hi.
  assert (Hin : i ∈ seq 0 n) by (rewrite HP; apply elem_of_app; by right). apply elem_of_seq in Hin. lia.
Qed.

Lemma tri_DIM : 0 <= tri DIM < 2147483648.
Proof. unfold tri. split; [apply Z.div_pos; [apply Z.mul_nonneg_nonneg|]; lia|apply Z.div_lt_upper_bound; lia]. Qed.

Lemma sumas_uno D e i q e' : length (e_pts e) = n -> sumas D e -> e_pts e !! i = Some q ->
  accion (e_mem e) (e_held e) (e_out e) (e_pts e) i (siguiente DIM n i q) e' -> exists D', sumas D' e'.
Proof.
  intros Hl (Hm & Ho & Hs & Hnd & HD & Hh & Hall) Hi Ha. destruct e as [m h o pts]. cbn [e_mem e_held e_out e_pts] in *.
  pose proof (Hall i q Hi) as Hq. assert (Hin : (i < n)%nat) by (rewrite <- Hl; by eapply lookup_lt_Some).
  pose proof (lim_range i Hin) as [Hlim Hlim']. pose proof tri_DIM as Htri.
  destruct q as [| | | | | | | |k acc|acc|acc x| | | | |]; try done; cbn [siguiente] in Ha; try (by inversion Ha).
  - destruct Hq as (Hk & -> & HiD & Hih). rewrite lim_S in Ha. destruct (Z.ltb_spec k (lim (S i))); uno; exists D;
      (split_and!; cbn [e_mem e_held e_out e_pts]; try done).
    + apply tras_paso; [|auto]. cbn. rewrite Hm by lia. pose proof (tri_succ k). pose proof (tri_mono (lim i) k ltac:(lia)).
      pose proof (tri_mono (k + 1) DIM ltac:(lia)). pose proof (tri_mono 0 (lim i) ltac:(lia)) as Hz. change (tri 0) with 0 in Hz.
      rewrite s32_small by lia. split_and!; [lia..|done|done].
    + intros j. rewrite lookup_insert_eq. by intros [= <-].
    + apply tras_paso; [cbn; rewrite lookup_insert_eq; split_and!; [|done|done]|].
      { unfold parte. by replace k with (lim (S i)) by lia. }
      intros j q Hj Hq. apply Hall in Hq. destruct q; cbn in *; try done; rewrite lookup_insert_eq; naive_solver congruence.
  - destruct Hq as (-> & HiD & Hih). uno. exists D. split_and!; cbn [e_mem e_held e_out e_pts]; try done. apply tras_paso; [done|auto].
  - destruct Hq as (-> & HiD & Hih & ->). uno. exists (i :: D).
    assert (Hnd' : NoDup (i :: D)) by by constructor.
    assert (HD' : forall j, j ∈ i :: D -> (j < n)%nat) by (intros j [->|Hj]%elem_of_cons; auto).
    pose proof (partes_range _ Hnd' HD') as Hr. change (partes (i :: D)) with (parte i + partes D) in Hr. split_and!; cbn [e_mem e_held e_out e_pts]; try done.
    + by apply tras_lleno.
    + rewrite lookup_total_insert_eq, s32_small by lia. change (partes (i :: D)) with (parte i + partes D). lia.
    + apply tras_paso; [split; [left|done]|]. intros j q Hj Hq. apply Hall in Hq.
      destruct q; cbn in *; try done; rewrite ?elem_of_cons; naive_solver congruence.
  - destruct Hq as (HiD & Hih). uno. exists D. split_and!; cbn [e_mem e_held e_out e_pts]; try done.
    + intros j. by rewrite lookup_delete_eq.
    + apply tras_paso; [cbn; by rewrite lookup_delete_eq|]. intros j q Hj Hq. apply Hall in Hq.
      destruct q; cbn in *; try done; rewrite lookup_delete_eq; naive_solver congruence.
Qed.

Lemma sumas_paso D e e' : length (e_pts e) = n -> sumas D e -> paso DIM n e e' -> invariante e'.
Proof.
  intros Hl Hs Hpaso. inversion Hpaso as [i q e1 Hi Ha|pts' Hne Hl' Hb]; subst.
  { destruct (sumas_uno D e i q e' Hl Hs Hi Ha) as (D' & Hs'). split; [|right; right; left; by exists D'].
    by destruct Ha; cbn; rewrite length_insert. }
  destruct Hs as (Hm & Ho & Hs & Hnd & HD & Hh & Hall). split; [cbn; congruence|]. right. right. right.
  assert (Hat : forall i q', pts' !! i = Some q' -> i ∈ D /\ q' = Resultado).
  { intros i q' Hi. destruct (lookup_lt_is_Some_2 (e_pts e) i) as [q Hq]; [rewrite <- Hl'; by eapply lookup_lt_Some|].
    destruct (Hb i q Hq) as (q1 & En & E1). assert (q1 = q') as -> by congruence. apply Hall in Hq.
    destruct q; cbn in Hq, En; try done; [by case_match|]. by injection En as <-; destruct Hq. }
  assert (HP : D ≡ₚ seq 0 n).
  { apply NoDup_Permutation; [done|apply NoDup_seq|]. intros i. rewrite elem_of_seq. split; [intros Hi; specialize (HD i Hi); lia|].
    intros Hi. destruct (lookup_lt_is_Some_2 pts' i ltac:(lia)) as [q Hq]. by apply (Hat i q). }
  split_and!; cbn [e_mem e_held e_out e_pts].
  - by rewrite Hs, (partes_perm _ _ HP), partes_all.
  - by left.
  - intros i q Hi. destruct (Hat i q Hi) as [_ ->]. by cbn.
Qed.

Lemma final_paso e e' : length (e_pts e) = n -> final e -> paso DIM n e e' -> invariante e'.
Proof.
  intros Hl (Hs & Ho & Hall) Hpaso. destruct e as [m h o pts].
  inversion Hpaso as [i q e1 Hi Ha|pts' Hne Hl' Hb]; subst; cbn [e_mem e_held e_out e_pts] in *.
  - split; [by destruct Ha; cbn; rewrite length_insert|]. right. right. right. pose proof (Hall i q Hi) as Hq.
    destruct q; try done; cbn [siguiente] in Ha; [destruct (Z.eqb_spec (Z.of_nat i) 0) as [E|E]; [|by inversion Ha]| |by inversion Ha].
    + uno. split_and!; cbn [e_mem e_held e_out e_pts]; try done. apply tras_paso; [|auto]. assert (i = 0%nat) as -> by lia.
      split_and!; [done..|]. by apply Hq.
    + destruct Hq as (-> & -> & ->). uno. split_and!; cbn [e_mem e_held e_out e_pts]; [done|by right|]. apply tras_paso; [done|].
      intros j q Hj Hq. apply Hall in Hq. destruct q; cbn in *; naive_solver.
  - exfalso. destruct (lookup_lt_is_Some_2 pts 0%nat ltac:(lia)) as [q Hq]. destruct (Hb 0%nat q Hq) as (q' & En & _).
    apply Hall in Hq. by destruct q.
Qed.

Lemma invariante_paso e e' : invariante e -> paso DIM n e e' -> invariante e'.
Proof.
  intros [Hl [H|[(p & T & K & H)|[(D & H)|H]]]] Hp;
    [by eapply prepara_paso|by eapply turnos_paso|by eapply sumas_paso|by eapply final_paso].
Qed.

(** ** No deadlock *)
Lemma puntos_validos e : invariante e -> forall i q, e_pts e !! i = Some q -> valido n q.
Proof.
  intros [_ H] i q Hi. destruct q as [| | |p'| | | |p'| | | | | | | |]; try done; cbn;
    destruct H as [(_ & _ & H)|[(p & T & K & Hp & _ & _ & _ & _ & _ & _ & _ & _ & H)|[(D & _ & _ & _ & _ & _ & _ & H)|(_ & _ & H)]]];
    specialize (H i _ Hi); cbn in H; try done; by destruct H as [-> _].
Qed.

Definition listo (h : gmap Z nat) (i : nat) (q : punto) : bool :=
  match siguiente DIM n i q with
  | Leer _ _ | Escribir _ _ _ | Mostrar _ _ => true
  | Tomar _ => bool_decide (h !! 0 = None)
  | Soltar _ => bool_decide (h !! 0 = Some i)
  | Barrera _ | Nada => false
  end.

Lemma alguien_listo e : invariante e ->
  (exists s, step (concreto DIM n e) s) \/ forall i q, e_pts e !! i = Some q -> listo (e_held e) i q = false.
Proof.
  intros Hinv. destruct (decide (true ∈ imap (listo (e_held e)) (e_pts e))) as [Hin|Hno].
  - left. apply list_elem_of_lookup in Hin as [i Hi]. rewrite list_lookup_imap in Hi.
    destruct (e_pts e !! i) as [q|] eqn:Hq; [|done]. injection Hi as Hl.
    apply (avanza DIM n e i q Hq); [by eapply puntos_validos|]. unfold listo in Hl.
    destruct (siguiente DIM n i q); try done; by apply bool_decide_eq_true in Hl.
  - right. intros i q Hi. apply not_true_is_false. intros Hl. apply Hno, list_elem_of_lookup. exists i.
    by rewrite list_lookup_imap, Hi, <- Hl.
Qed.

Lemma sin_bloqueo e : invariante e ->
  (exists s, step (concreto DIM n e) s) \/
  (forall i p, sy_procs (concreto DIM n e) !! i = Some p -> p = Done tt) /\ e_out e = [tri DIM] :: reverse (lineas DIM).
Proof.
  intros Hinv. destruct (alguien_listo e Hinv) as [?|Hl]; [by left|].
  assert (Hsalen : (forall i q, e_pts e !! i = Some q -> exists q', siguiente DIM n i q = Barrera q') -> exists s, step (concreto DIM n e) s).
  { intros Hb. apply salen; [intros E; destruct Hinv as [H _]; rewrite E in H; cbn in H; lia|].
    intros i q Hi. split; [by eapply puntos_validos|by eapply Hb]. }
  destruct Hinv as [Hlen [(_ & _ & H)|[(p & T & K & _ & _ & _ & _ & _ & _ & _ & _ & _ & H)|[(D & _ & _ & _ & _ & _ & Hh & H)|(_ & Ho & H)]]]].
  - left. apply Hsalen. intros i q Hi. specialize (H i q Hi). specialize (Hl i q Hi). unfold listo in Hl.
    destruct q; cbn in *; try done; [by destruct (_ <? _)|by eexists].
  - left. apply Hsalen. intros i q Hi. specialize (H i q Hi). specialize (Hl i q Hi). unfold listo in Hl.
    destruct q; cbn in *; try done; [by destruct (_ <? _)|by eexists].
  - left. destruct (e_held e !! 0) as [j|] eqn:Hj.
    + exfalso. destruct (lookup_lt_is_Some_2 (e_pts e) j) as [q Hq]; [rewrite Hlen; by apply Hh|].
      specialize (H j q Hq). specialize (Hl j q Hq). unfold listo in Hl.
      destruct q; cbn in *; try done; try naive_solver. rewrite bool_decide_eq_false in Hl. naive_solver.
    + apply Hsalen. intros i q Hi. specialize (H i q Hi). specialize (Hl i q Hi). unfold listo in Hl. rewrite Hj in *.
      destruct q as [| | | | | | | |k acc|acc|acc x| | | | |]; cbn [suma_en] in H; try done.
      * cbn in Hl. by destruct (_ <? _).
      * destruct H as [_ H]. congruence.
      * by eexists.
  - right.
    assert (Hend : forall i q, e_pts e !! i = Some q -> siguiente DIM n i q = Nada /\ (i = 0%nat -> q = Acabado)).
    { intros i q Hi. specialize (H i q Hi). specialize (Hl i q Hi). unfold listo in Hl. destruct q; cbn in *; try done.
      destruct (Z.eqb_spec (Z.of_nat i) 0); [done|]. split; [done|]. intros ->. done. }
    split.
    + intros i p (q & Hq & ->)%lookup_concreto. destruct (Hend i q Hq) as [En _].
      assert (Hv : valido n q) by (specialize (H i q Hq); by destruct q).
      pose proof (codigo_siguiente DIM n i q Hv) as Hc. by rewrite En in Hc.
    + destruct (lookup_lt_is_Some_2 (e_pts e) 0%nat ltac:(lia)) as [q Hq]. destruct (Hend 0%nat q Hq) as [_ E].
      rewrite (E eq_refl) in Hq. by destruct (H _ _ Hq).
Qed.

Lemma salida_prefijo e : invariante e -> reverse (e_out e) `prefix_of` lineas DIM ++ [[tri DIM]].
Proof.
  assert (Hgen : forall K, 0 <= K <= DIM -> e_out e = reverse (lineas K) -> reverse (e_out e) `prefix_of` lineas DIM ++ [[tri DIM]]).
  { intros K HK ->. rewrite reverse_involutive. etrans; [by apply (lineas_prefix K DIM)|by apply prefix_app_r]. }
  intros [_ [(_ & Ho & _)|[(p & T & K & _ & _ & _ & _ & _ & _ & HK & Ho & _)|[(D & _ & Ho & _)|(_ & Ho & _)]]]].
  - rewrite Ho. apply prefix_nil.
  - by apply (Hgen K).
  - apply (Hgen DIM); [lia|done].
  - destruct Ho as [Ho|Ho]; [apply (Hgen DIM); [lia|done]|]. rewrite Ho, reverse_cons, reverse_involutive. done.
Qed.

(** The beginning. *)
Definition inicial (m : gmap place Z) : estado := Estado m ∅ [] (Rellena 0 :: replicate (n - 1) Inicio).

Lemma inicial_concreto m : System m ∅ [] (procesos n (suma_main DIM nprocs)) = concreto DIM n (inicial m).
Proof.
  unfold concreto, inicial, procesos. cbn [e_mem e_held e_out e_pts]. f_equal. apply list_eq. intros i.
  rewrite list_lookup_fmap, list_lookup_imap. destruct (decide (i < n)%nat) as [Hi|Hi].
  - rewrite lookup_seq_lt by done. destruct i as [|i].
    + cbn. unfold suma_main, inicializa, vueltas, imprime_por_turnos, for_all. cbn. by rewrite !Z.sub_0_r.
    + assert ((Rellena 0 :: replicate (n - 1) Inicio) !! S i = Some Inicio) as -> by (apply lookup_replicate_2; lia).
      cbn. unfold suma_main, inicializa, vueltas, imprime_por_turnos, for_all. cbn. by rewrite Z.sub_0_r.
  - rewrite lookup_seq_ge by lia. rewrite lookup_ge_None_2; [done|]. cbn. rewrite length_replicate. lia.
Qed.

Lemma inicial_invariante m : invariante (inicial m).
Proof.
  split; [cbn; rewrite length_replicate; lia|]. left. split_and!; [done..|]. intros [|i] q Hi; cbn in Hi.
  - injection Hi as <-. cbn. split_and!; [done|lia|lia|lia].
  - apply lookup_replicate in Hi as [-> _]. done.
Qed.

Lemma alcanzable m s : rtc step (System m ∅ [] (procesos n (suma_main DIM nprocs))) s ->
  exists e, s = concreto DIM n e /\ invariante e.
Proof.
  rewrite inicial_concreto. assert (Hgen : forall s0, rtc step s0 s -> (exists e, s0 = concreto DIM n e /\ invariante e) ->
    exists e, s = concreto DIM n e /\ invariante e).
  { induction 1 as [s0|s0 s1 s2 H1 _ IH]; [done|]. intros (e & -> & He). apply IH.
    destruct (pasos DIM n e s1 (puntos_validos e He) H1) as (e' & -> & Hp). exists e'. split; [done|by eapply invariante_paso]. }
  intros Hr. apply (Hgen _ Hr). exists (inicial m). split; [done|apply inicial_invariante].
Qed.
End Total.

(** C24: for any number of processes and any order of their turns, every
    execution ends, there is no deadlock, and what is printed is at any time
    the beginning of, and at the end exactly, the elements in the order of the
    array, each once, followed by their sum, which process 0 prints. *)
Theorem suma_imprime n DIM m s : n <> 0%nat -> 0 <= DIM ->
  Z.of_nat n < 2147483648 /\ Z.of_nat n * DIM < 2147483648 /\ DIM * (DIM + 1) < 4294967296 ->
  rtc step (System m ∅ [] (procesos n (suma_main DIM (Z.of_nat n)))) s ->
  Acc (fun s' s => step s s') s /\
  reverse (sy_out s) `prefix_of` lineas DIM ++ [[tri DIM]] /\
  ((exists s', step s s') \/
   (forall i p, sy_procs s !! i = Some p -> p = Done tt) /\ reverse (sy_out s) = lineas DIM ++ [[tri DIM]]).
Proof.
  intros Hn Hd Hi Hr. destruct (alcanzable DIM n Hn Hd Hi m s Hr) as (e & -> & He).
  split; [apply step_wf|]. split; [by apply (salida_prefijo DIM n)|].
  destruct (sin_bloqueo DIM n Hn Hi e He) as [?|[Hdone Ho]]; [by left|]. right. split; [done|].
  change (sy_out _) with (e_out e). by rewrite Ho, reverse_cons, reverse_involutive.
Qed.

(** Three processes, five elements, in turns until they have ended. *)
Definition tres_y_cinco : system place Z unit :=
  turns (System ∅ ∅ [] (procesos 3 (suma_main 5 3))) (concat (replicate 60 [2; 0; 1]%nat)).

Lemma suma_imprime_witness : reverse (sy_out tres_y_cinco) = [[0; 1]; [1; 2]; [2; 3]; [3; 4]; [4; 5]; [15]] /\
  ((exists s', step tres_y_cinco s') \/
   (forall i p, sy_procs tres_y_cinco !! i = Some p -> p = Done tt) /\ reverse (sy_out tres_y_cinco) = lineas 5 ++ [[tri 5]]).
Proof.
  split; [vm_compute; reflexivity|]. apply (suma_imprime 3 5 ∅ tres_y_cinco); [lia|lia|lia|].
  exact (turns_steps (System ∅ ∅ [] (procesos 3 (suma_main 5 3))) (concat (replicate 60 [2; 0; 1]%nat))).
Defined.

(** Although a process may read [turn] while another writes it. *)
Example turn_race : race (turns (System ∅ ∅ [] (procesos 2 (suma_main 1 2))) [0; 0; 0; 0; 0; 0]%nat).
Proof.
  exists 0%nat, 1%nat. eexists _, _, turn_, _, _. repeat split; try (vm_compute; reflexivity). done.
Qed.
