(* ===== verification/Arrays.v ===== *)
(** * Arrays and their parts

    An array is a map from indices to elements.  Parts of it as lists, changes
    that only permute a part, and the exchange of two elements, which the
    quicksort ([Qs]) and the priority queue of the travelling salesman
    ([TspHeap]) have in common. *)
From S2P Require Import Prelude.
Local Open Scope Z_scope.

Section Arrays.
Context {V : Type} `{!Inhabited V}.
Implicit Types a : gmap Z V.

(** ** Parts of the array *)
Definition seg (a : gmap Z V) (i j : Z) : list V := (fun x => a !!! x) <$> seqZ i (j - i + 1).

Lemma seg_elem a i j v : v ∈ seg a i j <-> exists x, i <= x <= j /\ v = a !!! x.
Proof.
  unfold seg. rewrite list_elem_of_fmap. split.
  - intros (x & -> & Hx). apply elem_of_seqZ in Hx. exists x. split; [lia|done].
  - intros (x & Hx & ->). exists x. split; [done|]. apply elem_of_seqZ. lia.
Qed.

Lemma seg_split a i k j : i <= k <= j + 1 -> seg a i j = seg a i (k - 1) ++ seg a k j.
Proof.
  intros H. unfold seg. rewrite <- fmap_app. f_equal.
  replace (j - i + 1) with ((k - 1 - i + 1) + (j - k + 1)) by lia. rewrite seqZ_app by lia. do 2 f_equal. lia.
Qed.

Lemma seg_one a i : seg a i i = [a !!! i].
Proof. unfold seg. by replace (i - i + 1) with 1 by lia. Qed.

Lemma seg_ext a a' i j : (forall x, i <= x <= j -> a' !!! x = a !!! x) -> seg a' i j = seg a i j.
Proof.
  intros H. unfold seg. apply list_fmap_ext. intros k x Hx. apply list_elem_of_lookup_2, elem_of_seqZ in Hx. apply H. lia.
Qed.

(** [a'] has in the part from [i] to [j] the same elements as [a], and
    elsewhere nothing has changed. *)
Record permutes (i j : Z) (a a' : gmap Z V) : Prop := {
  pm_seg : seg a' i j ≡ₚ seg a i j;
  pm_rest : forall x, x < i \/ j < x -> a' !!! x = a !!! x
}.

#[global] Instance permutes_preorder i j : PreOrder (permutes i j).
Proof.
  split; [by intros a; split|]. intros a1 a2 a3 [P1 R1] [P2 R2]. split; [by etrans|].
  intros x Hx. by rewrite R2, R1.
Qed.

(** A permutation of a part is one of any larger part. *)
Lemma permutes_widen i j i' j' a a' : i' <= i -> j <= j' -> permutes i j a a' -> permutes i' j' a a'.
Proof.
  intros Hi Hj [P R]. split; [|intros x Hx; apply R; lia].
  destruct (Z.le_gt_cases i (j + 1)) as [H|H].
  2:{ rewrite (seg_ext a a'); [done|]. intros x Hx. apply R. lia. }
  rewrite (seg_split a' i' i j'), (seg_split a i' i j'), (seg_split a' i (j + 1) j'), (seg_split a i (j + 1) j') by lia.
  replace (j + 1 - 1) with j by lia. rewrite P.
  rewrite (seg_ext a a' i' (i - 1)), (seg_ext a a' (j + 1) j'); [done|..]; intros x Hx; apply R; lia.
Qed.

(** What holds of all elements still does. *)
Lemma permutes_all (P : V -> Prop) i j a a' : permutes i j a a' ->
  (forall x, i <= x <= j -> P (a !!! x)) -> forall x, i <= x <= j -> P (a' !!! x).
Proof.
  intros [E _] H x Hx. assert (Hin : a' !!! x ∈ seg a i j) by (rewrite <- E; apply seg_elem; by exists x).
  apply seg_elem in Hin as (y & Hy & ->). by apply H.
Qed.

Lemma permutes_nodup i j a a' : permutes i j a a' -> NoDup (seg a i j) -> NoDup (seg a' i j).
Proof. intros [E _]. by rewrite E. Qed.

Lemma nodup_part a i j i' j' : NoDup (seg a i j) -> i <= i' -> j' <= j -> NoDup (seg a i' j').
Proof.
  intros H Hi Hj. destruct (Z.le_gt_cases i' (j' + 1)) as [Hl|Hl].
  - rewrite (seg_split a i i' j), (seg_split a i' (j' + 1) j) in H by lia. replace (j' + 1 - 1) with j' in H by lia.
    apply NoDup_app in H as (_ & _ & H). by apply NoDup_app in H as (H & _ & _).
  - unfold seg. rewrite seqZ_nil by lia. constructor.
Qed.

Lemma nodup_neq a i j x y : NoDup (seg a i j) -> i <= x < y -> y <= j -> a !!! x <> a !!! y.
Proof.
  intros H Hx Hy E. apply (nodup_part a i j x j) in H; [|lia..]. rewrite (seg_split a x (x + 1) j) in H by lia.
  replace (x + 1 - 1) with x in H by lia. rewrite seg_one in H. cbn in H. apply NoDup_cons in H as [H _].
  apply H, seg_elem. exists y. split; [lia|done].
Qed.

(** ** Exchanging two elements *)
Definition swapped (a : gmap Z V) (x y : Z) : gmap Z V := <[y := a !!! x]> (<[x := a !!! y]> a).

Lemma swapped_lookup a x y z :
  swapped a x y !!! z = if decide (z = y) then a !!! x else if decide (z = x) then a !!! y else a !!! z.
Proof.
  unfold swapped. case_decide; [subst; apply lookup_total_insert_eq|]. rewrite lookup_total_insert_ne by done.
  case_decide; [subst; apply lookup_total_insert_eq|by apply lookup_total_insert_ne].
Qed.

Lemma middle_swap {A : Type} (l1 l2 l3 : list A) u v : l1 ++ v :: l2 ++ u :: l3 ≡ₚ l1 ++ u :: l2 ++ v :: l3.
Proof.
  apply Permutation_app_head. rewrite <- (Permutation_middle l2 l3 u), <- (Permutation_middle l2 l3 v). constructor.
Qed.

Lemma swapped_permutes a x y i j : i <= x -> x <= y -> y <= j -> permutes i j a (swapped a x y).
Proof.
  intros Hi Hxy Hj. split; [|intros z Hz; rewrite swapped_lookup, !decide_False by lia; done].
  destruct (decide (x = y)) as [<-|Hne].
  { rewrite (seg_ext a (swapped a x x)); [done|]. intros z _. rewrite swapped_lookup. by repeat case_decide; subst. }
  assert (E : forall b, seg b i j = seg b i (x - 1) ++ b !!! x :: seg b (x + 1) (y - 1) ++ b !!! y :: seg b (y + 1) j).
  { intros b. rewrite (seg_split b i x j), (seg_split b x (x + 1) j), (seg_split b (x + 1) y j), (seg_split b y (y + 1) j) by lia.
    replace (x + 1 - 1) with x by lia. replace (y + 1 - 1) with y by lia. by rewrite !seg_one. }
  assert (Ex : swapped a x y !!! x = a !!! y) by (rewrite swapped_lookup, decide_False, decide_True; done).
  assert (Ey : swapped a x y !!! y = a !!! x) by (rewrite swapped_lookup, decide_True; done).
  rewrite !E, Ex, Ey.
  rewrite !(seg_ext a (swapped a x y)) by (intros z Hz; rewrite swapped_lookup, !decide_False by lia; done).
  apply middle_swap.
Qed.

Lemma swapped_comm a x y : forall z, swapped a x y !!! z = swapped a y x !!! z.
Proof. intros z. rewrite !swapped_lookup. by repeat case_decide; subst. Qed.

End Arrays.

(** A new array of zeros, as [memset] makes it. *)
Definition zeros (n : Z) : gmap Z Z := list_to_map ((fun i => (i, 0)) <$> seqZ 0 n).

Lemma zeros_lookup n j : 0 <= j < n -> zeros n !!! j = 0.
Proof.
  intros Hj. unfold zeros. apply lookup_total_correct, elem_of_list_to_map.
  - rewrite <- list_fmap_compose. cbn. rewrite list_fmap_id. apply NoDup_seqZ.
  - apply list_elem_of_fmap. exists j. split; [done|]. apply elem_of_seqZ. lia.
Qed.

Lemma seqZ_one i : seqZ i 1 = [i].
Proof. done. Qed.

Lemma filter_agree {A : Type} (P1 P2 : A -> Prop) `{D1 : !forall x, Decision (P1 x), D2 : !forall x, Decision (P2 x)} (l : list A) :
  (forall x, x ∈ l -> P1 x <-> P2 x) -> filter P1 l = filter P2 l.
Proof.
  induction l as [|x l IH]; intros Hl; [done|]. rewrite !filter_cons, IH by (intros; apply Hl; by right).
  pose proof (Hl x ltac:(left)). destruct (decide (P1 x)), (decide (P2 x)); tauto.
Qed.
