(* ===== verification/Qs.v ===== *)
(** * Quicksort ([src/Tmk/apps/qs_c/src/QS.C]): sorting a part of the array

    The benchmark sorts an array in shared memory.  This file has the
    sequential parts: partitioning, the quicksort of a part that is small
    enough for one process, and the bubble sort that the option [-B] selects.
    [QsWorkers] has the stack of tasks and the processes that share it. *)
From S2P Require Import Prelude Arrays.
Local Open Scope Z_scope.

Definition MAX_SORT_SIZE : Z := 1024 * 1024.

(** [gMem->A] *)
Abbreviation array := (gmap Z Z).

Definition in_A (i : Z) : bool := (0 <=? i) && (i <? MAX_SORT_SIZE).
Definition load (i : Z) : M array Z := if in_A i then gets (fun a => a !!! i) else undef.
Definition store (i x : Z) : M array unit := if in_A i then modify (fun a => <[i := x]> a) else undef.

Definition SWAP (i j : Z) : M array unit :=
  tmp ← load i;
  x ← load j;
  store i x;;
  store j tmp.

(** ** [Partition] *)

(** [while (gMem->A[left] < pivot) left++;] *)
Fixpoint scan_left (fuel : nat) (pivot left : Z) : M array Z :=
  match fuel with
  | O => undef
  | S fuel' => x ← load left; if x <? pivot then scan_left fuel' pivot (left + 1) else mret left
  end.

(** [while ((right >= i) && (gMem->A[right] >= pivot)) right--;] *)
Fixpoint scan_right (fuel : nat) (i pivot right : Z) : M array Z :=
  match fuel with
  | O => undef
  | S fuel' =>
      if i <=? right then
        x ← load right;
        if pivot <=? x then scan_right fuel' i pivot (right - 1) else mret right
      else mret right
  end.

(** [do { ... } while (left <= right);] *)
Fixpoint partition_loop (fuel n : nat) (i pivot left right : Z) : M array Z :=
  match fuel with
  | O => undef
  | S fuel' =>
      SWAP left right;;
      left' ← scan_left n pivot left;
      right' ← scan_right n i pivot right;
      if left' <=? right' then partition_loop fuel' n i pivot left' right' else mret left'
  end.

Definition Partition (i j pivot : Z) : M array Z :=
  let n := Z.to_nat (j - i + 2) in
  partition_loop n n i pivot i j.

Definition FindPivot (i j : Z) : M array Z :=
  x ← load i;
  y ← load (i + 1);
  mret (if y <? x then i else i + 1).

(** ** [LocalQuickSort] *)
Fixpoint LocalQuickSort (fuel : nat) (i j : Z) : M array unit :=
  match fuel with
  | O => undef
  | S fuel' =>
      if j <=? i then skip
      else
        pivot ← FindPivot i j;
        x ← load pivot;
        k ← Partition i j x;
        if i <? k then LocalQuickSort fuel' i (k - 1);; LocalQuickSort fuel' k j
        else LocalQuickSort fuel' (i + 1) j
  end.

(** ** [BubbleSort] *)
Definition bubble_step (y : Z) : M array unit :=
  u ← load y;
  v ← load (y - 1);
  when (u <? v) (SWAP y (y - 1)).

Definition bubble_pass (i j : Z) : M array unit := for_each bubble_step (reverse (seqZ (i + 1) (j - i))).

Definition BubbleSort (i j : Z) : M array unit := for_each (fun _ => bubble_pass i j) (seqZ i (j - i)).

(** ** Partitioning, one step after the other *)
Lemma load_run i a : in_A i = true -> load i a = Ok (a !!! i, a).
Proof. unfold load. by intros ->. Qed.

Lemma swap_run x y a : in_A x = true -> in_A y = true -> SWAP x y a = Ok (tt, swapped a x y).
Proof.
  intros Hx Hy. unfold SWAP. rewrite (bind_Ok _ _ _ _ _ (load_run x a Hx)), (bind_Ok _ _ _ _ _ (load_run y a Hy)).
  unfold store. rewrite Hx, Hy. done.
Qed.

(** ** Partitioning *)
Section Part.
Context (i j p : Z) (Hi : 0 <= i) (Hj : j < MAX_SORT_SIZE).

Lemma in_part x : i <= x <= j -> in_A x = true.
Proof. unfold in_A. lia. Qed.

(** What is left of [left] is less than the pivot, what is right of [right]
    is not, and some element at or after [left] is not either. *)
Record splitting (a : array) (left right : Z) : Prop := {
  sp_left : i <= left /\ forall x, i <= x < left -> a !!! x < p;
  sp_right : i - 1 <= right <= j /\ forall x, right < x <= j -> p <= a !!! x;
  sp_stop : exists x, left <= x <= j /\ p <= a !!! x
}.

Lemma scan_left_run a n : forall left right, splitting a left right -> j - left < Z.of_nat n -> exists left',
  scan_left n p left a = Ok (left', a) /\ left <= left' /\ splitting a left' right /\ p <= a !!! left'.
Proof.
  induction n as [|n IH]; intros left right [[L1 L2] R (x & Hx & Hp)] Hn; [lia|]. cbn [scan_left].
  rewrite (bind_Ok _ _ _ _ _ (load_run left a (in_part left ltac:(lia)))). destruct (Z.ltb_spec (a !!! left) p) as [Hl|Hl].
  - destruct (IH (left + 1) right) as (left' & -> & H1 & H2 & H3); [|lia|exists left'; split_and!; [done|lia|done|done]].
    split; [|done|].
    + split; [lia|]. intros y Hy. destruct (decide (y = left)) as [->|]; [done|]. apply L2. lia.
    + exists x. split; [|done]. destruct (decide (x = left)) as [->|]; lia.
  - exists left. split_and!; [done|lia| |done]. split; [done|done|by exists x].
Qed.

Lemma scan_right_run a n : forall left right, splitting a left right -> right - i + 1 < Z.of_nat n -> exists right',
  scan_right n i p right a = Ok (right', a) /\ right' <= right /\ splitting a left right' /\
  (i <= right' -> a !!! right' < p).
Proof.
  induction n as [|n IH]; intros left right [L [[R1 R2] R3] S] Hn; [lia|]. cbn [scan_right].
  destruct (Z.leb_spec i right) as [Hr|Hr]; [|exists right; split_and!; [done|lia|by split|lia]].
  rewrite (bind_Ok _ _ _ _ _ (load_run right a (in_part right ltac:(lia)))). destruct (Z.leb_spec p (a !!! right)) as [Hl|Hl].
  - destruct (IH left (right - 1)) as (right' & -> & H1 & H2 & H3); [|lia|exists right'; split_and!; [done|lia|done|done]].
    split; [done| |done]. split; [lia|]. intros y Hy. destruct (decide (y = right)) as [->|]; [done|]. apply R3. lia.
  - exists right. split_and!; [done|lia|by split|done].
Qed.

(** After the exchange both ends can move. *)
Lemma splitting_swap a left right : splitting a left right -> left < right -> p <= a !!! left -> a !!! right < p ->
  splitting (swapped a left right) (left + 1) (right - 1).
Proof.
  intros [[L1 L2] [[R1 R2] R3] _] Hlr Hl Hr. split.
  - split; [lia|]. intros x Hx. rewrite swapped_lookup. repeat case_decide; [lia..|]. apply L2. lia.
  - split; [lia|]. intros x Hx. rewrite swapped_lookup. repeat case_decide; [lia..|]. apply R3. lia.
  - exists right. split; [lia|]. by rewrite swapped_lookup, decide_True.
Qed.

(** The state when the loop is repeated. *)
Definition stuck (a : array) (left right : Z) : Prop :=
  splitting a left right /\ left < right /\ p <= a !!! left /\ a !!! right < p.

(** Both scans, after the exchange. *)
Lemma scans_run n a left right : splitting a left right -> j - i + 1 < Z.of_nat n -> exists left' right',
  (forall (k : Z -> Z -> M array Z), (l ← scan_left n p left; r ← scan_right n i p right; k l r) a = k left' right' a) /\
  left <= left' /\ right' <= right /\ splitting a left' right' /\ p <= a !!! left' /\ (i <= right' -> a !!! right' < p).
Proof.
  intros H Hn. pose proof (sp_left _ _ _ H) as [L _]. pose proof (sp_right _ _ _ H) as [R _].
  destruct (scan_left_run a n left right H) as (left' & E1 & H1 & S1 & P1); [lia|].
  destruct (scan_right_run a n left' right S1) as (right' & E2 & H2 & S2 & P2); [lia|].
  exists left', right'. split_and!; try done. intros k. by rewrite (bind_Ok _ _ _ _ _ E1), (bind_Ok _ _ _ _ _ E2).
Qed.

Lemma loop_run n m : forall a left right, j - i + 1 < Z.of_nat n -> stuck a left right -> right - left < Z.of_nat m ->
  exists k a', partition_loop m n i p left right a = Ok (k, a') /\ permutes i j a a' /\ i <= k <= j /\
    (forall x, i <= x < k -> a' !!! x < p) /\ (forall x, k <= x <= j -> p <= a' !!! x).
Proof.
  induction m as [|m IH]; intros a left right Hn (H & Hlr & Hl & Hr) Hm; [lia|]. cbn [partition_loop].
  pose proof (sp_left _ _ _ H) as [L _]. pose proof (sp_right _ _ _ H) as [R _].
  rewrite (bind_Ok _ _ _ _ _ (swap_run left right a (in_part left ltac:(lia)) (in_part right ltac:(lia)))).
  set (a1 := swapped a left right). assert (P1 : permutes i j a a1) by (apply swapped_permutes; lia).
  assert (S1 : splitting a1 left right).
  { destruct (splitting_swap a left right H Hlr Hl Hr) as [[L1 L2] [R1 R2] S]. fold a1 in L2, R2, S. split.
    - split; [lia|]. intros x Hx. apply L2. lia.
    - split; [lia|]. intros x Hx. apply R2. lia.
    - destruct S as (x & Hx & Hp). exists x. split; [lia|done]. }
  destruct (scans_run n a1 left right S1 Hn) as (left' & right' & -> & H1 & H2 & S2 & Pl & Pr).
  assert (Hleft : left' <> left).
  { intros ->. subst a1. rewrite swapped_lookup, decide_False, decide_True in Pl by lia. lia. }
  destruct (Z.leb_spec left' right') as [Hc|Hc].
  - pose proof (sp_left _ _ _ S2) as [L2 _]. specialize (Pr ltac:(lia)).
    assert (left' <> right') by (intros ->; lia).
    destruct (IH a1 left' right' Hn) as (k & a' & E & P & Hk & K1 & K2); [unfold stuck; split_and!; [done|lia|done|done]|lia|].
    exists k, a'. split_and!; [done|by etrans|lia..|done|done].
  - exists left', a1. destruct S2 as [[L2 L3] [R2 R3] (x & Hx & Hp)]. split_and!; [done|done|lia|lia|done|].
    intros y Hy. apply R3. lia.
Qed.
End Part.

(** [Partition] with a pivot that is in the part. *)
Lemma partition_run i j p a : 0 <= i <= j -> j < MAX_SORT_SIZE -> (exists x, i <= x <= j /\ a !!! x = p) ->
  exists k a', Partition i j p a = Ok (k, a') /\ permutes i j a a' /\ i <= k <= j /\
    (forall x, i <= x < k -> a' !!! x < p) /\ (forall x, k <= x <= j -> p <= a' !!! x).
Proof.
  intros Hi Hj (x & Hx & Hp). unfold Partition. set (n := Z.to_nat (j - i + 2)).
  assert (Hn : j - i + 1 < Z.of_nat n) by (subst n; lia).
  generalize dependent n. intros n Hn. destruct n as [|m]; [lia|]. cbn [partition_loop].
  rewrite (bind_Ok _ _ _ _ _ (swap_run i j a (in_part i j ltac:(lia) Hj i ltac:(lia)) (in_part i j ltac:(lia) Hj j ltac:(lia)))).
  set (a1 := swapped a i j). assert (P1 : permutes i j a a1) by (apply swapped_permutes; lia).
  assert (S1 : splitting i j p a1 i j).
  { split; [split; [lia|intros; lia]|split; [lia|intros; lia]|].
    destruct P1 as [E _]. assert (Hin : p ∈ seg a1 i j) by (rewrite E; apply seg_elem; by exists x).
    apply seg_elem in Hin as (y & Hy & Hpy). exists y. split; [done|lia]. }
  destruct (scans_run i j p ltac:(lia) Hj (S m) a1 i j S1 Hn) as (left' & right' & -> & H1 & H2 & S2 & Pl & Pr).
  destruct (Z.leb_spec left' right') as [Hc|Hc].
  - specialize (Pr ltac:(lia)). assert (left' <> right') by (intros ->; lia).
    destruct (loop_run i j p ltac:(lia) Hj (S m) m a1 left' right' Hn) as (k & a' & E & P & Hk & K1 & K2); [unfold stuck; split_and!; [done|lia|done|done]|lia|].
    exists k, a'. split_and!; [done|by etrans|lia..|done|done].
  - exists left', a1. destruct S2 as [[L2 L3] [R2 R3] (y & Hy & Hpy)]. split_and!; [done|done|lia|lia|done|].
    intros z Hz. apply R3. lia.
Qed.

(** ** Sorting *)
Definition sorted (i j : Z) (a : array) : Prop := forall x y, i <= x <= y -> y <= j -> a !!! x <= a !!! y.

(** [FindPivot] and [Partition] together: both parts are smaller, unless no
    element is less than the pivot. *)
Lemma split_run i j a : 0 <= i < j -> j < MAX_SORT_SIZE -> exists p k a',
  (forall B (f : Z -> M array B), (pivot ← FindPivot i j; x ← load pivot; k ← Partition i j x; f k) a = f k a') /\
  permutes i j a a' /\ i <= k <= j /\ (forall x, i <= x < k -> a' !!! x < p) /\ (forall x, k <= x <= j -> p <= a' !!! x) /\
  (a !!! i <> a !!! (i + 1) -> i < k).
Proof.
  intros Hi Hj. assert (Hin : forall x, i <= x <= j -> in_A x = true) by (intros; by apply (in_part i j ltac:(lia) Hj)).
  set (q := if a !!! (i + 1) <? a !!! i then i else i + 1).
  assert (Hq : i <= q <= i + 1) by (subst q; destruct (_ <? _); lia).
  assert (E1 : FindPivot i j a = Ok (q, a)).
  { unfold FindPivot. rewrite (bind_Ok _ _ _ _ _ (load_run i a (Hin i ltac:(lia)))), (bind_Ok _ _ _ _ _ (load_run (i + 1) a (Hin (i + 1) ltac:(lia)))). done. }
  destruct (partition_run i j (a !!! q) a ltac:(lia) Hj) as (k & a' & E2 & P & Hk & K1 & K2); [exists q; split; [lia|done]|].
  exists (a !!! q), k, a'. split_and!; try done; [|lia..|].
  - intros B f. by rewrite (bind_Ok _ _ _ _ _ E1), (bind_Ok _ _ _ _ _ (load_run q a (Hin q ltac:(lia)))), (bind_Ok _ _ _ _ _ E2).
  - intros Hne. destruct (Z.lt_ge_cases i k) as [|Hge]; [done|]. exfalso.
    assert (Hall : forall x, i <= x <= j -> a !!! q <= a !!! x).
    { apply (permutes_all (fun v => a !!! q <= v) i j a' a); [destruct P as [E R]; split; [done|intros x Hx; by rewrite R]|].
      intros x Hx. apply K2. lia. }
    pose proof (Hall i ltac:(lia)). pose proof (Hall (i + 1) ltac:(lia)). subst q.
    destruct (Z.ltb_spec (a !!! (i + 1)) (a !!! i)); lia.
Qed.

(** Two sorted parts, the elements of the first less than those of the second. *)
Lemma sorted_join i k j p a1 a2 a3 : i <= k <= j -> permutes i (k - 1) a1 a2 -> permutes k j a2 a3 ->
  sorted i (k - 1) a2 -> sorted k j a3 -> (forall x, i <= x < k -> a1 !!! x < p) -> (forall x, k <= x <= j -> p <= a1 !!! x) ->
  sorted i j a3.
Proof.
  intros Hk P1 P2 S1 S2 K1 K2 x y Hx Hy.
  destruct (Z.lt_ge_cases y k) as [H|H]; [rewrite !(pm_rest _ _ _ _ P2) by lia; apply S1; lia|].
  destruct (Z.lt_ge_cases x k) as [H'|H']; [|apply S2; lia].
  assert (a3 !!! x < p).
  { rewrite (pm_rest _ _ _ _ P2) by lia. apply (permutes_all (fun v => v < p) i (k - 1) a1); [done|intros; apply K1; lia|lia]. }
  assert (p <= a3 !!! y); [|lia]. apply (permutes_all (fun v => p <= v) k j a2); [done| |lia].
  intros z Hz. rewrite (pm_rest _ _ _ _ P1) by lia. by apply K2.
Qed.

Lemma local_sort n : forall i j a, 0 <= i -> j < MAX_SORT_SIZE -> (0 < n)%nat -> j - i < Z.of_nat n -> exists a',
  LocalQuickSort n i j a = Ok (tt, a') /\ permutes i j a a' /\ (NoDup (seg a i j) -> sorted i j a').
Proof.
  induction n as [|n IH]; intros i j a Hi Hj Hpos Hn; [lia|]. cbn [LocalQuickSort]. destruct (Z.leb_spec j i) as [Hij|Hij].
  { exists a. split_and!; [done|done|]. intros _ x y Hx Hy. by replace x with y by lia. }
  destruct (split_run i j a ltac:(lia) Hj) as (p & k & a1 & R & P1 & Hk & K1 & K2 & Hlt).
  rewrite (R _ (fun k => if i <? k then _ else _)). destruct (Z.ltb_spec i k) as [Hik|Hik].
  - destruct (IH i (k - 1) a1) as (a2 & R2 & P2 & S2); [lia..|].
    destruct (IH k j a2) as (a3 & R3 & P3 & S3); [lia..|]. exists a3. split_and!.
    + by rewrite (bind_Ok _ _ _ _ _ R2), R3.
    + etrans; [exact P1|]. etrans; [apply (permutes_widen i (k - 1)); [lia|lia|exact P2]|].
      apply (permutes_widen k j); [lia|lia|exact P3].
    + intros Hnd. apply (permutes_nodup _ _ _ a1) in Hnd; [|exact P1].
      apply (sorted_join i k j p a1 a2 a3); try done; [apply S2, (nodup_part a1 i j); [done|lia..]|].
      apply S3. rewrite (seg_ext a1 a2) by (intros x Hx; apply (pm_rest _ _ _ _ P2); lia).
      apply (nodup_part a1 i j); [done|lia..].
  - destruct (IH (i + 1) j a1) as (a2 & R2 & P2 & _); [lia..|]. exists a2. split_and!; [done| |].
    + etrans; [exact P1|]. apply (permutes_widen (i + 1) j); [lia|lia|exact P2].
    + intros Hnd. exfalso. assert (i < k); [|lia]. apply Hlt. apply (nodup_neq a i j); [done|lia..].
Qed.

(** ** [BubbleSort] *)
Section Bubble.
Context (i j : Z) (Hi : 0 <= i) (Hj : j < MAX_SORT_SIZE).

(** The first [t] elements are in their places. *)
Definition placed (t : Z) (a : array) : Prop := forall u v, i <= u < i + t -> u <= v <= j -> a !!! u <= a !!! v.

(** [a !!! y] is the least of the elements from [y] on. *)
Definition least (y : Z) (a : array) : Prop := forall v, y <= v <= j -> a !!! y <= a !!! v.

Lemma bubble_step_run y a : i + 1 <= y <= j -> least y a -> exists a',
  bubble_step y a = Ok (tt, a') /\ permutes i j a a' /\ least (y - 1) a' /\ (forall t, placed t a -> placed t a') /\
  (a !!! (y - 1) <= a !!! y -> a' = a).
Proof.
  intros Hy Hl. assert (Hin : forall x, i <= x <= j -> in_A x = true) by (intros; by apply (in_part i j Hi Hj)).
  unfold bubble_step.
  rewrite (bind_Ok _ _ _ _ _ (load_run y a (Hin y ltac:(lia)))), (bind_Ok _ _ _ _ _ (load_run (y - 1) a (Hin (y - 1) ltac:(lia)))).
  destruct (Z.ltb_spec (a !!! y) (a !!! (y - 1))) as [Hs|Hs]; cbn [when].
  - rewrite swap_run by (apply Hin; lia). exists (swapped a y (y - 1)).
    assert (E : forall z, swapped a y (y - 1) !!! z = swapped a (y - 1) y !!! z) by (intros; apply swapped_comm).
    assert (P : permutes i j a (swapped a (y - 1) y)) by (apply swapped_permutes; lia).
    split_and!; [done| | | |lia].
    + destruct P as [P1 P2]. split; [rewrite <- P1; rewrite (seg_ext (swapped a (y - 1) y)); [done|by intros]|].
      intros x Hx. rewrite E. by apply P2.
    + intros v Hv. rewrite !E, !swapped_lookup. pose proof (Hl v). repeat case_decide; subst; lia.
    + intros t Ht u v Hu Hv. rewrite !E, !swapped_lookup.
      pose proof (Ht u v ltac:(lia) ltac:(lia)). pose proof (Ht u y). pose proof (Ht u (y - 1)).
      pose proof (Ht (y - 1) y). repeat case_decide; subst; lia.
  - exists a. split_and!; [done|done| |done|done]. intros v Hv. destruct (decide (v = y - 1)) as [->|]; [lia|].
    pose proof (Hl v ltac:(lia)). lia.
Qed.

(** The steps for [y] from [l + m] down to [l + 1]. *)
Lemma bubble_steps m : forall l a, i <= l -> l + Z.of_nat m <= j -> least (l + Z.of_nat m) a -> exists a',
  for_each bubble_step (reverse (seqZ (l + 1) (Z.of_nat m))) a = Ok (tt, a') /\ permutes i j a a' /\ least l a' /\
  (forall t, placed t a -> placed t a') /\ (placed (l + Z.of_nat m - i) a -> a' = a).
Proof.
  induction m as [|m IH]; intros l a Hl Hm Hle.
  { exists a. replace (l + Z.of_nat 0) with l in Hle by lia. rewrite seqZ_nil by lia. by split_and!. }
  replace (Z.of_nat (S m)) with (Z.of_nat m + 1) in * by lia.
  rewrite seqZ_app by lia. rewrite reverse_app. replace (seqZ (l + 1 + Z.of_nat m) 1) with [l + Z.of_nat m + 1].
  2:{ rewrite seqZ_cons by lia. rewrite seqZ_nil by lia. f_equal. lia. }
  change (reverse [?x]) with [x]. cbn [app for_each].
  destruct (bubble_step_run (l + Z.of_nat m + 1) a) as (a1 & R1 & P1 & L1 & T1 & N1); [lia| |].
  { by replace (l + Z.of_nat m + 1) with (l + (Z.of_nat m + 1)) by lia. }
  replace (l + Z.of_nat m + 1 - 1) with (l + Z.of_nat m) in * by lia.
  destruct (IH l a1 Hl) as (a2 & R2 & P2 & L2 & T2 & N2); [lia|done|].
  exists a2. split_and!; [by rewrite (bind_Ok _ _ _ _ _ R1)|by etrans|done|auto|].
  intros Hp. assert (E : a1 = a) by (apply N1, Hp; lia). rewrite N2; [done|]. rewrite E.
  intros u v Hu Hv. apply Hp; lia.
Qed.

Lemma bubble_pass_run t a : 0 <= t -> i + t <= j -> placed t a -> exists a',
  bubble_pass i j a = Ok (tt, a') /\ permutes i j a a' /\ placed (t + 1) a'.
Proof.
  intros Ht Hb Hp. unfold bubble_pass.
  replace (j - i) with (t + (j - i - t)) by lia. rewrite seqZ_app by lia. rewrite reverse_app, for_each_app.
  destruct (bubble_steps (Z.to_nat (j - i - t)) (i + t) a) as (a1 & R1 & P1 & L1 & T1 & _); [lia|lia| |].
  { intros v Hv. replace v with j by lia. replace (i + t + Z.of_nat (Z.to_nat (j - i - t))) with j by lia. lia. }
  rewrite Z2Nat.id in R1 by lia. replace (i + 1 + t) with (i + t + 1) by lia.
  assert (Hp1 : placed (t + 1) a1).
  { intros u v Hu Hv. destruct (decide (u = i + t)) as [->|]; [by apply L1|]. apply (T1 t Hp); lia. }
  destruct (bubble_steps (Z.to_nat t) i a1) as (a2 & R2 & P2 & _ & _ & N2); [lia|lia| |].
  { intros v Hv. apply Hp1; lia. }
  rewrite Z2Nat.id in R2 by lia. exists a2. rewrite (bind_Ok _ _ _ _ _ R1). split_and!; [done|by etrans|].
  rewrite N2; [done|]. intros u v Hu Hv. apply Hp1; lia.
Qed.

Lemma bubble_passes n : forall t l a, 0 <= t -> i + t + Z.of_nat n <= j -> placed t a -> length l = n -> exists a',
  for_each (fun _ : Z => bubble_pass i j) l a = Ok (tt, a') /\ permutes i j a a' /\ placed (t + Z.of_nat n) a'.
Proof.
  induction n as [|n IH]; intros t l a Ht Hn Hp Hl; (destruct l as [|x l]; [|]); try done.
  { exists a. split_and!; [done|done|]. by replace (t + Z.of_nat 0) with t by lia. }
  destruct (bubble_pass_run t a Ht ltac:(lia) Hp) as (a1 & R1 & P1 & T1).
  destruct (IH (t + 1) l a1) as (a2 & R2 & P2 & T2); [lia|lia|done|by injection Hl|].
  exists a2. cbn [for_each]. split_and!; [by rewrite (bind_Ok _ _ _ _ _ R1)|by etrans|].
  by replace (t + Z.of_nat (S n)) with (t + 1 + Z.of_nat n) by lia.
Qed.

Lemma bubble_sort a : i <= j -> exists a', BubbleSort i j a = Ok (tt, a') /\ permutes i j a a' /\ sorted i j a'.
Proof.
  intros Hij. destruct (bubble_passes (Z.to_nat (j - i)) 0 (seqZ i (j - i)) a) as (a' & R & P & T);
    [lia|lia|intros u v Hu Hv; lia|by rewrite length_seqZ|].
  exists a'. split_and!; [done|done|]. intros x y Hx Hy. destruct (decide (x = j)) as [->|]; [by replace y with j by lia|].
  apply T; lia.
Qed.
End Bubble.

(** C33: [LocalQuickSort] ends, within as many nested calls as the part has
    elements, without an access outside the array, whatever the elements are:
    afterwards the part has the same elements and the rest of the array is as
    before.  If the elements are distinct, as the program makes them, the part
    is sorted. *)
Theorem local_quicksort_sorts n i j a :
  0 <= i <= j -> j < MAX_SORT_SIZE -> j - i < Z.of_nat n -> exists a',
  LocalQuickSort n i j a = Ok (tt, a') /\ seg a' i j ≡ₚ seg a i j /\ (forall x, x < i \/ j < x -> a' !!! x = a !!! x) /\
  (NoDup (seg a i j) -> forall x y, i <= x <= y -> y <= j -> a' !!! x <= a' !!! y).
Proof.
  intros Hi Hj Hn. destruct (local_sort n i j a ltac:(lia) Hj ltac:(lia) Hn) as (a' & R & [P F] & S).
  by exists a'.
Qed.

Definition array_ex : array := list_to_map (zip (seqZ 0 6) [3; 0; 5; 1; 4; 2]).

Lemma local_quicksort_sorts_witness : exists a',
  LocalQuickSort 6 0 5 array_ex = Ok (tt, a') /\ seg a' 0 5 ≡ₚ seg array_ex 0 5 /\ 
  (forall x, x < 0 \/ 5 < x -> a' !!! x = array_ex !!! x) /\
  (forall x y, 0 <= x <= y -> y <= 5 -> a' !!! x <= a' !!! y).
Proof.
  destruct (local_quicksort_sorts 6 0 5 array_ex) as (a' & R & P & F & S); [lia|reflexivity|lia|].
  exists a'. split_and!; [exact R|exact P|exact F|]. apply S.
  apply (bool_decide_eq_true_1 (NoDup (seg array_ex 0 5))). vm_compute. reflexivity.
Defined.

(** With equal elements it need not be: no element is less than the pivot,
    and the first one is left where the exchange has put it. *)
Example equal_elements :
  match LocalQuickSort 3 0 2 (list_to_map (zip (seqZ 0 3) [1; 1; 5])) with Ok (_, a) => seg a 0 2 | _ => [] end = [5; 1; 1].
Proof. vm_compute. reflexivity. Qed.
