(* ===== verification/QsWorkers.v ===== *)
(** * Quicksort ([src/Tmk/apps/qs_c/src/QS.C]): the processes

    The processes share a stack of parts that have still to be sorted, under a
    lock.  A process takes a part, splits it until what it keeps is small, puts
    the other halves on the stack, and sorts the rest itself.  When the stack is
    empty it waits, and the last one to find it empty ends the program. *)
From S2P Require Import Prelude Arrays Qs.
Local Open Scope Z_scope.

Definition MAX_TASK_QUEUE : Z := 512.

(** [TaskElement]: two [unsigned]. *)
Abbreviation task := (Z * Z)%type.

(** [TaskStack] up to [TaskStackTop], the top first; [NumWaiting]; and the flag
    that [pauseSet] distributes to all processes while the lock is held. *)
Record shared : Type := Shared {
  TaskStack : list task;
  NumWaiting : Z;
  pause_flag : bool
}.

Definition TaskStackTop (s : shared) : Z := Z.of_nat (length (TaskStack s)).

(** [None]: the stack is full, and the program exits. *)
Definition PushWork (i j : Z) (s : shared) : option shared :=
  if TaskStackTop s =? MAX_TASK_QUEUE - 1 then None
  else Some (Shared ((u32 i, u32 j) :: TaskStack s) (NumWaiting s)
         (if TaskStackTop s + 1 =? 1 then true else pause_flag s)).

(** The outcome of [PopWork]: a task, the end, or the wait for the flag. *)
Inductive popped : Type := Popped (t : task) | DONE | Pause.

(** With the lock held, at the test of the [while] loop. *)
Definition PopWork (nprocs : Z) (s : shared) : popped * shared :=
  match TaskStack s with
  | t :: ts => (Popped t, Shared ts (NumWaiting s) (pause_flag s))
  | [] =>
      let w := u32 (NumWaiting s + 1) in
      if w =? nprocs then (DONE, Shared [] w true)
      else (Pause, Shared [] w (if w =? 1 then false else pause_flag s))
  end.

(** After the flag has been seen and the lock acquired again. *)
Definition PopWork_again (nprocs : Z) (s : shared) : popped * shared :=
  if NumWaiting s =? nprocs then (DONE, s)
  else PopWork nprocs (Shared (TaskStack s) (u32 (NumWaiting s - 1)) (pause_flag s)).

(** ** [QuickSort] *)
Section Program.
Context (size BubbleThresh : Z) (bubble : bool).

Definition small (i j : Z) : bool := j - i + 1 <? BubbleThresh.

Definition leaf (i j : Z) : M array unit :=
  if bubble then BubbleSort i j else LocalQuickSort (S (Z.to_nat (j - i))) i j.

(** The half that is put on the stack, and the one that is kept. *)
Definition halves (i j k : Z) : (Z * Z) * (Z * Z) :=
  if j - k <? k - i then ((k, j), (i, k - 1)) else ((i, k - 1), (k, j)).

Definition split (i j : Z) : M array ((Z * Z) * (Z * Z)) :=
  pivot ← FindPivot i j;
  x ← load pivot;
  k ← Partition i j x;
  mret (halves i j k).

(** ** [Worker]

    Where a process is: about to pop; waiting for the flag; past the flag; in
    [QuickSort(i, j)]; there, about to push the half [t]; or done. *)
Inductive pc : Type :=
  | Want
  | Paused
  | Resumed
  | Sorting (i j : Z)
  | Pushing (t : Z * Z) (i j : Z)
  | Finished.

Definition after_pop (o : popped) : pc :=
  match o with Popped (l, r) => Sorting (s32 l) (s32 r) | DONE => Finished | Pause => Paused end.

Record system : Type := System {
  sy_A : array;
  sy_shared : shared;
  sy_pcs : list pc
}.

Definition nprocs_of (s : system) : Z := Z.of_nat (length (sy_pcs s)).
Definition set_pc (p : nat) (x : pc) (s : system) : list pc := <[p := x]> (sy_pcs s).

(** The processes take turns in any order.  What is done under the lock is one
    step, and so is the work on a part of the array, which no other process
    touches. *)
Inductive step (s : system) : system -> Prop :=
  | step_pop p o sh : sy_pcs s !! p = Some Want -> PopWork (nprocs_of s) (sy_shared s) = (o, sh) ->
      step s (System (sy_A s) sh (set_pc p (after_pop o) s))
  | step_flag p : sy_pcs s !! p = Some Paused -> pause_flag (sy_shared s) = true ->
      step s (System (sy_A s) (sy_shared s) (set_pc p Resumed s))
  | step_again p o sh : sy_pcs s !! p = Some Resumed -> PopWork_again (nprocs_of s) (sy_shared s) = (o, sh) ->
      step s (System (sy_A s) sh (set_pc p (after_pop o) s))
  | step_leaf p i j A : sy_pcs s !! p = Some (Sorting i j) -> small i j = true -> leaf i j (sy_A s) = Ok (tt, A) ->
      step s (System A (sy_shared s) (set_pc p Want s))
  | step_split p i j t i' j' A : sy_pcs s !! p = Some (Sorting i j) -> small i j = false ->
      split i j (sy_A s) = Ok ((t, (i', j')), A) ->
      step s (System A (sy_shared s) (set_pc p (Pushing t i' j') s))
  | step_push p t i j sh : sy_pcs s !! p = Some (Pushing t i j) -> PushWork t.1 t.2 (sy_shared s) = Some sh ->
      step s (System (sy_A s) sh (set_pc p (Sorting i j) s)).

(** [main]: the whole array is on the stack, and all processes go to pop. *)
Definition start (A : array) (n : nat) : system :=
  System A (Shared [(u32 0, u32 (size - 1))] 0 true) (replicate n Want).
End Program.

(** ** The parts that are still to be sorted *)
Definition cells (rs : list (Z * Z)) : list Z := rs ≫= fun r => seqZ r.1 (r.2 - r.1 + 1).

Definition common (rs : list (Z * Z)) (x y : Z) : Prop := exists r, r ∈ rs /\ r.1 <= x /\ y <= r.2.

(** They are disjoint parts of the array, and two elements that are not both in
    one of them are in order. *)
Record parts (size : Z) (A : array) (rs : list (Z * Z)) : Prop := {
  pt_bounds : forall r, r ∈ rs -> 0 <= r.1 <= r.2 /\ r.2 < size;
  pt_disjoint : NoDup (cells rs);
  pt_order : forall x y, 0 <= x < y -> y < size -> common rs x y \/ A !!! x <= A !!! y
}.

Lemma elem_of_cells rs x : x ∈ cells rs <-> exists r, r ∈ rs /\ r.1 <= x <= r.2.
Proof.
  unfold cells. rewrite list_elem_of_bind. split.
  - intros (r & Hx & Hr). apply elem_of_seqZ in Hx. exists r. split; [done|lia].
  - intros (r & Hr & Hx). exists r. split; [apply elem_of_seqZ; lia|done].
Qed.

#[export] Instance cells_proper : Proper ((≡ₚ) ==> (≡ₚ)) cells.
Proof. intros rs rs' E. unfold cells. by rewrite E. Qed.

Lemma parts_perm size A rs rs' : rs ≡ₚ rs' -> parts size A rs -> parts size A rs'.
Proof.
  intros E [B D O]. split.
  - intros r Hr. apply B. by rewrite E.
  - by rewrite <- E.
  - intros x y Hx Hy. destruct (O x y Hx Hy) as [(r & Hr & H)|H]; [left|by right]. exists r. by rewrite <- E.
Qed.

#[export] Instance parts_proper size A : Proper ((≡ₚ) ==> iff) (parts size A).
Proof. intros rs rs' E. split; apply parts_perm; [done|by symmetry]. Qed.

(** One of the parts is permuted and gives way to parts of it. *)
Lemma parts_refine size A A' i j rs' rs : parts size A ((i, j) :: rs) -> permutes i j A A' ->
  (forall r, r ∈ rs' -> i <= r.1 <= r.2 /\ r.2 <= j) -> NoDup (cells rs') ->
  (forall x y, i <= x < y -> y <= j -> common rs' x y \/ A' !!! x <= A' !!! y) -> parts size A' (rs' ++ rs).
Proof.
  intros [B D O] [P F] B' D' O'. pose proof (B (i, j) ltac:(left)) as Hij. cbn in Hij.
  unfold cells in D. cbn in D. apply NoDup_app in D as (_ & Dis & D).
  assert (Hno : forall x r, i <= x <= j -> r ∈ rs -> ~ r.1 <= x <= r.2).
  { intros x r Hx Hr Hin. apply (Dis x); [apply elem_of_seqZ; lia|]. apply elem_of_cells. by exists r. }
  split.
  - intros r [Hr|Hr]%elem_of_app; [specialize (B' _ Hr); lia|]. apply B. by right.
  - unfold cells. rewrite bind_app. apply NoDup_app. split_and!; [done| |done].
    intros x (r & Hr & Hx)%elem_of_cells (r' & Hr' & Hx')%elem_of_cells. specialize (B' _ Hr). apply (Hno x r'); [lia|done|done].
  - intros x y Hx Hy. 
    assert (Hfrom : forall z, i <= z <= j -> exists z', i <= z' <= j /\ A' !!! z = A !!! z').
    { intros z Hz. assert (Hin : A' !!! z ∈ seg A i j) by (rewrite <- P; apply seg_elem; by exists z).
      apply seg_elem in Hin as (z' & Hz' & ->). by exists z'. }
    destruct (decide (i <= x <= j)) as [Hxr|Hxr], (decide (i <= y <= j)) as [Hyr|Hyr].
    + destruct (O' x y) as [(r & Hr & H)|H]; [lia..| |by right]. left. exists r. split; [apply elem_of_app; by left|done].
    + right. destruct (Hfrom x Hxr) as (z & Hz & ->). rewrite (F y) by lia.
      destruct (O z y) as [(r & [->|Hr]%elem_of_cons & H1 & H2)|H]; [lia|lia|cbn in *; lia| |done].
      exfalso. apply (Hno z r); [done|done|lia].
    + right. destruct (Hfrom y Hyr) as (z & Hz & ->). rewrite (F x) by lia.
      destruct (O x z) as [(r & [->|Hr]%elem_of_cons & H1 & H2)|H]; [lia|lia|cbn in *; lia| |done].
      exfalso. apply (Hno z r); [done|done|lia].
    + rewrite (F x), (F y) by lia. destruct (O x y Hx Hy) as [(r & [->|Hr]%elem_of_cons & H1 & H2)|H]; [cbn in *; lia| |by right].
      left. exists r. split; [apply elem_of_app; by right|done].
Qed.

(** ** What the processes hold *)
Definition part_of (t : task) : Z * Z := (s32 t.1, s32 t.2).

Definition pc_parts (x : pc) : list (Z * Z) :=
  match x with Sorting i j => [(i, j)] | Pushing t i j => [t; (i, j)] | _ => [] end.

(** The processes that [NumWaiting] counts. *)
Definition idle (x : pc) : list unit := match x with Paused | Resumed | Finished => [()] | _ => [] end.

Definition parts_of (s : system) : list (Z * Z) := (part_of <$> TaskStack (sy_shared s)) ++ (sy_pcs s ≫= pc_parts).

Definition waiting (l : list pc) : Z := Z.of_nat (length (l ≫= idle)).

(** One process changes what it holds; all the others keep it. *)
Lemma bind_insert {B} (f : pc -> list B) (l : list pc) p x : l !! p = Some x -> exists rest,
  l ≫= f ≡ₚ f x ++ rest /\ forall y, <[p := y]> l ≫= f ≡ₚ f y ++ rest.
Proof.
  intros H. exists ((take p l ≫= f) ++ (drop (S p) l ≫= f)). split; [|intros y].
  - rewrite <- (take_drop_middle l p x H) at 1. rewrite bind_app. cbn. apply Permutation_app_swap_app.
  - rewrite insert_take_drop by (by eapply lookup_lt_Some). rewrite bind_app. cbn. apply Permutation_app_swap_app.
Qed.

Lemma waiting_insert l p x y : l !! p = Some x ->
  waiting (<[p := y]> l) = waiting l - Z.of_nat (length (idle x)) + Z.of_nat (length (idle y)).
Proof.
  intros H. destruct (bind_insert idle l p x H) as (rest & E & E'). specialize (E' y). unfold waiting.
  apply Permutation_length in E, E'. rewrite length_app in E, E'. lia.
Qed.

Lemma waiting_le l : waiting l <= Z.of_nat (length l).
Proof. unfold waiting. induction l as [|x l IH]; [done|]. cbn [mbind list_bind]. rewrite length_app. destruct x; cbn in *; lia. Qed.

(** When all are counted, nobody is at work. *)
Lemma waiting_all l : waiting l = Z.of_nat (length l) -> forall x, x ∈ l -> idle x = [()].
Proof.
  unfold waiting. induction l as [|x l IH]; intros H y Hy; [by apply elem_of_nil in Hy|].
  pose proof (waiting_le l) as Hle. unfold waiting in Hle. cbn [mbind list_bind] in H, Hle. rewrite length_app in H. cbn [length] in H.
  apply elem_of_cons in Hy as [->|Hy]; [destruct x; cbn in *; [lia|done..|lia|lia|done]|]. apply IH; [|done]. destruct x; cbn in *; lia.
Qed.

Lemma waiting_some l : waiting l < Z.of_nat (length l) -> exists p x, l !! p = Some x /\ idle x = [].
Proof.
  unfold waiting. induction l as [|x l IH]; intros H; [cbn in H; lia|]. cbn [mbind list_bind] in H. rewrite length_app in H.
  destruct (idle x) eqn:E; [by exists 0%nat, x|]. destruct IH as (p & y & Hp & Hy); [cbn in *; lia|]. by exists (S p), y.
Qed.

Lemma s32_u32 z : 0 <= z < 2147483648 -> s32 (u32 z) = z.
Proof. intros H. unfold s32, u32. rewrite (Z.mod_small z) by lia. rewrite Z.mod_small; lia. Qed.

(** ** The work on a part *)
Lemma leaf_run bubble i j a : 0 <= i <= j -> j < MAX_SORT_SIZE -> NoDup (seg a i j) -> exists a',
  leaf bubble i j a = Ok (tt, a') /\ permutes i j a a' /\ sorted i j a'.
Proof.
  intros Hi Hj Hd. unfold leaf. destruct bubble; [apply bubble_sort; lia|].
  destruct (local_sort (S (Z.to_nat (j - i))) i j a) as (a' & R & P & S); [lia..|]. exists a'. split_and!; auto.
Qed.

Lemma split_part i j a : 0 <= i < j -> j < MAX_SORT_SIZE -> NoDup (seg a i j) -> exists k a',
  split i j a = Ok (halves i j k, a') /\ permutes i j a a' /\ i < k <= j /\
  (forall x y, i <= x < k -> k <= y <= j -> a' !!! x <= a' !!! y).
Proof.
  intros Hi Hj Hd. destruct (split_run i j a Hi Hj) as (p & k & a' & R & P & Hk & K1 & K2 & Hlt).
  exists k, a'. split_and!; [unfold split; by rewrite R|done| |lia|].
  - apply Hlt, (nodup_neq a i j); [done|lia..].
  - intros x y Hx Hy. specialize (K1 x Hx). specialize (K2 y Hy). lia.
Qed.

Lemma halves_cases i j k : halves i j k = ((k, j), (i, k - 1)) \/ halves i j k = ((i, k - 1), (k, j)).
Proof. unfold halves. destruct (_ <? _); auto. Qed.

Lemma halves_parts i j k (a : array) : i < k <= j -> (forall x y, i <= x < k -> k <= y <= j -> a !!! x <= a !!! y) ->
  let rs := [(halves i j k).1; (halves i j k).2] in
  (forall r, r ∈ rs -> i <= r.1 <= r.2 /\ r.2 <= j) /\ NoDup (cells rs) /\
  (forall u v, i <= u < v -> v <= j -> common rs u v \/ a !!! u <= a !!! v).
Proof.
  intros Hk Ho. 
  assert (Hmain : let rs := [(i, k - 1); (k, j)] in (forall r, r ∈ rs -> i <= r.1 <= r.2 /\ r.2 <= j) /\ NoDup (cells rs) /\
    (forall u v, i <= u < v -> v <= j -> common rs u v \/ a !!! u <= a !!! v)).
  { cbn. split_and!.
    - intros r Hr. apply elem_of_cons in Hr as [-> |Hr]; [cbn; lia|]. apply list_elem_of_singleton in Hr as ->. cbn. lia.
    - unfold cells. cbn. rewrite app_nil_r. replace (k - 1 - i + 1) with (k - i) by lia.
      replace (seqZ k (j - k + 1)) with (seqZ (i + (k - i)) (j - k + 1)) by (f_equal; lia).
      rewrite <- seqZ_app by lia. apply NoDup_seqZ.
    - intros u v Hu Hv. destruct (Z.lt_ge_cases v k); [left; exists (i, k - 1); split; [left|cbn; lia]|].
      destruct (Z.lt_ge_cases u k); [right; apply Ho; lia|]. left. exists (k, j). split; [right; left|cbn; lia]. }
  destruct (halves_cases i j k) as [-> | ->]; [|done]. cbn [fst snd]. destruct Hmain as (H1 & H2 & H3).
  assert (E : [(k, j); (i, k - 1)] ≡ₚ [(i, k - 1); (k, j)]) by constructor. cbn zeta. split_and!.
  - intros r Hr. rewrite E in Hr. by apply H1.
  - by rewrite E.
  - intros u v Hu Hv. destruct (H3 u v Hu Hv) as [(r & Hr & Huv)|]; [left|by right]. exists r. by rewrite E.
Qed.

(** ** The invariant *)
Section Invariant.
Context (size BubbleThresh : Z) (bubble : bool) (n : nat) (A0 : array).
Context (Hsize : 1 <= size <= MAX_SORT_SIZE) (Hthresh : 2 <= BubbleThresh) (Hn : 0 < Z.of_nat n < 4294967296).
Context (Hdistinct : NoDup (seg A0 0 (size - 1))).

Record system_inv (s : system) : Prop := {
  si_len : length (sy_pcs s) = n;
  si_perm : permutes 0 (size - 1) A0 (sy_A s);
  si_parts : parts size (sy_A s) (parts_of s);
  si_wait : NumWaiting (sy_shared s) = waiting (sy_pcs s);
  si_flag : pause_flag (sy_shared s) = false -> TaskStack (sy_shared s) = [];
  si_done : NumWaiting (sy_shared s) = Z.of_nat n ->
    TaskStack (sy_shared s) = [] /\ pause_flag (sy_shared s) = true /\ Finished ∈ sy_pcs s;
  si_fin : Finished ∈ sy_pcs s -> NumWaiting (sy_shared s) = Z.of_nat n
}.

Lemma start_inv : system_inv (start size A0 n).
Proof.
  assert (E : replicate n Want ≫= pc_parts = []) by (clear; induction n; [done|]; done).
  assert (Ew : waiting (replicate n Want) = 0) by (unfold waiting; clear; induction n; [done|]; done).
  split; cbn.
  - apply length_replicate.
  - done.
  - unfold parts_of. cbn. rewrite E. unfold part_of. cbn. rewrite !s32_u32 by (unfold MAX_SORT_SIZE in *; lia). split.
    + intros r ->%list_elem_of_singleton. cbn. lia.
    + unfold cells. cbn. rewrite app_nil_r. apply NoDup_seqZ.
    + intros x y Hx Hy. left. exists (0, size - 1). cbn. split; [by left|lia].
  - by rewrite Ew.
  - done.
  - lia.
  - intros H%elem_of_replicate. naive_solver.
Qed.

Lemma parts_move s p x : sy_pcs s !! p = Some x -> exists rest,
  parts_of s ≡ₚ (part_of <$> TaskStack (sy_shared s)) ++ pc_parts x ++ rest /\
  forall A sh y, parts_of (System A sh (set_pc p y s)) ≡ₚ (part_of <$> TaskStack sh) ++ pc_parts y ++ rest.
Proof.
  intros Hp. destruct (bind_insert pc_parts _ _ _ Hp) as (rest & E & E'). exists rest. unfold parts_of, set_pc. cbn.
  split; [by rewrite E|]. intros A sh y. by rewrite E'.
Qed.

(** Process [p] goes from [x] to [y]. *)
Lemma inv_move s p x A sh y : system_inv s -> sy_pcs s !! p = Some x -> x <> Finished ->
  permutes 0 (size - 1) (sy_A s) A -> parts size A (parts_of (System A sh (set_pc p y s))) ->
  NumWaiting sh = NumWaiting (sy_shared s) - Z.of_nat (length (idle x)) + Z.of_nat (length (idle y)) ->
  (pause_flag sh = false -> TaskStack sh = []) ->
  (NumWaiting sh = Z.of_nat n -> TaskStack sh = [] /\ pause_flag sh = true /\ (y = Finished \/ NumWaiting (sy_shared s) = Z.of_nat n)) ->
  (y = Finished \/ NumWaiting (sy_shared s) = Z.of_nat n -> NumWaiting sh = Z.of_nat n) ->
  system_inv (System A sh (set_pc p y s)).
Proof.
  intros H Hp Hx HA Hparts Hw Hflag Hdone Hfin. pose proof (lookup_lt_Some _ _ _ Hp) as Hlt. split; cbn.
  - unfold set_pc. rewrite length_insert. apply H.
  - etrans; [apply (si_perm s H)|done].
  - done.
  - unfold set_pc. rewrite (waiting_insert _ _ _ _ Hp), <- (si_wait s H). done.
  - done.
  - intros E. destruct (Hdone E) as (H1 & H2 & H3). split_and!; [done..|]. unfold set_pc. destruct H3 as [->|H3].
    + apply (list_elem_of_lookup_2 _ p). by apply list_lookup_insert_eq.
    + destruct (si_done s H H3) as (_ & _ & (q & Hq)%list_elem_of_lookup_1). apply (list_elem_of_lookup_2 _ q).
      rewrite list_lookup_insert_ne; [done|]. intros ->. rewrite Hp in Hq. congruence.
  - unfold set_pc. intros (q & Hq)%list_elem_of_lookup_1. apply Hfin. destruct (decide (p = q)) as [<-|Hne].
    + rewrite list_lookup_insert_eq in Hq by done. left. congruence.
    + rewrite list_lookup_insert_ne in Hq by done. right. apply (si_fin s H). by eapply list_elem_of_lookup_2.
Qed.

Lemma waiting_bounds s : system_inv s -> 0 <= NumWaiting (sy_shared s) <= Z.of_nat n.
Proof. intros H. rewrite (si_wait s H), <- (si_len s H). split; [unfold waiting; lia|apply waiting_le]. Qed.

(** A process at work: not all are counted as waiting. *)
Lemma busy s p x : system_inv s -> sy_pcs s !! p = Some x -> idle x = [] -> NumWaiting (sy_shared s) < Z.of_nat n.
Proof.
  intros H Hp Hx. pose proof (waiting_bounds s H). destruct (decide (NumWaiting (sy_shared s) = Z.of_nat n)) as [E|]; [|lia].
  rewrite (si_wait s H), <- (si_len s H) in E. apply list_elem_of_lookup_2 in Hp. rewrite (waiting_all _ E _ Hp) in Hx. done.
Qed.

(** [PopWork], by a process that is no longer counted. *)
Lemma pop_work_inv s p x sh0 o sh : system_inv s -> sy_pcs s !! p = Some x -> x = Want \/ x = Resumed ->
  NumWaiting (sy_shared s) <> Z.of_nat n ->
  sh0 = Shared (TaskStack (sy_shared s)) (NumWaiting (sy_shared s) - Z.of_nat (length (idle x))) (pause_flag (sy_shared s)) ->
  PopWork (Z.of_nat n) sh0 = (o, sh) -> system_inv (System (sy_A s) sh (set_pc p (after_pop o) s)).
Proof.
  intros H Hp Hx Hnw -> Hpop. pose proof (waiting_bounds s H) as Hb.
  assert (Hpos : 0 <= NumWaiting (sy_shared s) - Z.of_nat (length (idle x)) < Z.of_nat n).
  { assert (0 <= waiting (<[p := Want]> (sy_pcs s))) as Hw by (unfold waiting; lia).
    rewrite (waiting_insert _ _ _ _ Hp), <- (si_wait s H) in Hw. cbn in Hw. lia. }
  destruct (parts_move s p x Hp) as (rest & E & E').
  assert (Epc : pc_parts x = []) by (by destruct Hx as [->| ->]). assert (Hxf : x <> Finished) by (by destruct Hx as [->| ->]).
  unfold PopWork in Hpop. cbn in Hpop. pose proof (si_flag s H) as Hfl. rewrite Epc in E.
  pose proof (si_parts s H) as Hparts. rewrite E in Hparts.
  destruct (TaskStack (sy_shared s)) as [|[l r] ts] eqn:Es.
  - unfold u32 in Hpop. rewrite Z.mod_small in Hpop by lia.
    destruct (Z.eqb_spec (NumWaiting (sy_shared s) - Z.of_nat (length (idle x)) + 1) (Z.of_nat n)) as [Hd|Hd]; injection Hpop as <- <-.
    + apply (inv_move s p x); try done; [by rewrite E'|]. cbn. intros _. split_and!; [done..|by left].
    + apply (inv_move s p x); try done; [by rewrite E'|cbn; intros [?|?]; [done|lia]].
  - injection Hpop as <- <-. apply (inv_move s p x); try done.
    + rewrite E'. cbn. rewrite <- Permutation_middle. exact Hparts.
    + cbn. lia.
    + cbn. intros Hf. by specialize (Hfl Hf).
    + cbn. lia.
    + cbn. intros [?|?]; [done|lia].
Qed.

(** The work of a process on its part. *)
Lemma work_inv s p i j A y rs' : system_inv s -> sy_pcs s !! p = Some (Sorting i j) -> permutes i j (sy_A s) A ->
  idle y = [] -> y <> Finished -> pc_parts y = rs' -> (forall r, r ∈ rs' -> i <= r.1 <= r.2 /\ r.2 <= j) -> NoDup (cells rs') ->
  (forall u v, i <= u < v -> v <= j -> common rs' u v \/ A !!! u <= A !!! v) ->
  system_inv (System A (sy_shared s) (set_pc p y s)).
Proof.
  intros H Hp HA Hi Hy <- Hb Hd Ho. destruct (parts_move s p _ Hp) as (rest & E & E').
  pose proof (busy s p _ H Hp eq_refl) as Hbusy. pose proof (si_parts s H) as Hparts. rewrite E in Hparts. cbn in Hparts.
  rewrite <- Permutation_middle in Hparts. pose proof (pt_bounds _ _ _ Hparts (i, j) ltac:(left)) as Hij. cbn in Hij.
  apply (inv_move s p (Sorting i j)); try done.
  - apply (permutes_widen i j); [lia|lia|done].
  - rewrite E'. cbn. rewrite Permutation_app_swap_app. by apply (parts_refine size (sy_A s) A i j).
  - rewrite Hi. cbn. lia.
  - apply (si_flag s H).
  - lia.
  - intros [?|?]; [done|lia].
Qed.

(** The part of a process, inside the array. *)
Lemma sorting_bounds s p i j : system_inv s -> sy_pcs s !! p = Some (Sorting i j) -> 0 <= i <= j /\ j < size.
Proof.
  intros H Hp. destruct (parts_move s p _ Hp) as (rest & E & _). pose proof (si_parts s H) as Hparts. rewrite E in Hparts.
  apply (pt_bounds _ _ _ Hparts (i, j)). apply elem_of_app. right. left.
Qed.

Lemma distinct s i j : system_inv s -> 0 <= i -> j < size -> NoDup (seg (sy_A s) i j).
Proof.
  intros H Hi Hj. apply (nodup_part _ 0 (size - 1)); [|lia..]. apply (permutes_nodup _ _ A0); [apply (si_perm s H)|done].
Qed.

Lemma worker_step_inv s s' : system_inv s -> step BubbleThresh bubble s s' -> system_inv s'.
Proof.
  intros H Hs. destruct Hs as [p o sh Hp Hpop|p Hp Hf|p o sh Hp Hpop|p i j A Hp Hsm Hl|p i j t i' j' A Hp Hsm Hsp|p t i j sh Hp Hpush].
  - unfold nprocs_of in Hpop. rewrite (si_len s H) in Hpop.
    apply (pop_work_inv s p Want (sy_shared s) o sh); [done|done|by left| | |done].
    + pose proof (busy s p _ H Hp eq_refl). lia.
    + destruct (sy_shared s). cbn. f_equal. lia.
  - destruct (parts_move s p _ Hp) as (rest & E & E'). pose proof (si_parts s H) as Hparts. rewrite E in Hparts.
    apply (inv_move s p Paused); try done; [by rewrite E'|cbn; lia|by rewrite Hf| |by intros [|]].
    intros Hd. destruct (si_done s H Hd) as (? & ? & _). auto.
  - unfold nprocs_of in Hpop. rewrite (si_len s H) in Hpop. unfold PopWork_again in Hpop.
    destruct (Z.eqb_spec (NumWaiting (sy_shared s)) (Z.of_nat n)) as [Hd|Hd].
    + injection Hpop as <- <-. destruct (parts_move s p _ Hp) as (rest & E & E'). pose proof (si_parts s H) as Hparts. rewrite E in Hparts.
      destruct (si_done s H Hd) as (? & ? & _). apply (inv_move s p Resumed); try done; [by rewrite E'|cbn; lia|].
      auto.
    + pose proof (waiting_bounds s H) as Hb. apply (pop_work_inv s p Resumed _ o sh H Hp (or_intror eq_refl) Hd eq_refl).
      rewrite <- Hpop. do 2 f_equal. unfold u32. cbn. rewrite Z.mod_small; [done|].
      assert (0 <= waiting (<[p := Want]> (sy_pcs s))) as Hw by (unfold waiting; lia).
      rewrite (waiting_insert _ _ _ _ Hp), <- (si_wait s H) in Hw. cbn in Hw. lia.
  - destruct (sorting_bounds s p i j H Hp) as [Hi Hj].
    destruct (leaf_run bubble i j (sy_A s)) as (a' & R & P & S); [lia|lia|by apply distinct; [|lia|]|].
    rewrite Hl in R. injection R as <-. apply (work_inv s p i j A Want []); try done.
    + intros r []%elem_of_nil.
    + constructor.
    + intros u v Hu Hv. right. apply S; lia.
  - destruct (sorting_bounds s p i j H Hp) as [Hi Hj]. unfold small in Hsm.
    destruct (split_part i j (sy_A s)) as (k & a' & R & P & Hk & Ho); [lia|lia|by apply distinct; [|lia|]|].
    rewrite Hsp in R. injection R as Eh <-. destruct (halves_parts i j k A Hk Ho) as (B & D & O). rewrite <- Eh in B, D, O. cbn in B, D, O.
    by apply (work_inv s p i j A _ [t; (i', j')]).
  - destruct (parts_move s p _ Hp) as (rest & E & E'). pose proof (si_parts s H) as Hparts. rewrite E in Hparts.
    pose proof (busy s p _ H Hp eq_refl) as Hbusy.
    unfold PushWork in Hpush. destruct (_ =? _); [done|]. injection Hpush as <-. apply (inv_move s p (Pushing t i j)); try done.
    + rewrite E'. cbn. pose proof (pt_bounds _ _ _ Hparts t) as Ht. destruct Ht as [Ht1 Ht2]; [apply elem_of_app; right; left|].
      unfold part_of at 1. cbn. rewrite !s32_u32 by (unfold MAX_SORT_SIZE in *; lia). destruct t as [l r]. cbn in *.
      rewrite <- Permutation_middle in Hparts. exact Hparts.
    + cbn. lia.
    + cbn. unfold TaskStackTop. intros Hf. destruct (Z.eqb_spec (Z.of_nat (length (TaskStack (sy_shared s))) + 1) 1) as [|Hz]; [done|].
      rewrite (si_flag s H Hf) in Hz. cbn in Hz. lia.
    + cbn. lia.
    + cbn. intros [?|?]; [done|lia].
Qed.
End Invariant.

Section Reach.
Context (size BubbleThresh : Z) (bubble : bool) (n : nat) (A0 : array).
Context (Hsize : 1 <= size <= MAX_SORT_SIZE) (Hthresh : 2 <= BubbleThresh) (Hn : 0 < Z.of_nat n < 4294967296).
Context (Hdistinct : NoDup (seg A0 0 (size - 1))).

Lemma workers_reachable_inv s : rtc (step BubbleThresh bubble) (start size A0 n) s -> system_inv size n A0 s.
Proof.
  revert s. apply (rtc_ind_r (R := step BubbleThresh bubble) (fun s => system_inv size n A0 s)); [by apply start_inv|].
  intros s1 s2 _ Hs Hi. by eapply worker_step_inv.
Qed.

(** A process that is not done can take a step. *)
Lemma can_step s p x : system_inv size n A0 s -> sy_pcs s !! p = Some x -> idle x = [] ->
  (exists s', step BubbleThresh bubble s s') \/
  exists t i j, x = Pushing t i j /\ PushWork t.1 t.2 (sy_shared s) = None.
Proof.
  intros H Hp Hx. destruct x as [| | |i j|t i j|]; try done.
  - left. destruct (PopWork (nprocs_of s) (sy_shared s)) as [o sh] eqn:E. eexists. by eapply step_pop.
  - left. destruct (sorting_bounds size n A0 s p i j H Hp) as [Hi Hj].
    pose proof (distinct size n A0 Hdistinct s i j H ltac:(lia) Hj) as Hd.
    destruct (small BubbleThresh i j) eqn:Hs.
    + destruct (leaf_run bubble i j (sy_A s)) as (a' & R & _); [lia|lia|done|]. eexists. by eapply step_leaf.
    + unfold small in Hs. destruct (split_part i j (sy_A s)) as (k & a' & R & _); [lia|lia|done|].
      destruct (halves i j k) as [t [i' j']]. eexists. eapply step_split; [done|unfold small; lia|done].
  - destruct (PushWork t.1 t.2 (sy_shared s)) as [sh|] eqn:E; [left; eexists; by eapply step_push|right; eauto].
Qed.
End Reach.

Lemma nodup_cells_apart rs a b r r' : NoDup (cells rs) -> rs !! a = Some r -> rs !! b = Some r' -> a <> b ->
  r.1 <= r.2 -> r'.1 <= r'.2 -> r.2 < r'.1 \/ r'.2 < r.1.
Proof.
  intros Hd Ha Hb Hne Hr Hr'. assert (E : exists rest, rs ≡ₚ r :: r' :: rest).
  { assert (Hx : exists b', delete a rs !! b' = Some r').
    { destruct (decide (b < a)%nat); [exists b; by rewrite list_lookup_delete_lt|].
      exists (pred b). rewrite list_lookup_delete_ge by lia. by replace (S (pred b)) with b by lia. }
    destruct Hx as [b' Hb2]. exists (delete b' (delete a rs)). rewrite <- (delete_Permutation _ _ _ Hb2). by apply delete_Permutation. }
  destruct E as [rest E]. rewrite E in Hd. unfold cells in Hd. cbn in Hd. apply NoDup_app in Hd as (_ & Hd & _).
  destruct (Z.lt_ge_cases r.2 r'.1); [by left|]. destruct (Z.lt_ge_cases r'.2 r.1); [by right|]. exfalso.
  apply (Hd (Z.max r.1 r'.1)); [apply elem_of_seqZ; lia|]. apply elem_of_app. left. apply elem_of_seqZ. lia.
Qed.

(** C22: When a process of the quicksort program leaves its loop, whatever turns
    the processes have taken, the shared array is sorted and has the elements
    it had at the start; the stack is empty and no process is at work: each
    has left its loop too, or waits and will be told that it is over. *)
Theorem workers_sort size BubbleThresh bubble n A0 s :
  1 <= size <= MAX_SORT_SIZE -> 2 <= BubbleThresh -> (2 <= n)%nat -> Z.of_nat n < 4294967296 -> NoDup (seg A0 0 (size - 1)) ->
  rtc (step BubbleThresh bubble) (start size A0 n) s -> Finished ∈ sy_pcs s ->
  (forall x y, 0 <= x <= y -> y < size -> sy_A s !!! x <= sy_A s !!! y) /\
  seg (sy_A s) 0 (size - 1) ≡ₚ seg A0 0 (size - 1) /\
  TaskStack (sy_shared s) = [] /\
  forall x, x ∈ sy_pcs s -> x = Finished \/ x = Resumed \/ x = Paused /\ pause_flag (sy_shared s) = true.
Proof.
  intros Hsize Hb Hn1 Hn2 Hd Hr Hf. assert (Hn : 0 < Z.of_nat n < 4294967296) by lia.
  pose proof (workers_reachable_inv size BubbleThresh bubble n A0 Hsize Hb Hn Hd s Hr) as H.
  pose proof (si_fin _ _ _ _ H Hf) as E. destruct (si_done _ _ _ _ H E) as (Es & Ef & _).
  rewrite (si_wait _ _ _ _ H), <- (si_len _ _ _ _ H) in E. pose proof (waiting_all _ E) as Hall.
  assert (Ep : parts_of s = []).
  { unfold parts_of. rewrite Es. cbn. clear -Hall. induction (sy_pcs s) as [|x l IH]; [done|]. cbn. rewrite IH by (intros; apply Hall; by right).
    pose proof (Hall x ltac:(left)) as Hx. by destruct x. }
  pose proof (si_parts _ _ _ _ H) as Hp. rewrite Ep in Hp. split_and!.
  - intros x y Hx Hy. destruct (decide (x = y)) as [->|]; [done|]. destruct (pt_order _ _ _ Hp x y) as [(r & []%elem_of_nil & _)|]; [lia|lia|done].
  - apply (pm_seg _ _ _ _ (si_perm _ _ _ _ H)).
  - done.
  - intros x Hx. pose proof (Hall x Hx). destruct x; try done; auto.
Qed.

(** No two of the tasks on the stack and the parts that the processes
    work on overlap, so no process reads or writes an element that another one
    is sorting, and all of them lie inside the array. *)
Theorem workers_apart size BubbleThresh bubble n A0 s a b r r' :
  1 <= size <= MAX_SORT_SIZE -> 2 <= BubbleThresh -> (2 <= n)%nat -> Z.of_nat n < 4294967296 -> NoDup (seg A0 0 (size - 1)) ->
  rtc (step BubbleThresh bubble) (start size A0 n) s ->
  parts_of s !! a = Some r -> parts_of s !! b = Some r' -> a <> b ->
  0 <= r.1 <= r.2 /\ r.2 < size /\ 0 <= r'.1 <= r'.2 /\ r'.2 < size /\ (r.2 < r'.1 \/ r'.2 < r.1).
Proof.
  intros Hsize Hb Hn1 Hn2 Hd Hr Ha Hb' Hne. assert (Hn : 0 < Z.of_nat n < 4294967296) by lia.
  pose proof (workers_reachable_inv size BubbleThresh bubble n A0 Hsize Hb Hn Hd s Hr) as H. pose proof (si_parts _ _ _ _ H) as [B D _].
  pose proof (B _ (list_elem_of_lookup_2 _ _ _ Ha)) as [? ?]. pose proof (B _ (list_elem_of_lookup_2 _ _ _ Hb')) as [? ?].
  split_and!; [lia..|]. apply (nodup_cells_apart _ a b _ _ D); [done..|lia|lia].
Qed.

(** C32: The quicksort processes never block each other: as long as one of them
    has not left its loop some process can take a step, unless one has to put a
    part on the stack when the stack is full, which ends the program with an
    error. *)
Theorem workers_no_deadlock size BubbleThresh bubble n A0 s p x :
  1 <= size <= MAX_SORT_SIZE -> 2 <= BubbleThresh -> (2 <= n)%nat -> Z.of_nat n < 4294967296 -> NoDup (seg A0 0 (size - 1)) ->
  rtc (step BubbleThresh bubble) (start size A0 n) s -> sy_pcs s !! p = Some x -> x <> Finished ->
  (exists s', step BubbleThresh bubble s s') \/
  exists q t i j, sy_pcs s !! q = Some (Pushing t i j) /\ TaskStackTop (sy_shared s) = MAX_TASK_QUEUE - 1.
Proof.
  intros Hsize Hb Hn1 Hn2 Hd Hr Hp Hx. assert (Hn : 0 < Z.of_nat n < 4294967296) by lia.
  pose proof (workers_reachable_inv size BubbleThresh bubble n A0 Hsize Hb Hn Hd s Hr) as H.
  destruct (decide (NumWaiting (sy_shared s) = Z.of_nat n)) as [E|E].
  - left. destruct (si_done _ _ _ _ H E) as (_ & Ef & _). rewrite (si_wait _ _ _ _ H), <- (si_len _ _ _ _ H) in E.
    pose proof (waiting_all _ E x (list_elem_of_lookup_2 _ _ _ Hp)) as Hi. destruct x; try done.
    + eexists. by eapply step_flag.
    + destruct (PopWork_again (nprocs_of s) (sy_shared s)) as [o sh] eqn:Eo. eexists. by eapply step_again.
  - pose proof (waiting_bounds _ _ _ _ H) as Hw. rewrite (si_wait _ _ _ _ H) in E, Hw. rewrite <- (si_len _ _ _ _ H) in E, Hw.
    destruct (waiting_some (sy_pcs s)) as (q & y & Hq & Hy); [lia|].
    destruct (can_step size BubbleThresh bubble n A0 Hsize Hb Hd s q y H Hq Hy) as [?|(t & i & j & -> & Hf)]; [by left|right].
    exists q, t, i, j. split; [done|]. unfold PushWork in Hf. destruct (Z.eqb_spec (TaskStackTop (sy_shared s)) (MAX_TASK_QUEUE - 1)); done.
Qed.

(** ** Executions

    The turn of process [p], if it can take one. *)
Definition turn (BubbleThresh : Z) (bubble : bool) (p : nat) (s : system) : option system :=
  let pop r := Some (System (sy_A s) r.2 (set_pc p (after_pop r.1) s)) in
  match sy_pcs s !! p with
  | Some Want => pop (PopWork (nprocs_of s) (sy_shared s))
  | Some Resumed => pop (PopWork_again (nprocs_of s) (sy_shared s))
  | Some Paused => if pause_flag (sy_shared s) then Some (System (sy_A s) (sy_shared s) (set_pc p Resumed s)) else None
  | Some (Sorting i j) =>
      if small BubbleThresh i j then
        match leaf bubble i j (sy_A s) with Ok (_, A) => Some (System A (sy_shared s) (set_pc p Want s)) | _ => None end
      else match split i j (sy_A s) with
        | Ok ((t, (i', j')), A) => Some (System A (sy_shared s) (set_pc p (Pushing t i' j') s))
        | _ => None
        end
  | Some (Pushing t i j) =>
      sh ← PushWork t.1 t.2 (sy_shared s);
      Some (System (sy_A s) sh (set_pc p (Sorting i j) s))
  | _ => None
  end.

Lemma turn_step BubbleThresh bubble p s s' : turn BubbleThresh bubble p s = Some s' -> step BubbleThresh bubble s s'.
Proof.
  unfold turn. destruct (sy_pcs s !! p) as [[| | |i j|t i j|]|] eqn:Hp; intros H; try done.
  - injection H as <-. eapply step_pop; [done|apply surjective_pairing].
  - destruct (pause_flag _) eqn:Hf; [|done]. injection H as <-. by eapply step_flag.
  - injection H as <-. eapply step_again; [done|apply surjective_pairing].
  - destruct (small _ i j) eqn:Hs.
    + destruct (leaf bubble i j _) as [[[] A]| | |] eqn:Hl; try done. injection H as <-. by eapply step_leaf.
    + destruct (split i j _) as [[[t [i' j']] A]| | |] eqn:Hl; try done. injection H as <-. by eapply step_split.
  - apply bind_Some in H as (sh & Hpush & [= <-]). by eapply step_push.
Qed.

(** Turns in the order of [l]; who cannot take its turn misses it. *)
Definition turns (BubbleThresh : Z) (bubble : bool) (l : list nat) (s : system) : system :=
  foldl (fun s p => default s (turn BubbleThresh bubble p s)) s l.

Lemma turns_rtc BubbleThresh bubble l s : rtc (step BubbleThresh bubble) s (turns BubbleThresh bubble l s).
Proof.
  revert s. induction l as [|p l IH]; intros s; [done|]. unfold turns. cbn [foldl]. etrans; [|apply IH].
  destruct (turn BubbleThresh bubble p s) as [s'|] eqn:E; [|done]. cbn. apply rtc_once. by apply turn_step in E.
Qed.

Definition three : array := list_to_map (zip (seqZ 0 3) [2; 0; 1]).
Definition two_workers (rounds : nat) : system := turns 2 false (concat (replicate rounds [0%nat; 1%nat])) (start 3 three 2).

Lemma three_distinct : NoDup (seg three 0 (3 - 1)).
Proof. apply (bool_decide_eq_true_1 (NoDup (seg three 0 (3 - 1)))). vm_compute. reflexivity. Qed.

Example two_workers_done : let s := two_workers 12 in
  seg (sy_A s) 0 2 = [0; 1; 2] /\ sy_pcs s = [Finished; Finished] /\ NumWaiting (sy_shared s) = 2.
Proof. vm_compute. done. Qed.

Lemma workers_sort_witness : let s := two_workers 8 in
  (forall x y, 0 <= x <= y -> y < 3 -> sy_A s !!! x <= sy_A s !!! y) /\
  seg (sy_A s) 0 2 ≡ₚ seg three 0 2 /\ TaskStack (sy_shared s) = [] /\
  forall x, x ∈ sy_pcs s -> x = Finished \/ x = Resumed \/ x = Paused /\ pause_flag (sy_shared s) = true.
Proof.
  apply (workers_sort 3 2 false 2 three (two_workers 8)); [unfold MAX_SORT_SIZE; lia|lia|lia|lia|exact three_distinct|apply turns_rtc|].
  apply (list_elem_of_lookup_2 _ 1). vm_compute. reflexivity.
Defined.

Lemma workers_apart_witness : let s := two_workers 3 in
  parts_of s !! 0%nat = Some (2, 2) /\ parts_of s !! 1%nat = Some (0, 1) /\
  (0 <= 2 <= 2 /\ 2 < 3 /\ 0 <= 0 <= 1 /\ 1 < 3 /\ (2 < 0 \/ 1 < 2)).
Proof.
  assert (E0 : parts_of (two_workers 3) !! 0%nat = Some (2, 2)) by (vm_compute; reflexivity).
  assert (E1 : parts_of (two_workers 3) !! 1%nat = Some (0, 1)) by (vm_compute; reflexivity).
  split; [exact E0|]. split; [exact E1|].
  apply (workers_apart 3 2 false 2 three (two_workers 3) 0 1 (2, 2) (0, 1)); [unfold MAX_SORT_SIZE; lia|lia|lia|lia|exact three_distinct|apply turns_rtc|exact E0|exact E1|lia].
Defined.

Lemma workers_no_deadlock_witness : let s := two_workers 2 in sy_pcs s !! 1%nat = Some Paused /\
  ((exists s', step 2 false s s') \/
   exists q t i j, sy_pcs s !! q = Some (Pushing t i j) /\ TaskStackTop (sy_shared s) = MAX_TASK_QUEUE - 1).
Proof.
  assert (E : sy_pcs (two_workers 2) !! 1%nat = Some Paused) by (vm_compute; reflexivity).
  split; [exact E|].
  apply (workers_no_deadlock 3 2 false 2 three (two_workers 2) 1 Paused); [unfold MAX_SORT_SIZE; lia|lia|lia|lia|exact three_distinct|apply turns_rtc|exact E|discriminate].
Defined.
