(* ===== verification/Is.v ===== *)
(** * Integer sort ([src/Tmk/apps/is_c/src/is.c])

    The benchmark draws keys with a linear congruential generator, computed in
    [double]s, and ranks them by counting.  The counters of one process are
    [local_keyden]; with several processes [IsShared] has the exchange through
    [shared_keyden]. *)
From S2P Require Import Prelude Arrays.
Local Open Scope Z_scope.

(** ** The generator

    The [double]s here have integer values, or an integer value after a
    multiplication with a power of two, which is exact.  An operation on
    integers is exact if its result has at most 53 bits: [None] is an inexact
    result. *)
Definition exact (z : Z) : option Z := if Z.abs z <=? 2 ^ 53 then Some z else None.

(** [two23] and [two46]; [half23] and [half46] are their inverses. *)
Definition init_rand : Z * Z := Nat.iter 23 (fun '(two23, two46) => (two23 * 2, two46 * (2 * 2))) (1, 1).
Definition two23 : Z := init_rand.1.
Definition two46 : Z := init_rand.2.

(** [aint(half23 * z)] and [aint(half46 * z)] *)
Definition aint23 (z : Z) : Z := Z.quot z two23.
Definition aint46 (z : Z) : Z := Z.quot z two46.

(** The new value of [*x]; the function returns it times [half46]. *)
Definition randlc (x a : Z) : option Z :=
  let a1 := aint23 a in
  t ← exact (two23 * a1); a2 ← exact (a - t);
  let b1 := aint23 x in
  t ← exact (two23 * b1); b2 ← exact (x - t);
  u ← exact (a1 * b2); v ← exact (a2 * b1); t1 ← exact (u + v);
  let t2 := aint23 t1 in
  t ← exact (two23 * t2); t3 ← exact (t1 - t);
  u ← exact (two23 * t3); v ← exact (a2 * b2); t4 ← exact (u + v);
  let t5 := aint46 t4 in
  t ← exact (two46 * t5); exact (t4 - t).

Definition A : Z := 1220703125.
Definition S_seed : Z := 314159265.
Definition MAXKEY0 : Z := Z.shiftl 1 15.

(** One key, and the next seed. *)
Definition next_key (MAXKEY seed : Z) : option (Z * Z) :=
  s1 ← randlc seed A; let x := s1 in
  s2 ← randlc s1 A; x ← exact (x + s2);
  s3 ← randlc s2 A; x ← exact (x + s3);
  s4 ← randlc s3 A; x ← exact (x + s4);
  Some (Z.quot (x * Z.quot MAXKEY 4) two46, s4).

Fixpoint make_keys (MAXKEY : Z) (N : nat) (seed : Z) : option (list Z) :=
  match N with
  | O => Some []
  | S N' => '(k, seed') ← next_key MAXKEY seed; ks ← make_keys MAXKEY N' seed'; Some (k :: ks)
  end.

(** ** Counting *)

(** The arrays [local_keyden] and [shared_keyden] of [MAXKEY] [int]s. *)
Abbreviation keyden := (gmap Z Z).

Definition is_int (z : Z) : bool := (-2147483648 <=? z) && (z <? 2147483648).

Section Bucksort.
Context (MAXKEY : Z).

Definition in_keyden (i : Z) : bool := (0 <=? i) && (i <? MAXKEY).
Definition read (i : Z) : M keyden Z := if in_keyden i then gets (fun c => c !!! i) else undef.
Definition write (i x : Z) : M keyden unit :=
  if in_keyden i && is_int x then modify (fun c => <[i := x]> c) else undef.
Definition add_to (i d : Z) : M keyden unit := x ← read i; write i (x + d).

(** [memset(local_keyden, 0, sizeof(local_keyden))]: [local_keyden] is a
    pointer, and [ptr] the number of [int]s that it takes. *)
Definition clear (ptr : Z) : M keyden unit := for_each (fun i => write i 0) (seqZ 0 ptr).

Definition count_keys (key : list Z) : M keyden unit := for_each (fun k => add_to k 1) key.

Definition prefix_sums : M keyden unit := for_each (fun i => x ← read (i - 1); add_to i x) (seqZ 1 (MAXKEY - 1)).

(** [rank[i] = --local_keyden[key[i]]] *)
Fixpoint rank_keys (key : list Z) : M keyden (list Z) :=
  match key with
  | [] => mret []
  | k :: key' => add_to k (-1);; r ← read k; rs ← rank_keys key'; mret (r :: rs)
  end.

(** [bucksort] with one process. *)
Definition bucksort (ptr : Z) (key : list Z) : M keyden (list Z) :=
  clear ptr;; count_keys key;; prefix_sums;; rank_keys key.
End Bucksort.

(** ** The generator is exact *)
Lemma two23_val : two23 = 2 ^ 23.
Proof. reflexivity. Qed.

Lemma two46_val : two46 = 2 ^ 46.
Proof. reflexivity. Qed.

Lemma exact_small z : - 2 ^ 53 <= z <= 2 ^ 53 -> exact z = Some z.
Proof. intros H. unfold exact. destruct (Z.leb_spec (Z.abs z) (2 ^ 53)); [done|lia]. Qed.

(** Splitting a number into two halves. *)
Lemma halves_of z : 0 <= z < 2 ^ 47 -> aint23 z = z / 2 ^ 23 /\ 0 <= z / 2 ^ 23 < 2 ^ 24 /\
  z - 2 ^ 23 * (z / 2 ^ 23) = z `mod` 2 ^ 23.
Proof.
  intros H. unfold aint23. rewrite two23_val, Z.quot_div_nonneg by lia. split_and!; [done|apply Z.div_pos; lia|apply Z.div_lt_upper_bound; lia|].
  pose proof (Z.div_mod z (2 ^ 23)). lia.
Qed.

Lemma randlc_value x a : 0 <= x < 2 ^ 46 -> 0 <= a < 2 ^ 46 -> randlc x a = Some ((a * x) `mod` 2 ^ 46).
Proof.
  intros Hx Ha. unfold randlc. rewrite two23_val, two46_val.
  destruct (halves_of a) as (-> & Ba & Ea); [lia|]. destruct (halves_of x) as (-> & Bx & Ex); [lia|].
  assert (Ba' : a / 2 ^ 23 < 2 ^ 23) by (apply Z.div_lt_upper_bound; lia). assert (Bx' : x / 2 ^ 23 < 2 ^ 23) by (apply Z.div_lt_upper_bound; lia).
  pose proof (Z.mod_pos_bound a (2 ^ 23)) as Ma. pose proof (Z.mod_pos_bound x (2 ^ 23)) as Mx.
  pose proof (Z.div_mod a (2 ^ 23)) as Da. pose proof (Z.div_mod x (2 ^ 23)) as Dx.
  rewrite !(exact_small (2 ^ 23 * (_ / _))) by lia. cbn [mbind option_bind]. rewrite Ea, Ex.
  set (a1 := a / 2 ^ 23) in *. set (a2 := a `mod` 2 ^ 23) in *. set (x1 := x / 2 ^ 23) in *. set (x2 := x `mod` 2 ^ 23) in *.
  assert (P1 : 0 <= a1 * x2 < 2 ^ 46) by nia. assert (P2 : 0 <= a2 * x1 < 2 ^ 46) by nia. assert (P3 : 0 <= a2 * x2 < 2 ^ 46) by nia.
  rewrite !exact_small by lia. cbn [mbind option_bind]. rewrite !exact_small by lia. cbn [mbind option_bind].
  rewrite (exact_small (a1 * x2 + a2 * x1)) by lia. cbn [mbind option_bind].
  destruct (halves_of (a1 * x2 + a2 * x1)) as (-> & Bt & Et); [lia|].
  pose proof (Z.mod_pos_bound (a1 * x2 + a2 * x1) (2 ^ 23)) as Mt. pose proof (Z.div_mod (a1 * x2 + a2 * x1) (2 ^ 23)) as Dt.
  rewrite (exact_small (2 ^ 23 * _)) by lia. cbn [mbind option_bind]. rewrite Et.
  set (t2 := (a1 * x2 + a2 * x1) / 2 ^ 23) in *. set (t3 := (a1 * x2 + a2 * x1) `mod` 2 ^ 23) in *.
  rewrite exact_small by lia. cbn [mbind option_bind]. rewrite exact_small by lia. cbn [mbind option_bind].
  rewrite exact_small by lia. cbn [mbind option_bind].
  unfold aint46. rewrite two46_val, Z.quot_div_nonneg by lia.
  set (t4 := 2 ^ 23 * t3 + a2 * x2) in *. pose proof (Z.div_mod t4 (2 ^ 46)) as D4. pose proof (Z.mod_pos_bound t4 (2 ^ 46)) as M4.
  assert (0 <= t4 / 2 ^ 46 < 2) by (split; [apply Z.div_pos; lia|apply Z.div_lt_upper_bound; lia]).
  rewrite exact_small by lia. cbn [mbind option_bind]. rewrite exact_small by lia. f_equal.
  replace (t4 - 2 ^ 46 * (t4 / 2 ^ 46)) with (t4 `mod` 2 ^ 46) by lia.
  replace (a * x) with (t4 + (a1 * x1 + t2) * 2 ^ 46).
  - by rewrite Z_mod_plus_full.
  - rewrite (Da ltac:(lia)), (Dx ltac:(lia)). subst t4. nia.
Qed.

(** The seeds: multiplication by [A] modulo [2 ^ 46]. *)
Definition next_seed (x : Z) : Z := (A * x) `mod` 2 ^ 46.

Definition is_seed (x : Z) : Prop := 0 <= x < 2 ^ 46.

Lemma next_seed_ok x : is_seed (next_seed x).
Proof. unfold is_seed, next_seed. apply Z.mod_pos_bound. lia. Qed.

Lemma randlc_seed x : is_seed x -> randlc x A = Some (next_seed x).
Proof. intros H. apply randlc_value; [done|unfold A; lia]. Qed.

Lemma next_key_value MAXKEY x : is_seed x -> 4 <= MAXKEY ->
  next_key MAXKEY x = Some ((next_seed x + next_seed (next_seed x) + next_seed (next_seed (next_seed x)) +
    next_seed (next_seed (next_seed (next_seed x)))) * (MAXKEY / 4) / 2 ^ 46, next_seed (next_seed (next_seed (next_seed x)))).
Proof.
  intros Hx HM. unfold next_key. pose proof (next_seed_ok x) as H1. pose proof (next_seed_ok (next_seed x)) as H2.
  pose proof (next_seed_ok (next_seed (next_seed x))) as H3. pose proof (next_seed_ok (next_seed (next_seed (next_seed x)))) as H4.
  rewrite (randlc_seed x Hx). cbn [mbind option_bind]. rewrite (randlc_seed _ H1). cbn [mbind option_bind].
  unfold is_seed in *. rewrite exact_small by lia. cbn [mbind option_bind]. rewrite (randlc_seed _ H2). cbn [mbind option_bind].
  rewrite exact_small by lia. cbn [mbind option_bind]. rewrite (randlc_seed _ H3). cbn [mbind option_bind].
  rewrite exact_small by lia. cbn [mbind option_bind]. assert (0 <= MAXKEY / 4) by (apply Z.div_pos; lia).
  rewrite two46_val, (Z.quot_div_nonneg MAXKEY 4), Z.quot_div_nonneg by (try apply Z.mul_nonneg_nonneg; lia). done.
Qed.

(** The keys: all operations on [double]s in the generator are exact, so
    that a draw multiplies the seed by [A] modulo [2 ^ 46], and every key that
    is made is an index of the counters. *)
Theorem keys_in_range MAXKEY N seed : 4 <= MAXKEY -> 0 <= seed < 2 ^ 46 -> exists ks,
  make_keys MAXKEY N seed = Some ks /\ length ks = N /\ (forall k, k ∈ ks -> 0 <= k < MAXKEY) /\
  forall x, 0 <= x < 2 ^ 46 -> randlc x A = Some ((A * x) `mod` 2 ^ 46).
Proof.
  intros HM. revert seed. induction N as [|N IH]; intros seed Hs.
  { exists []. split_and!; [done|done|by intros k []%elem_of_nil|]. intros x Hx. by apply randlc_seed. }
  cbn [make_keys]. rewrite (next_key_value MAXKEY seed Hs HM). cbn [mbind option_bind].
  pose proof (next_seed_ok seed) as H1. pose proof (next_seed_ok (next_seed seed)) as H2.
  pose proof (next_seed_ok (next_seed (next_seed seed))) as H3. pose proof (next_seed_ok (next_seed (next_seed (next_seed seed)))) as H4.
  destruct (IH _ H4) as (ks & -> & Hl & Hr & HR). cbn [mbind option_bind]. eexists. split_and!; [done|by cbn; rewrite Hl| |done].
  intros k [->|Hk]%elem_of_cons; [|by apply Hr]. unfold is_seed in *.
  assert (4 * (MAXKEY / 4) <= MAXKEY) by (pose proof (Z.div_mod MAXKEY 4); pose proof (Z.mod_pos_bound MAXKEY 4); lia).
  assert (0 < MAXKEY / 4) by (apply Z.div_str_pos; lia).
  split; [apply Z.div_pos; nia|apply Z.div_lt_upper_bound; nia].
Qed.

Lemma keys_in_range_witness : exists ks, make_keys MAXKEY0 3 S_seed = Some ks /\ ks = [25368; 13204; 16960] /\
  forall k, k ∈ ks -> 0 <= k < MAXKEY0.
Proof.
  assert (HM : 4 <= MAXKEY0) by (vm_compute; discriminate). assert (HS : 0 <= S_seed < 2 ^ 46) by (vm_compute; split; [discriminate|reflexivity]).
  destruct (keys_in_range MAXKEY0 3 S_seed HM HS) as (ks & E & _ & R & _). exists ks. split; [exact E|]. split; [|exact R].
  apply (f_equal (default [])) in E. cbn [default from_option id] in E. rewrite <- E. vm_compute. reflexivity.
Defined.

(** ** Counting *)
Fixpoint sum (l : list Z) : Z := match l with [] => 0 | x :: l1 => x + sum l1 end.

Lemma sum_app l l' : sum (l ++ l') = sum l + sum l'.
Proof. induction l as [|x l IH]; cbn; lia. Qed.

(** [f 0 + ... + f k] *)
Definition upto (f : Z -> Z) (k : Z) : Z := sum (f <$> seqZ 0 (k + 1)).

Lemma upto_step f k : 0 <= k -> upto f k = upto f (k - 1) + f k.
Proof.
  intros H. unfold upto. rewrite seqZ_app by lia. replace (k - 1 + 1) with k by lia. rewrite fmap_app, sum_app.
  rewrite seqZ_one, Z.add_0_l. cbn. lia.
Qed.

Lemma upto_neg f k : k < 0 -> upto f k = 0.
Proof. intros H. unfold upto. by rewrite seqZ_nil by lia. Qed.

Lemma upto_ext f g k : (forall j, 0 <= j <= k -> f j = g j) -> upto f k = upto g k.
Proof.
  intros H. unfold upto. f_equal. apply list_fmap_ext. intros i x Hx. apply list_elem_of_lookup_2, elem_of_seqZ in Hx. apply H. lia.
Qed.

Lemma upto_plus f g k : upto (fun j => f j + g j) k = upto f k + upto g k.
Proof. unfold upto. induction (seqZ 0 (k + 1)) as [|x l IH]; cbn in *; lia. Qed.

Lemma upto_mono m f k k' : (forall j, 0 <= j < m -> 0 <= f j) -> k <= k' < m -> upto f k <= upto f k'.
Proof.
  intros Hf Hk. replace k' with (k + Z.of_nat (Z.to_nat (k' - k))) by lia.
  assert (Hd : k + Z.of_nat (Z.to_nat (k' - k)) < m) by lia. induction (Z.to_nat (k' - k)) as [|d IH].
  - replace (k + Z.of_nat 0) with k by lia. done.
  - destruct (decide (0 <= k + Z.of_nat (S d))) as [H|H].
    + rewrite (upto_step f (k + Z.of_nat (S d)) H). replace (k + Z.of_nat (S d) - 1) with (k + Z.of_nat d) by lia.
      specialize (Hf (k + Z.of_nat (S d)) ltac:(lia)). specialize (IH ltac:(lia)). lia.
    + rewrite (upto_neg f (k + Z.of_nat (S d))) by lia. rewrite (upto_neg f k) by lia. lia.
Qed.

Lemma upto_nonneg m f k : (forall j, 0 <= j < m -> 0 <= f j) -> k < m -> 0 <= upto f k.
Proof.
  intros Hf Hk. destruct (decide (k < 0)); [rewrite upto_neg by done; lia|].
  pose proof (upto_mono m f (-1) k Hf ltac:(lia)) as H. rewrite (upto_neg f (-1)) in H by lia. done.
Qed.

(** How often [k] is among the keys. *)
Fixpoint cnt (key : list Z) (k : Z) : Z := match key with [] => 0 | x :: key' => (if x =? k then 1 else 0) + cnt key' k end.

Lemma cnt_nonneg key k : 0 <= cnt key k.
Proof. induction key as [|x key IH]; cbn; [lia|]. destruct (_ =? _); lia. Qed.

Lemma cnt_app key key' k : cnt (key ++ key') k = cnt key k + cnt key' k.
Proof. induction key as [|x key IH]; cbn; lia. Qed.

Lemma cnt_elem key k : k ∈ key -> 1 <= cnt key k.
Proof.
  induction 1 as [x key|x y key _ IH]; cbn; [rewrite Z.eqb_refl; pose proof (cnt_nonneg key x)|]; [lia|]. destruct (_ =? _); lia.
Qed.

Lemma upto_one x k : 0 <= x -> upto (fun j => if x =? j then 1 else 0) k = if x <=? k then 1 else 0.
Proof.
  intros Hx. destruct (decide (k < 0)) as [H|H]; [rewrite upto_neg by done; by rewrite (proj2 (Z.leb_gt x k)) by lia|].
  replace k with (Z.of_nat (Z.to_nat k)) by lia. induction (Z.to_nat k) as [|m IH].
  - rewrite upto_step, upto_neg by lia. destruct (Z.eqb_spec x (Z.of_nat 0)), (Z.leb_spec x (Z.of_nat 0)); lia.
  - rewrite upto_step by lia. replace (Z.of_nat (S m) - 1) with (Z.of_nat m) by lia. rewrite IH.
    destruct (Z.eqb_spec x (Z.of_nat (S m))), (Z.leb_spec x (Z.of_nat m)), (Z.leb_spec x (Z.of_nat (S m))); lia.
Qed.

Lemma upto_cnt_all key MAXKEY : (forall k, k ∈ key -> 0 <= k < MAXKEY) -> upto (cnt key) (MAXKEY - 1) = Z.of_nat (length key).
Proof.
  induction key as [|x key IH]; intros Hr.
  - unfold upto. induction (seqZ 0 (MAXKEY - 1 + 1)) as [|y l IH]; cbn in *; lia.
  - change (cnt (x :: key)) with (fun j => (if x =? j then 1 else 0) + cnt key j).
    rewrite upto_plus, IH by (intros k Hk; apply Hr; by right). pose proof (Hr x ltac:(left)).
    rewrite upto_one, (proj2 (Z.leb_le x (MAXKEY - 1))) by lia. cbn [length]. lia.
Qed.

Section Runs.
Context (MAXKEY : Z) (HM : 0 < MAXKEY).

Definition INT_MAX : Z := 2147483647.

Lemma read_run i c : 0 <= i < MAXKEY -> read MAXKEY i c = Ok (c !!! i, c).
Proof. intros H. unfold read, in_keyden. by rewrite (proj2 (Z.leb_le 0 i)), (proj2 (Z.ltb_lt i MAXKEY)) by lia. Qed.

Lemma write_run i x c : 0 <= i < MAXKEY -> - INT_MAX - 1 <= x <= INT_MAX -> write MAXKEY i x c = Ok (tt, <[i := x]> c).
Proof.
  intros H Hx. unfold write, in_keyden, is_int, INT_MAX in *.
  by rewrite (proj2 (Z.leb_le 0 i)), (proj2 (Z.ltb_lt i MAXKEY)), (proj2 (Z.leb_le _ x)), (proj2 (Z.ltb_lt x _)) by lia.
Qed.

Lemma add_run i d c : 0 <= i < MAXKEY -> - INT_MAX - 1 <= c !!! i + d <= INT_MAX ->
  add_to MAXKEY i d c = Ok (tt, <[i := c !!! i + d]> c).
Proof. intros H Hx. unfold add_to. rewrite (bind_Ok _ _ _ _ _ (read_run i c H)). by apply write_run. Qed.

(** The elements of a sequence one after the other. *)
Lemma for_seq_S {S' : Type} (f : Z -> M S' unit) a m s s1 s2 :
  for_each f (seqZ a (Z.of_nat m)) s = Ok (tt, s1) -> f (a + Z.of_nat m) s1 = Ok (tt, s2) ->
  for_each f (seqZ a (Z.of_nat (S m))) s = Ok (tt, s2).
Proof.
  intros H1 H2. rewrite Nat2Z.inj_succ, <- Z.add_1_r, seqZ_app by lia. rewrite for_each_app, (bind_Ok _ _ _ _ _ H1).
  rewrite seqZ_one. cbn [for_each]. by rewrite (bind_Ok _ _ _ _ _ H2).
Qed.

Lemma clear_run ptr c : 0 <= ptr <= MAXKEY -> exists c', clear MAXKEY ptr c = Ok (tt, c') /\
  forall j, 0 <= j -> c' !!! j = if j <? ptr then 0 else c !!! j.
Proof.
  intros Hp. unfold clear. replace ptr with (Z.of_nat (Z.to_nat ptr)) by lia. assert (Hn : Z.of_nat (Z.to_nat ptr) <= MAXKEY) by lia.
  induction (Z.to_nat ptr) as [|m IH].
  - exists c. split; [done|]. intros j Hj. by rewrite (proj2 (Z.ltb_ge j (Z.of_nat 0))) by lia.
  - destruct IH as (c1 & R1 & L1); [lia|]. exists (<[Z.of_nat m := 0]> c1). split.
    + eapply for_seq_S; [exact R1|]. apply write_run; unfold INT_MAX; lia.
    + intros j Hj. destruct (decide (j = Z.of_nat m)) as [->|Hne].
      * rewrite lookup_total_insert_eq. by rewrite (proj2 (Z.ltb_lt _ _)) by lia.
      * rewrite lookup_total_insert_ne by done. rewrite L1 by done. destruct (Z.ltb_spec j (Z.of_nat m)), (Z.ltb_spec j (Z.of_nat (S m))); lia.
Qed.

Lemma count_run key : forall c, (forall k, k ∈ key -> 0 <= k < MAXKEY) ->
  (forall j, 0 <= j < MAXKEY -> 0 <= c !!! j /\ c !!! j + cnt key j <= INT_MAX) ->
  exists c', count_keys MAXKEY key c = Ok (tt, c') /\ forall j, c' !!! j = c !!! j + cnt key j.
Proof.
  induction key as [|x key IH]; intros c Hk Hb; [exists c; split; [done|intros; cbn; lia]|].
  pose proof (Hk x ltac:(left)) as Hx. pose proof (Hb x Hx) as [Hx0 Hx1]. cbn in Hx1. rewrite Z.eqb_refl in Hx1.
  pose proof (cnt_nonneg key x). destruct (IH (<[x := c !!! x + 1]> c)) as (c' & R & L); [intros; apply Hk; by right| |].
  - intros j Hj. destruct (Hb j Hj) as [H0 H1]. cbn in H1. destruct (Z.eqb_spec x j) as [->|Hne].
    + rewrite lookup_total_insert_eq. lia.
    + rewrite lookup_total_insert_ne by done. lia.
  - exists c'. split.
    + unfold count_keys. cbn [for_each]. by rewrite (bind_Ok _ _ _ _ _ (add_run x 1 c Hx ltac:(unfold INT_MAX in *; lia))).
    + intros j. rewrite L. cbn. destruct (Z.eqb_spec x j) as [->|Hne].
      * rewrite lookup_total_insert_eq. lia.
      * rewrite lookup_total_insert_ne by done. lia.
Qed.

(** The counters as a function. *)
Definition at_ (c : keyden) (j : Z) : Z := c !!! j.

Lemma prefix_run c : (forall j, 0 <= j < MAXKEY -> 0 <= c !!! j) -> upto (at_ c) (MAXKEY - 1) <= INT_MAX ->
  exists c', prefix_sums MAXKEY c = Ok (tt, c') /\ forall j, 0 <= j < MAXKEY -> c' !!! j = upto (at_ c) j.
Proof.
  intros H0 Hmax. unfold prefix_sums.
  assert (Hn : forall m, (Z.of_nat m <= MAXKEY - 1) -> exists c',
    for_each (fun i => x ← read MAXKEY (i - 1); add_to MAXKEY i x) (seqZ 1 (Z.of_nat m)) c = Ok (tt, c') /\
    forall j, 0 <= j -> c' !!! j = if j <=? Z.of_nat m then upto (at_ c) j else c !!! j).
  { induction m as [|m IH]; intros Hm.
    - exists c. split; [done|]. intros j Hj. destruct (Z.leb_spec j (Z.of_nat 0)); [|done]. assert (j = 0) as -> by lia.
      rewrite upto_step, upto_neg by lia. unfold at_. lia.
    - destruct IH as (c1 & R1 & L1); [lia|]. pose proof (L1 (Z.of_nat m) ltac:(lia)) as E1. pose proof (L1 (1 + Z.of_nat m) ltac:(lia)) as E2.
      rewrite Z.leb_refl in E1. rewrite (proj2 (Z.leb_gt _ _)) in E2 by lia.
      assert (Es : upto (at_ c) (1 + Z.of_nat m) = upto (at_ c) (Z.of_nat m) + c !!! (1 + Z.of_nat m)).
      { rewrite upto_step by lia. by replace (1 + Z.of_nat m - 1) with (Z.of_nat m) by lia. }
      pose proof (upto_mono MAXKEY (at_ c) (1 + Z.of_nat m) (MAXKEY - 1) H0 ltac:(lia)). pose proof (upto_nonneg MAXKEY (at_ c) (1 + Z.of_nat m) H0 ltac:(lia)).
      exists (<[1 + Z.of_nat m := upto (at_ c) (1 + Z.of_nat m)]> c1). split.
      + eapply for_seq_S; [exact R1|]. replace (1 + Z.of_nat m - 1) with (Z.of_nat m) by lia.
        rewrite (bind_Ok _ _ _ _ _ (read_run (Z.of_nat m) c1 ltac:(lia))), E1. rewrite add_run by (rewrite ?E2; unfold INT_MAX in *; lia).
        do 3 f_equal. rewrite E2. lia.
      + intros j Hj. destruct (decide (j = 1 + Z.of_nat m)) as [->|Hne].
        * rewrite lookup_total_insert_eq. by rewrite (proj2 (Z.leb_le _ _)) by lia.
        * rewrite lookup_total_insert_ne by done. rewrite L1 by done.
          destruct (Z.leb_spec j (Z.of_nat m)), (Z.leb_spec j (Z.of_nat (S m))); try done; lia. }
  destruct (Hn (Z.to_nat (MAXKEY - 1))) as (c' & R & L); [lia|]. rewrite Z2Nat.id in R, L by lia. exists c'. split; [done|].
  intros j Hj. rewrite L by lia. by rewrite (proj2 (Z.leb_le _ _)) by lia.
Qed.

Lemma rank_run key : forall c, (forall k, k ∈ key -> 0 <= k < MAXKEY) ->
  (forall k, k ∈ key -> cnt key k <= c !!! k <= INT_MAX) ->
  exists rs c', rank_keys MAXKEY key c = Ok (rs, c') /\ length rs = length key /\
    (forall t k, key !! t = Some k -> rs !! t = Some (c !!! k - 1 - cnt (take t key) k)) /\
    forall j, c' !!! j = c !!! j - cnt key j.
Proof.
  induction key as [|x key IH]; intros c Hk Hb.
  { exists [], c. split_and!; [done|done|by intros t k|intros; cbn; lia]. }
  pose proof (Hk x ltac:(left)) as Hx. pose proof (Hb x ltac:(left)) as Hbx. cbn in Hbx. rewrite Z.eqb_refl in Hbx. pose proof (cnt_nonneg key x).
  set (c1 := <[x := c !!! x + -1]> c).
  assert (L1 : forall j, c1 !!! j = c !!! j - (if x =? j then 1 else 0)).
  { intros j. subst c1. destruct (Z.eqb_spec x j) as [->|Hne]; [rewrite lookup_total_insert_eq; lia|rewrite lookup_total_insert_ne by done; lia]. }
  destruct (IH c1) as (rs & c' & R & Hl & Hr & L); [intros; apply Hk; by right| |].
  { intros k Hkr. specialize (Hb k ltac:(by right)). cbn in Hb. rewrite L1. destruct (Z.eqb_spec x k); lia. }
  exists (c1 !!! x :: rs), c'. split_and!.
  - cbn [rank_keys]. rewrite (bind_Ok _ _ _ _ _ (add_run x (-1) c Hx ltac:(unfold INT_MAX in *; lia))). fold c1.
    by rewrite (bind_Ok _ _ _ _ _ (read_run x c1 Hx)), (bind_Ok _ _ _ _ _ R).
  - cbn. by rewrite Hl.
  - intros [|t] k Ht.
    + injection Ht as <-. cbn. rewrite L1, Z.eqb_refl. f_equal. lia.
    + change (key !! t = Some k) in Ht. change ((c1 !!! x :: rs) !! S t) with (rs !! t). rewrite (Hr t k Ht), L1. cbn. f_equal. lia.
  - intros j. rewrite L, L1. cbn. lia.
Qed.

(** What [clear] leaves of the counters. *)
Definition cleared (ptr : Z) (c : keyden) (j : Z) : Z := if j <? ptr then 0 else c !!! j.

Lemma bucksort_run ptr key c : 0 <= ptr <= MAXKEY -> (forall k, k ∈ key -> 0 <= k < MAXKEY) -> (forall j, 0 <= j < MAXKEY -> 0 <= c !!! j) ->
  upto (cleared ptr c) (MAXKEY - 1) + Z.of_nat (length key) <= INT_MAX ->
  exists rs c', bucksort MAXKEY ptr key c = Ok (rs, c') /\ length rs = length key /\
    (forall t k, key !! t = Some k -> rs !! t = Some (upto (cleared ptr c) k + (upto (cnt key) k - 1 - cnt (take t key) k))) /\
    forall j, 0 <= j < MAXKEY -> c' !!! j = upto (cleared ptr c) j + upto (cnt key) (j - 1).
Proof.
  intros Hp Hk Hc Hmax. rewrite <- (upto_cnt_all key MAXKEY Hk) in Hmax.
  destruct (clear_run ptr c Hp) as (c1 & R1 & L1). assert (E1 : forall j, 0 <= j -> c1 !!! j = cleared ptr c j) by (intros; by apply L1).
  assert (H1 : forall j, 0 <= j < MAXKEY -> 0 <= cleared ptr c j) by (intros j Hj; unfold cleared; specialize (Hc j Hj); destruct (_ <? _); lia).
  assert (Hcnt : forall j, 0 <= j < MAXKEY -> 0 <= cnt key j) by (intros; apply cnt_nonneg).
  destruct (count_run key c1 Hk) as (c2 & R2 & L2).
  { intros j Hj. rewrite E1 by lia. split; [apply H1; lia|].
    pose proof (upto_mono MAXKEY (cleared ptr c) j (MAXKEY - 1) H1 ltac:(lia)) as U1. rewrite upto_step in U1 by lia.
    pose proof (upto_mono MAXKEY (cnt key) j (MAXKEY - 1) Hcnt ltac:(lia)) as U2. rewrite (upto_step (cnt key) j) in U2 by lia.
    pose proof (upto_nonneg MAXKEY (cleared ptr c) (j - 1) H1 ltac:(lia)). pose proof (upto_nonneg MAXKEY (cnt key) (j - 1) Hcnt ltac:(lia)). lia. }
  assert (E2 : forall k, upto (at_ c2) k = upto (cleared ptr c) k + upto (cnt key) k).
  { intros k. rewrite <- upto_plus. apply upto_ext. intros j Hj. unfold at_. rewrite L2, E1 by lia. done. }
  destruct (prefix_run c2) as (c3 & R3 & L3); [|rewrite E2; done|].
  { intros j Hj. rewrite L2, E1 by lia. specialize (H1 j Hj). specialize (Hcnt j Hj). lia. }
  destruct (rank_run key c3 Hk) as (rs & c4 & R4 & Hl & Hr & L4).
  { intros k Hkin. pose proof (Hk k Hkin) as Hkr. rewrite L3, E2 by done. pose proof (upto_nonneg MAXKEY (cleared ptr c) k H1 ltac:(lia)).
    pose proof (upto_mono MAXKEY (cleared ptr c) k (MAXKEY - 1) H1 ltac:(lia)). pose proof (upto_mono MAXKEY (cnt key) k (MAXKEY - 1) Hcnt ltac:(lia)).
    rewrite (upto_step (cnt key) k) in * by lia. pose proof (upto_nonneg MAXKEY (cnt key) (k - 1) Hcnt ltac:(lia)). lia. }
  exists rs, c4. split_and!; [|done| |].
  - unfold bucksort. by rewrite (bind_Ok _ _ _ _ _ R1), (bind_Ok _ _ _ _ _ R2), (bind_Ok _ _ _ _ _ R3), R4.
  - intros t k Ht. rewrite (Hr t k Ht), L3, E2 by (apply Hk; by eapply list_elem_of_lookup_2). f_equal. lia.
  - intros j Hj. rewrite L4, L3, E2, (upto_step (cnt key) j) by lia. lia.
Qed.
End Runs.

(** The place of the [t]th key: behind the smaller keys, and among equal keys
    in the opposite order. *)
Definition place (key : list Z) (t : nat) (k : Z) : Z := upto (cnt key) (k - 1) + cnt (drop (S t) key) k.

Lemma place_alt key t k : 0 <= k -> key !! t = Some k -> upto (cnt key) k - 1 - cnt (take t key) k = place key t k.
Proof.
  intros Hk Ht. unfold place. rewrite upto_step by done. rewrite <- (take_drop_middle key t k Ht) at 2. rewrite cnt_app. cbn.
  rewrite Z.eqb_refl. lia.
Qed.

Lemma place_order key t t' k k' : 0 <= k -> key !! t = Some k -> key !! t' = Some k' -> (k < k' \/ k = k' /\ (t' < t)%nat) ->
  place key t k < place key t' k'.
Proof.
  intros Hk Ht Ht' Ho. destruct Ho as [Ho|[<- Ho]].
  - rewrite <- (place_alt key t k Hk Ht). unfold place. pose proof (upto_mono k' (cnt key) k (k' - 1) (fun j _ => cnt_nonneg key j) ltac:(lia)).
    pose proof (cnt_nonneg (take t key) k). pose proof (cnt_nonneg (drop (S t') key) k'). lia.
  - unfold place. assert (E : drop (S t') key = take (t - S t') (drop (S t') key) ++ k :: drop (S t) key).
    { rewrite <- (take_drop_middle (drop (S t') key) (t - S t') k) at 1; [|rewrite lookup_drop; by replace (S t' + (t - S t'))%nat with t by lia].
      rewrite drop_drop. by replace (S t' + S (t - S t'))%nat with (S t) by lia. }
    rewrite E, cnt_app. cbn. rewrite Z.eqb_refl. pose proof (cnt_nonneg (take (t - S t') (drop (S t') key)) k). lia.
Qed.

Lemma place_bounds key t k MAXKEY : (forall x, x ∈ key -> 0 <= x < MAXKEY) -> key !! t = Some k ->
  0 <= place key t k < Z.of_nat (length key).
Proof.
  intros Hr Ht. pose proof (Hr k (list_elem_of_lookup_2 _ _ _ Ht)) as Hk. assert (Hc : forall j, 0 <= j < MAXKEY -> 0 <= cnt key j) by (intros; apply cnt_nonneg).
  rewrite <- (upto_cnt_all key MAXKEY Hr). split.
  - unfold place. pose proof (upto_nonneg MAXKEY (cnt key) (k - 1) Hc ltac:(lia)). pose proof (cnt_nonneg (drop (S t) key) k). lia.
  - rewrite <- (place_alt key t k) by (done || lia). pose proof (upto_mono MAXKEY (cnt key) k (MAXKEY - 1) Hc ltac:(lia)).
    pose proof (cnt_nonneg (take t key) k). lia.
Qed.

Lemma upto_bound f m b : 0 <= m -> (forall j, 0 <= j < m -> f j <= b) -> upto f (m - 1) <= m * b.
Proof.
  intros Hm. replace m with (Z.of_nat (Z.to_nat m)) by lia. induction (Z.to_nat m) as [|d IH]; intros Hf.
  - rewrite upto_neg by lia. lia.
  - rewrite upto_step by lia. replace (Z.of_nat (S d) - 1) with (Z.of_nat d) by lia.
    specialize (IH ltac:(intros; apply Hf; lia)). specialize (Hf (Z.of_nat d) ltac:(lia)). nia.
Qed.

Lemma upto_zero f k : (forall j, 0 <= j <= k -> f j = 0) -> upto f k = 0.
Proof.
  intros H. rewrite (upto_ext f (fun _ => 0) k H). unfold upto. clear. induction (seqZ 0 (k + 1)) as [|y l IH]; cbn in *; lia.
Qed.

Lemma cleared_zero MAXKEY ptr c k : (forall j, 0 <= j < MAXKEY -> c !!! j = 0) -> k < MAXKEY -> upto (cleared ptr c) k = 0.
Proof. intros Hc Hk. apply upto_zero. intros j Hj. unfold cleared. rewrite Hc by lia. by destruct (_ <? _). Qed.

(** One process ranks its keys: with counters that are zero, [bucksort]
    ends without an access outside the counters and without an overflow of an
    [int], and the ranks are the places of the keys in sorted order: they are
    between zero and the number of keys, a smaller key has a smaller rank, and
    of equal keys the later one has. *)
Theorem bucksort_ranks MAXKEY ptr key c :
  0 <= ptr <= MAXKEY -> 0 < MAXKEY -> (forall k, k ∈ key -> 0 <= k < MAXKEY) -> Z.of_nat (length key) <= INT_MAX ->
  (forall j, 0 <= j < MAXKEY -> c !!! j = 0) -> exists rank c',
  bucksort MAXKEY ptr key c = Ok (rank, c') /\ length rank = length key /\
  (forall t r, rank !! t = Some r -> 0 <= r < Z.of_nat (length key)) /\
  forall t t' k k' r r', key !! t = Some k -> key !! t' = Some k' -> rank !! t = Some r -> rank !! t' = Some r' ->
    k < k' \/ k = k' /\ (t' < t)%nat -> r < r'.
Proof.
  intros Hp HM Hk Hl Hc.
  assert (Ez : forall k, k < MAXKEY -> upto (cleared ptr c) k = 0) by (intros; by apply (cleared_zero MAXKEY)).
  destruct (bucksort_run MAXKEY HM ptr key c Hp Hk) as (rs & c' & R & Hlen & Hr & _);
    [intros j Hj; rewrite Hc by done; lia|rewrite Ez; lia|].
  assert (Hp' : forall t k, key !! t = Some k -> rs !! t = Some (place key t k)).
  { intros t k Ht. pose proof (Hk k (list_elem_of_lookup_2 _ _ _ Ht)). rewrite (Hr t k Ht), Ez, place_alt by (done || lia). done. }
  exists rs, c'. split_and!; [done|done| |].
  - intros t r Ht. destruct (lookup_lt_is_Some_2 key t) as [k Hkt]; [rewrite <- Hlen; by eapply lookup_lt_Some|].
    rewrite (Hp' t k Hkt) in Ht. injection Ht as <-. by eapply place_bounds.
  - intros t t' k k' r r' Ht Ht' Hrt Hrt' Ho. rewrite (Hp' _ _ Ht) in Hrt. rewrite (Hp' _ _ Ht') in Hrt'. injection Hrt as <-. injection Hrt' as <-.
    apply place_order; try done. apply Hk. by eapply list_elem_of_lookup_2.
Qed.

Lemma bucksort_ranks_witness : exists rank c', bucksort 4 1 [2; 0; 3; 2] (zeros 4) = Ok (rank, c') /\ rank = [2; 0; 3; 1] /\
  (forall t r, rank !! t = Some r -> 0 <= r < 4).
Proof.
  destruct (bucksort_ranks 4 1 [2; 0; 3; 2] (zeros 4)) as (rank & c' & R & _ & B & _); [lia|lia| |vm_compute; discriminate|intros j Hj; by apply zeros_lookup|].
  { apply Forall_forall. repeat constructor; lia. }
  exists rank, c'. split; [exact R|]. split; [|exact B]. clear B.
  assert (E : match bucksort 4 1 [2; 0; 3; 2] (zeros 4) with Ok (r, _) => r | _ => [] end = rank) by (rewrite R; reflexivity).
  rewrite <- E. vm_compute. reflexivity.
Defined.

(** [memset] clears [ptr] counters only, the [int]s that a pointer takes,
    and [bucksort] leaves in the others how many keys were smaller.  So the
    second ranking is wrong: to the place of a key [k] it adds, for all [j]
    from [ptr] up to [k], the number of keys below [j] of the first ranking. *)
Theorem second_ranking_wrong MAXKEY ptr key1 key2 c rank1 c1 t k :
  0 < ptr <= MAXKEY -> (forall k, k ∈ key1 ++ key2 -> 0 <= k < MAXKEY) ->
  MAXKEY * Z.of_nat (length key1) + Z.of_nat (length key2) <= INT_MAX -> (forall j, 0 <= j < MAXKEY -> c !!! j = 0) ->
  bucksort MAXKEY ptr key1 c = Ok (rank1, c1) -> key2 !! t = Some k -> exists rank2 c2,
  bucksort MAXKEY ptr key2 c1 = Ok (rank2, c2) /\
  rank2 !! t = Some (place key2 t k + upto (fun j => if j <? ptr then 0 else upto (cnt key1) (j - 1)) k).
Proof.
  intros Hp Hk Hmax Hc R1 Ht. assert (HM : 0 < MAXKEY) by lia.
  assert (Hk1 : forall x, x ∈ key1 -> 0 <= x < MAXKEY) by (intros; apply Hk, elem_of_app; by left).
  assert (Hk2 : forall x, x ∈ key2 -> 0 <= x < MAXKEY) by (intros; apply Hk, elem_of_app; by right).
  destruct (bucksort_run MAXKEY HM ptr key1 c ltac:(lia) Hk1) as (rs & c' & R & _ & _ & L);
    [intros j Hj; rewrite Hc by done; lia|rewrite (cleared_zero MAXKEY) by (done || lia); nia|].
  rewrite R1 in R. injection R as -> ->.
  assert (L' : forall j, 0 <= j < MAXKEY -> c' !!! j = upto (cnt key1) (j - 1)).
  { intros j Hj. rewrite L by done. rewrite (cleared_zero MAXKEY) by (done || lia). lia. }
  assert (Hb : forall j, j < MAXKEY -> 0 <= upto (cnt key1) j <= Z.of_nat (length key1)).
  { intros j Hj. rewrite <- (upto_cnt_all key1 MAXKEY Hk1). split.
    - apply (upto_nonneg MAXKEY); [intros; apply cnt_nonneg|lia].
    - apply (upto_mono MAXKEY); [intros; apply cnt_nonneg|lia]. }
  assert (E : forall k, k < MAXKEY -> upto (cleared ptr c') k = upto (fun j => if j <? ptr then 0 else upto (cnt key1) (j - 1)) k).
  { intros x Hx. apply upto_ext. intros j Hj. unfold cleared. by rewrite L' by lia. }
  destruct (bucksort_run MAXKEY HM ptr key2 c' ltac:(lia) Hk2) as (rs2 & c2 & R2 & _ & Hr & _).
  - intros j Hj. rewrite L' by done. apply Hb. lia.
  - assert (upto (cleared ptr c') (MAXKEY - 1) <= MAXKEY * Z.of_nat (length key1)); [|lia].
    apply upto_bound; [lia|]. intros j Hj. unfold cleared. destruct (_ <? _); [lia|]. rewrite L' by lia. apply Hb. lia.
  - exists rs2, c2. split; [done|]. pose proof (Hk2 k (list_elem_of_lookup_2 _ _ _ Ht)).
    rewrite (Hr t k Ht), E, place_alt by (done || lia). f_equal. lia.
Qed.

Lemma second_ranking_wrong_witness : exists rank1 c1 rank2 c2,
  bucksort 4 1 [1; 0] (zeros 4) = Ok (rank1, c1) /\ bucksort 4 1 [1; 0] c1 = Ok (rank2, c2) /\
  rank1 !! 0%nat = Some 1 /\ rank2 !! 0%nat = Some 2.
Proof.
  assert (E : exists c1, bucksort 4 1 [1; 0] (zeros 4) = Ok ([1; 0], c1)) by (eexists; vm_compute; reflexivity).
  destruct E as (c1 & E).
  destruct (second_ranking_wrong 4 1 [1; 0] [1; 0] (zeros 4) [1; 0] c1 0 1) as (rank2 & c2 & R & H);
    [lia|apply Forall_forall; repeat constructor; lia|vm_compute; discriminate|intros j Hj; by apply zeros_lookup|exact E|reflexivity|].
  exists [1; 0], c1, rank2, c2. split; [exact E|]. split; [exact R|]. split; [reflexivity|]. rewrite H. vm_compute. reflexivity.
Defined.
