(* ===== verification/IsShared.v ===== *)
(** * Integer sort ([src/Tmk/apps/is_c/src/is.c]): several processes

    Each process counts its own keys; then the counts are added up in
    [shared_keyden], of which each process adds to one segment at a time, the
    segments in turn, with a barrier after every round.  In the end the counter
    of a process is the place at which its equal keys begin. *)
From S2P Require Import Prelude Arrays Is.
Local Open Scope Z_scope.

(** [local_keyden] of each process, and [shared_keyden]. *)
Record counters : Type := Counters { locals : list keyden; shared_keyden : keyden }.

Section Several.
Context (MAXKEY : Z) (Tmk_nprocs : nat).

(** What process [p] does with its counters, and with the shared ones. *)
Definition on_local {A} (p : nat) (m : M keyden A) : M counters A := fun s =>
  match locals s !! p with
  | None => Undef
  | Some c =>
      match m c with
      | Ok (a, c') => Ok (a, Counters (<[p := c']> (locals s)) (shared_keyden s))
      | Exit w => Exit w | Undef => Undef | Block => Block
      end
  end.

Definition on_shared {A} (m : M keyden A) : M counters A := fun s =>
  match m (shared_keyden s) with
  | Ok (a, c') => Ok (a, Counters (locals s) c')
  | Exit w => Exit w | Undef => Undef | Block => Block
  end.

(** The bounds of segment [q]. *)
Definition bound (q : Z) : Z := q * MAXKEY / Z.of_nat Tmk_nprocs.
Definition segment (q : Z) : list Z := seqZ (bound q) (bound (q + 1) - bound q).

(** [memcpy] of the segment of process [p]. *)
Definition copy_out (p : nat) : M counters unit :=
  for_each (fun j => x ← on_local p (read MAXKEY j); on_shared (write MAXKEY j x)) (segment (Z.of_nat p)).

(** [local_keyden[j] = shared_keyden[j] += local_keyden[j]] *)
Definition add_both (p : nat) (j : Z) : M counters unit :=
  x ← on_local p (read MAXKEY j);
  on_shared (add_to MAXKEY j x);;
  y ← on_shared (read MAXKEY j);
  on_local p (write MAXKEY j y).

(** Round [i] of process [p]. *)
Definition add_round (i : Z) (p : nat) : M counters unit :=
  for_each (add_both p) (segment ((i + Z.of_nat p) `mod` Z.of_nat Tmk_nprocs)).

(** The loop from [MAXKEY-1] down to one. *)
Definition start_places (p : nat) : M counters unit :=
  for_each (fun i => x ← on_shared (read MAXKEY (i - 1)); y ← on_local p (read MAXKEY (i - 1)); on_local p (add_to MAXKEY i (x - y)))
    (reverse (seqZ 1 (MAXKEY - 1))).

Fixpoint collect (p : nat) (keys : list (list Z)) : M counters (list (list Z)) :=
  match keys with
  | [] => mret []
  | key :: keys' => r ← on_local p (rank_keys MAXKEY key); rs ← collect (S p) keys'; mret (r :: rs)
  end.

(** [bucksort] in all processes.  Between two barriers they work on different
    counters, so that it does not matter in which order they are taken. *)
Definition bucksort_all (ptr : Z) (keys : list (list Z)) : M counters (list (list Z)) :=
  let procs := seq 0 Tmk_nprocs in
  for_each (fun p => on_local p (clear MAXKEY ptr;; count_keys MAXKEY (default [] (keys !! p));; prefix_sums MAXKEY)) procs;;
  for_each copy_out procs;;
  for_each (fun i => for_each (add_round i) procs) (seqZ 1 (Z.of_nat Tmk_nprocs - 1));;
  for_each start_places procs;;
  collect 0 keys.
End Several.

Definition fresh (MAXKEY : Z) (n : nat) : counters := Counters (replicate n (zeros MAXKEY)) (zeros MAXKEY).

Definition ranks_of (MAXKEY : Z) (keys : list (list Z)) : list (list Z) :=
  match bucksort_all MAXKEY (length keys) 1 keys (fresh MAXKEY (length keys)) with Ok (r, _) => r | _ => [] end.

Example three_processes : ranks_of 9 [[1; 8; 4; 1]; [7; 2; 4]; [5; 1; 2; 8]] = [[1; 10; 6; 0]; [8; 4; 5]; [7; 2; 3; 9]].
Proof. vm_compute. reflexivity. Qed.

(** ** Runs *)
Definition lcl (s : counters) (p : nat) (j : Z) : Z := (locals s !!! p) !!! j.
Definition shd (s : counters) (j : Z) : Z := shared_keyden s !!! j.

(** No message ends a process here. *)
Definition none (w : string) : Prop := False.

Section Runs.
Context (MAXKEY : Z) (n : nat).

Lemma on_local_run {A} p (m : M keyden A) s a c' : (p < length (locals s))%nat -> m (locals s !!! p) = Ok (a, c') ->
  on_local p m s = Ok (a, Counters (<[p := c']> (locals s)) (shared_keyden s)).
Proof.
  intros Hp H. unfold on_local. destruct (lookup_lt_is_Some_2 _ _ Hp) as [c E]. rewrite E.
  rewrite (list_lookup_total_correct _ _ _ E) in H. by rewrite H.
Qed.

Lemma on_shared_run {A} (m : M keyden A) s a c' : m (shared_keyden s) = Ok (a, c') -> on_shared m s = Ok (a, Counters (locals s) c').
Proof. intros H. unfold on_shared. by rewrite H. Qed.

Lemma read_local p j s : (p < length (locals s))%nat -> 0 <= j < MAXKEY -> on_local p (read MAXKEY j) s = Ok (lcl s p j, s).
Proof.
  intros Hp Hj. rewrite (on_local_run p _ s _ _ Hp (read_run MAXKEY j _ Hj)). do 2 f_equal.
  destruct s as [l c]. cbn in *. f_equal. apply list_insert_id. by apply list_lookup_lookup_total_lt.
Qed.

Lemma read_shared j s : 0 <= j < MAXKEY -> on_shared (read MAXKEY j) s = Ok (shd s j, s).
Proof. intros Hj. rewrite (on_shared_run _ s _ _ (read_run MAXKEY j _ Hj)). by destruct s. Qed.

(** One counter of process [p], and one of the shared ones. *)
Definition put_local (p : nat) (j x : Z) (s : counters) : counters := Counters (<[p := <[j := x]> (locals s !!! p)]> (locals s)) (shared_keyden s).
Definition put_shared (j x : Z) (s : counters) : counters := Counters (locals s) (<[j := x]> (shared_keyden s)).

Lemma put_local_lcl p j x s p' j' : (p < length (locals s))%nat ->
  lcl (put_local p j x s) p' j' = if decide (p' = p /\ j' = j) then x else lcl s p' j'.
Proof.
  intros Hp. unfold lcl, put_local. cbn. destruct (decide (p' = p)) as [->|Hne].
  - rewrite list_lookup_total_insert_eq by done. destruct (decide (j' = j)) as [->|Hnj].
    + rewrite lookup_total_insert_eq. by rewrite decide_True.
    + rewrite lookup_total_insert_ne by done. rewrite decide_False; [done|naive_solver].
  - rewrite list_lookup_total_insert_ne by done. rewrite decide_False; [done|naive_solver].
Qed.

Lemma put_shared_shd j x s j' : shd (put_shared j x s) j' = if decide (j' = j) then x else shd s j'.
Proof.
  unfold shd, put_shared. cbn. destruct (decide (j' = j)) as [->|Hne]; [apply lookup_total_insert_eq|by apply lookup_total_insert_ne].
Qed.

Lemma write_local p j x s : (p < length (locals s))%nat -> 0 <= j < MAXKEY -> - INT_MAX - 1 <= x <= INT_MAX ->
  on_local p (write MAXKEY j x) s = Ok (tt, put_local p j x s).
Proof. intros Hp Hj Hx. by rewrite (on_local_run p _ s _ _ Hp (write_run MAXKEY j x _ Hj Hx)). Qed.

Lemma write_shared j x s : 0 <= j < MAXKEY -> - INT_MAX - 1 <= x <= INT_MAX -> on_shared (write MAXKEY j x) s = Ok (tt, put_shared j x s).
Proof. intros Hj Hx. by rewrite (on_shared_run _ s _ _ (write_run MAXKEY j x _ Hj Hx)). Qed.

(** The counters of [l] change, each from the old values at its place. *)
Record changed (p : nat) (l : list Z) (f g : Z -> Z -> Z) (s s' : counters) : Prop := {
  ch_len : length (locals s') = length (locals s);
  ch_local : forall p' j, lcl s' p' j = if decide (p' = p /\ j ∈ l) then f (lcl s p j) (shd s j) else lcl s p' j;
  ch_shared : forall j, shd s' j = if decide (j ∈ l) then g (lcl s p j) (shd s j) else shd s j
}.

Lemma changed_loop p f g (P : Z -> Z -> Prop) (b : Z -> M counters unit) l : NoDup l ->
  (forall j s, j ∈ l -> (p < length (locals s))%nat -> P (lcl s p j) (shd s j) -> runs none (b j) s (fun _ s' => changed p [j] f g s s')) ->
  forall s, (p < length (locals s))%nat -> (forall j, j ∈ l -> P (lcl s p j) (shd s j)) ->
  runs none (for_each b l) s (fun _ s' => changed p l f g s s').
Proof.
  induction l as [|x l IH]; intros Hnd Hb s Hp HP.
  { eapply runs_ok; [done|]. split; [done|intros p' j|intros j]; rewrite decide_False; try done; rewrite elem_of_nil; tauto. }
  apply NoDup_cons in Hnd as [Hx Hnd]. cbn [for_each]. apply runs_bind.
  eapply runs_mono; [|apply Hb; [left|done|apply HP; left]]. intros [] s1 [L1 C1 S1].
  assert (E : forall j, j ∈ l -> lcl s1 p j = lcl s p j /\ shd s1 j = shd s j).
  { intros j Hj. rewrite C1, S1, !decide_False; [done|rewrite list_elem_of_singleton; by intros ->|rewrite list_elem_of_singleton; by intros [_ ->]]. }
  eapply runs_mono; [|apply IH; [done|intros; apply Hb; [by right|done|done]|by rewrite L1|]].
  - intros [] s2 [L2 C2 S2]. split; [congruence|intros p' j|intros j].
    + rewrite C2. destruct (decide (p' = p /\ j ∈ l)) as [[-> Hj]|Hn].
      * destruct (E j Hj) as [-> ->]. by rewrite decide_True by (split; [done|by right]).
      * rewrite C1. destruct (decide (p' = p /\ j ∈ [x])) as [[-> ->%list_elem_of_singleton]|Hn'].
        -- by rewrite decide_True by (split; [done|left]).
        -- rewrite decide_False; [done|]. intros [-> [->|?]%elem_of_cons]; [apply Hn'; split; [done|left]|by apply Hn].
    + rewrite S2. destruct (decide (j ∈ l)) as [Hj|Hn].
      * destruct (E j Hj) as [-> ->]. by rewrite decide_True by (by right).
      * rewrite S1. destruct (decide (j ∈ [x])) as [->%list_elem_of_singleton|Hn'].
        -- by rewrite decide_True by left.
        -- rewrite decide_False; [done|]. intros [->|?]%elem_of_cons; [apply Hn'; left|done].
  - intros j Hj. destruct (E j Hj) as [-> ->]. apply HP. by right.
Qed.

Definition is_count (x : Z) : Prop := 0 <= x <= INT_MAX.

Lemma copy_one p j s : (p < length (locals s))%nat -> 0 <= j < MAXKEY -> is_count (lcl s p j) ->
  runs none (x ← on_local p (read MAXKEY j); on_shared (write MAXKEY j x)) s (fun _ s' => changed p [j] (fun x _ => x) (fun x _ => x) s s').
Proof.
  intros Hp Hj Hx. apply runs_bind. eapply runs_ok; [by apply read_local|].
  eapply runs_ok; [apply write_shared; [done|unfold is_count, INT_MAX in *; lia]|]. split; [done|intros p' j'|intros j'].
  - change (lcl (put_shared j (lcl s p j) s) p' j') with (lcl s p' j'). case_decide as Hd; [|done]. by destruct Hd as [-> _].
  - rewrite put_shared_shd. destruct (decide (j' = j)) as [->|Hne]; [by rewrite decide_True by left|].
    rewrite decide_False; [done|]. by rewrite list_elem_of_singleton.
Qed.

Lemma add_both_run p j s : (p < length (locals s))%nat -> 0 <= j < MAXKEY -> 0 <= lcl s p j -> 0 <= shd s j -> lcl s p j + shd s j <= INT_MAX ->
  runs none (add_both MAXKEY p j) s (fun _ s' => changed p [j] Z.add Z.add s s').
Proof.
  intros Hp Hj H1 H2 H3. unfold add_both. apply runs_bind. eapply runs_ok; [by apply read_local|]. apply runs_bind.
  set (v := shd s j + lcl s p j). assert (Ha : on_shared (add_to MAXKEY j (lcl s p j)) s = Ok (tt, put_shared j v s)).
  { assert (Hv : - INT_MAX - 1 <= shared_keyden s !!! j + lcl s p j <= INT_MAX) by (fold (shd s j); unfold INT_MAX in *; lia).
    by rewrite (on_shared_run _ s _ _ (add_run MAXKEY j (lcl s p j) (shared_keyden s) Hj Hv)). }
  eapply runs_ok; [exact Ha|]. apply runs_bind. eapply runs_ok; [by apply read_shared|]. rewrite put_shared_shd, decide_True by done.
  eapply runs_ok; [apply write_local; [done|done|unfold INT_MAX in *; lia]|]. split.
  - cbn. apply length_insert.
  - intros p' j'. rewrite put_local_lcl by done. destruct (decide (p' = p /\ j' = j)) as [[-> ->]|Hd].
    + rewrite decide_True by (split; [done|left]). subst v. lia.
    + rewrite decide_False by (intros [-> ->%list_elem_of_singleton]; tauto). done.
  - intros j'. change (shd (put_local p j v (put_shared j v s)) j') with (shd (put_shared j v s) j'). rewrite put_shared_shd.
    destruct (decide (j' = j)) as [->|Hd]; [rewrite decide_True by left; subst v; lia|].
    by rewrite decide_False by (by intros ->%list_elem_of_singleton).
Qed.

(** From the highest counter down, so that each step reads an old one. *)
Record placed (p : nat) (m : Z) (s s' : counters) : Prop := {
  pl_len : length (locals s') = length (locals s);
  pl_shared : forall j, shd s' j = shd s j;
  pl_local : forall p' j, lcl s' p' j = if decide (p' = p /\ 1 <= j <= m) then lcl s p j + (shd s (j - 1) - lcl s p (j - 1)) else lcl s p' j
}.

Lemma places_loop p N m : forall s, (p < length (locals s))%nat -> Z.of_nat m <= MAXKEY - 1 -> 2 * N <= INT_MAX ->
  (forall j, 0 <= j <= Z.of_nat m -> 0 <= lcl s p j <= N /\ 0 <= shd s j <= N) ->
  runs none (for_each (fun i => x ← on_shared (read MAXKEY (i - 1)); y ← on_local p (read MAXKEY (i - 1)); on_local p (add_to MAXKEY i (x - y)))
    (reverse (seqZ 1 (Z.of_nat m)))) s (fun _ s' => placed p (Z.of_nat m) s s').
Proof.
  induction m as [|m IH]; intros s Hp Hm HN Hb.
  { eapply runs_ok; [done|]. split; [done|done|]. intros p' j. rewrite decide_False; [done|lia]. }
  rewrite Nat2Z.inj_succ, <- Z.add_1_r, seqZ_app by lia. rewrite reverse_app, seqZ_one. set (i := 1 + Z.of_nat m) in *.
  change (reverse [i]) with [i]. cbn [app for_each]. replace (i - 1) with (Z.of_nat m) by lia.
  apply runs_bind. apply runs_bind. eapply runs_ok; [apply read_shared; lia|]. apply runs_bind. eapply runs_ok; [apply read_local; [done|lia]|].
  set (v := lcl s p i + (shd s (Z.of_nat m) - lcl s p (Z.of_nat m))).
  pose proof (Hb i ltac:(lia)) as [Hbi _]. pose proof (Hb (Z.of_nat m) ltac:(lia)) as [Hb1 Hb2].
  assert (Ha : on_local p (add_to MAXKEY i (shd s (Z.of_nat m) - lcl s p (Z.of_nat m))) s = Ok (tt, put_local p i v s)).
  { assert (Hv : - INT_MAX - 1 <= (locals s !!! p) !!! i + (shd s (Z.of_nat m) - lcl s p (Z.of_nat m)) <= INT_MAX) by (fold (lcl s p i); unfold INT_MAX in *; lia).
    by rewrite (on_local_run p _ s _ _ Hp (add_run MAXKEY i _ (locals s !!! p) ltac:(lia) Hv)). }
  eapply runs_ok; [exact Ha|].
  assert (E : forall j, j <> i -> lcl (put_local p i v s) p j = lcl s p j) by (intros j Hj; rewrite put_local_lcl, decide_False; [done|tauto|done]).
  eapply runs_mono; [|apply IH; [cbn; by rewrite length_insert|lia|done|]].
  - intros [] s' [L Sh C]. split.
    + rewrite L. cbn. apply length_insert.
    + done.
    + intros p' j. rewrite C. change (shd (put_local p i v s)) with (shd s). destruct (decide (p' = p)) as [->|Hne].
      * destruct (decide (j = i)) as [->|Hji].
        -- rewrite decide_False, decide_True by lia. rewrite put_local_lcl, decide_True by done. subst v i. by replace (1 + Z.of_nat m - 1) with (Z.of_nat m) by lia.
        -- destruct (decide (1 <= j <= Z.of_nat m)); [rewrite !decide_True, !E by lia; done|rewrite !decide_False by lia; by apply E].
      * rewrite !decide_False by tauto. rewrite put_local_lcl, decide_False; [done|tauto|done].
  - intros j Hj. rewrite E by lia. apply Hb. lia.
Qed.
End Runs.

(** ** Segments *)
Section Segments.
Context (MAXKEY : Z) (n : nat) (HM : 0 < MAXKEY) (Hn : (0 < n)%nat).

Lemma bound_mono q q' : q <= q' -> bound MAXKEY n q <= bound MAXKEY n q'.
Proof. intros H. unfold bound. apply Z.div_le_mono; nia. Qed.

Lemma elem_of_segment q j : j ∈ segment MAXKEY n q <-> bound MAXKEY n q <= j < bound MAXKEY n (q + 1).
Proof. clear HM Hn. unfold segment. rewrite elem_of_seqZ. lia. Qed.

Lemma segment_unique q q' j : j ∈ segment MAXKEY n q -> j ∈ segment MAXKEY n q' -> q = q'.
Proof.
  rewrite !elem_of_segment. intros H H'. destruct (Z.lt_trichotomy q q') as [Hlt|[->|Hlt]]; [|done|].
  - pose proof (bound_mono (q + 1) q' ltac:(lia)). lia.
  - pose proof (bound_mono (q' + 1) q ltac:(lia)). lia.
Qed.

Lemma bound_ends : bound MAXKEY n 0 = 0 /\ bound MAXKEY n (Z.of_nat n) = MAXKEY.
Proof. unfold bound. split; [done|]. rewrite Z.mul_comm. apply Z.div_mul. lia. Qed.

Lemma segment_range q j : 0 <= q < Z.of_nat n -> j ∈ segment MAXKEY n q -> 0 <= j < MAXKEY.
Proof.
  intros Hq Hj%elem_of_segment. pose proof bound_ends as [E0 E1]. pose proof (bound_mono 0 q ltac:(lia)). pose proof (bound_mono (q + 1) (Z.of_nat n) ltac:(lia)). lia.
Qed.

Lemma segment_exists j : 0 <= j < MAXKEY -> exists q, 0 <= q < Z.of_nat n /\ j ∈ segment MAXKEY n q.
Proof.
  intros Hj. pose proof bound_ends as [E0 E1]. assert (H : forall m, j < bound MAXKEY n (Z.of_nat m) -> exists q, 0 <= q < Z.of_nat m /\ j ∈ segment MAXKEY n q).
  { induction m as [|m IH]; intros H; [change (j < bound MAXKEY n 0) in H; rewrite E0 in H; lia|]. destruct (Z.lt_ge_cases j (bound MAXKEY n (Z.of_nat m))) as [Hl|Hl].
    - destruct (IH Hl) as (q & Hq & Hin). exists q. split; [lia|done].
    - exists (Z.of_nat m). split; [lia|]. apply elem_of_segment. rewrite Z.add_1_r, <- Nat2Z.inj_succ. done. }
  apply H. lia.
Qed.

Lemma mod_shift q i k : 0 <= q < Z.of_nat n -> 0 <= k < Z.of_nat n -> (q - i) `mod` Z.of_nat n = k <-> q = (i + k) `mod` Z.of_nat n.
Proof.
  intros Hq Hk. split.
  - intros <-. rewrite Zplus_mod_idemp_r. replace (i + (q - i)) with q by lia. by rewrite Z.mod_small.
  - intros ->. rewrite Zminus_mod_idemp_l. replace (i + k - i) with k by lia. by rewrite Z.mod_small.
Qed.
End Segments.

Lemma upto_le f g k : (forall j, 0 <= j <= k -> f j <= g j) -> upto f k <= upto g k.
Proof.
  intros H. unfold upto. assert (Hl : forall j, j ∈ seqZ 0 (k + 1) -> f j <= g j) by (intros j Hj%elem_of_seqZ; apply H; lia).
  induction (seqZ 0 (k + 1)) as [|x l IH]; [done|]. cbn. pose proof (Hl x ltac:(left)). specialize (IH ltac:(intros; apply Hl; by right)). cbn in IH. lia.
Qed.

Lemma sum_perm (l l' : list Z) : l ≡ₚ l' -> sum l = sum l'.
Proof. induction 1; cbn; lia. Qed.

(** ** The counts of the processes *)
Section Counts.
Context (MAXKEY : Z) (n : nat) (keys : list (list Z)) (HM : 0 < MAXKEY) (Hn : (0 < n)%nat).
Context (Hkeys : forall key k, key ∈ keys -> k ∈ key -> 0 <= k < MAXKEY).

Definition key_of (p : nat) : list Z := default [] (keys !! p).

(** The counter [j] of process [p] alone. *)
Definition own (p : nat) (j : Z) : Z := upto (cnt (key_of p)) j.

(** What processes [q], [q - 1], ..., [q - t] have together. *)
Definition chain (q t j : Z) : Z := upto (fun u => own (Z.to_nat ((q - u) `mod` Z.of_nat n)) j) t.

Definition total (j : Z) : Z := upto (fun u => own (Z.to_nat u) j) (Z.of_nat n - 1).

(** The number of all keys. *)
Definition all_keys : Z := upto (fun u => Z.of_nat (length (key_of (Z.to_nat u)))) (Z.of_nat n - 1).

Lemma key_of_range p k : k ∈ key_of p -> 0 <= k < MAXKEY.
Proof.
  unfold key_of. destruct (keys !! p) as [key|] eqn:E; cbn; [|by intros []%elem_of_nil]. apply Hkeys. by eapply list_elem_of_lookup_2.
Qed.

Lemma own_bounds p j : j < MAXKEY -> 0 <= own p j <= Z.of_nat (length (key_of p)).
Proof.
  intros Hj. unfold own. split; [apply (upto_nonneg MAXKEY); [intros; apply cnt_nonneg|done]|].
  rewrite <- (upto_cnt_all (key_of p) MAXKEY) by apply key_of_range. apply (upto_mono MAXKEY); [intros; apply cnt_nonneg|lia].
Qed.

(** The processes in the order of a chain are all processes. *)
Lemma rotate_perm q : (fun u => (q - u) `mod` Z.of_nat n) <$> seqZ 0 (Z.of_nat n) ≡ₚ seqZ 0 (Z.of_nat n).
Proof.
  apply NoDup_Permutation; [|apply NoDup_seqZ|].
  - apply NoDup_fmap_2_strong; [|apply NoDup_seqZ]. intros u v Hu%elem_of_seqZ Hv%elem_of_seqZ E.
    pose proof (Z.mod_pos_bound (q - v) (Z.of_nat n) ltac:(lia)) as Hb.
    assert (Eu : u = (q - (q - v) `mod` Z.of_nat n) `mod` Z.of_nat n).
    { rewrite <- E, Zminus_mod_idemp_r. replace (q - (q - u)) with u by lia. symmetry. apply Z.mod_small. lia. }
    rewrite Eu, Zminus_mod_idemp_r. replace (q - (q - v)) with v by lia. apply Z.mod_small. lia.
  - intros x. rewrite list_elem_of_fmap, elem_of_seqZ. split.
    + intros (u & -> & _). pose proof (Z.mod_pos_bound (q - u) (Z.of_nat n) ltac:(lia)). lia.
    + intros Hx. exists ((q - x) `mod` Z.of_nat n). pose proof (Z.mod_pos_bound (q - x) (Z.of_nat n) ltac:(lia)). split; [|apply elem_of_seqZ; lia].
      rewrite Zminus_mod_idemp_r. replace (q - (q - x)) with x by lia. symmetry. apply Z.mod_small. lia.
Qed.

Lemma chain_full q j : chain q (Z.of_nat n - 1) j = total j.
Proof.
  unfold chain, total, upto. replace (Z.of_nat n - 1 + 1) with (Z.of_nat n) by lia. apply sum_perm.
  rewrite <- (rotate_perm q) at 2. by rewrite <- list_fmap_compose.
Qed.

Lemma total_bounds j : j < MAXKEY -> 0 <= total j <= all_keys.
Proof.
  intros Hj. split; [apply (upto_nonneg (Z.of_nat n)); [intros; by apply own_bounds|lia]|]. apply upto_le. intros u Hu. by apply own_bounds.
Qed.

Lemma chain_bounds q t j : j < MAXKEY -> t < Z.of_nat n -> 0 <= chain q t j <= total j.
Proof.
  intros Hj Ht. split; [apply (upto_nonneg (Z.of_nat n)); [intros; by apply own_bounds|done]|].
  rewrite <- (chain_full q). apply (upto_mono (Z.of_nat n)); [intros; by apply own_bounds|lia].
Qed.

Lemma chain_step q t j : 0 <= t -> chain q t j = chain q (t - 1) j + own (Z.to_nat ((q - t) `mod` Z.of_nat n)) j.
Proof. intros Ht. unfold chain. by rewrite upto_step. Qed.

(** ** The phases *)
Context (Hmax : 2 * all_keys <= INT_MAX).

(** Every process has counted its keys. *)
Definition counted (k : nat) (s : counters) : Prop := length (locals s) = n /\ forall p j, (p < n)%nat -> 0 <= j < MAXKEY ->
  lcl s p j = if (p <? k)%nat then own p j else 0.

Lemma all_keys_le p : (p < n)%nat -> Z.of_nat (length (key_of p)) <= all_keys.
Proof.
  intros Hp. unfold all_keys. set (f := fun u => Z.of_nat (length (key_of (Z.to_nat u)))).
  assert (Hf : forall u, 0 <= u < Z.of_nat n -> 0 <= f u) by (intros; unfold f; lia).
  pose proof (upto_mono (Z.of_nat n) f (Z.of_nat p) (Z.of_nat n - 1) Hf ltac:(lia)) as H1. rewrite (upto_step f (Z.of_nat p)) in H1 by lia.
  pose proof (upto_nonneg (Z.of_nat n) f (Z.of_nat p - 1) Hf ltac:(lia)). unfold f in *. rewrite Nat2Z.id in H1. lia.
Qed.

Lemma count_local ptr p c : 0 <= ptr <= MAXKEY -> (p < n)%nat -> (forall j, 0 <= j < MAXKEY -> c !!! j = 0) -> exists c',
  (clear MAXKEY ptr;; count_keys MAXKEY (key_of p);; prefix_sums MAXKEY) c = Ok (tt, c') /\ forall j, 0 <= j < MAXKEY -> c' !!! j = own p j.
Proof.
  intros Hptr Hp Hc. pose proof (all_keys_le p Hp) as Hl. assert (Hk : forall k, k ∈ key_of p -> 0 <= k < MAXKEY) by apply key_of_range.
  destruct (clear_run MAXKEY HM ptr c Hptr) as (c1 & R1 & L1).
  assert (E1 : forall j, 0 <= j < MAXKEY -> c1 !!! j = 0) by (intros j Hj; rewrite L1 by lia; destruct (_ <? _); [done|by apply Hc]).
  assert (Hcnt : forall j, 0 <= j < MAXKEY -> 0 <= cnt (key_of p) j) by (intros; apply cnt_nonneg).
  destruct (count_run MAXKEY (key_of p) c1 Hk) as (c2 & R2 & L2).
  { intros j Hj. rewrite E1 by done. split; [done|]. pose proof (own_bounds p (MAXKEY - 1) ltac:(lia)). pose proof (own_bounds p (j - 1) ltac:(lia)).
    pose proof (upto_mono MAXKEY (cnt (key_of p)) j (MAXKEY - 1) Hcnt ltac:(lia)) as U. rewrite upto_step in U by lia. unfold own in *. unfold INT_MAX in *. lia. }
  assert (E2 : forall j, j < MAXKEY -> upto (at_ c2) j = own p j).
  { intros j Hj. apply upto_ext. intros i Hi. unfold at_. rewrite L2, E1 by lia. lia. }
  destruct (prefix_run MAXKEY HM c2) as (c3 & R3 & L3).
  { intros j Hj. rewrite L2, E1 by done. specialize (Hcnt j Hj). lia. }
  { rewrite E2 by lia. pose proof (own_bounds p (MAXKEY - 1) ltac:(lia)). unfold INT_MAX in *. lia. }
  exists c3. split; [by rewrite (bind_Ok _ _ _ _ _ R1), (bind_Ok _ _ _ _ _ R2)|]. intros j Hj. rewrite L3 by done. apply E2. lia.
Qed.

(** A loop over the processes. *)
Lemma procs_loop (f : nat -> M counters unit) (I : nat -> counters -> Prop) s : I 0%nat s ->
  (forall k s, (k < n)%nat -> I k s -> runs none (f k) s (fun _ s' => I (S k) s')) ->
  runs none (for_each f (seq 0 n)) s (fun _ s' => I n s').
Proof.
  intros H0 Hs. eapply runs_mono; [|apply (runs_for_each none f (seq 0 n) I s H0)].
  - intros [] s'. by rewrite length_seq.
  - intros k x s1 Hx. apply lookup_seq in Hx as [-> Hk]. by apply Hs.
Qed.

Lemma count_all ptr s : 0 <= ptr <= MAXKEY -> counted 0 s ->
  runs none (for_each (fun p => on_local p (clear MAXKEY ptr;; count_keys MAXKEY (default [] (keys !! p));; prefix_sums MAXKEY)) (seq 0 n)) s (fun _ s' => counted n s').
Proof.
  intros Hptr H0. apply procs_loop; [done|]. intros k s1 Hk [Hlen H].
  destruct (count_local ptr k (locals s1 !!! k) Hptr Hk) as (c' & R & L).
  { intros j Hj. pose proof (H k j Hk Hj) as E. by rewrite Nat.ltb_irrefl in E. }
  eapply runs_ok; [apply (on_local_run k _ s1 tt c'); [lia|exact R]|]. split; [cbn; by rewrite length_insert|].
  intros p j Hp Hj. unfold lcl. cbn [locals]. destruct (decide (p = k)) as [->|Hne].
  - rewrite list_lookup_total_insert_eq by lia. rewrite L by done. by rewrite (proj2 (Nat.ltb_lt k (S k))) by lia.
  - rewrite list_lookup_total_insert_ne by done. fold (lcl s1 p j). rewrite H by done.
    destruct (Nat.ltb_spec p k), (Nat.ltb_spec p (S k)); try done; lia.
Qed.

(** The state before process [k] adds to a segment in round [i]. *)
Definition added (i : Z) (k : nat) (s : counters) : Prop := length (locals s) = n /\
  forall q j, 0 <= q < Z.of_nat n -> j ∈ segment MAXKEY n q ->
    shd s j = chain q (if (q - i) `mod` Z.of_nat n <? Z.of_nat k then i else i - 1) j /\
    forall p, (p < n)%nat -> lcl s p j = let t := (q - Z.of_nat p) `mod` Z.of_nat n in
      if (t <? i) || ((t =? i) && (p <? k)%nat) then chain q t j else own p j.

Lemma copy_all s : counted n s -> runs none (for_each (copy_out MAXKEY n) (seq 0 n)) s (fun _ s' => added 1 0 s').
Proof.
  intros Hc. eapply runs_mono; [|apply (procs_loop _ (fun k s => counted n s /\
    forall q j, (q < k)%nat -> j ∈ segment MAXKEY n (Z.of_nat q) -> shd s j = own q j)); [split; [done|lia]|]].
  - intros [] s' [[Hlen H] Hs]. split; [done|]. intros q j Hq Hj. pose proof (segment_range MAXKEY n HM Hn q j Hq Hj) as Hjr. split.
    + rewrite (proj2 (Z.ltb_ge _ (Z.of_nat 0))) by (pose proof (Z.mod_pos_bound (q - 1) (Z.of_nat n)); lia). cbn [Z.sub].
      rewrite chain_step by lia. unfold chain. rewrite upto_neg by lia. change (1 - 1) with 0. rewrite Z.sub_0_r, Z.mod_small by lia.
      rewrite (Hs (Z.to_nat q) j) by (rewrite ?Z2Nat.id by lia; done || lia). lia.
    + intros p Hp. cbn zeta. rewrite H, (proj2 (Nat.ltb_lt p n)) by done. pose proof (Z.mod_pos_bound (q - Z.of_nat p) (Z.of_nat n) ltac:(lia)) as Hb.
      rewrite andb_false_r, orb_false_r. destruct (Z.ltb_spec ((q - Z.of_nat p) `mod` Z.of_nat n) 1) as [Ht|Ht]; [|done].
      assert (E : (q - Z.of_nat p) `mod` Z.of_nat n = 0) by lia. rewrite E. apply (mod_shift n Hn) in E; [|lia|lia]. rewrite Z.add_0_r, Z.mod_small in E by lia. subst q.
      rewrite chain_step by lia. unfold chain. rewrite upto_neg by lia. by rewrite Z.sub_0_r, Z.mod_small, Nat2Z.id by lia.
  - intros k s1 Hk [[Hlen H] Hs]. unfold copy_out.
    eapply runs_mono; [|apply (changed_loop k (fun x _ => x) (fun x _ => x) (fun x _ => is_count x)); [apply NoDup_seqZ| |lia|]].
    + intros [] s2 [L2 C2 S2]. split; [split; [congruence|]|].
      * intros p j Hp Hj. rewrite C2. case_decide as Hd; [destruct Hd as [-> _]|]; by apply H.
      * intros q j Hq Hj. rewrite S2. destruct (decide (j ∈ segment MAXKEY n (Z.of_nat k))) as [Hjk|Hjk].
        -- assert (q = k) as -> by (pose proof (segment_unique MAXKEY n HM Hn _ _ _ Hj Hjk); lia).
           rewrite H, (proj2 (Nat.ltb_lt k n)); [done..|]. apply (segment_range MAXKEY n HM Hn (Z.of_nat k)); [lia|done].
        -- apply Hs; [|done]. destruct (decide (q = k)) as [->|]; [done|lia].
    + intros j s2 Hj Hp HP. apply copy_one; [done| |done]. apply (segment_range MAXKEY n HM Hn (Z.of_nat k)); [lia|done].
    + intros j Hj. pose proof (segment_range MAXKEY n HM Hn (Z.of_nat k) j ltac:(lia) Hj) as Hjr. rewrite H, (proj2 (Nat.ltb_lt k n)) by done.
      pose proof (own_bounds k j ltac:(lia)). pose proof (all_keys_le k Hk). unfold is_count, INT_MAX in *. lia.
Qed.

(** Process [k] in round [i]. *)
Lemma round_one i k s : 1 <= i < Z.of_nat n -> (k < n)%nat -> added i k s -> runs none (add_round MAXKEY n i k) s (fun _ s' => added i (S k) s').
Proof.
  intros Hi Hk [Hlen H]. unfold add_round. set (q0 := (i + Z.of_nat k) `mod` Z.of_nat n).
  assert (Hq0 : 0 <= q0 < Z.of_nat n) by (apply Z.mod_pos_bound; lia).
  assert (E1 : (q0 - i) `mod` Z.of_nat n = Z.of_nat k) by (by apply (mod_shift n Hn); [|lia|]).
  assert (E2 : (q0 - Z.of_nat k) `mod` Z.of_nat n = i) by (apply (mod_shift n Hn); [done|lia|]; unfold q0; by rewrite Z.add_comm).
  assert (Hold : forall j, j ∈ segment MAXKEY n q0 -> shd s j = chain q0 (i - 1) j /\ lcl s k j = own k j).
  { intros j Hj. destruct (H q0 j Hq0 Hj) as [Es El]. rewrite Es, E1, (El k Hk). cbn zeta.
    rewrite E2, !Z.ltb_irrefl, Nat.ltb_irrefl, andb_false_r. done. }
  assert (Hsum : forall j, chain q0 i j = chain q0 (i - 1) j + own k j) by (intros j; rewrite chain_step by lia; by rewrite E1, Nat2Z.id).
  assert (HP : forall j, j ∈ segment MAXKEY n q0 -> 0 <= lcl s k j /\ 0 <= shd s j /\ lcl s k j + shd s j <= INT_MAX).
  { intros j Hj. destruct (Hold j Hj) as [-> ->]. specialize (Hsum j). pose proof (segment_range MAXKEY n HM Hn q0 j Hq0 Hj) as Hr.
    pose proof (chain_bounds q0 i j ltac:(lia) ltac:(lia)). pose proof (chain_bounds q0 (i - 1) j ltac:(lia) ltac:(lia)).
    pose proof (own_bounds k j ltac:(lia)). pose proof (total_bounds j ltac:(lia)). unfold INT_MAX in *. lia. }
  eapply runs_mono; [|apply (changed_loop k Z.add Z.add (fun x y => 0 <= x /\ 0 <= y /\ x + y <= INT_MAX)); [apply NoDup_seqZ| |lia|exact HP]].
  - intros [] s' [L C Sh]. split; [congruence|]. intros q j Hq Hj. destruct (H q j Hq Hj) as [Es El]. rewrite Sh.
    destruct (decide (q = q0)) as [->|Hne].
    + rewrite decide_True by done. destruct (Hold j Hj) as [Hs0 Hl0]. rewrite Hs0, Hl0, E1. rewrite (proj2 (Z.ltb_lt _ (Z.of_nat (S k)))) by lia.
      split; [rewrite Hsum; lia|]. intros p Hp. rewrite C. cbn zeta. destruct (decide (p = k)) as [->|Hpk].
      * rewrite decide_True by done. rewrite E2, Z.ltb_irrefl, Z.eqb_refl, (proj2 (Nat.ltb_lt k (S k))) by lia. cbn [orb andb]. rewrite Hs0, Hl0, Hsum. lia.
      * rewrite decide_False by tauto. rewrite (El p Hp). cbn zeta. by replace (p <? S k)%nat with (p <? k)%nat by (destruct (Nat.ltb_spec p k), (Nat.ltb_spec p (S k)); done || lia).
    + assert (Hnj : j ∉ segment MAXKEY n q0) by (intros Hj0; apply Hne; by apply (segment_unique MAXKEY n HM Hn _ _ j)).
      rewrite decide_False by done. split.
      * rewrite Es. assert (E3 : (q - i) `mod` Z.of_nat n <> Z.of_nat k) by (intros E3; apply (mod_shift n Hn) in E3; [done|done|lia]).
        destruct (Z.ltb_spec ((q - i) `mod` Z.of_nat n) (Z.of_nat k)), (Z.ltb_spec ((q - i) `mod` Z.of_nat n) (Z.of_nat (S k))); done || lia.
      * intros p Hp. rewrite C, decide_False by tauto. rewrite (El p Hp). cbn zeta. destruct (decide (p = k)) as [->|Hpk].
        -- rewrite (proj2 (Z.eqb_neq ((q - Z.of_nat k) `mod` Z.of_nat n) i)); [done|]. intros E3. apply Hne.
           apply (mod_shift n Hn) in E3; [|done|lia]. rewrite E3. unfold q0. by rewrite Z.add_comm.
        -- by replace (p <? S k)%nat with (p <? k)%nat by (destruct (Nat.ltb_spec p k), (Nat.ltb_spec p (S k)); done || lia).
  - intros j s1 Hj Hp1 (H1 & H2 & H3). apply add_both_run; try done. by apply (segment_range MAXKEY n HM Hn q0).
Qed.

Lemma added_next i s : added i n s -> added (i + 1) 0 s.
Proof.
  intros [Hlen H]. split; [done|]. intros q j Hq Hj. destruct (H q j Hq Hj) as [Es El].
  pose proof (Z.mod_pos_bound (q - i) (Z.of_nat n) ltac:(lia)). pose proof (Z.mod_pos_bound (q - (i + 1)) (Z.of_nat n) ltac:(lia)). split.
  - rewrite Es, (proj2 (Z.ltb_lt _ _)), (proj2 (Z.ltb_ge _ (Z.of_nat 0))) by lia. by replace (i + 1 - 1) with i by lia.
  - intros p Hp. rewrite (El p Hp). cbn zeta. rewrite (proj2 (Nat.ltb_lt p n)), andb_true_r, andb_false_r, orb_false_r by done.
    set (t := _ `mod` _). destruct (Z.ltb_spec t i), (Z.eqb_spec t i), (Z.ltb_spec t (i + 1)); done || lia.
Qed.

Lemma rounds_all s : added 1 0 s ->
  runs none (for_each (fun i => for_each (add_round MAXKEY n i) (seq 0 n)) (seqZ 1 (Z.of_nat n - 1))) s (fun _ s' => added (Z.of_nat n) 0 s').
Proof.
  intros H. eapply runs_mono; [|apply (runs_for_each none _ _ (fun k s => added (1 + Z.of_nat k) 0 s)); [done|]].
  - intros [] s'. rewrite length_seqZ. by replace (1 + Z.of_nat (Z.to_nat (Z.of_nat n - 1))) with (Z.of_nat n) by lia.
  - intros k i s1 Hi H1. apply lookup_seqZ in Hi as [-> Hk].
    eapply runs_mono; [|apply (procs_loop _ (fun m s => added (1 + Z.of_nat k) m s)); [done|]].
    + intros [] s' H'. replace (1 + Z.of_nat (S k)) with (1 + Z.of_nat k + 1) by lia. by apply added_next.
    + intros m s2 Hm. apply round_one; [lia|done].
Qed.

(** The counters of process [p] when all have been added up. *)
Definition part (p : nat) (q j : Z) : Z := chain q ((q - Z.of_nat p) `mod` Z.of_nat n) j.

Definition summed (k : nat) (s : counters) : Prop := length (locals s) = n /\ (forall j, 0 <= j < MAXKEY -> shd s j = total j) /\
  forall p q j, (p < n)%nat -> 0 <= q < Z.of_nat n -> j ∈ segment MAXKEY n q ->
    ((k <= p)%nat -> lcl s p j = part p q j) /\
    ((p < k)%nat -> j = 0 \/ j - 1 ∈ segment MAXKEY n q -> lcl s p j = total (j - 1) + (part p q j - part p q (j - 1))).

Lemma summed_start s : added (Z.of_nat n) 0 s -> summed 0 s.
Proof.
  intros [Hlen H]. split; [done|]. split.
  - intros j Hj. destruct (segment_exists MAXKEY n Hn j Hj) as (q & Hq & Hin). destruct (H q j Hq Hin) as [-> _].
    rewrite (proj2 (Z.ltb_ge _ (Z.of_nat 0))) by (pose proof (Z.mod_pos_bound (q - Z.of_nat n) (Z.of_nat n)); lia). by apply chain_full.
  - intros p q j Hp Hq Hj. split; [|lia]. intros _. destruct (H q j Hq Hj) as [_ El]. rewrite (El p Hp). cbn zeta.
    rewrite (proj2 (Z.ltb_lt _ _)) by (pose proof (Z.mod_pos_bound (q - Z.of_nat p) (Z.of_nat n)); lia). done.
Qed.

Lemma upto_neg_chain q t : chain q t (-1) = 0.
Proof. unfold chain, own. apply upto_zero. intros u _. by apply upto_neg. Qed.

Lemma total_neg : total (-1) = 0.
Proof. unfold total, own. apply upto_zero. intros u _. by apply upto_neg. Qed.

Lemma places_all s : summed 0 s -> runs none (for_each (start_places MAXKEY) (seq 0 n)) s (fun _ s' => summed n s').
Proof.
  intros H0. apply procs_loop; [done|]. intros k s1 Hk (Hlen & Hs & H). unfold start_places.
  replace (MAXKEY - 1) with (Z.of_nat (Z.to_nat (MAXKEY - 1))) by lia.
  eapply runs_mono; [|apply (places_loop MAXKEY k all_keys); [lia|lia|done|]].
  - intros [] s' [L Sh C]. rewrite Z2Nat.id in C by lia. split; [congruence|]. split; [intros j Hj; rewrite Sh; by apply Hs|].
    intros p q j Hp Hq Hj. pose proof (segment_range MAXKEY n HM Hn q j Hq Hj) as Hr. destruct (H p q j Hp Hq Hj) as [Hlate Hearly]. rewrite C.
    split; intros Hpk.
    + rewrite decide_False by (intros [-> _]; lia). apply Hlate. lia.
    + intros Hin. destruct (decide (p = k)) as [->|Hne]; [|rewrite decide_False by tauto; apply Hearly; [lia|done]].
      destruct (decide (j = 0)) as [->|Hj0].
      * rewrite decide_False by lia. rewrite Hlate by done. change (0 - 1) with (-1). unfold part. rewrite upto_neg_chain, total_neg. lia.
      * destruct Hin as [?|Hin]; [done|]. rewrite decide_True by lia. rewrite Hlate by done. rewrite Hs by lia.
        destruct (H k q (j - 1) Hk Hq Hin) as [Hl1 _]. rewrite Hl1 by done. lia.
  - intros j Hj. destruct (segment_exists MAXKEY n Hn j ltac:(lia)) as (q & Hq & Hin). destruct (H k q j Hk Hq Hin) as [Hl _]. rewrite Hl, Hs by lia.
    pose proof (chain_bounds q ((q - Z.of_nat k) `mod` Z.of_nat n) j ltac:(lia)) as Hc.
    pose proof (Z.mod_pos_bound (q - Z.of_nat k) (Z.of_nat n) ltac:(lia)). pose proof (total_bounds j ltac:(lia)). unfold part. lia.
Qed.

(** ** The ranks *)

(** How often processes [q], ..., [q - t] have key [k]. *)
Definition together (q t k : Z) : Z := upto (fun u => cnt (key_of (Z.to_nat ((q - u) `mod` Z.of_nat n))) k) t.

Lemma chain_together q t k : 0 <= k -> chain q t k = chain q t (k - 1) + together q t k.
Proof.
  intros Hk. unfold chain, together. rewrite <- upto_plus. apply upto_ext. intros u _. unfold own. by rewrite upto_step.
Qed.

Lemma total_together q k : 0 <= k -> total k = total (k - 1) + together q (Z.of_nat n - 1) k.
Proof. intros Hk. rewrite <- !(chain_full q). by apply chain_together. Qed.

Lemma together_mono q t t' k : t <= t' < Z.of_nat n -> together q t k <= together q t' k.
Proof. intros H. apply (upto_mono (Z.of_nat n)); [intros; apply cnt_nonneg|done]. Qed.

Lemma together_nonneg q t k : t < Z.of_nat n -> 0 <= together q t k.
Proof. intros H. apply (upto_nonneg (Z.of_nat n)); [intros; apply cnt_nonneg|done]. Qed.

(** Where process [p] is in the order of the segment [q]. *)
Definition turn (p : nat) (q : Z) : Z := (q - Z.of_nat p) `mod` Z.of_nat n.

Lemma turn_bounds p q : 0 <= turn p q < Z.of_nat n.
Proof. apply Z.mod_pos_bound. lia. Qed.

Lemma turn_inj p p' q : (p < n)%nat -> (p' < n)%nat -> turn p q = turn p' q -> p = p'.
Proof.
  intros Hp Hp' E. unfold turn in E. assert (Ep : forall r, (r < n)%nat -> Z.of_nat r = (q - (q - Z.of_nat r) `mod` Z.of_nat n) `mod` Z.of_nat n).
  { intros r Hr. rewrite Zminus_mod_idemp_r. replace (q - (q - Z.of_nat r)) with (Z.of_nat r) by lia. symmetry. apply Z.mod_small. lia. }
  pose proof (Ep p Hp) as E1. pose proof (Ep p' Hp') as E2. rewrite E in E1. lia.
Qed.

Lemma together_turn p q k : (p < n)%nat -> 0 <= q < Z.of_nat n -> together q (turn p q) k = together q (turn p q - 1) k + cnt (key_of p) k.
Proof.
  intros Hp Hq. unfold together. rewrite upto_step by apply turn_bounds. do 2 f_equal.
  unfold turn. rewrite Zminus_mod_idemp_r. replace (q - (q - Z.of_nat p)) with (Z.of_nat p) by lia. by rewrite Z.mod_small, Nat2Z.id by lia.
Qed.

(** The rank of the [t]th key [k] of process [p], in segment [q]. *)
Definition shared_place (p : nat) (q : Z) (t : nat) (k : Z) : Z :=
  total (k - 1) + together q (turn p q - 1) k + cnt (drop (S t) (key_of p)) k.

Lemma summed_counter s p q k : summed n s -> (p < n)%nat -> 0 <= q < Z.of_nat n -> k ∈ segment MAXKEY n q ->
  k = 0 \/ k - 1 ∈ segment MAXKEY n q -> lcl s p k = total (k - 1) + together q (turn p q - 1) k + cnt (key_of p) k.
Proof.
  intros (_ & _ & H) Hp Hq Hk Hin. destruct (H p q k Hp Hq Hk) as [_ Hl]. rewrite Hl by done.
  pose proof (segment_range MAXKEY n HM Hn q k Hq Hk). unfold part. fold (turn p q).
  rewrite (chain_together q (turn p q) k) by lia. rewrite together_turn by done. lia.
Qed.

(** No key is the first one of a segment, but for key 0. *)
Context (Hinside : forall key k q, key ∈ keys -> k ∈ key -> 0 < k -> bound MAXKEY n q <> k).

Lemma key_segment p k : k ∈ key_of p -> exists q, 0 <= q < Z.of_nat n /\ k ∈ segment MAXKEY n q /\ (k = 0 \/ k - 1 ∈ segment MAXKEY n q).
Proof.
  intros Hk. pose proof (key_of_range p k Hk) as Hr. destruct (segment_exists MAXKEY n Hn k Hr) as (q & Hq & Hin). exists q. split; [done|]. split; [done|].
  destruct (decide (k = 0)) as [->|Hne]; [by left|]. right. unfold key_of in Hk. destruct (keys !! p) as [key|] eqn:E; cbn in Hk; [|by apply elem_of_nil in Hk].
  pose proof (Hinside key k q (list_elem_of_lookup_2 _ _ _ E) Hk ltac:(lia)) as Hb. apply (elem_of_segment MAXKEY n) in Hin. apply elem_of_segment. lia.
Qed.

Definition ranked (p : nat) (key r : list Z) : Prop := length r = length key /\
  forall t k, key !! t = Some k -> exists q, 0 <= q < Z.of_nat n /\ k ∈ segment MAXKEY n q /\ r !! t = Some (shared_place p q t k).

(** The counters of the processes from [p] on are where their keys begin. *)
Definition ready (p : nat) (s : counters) : Prop := length (locals s) = n /\ forall p' k, (p <= p' < n)%nat -> k ∈ key_of p' ->
  exists q, 0 <= q < Z.of_nat n /\ k ∈ segment MAXKEY n q /\
    lcl s p' k = total (k - 1) + together q (turn p' q - 1) k + cnt (key_of p') k.

Lemma summed_ready s : summed n s -> ready 0 s.
Proof.
  intros Hs. split; [apply Hs|]. intros p k Hp Hk. destruct (key_segment p k Hk) as (q & Hq & Hin & Hb). exists q. split; [done|].
  split; [done|]. apply summed_counter; [done|lia|done|done|done].
Qed.

Lemma ready_bounds p s k : ready p s -> (p < n)%nat -> k ∈ key_of p -> cnt (key_of p) k <= lcl s p k <= INT_MAX.
Proof.
  intros [_ H] Hp Hk. destruct (H p k ltac:(lia) Hk) as (q & Hq & _ & E). rewrite E. pose proof (key_of_range p k Hk) as Hr.
  pose proof (turn_bounds p q) as Ht. pose proof (total_bounds (k - 1) ltac:(lia)). pose proof (together_nonneg q (turn p q - 1) k ltac:(lia)).
  pose proof (together_mono q (turn p q) (Z.of_nat n - 1) k ltac:(lia)) as Hm. rewrite (together_turn p q k Hp Hq) in Hm.
  pose proof (total_bounds k ltac:(lia)) as Hb. rewrite (total_together q k) in Hb by lia. unfold INT_MAX in *. lia.
Qed.

Lemma collect_runs keys' : forall p s, ready p s -> (p + length keys' = n)%nat -> (forall i key, keys' !! i = Some key -> key_of (p + i) = key) ->
  runs none (collect MAXKEY p keys') s (fun rs _ => length rs = length keys' /\
    forall i key r, keys' !! i = Some key -> rs !! i = Some r -> ranked (p + i) key r).
Proof.
  induction keys' as [|key keys' IH]; intros p s Hs Hp Hkey; [by eapply runs_ok|]. cbn [collect length] in *.
  pose proof (Hkey 0%nat key eq_refl) as E0. rewrite Nat.add_0_r in E0. pose proof Hs as [Hlen Hready].
  assert (Hrange : forall k, k ∈ key -> 0 <= k < MAXKEY) by (intros k Hk; rewrite <- E0 in Hk; by apply (key_of_range p)).
  destruct (rank_run MAXKEY key (locals s !!! p) Hrange) as (r & c' & R & Hl & Hr & _).
  { intros k Hk. fold (lcl s p k). rewrite <- E0 in *. apply ready_bounds; [done|lia|done]. }
  apply runs_bind. eapply runs_ok; [apply (on_local_run p _ s r c'); [lia|exact R]|]. apply runs_bind.
  eapply runs_mono; [|apply (IH (S p)); [|lia|]].
  - intros rs s2 [Hlr Hrs]. eapply runs_ok; [done|]. split; [cbn; by rewrite Hlr|]. intros [|i] key' r' Hk' Hr'.
    + injection Hk' as <-. injection Hr' as <-. rewrite Nat.add_0_r. split; [done|]. intros t k Ht.
      destruct (Hready p k ltac:(lia)) as (q & Hq & Hin & E); [rewrite E0; by eapply list_elem_of_lookup_2|]. exists q. split; [done|]. split; [done|].
      rewrite (Hr t k Ht). fold (lcl s p k). rewrite E. unfold shared_place. rewrite E0. f_equal.
      rewrite <- (take_drop_middle key t k Ht) at 1. rewrite cnt_app. cbn. rewrite Z.eqb_refl. lia.
    + replace (p + S i)%nat with (S p + i)%nat by lia. by apply Hrs.
  - split; [cbn; by rewrite length_insert|]. intros p' k Hp' Hk. destruct (Hready p' k ltac:(lia) Hk) as (q & Hq & Hin & E). exists q. split; [done|]. split; [done|].
    rewrite <- E. unfold lcl. cbn. by rewrite list_lookup_total_insert_ne by lia.
  - intros i key' Hi. replace (S p + i)%nat with (p + S i)%nat by lia. by apply Hkey.
Qed.

(** All together. *)
Lemma bucksort_all_runs ptr s : length keys = n -> 0 <= ptr <= MAXKEY -> counted 0 s ->
  runs none (bucksort_all MAXKEY n ptr keys) s (fun rs _ => length rs = n /\
    forall p key r, keys !! p = Some key -> rs !! p = Some r -> ranked p key r).
Proof.
  intros Hlen Hptr H0. unfold bucksort_all.
  apply runs_bind. eapply runs_mono; [|by apply count_all]. intros [] s1 H1.
  apply runs_bind. eapply runs_mono; [|by apply copy_all]. intros [] s2 H2.
  apply runs_bind. eapply runs_mono; [|by apply rounds_all]. intros [] s3 H3.
  apply runs_bind. eapply runs_mono; [|by apply places_all, summed_start]. intros [] s4 H4.
  eapply runs_mono; [|apply collect_runs; [by apply summed_ready|done|]].
  - intros rs s5 [Hl Hr]. split; [congruence|done].
  - intros i key Hi. unfold key_of. cbn. by rewrite Hi.
Qed.

(** The order of the places. *)
Lemma shared_place_range p q t k : (p < n)%nat -> 0 <= q < Z.of_nat n -> key_of p !! t = Some k ->
  total (k - 1) + together q (turn p q - 1) k <= shared_place p q t k < total (k - 1) + together q (turn p q) k /\
  together q (turn p q) k <= together q (Z.of_nat n - 1) k /\ 0 <= k.
Proof.
  intros Hp Hq Ht. pose proof (key_of_range p k (list_elem_of_lookup_2 _ _ _ Ht)) as Hr. unfold shared_place. rewrite together_turn by done.
  pose proof (cnt_nonneg (drop (S t) (key_of p)) k) as H0.
  assert (E : cnt (key_of p) k = cnt (take t (key_of p)) k + (1 + cnt (drop (S t) (key_of p)) k)).
  { rewrite <- (take_drop_middle (key_of p) t k Ht) at 1. rewrite cnt_app. cbn. by rewrite Z.eqb_refl. }
  pose proof (cnt_nonneg (take t (key_of p)) k). split; [lia|]. split; [|lia]. rewrite <- together_turn by done. apply together_mono. pose proof (turn_bounds p q). lia.
Qed.

Lemma total_mono j j' : j <= j' < MAXKEY -> total j <= total j'.
Proof. intros H. apply upto_le. intros u Hu. unfold own. apply (upto_mono MAXKEY); [intros; apply cnt_nonneg|done]. Qed.

Lemma shared_place_less p p' q q' t t' k k' : (p < n)%nat -> (p' < n)%nat -> 0 <= q < Z.of_nat n -> 0 <= q' < Z.of_nat n ->
  key_of p !! t = Some k -> key_of p' !! t' = Some k' ->
  k < k' \/ k = k' /\ q = q' /\ (turn p q < turn p' q \/ p = p' /\ (t' < t)%nat) -> shared_place p q t k < shared_place p' q' t' k'.
Proof.
  intros Hp Hp' Hq Hq' Ht Ht' Ho. pose proof (shared_place_range p q t k Hp Hq Ht) as (H1 & H2 & H3).
  pose proof (shared_place_range p' q' t' k' Hp' Hq' Ht') as (H1' & _ & H3'). pose proof (turn_bounds p' q') as Hb'.
  pose proof (together_nonneg q' (turn p' q' - 1) k' ltac:(lia)) as Hn0. destruct Ho as [Hlt|(<- & <- & [Hlt|[<- Hlt]])].
  - pose proof (total_together q k H3). pose proof (key_of_range p' k' (list_elem_of_lookup_2 _ _ _ Ht')).
    pose proof (total_mono k (k' - 1) ltac:(lia)). lia.
  - pose proof (together_mono q (turn p q) (turn p' q - 1) k ltac:(lia)). lia.
  - pose proof (place_order (key_of p) t t' k k H3 Ht Ht' ltac:(by right)) as Hpl. unfold place in Hpl. unfold shared_place. lia.
Qed.

Lemma shared_place_bounds p q t k : (p < n)%nat -> 0 <= q < Z.of_nat n -> key_of p !! t = Some k -> 0 <= shared_place p q t k < all_keys.
Proof.
  intros Hp Hq Ht. pose proof (shared_place_range p q t k Hp Hq Ht) as (H1 & H2 & H3). pose proof (turn_bounds p q).
  pose proof (key_of_range p k (list_elem_of_lookup_2 _ _ _ Ht)). pose proof (together_nonneg q (turn p q - 1) k ltac:(lia)).
  pose proof (total_together q k H3). pose proof (total_bounds k ltac:(lia)). pose proof (total_bounds (k - 1) ltac:(lia)). lia.
Qed.
End Counts.

Definition at2 (l : list (list Z)) (p t : nat) : option Z := row ← l !! p; row !! t.



(** The counter of the first key of a segment is not made into a place: the
    one before it belongs to another segment, which was added up in another
    order. *)
Example segment_start : ranks_of 4 [[0]; [2]] = [[0]; [0]].
Proof. vm_compute. reflexivity. Qed.
