(* ===== verification/TspHeap.v ===== *)
(** * Travelling salesman ([src/Tmk/apps/tsp_c/src]): the priority queue

    [PrioQ] is a heap in an array whose first slot is number one: no entry is
    before its parent.  [split_tour] and [find_solvable_tour] of [PQ.C] contain
    the two loops that restore the order after an entry has been added at the
    end, and after the last entry has been moved to the root.  They are here
    for any [less_than]. *)
From S2P Require Import Prelude Arrays.
Local Open Scope Z_scope.

Section Heap.
Context {V : Type} `{!Inhabited V} (less_than : V -> V -> bool).

Definition LEFT_CHILD (x : Z) : Z := Z.shiftl x 1.
Definition RIGHT_CHILD (x : Z) : Z := Z.shiftl x 1 + 1.

(** The loop of [split_tour]. *)
Fixpoint bubble_up (fuel : nat) (pq : Z) (q : gmap Z V) : gmap Z V :=
  match fuel with
  | O => q
  | S fuel' =>
      let parent := Z.shiftr pq 1 in
      if (1 <? pq) && less_than (q !!! pq) (q !!! parent) then bubble_up fuel' parent (swapped q parent pq) else q
  end.

(** The loop of [find_solvable_tour]. *)
Fixpoint push_down (fuel : nat) (last i : Z) (q : gmap Z V) : gmap Z V :=
  match fuel with
  | O => q
  | S fuel' =>
      if i <=? Z.shiftr last 1 then
        let left := LEFT_CHILD i in
        let right := RIGHT_CHILD i in
        let child := if (left =? last) || less_than (q !!! left) (q !!! right) then left else right in
        if less_than (q !!! child) (q !!! i) then push_down fuel' last child (swapped q i child) else q
      else q
  end.

(** A new entry in the slot after the last one; what is left when the root is
    taken. *)
Definition insert (last : Z) (x : V) (q : gmap Z V) : gmap Z V :=
  bubble_up (Z.to_nat (last + 1)) (last + 1) (<[last + 1 := x]> q).

Definition remove (last : Z) (q : gmap Z V) : gmap Z V :=
  push_down (Z.to_nat last) (last - 1) 1 (<[1 := q !!! last]> q).

(** ** The order *)
Definition le (x y : V) : Prop := less_than y x = false.

Definition heap (n : Z) (q : gmap Z V) : Prop := forall i, 2 <= i <= n -> le (q !!! Z.shiftr i 1) (q !!! i).

Context (less_asym : forall x y, less_than x y = true -> le x y) (le_trans : forall x y z, le x y -> le y z -> le x z).

Lemma le_refl x : le x x.
Proof. unfold le. destruct (less_than x x) eqn:E; [|done]. exfalso. pose proof (less_asym _ _ E) as H. unfold le in H. congruence. Qed.

Lemma half_bounds i : 2 <= i -> 1 <= Z.shiftr i 1 < i.
Proof. intros H. rewrite Z.shiftr_div_pow2 by lia. split; [apply Z.div_le_lower_bound|apply Z.div_lt_upper_bound]; lia. Qed.

Lemma half_children c i : 2 <= c -> Z.shiftr c 1 = i <-> c = LEFT_CHILD i \/ c = RIGHT_CHILD i.
Proof.
  intros H. unfold LEFT_CHILD, RIGHT_CHILD. rewrite Z.shiftr_div_pow2, Z.shiftl_mul_pow2 by lia. change (2 ^ 1) with 2.
  pose proof (Z.div_mod c 2). pose proof (Z.mod_pos_bound c 2). lia.
Qed.

Ltac slots := rewrite !swapped_lookup; repeat first [rewrite decide_True by lia | rewrite decide_False by lia].

Lemma bubble_up_heap n fuel : forall pq q, 1 <= pq <= n -> pq <= Z.of_nat fuel ->
  (forall i, 2 <= i <= n -> i <> pq -> le (q !!! Z.shiftr i 1) (q !!! i)) ->
  (forall i, 2 <= i <= n -> Z.shiftr i 1 = pq -> 2 <= pq -> le (q !!! Z.shiftr pq 1) (q !!! i)) ->
  heap n (bubble_up fuel pq q) /\ permutes 1 n q (bubble_up fuel pq q).
Proof.
  induction fuel as [|fuel IH]; intros pq q Hpq Hf H1 H2; [lia|]. cbn [bubble_up].
  destruct (Z.ltb_spec 1 pq) as [Hp|Hp]; cbn [andb]; [|split; [intros i Hi; apply H1; lia|done]].
  pose proof (half_bounds pq ltac:(lia)) as Hh. destruct (less_than (q !!! pq) (q !!! Z.shiftr pq 1)) eqn:El.
  - set (parent := Z.shiftr pq 1) in *. apply less_asym in El.
    assert (Hpar : forall i, 2 <= i <= n -> i <> pq -> Z.shiftr i 1 = parent -> le (q !!! parent) (q !!! i)).
    { intros i Hi Hne <-. by apply H1. }
    destruct (IH parent (swapped q parent pq)) as [Hh' P]; [lia|lia| | |split; [done|etrans; [|exact P]; apply swapped_permutes; lia]].
    + intros i Hi Hne. pose proof (half_bounds i ltac:(lia)). destruct (decide (i = pq)) as [->|Hpq'].
      { fold parent. slots. done. }
      destruct (decide (Z.shiftr i 1 = parent)) as [E|E].
      { rewrite E. slots. apply (le_trans _ (q !!! parent)); [done|]. by apply Hpar. }
      destruct (decide (Z.shiftr i 1 = pq)) as [E'|E']; [rewrite E'; slots; by apply H2; [lia| |lia]|]. slots. by apply H1; [lia|].
    + intros i Hi Hip H2p. pose proof (half_bounds parent H2p). pose proof (half_bounds i ltac:(lia)). destruct (decide (i = pq)) as [->|Hne]; slots; [apply H1; lia|].
      apply (le_trans _ (q !!! parent)); [apply H1; lia|]. by apply Hpar.
  - split; [|done]. intros i Hi. destruct (decide (i = pq)) as [->|]; [done|by apply H1].
Qed.

Lemma push_down_heap n fuel : forall i q, 1 <= i -> n - i < Z.of_nat fuel ->
  (forall j, 2 <= j <= n -> Z.shiftr j 1 <> i -> le (q !!! Z.shiftr j 1) (q !!! j)) ->
  (forall j, 2 <= j <= n -> Z.shiftr j 1 = i -> 2 <= i -> le (q !!! Z.shiftr i 1) (q !!! j)) ->
  heap n (push_down fuel n i q) /\ permutes 1 n q (push_down fuel n i q).
Proof.
  induction fuel as [|fuel IH]; intros i q Hi Hf H1 H2.
  { split; [|done]. intros j Hj. apply H1; [done|]. pose proof (half_bounds j ltac:(lia)). lia. }
  cbn [push_down]. destruct (Z.leb_spec i (Z.shiftr n 1)) as [Hin|Hin].
  2:{ split; [|done]. intros j Hj. apply H1; [done|]. intros <-. revert Hin. rewrite !Z.shiftr_div_pow2 by lia. change (2 ^ 1) with 2.
      pose proof (Z.div_le_mono j n 2). lia. }
  set (child := if _ || _ then _ else _).
  assert (Hc : 2 <= child <= n /\ Z.shiftr child 1 = i /\ forall j, 2 <= j <= n -> Z.shiftr j 1 = i -> le (q !!! child) (q !!! j)).
  { revert Hin. rewrite Z.shiftr_div_pow2 by lia. change (2 ^ 1) with 2. intros Hin. pose proof (Z.div_mod n 2). pose proof (Z.mod_pos_bound n 2).
    assert (Hl : LEFT_CHILD i = 2 * i) by (unfold LEFT_CHILD; rewrite Z.shiftl_mul_pow2 by lia; lia).
    assert (Hr : RIGHT_CHILD i = LEFT_CHILD i + 1) by done. subst child.
    destruct (Z.eqb_spec (LEFT_CHILD i) n) as [En|En]; cbn [orb].
    - split_and!; [lia|lia|apply half_children; [lia|by left]|]. intros j Hj [->| ->]%half_children; [apply le_refl|lia|lia].
    - destruct (less_than (q !!! LEFT_CHILD i) (q !!! RIGHT_CHILD i)) eqn:El.
      + split_and!; [lia|lia|apply half_children; [lia|by left]|]. intros j Hj [->| ->]%half_children; [apply le_refl|by apply less_asym|lia].
      + split_and!; [lia|lia|apply half_children; [lia|by right]|]. intros j Hj [->| ->]%half_children; [done|apply le_refl|lia]. }
  clearbody child. destruct Hc as (Hcn & Hci & Hcmin). pose proof (half_bounds child ltac:(lia)) as Hcb. rewrite Hci in Hcb.
  destruct (less_than (q !!! child) (q !!! i)) eqn:El.
  - apply less_asym in El.
    destruct (IH child (swapped q i child)) as [Hh' P]; [lia|lia| | |split; [done|etrans; [|exact P]; apply swapped_permutes; lia]].
    + intros j Hj Hne. pose proof (half_bounds j ltac:(lia)). destruct (decide (j = i)) as [->|Hji].
      { slots. apply H2; [lia|done|lia]. }
      destruct (decide (Z.shiftr j 1 = i)) as [E|E]; [rewrite E; destruct (decide (j = child)) as [->|]; slots; [done|by apply Hcmin]|].
      assert (j <> child) by (intros ->; done). slots. by apply H1.
    + intros j Hj Hjc H2c. pose proof (half_bounds j ltac:(lia)). rewrite Hci. slots. rewrite <- Hjc. apply H1; [done|lia].
  - split; [|done]. intros j Hj. destruct (decide (Z.shiftr j 1 = i)) as [E|E]; [rewrite E|by apply H1].
    apply (le_trans _ (q !!! child)); [done|by apply Hcmin].
Qed.

(** The root is before all. *)
Lemma heap_root n q : heap n q -> forall i, 1 <= i <= n -> le (q !!! 1) (q !!! i).
Proof.
  intros H i Hi. destruct Hi as [Hi0 Hi]. revert Hi. pattern i. apply (Zlt_lower_bound_ind _ 1); [|done].
  clear i Hi0. intros i IH Hi0 Hi. destruct (decide (i = 1)) as [->|]; [apply le_refl|]. pose proof (half_bounds i ltac:(lia)).
  apply (le_trans _ (q !!! Z.shiftr i 1)); [apply IH; lia|apply H; lia].
Qed.

Lemma heap_ext n q q' : (forall i, 1 <= i <= n -> q' !!! i = q !!! i) -> heap n q -> heap n q'.
Proof. intros E H i Hi. pose proof (half_bounds i ltac:(lia)). rewrite !E by lia. by apply H. Qed.

Lemma insert_ok n x q : 0 <= n -> heap n q ->
  heap (n + 1) (insert n x q) /\ seg (insert n x q) 1 (n + 1) ≡ₚ x :: seg q 1 n.
Proof.
  intros Hn H. unfold insert. set (q1 := <[n + 1 := x]> q).
  assert (E : forall i, i <> n + 1 -> q1 !!! i = q !!! i) by (intros; by apply lookup_total_insert_ne).
  destruct (bubble_up_heap (n + 1) (Z.to_nat (n + 1)) (n + 1) q1) as [Hh [P _]]; [lia|lia| |intros i Hi Hi2; pose proof (half_bounds i); lia|].
  - intros i Hi Hne. pose proof (half_bounds i ltac:(lia)). rewrite !E by lia. apply H. lia.
  - split; [done|]. rewrite P, (seg_split q1 1 (n + 1) (n + 1)), seg_one by lia. replace (n + 1 - 1) with n by lia.
    rewrite (seg_ext q q1) by (intros i Hi; apply E; lia). subst q1. rewrite lookup_total_insert_eq. rewrite Permutation_app_comm. done.
Qed.

Lemma remove_ok n q : 1 <= n -> heap n q ->
  heap (n - 1) (remove n q) /\ q !!! 1 :: seg (remove n q) 1 (n - 1) ≡ₚ seg q 1 n.
Proof.
  intros Hn H. unfold remove. set (q1 := <[1 := q !!! n]> q).
  assert (E : forall i, i <> 1 -> q1 !!! i = q !!! i) by (intros; by apply lookup_total_insert_ne).
  destruct (push_down_heap (n - 1) (Z.to_nat n) 1 q1) as [Hh [P _]]; [lia|lia| |lia|].
  - intros j Hj Hne. pose proof (half_bounds j ltac:(lia)). rewrite !E by lia. apply H. lia.
  - split; [done|]. rewrite P. destruct (decide (n = 1)) as [->|Hn1]; [by rewrite seg_one|].
    rewrite (seg_split q 1 2 n), (seg_split q 2 n n), (seg_split q1 1 2 (n - 1)) by lia. change (2 - 1) with 1. rewrite !seg_one.
    rewrite (seg_ext q q1 2 (n - 1)) by (intros i Hi; apply E; lia). subst q1. rewrite lookup_total_insert_eq. cbn.
    constructor. by rewrite Permutation_app_comm.
Qed.
End Heap.

(** The order of the entries matters only. *)
Lemma heap_less {V : Type} `{!Inhabited V} (less less' : V -> V -> bool) n (q : gmap Z V) :
  (forall x y, x ∈ seg q 1 n -> y ∈ seg q 1 n -> less' x y = less x y) -> heap less n q -> heap less' n q.
Proof.
  intros E H i Hi. pose proof (half_bounds i ltac:(lia)). unfold le. rewrite E; [by apply H|..]; apply seg_elem; eexists; (split; [|done]); lia.
Qed.

(** The queue serves the entries in their order, for any [less_than] that is
    asymmetric and whose negation is transitive: an entry that is added is in
    the heap with the others; the root is before all; and what is left without
    it is a heap of all the others. *)
Theorem queue_best_first {V : Type} `{!Inhabited V} (less_than : V -> V -> bool) n x (q : gmap Z V) :
  (forall x y, less_than x y = true -> less_than y x = false) ->
  (forall x y z, less_than y x = false -> less_than z y = false -> less_than z x = false) -> 1 <= n -> heap less_than n q ->
  (heap less_than (n + 1) (insert less_than n x q) /\ seg (insert less_than n x q) 1 (n + 1) ≡ₚ x :: seg q 1 n) /\
  (forall e, e ∈ seg q 1 n -> less_than e (q !!! 1) = false) /\
  heap less_than (n - 1) (remove less_than n q) /\ q !!! 1 :: seg (remove less_than n q) 1 (n - 1) ≡ₚ seg q 1 n.
Proof.
  intros Ha Ht Hn H. split; [apply insert_ok; done || lia|]. split; [|by apply remove_ok].
  intros e (i & Hi & ->)%seg_elem. by apply (heap_root less_than Ha Ht n q H).
Qed.
