(* ===== verification/Tsp.v ===== *)
(** * Travelling salesman ([src/Tmk/apps/tsp_c/src]): tours and bounds

    The shared memory of the program, the tours in it ([TOURS.C]), the best
    tour so far, and the lower bound for the tours that begin with a given path
    ([calc_bound] of [SOLVE.C]).  The priority queue is in [TspHeap], the
    exhaustive search of one process in [TspVisit], and the loop that splits
    tours and solves them in [TspSolve]. *)
From S2P Require Import Prelude Arrays.
Local Open Scope Z_scope.

Definition MAX_TOUR_SIZE : Z := 32.
Definition MAX_NUM_TOURS : Z := 5000.
Definition BIGINT : Z := 2000000.
Definition END_TOUR : Z := -1.

Record TourElement : Type := Tour {
  prefix : gmap Z Z;
  conn : Z;
  last : Z;
  prefix_weight : Z;
  lower_bound : Z;
  mst_weight : Z
}.

#[export] Instance TourElement_inhabited : Inhabited TourElement := populate (Tour (zeros MAX_TOUR_SIZE) 0 0 0 0 0).

(** [MinTourLen] and [MinTour]. *)
Record best : Type := Best { MinTourLen : Z; MinTour : list Z }.

(** [GlobalMemory] without the graph, which does not change: [TourStack] up to
    [TourStackTop], the top first; the slots of [PrioQ] hold an index and a
    priority; [TourLock]: the process holds that lock. *)
Record global : Type := Global {
  TourStack : list Z;
  Done : bool;
  PrioQLast : Z;
  minimum : best;
  TourLock : bool;
  PrioQ : gmap Z (Z * Z);
  Tours : gmap Z TourElement
}.

Definition set_stack (l : list Z) (g : global) : global :=
  Global l (Done g) (PrioQLast g) (minimum g) (TourLock g) (PrioQ g) (Tours g).
Definition set_Done (g : global) : global :=
  Global (TourStack g) true (PrioQLast g) (minimum g) (TourLock g) (PrioQ g) (Tours g).
Definition set_queue (n : Z) (q : gmap Z (Z * Z)) (g : global) : global :=
  Global (TourStack g) (Done g) n (minimum g) (TourLock g) q (Tours g).
Definition set_minimum (b : best) (g : global) : global :=
  Global (TourStack g) (Done g) (PrioQLast g) b (TourLock g) (PrioQ g) (Tours g).
Definition set_lock (h : bool) (g : global) : global :=
  Global (TourStack g) (Done g) (PrioQLast g) (minimum g) h (PrioQ g) (Tours g).
Definition set_tour (i : Z) (t : TourElement) (g : global) : global :=
  Global (TourStack g) (Done g) (PrioQLast g) (minimum g) (TourLock g) (PrioQ g) (<[i := t]> (Tours g)).

(** [&global->Tours[i]] *)
Definition tour (g : global) (i : Z) : TourElement := Tours g !!! i.
Definition get_Tour (i : Z) : M global TourElement :=
  if (0 <=? i) && (i <? MAX_NUM_TOURS) then gets (fun g => tour g i) else undef.

(** [conn & (1 << i)] *)
Definition in_conn (t : TourElement) (i : Z) : bool := Z.testbit (conn t) i.

(** [global->TourStack[++global->TourStackTop] = i] *)
Definition free_tour (i : Z) : M global unit :=
  g ← get;
  if Z.of_nat (length (TourStack g)) <? MAX_NUM_TOURS then modify (set_stack (i :: TourStack g)) else undef.

(** The locks of the library: see [Tmk_lock_acquire] in [Lock]. *)
Definition lock_acquire : M global unit :=
  g ← get; if TourLock g then exit_with "Tmk_lock_acquire: REacquired" else modify (set_lock true).
Definition lock_release : M global unit := modify (set_lock false).

(** [best] is only read again under the lock if it may be the new minimum. *)
Definition set_best (TspSize len : Z) (path : gmap Z Z) (b : best) : best :=
  if MinTourLen b <=? len then b else Best len (seg path 0 (TspSize - 1)).

Section Graph.
Context (TspSize StartNode : Z) (weights : Z -> Z -> Z).

(** ** [calc_bound] *)

(** The two lowest weights of edges from [i] to nodes that are not in the tour
    or at one of its ends. *)
Definition wt_step (curr : TourElement) (i : Z) (acc : Z * Z) (j : Z) : Z * Z :=
  let '(wt1, wt2) := acc in
  let wt := weights i j in
  if (wt =? 0) || (in_conn curr j && negb (j =? prefix curr !!! 0) && negb (j =? prefix curr !!! last curr)) then acc
  else if wt <? wt1 then (wt, wt1)
  else if wt <? wt2 then (wt1, wt) else acc.

Definition node_bound (curr : TourElement) (i : Z) : Z :=
  let '(wt1, wt2) := foldl (wt_step curr i) (BIGINT, BIGINT) (seqZ 0 TspSize) in
  if negb (wt2 =? BIGINT) then Z.shiftr (wt1 + wt2) 1 else if negb (wt1 =? BIGINT) then wt1 else 0.

Definition unconnected (curr : TourElement) : list Z := filter (fun i => in_conn curr i = false) (seqZ 0 TspSize).

Definition sum_bounds (curr : TourElement) : Z := foldr (fun i acc => node_bound curr i + acc) 0 (unconnected curr).

(** The last part: the bound is stored in the tour. *)
Definition store_bound (i : Z) : M global Z :=
  curr ← get_Tour i;
  let mst := if last curr =? TspSize - 1 then 0 else sum_bounds curr + 1 in
  modify (set_tour i (Tour (prefix curr) (conn curr) (last curr) (prefix_weight curr) (mst + prefix_weight curr) mst));;
  mret i.

(** One node is left: the tour is complete. *)
Definition complete_tour (idx i : Z) : M global Z :=
  curr ← get_Tour idx;
  if TspSize <? MAX_TOUR_SIZE then
    let p := <[TspSize := StartNode]> (<[TspSize - 1 := i]> (prefix curr)) in
    let w := prefix_weight curr + (weights (p !!! (TspSize - 2)) i + weights i (p !!! StartNode)) in
    g ← get;
    when (w <? MinTourLen (minimum g)) (modify (set_minimum (set_best TspSize w p (minimum g))));;
    modify (set_tour idx (Tour p (conn curr) (last curr) w BIGINT (mst_weight curr)));;
    lock_acquire;;
    free_tour idx;;
    lock_release;;
    mret END_TOUR
  else undef.

Definition calc_bound (idx : Z) : M global Z :=
  curr ← get_Tour idx;
  match unconnected curr with
  | i :: _ => if last curr =? TspSize - 2 then complete_tour idx i else store_bound idx
  | [] => store_bound idx
  end.

(** ** [new_tour] *)
Definition extend (old prev : TourElement) (move : Z) : TourElement :=
  let p := foldl (fun p i => <[i := prefix prev !!! i]> p) (prefix old) (seqZ 0 TspSize) in
  Tour (<[last prev + 1 := move]> p) (Z.setbit (conn prev) move) (last prev + 1)
    (prefix_weight prev + weights (p !!! last prev) move) (lower_bound old) (mst_weight old).

Definition new_tour (prev_index move : Z) : M global Z :=
  g ← get;
  match TourStack g with
  | [] => exit_with "TourStackTop"
  | index :: stack =>
      modify (set_stack stack);;
      old ← get_Tour index;
      prev ← get_Tour prev_index;
      if last prev + 1 <? MAX_TOUR_SIZE then
        modify (set_tour index (extend old prev move));;
        calc_bound index
      else undef
  end.

(** ** Paths and tours *)
Fixpoint path_weight (l : list Z) : Z :=
  match l with x :: (y :: _) as l' => weights x y + path_weight l' | _ => 0 end.

Fixpoint connected (l : list Z) : bool :=
  match l with x :: (y :: _) as l' => negb (weights x y =? 0) && connected l' | _ => true end.

(** The path that a tour consists of. *)
Definition path_of (t : TourElement) : list Z := seg (prefix t) 0 (last t).

Record tour_ok (t : TourElement) : Prop := {
  to_last : 0 <= last t < TspSize;
  to_start : prefix t !!! 0 = StartNode;
  to_range : forall x, x ∈ path_of t -> 0 <= x < TspSize;
  to_nodup : NoDup (path_of t);
  to_conn : forall i, 0 <= i < TspSize -> in_conn t i = true <-> i ∈ path_of t;
  to_weight : prefix_weight t = path_weight (path_of t);
  to_connected : connected (path_of t) = true
}.

(** A complete tour, without the way back to the start. *)
Definition is_tour (l : list Z) : Prop :=
  l ≡ₚ seqZ 0 TspSize /\ head l = Some StartNode /\ connected (l ++ [StartNode]) = true.

Definition tour_weight (l : list Z) : Z := path_weight (l ++ [StartNode]).
End Graph.

Lemma path_weight_app weights l1 x l2 : path_weight weights (l1 ++ x :: l2) = path_weight weights (l1 ++ [x]) + path_weight weights (x :: l2).
Proof.
  induction l1 as [|y l1 IH]; [done|]. destruct l1 as [|y' l1]; [cbn; destruct l2; lia|].
  change (weights y y' + path_weight weights ((y' :: l1) ++ x :: l2) = weights y y' + path_weight weights ((y' :: l1) ++ [x]) + path_weight weights (x :: l2)). lia.
Qed.

Lemma connected_app weights l1 x l2 : connected weights (l1 ++ x :: l2) = connected weights (l1 ++ [x]) && connected weights (x :: l2).
Proof.
  induction l1 as [|y l1 IH]; [done|]. destruct l1 as [|y' l1].
  { change (negb (weights y x =? 0) && connected weights (x :: l2) = negb (weights y x =? 0) && true && connected weights (x :: l2)). by rewrite andb_true_r. }
  change (negb (weights y y' =? 0) && connected weights ((y' :: l1) ++ x :: l2) =
    negb (weights y y' =? 0) && connected weights ((y' :: l1) ++ [x]) && connected weights (x :: l2)). rewrite IH. by rewrite andb_assoc.
Qed.

Lemma last_cons_default {A : Type} (l : list A) x d : List.last (x :: l) d = List.last l x.
Proof.
  revert x d. induction l as [|y l IH]; intros x d; [done|]. change (List.last (x :: y :: l) d) with (List.last (y :: l) d). by rewrite !IH.
Qed.

(** ** The bound *)
Section Bound.
Context (TspSize StartNode : Z) (weights : Z -> Z -> Z).
Context (weights_nonneg : forall i j, 0 <= weights i j) (weights_sym : forall i j, weights i j = weights j i).

(** The nodes to which [calc_bound] counts edges from [i]. *)
Definition candidate (t : TourElement) (i j : Z) : Prop :=
  weights i j <> 0 /\ (in_conn t j = true -> j = prefix t !!! 0 \/ j = prefix t !!! last t).

Lemma wt_step_candidate t i wt1 wt2 j : candidate t i j -> wt_step weights t i (wt1, wt2) j =
  if weights i j <? wt1 then (weights i j, wt1) else if weights i j <? wt2 then (wt1, weights i j) else (wt1, wt2).
Proof.
  intros [Hw Hc]. unfold wt_step. rewrite (proj2 (Z.eqb_neq _ _) Hw). cbn [orb].
  destruct (in_conn t j); [|done]. destruct (Hc eq_refl) as [->| ->]; rewrite Z.eqb_refl; cbn; [done|]. by rewrite andb_false_r.
Qed.

(** [wt1] is at most every weight of a list of candidates, and [wt2] at most
    every one but one. *)
Record lowest (t : TourElement) (i : Z) (l : list Z) (wt1 wt2 : Z) : Prop := {
  lo_le : wt1 <= wt2 <= BIGINT;
  lo_one : forall j, j ∈ l -> candidate t i j -> wt1 <= weights i j;
  lo_two : forall j k, j ∈ l -> k ∈ l -> j <> k -> candidate t i j -> candidate t i k -> wt2 <= Z.max (weights i j) (weights i k)
}.

Lemma wt_step_lowest t i l wt1 wt2 j : lowest t i l wt1 wt2 ->
  let '(wt1', wt2') := wt_step weights t i (wt1, wt2) j in lowest t i (l ++ [j]) wt1' wt2'.
Proof.
  intros [L1 L2 L3]. destruct (wt_step weights t i (wt1, wt2) j) as [wt1' wt2'] eqn:E.
  assert (Hcase : wt1' <= wt1 /\ wt2' <= wt2 /\ wt1' <= wt2' /\ (candidate t i j -> wt1' <= weights i j /\ wt2' <= Z.max wt1 (weights i j))).
  { revert E. unfold wt_step. destruct (_ || _) eqn:Eo.
    - intros [= <- <-]. split_and!; [lia..|]. intros [Hw Hc]. exfalso. apply orb_true_iff in Eo as [Eo|Eo]; [lia|].
      apply andb_true_iff in Eo as [[Ec E1]%andb_true_iff E2]. destruct (Hc Ec) as [->| ->]; rewrite Z.eqb_refl in *; done.
    - destruct (Z.ltb_spec (weights i j) wt1); [intros [= <- <-]; lia|]. destruct (Z.ltb_spec (weights i j) wt2); intros [= <- <-]; lia. }
  destruct Hcase as (H1 & H2 & H3 & H4). split; [lia| |].
  - intros k Hk Hc. apply elem_of_app in Hk as [Hk|Hk]; [specialize (L2 k Hk Hc); lia|]. apply list_elem_of_singleton in Hk as ->. by apply H4.
  - intros k m Hk Hm Hne Hck Hcm. apply elem_of_app in Hk as [Hk|Hk], Hm as [Hm|Hm].
    + specialize (L3 k m Hk Hm Hne Hck Hcm). lia.
    + apply list_elem_of_singleton in Hm as ->. specialize (L2 k Hk Hck). specialize (H4 Hcm). lia.
    + apply list_elem_of_singleton in Hk as ->. specialize (L2 m Hm Hcm). specialize (H4 Hck). lia.
    + apply list_elem_of_singleton in Hk as ->. apply list_elem_of_singleton in Hm as ->. done.
Qed.

Lemma lowest_all t i l : forall l0 wt1 wt2, lowest t i l0 wt1 wt2 ->
  let '(wt1', wt2') := foldl (wt_step weights t i) (wt1, wt2) l in lowest t i (l0 ++ l) wt1' wt2'.
Proof.
  induction l as [|j l IH]; intros l0 wt1 wt2 H; cbn [foldl]; [by rewrite app_nil_r|].
  pose proof (wt_step_lowest t i l0 wt1 wt2 j H) as Hs. destruct (wt_step weights t i (wt1, wt2) j) as [wt1' wt2'].
  specialize (IH _ _ _ Hs). by rewrite <- app_assoc in IH.
Qed.

(** Twice the bound of a node is at most the weight of any two of its edges. *)
Lemma node_bound_two t i j k : 0 <= j < TspSize -> 0 <= k < TspSize -> j <> k -> candidate t i j -> candidate t i k ->
  2 * node_bound TspSize weights t i <= weights i j + weights i k.
Proof.
  intros Hj Hk Hne Hcj Hck. unfold node_bound.
  assert (H0 : lowest t i [] BIGINT BIGINT) by (split; [lia|by intros ? []%elem_of_nil|by intros ? ? []%elem_of_nil]).
  pose proof (lowest_all t i (seqZ 0 TspSize) [] BIGINT BIGINT H0) as H. destruct (foldl _ _ _) as [wt1 wt2]. destruct H as [L1 L2 L3].
  cbn [app] in *. assert (Ej : j ∈ seqZ 0 TspSize) by (apply elem_of_seqZ; lia). assert (Ek : k ∈ seqZ 0 TspSize) by (apply elem_of_seqZ; lia).
  pose proof (L2 j Ej Hcj). pose proof (L2 k Ek Hck). pose proof (L3 j k Ej Ek Hne Hcj Hck).
  destruct (Z.eqb_spec wt2 BIGINT); cbn [negb].
  - destruct (Z.eqb_spec wt1 BIGINT); cbn [negb]; [|lia]. pose proof (weights_nonneg i j). pose proof (weights_nonneg i k). lia.
  - rewrite Z.shiftr_div_pow2 by lia. change (2 ^ 1) with 2. pose proof (Z.div_mod (wt1 + wt2) 2). pose proof (Z.mod_pos_bound (wt1 + wt2) 2). lia.
Qed.

Lemma node_bound_nonneg t i : 0 <= node_bound TspSize weights t i.
Proof.
  unfold node_bound. assert (H : forall l wt1 wt2, 0 <= wt1 -> 0 <= wt2 -> let '(w1, w2) := foldl (wt_step weights t i) (wt1, wt2) l in 0 <= w1 /\ 0 <= w2).
  { induction l as [|j l IH]; intros wt1 wt2 H1 H2; [done|]. cbn [foldl]. destruct (wt_step weights t i (wt1, wt2) j) as [w1 w2] eqn:E.
    apply IH; revert E; unfold wt_step; pose proof (weights_nonneg i j); (destruct (_ || _); [intros [= <- <-]; done|]);
      (destruct (_ <? _); [intros [= <- <-]; done|]); destruct (_ <? _); intros [= <- <-]; done. }
  specialize (H (seqZ 0 TspSize) BIGINT BIGINT ltac:(done) ltac:(done)). destruct (foldl _ _ _) as [w1 w2]. destruct H as [H1 H2].
  destruct (negb _); [|by destruct (negb _)]. rewrite Z.shiftr_div_pow2 by lia. apply Z.div_pos; lia.
Qed.

Lemma sum_bounds_nonneg t : 0 <= sum_bounds TspSize weights t.
Proof. unfold sum_bounds. induction (unconnected TspSize t) as [|i l IH]; [done|]. cbn [foldr]. pose proof (node_bound_nonneg t i). lia. Qed.

(** The nodes of a path with both neighbours. *)
Fixpoint triples (x : Z) (l : list Z) (z : Z) : list (Z * Z * Z) :=
  match l with [] => [] | y :: l' => (x, y, List.hd z l') :: triples y l' z end.

(** A path in which each edge is counted at both ends. *)
Lemma path_twice l : forall x z, l <> [] -> 2 * path_weight weights (x :: l ++ [z]) =
  weights x (List.hd z l) + weights (List.last l x) z +
  foldr (fun '(a, b, c) acc => weights a b + weights b c + acc) 0 (triples x l z).
Proof.
  induction l as [|y l IH]; intros x z Hl; [done|]. destruct l as [|y' l]; [cbn; lia|].
  specialize (IH y z ltac:(done)). change (path_weight weights (x :: (y :: y' :: l) ++ [z])) with (weights x y + path_weight weights (y :: (y' :: l) ++ [z])).
  cbn [triples foldr List.hd] in *. rewrite (last_cons_default (y' :: l) y x).
  lia.
Qed.

Lemma connected_ends l : forall x z, connected weights (x :: l ++ [z]) = true ->
  weights x (List.hd z l) <> 0 /\ weights (List.last l x) z <> 0.
Proof.
  induction l as [|y l IH]; intros x z Hc.
  - cbn in *. rewrite andb_true_r in Hc. apply negb_true_iff, Z.eqb_neq in Hc. done.
  - change (negb (weights x y =? 0) && connected weights (y :: l ++ [z]) = true) in Hc. apply andb_true_iff in Hc as [Hxy Hc].
    apply negb_true_iff, Z.eqb_neq in Hxy. destruct (IH y z Hc) as [_ Hl]. split; [done|]. rewrite last_cons_default. done.
Qed.

(** The bounds of the nodes of a path, whose ends are the ends of the tour. *)
Lemma triples_bound t l : forall x z, NoDup (x :: l) -> z ∉ l -> (forall j, j ∈ x :: l -> 0 <= j < TspSize) -> 0 <= z < TspSize ->
  (in_conn t x = true -> x = prefix t !!! 0 \/ x = prefix t !!! last t) -> (forall j, j ∈ l -> in_conn t j = false) ->
  (in_conn t z = true -> z = prefix t !!! 0 \/ z = prefix t !!! last t) -> (x <> z \/ (2 <= length l)%nat) ->
  connected weights (x :: l ++ [z]) = true ->
  2 * foldr (fun i acc => node_bound TspSize weights t i + acc) 0 l <=
  foldr (fun '(a, b, c) acc => weights a b + weights b c + acc) 0 (triples x l z).
Proof.
  induction l as [|y l IH]; intros x z Hnd Hz Hr Hzr Hx Hl Hzc Hne Hc; [done|]. cbn [triples foldr].
  apply NoDup_cons in Hnd as [Hxl Hnd]. pose proof (Hr y ltac:(right; left)) as Hyr.
  assert (Hc' : negb (weights x y =? 0) && connected weights (y :: l ++ [z]) = true) by exact Hc.
  apply andb_true_iff in Hc' as [Hxy Hc1].
  assert (Hyc : in_conn t y = false) by (apply Hl; left).
  assert (Hrest : 2 * foldr (fun i acc => node_bound TspSize weights t i + acc) 0 l <=
    foldr (fun '(a, b, c) acc => weights a b + weights b c + acc) 0 (triples y l z)).
  { apply IH; try done; [set_solver|intros j Hj; apply Hr; by right|congruence|intros j Hj; apply Hl; by right|].
    left. intros ->. apply Hz. left. }
  set (w := List.hd z l) in *. assert (Hw : y <> w /\ 0 <= w < TspSize /\ candidate t y w /\ x <> w).
  { subst w. destruct l as [|w l]; cbn in *.
    - split_and!; [intros ->; apply Hz; left|lia|lia| |].
      + split; [|done]. intros E. rewrite E in Hc1. done.
      + destruct Hne; [done|lia].
    - assert (Ewc : in_conn t w = false) by (apply Hl; right; left). apply andb_true_iff in Hc1 as [Hyw _].
      split_and!; [apply NoDup_cons in Hnd as [Hnd _]; set_solver|apply Hr; right; right; left|apply Hr; right; right; left| |set_solver].
      split; [intros E; rewrite E in Hyw; done|congruence]. }
  destruct Hw as (_ & Hwr & Hwc & Hxw).
  assert (Hxc : candidate t y x) by (split; [rewrite weights_sym; intros E; rewrite E in Hxy; done|done]).
  pose proof (node_bound_two t y x w (Hr x ltac:(left)) Hwr Hxw Hxc Hwc) as Hb. rewrite (weights_sym x y). lia.
Qed.

Lemma sum_bounds_perm t l : l ≡ₚ unconnected TspSize t ->
  sum_bounds TspSize weights t = foldr (fun i acc => node_bound TspSize weights t i + acc) 0 l.
Proof.
  intros E. unfold sum_bounds. apply (foldr_permutation_proper (=) (fun i acc => node_bound TspSize weights t i + acc) 0); [|by symmetry].
  intros x y z. lia.
Qed.

Lemma bound_rest t l : tour_ok TspSize StartNode weights t -> (2 <= length l)%nat -> l ≡ₚ unconnected TspSize t ->
  connected weights (prefix t !!! last t :: l ++ [StartNode]) = true ->
  sum_bounds TspSize weights t + 1 <= path_weight weights (prefix t !!! last t :: l ++ [StartNode]).
Proof.
  intros H Hl E Hc. pose proof (to_last _ _ _ _ H) as Hlast.
  assert (Hmem : forall j, j ∈ l -> 0 <= j < TspSize /\ in_conn t j = false).
  { intros j Hj. rewrite E in Hj. unfold unconnected in Hj. apply list_elem_of_filter in Hj as [Hj Hr]. apply elem_of_seqZ in Hr. split; [lia|done]. }
  assert (Hend : forall k, 0 <= k <= last t -> prefix t !!! k ∈ path_of t) by (intros k Hk; apply seg_elem; by exists k).
  assert (Hx : in_conn t (prefix t !!! last t) = true).
  { apply (to_conn _ _ _ _ H); [apply (to_range _ _ _ _ H)|]; apply Hend; lia. }
  assert (Hz : in_conn t StartNode = true).
  { rewrite <- (to_start _ _ _ _ H). apply (to_conn _ _ _ _ H); [apply (to_range _ _ _ _ H)|]; apply Hend; lia. }
  rewrite (sum_bounds_perm t l E). pose proof (path_twice l (prefix t !!! last t) StartNode ltac:(intros Enil; rewrite Enil in Hl; cbn in Hl; lia)) as Htw.
  pose proof (triples_bound t l (prefix t !!! last t) StartNode) as Hb.
  assert (Hne : forall j, j ∈ l -> j <> prefix t !!! last t /\ j <> StartNode).
  { intros j Hj. destruct (Hmem j Hj) as [_ Hf]. split; intros ->; congruence. }
  specialize (Hb ltac:(apply NoDup_cons; split; [intros Hin; by destruct (Hne _ Hin)|rewrite E; apply NoDup_filter, NoDup_seqZ])).
  specialize (Hb ltac:(intros Hin; by destruct (Hne _ Hin))).
  assert (Hends : weights (prefix t !!! last t) (List.hd StartNode l) <> 0 /\ weights (List.last l (prefix t !!! last t)) StartNode <> 0) by by apply connected_ends.
  pose proof (weights_nonneg (prefix t !!! last t) (List.hd StartNode l)). pose proof (weights_nonneg (List.last l (prefix t !!! last t)) StartNode).
  enough (2 * foldr (fun i acc => node_bound TspSize weights t i + acc) 0 l <=
    foldr (fun '(a, b, c) acc => weights a b + weights b c + acc) 0 (triples (prefix t !!! last t) l StartNode)) by lia.
  apply Hb; try done.
  - intros j [->|Hj]%elem_of_cons; [apply (to_range _ _ _ _ H), Hend; lia|by apply Hmem].
  - rewrite <- (to_start _ _ _ _ H). apply (to_range _ _ _ _ H), Hend. lia.
  - by right.
  - intros j Hj. by apply Hmem.
  - intros _. left. symmetry. apply (to_start _ _ _ _ H).
  - by right.
Qed.

Lemma path_unconnected t : tour_ok TspSize StartNode weights t -> path_of t ++ unconnected TspSize t ≡ₚ seqZ 0 TspSize.
Proof.
  intros H. apply NoDup_Permutation; [|apply NoDup_seqZ|].
  - apply NoDup_app. split_and!; [apply (to_nodup _ _ _ _ H)| |apply NoDup_filter, NoDup_seqZ].
    intros x Hx [Hc _]%list_elem_of_filter. pose proof (to_range _ _ _ _ H x Hx) as Hr. apply (to_conn _ _ _ _ H x Hr) in Hx. congruence.
  - intros x. rewrite elem_of_app. unfold unconnected. rewrite list_elem_of_filter, elem_of_seqZ. split.
    + intros [Hx|[_ Hx]]; [pose proof (to_range _ _ _ _ H x Hx); lia|done].
    + intros Hx. destruct (in_conn t x) eqn:E; [left; apply (to_conn _ _ _ _ H); [lia|done]|by right].
Qed.

Lemma path_of_snoc t : 0 <= last t -> path_of t = seg (prefix t) 0 (last t - 1) ++ [prefix t !!! last t].
Proof. intros H. unfold path_of. rewrite (seg_split _ 0 (last t) (last t)), seg_one by lia. done. Qed.

Lemma path_length t : 0 <= last t -> Z.of_nat (length (path_of t)) = last t + 1.
Proof. intros H. unfold path_of, seg. rewrite length_fmap, length_seqZ. lia. Qed.

(** The complete tours that begin with [t]. *)
Lemma is_tour_iff t l : tour_ok TspSize StartNode weights t ->
  is_tour TspSize StartNode weights (path_of t ++ l) <->
  l ≡ₚ unconnected TspSize t /\ connected weights (prefix t !!! last t :: l ++ [StartNode]) = true.
Proof.
  intros H. pose proof (to_last _ _ _ _ H) as Hl. pose proof (path_unconnected t H) as E. unfold is_tour.
  assert (Ec : connected weights ((path_of t ++ l) ++ [StartNode]) = connected weights (prefix t !!! last t :: l ++ [StartNode])).
  { rewrite (path_of_snoc t) by lia. rewrite <- !app_assoc. cbn [app]. rewrite connected_app, <- path_of_snoc by lia. by rewrite (to_connected _ _ _ _ H). }
  rewrite Ec. split.
  - intros (Hp & _ & Hc). split; [|done]. apply (Permutation_app_inv_l (path_of t)). by rewrite Hp, E.
  - intros (Hp & Hc). split_and!; [by rewrite Hp, E| |done].
    unfold path_of. rewrite (seg_split _ 0 1 (last t)), seg_one by lia. cbn. f_equal. apply (to_start _ _ _ _ H).
Qed.

Lemma tour_weight_rest t l : tour_ok TspSize StartNode weights t ->
  tour_weight StartNode weights (path_of t ++ l) = prefix_weight t + path_weight weights (prefix t !!! last t :: l ++ [StartNode]).
Proof.
  intros H. pose proof (to_last _ _ _ _ H) as Hl. unfold tour_weight. rewrite (to_weight _ _ _ _ H), (path_of_snoc t) by lia.
  rewrite <- !app_assoc. cbn [app]. by rewrite path_weight_app.
Qed.
End Bound.

(** What [calc_bound] makes of a tour that lacks at least two nodes. *)
Definition bounded (TspSize : Z) (weights : Z -> Z -> Z) (t : TourElement) : TourElement :=
  Tour (prefix t) (conn t) (last t) (prefix_weight t) (sum_bounds TspSize weights t + 1 + prefix_weight t) (sum_bounds TspSize weights t + 1).

Lemma get_Tour_run i g : 0 <= i < MAX_NUM_TOURS -> get_Tour i g = Ok (tour g i, g).
Proof. intros H. unfold get_Tour. by rewrite (proj2 (Z.leb_le _ _)), (proj2 (Z.ltb_lt _ _)) by lia. Qed.

Lemma calc_bound_run TspSize StartNode weights idx g : 0 <= idx < MAX_NUM_TOURS -> last (tour g idx) < TspSize - 2 ->
  calc_bound TspSize StartNode weights idx g = Ok (idx, set_tour idx (bounded TspSize weights (tour g idx)) g).
Proof.
  intros Hidx Hlast. pose proof (get_Tour_run idx g Hidx) as Hg.
  assert (Hs : store_bound TspSize weights idx g = Ok (idx, set_tour idx (bounded TspSize weights (tour g idx)) g)).
  { unfold store_bound. rewrite (bind_Ok _ _ _ _ _ Hg). by rewrite (proj2 (Z.eqb_neq (last _) _)) by lia. }
  unfold calc_bound. rewrite (bind_Ok _ _ _ _ _ Hg), (proj2 (Z.eqb_neq (last _) _)) by lia. destruct (unconnected TspSize _); exact Hs.
Qed.

(** No complete tour that begins with [t] is shorter than the bound. *)
Definition admissible (TspSize StartNode : Z) (weights : Z -> Z -> Z) (t : TourElement) : Prop :=
  forall l, is_tour TspSize StartNode weights (path_of t ++ l) -> lower_bound t <= tour_weight StartNode weights (path_of t ++ l).

Lemma bounded_admissible TspSize StartNode weights t :
  (forall i j, 0 <= weights i j) -> (forall i j, weights i j = weights j i) ->
  tour_ok TspSize StartNode weights t -> last t < TspSize - 2 -> admissible TspSize StartNode weights (bounded TspSize weights t).
Proof.
  intros Hnn Hsym H Hlast l Ht. change (path_of (bounded TspSize weights t)) with (path_of t) in *. cbn [bounded lower_bound].
  pose proof (to_last _ _ _ _ H) as Hl0. rewrite (tour_weight_rest TspSize) by done. pose proof Ht as [Hp _].
  apply is_tour_iff in Ht as [El Hc]; [|done].
  assert (Hlen : (2 <= length l)%nat).
  { pose proof (Permutation_length Hp) as Hn. rewrite length_app, length_seqZ in Hn. pose proof (path_length t ltac:(lia)). lia. }
  pose proof (bound_rest TspSize StartNode weights Hnn Hsym t l H Hlen El Hc) as Hb. lia.
Qed.

(** C31: The lower bound that [calc_bound] stores in a tour is one: no complete
    tour that begins with the nodes of this one is shorter, if the graph is
    undirected, as the data files are.  The halves that are lost when the two
    lowest edges of a node are halved and the [+ 1] at the end do not spoil it. *)
Theorem calc_bound_admissible TspSize StartNode weights idx g t :
  (forall i j, 0 <= weights i j) -> (forall i j, weights i j = weights j i) ->
  0 <= idx < MAX_NUM_TOURS -> tour g idx = t -> tour_ok TspSize StartNode weights t -> last t < TspSize - 2 -> exists g' t',
  calc_bound TspSize StartNode weights idx g = Ok (idx, g') /\ tour g' idx = t' /\
  path_of t' = path_of t /\ conn t' = conn t /\ prefix_weight t' = prefix_weight t /\
  forall l, is_tour TspSize StartNode weights (path_of t ++ l) ->
    lower_bound t' <= tour_weight StartNode weights (path_of t ++ l).
Proof.
  intros Hnn Hsym Hidx <- H Hlast. eexists _, _. split_and!.
  - by apply (calc_bound_run TspSize StartNode weights).
  - unfold tour, set_tour. cbn. apply lookup_total_insert_eq.
  - done.
  - done.
  - done.
  - intros l. by apply bounded_admissible.
Qed.

(** The first tour, as [main] makes it.  [conn] has the bit of node 0 whatever
    [StartNode] is. *)
Definition first_tour (StartNode : Z) : TourElement := Tour (<[0 := StartNode]> (zeros MAX_TOUR_SIZE)) 1 0 0 0 0.

Lemma first_tour_path StartNode : path_of (first_tour StartNode) = [StartNode].
Proof. unfold path_of. cbn [first_tour prefix last]. by rewrite seg_one, lookup_total_insert_eq. Qed.

Lemma first_tour_ok TspSize weights : 1 <= TspSize -> tour_ok TspSize 0 weights (first_tour 0).
Proof.
  intros Hn. split; rewrite ?first_tour_path.
  - cbn. lia.
  - cbn [first_tour prefix]. by rewrite lookup_total_insert_eq.
  - intros x Hx. apply list_elem_of_singleton in Hx as ->. lia.
  - apply NoDup_singleton.
  - intros i Hi. rewrite list_elem_of_singleton. unfold in_conn. cbn [first_tour conn]. change 1 with (2 ^ 0). rewrite Z.pow2_bits_eqb, Z.eqb_eq by lia. done.
  - done.
  - done.
Qed.

(** Cities on a line, with 2 more for every trip. *)
Definition line (i j : Z) : Z := if i =? j then 0 else Z.min (Z.abs (i - j)) MAX_TOUR_SIZE + 2.

Lemma calc_bound_admissible_witness : let g := Global [] false 0 (Best BIGINT []) false ∅ {[0 := first_tour 0]} in
  exists g' t', calc_bound 4 0 line 0 g = Ok (0, g') /\ tour g' 0 = t' /\ lower_bound t' = 10 /\ 10 <= tour_weight 0 line [0; 1; 3; 2].
Proof.
  intros g. destruct (calc_bound_admissible 4 0 line 0 g (first_tour 0)) as (g' & t' & R & Et & _ & _ & _ & B).
  - intros i j. unfold line, MAX_TOUR_SIZE. destruct (i =? j); lia.
  - intros i j. unfold line. rewrite (Z.eqb_sym j i). destruct (i =? j); [done|]. do 2 f_equal. lia.
  - unfold MAX_NUM_TOURS. lia.
  - reflexivity.
  - apply first_tour_ok. lia.
  - cbn. lia.
  - assert (E : lower_bound t' = 10).
    { rewrite <- Et. clear B Et. assert (E : match calc_bound 4 0 line 0 g with Ok (_, g') => lower_bound (tour g' 0) | _ => 0 end = lower_bound (tour g' 0)) by (rewrite R; reflexivity).
      rewrite <- E. vm_compute. reflexivity. }
    exists g', t'. split; [exact R|]. split; [exact Et|]. split; [exact E|]. rewrite <- E. apply (B [1; 3; 2]).
    rewrite first_tour_path. split; [|split; reflexivity]. change (seqZ 0 4) with [0; 1; 2; 3]. cbn. constructor. constructor. constructor.
Defined.

(** ** One more node *)
Lemma fold_prefix (f : Z -> Z) l : forall (p : gmap Z Z) i, foldl (fun p i => <[i := f i]> p) p l !!! i = if decide (i ∈ l) then f i else p !!! i.
Proof.
  induction l as [|x l IH]; intros p i; [by rewrite decide_False by apply not_elem_of_nil|]. cbn [foldl]. rewrite IH.
  destruct (decide (i ∈ l)) as [H|H]; [by rewrite decide_True by (by right)|].
  destruct (decide (i = x)) as [->|Hne]; [rewrite decide_True by left; apply lookup_total_insert_eq|].
  rewrite decide_False by (intros [?|?]%elem_of_cons; done). by apply lookup_total_insert_ne.
Qed.

Section Extend.
Context (TspSize StartNode : Z) (weights : Z -> Z -> Z) (old t : TourElement) (i : Z).
Context (Hok : tour_ok TspSize StartNode weights t) (Hlast : last t + 1 < TspSize) (Hi : 0 <= i < TspSize)
  (Hnew : in_conn t i = false) (Hedge : weights (prefix t !!! last t) i <> 0).

Lemma extend_prefix k : 0 <= k <= last t -> prefix (extend TspSize weights old t i) !!! k = prefix t !!! k.
Proof.
  intros Hk. unfold extend. cbn [prefix]. rewrite lookup_total_insert_ne by lia. rewrite fold_prefix, decide_True; [done|].
  apply elem_of_seqZ. lia.
Qed.

Lemma extend_path : path_of (extend TspSize weights old t i) = path_of t ++ [i].
Proof.
  pose proof (to_last _ _ _ _ Hok) as Hl. unfold path_of. change (last (extend TspSize weights old t i)) with (last t + 1).
  rewrite (seg_split _ 0 (last t + 1) (last t + 1)), seg_one by lia. f_equal.
  - replace (last t + 1 - 1) with (last t) by lia. apply seg_ext. intros k Hk. by apply extend_prefix.
  - unfold extend. cbn [prefix]. by rewrite lookup_total_insert_eq.
Qed.

Lemma extend_tour_ok : tour_ok TspSize StartNode weights (extend TspSize weights old t i).
Proof.
  pose proof (to_last _ _ _ _ Hok) as Hl.
  assert (Hni : i ∉ path_of t) by (intros Hin; apply (to_conn _ _ _ _ Hok i Hi) in Hin; congruence).
  split; rewrite ?extend_path.
  - cbn. lia.
  - rewrite extend_prefix by lia. apply (to_start _ _ _ _ Hok).
  - intros x [Hx| ->%list_elem_of_singleton]%elem_of_app; [by apply (to_range _ _ _ _ Hok)|done].
  - apply NoDup_app. split_and!; [apply (to_nodup _ _ _ _ Hok)| |apply NoDup_singleton]. intros x Hx ->%list_elem_of_singleton. done.
  - intros k Hk. rewrite elem_of_app, list_elem_of_singleton, <- (to_conn _ _ _ _ Hok k Hk). unfold in_conn, extend. cbn [conn].
    destruct (decide (k = i)) as [->|Hne]; [rewrite Z.setbit_eq by lia; naive_solver|]. rewrite Z.setbit_neq by lia. naive_solver.
  - unfold extend at 1. cbn [prefix_weight]. rewrite fold_prefix, decide_True by (apply elem_of_seqZ; lia). rewrite (to_weight _ _ _ _ Hok).
    rewrite (path_of_snoc t), <- app_assoc by lia. cbn [app]. rewrite (path_weight_app weights _ _ [i]). cbn. lia.
  - rewrite (path_of_snoc t), <- app_assoc by lia. cbn [app]. rewrite (connected_app weights _ _ [i]), <- path_of_snoc by lia.
    rewrite (to_connected _ _ _ _ Hok). cbn. by rewrite (proj2 (Z.eqb_neq _ _) Hedge).
Qed.
End Extend.
