(* ===== verification/TspVisit.v ===== *)
(** * Travelling salesman ([src/Tmk/apps/tsp_c/src/SOLVE.C]): the search

    When few enough nodes are left a process tries all ways to complete a tour
    ([recursive_solve] and [visit_nodes]).  It works on copies that are its
    own, and reports tours that are shorter than the best one so far. *)
From S2P Require Import Prelude Arrays Tsp.
Local Open Scope Z_scope.

(** [CurDist] and [PathLen] (both [unsigned]), [Visit], [Path], and the minimum
    as the process sees it. *)
Record search : Type := Searching {
  CurDist : Z;
  PathLen : Z;
  Visit : gmap Z Z;
  Path : gmap Z Z;
  best_of : best
}.

Definition set_CurDist (d : Z) (s : search) : search := Searching d (PathLen s) (Visit s) (Path s) (best_of s).
Definition set_PathLen (n : Z) (s : search) : search := Searching (CurDist s) n (Visit s) (Path s) (best_of s).
Definition set_Visit (i v : Z) (s : search) : search := Searching (CurDist s) (PathLen s) (<[i := v]> (Visit s)) (Path s) (best_of s).
Definition set_Path (i v : Z) (s : search) : search := Searching (CurDist s) (PathLen s) (Visit s) (<[i := v]> (Path s)) (best_of s).
Definition set_best_of (b : best) (s : search) : search := Searching (CurDist s) (PathLen s) (Visit s) (Path s) b.

Definition add_CurDist (d : Z) : M search unit := modify (fun s => set_CurDist (u32 (CurDist s + d)) s).

(** [Path[PathLen++] = i] *)
Definition push_Path (i : Z) : M search unit :=
  s ← get;
  if PathLen s <? MAX_TOUR_SIZE then modify (fun s => set_PathLen (PathLen s + 1) (set_Path (PathLen s) i s)) else undef.

Section Searching.
Context (TspSize StartNode : Z) (weights : Z -> Z -> Z).

(** The last node is reached: [last] is the edge back to the start. *)
Definition last_node (i : Z) : M search unit :=
  let last := weights i StartNode in
  when (negb (last =? 0))
    (add_CurDist last;;
     s ← get;
     when (CurDist s <? MinTourLen (best_of s)) (modify (set_best_of (set_best TspSize (CurDist s) (Path s) (best_of s)))));;
  add_CurDist (- last).

(** The body of the loop: node [i] is tried, and the rest by [visit]. *)
Definition visit_one (visit : Z -> M search unit) (from i : Z) : M search unit :=
  s ← get;
  let dist := weights from i in
  if negb (Visit s !!! i =? 0) then skip
  else if dist =? 0 then skip
  else if MinTourLen (best_of s) <? u32 (CurDist s + dist) then skip
  else
    modify (set_Visit i 1);;
    push_Path i;;
    add_CurDist dist;;
    s ← get;
    (if PathLen s =? TspSize then last_node i
     else when (CurDist s <? MinTourLen (best_of s)) (visit i));;
    add_CurDist (- dist);;
    modify (fun s => set_PathLen (PathLen s - 1) s);;
    modify (set_Visit i 0).

Fixpoint visit_nodes (fuel : nat) (from : Z) : M search unit :=
  match fuel with
  | O => undef
  | S fuel' => for_each (visit_one (visit_nodes fuel') from) (seqZ 1 (TspSize - 1))
  end.

(** The copies that [recursive_solve] makes of tour [t]. *)
Definition start_search (t : TourElement) (b : best) (s : search) : search :=
  let visit0 := foldl (fun v i => <[i := 0]> v) (Visit s) (seqZ 0 TspSize) in
  let '(path, visit) := foldl (fun '(p, v) i => (<[i := prefix t !!! i]> p, <[prefix t !!! i := 1]> v))
    (Path s, visit0) (seqZ 0 (last t + 1)) in
  Searching (u32 (prefix_weight t)) (last t + 1) visit path b.

Definition recursive_solve (t : TourElement) : M search unit :=
  modify (fun s => start_search t (best_of s) s);;
  s ← get;
  if TspSize <? PathLen s then exit_with "Pathlen"
  else visit_nodes (S (Z.to_nat TspSize)) (Path s !!! (PathLen s - 1)).

(** ** What the search finds *)

(** The nodes that the search may still visit. *)
Definition unvisited (s : search) : list Z := filter (fun i => Visit s !!! i = 0) (seqZ 1 (TspSize - 1)).

Record search_ok (s : search) : Prop := {
  so_len : PathLen s + Z.of_nat (length (unvisited s)) = TspSize;
  so_pos : 1 <= PathLen s;
  so_dist : 0 <= CurDist s <= BIGINT;
  so_min : MinTourLen (best_of s) <= BIGINT
}.

(** The way from [from] through the nodes of [q] to the start. *)
Definition rest (from : Z) (q : list Z) : list Z := from :: q ++ [StartNode].

(** [s'] is [s] but for the minimum; and for the part of [Path] that is not in use. *)
Record same_search (s s' : search) : Prop := {
  ss_dist : CurDist s' = CurDist s;
  ss_len : PathLen s' = PathLen s;
  ss_visit : forall i, Visit s' !!! i = Visit s !!! i;
  ss_path : forall i, i < PathLen s -> Path s' !!! i = Path s !!! i
}.

(** The new minimum is at most the length of every completion in [P], and it is
    the old one or that of a completion. *)
Record searched (from : Z) (P : list Z -> Prop) (s s' : search) : Prop := {
  se_same : same_search s s';
  se_less : MinTourLen (best_of s') <= MinTourLen (best_of s);
  se_all : forall q, q ≡ₚ unvisited s -> P q -> connected weights (rest from q) = true ->
    MinTourLen (best_of s') <= CurDist s + path_weight weights (rest from q);
  se_one : best_of s' = best_of s \/ exists q, q ≡ₚ unvisited s /\ connected weights (rest from q) = true /\
    best_of s' = Best (CurDist s + path_weight weights (rest from q)) (seg (Path s) 0 (PathLen s - 1) ++ q)
}.

(** The completions that begin with a node of [l]. *)
Definition begins (l : list Z) (q : list Z) : Prop := exists x q', q = x :: q' /\ x ∈ l.

#[local] Instance same_search_preorder : PreOrder same_search.
Proof.
  split; [intros s; by split|]. intros s1 s2 s3 [D1 L1 V1 P1] [D2 L2 V2 P2]. split; [congruence|congruence|by intros; rewrite V2|].
  intros i Hi. rewrite P2, P1 by (rewrite ?L1; done). done.
Qed.

Lemma same_unvisited s s' : same_search s s' -> unvisited s' = unvisited s.
Proof. intros H. unfold unvisited. apply list_filter_iff. intros i. by rewrite (ss_visit _ _ H). Qed.

Lemma same_seg s s' : same_search s s' -> seg (Path s') 0 (PathLen s' - 1) = seg (Path s) 0 (PathLen s - 1).
Proof. intros H. rewrite (ss_len _ _ H). apply seg_ext. intros i Hi. apply (ss_path _ _ H). lia. Qed.

Lemma searched_refl from (P : list Z -> Prop) s :
  (forall q, q ≡ₚ unvisited s -> P q -> connected weights (rest from q) = true -> MinTourLen (best_of s) <= CurDist s + path_weight weights (rest from q)) ->
  searched from P s s.
Proof. intros H. split; [done|done|done|by left]. Qed.

Lemma searched_trans from P1 P2 s1 s2 s3 : searched from P1 s1 s2 -> searched from P2 s2 s3 ->
  searched from (fun q => P1 q \/ P2 q) s1 s3.
Proof.
  intros [S1 L1 A1 O1] [S2 L2 A2 O2]. pose proof (same_unvisited _ _ S1) as Eu. rewrite Eu, (ss_dist _ _ S1) in *. split.
  - by etrans.
  - lia.
  - intros q Hq [Hp|Hp] Hc; [specialize (A1 q Hq Hp Hc); lia|by apply A2].
  - destruct O2 as [->|(q & Hq & Hc & ->)]; [done|]. right. exists q. split_and!; [done|done|]. by rewrite (same_seg _ _ S1).
Qed.

Lemma searched_mono from (P Q : list Z -> Prop) s s' : (forall q, q ≡ₚ unvisited s -> Q q -> P q) -> searched from P s s' -> searched from Q s s'.
Proof. intros H [S L A O]. split; [done|done| |done]. intros q Hq HQ. apply A; [done|by apply H]. Qed.

Lemma search_ok_same s s' : search_ok s -> same_search s s' -> MinTourLen (best_of s') <= MinTourLen (best_of s) -> search_ok s'.
Proof.
  intros [O1 O2 O3 O4] H Hm. split; rewrite ?(same_unvisited _ _ H), ?(ss_len _ _ H), ?(ss_dist _ _ H); try done. lia.
Qed.

(** A loop over the next nodes. *)
Lemma searched_loop from (body : Z -> M search unit) n l : forall s, search_ok s -> PathLen s = n ->
  (forall i s, i ∈ l -> search_ok s -> PathLen s = n -> exists s', body i s = Ok (tt, s') /\ searched from (begins [i]) s s') ->
  exists s', for_each body l s = Ok (tt, s') /\ searched from (begins l) s s'.
Proof.
  induction l as [|i l IH]; intros s Hs Hn Hb.
  - exists s. split; [done|]. apply searched_refl. intros q _ (x & q' & _ & []%elem_of_nil).
  - destruct (Hb i s ltac:(left) Hs Hn) as (s1 & R1 & S1).
    destruct (IH s1) as (s2 & R2 & S2); [apply (search_ok_same s); [done|apply (se_same _ _ _ _ S1)|apply (se_less _ _ _ _ S1)]|by rewrite (ss_len _ _ (se_same _ _ _ _ S1))|intros; apply Hb; [by right|done|done]|].
    exists s2. split; [cbn [for_each]; by rewrite (bind_Ok _ _ _ _ _ R1)|].
    apply (searched_mono from (fun q => begins [i] q \/ begins l q)); [|by eapply searched_trans].
    intros q _ (x & q' & -> & [->|Hx]%elem_of_cons); [left|right]; eexists _, q'; (split; [done|]); [left|done].
Qed.

(** ** One node *)
Context (StartNode_zero : StartNode = 0) (weights_bound : forall i j, 0 <= weights i j < 2147483648) (TspSize_max : TspSize <= MAX_TOUR_SIZE).

Lemma path_weight_nonneg l : 0 <= path_weight weights l.
Proof.
  induction l as [|x l IH]; [done|]. destruct l as [|y l]; [done|].
  change (0 <= weights x y + path_weight weights (y :: l)). specialize (weights_bound x y). lia.
Qed.

(** What the step for node [i] has when it goes on. *)
Definition entered (i dist : Z) (s : search) : search :=
  Searching (CurDist s + dist) (PathLen s + 1) (<[i := 1]> (Visit s)) (<[PathLen s := i]> (Path s)) (best_of s).

(** And what it leaves. *)
Definition left_again (i dist : Z) (s : search) : search :=
  Searching (CurDist s - dist) (PathLen s - 1) (<[i := 0]> (Visit s)) (Path s) (best_of s).

Lemma entered_unvisited i dist s : 1 <= i < TspSize -> Visit s !!! i = 0 -> unvisited s ≡ₚ i :: unvisited (entered i dist s).
Proof.
  intros Hi Hv. apply NoDup_Permutation.
  - apply NoDup_filter, NoDup_seqZ.
  - apply NoDup_cons. split; [|apply NoDup_filter, NoDup_seqZ]. unfold unvisited. rewrite list_elem_of_filter. cbn.
    rewrite lookup_total_insert_eq. lia.
  - intros j. rewrite elem_of_cons. unfold unvisited. rewrite !list_elem_of_filter, !elem_of_seqZ. cbn. destruct (decide (j = i)) as [->|Hne].
    + split; [by left|]. intros _. split; [done|lia].
    + rewrite lookup_total_insert_ne by done. naive_solver.
Qed.

Lemma entered_ok i dist s : search_ok s -> 1 <= i < TspSize -> Visit s !!! i = 0 -> 0 <= dist -> CurDist s + dist <= MinTourLen (best_of s) ->
  search_ok (entered i dist s) /\ PathLen s < TspSize.
Proof.
  intros [O1 O2 O3 O4] Hi Hv Hd Hm. pose proof (Permutation_length (entered_unvisited i dist s Hi Hv)) as E. cbn [length] in E.
  split; [|lia]. split; cbn; lia.
Qed.

(** The way back: what has been found from [i] on has been found from [from]. *)
Lemma left_searched from i s s2 : search_ok s -> 1 <= i < TspSize -> Visit s !!! i = 0 ->
  searched i (fun _ => True) (entered i (weights from i) s) s2 -> weights from i <> 0 ->
  searched from (begins [i]) s (left_again i (weights from i) s2).
Proof.
  intros Ok Hi Hv [[D L V P] Hl A O] Hw. pose proof (so_pos s Ok) as Hpos. set (dist := weights from i) in *.
  pose proof (entered_unvisited i dist s Hi Hv) as Eu. cbn in D, L, Hl.
  assert (Ew : forall q, path_weight weights (rest from (i :: q)) = dist + path_weight weights (rest i q)) by done.
  assert (Ec : forall q, connected weights (rest from (i :: q)) = connected weights (rest i q)).
  { intros q. change (connected weights (rest from (i :: q))) with (negb (dist =? 0) && connected weights (rest i q)).
    by rewrite (proj2 (Z.eqb_neq _ _) Hw). }
  split.
  - split; cbn [left_again CurDist PathLen Visit Path]; [lia|lia| |].
    + intros j. destruct (decide (j = i)) as [->|Hne]; [by rewrite lookup_total_insert_eq|].
      rewrite lookup_total_insert_ne by done. rewrite V. cbn. by rewrite lookup_total_insert_ne.
    + intros j Hj. rewrite P by (cbn; lia). cbn. rewrite lookup_total_insert_ne by lia. done.
  - cbn. done.
  - intros q Hq (x & q' & -> & ->%list_elem_of_singleton) Hc. rewrite Ew. rewrite Ec in Hc.
    assert (Hq' : q' ≡ₚ unvisited (entered i dist s)) by (apply (Permutation_cons_inv (a := i)); by rewrite Hq).
    specialize (A q' Hq' I Hc). cbn in A |- *. lia.
  - cbn [left_again best_of]. destruct O as [->|(q & Hq & Hc & ->)]; [by left|]. right. exists (i :: q). rewrite Ew, Ec. split_and!.
    + by rewrite Eu, Hq.
    + done.
    + cbn [entered CurDist PathLen Path]. f_equal; [lia|]. replace (PathLen s + 1 - 1) with (PathLen s) by lia.
      rewrite (seg_split _ 0 (PathLen s) (PathLen s)), seg_one, lookup_total_insert_eq, <- app_assoc by lia. cbn. f_equal.
      apply seg_ext. intros j Hj. rewrite lookup_total_insert_ne by lia. done.
Qed.

Lemma add_CurDist_run d s : 0 <= CurDist s + d < 4294967296 -> add_CurDist d s = Ok (tt, set_CurDist (CurDist s + d) s).
Proof. intros H. unfold add_CurDist, modify, u32. by rewrite Z.mod_small. Qed.

(** The last node: the tour is complete. *)
Lemma last_node_run i s : search_ok s -> PathLen s = TspSize -> exists s', last_node i s = Ok (tt, s') /\ searched i (fun _ => True) s s'.
Proof.
  intros Hs Hn. pose proof (so_len s Hs) as Hlen. assert (Eu : unvisited s = []) by (apply length_zero_iff_nil; lia).
  pose proof (so_dist s Hs) as Hd. specialize (weights_bound i StartNode). set (lst := weights i StartNode) in *.
  assert (Eq : forall q, q ≡ₚ unvisited s -> q = []) by (intros q Hq; rewrite Eu in Hq; by apply Permutation_nil_r in Hq).
  assert (Ew : path_weight weights (rest i []) = lst) by (cbn; lia).
  assert (A1 : add_CurDist lst s = Ok (tt, set_CurDist (CurDist s + lst) s)) by (apply add_CurDist_run; unfold BIGINT in *; lia).
  assert (A2 : forall b, add_CurDist (- lst) (set_best_of b (set_CurDist (CurDist s + lst) s)) = Ok (tt, set_best_of b s)).
  { intros b. rewrite add_CurDist_run by (cbn; unfold BIGINT in *; lia). do 2 f_equal. unfold set_CurDist, set_best_of. cbn. f_equal. lia. }
  assert (Same : forall s, set_best_of (best_of s) s = s) by (intros []; done).
  destruct (Z.eqb_spec lst 0) as [E|E].
  { exists s. split.
    - unfold last_node. fold lst. rewrite (proj2 (Z.eqb_eq _ _) E). specialize (A2 (best_of s)). rewrite Same in A2.
      replace (set_best_of (best_of s) (set_CurDist (CurDist s + lst) s)) with s in A2; [exact A2|]. destruct s. cbn. unfold set_best_of, set_CurDist. cbn. f_equal. lia.
    - apply searched_refl. intros q Hq _ Hc. rewrite (Eq q Hq) in Hc. cbn in Hc. fold lst in Hc. by rewrite E in Hc. }
  assert (Hrun : last_node i s = Ok (tt, set_best_of (if CurDist s + lst <? MinTourLen (best_of s) then set_best TspSize (CurDist s + lst) (Path s) (best_of s) else best_of s) s)).
  { unfold last_node. fold lst. rewrite (proj2 (Z.eqb_neq _ _) E). cbn [negb when].
    set (s1 := set_CurDist (CurDist s + lst) s) in *. eassert (R : (add_CurDist lst;; s0 ← get; when (CurDist s0 <? MinTourLen (best_of s0)) _) s = Ok (tt, set_best_of _ s1)); [|rewrite (bind_Ok _ _ _ _ _ R); apply A2].
    rewrite (bind_Ok _ _ _ _ _ A1), get_bind. change (CurDist s1) with (CurDist s + lst). change (best_of s1) with (best_of s). change (Path s1) with (Path s).
    destruct (_ <? _); [reflexivity|]. cbn [when]. unfold skip. change (best_of s) with (best_of s1). by rewrite Same. }
  eexists. split; [exact Hrun|]. split.
  - by split.
  - cbn. destruct (Z.ltb_spec (CurDist s + lst) (MinTourLen (best_of s))); [|done]. unfold set_best. destruct (Z.leb_spec (MinTourLen (best_of s)) (CurDist s + lst)); cbn; lia.
  - intros q Hq _ _. rewrite (Eq q Hq), Ew. cbn. destruct (Z.ltb_spec (CurDist s + lst) (MinTourLen (best_of s))); [|lia].
    unfold set_best. destruct (Z.leb_spec (MinTourLen (best_of s)) (CurDist s + lst)); cbn; lia.
  - cbn [set_best_of best_of]. destruct (Z.ltb_spec (CurDist s + lst) (MinTourLen (best_of s))) as [Hlt|]; [|by left]. unfold set_best.
    rewrite (proj2 (Z.leb_gt _ _)) by lia. right. exists []. rewrite Ew, Eu, Hn, app_nil_r. split_and!; [done| |done].
    cbn. fold lst. by rewrite (proj2 (Z.eqb_neq _ _) E).
Qed.

Lemma visit_one_run visit from i s : search_ok s -> 1 <= i < TspSize ->
  (forall s', search_ok s' -> PathLen s' < TspSize -> (length (unvisited s') < length (unvisited s))%nat -> exists s'', visit i s' = Ok (tt, s'') /\ searched i (fun _ => True) s' s'') ->
  exists s', visit_one visit from i s = Ok (tt, s') /\ searched from (begins [i]) s s'.
Proof.
  intros Hs Hi Hv. pose proof (so_dist s Hs) as Hd. pose proof (so_min s Hs) as Hm. pose proof (weights_bound from i) as Hw.
  unfold visit_one. rewrite get_bind. cbn zeta. set (dist := weights from i) in *.
  destruct (Z.eqb_spec (Visit s !!! i) 0) as [Ev|Ev]; cbn [negb].
  2:{ exists s. split; [done|]. apply searched_refl. intros q Hq (x & q' & -> & ->%list_elem_of_singleton) _. exfalso. apply Ev.
      assert (Hin : i ∈ unvisited s) by (rewrite <- Hq; left). unfold unvisited in Hin. by apply list_elem_of_filter in Hin as [? _]. }
  destruct (Z.eqb_spec dist 0) as [Ed|Ed].
  { exists s. split; [done|]. apply searched_refl. intros q Hq (x & q' & -> & ->%list_elem_of_singleton) Hc. exfalso. cbn in Hc. fold dist in Hc. by rewrite Ed in Hc. }
  assert (Eu32 : u32 (CurDist s + dist) = CurDist s + dist) by (apply Z.mod_small; unfold BIGINT in *; lia). rewrite Eu32.
  destruct (Z.ltb_spec (MinTourLen (best_of s)) (CurDist s + dist)) as [Hl|Hl].
  { exists s. split; [done|]. apply searched_refl. intros q Hq (x & q' & -> & ->%list_elem_of_singleton) Hc.
    change (path_weight weights (rest from (i :: q'))) with (dist + path_weight weights (rest i q')). pose proof (path_weight_nonneg (rest i q')). lia. }
  destruct (entered_ok i dist s Hs Hi Ev ltac:(lia) Hl) as [Hs1 Hn].
  assert (E1 : forall (k : unit -> M search unit), (push_Path i ≫= fun _ => add_CurDist dist ≫= k) (set_Visit i 1 s) = k tt (entered i dist s)).
  { intros k. assert (Rp : push_Path i (set_Visit i 1 s) = Ok (tt, set_PathLen (PathLen s + 1) (set_Path (PathLen s) i (set_Visit i 1 s)))).
    { unfold push_Path. rewrite get_bind. cbn [set_Visit PathLen]. by rewrite (proj2 (Z.ltb_lt _ _)) by lia. }
    rewrite (bind_Ok _ _ _ _ _ Rp), (bind_Ok _ _ _ _ _ (add_CurDist_run dist (set_PathLen (PathLen s + 1) (set_Path (PathLen s) i (set_Visit i 1 s))) ltac:(cbn; unfold BIGINT in *; lia))). done. }
  assert (Hmid : exists s2, (if PathLen s + 1 =? TspSize then last_node i
      else when (CurDist s + dist <? MinTourLen (best_of s)) (visit i)) (entered i dist s) = Ok (tt, s2) /\ searched i (fun _ => True) (entered i dist s) s2).
  { destruct (Z.eqb_spec (PathLen s + 1) TspSize) as [E|E]; [by apply last_node_run|].
    destruct (Z.ltb_spec (CurDist s + dist) (MinTourLen (best_of s))) as [Hc|Hc]; cbn [when].
    - apply Hv; [done|cbn; lia|]. pose proof (Permutation_length (entered_unvisited i dist s Hi Ev)) as El. cbn [length] in El. lia.
    - eexists. split; [done|]. apply searched_refl. intros q _ _ _. cbn [entered best_of CurDist]. pose proof (path_weight_nonneg (rest i q)). lia. }
  destruct Hmid as (s2 & R2 & S2). exists (left_again i dist s2). split; [|by apply left_searched].
  pose proof (ss_dist _ _ (se_same _ _ _ _ S2)) as D2. cbn in D2. rewrite modify_bind, E1, get_bind. cbn [entered PathLen CurDist best_of].
  rewrite (bind_Ok _ _ _ _ _ R2), (bind_Ok _ _ _ _ _ (add_CurDist_run (- dist) s2 ltac:(rewrite D2; unfold BIGINT in *; lia))), modify_bind. done.
Qed.

(** Some node is left, and it is the first of every completion. *)
Lemma searched_all from s s' : search_ok s -> PathLen s < TspSize -> searched from (begins (seqZ 1 (TspSize - 1))) s s' -> searched from (fun _ => True) s s'.
Proof.
  intros Hs Hp. apply searched_mono. intros q Hq _. pose proof (so_len s Hs) as Hlen. pose proof (Permutation_length Hq) as El.
  destruct q as [|x q]; [cbn in El; lia|]. exists x, q. split; [done|]. assert (Hx : x ∈ unvisited s) by (rewrite <- Hq; left).
  by apply list_elem_of_filter in Hx as [_ Hx].
Qed.

Lemma visit_nodes_run fuel : forall from s, search_ok s -> (length (unvisited s) < fuel)%nat ->
  exists s', visit_nodes fuel from s = Ok (tt, s') /\ searched from (begins (seqZ 1 (TspSize - 1))) s s'.
Proof.
  induction fuel as [|fuel IH]; intros from s Hs Hf; [lia|]. cbn [visit_nodes].
  apply (searched_loop from _ (PathLen s)); [done|done|]. intros i s0 Hi%elem_of_seqZ Hs0 Hn. apply visit_one_run; [done|lia|].
  intros s1 Hs1 Hp1 Hl1. destruct (IH i s1 Hs1) as (s2 & R & S2).
  { pose proof (so_len _ Hs0). pose proof (so_len _ Hs). lia. }
  exists s2. split; [done|]. by apply searched_all.
Qed.

(** ** The copies *)
Lemma fold_zero l : forall (v : gmap Z Z) i, foldl (fun v i => <[i := 0]> v) v l !!! i = if decide (i ∈ l) then 0 else v !!! i.
Proof.
  induction l as [|x l IH]; intros v i; [by rewrite decide_False by apply not_elem_of_nil|]. cbn [foldl]. rewrite IH.
  destruct (decide (i ∈ l)) as [H|H]; [by rewrite decide_True by (by right)|].
  destruct (decide (i = x)) as [->|Hne]; [rewrite decide_True by left; apply lookup_total_insert_eq|].
  rewrite decide_False by (intros [?|?]%elem_of_cons; done). by apply lookup_total_insert_ne.
Qed.

Lemma fold_copy (f : Z -> Z) l : forall (p v : gmap Z Z), 
  let '(p', v') := foldl (fun '(p, v) i => (<[i := f i]> p, <[f i := 1]> v)) (p, v) l in
  (forall i, p' !!! i = if decide (i ∈ l) then f i else p !!! i) /\ (forall i, v' !!! i = if decide (i ∈ f <$> l) then 1 else v !!! i).
Proof.
  induction l as [|x l IH]; intros p v.
  { split; intros i; by rewrite decide_False by apply not_elem_of_nil. }
  cbn [foldl]. specialize (IH (<[x := f x]> p) (<[f x := 1]> v)). destruct (foldl _ _ _) as [p' v']. destruct IH as [IHp IHv]. split; intros i.
  - rewrite IHp. destruct (decide (i ∈ l)) as [H|H]; [by rewrite decide_True by (by right)|].
    destruct (decide (i = x)) as [->|Hne]; [rewrite decide_True by left; apply lookup_total_insert_eq|].
    rewrite decide_False by (intros [?|?]%elem_of_cons; done). by apply lookup_total_insert_ne.
  - rewrite IHv. cbn [fmap list_fmap]. destruct (decide (i ∈ f <$> l)) as [H|H]; [by rewrite decide_True by (by right)|].
    destruct (decide (i = f x)) as [->|Hne]; [rewrite decide_True by left; apply lookup_total_insert_eq|].
    rewrite decide_False by (intros [?|?]%elem_of_cons; done). by apply lookup_total_insert_ne.
Qed.

Lemma start_search_ok t b s : tour_ok TspSize StartNode weights t -> prefix_weight t <= BIGINT -> MinTourLen b <= BIGINT ->
  let s' := start_search t b s in
  search_ok s' /\ CurDist s' = prefix_weight t /\ PathLen s' = last t + 1 /\ best_of s' = b /\
  (forall j, 0 <= j <= last t -> Path s' !!! j = prefix t !!! j) /\ unvisited s' = unconnected TspSize t.
Proof.
  intros H Hw Hb. pose proof (to_last _ _ _ _ H) as Hl. cbn zeta. unfold start_search.
  pose proof (fold_copy (fun i => prefix t !!! i) (seqZ 0 (last t + 1)) (Path s) (foldl (fun v i => <[i := 0]> v) (Visit s) (seqZ 0 TspSize))) as Hc.
  destruct (foldl _ (Path s, _) _) as [p v]. destruct Hc as [Hp Hv].
  assert (Hw0 : u32 (prefix_weight t) = prefix_weight t).
  { rewrite (to_weight _ _ _ _ H) in *. pose proof (path_weight_nonneg (path_of t)). apply Z.mod_small. unfold BIGINT in *. lia. }
  assert (Eu : unvisited (Searching (u32 (prefix_weight t)) (last t + 1) v p b) = unconnected TspSize t).
  { unfold unvisited, unconnected. cbn [Visit]. rewrite (seqZ_cons 0 TspSize), filter_cons_False by (try lia; rewrite <- StartNode_zero, <- (to_start _ _ _ _ H); 
      assert (Hin : prefix t !!! 0 ∈ path_of t) by (apply seg_elem; exists 0; split; [lia|done]); rewrite (proj2 (to_conn _ _ _ _ H _ (to_range _ _ _ _ H _ Hin)) Hin); done).
    change (Z.succ 0) with 1. change (Z.pred TspSize) with (TspSize - 1). apply filter_agree. intros i Hi. apply elem_of_seqZ in Hi.
    rewrite Hv, fold_zero, (decide_True (P := i ∈ seqZ 0 TspSize)) by (apply elem_of_seqZ; lia).
    assert (E : (i ∈ (fun i => prefix t !!! i) <$> seqZ 0 (last t + 1)) <-> i ∈ path_of t) by (unfold path_of, seg; by rewrite Z.sub_0_r).
    pose proof (to_conn _ _ _ _ H i ltac:(lia)) as Hcn. case_decide as Hd.
    - split; [done|]. intros Hf. rewrite (proj2 Hcn) in Hf by (by apply E). done.
    - split; [|done]. intros _. destruct (in_conn t i); [|done]. exfalso. by apply Hd, E, Hcn. }
  split_and!; [|exact Hw0|done|done| |exact Eu].
  - split; rewrite ?Eu; cbn [CurDist PathLen best_of]; [|lia|rewrite Hw0|done].
    + pose proof (Permutation_length (path_unconnected TspSize StartNode weights t H)) as E. rewrite length_app, length_seqZ in E.
      pose proof (path_length t ltac:(lia)). lia.
    + rewrite (to_weight _ _ _ _ H) in *. pose proof (path_weight_nonneg (path_of t)). lia.
  - intros j Hj. cbn [Path]. rewrite Hp, decide_True; [done|]. apply elem_of_seqZ. lia.
Qed.

Lemma recursive_solve_run t s : tour_ok TspSize StartNode weights t -> last t < TspSize - 1 -> prefix_weight t <= BIGINT ->
  MinTourLen (best_of s) <= BIGINT -> exists s',
  recursive_solve t s = Ok (tt, s') /\ MinTourLen (best_of s') <= MinTourLen (best_of s) /\
  (forall l, is_tour TspSize StartNode weights (path_of t ++ l) -> MinTourLen (best_of s') <= tour_weight StartNode weights (path_of t ++ l)) /\
  (best_of s' = best_of s \/ exists l, is_tour TspSize StartNode weights (path_of t ++ l) /\
    best_of s' = Best (tour_weight StartNode weights (path_of t ++ l)) (path_of t ++ l)).
Proof.
  intros H Hlast Hw Hb. destruct (start_search_ok t (best_of s) s H Hw Hb) as (Ok & D & L & B & P & U). unfold recursive_solve.
  rewrite modify_bind, get_bind. set (s1 := start_search t (best_of s) s) in *. pose proof (to_last _ _ _ _ H) as Hl.
  assert (Es : seg (Path s1) 0 (PathLen s1 - 1) = path_of t).
  { rewrite L. replace (last t + 1 - 1) with (last t) by lia. apply seg_ext. intros j Hj. apply P. lia. }
  rewrite (proj2 (Z.ltb_ge TspSize (PathLen s1))) by lia. replace (PathLen s1 - 1) with (last t) by lia. rewrite P by lia.
  destruct (visit_nodes_run (S (Z.to_nat TspSize)) (prefix t !!! last t) s1 Ok) as (s' & R & S).
  { pose proof (so_len _ Ok). lia. }
  apply searched_all in S; [|done|lia]. exists s'. split; [done|]. pose proof (se_less _ _ _ _ S) as Hless. rewrite B in Hless. split; [done|]. split.
  - intros l Ht. rewrite (tour_weight_rest TspSize) by done. apply is_tour_iff in Ht as [Hq Hc]; [|done]. rewrite <- D.
    apply (se_all _ _ _ _ S); [by rewrite U|done|done].
  - destruct (se_one _ _ _ _ S) as [E|(q & Hq & Hc & E)]; [left; congruence|]. right. exists q. rewrite U in Hq. split; [by apply is_tour_iff|].
    rewrite E, Es, D. f_equal. by rewrite (tour_weight_rest TspSize).
Qed.
End Searching.

(** C26: Solving a tour is exhaustive: [recursive_solve] ends, and then the
    minimum is at most the length of every complete tour that begins with the
    nodes of this one; it is what it was before, or the length of such a tour,
    which is then the minimal tour. *)
Theorem recursive_solve_exact TspSize weights t s :
  (forall i j, 0 <= weights i j < 2147483648) -> TspSize <= MAX_TOUR_SIZE -> tour_ok TspSize 0 weights t ->
  last t < TspSize - 1 -> prefix_weight t <= BIGINT -> MinTourLen (best_of s) <= BIGINT -> exists s',
  recursive_solve TspSize 0 weights t s = Ok (tt, s') /\ MinTourLen (best_of s') <= MinTourLen (best_of s) /\
  (forall l, is_tour TspSize 0 weights (path_of t ++ l) -> MinTourLen (best_of s') <= tour_weight 0 weights (path_of t ++ l)) /\
  (best_of s' = best_of s \/ exists l, is_tour TspSize 0 weights (path_of t ++ l) /\
    best_of s' = Best (tour_weight 0 weights (path_of t ++ l)) (path_of t ++ l)).
Proof.
  intros Hw HM H Hlast Hp Hb. apply (recursive_solve_run TspSize 0 weights); done.
Qed.

Definition search0 : search := Searching 0 0 ∅ ∅ (Best BIGINT []).

Lemma recursive_solve_exact_witness : exists s', recursive_solve 4 0 line (first_tour 0) search0 = Ok (tt, s') /\
  best_of s' = Best 14 [0; 1; 2; 3] /\ 14 <= tour_weight 0 line [0; 3; 1; 2].
Proof.
  destruct (recursive_solve_exact 4 line (first_tour 0) search0) as (s' & R & _ & A & _).
  - intros i j. unfold line, MAX_TOUR_SIZE. destruct (i =? j); lia.
  - unfold MAX_TOUR_SIZE. lia.
  - apply first_tour_ok. lia.
  - cbn. lia.
  - vm_compute. discriminate.
  - vm_compute. discriminate.
  - exists s'. split; [exact R|].
    assert (E : best_of s' = Best 14 [0; 1; 2; 3]).
    { clear A. assert (E : match recursive_solve 4 0 line (first_tour 0) search0 with Ok (_, s') => best_of s' | _ => Best 0 [] end = best_of s') by (rewrite R; reflexivity).
      rewrite <- E. vm_compute. reflexivity. }
    split; [exact E|]. clear R. rewrite E in A. apply (A [3; 1; 2]). rewrite first_tour_path. split; [|split; reflexivity].
    change (seqZ 0 4) with [0; 1; 2; 3]. cbn. constructor. rewrite (Permutation_swap 1 3 [2]). constructor. constructor.
Defined.
