(* ===== verification/TspSolve.v ===== *)
(** * Travelling salesman ([src/Tmk/apps/tsp_c/src]): splitting and solving

    The loop of a process ([Worker] of [TSP.C]): it takes the most promising
    tour from the priority queue ([get_tour], [find_solvable_tour] of [PQ.C]),
    splits it into tours with one more node as long as more than
    [NodesFromEnd] nodes are left ([split_tour]), and solves it when not. *)
From S2P Require Import Prelude Arrays TspHeap Tsp TspVisit.
Local Open Scope Z_scope.

(** [less_than] of two entries of the queue. *)
Definition less_than (g : global) (x y : Z * Z) : bool :=
  (x.2 <? y.2) || ((x.2 =? y.2) && (last (tour g y.1) <? last (tour g x.1))).

Section Solve.
Context (TspSize StartNode NodesFromEnd : Z) (weights : Z -> Z -> Z).

(** The end of the loop of [split_tour]: tour [n_ind] is put in the queue. *)
Definition enqueue (n_ind : Z) : M global unit :=
  new ← get_Tour n_ind;
  g ← get;
  if MAX_NUM_TOURS - 1 <=? PrioQLast g then exit_with "pqLast"
  else modify (set_queue (PrioQLast g + 1) (insert (less_than g) (PrioQLast g) (n_ind, lower_bound new) (PrioQ g))).

(** One node [i] in [split_tour]. *)
Definition split_one (curr_ind i : Z) : M global unit :=
  curr ← get_Tour curr_ind;
  g ← get;
  let wt := weights (prefix curr !!! last curr) i in
  when (negb (in_conn curr i) && negb (wt =? 0) && (lower_bound curr + wt <=? MinTourLen (minimum g)))
    (n_ind ← new_tour TspSize StartNode weights curr_ind i;
     if n_ind =? END_TOUR then skip else enqueue n_ind).

Definition split_tour (curr_ind : Z) : M global unit :=
  curr ← get_Tour curr_ind;
  when (negb (last curr =? TspSize - 1)) (for_each (split_one curr_ind) (seqZ 0 TspSize)).

Fixpoint find_loop (fuel : nat) : M global Z :=
  match fuel with
  | O => undef
  | S fuel' =>
      g ← get;
      if PrioQLast g =? 0 then modify set_Done;; mret (-1)
      else
        let '(curr, priority) := PrioQ g !!! 1 in
        if MinTourLen (minimum g) <=? priority then modify set_Done;; mret (-1)
        else
          modify (set_queue (PrioQLast g - 1) (remove (less_than g) (PrioQLast g) (PrioQ g)));;
          t ← get_Tour curr;
          if ((last t <? TspSize) || (last t <? 1)) && (TspSize - NodesFromEnd - 1 <=? last t) then mret curr
          else
            when ((last t <? TspSize) || (last t <? 1)) (split_tour curr);;
            free_tour curr;;
            find_loop fuel'
  end.

Definition find_solvable_tour (fuel : nat) : M global Z :=
  g ← get;
  if Done g then mret (-1) else find_loop fuel.

Definition get_tour (fuel : nat) (curr : Z) : M global Z :=
  lock_acquire;;
  when (negb (curr =? -1)) (free_tour curr);;
  curr' ← find_solvable_tour fuel;
  lock_release;;
  mret curr'.

(** [recursive_solve(curr)] on the minimum in the shared memory; what is in the
    private arrays before does not matter. *)
Definition run_search (m : M search unit) : M global unit := fun g =>
  match m (Searching 0 0 ∅ ∅ (minimum g)) with
  | Ok (_, s) => Ok (tt, set_minimum (best_of s) g)
  | Exit w => Exit w
  | Undef => Undef
  | Block => Block
  end.

Definition solve (curr : Z) : M global unit :=
  t ← get_Tour curr;
  run_search (recursive_solve TspSize StartNode weights t).

Fixpoint Worker (fuel n : nat) (curr : Z) : M global unit :=
  match n with
  | O => undef
  | S n' =>
      curr' ← get_tour fuel curr;
      if curr' <? 0 then skip else solve curr';; Worker fuel n' curr'
  end.

(** ** [main] *)
Definition start_global : global :=
  Global [] false 0 (Best BIGINT []) false ∅ {[0 := first_tour StartNode]}.

Definition init : M global unit :=
  calc_bound TspSize StartNode weights 0;;
  t ← get_Tour 0;
  modify (set_queue 1 {[1 := (0, lower_bound t)]});;
  modify (fun g => set_stack (seqZ 1 (MAX_NUM_TOURS - 1) ++ TourStack g) g).

Definition main (fuel : nat) : res (unit * global) := (init;; Worker fuel fuel (-1)) start_global.
End Solve.

(** A graph as a list of rows. *)
Definition graph (rows : list (list Z)) (i j : Z) : Z := default 0 (default [] (rows !! Z.to_nat i) !! Z.to_nat j).

Definition graph6 : list (list Z) :=
  [[0; 5; 1; 3; 1; 3]; [5; 0; 3; 5; 2; 3]; [1; 3; 0; 3; 5; 3]; [3; 5; 3; 0; 1; 3]; [1; 2; 5; 1; 0; 4]; [3; 3; 3; 3; 4; 0]].

(** ** The order of the queue *)
Lemma less_asym g x y : less_than g x y = true -> le (less_than g) x y.
Proof.
  unfold le, less_than. intros H. apply orb_true_iff in H as [H|H]; [|apply andb_true_iff in H as [H H2]]; lia.
Qed.

Lemma le_trans g x y z : le (less_than g) x y -> le (less_than g) y z -> le (less_than g) x z.
Proof. unfold le, less_than. lia. Qed.

(** The entries of the queue. *)
Definition queue (g : global) : list (Z * Z) := seg (PrioQ g) 1 (PrioQLast g).

Section Proof.
Context (TspSize NodesFromEnd : Z) (weights : Z -> Z -> Z).
Context (Hsize : 3 <= TspSize <= MAX_TOUR_SIZE) (Hend : 2 <= NodesFromEnd).
Context (Hw : forall i j, 0 <= weights i j < 2147483648) (Hsym : forall i j, weights i j = weights j i).

(** All tours are solved at once, without a split. *)
Definition at_once : Prop := TspSize <= NodesFromEnd + 1.

(** The messages with which the program may end: too many tours. *)
Definition full (w : string) : Prop := (w = "TourStackTop" \/ w = "pqLast") /\ ~ at_once.

(** A tour that can be split or solved. *)
Record tour_good (t : TourElement) : Prop := {
  tg_ok : tour_ok TspSize 0 weights t;
  tg_last : last t < TspSize - 2;
  tg_bound : prefix_weight t <= lower_bound t;
  tg_admissible : admissible TspSize 0 weights t
}.

(** The minimum is the length of the minimal tour, if there is one yet. *)
Definition best_ok (b : best) : Prop := MinTourLen b <= BIGINT /\
  (b = Best BIGINT [] \/ is_tour TspSize 0 weights (MinTour b) /\ MinTourLen b = tour_weight 0 weights (MinTour b)).

Definition solved (g : global) (t : TourElement) : Prop :=
  forall l, is_tour TspSize 0 weights (path_of t ++ l) -> MinTourLen (minimum g) <= tour_weight 0 weights (path_of t ++ l).

(** The state between two turns; the tours of [cur] are in the hands of the process. *)
Record inv (cur : list Z) (g : global) : Prop := {
  in_pool : TourStack g ++ (queue g).*1 ++ cur ≡ₚ seqZ 0 MAX_NUM_TOURS;
  in_pos : 0 <= PrioQLast g;
  in_heap : heap (less_than g) (PrioQLast g) (PrioQ g);
  in_queue : forall e, e ∈ queue g -> tour_good (tour g e.1) /\ e.2 = lower_bound (tour g e.1);
  in_cur : forall i, i ∈ cur -> tour_good (tour g i) /\ lower_bound (tour g i) < BIGINT;
  in_best : best_ok (minimum g);
  in_cover : at_once -> forall l, is_tour TspSize 0 weights l -> MinTourLen (minimum g) <= tour_weight 0 weights l \/
    exists i q, i ∈ (queue g).*1 ++ cur /\ l = path_of (tour g i) ++ q
}.

(** What the operations on the tours leave alone. *)
Definition same_rest (g g' : global) : Prop := TourLock g' = TourLock g /\ Done g' = Done g /\ minimum g' = minimum g.

Lemma bounded_good t : tour_ok TspSize 0 weights t -> last t < TspSize - 2 -> tour_good (bounded TspSize weights t).
Proof.
  intros H Hl. assert (Hn : forall i j, 0 <= weights i j) by (intros; apply Hw). split.
  - by destruct H.
  - done.
  - cbn. pose proof (sum_bounds_nonneg TspSize weights Hn t). lia.
  - by apply bounded_admissible.
Qed.

(** ** The number of turns *)
Definition fuel_of (t : TourElement) : Z := (TspSize + 1) ^ (TspSize - last t).
Definition measure (g : global) : Z := foldr (fun e acc => fuel_of (tour g e.1) + acc) 0 (queue g).

Lemma measure_perm (f : Z * Z -> Z) l l' : l ≡ₚ l' -> foldr (fun e acc => f e + acc) 0 l = foldr (fun e acc => f e + acc) 0 l'.
Proof. intros E. apply (foldr_permutation_proper (=) (fun e acc => f e + acc) 0); [intros x y z; lia|done]. Qed.

Lemma sum_agree (f f' : Z * Z -> Z) l : (forall e, e ∈ l -> f e = f' e) -> foldr (fun e acc => f e + acc) 0 l = foldr (fun e acc => f' e + acc) 0 l.
Proof. induction l as [|x l IH]; intros H; [done|]. cbn. rewrite (H x ltac:(left)), IH; [done|]. intros; apply H; by right. Qed.

Lemma measure_nonneg g : 0 <= measure g.
Proof. unfold measure. induction (queue g) as [|e l IH]; [done|]. cbn [foldr]. unfold fuel_of at 1. pose proof (Z.pow_nonneg (TspSize + 1) (TspSize - last (tour g e.1))). lia. Qed.

(** ** The free tours *)
Lemma pool_index cur g i : inv cur g -> i ∈ TourStack g ++ (queue g).*1 ++ cur -> 0 <= i < MAX_NUM_TOURS.
Proof. intros H Hi. rewrite (in_pool _ _ H) in Hi. apply elem_of_seqZ in Hi. lia. Qed.

Lemma pool_nodup cur g : inv cur g -> NoDup (TourStack g ++ (queue g).*1 ++ cur).
Proof. intros H. rewrite (in_pool _ _ H). apply NoDup_seqZ. Qed.

Lemma free_runs c g : inv [c] g -> (at_once -> solved g (tour g c)) ->
  runs full (free_tour c) g (fun _ g' => inv [] g' /\ same_rest g g' /\ measure g' = measure g).
Proof.
  intros H Hs. unfold free_tour. apply runs_bind. eapply runs_ok; [done|].
  pose proof (Permutation_length (in_pool _ _ H)) as El. rewrite !length_app, length_seqZ in El. cbn [length] in El.
  rewrite (proj2 (Z.ltb_lt _ _)) by lia. eapply runs_ok; [done|]. split_and!; [|done|done]. destruct H as [H1 H2 H3 H4 H5 H6 H7]. split; try done.
  - change (TourStack (set_stack (c :: TourStack g) g)) with (c :: TourStack g). change (queue (set_stack _ g)) with (queue g).
    rewrite <- H1, app_nil_r, app_assoc. rewrite (Permutation_app_comm _ [c]). done.
  - by intros i []%elem_of_nil.
  - intros Ha l Hl. change (queue (set_stack _ g)) with (queue g). change (minimum (set_stack _ g)) with (minimum g).
    destruct (H7 Ha l Hl) as [?|(i & q & Hi & ->)]; [by left|]. rewrite app_nil_r. apply elem_of_app in Hi as [Hi|Hi]; [right; by exists i, q|].
    left. apply list_elem_of_singleton in Hi as ->. by apply Hs.
Qed.

(** ** Splitting *)

(** The state in which tour [j], which was free, has become [t]. *)
Definition with_new (j : Z) (t : TourElement) (stack : list Z) (g : global) : global :=
  set_tour j t (set_stack stack g).

Lemma tour_new j t stack g i : tour (with_new j t stack g) i = if decide (i = j) then t else tour g i.
Proof. unfold tour, with_new. cbn. case_decide as E; [rewrite E; apply lookup_total_insert_eq|by apply lookup_total_insert_ne]. Qed.

Lemma less_new j t stack g x y : x.1 <> j -> y.1 <> j -> less_than (with_new j t stack g) x y = less_than g x y.
Proof. intros Hx Hy. unfold less_than. by rewrite !tour_new, !decide_False. Qed.

(** A tour with one more node takes the place of a free one, in the queue. *)
Lemma enqueue_runs c j t stack g : inv [c] g -> ~ at_once -> TourStack g = j :: stack -> tour_good t ->
  runs full (enqueue j) (with_new j t stack g) (fun _ g' => inv [c] g' /\ tour g' c = tour g c /\ measure g' = measure g + fuel_of t /\ same_rest g g').
Proof.
  intros H Hno Es Ht. pose proof (pool_nodup _ _ H) as Hnd. rewrite Es in Hnd. apply NoDup_cons in Hnd as [Hj _].
  assert (Hjq : forall e, e ∈ queue g -> e.1 <> j).
  { intros e He <-. apply Hj, elem_of_app. right. apply elem_of_app. left. apply list_elem_of_fmap. by exists e. }
  assert (Hjc : c <> j) by (intros ->; apply Hj, elem_of_app; right; apply elem_of_app; right; left).
  assert (Hjr : 0 <= j < MAX_NUM_TOURS) by (apply (pool_index _ _ _ H); rewrite Es; left).
  unfold enqueue. apply runs_bind. eapply runs_ok; [by apply get_Tour_run|]. rewrite tour_new, decide_True by done.
  apply runs_bind. eapply runs_ok; [done|]. set (g1 := with_new j t stack g). change (PrioQLast g1) with (PrioQLast g). change (PrioQ g1) with (PrioQ g).
  destruct (Z.leb_spec (MAX_NUM_TOURS - 1) (PrioQLast g)) as [Hm|Hm]; [split; [by right|done]|]. eapply runs_ok; [done|].
  assert (Hheap : heap (less_than g1) (PrioQLast g) (PrioQ g)).
  { apply (heap_less (less_than g)); [|apply (in_heap _ _ H)]. intros x y Hx Hy. apply less_new; by apply Hjq. }
  destruct (insert_ok (less_than g1) (less_asym g1) (le_trans g1) (PrioQLast g) (j, lower_bound t) (PrioQ g) (in_pos _ _ H) Hheap) as [Hh Hperm].
  set (g2 := set_queue _ _ g1). assert (Eq : queue g2 ≡ₚ (j, lower_bound t) :: queue g) by exact Hperm.
  assert (Etour : forall i, tour g2 i = if decide (i = j) then t else tour g i) by (intros; apply tour_new).
  split_and!; [|by rewrite Etour, decide_False| |done].
  - split.
    + rewrite Eq. change (TourStack g2) with stack. rewrite <- (in_pool _ _ H), Es. cbn [fmap list_fmap app fst]. by rewrite <- Permutation_middle.
    + cbn. pose proof (in_pos _ _ H). lia.
    + exact Hh.
    + intros e He. rewrite Eq in He. rewrite Etour. apply elem_of_cons in He as [->|He]; [by rewrite decide_True|].
      rewrite decide_False by by apply Hjq. by apply (in_queue _ _ H).
    + intros i ->%list_elem_of_singleton. rewrite Etour, decide_False by done. apply (in_cur _ _ H). left.
    + apply (in_best _ _ H).
    + intros Ha. done.
  - unfold measure. rewrite (measure_perm _ _ _ Eq). cbn [foldr fst]. rewrite Etour, decide_True by done.
    rewrite (sum_agree _ (fun e => fuel_of (tour g e.1))); [lia|]. intros e He. rewrite Etour, decide_False; [done|by apply Hjq].
Qed.

Lemma split_one_runs c i g : inv [c] g -> ~ at_once -> 0 <= i < TspSize -> last (tour g c) < TspSize - 3 ->
  runs full (split_one TspSize 0 weights c i) g (fun _ g' => inv [c] g' /\ tour g' c = tour g c /\
    measure g' <= measure g + (TspSize + 1) ^ (TspSize - last (tour g c) - 1) /\ same_rest g g').
Proof.
  intros H Hno Hi Hl. destruct (in_cur _ _ H c ltac:(left)) as [[Hok _ _ _] _]. pose proof (to_last _ _ _ _ Hok) as Hl0.
  assert (Hcr : 0 <= c < MAX_NUM_TOURS) by (apply (pool_index _ _ _ H), elem_of_app; right; apply elem_of_app; right; left).
  assert (Hpow : 0 <= (TspSize + 1) ^ (TspSize - last (tour g c) - 1)) by (apply Z.pow_nonneg; lia).
  unfold split_one. apply runs_bind. eapply runs_ok; [by apply get_Tour_run|]. apply runs_bind. eapply runs_ok; [done|].
  set (t := tour g c) in *. destruct (negb (in_conn t i) && _ && _) eqn:Ec; cbn [when].
  2:{ eapply runs_ok; [done|]. split_and!; [done|done|lia|done]. }
  apply andb_true_iff in Ec as [[Hnew%negb_true_iff Hedge%negb_true_iff]%andb_true_iff _]. apply Z.eqb_neq in Hedge.
  apply runs_bind. unfold new_tour. apply runs_bind. eapply runs_ok; [done|]. destruct (TourStack g) as [|j stack] eqn:Es; [split; [by left|done]|].
  pose proof (pool_nodup _ _ H) as Hnd. rewrite Es in Hnd. apply NoDup_cons in Hnd as [Hj _].
  assert (Hjr : 0 <= j < MAX_NUM_TOURS) by (apply (pool_index _ _ _ H); rewrite Es; left).
  apply runs_bind. eapply runs_ok; [done|]. apply runs_bind. eapply runs_ok; [by apply get_Tour_run|].
  apply runs_bind. eapply runs_ok; [by apply get_Tour_run|]. change (tour (set_stack stack g) c) with t. set (old := tour _ j).
  rewrite (proj2 (Z.ltb_lt _ _)) by lia. apply runs_bind. eapply runs_ok; [done|].
  set (t1 := extend TspSize weights old t i). change (set_tour j t1 (set_stack stack g)) with (with_new j t1 stack g).
  assert (E1 : tour (with_new j t1 stack g) j = t1) by (by rewrite tour_new, decide_True).
  assert (Hok1 : tour_ok TspSize 0 weights t1) by (apply extend_tour_ok; done || lia).
  eapply runs_ok; [apply calc_bound_run; [done|rewrite E1; cbn; lia]|]. rewrite E1.
  assert (E2 : set_tour j (bounded TspSize weights t1) (with_new j t1 stack g) = with_new j (bounded TspSize weights t1) stack g).
  { unfold with_new, set_tour. cbn. f_equal. apply insert_insert_eq. }
  rewrite E2, (proj2 (Z.eqb_neq j END_TOUR)) by (unfold END_TOUR; lia).
  eapply runs_mono; [|apply (enqueue_runs c j (bounded TspSize weights t1) stack g H Hno Es)].
  - intros _ g' (H1 & H2 & H3 & H4). split_and!; [done|done| |done]. rewrite H3. unfold fuel_of. cbn.
    replace (TspSize - (last t + 1)) with (TspSize - last t - 1) by lia. done.
  - apply bounded_good; [done|cbn; lia].
Qed.

Lemma split_runs c g : inv [c] g -> ~ at_once -> last (tour g c) < TspSize - 3 ->
  runs full (split_tour TspSize 0 weights c) g (fun _ g' => inv [c] g' /\ measure g' < measure g + fuel_of (tour g c) /\ same_rest g g').
Proof.
  intros H Hno Hl. destruct (in_cur _ _ H c ltac:(left)) as [[Hok _ _ _] _]. pose proof (to_last _ _ _ _ Hok) as Hl0.
  unfold split_tour. apply runs_bind. eapply runs_ok; [apply get_Tour_run, (pool_index _ _ _ H), elem_of_app; right; apply elem_of_app; right; left|].
  rewrite (proj2 (Z.eqb_neq _ _)) by lia. cbn [negb when]. set (B := (TspSize + 1) ^ (TspSize - last (tour g c) - 1)).
  eapply runs_mono; [|apply (runs_for_each full _ _ (fun k s => inv [c] s /\ tour s c = tour g c /\ measure s <= measure g + Z.of_nat k * B /\ same_rest g s))].
  - intros _ g' (H1 & _ & H3 & H4). split_and!; [done| |done]. rewrite length_seqZ in H3.
    assert (E : fuel_of (tour g c) = (TspSize + 1) * B).
    { unfold fuel_of, B. rewrite <- Z.pow_succ_r by lia. f_equal. lia. }
    assert (0 < B) by (apply Z.pow_pos_nonneg; lia). rewrite Z2Nat.id in H3 by lia. lia.
  - split_and!; [done|done|lia|done].
  - intros k i s Hi (H1 & H2 & H3 & L1 & D1 & M1). apply list_elem_of_lookup_2, elem_of_seqZ in Hi.
    eapply runs_mono; [|apply split_one_runs; [done|done|lia|by rewrite H2]].
    intros _ s' (H1' & H2' & H3' & L2 & D2 & M2). rewrite H2 in H2', H3'. fold B in H3'. split_and!; [done|done|lia|].
    unfold same_rest. by rewrite L2, D2, M2.
Qed.

(** ** The next tour *)

(** Nothing shorter can be found. *)
Definition finished (g : global) : Prop := at_once -> forall l, is_tour TspSize 0 weights l -> MinTourLen (minimum g) <= tour_weight 0 weights l.

Lemma queue_root g : inv [] g -> PrioQLast g <> 0 -> (PrioQ g !!! 1) ∈ queue g /\ forall e, e ∈ queue g -> (PrioQ g !!! 1).2 <= e.2.
Proof.
  intros H Hn. pose proof (in_pos _ _ H). split; [apply seg_elem; exists 1; split; [lia|done]|].
  intros e (i & Hi & ->)%seg_elem. pose proof (heap_root (less_than g) (less_asym g) (le_trans g) _ _ (in_heap _ _ H) i Hi) as Hr.
  unfold le, less_than in Hr. lia.
Qed.

(** The root goes to the process. *)
Lemma pop_inv g : inv [] g -> PrioQLast g <> 0 -> let c := (PrioQ g !!! 1).1 in (PrioQ g !!! 1).2 < BIGINT ->
  let g1 := set_queue (PrioQLast g - 1) (remove (less_than g) (PrioQLast g) (PrioQ g)) g in
  inv [c] g1 /\ measure g = measure g1 + fuel_of (tour g1 c).
Proof.
  intros H Hn c Hp g1. pose proof (in_pos _ _ H) as Hpos.
  destruct (remove_ok (less_than g) (less_asym g) (le_trans g) (PrioQLast g) (PrioQ g) ltac:(lia) (in_heap _ _ H)) as [Hh Hperm].
  assert (Eq : queue g ≡ₚ (PrioQ g !!! 1) :: queue g1) by by symmetry.
  destruct (queue_root g H Hn) as [Hroot _]. destruct (in_queue _ _ H _ Hroot) as [Hgood Hlb]. split.
  - split.
    + change (TourStack g1) with (TourStack g). rewrite <- (in_pool _ _ H), app_nil_r, Eq. cbn [fmap list_fmap]. by rewrite (Permutation_app_comm _ [c]).
    + cbn. lia.
    + exact Hh.
    + intros e He. apply (in_queue _ _ H). rewrite Eq. by right.
    + intros i ->%list_elem_of_singleton. change (tour g1 c) with (tour g c). split; [done|]. subst c. rewrite <- Hlb. done.
    + apply (in_best _ _ H).
    + intros Ha l Hl. destruct (in_cover _ _ H Ha l Hl) as [?|(i & q & Hi & ->)]; [by left|]. right. exists i, q. split; [|done].
      rewrite app_nil_r, Eq in Hi. cbn [fmap list_fmap] in Hi. apply elem_of_cons in Hi as [->|Hi]; apply elem_of_app; [right; left|by left].
  - unfold measure. rewrite (measure_perm _ _ _ Eq). cbn [foldr]. change (tour g1) with (tour g). fold c. lia.
Qed.

Definition found (g : global) (c : Z) (g' : global) : Prop :=
  TourLock g' = TourLock g /\ minimum g' = minimum g /\
  (c = -1 /\ inv [] g' /\ finished g' \/ 0 <= c /\ inv [c] g' /\ measure g' < measure g /\ Done g' = Done g).

Lemma stop_found g : inv [] g -> finished g -> runs full (modify set_Done;; mret (-1)) g (found g).
Proof.
  intros H Hf. apply runs_bind. eapply runs_ok; [done|]. eapply runs_ok; [done|]. split_and!; [done|done|]. left. split_and!; [done| |done].
  by destruct H.
Qed.

Lemma find_runs fuel : forall g, inv [] g -> measure g < Z.of_nat fuel -> runs full (find_loop TspSize 0 NodesFromEnd weights fuel) g (found g).
Proof.
  induction fuel as [|fuel IH]; intros g H Hf; [pose proof (measure_nonneg g); lia|]. cbn [find_loop]. apply runs_bind. eapply runs_ok; [done|].
  destruct (Z.eqb_spec (PrioQLast g) 0) as [E0|E0].
  { apply stop_found; [done|]. intros Ha l Hl. destruct (in_cover _ _ H Ha l Hl) as [?|(i & q & Hi & _)]; [done|]. exfalso.
    unfold queue in Hi. rewrite E0, app_nil_r in Hi. by apply elem_of_nil in Hi. }
  destruct (queue_root g H E0) as [Hroot Hmin]. destruct (PrioQ g !!! 1) as [c priority] eqn:Er. cbn [fst snd] in Hmin.
  destruct (Z.leb_spec (MinTourLen (minimum g)) priority) as [Hp|Hp].
  { apply stop_found; [done|]. intros Ha l Hl. destruct (in_cover _ _ H Ha l Hl) as [?|(i & q & Hi & ->)]; [done|].
    rewrite app_nil_r in Hi. apply list_elem_of_fmap in Hi as (e & -> & He). destruct (in_queue _ _ H e He) as [Hg Hlb].
    specialize (Hmin e He). pose proof (tg_admissible _ Hg q Hl). lia. }
  pose proof (pop_inv g H E0) as Hpop. rewrite Er in Hpop. cbn [fst snd] in Hpop. destruct Hpop as [H1 Hm]; [pose proof (proj1 (in_best _ _ H)); lia|].
  apply runs_bind. eapply runs_ok; [done|]. set (g1 := set_queue _ _ g) in *.
  assert (Hcr : 0 <= c < MAX_NUM_TOURS) by (apply (pool_index _ _ _ H1), elem_of_app; right; apply elem_of_app; right; left).
  destruct (in_cur _ _ H1 c ltac:(left)) as [Hgood _]. pose proof (to_last _ _ _ _ (tg_ok _ Hgood)) as Hl0.
  assert (Hpos : 0 < fuel_of (tour g1 c)) by (apply Z.pow_pos_nonneg; lia).
  apply runs_bind. eapply runs_ok; [by apply get_Tour_run|]. rewrite (proj2 (Z.ltb_lt (last (tour g1 c)) TspSize)) by lia. cbn [orb andb].
  destruct (Z.leb_spec (TspSize - NodesFromEnd - 1) (last (tour g1 c))) as [Hn|Hn].
  { eapply runs_ok; [done|]. split_and!; [done|done|]. right. split_and!; [lia|done|lia|done]. }
  assert (Hno : ~ at_once) by (unfold at_once; lia). cbn [when]. apply runs_bind.
  eapply runs_mono; [|apply (split_runs c g1 H1 Hno); lia]. intros _ g2 (H2 & Hm2 & L2 & D2 & M2). apply runs_bind.
  eapply runs_mono; [|by apply (free_runs c g2 H2)]. intros _ g3 (H3 & (L3 & D3 & M3) & Hm3).
  eapply runs_mono; [|apply (IH g3 H3); lia]. intros c' g4 (L4 & M4 & Hc). unfold found. rewrite L4, M4, L3, M3, L2, M2. split_and!; [done|done|].
  destruct Hc as [Hc|(? & ? & ? & ED)]; [by left|right]. split_and!; [done|done|lia|]. rewrite ED, D3, D2. done.
Qed.

(** ** The loop of a process *)
Definition hand (curr : Z) : list Z := if decide (curr = -1) then [] else [curr].

Lemma inv_lock cur g b : inv cur g -> inv cur (set_lock b g).
Proof. by intros []. Qed.

Lemma get_tour_runs fuel curr g : inv (hand curr) g -> TourLock g = false -> Done g = false ->
  (at_once -> forall i, i ∈ hand curr -> solved g (tour g i)) -> measure g < Z.of_nat fuel ->
  runs full (get_tour TspSize 0 NodesFromEnd weights fuel curr) g (found g).
Proof.
  intros H Hlock HD Hs Hf. unfold get_tour. apply runs_bind. unfold lock_acquire. apply runs_bind. eapply runs_ok; [done|].
  rewrite Hlock. eapply runs_ok; [done|]. apply runs_bind. set (g0 := set_lock true g).
  assert (Hfree : runs full (when (negb (curr =? -1)) (free_tour curr)) g0 (fun _ g' => inv [] g' /\ same_rest g0 g' /\ measure g' = measure g0)).
  { unfold hand in *. destruct (Z.eqb_spec curr (-1)) as [E|E]; cbn [negb when].
    - rewrite decide_True in H by done. eapply runs_ok; [done|]. split_and!; [by apply inv_lock|done|done].
    - rewrite decide_False in H, Hs by done. apply free_runs; [by apply inv_lock|]. intros Ha. apply (Hs Ha). left. }
  eapply runs_mono; [|exact Hfree]. intros _ g1 (H1 & (L1 & D1 & M1) & Hm1). apply runs_bind. unfold find_solvable_tour.
  apply runs_bind. eapply runs_ok; [done|]. rewrite D1. change (Done g0) with (Done g). rewrite HD.
  eapply runs_mono; [|apply (find_runs fuel g1 H1); rewrite Hm1; done]. intros c g2 (L2 & M2 & Hc).
  apply runs_bind. eapply runs_ok; [done|]. eapply runs_ok; [done|]. split_and!; [done|cbn; by rewrite M2, M1|].
  destruct Hc as [(? & ? & ?)|(? & ? & ? & ED)]; [left|right].
  - split_and!; [done|by apply inv_lock|done].
  - split_and!; [done|by apply inv_lock| |cbn; by rewrite ED, D1]. change (measure (set_lock false g2)) with (measure g2). rewrite Hm1 in *. done.
Qed.

Lemma solve_runs c g : inv [c] g -> runs full (solve TspSize 0 weights c) g (fun _ g' =>
  inv [c] g' /\ TourLock g' = TourLock g /\ Done g' = Done g /\ measure g' = measure g /\ solved g' (tour g' c)).
Proof.
  intros H. destruct (in_cur _ _ H c ltac:(left)) as [Hgood Hlb]. destruct (in_best _ _ H) as [Hb Hone].
  pose proof (tg_last _ Hgood) as Hl. pose proof (tg_bound _ Hgood) as Hpw.
  unfold solve. apply runs_bind. eapply runs_ok; [apply get_Tour_run, (pool_index _ _ _ H), elem_of_app; right; apply elem_of_app; right; left|].
  destruct (recursive_solve_run TspSize 0 weights eq_refl Hw (proj2 Hsize) (tour g c) (Searching 0 0 ∅ ∅ (minimum g)) (tg_ok _ Hgood)) as (s & R & Hless & Hall & Hnew);
    [lia|lia|done|]. cbn [best_of] in *.
  assert (Rg : run_search (recursive_solve TspSize 0 weights (tour g c)) g = Ok (tt, set_minimum (best_of s) g)) by (unfold run_search; by rewrite R).
  eapply runs_ok; [exact Rg|]. split_and!; [|done|done|done|exact Hall]. destruct H as [H1 H2 H3 H4 H5 H6 H7]. split; try done.
  - cbn. split; [lia|]. destruct Hnew as [->|(l & Hl' & ->)]; [done|]. by right.
  - intros Ha l Hl'. cbn [set_minimum minimum]. destruct (H7 Ha l Hl') as [?|?]; [left; lia|by right].
Qed.

Lemma worker_runs fuel n : forall curr g, inv (hand curr) g -> TourLock g = false -> Done g = false ->
  (at_once -> forall i, i ∈ hand curr -> solved g (tour g i)) -> measure g < Z.of_nat fuel -> measure g < Z.of_nat n ->
  runs full (Worker TspSize 0 NodesFromEnd weights fuel n curr) g (fun _ g' => best_ok (minimum g') /\ finished g').
Proof.
  induction n as [|n IH]; intros curr g H Hlock HD Hs Hf Hn; [pose proof (measure_nonneg g); lia|]. cbn [Worker].
  apply runs_bind. eapply runs_mono; [|by apply get_tour_runs]. intros c g1 (L1 & M1 & [(-> & H1 & F1)|(Hc & H1 & Hm & D1)]).
  - change (-1 <? 0) with true. eapply runs_ok; [done|]. split; [apply (in_best _ _ H1)|done].
  - rewrite (proj2 (Z.ltb_ge c 0)) by lia. apply runs_bind. eapply runs_mono; [|by apply solve_runs]. intros _ g2 (H2 & L2 & D2 & Hm2 & Hs2).
    assert (Eh : hand c = [c]) by (unfold hand; by rewrite decide_False by lia). apply IH; rewrite ?Eh, ?Hm2; [done|congruence|congruence| |lia|lia].
    by intros _ i ->%list_elem_of_singleton.
Qed.

(** ** [main] *)
Lemma main_runs fuel : (TspSize + 1) ^ TspSize < Z.of_nat fuel ->
  runs full (init TspSize 0 weights;; Worker TspSize 0 NodesFromEnd weights fuel fuel (-1)) (start_global 0) (fun _ g => best_ok (minimum g) /\ finished g).
Proof.
  intros Hf. pose proof (first_tour_ok TspSize weights ltac:(lia)) as H0.
  assert (E0 : tour (start_global 0) 0 = first_tour 0) by apply lookup_total_insert_eq.
  set (t := bounded TspSize weights (first_tour 0)). assert (Ht : tour_good t) by (apply bounded_good; [done|cbn; lia]).
  set (g1 := set_tour 0 t (start_global 0)). assert (E1 : tour g1 0 = t) by apply lookup_total_insert_eq.
  set (g2 := set_stack (seqZ 1 (MAX_NUM_TOURS - 1) ++ []) (set_queue 1 {[1 := (0, lower_bound t)]} g1)).
  assert (Hinit : init TspSize 0 weights (start_global 0) = Ok (tt, g2)).
  { unfold init. rewrite (bind_Ok _ _ _ _ _ (calc_bound_run TspSize 0 weights 0 (start_global 0) ltac:(done) ltac:(rewrite E0; cbn; lia))).
    rewrite E0. fold t. fold g1. rewrite (bind_Ok _ _ _ _ _ (get_Tour_run 0 g1 ltac:(done))), E1. done. }
  apply runs_bind. eapply runs_ok; [exact Hinit|].
  assert (Eq : queue g2 = [(0, lower_bound t)]).
  { unfold queue. change (PrioQLast g2) with 1. change (PrioQ g2) with ({[1 := (0, lower_bound t)]} : gmap Z (Z * Z)). rewrite seg_one. by rewrite lookup_total_singleton. }
  assert (Et : tour g2 0 = t) by exact E1.
  assert (Hm : measure g2 = (TspSize + 1) ^ TspSize).
  { unfold measure. rewrite Eq. cbn [foldr fst]. rewrite Et. unfold fuel_of. cbn. rewrite Z.sub_0_r. lia. }
  apply worker_runs; [|done|done| |rewrite Hm; lia|rewrite Hm; lia].
  - unfold hand. rewrite decide_True by done. split.
    + rewrite Eq. change (TourStack g2) with (seqZ 1 (MAX_NUM_TOURS - 1) ++ []). rewrite app_nil_r. cbn [fmap list_fmap fst app].
      rewrite (seqZ_cons 0 MAX_NUM_TOURS) by done. by rewrite Permutation_app_comm.
    + done.
    + intros i Hi. cbn in Hi. lia.
    + intros e He. rewrite Eq in He. apply list_elem_of_singleton in He as ->. cbn [fst snd]. by rewrite Et.
    + by intros i []%elem_of_nil.
    + split; [done|by left].
    + intros _ l (Hp & Hh & _). right. exists 0, (tail l). rewrite Eq, Et. split; [left|].
      change (path_of t) with (path_of (first_tour 0)). rewrite first_tour_path. destruct l; [done|]. cbn in Hh. injection Hh as ->. done.
  - unfold hand. rewrite decide_True by done. by intros _ i []%elem_of_nil.
Qed.
End Proof.


(** If at most [NodesFromEnd] nodes follow the first one, which holds for
    13 cities and fewer by default, the program ends normally with a shortest
    tour: no complete tour is shorter than the minimum. *)
Theorem small_exact TspSize NodesFromEnd weights fuel :
  3 <= TspSize <= MAX_TOUR_SIZE -> 2 <= NodesFromEnd -> TspSize <= NodesFromEnd + 1 ->
  (forall i j, 0 <= weights i j < 2147483648) -> (forall i j, weights i j = weights j i) ->
  (TspSize + 1) ^ TspSize < Z.of_nat fuel -> exists g,
  main TspSize 0 NodesFromEnd weights fuel = Ok (tt, g) /\
  (forall l, is_tour TspSize 0 weights l -> MinTourLen (minimum g) <= tour_weight 0 weights l) /\
  (minimum g = Best BIGINT [] \/
   is_tour TspSize 0 weights (MinTour (minimum g)) /\ MinTourLen (minimum g) = tour_weight 0 weights (MinTour (minimum g))).
Proof.
  intros Hs He Ha Hw Hsym Hf. pose proof (main_runs TspSize NodesFromEnd weights Hs He Hw Hsym fuel Hf) as H.
  unfold runs in H. unfold main. destruct ((init TspSize 0 weights;; Worker TspSize 0 NodesFromEnd weights fuel fuel (-1)) (start_global 0)) as [[[] g]|w| |]; [|by destruct H as [_ H]|done..].
  destruct H as [(_ & Hone) Hall]. exists g. split_and!; [done|by apply Hall|done].
Qed.

Lemma line_range i j : 0 <= line i j < 2147483648.
Proof. unfold line, MAX_TOUR_SIZE. destruct (i =? j); lia. Qed.

Lemma line_sym i j : line i j = line j i.
Proof. unfold line. rewrite (Z.eqb_sym j i). destruct (i =? j); [done|]. do 2 f_equal. lia. Qed.


Lemma small_exact_witness : exists g, main 4 0 12 line 626 = Ok (tt, g) /\ minimum g = Best 14 [0; 1; 2; 3] /\
  forall l, is_tour 4 0 line l -> 14 <= tour_weight 0 line l.
Proof.
  destruct (small_exact 4 12 line 626) as (g & R & A & _); [unfold MAX_TOUR_SIZE; lia|lia|lia|exact line_range|exact line_sym|vm_compute; reflexivity|].
  exists g. split; [exact R|].
  assert (E : minimum g = Best 14 [0; 1; 2; 3]).
  { clear A. assert (E : match main 4 0 12 line 626 with Ok (_, g) => minimum g | _ => Best 0 [] end = minimum g) by (rewrite R; reflexivity).
    rewrite <- E. vm_compute. reflexivity. }
  split; [exact E|]. clear R. rewrite E in A. exact A.
Defined.

(** With a smaller [NodesFromEnd] the answer can be wrong.  [split_tour]
    drops a node when the lower bound of the tour and the edge to the node
    exceed the minimum, but the lower bound has the edges to that node in it
    already.  For this undirected graph of six cities and [-r 2] the program
    reports 13, though there is a tour of length 12. *)
Theorem split_misses_shortest :
  (forall i j, graph graph6 i j = graph graph6 j i) /\
  match main 6 0 2 (graph graph6) 200 with Ok (_, g) => MinTourLen (minimum g) = 13 | _ => False end /\
  is_tour 6 0 (graph graph6) [0; 2; 1; 5; 3; 4] /\ tour_weight 0 (graph graph6) [0; 2; 1; 5; 3; 4] = 12.
Proof.
  split_and!.
  - intros i j. unfold graph. generalize (Z.to_nat i) (Z.to_nat j). intros a b.
    do 6 (destruct a as [|a]; [do 6 (destruct b as [|b]; [done|]); done|]).
    do 6 (destruct b as [|b]; [done|]). done.
  - vm_compute. reflexivity.
  - split; [|split; reflexivity]. change (seqZ 0 6) with [0; 1; 2; 3; 4; 5].
    apply (bool_decide_eq_true_1 ([0; 2; 1; 5; 3; 4] ≡ₚ [0; 1; 2; 3; 4; 5])). vm_compute. reflexivity.
  - reflexivity.
Qed.

(** A tour that lacks two nodes must not be split, as [-r 0] and [-r 1]
    have it: [calc_bound] completes the new tour itself and takes [TourLock] to
    free it, which [get_tour] holds already, and the library ends the program.
    With [MAX_TOUR_SIZE] cities it first writes behind the end of [prefix]. *)
Theorem split_relocks TspSize weights c j i stack g :
  TspSize <= MAX_TOUR_SIZE -> 0 <= c < MAX_NUM_TOURS -> 0 <= j < MAX_NUM_TOURS -> c <> j ->
  TourLock g = true -> TourStack g = j :: stack -> tour_ok TspSize 0 weights (tour g c) -> last (tour g c) = TspSize - 3 ->
  0 <= i < TspSize -> in_conn (tour g c) i = false -> weights (prefix (tour g c) !!! last (tour g c)) i <> 0 ->
  new_tour TspSize 0 weights c i g =
    if TspSize <? MAX_TOUR_SIZE then Exit "Tmk_lock_acquire: REacquired" else Undef.
Proof.
  intros Hs Hc Hj Hne Hlock Es Hok Hl Hi Hnew Hedge. pose proof (to_last _ _ _ _ Hok) as Hl0. unfold MAX_TOUR_SIZE in *.
  unfold new_tour. rewrite get_bind, Es, modify_bind. set (g1 := set_stack stack g). 
  rewrite (bind_Ok _ _ _ _ _ (get_Tour_run j g1 Hj)), (bind_Ok _ _ _ _ _ (get_Tour_run c g1 Hc)).
  change (tour g1 c) with (tour g c). unfold MAX_TOUR_SIZE. rewrite (proj2 (Z.ltb_lt _ _)) by lia. rewrite modify_bind.
  set (t := extend TspSize weights (tour g1 j) (tour g c) i). set (g2 := set_tour j t g1).
  assert (Et : tour g2 j = t) by apply lookup_total_insert_eq.
  assert (Hok1 : tour_ok TspSize 0 weights t) by (apply extend_tour_ok; done || lia).
  assert (Hu : exists k l, unconnected TspSize t = k :: l).
  { pose proof (Permutation_length (path_unconnected TspSize 0 weights t Hok1)) as El. rewrite length_app, length_seqZ in El.
    pose proof (path_length t) as Ep. change (last t) with (last (tour g c) + 1) in Ep. destruct (unconnected TspSize t) as [|k l]; [cbn in El; lia|eauto]. }
  destruct Hu as (k & l & Eu). unfold calc_bound. rewrite (bind_Ok _ _ _ _ _ (get_Tour_run j g2 Hj)), Et, Eu.
  change (last t) with (last (tour g c) + 1). rewrite (proj2 (Z.eqb_eq _ _)) by lia. unfold complete_tour.
  rewrite (bind_Ok _ _ _ _ _ (get_Tour_run j g2 Hj)), Et. unfold MAX_TOUR_SIZE. destruct (TspSize <? 32); [|done].
  rewrite get_bind. set (w := _ + _). set (p := <[TspSize := 0]> _).
  assert (E : exists g3, when (w <? MinTourLen (minimum g2)) (modify (set_minimum (set_best TspSize w p (minimum g2)))) g2 = Ok (tt, g3) /\ TourLock g3 = true).
  { destruct (_ <? _); eexists; (split; [done|done]). }
  destruct E as (g3 & E & L3). rewrite (bind_Ok _ _ _ _ _ E), modify_bind.
  unfold lock_acquire. unfold mbind at 1, M_bind at 1. rewrite get_bind. cbn [set_tour TourLock]. by rewrite L3.
Qed.

Lemma split_relocks_witness : let g := Global [1] false 0 (Best BIGINT []) true ∅ {[0 := first_tour 0]} in
  new_tour 3 0 line 0 1 g = Exit "Tmk_lock_acquire: REacquired".
Proof.
  intros g. apply (split_relocks 3 line 0 1 1 [] g); [unfold MAX_TOUR_SIZE; lia|unfold MAX_NUM_TOURS; lia|unfold MAX_NUM_TOURS; lia|lia|reflexivity|reflexivity|
    apply first_tour_ok; lia|reflexivity|lia|reflexivity|vm_compute; discriminate].
Defined.
