(* ===== verification/ReadTsp.v ===== *)
(** * Travelling salesman: reading a problem ([src/Tmk/apps/tsp_c/src/READ_TSP.C])

    A problem is a line with the number of cities and a line of weights for
    each city.  Lines are read into a buffer of 81 characters, 79 at a time. *)
From S2P Require Import Prelude Chars Arrays Tsp.
Local Open Scope list_scope.
Local Open Scope Z_scope.

Definition is_blank (c : Z) : bool := (c =? 32) || (c =? 9).
Definition ends_number (c : Z) : bool := is_blank c || (c =? 10).

(** ** [read_int] *)

(** The buffer [line]; a pointer into it is an index. *)
Definition at_char (line : text) (p : nat) : res Z := match line !! p with Some c => Ok c | None => Undef end.

(** A loop that moves [temp_ptr] on while [P] holds of the character there. *)
Fixpoint advance (fuel : nat) (P : Z -> bool) (line : text) (p : nat) : res nat :=
  match at_char line p with
  | Ok c => if P c then match fuel with O => Undef | S fuel' => advance fuel' P line (S p) end else Ok p
  | _ => Undef
  end.

(** The pointer it returns, if any, and the number, with the buffer in which
    the character after the number has become 0. *)
Definition read_int (char_ptr : nat) : M text (option (nat * Z)) := fun line =>
  let fuel := List.length line in
  match advance fuel is_blank line char_ptr with
  | Ok temp_ptr =>
      match at_char line temp_ptr with
      | Ok c =>
          if (c =? 10) || (c =? 0) then Ok (None, line)
          else
            match advance fuel (fun c => negb (ends_number c)) line temp_ptr with
            | Ok temp_ptr =>
                let line := <[temp_ptr := 0]> line in
                Ok (Some (S temp_ptr, atoi (drop char_ptr line)), line)
            | _ => Undef
            end
      | _ => Undef
      end
  | _ => Undef
  end.

(** ** [read_tsp] *)

(** The file, [line], and [global->weights]. *)
Record reader : Type := Reader { file : text; line : text; weights : gmap (Z * Z) Z }.

(** [fgets(line, 80, fp)]: false for a null pointer. *)
Definition get_line : M reader bool := fun s =>
  let '(l, rest) := fgets 80 (file s) in
  match l with
  | [] => Ok (false, s)
  | _ => Ok (true, Reader rest (l ++ 0 :: drop (S (List.length l)) (line s)) (weights s))
  end.

Definition on_line {A} (m : M text A) : M reader A := fun s =>
  match m (line s) with Ok (a, l) => Ok (a, Reader (file s) l (weights s)) | Exit w => Exit w | Undef => Undef | Block => Block end.

(** [global->weights[i][j] = wt]; a row has [MAX_TOUR_SIZE] elements. *)
Definition set_weight (i j wt : Z) : M reader unit :=
  if j <? MAX_TOUR_SIZE then modify (fun s => Reader (file s) (line s) (<[(i, j) := wt]> (weights s))) else undef.

(** [while (scan_ptr = read_int(scan_ptr, &wt)) weights[i][j++] = wt;] *)
Fixpoint read_row (fuel : nat) (i j : Z) (scan_ptr : nat) : M reader unit :=
  r ← on_line (read_int scan_ptr);
  match r with
  | None => mret tt
  | Some (scan_ptr, wt) =>
      set_weight i j wt;;
      match fuel with O => undef | S fuel' => read_row fuel' i (j + 1) scan_ptr end
  end.

Definition LINE : nat := 81.

Definition read_city (i : Z) : M reader unit :=
  ok ← get_line;
  if ok : bool then read_row LINE i 0 0 else undef.

(** [file]: what [fopen] opens.  The result is [TspSize]. *)
Definition read_tsp : M reader Z :=
  _ ← get_line;
  s ← get;
  let TspSize := atoi (line s) in
  if MAX_TOUR_SIZE <? TspSize then exit_with "Error: Problem size larger than maximum."
  else for_each read_city (seqZ 0 TspSize);; mret TspSize.

(** What the program starts from; the buffer is not initialised. *)
Definition opened (f buffer : text) : reader := Reader f buffer ∅.

Definition tspfile4 : text := codes "4" ++ [10] ++ codes "0 3 1 2" ++ [10] ++ codes "3 0 2  14 " ++ [10] ++ codes "1 2 0 5" ++ [10] ++ codes "  2 14 5 0" ++ [10].

Example four_cities :
  match read_tsp (opened tspfile4 (replicate LINE 88)) with
  | Ok (n, s) => (n, (fun i => (fun j => weights s !!! (i, j)) <$> seqZ 0 n) <$> seqZ 0 n)
  | _ => (0, [])
  end = (4, [[0; 3; 1; 2]; [3; 0; 2; 14]; [1; 2; 0; 5]; [2; 14; 5; 0]]).
Proof. vm_compute. reflexivity. Qed.

(** ** Moving over characters *)
Lemma at_char_drop (line : text) p c b : drop p line = c :: b -> at_char line p = Ok c.
Proof. intros E. unfold at_char. rewrite <- (Nat.add_0_r p), <- lookup_drop, E. done. Qed.

Lemma drop_more {A} (l : list A) p a b : drop p l = a ++ b -> drop (p + List.length a) l = b.
Proof. intros E. rewrite <- drop_drop, E. by rewrite drop_app_length. Qed.

Lemma advance_run P line c b a : forall fuel p, drop p line = a ++ c :: b -> (forall x, x ∈ a -> P x = true) -> P c = false ->
  (List.length a <= fuel)%nat -> advance fuel P line p = Ok (p + List.length a)%nat.
Proof.
  induction a as [|x a IH]; intros fuel p E Ha Hc Hf; cbn [List.length] in *.
  - rewrite Nat.add_0_r. destruct fuel; cbn [advance]; rewrite (at_char_drop _ _ _ _ E), Hc; done.
  - destruct fuel as [|fuel]; [lia|]. cbn [advance]. rewrite (at_char_drop _ _ _ _ E), (Ha x) by left.
    rewrite (IH fuel (S p)); [f_equal; lia| |intros y Hy; apply Ha; by right|done|lia].
    replace (S p) with (p + List.length [x])%nat by (cbn; lia). by apply drop_more.
Qed.

(** A loop that finds no end leaves the buffer. *)
Lemma advance_overrun P line : forall fuel p, (forall x, x ∈ drop p line -> P x = true) -> advance fuel P line p = Undef.
Proof.
  assert (Hone : forall p, (forall x, x ∈ drop p line -> P x = true) -> match at_char line p with Ok c => P c = true | Undef => True | _ => False end).
  { intros p Hp. unfold at_char. destruct (line !! p) as [c|] eqn:E; [|done]. apply Hp.
    apply list_elem_of_lookup. exists 0%nat. by rewrite lookup_drop, Nat.add_0_r. }
  induction fuel as [|fuel IH]; intros p Hp; cbn [advance]; specialize (Hone p Hp) as H1; destruct (at_char line p); try done; rewrite H1; [done|].
  apply IH. intros x Hx. apply Hp. replace (S p) with (p + 1)%nat in Hx by lia. rewrite <- drop_drop in Hx.
  apply list_elem_of_lookup in Hx as [k Hk]. rewrite lookup_drop in Hk. by eapply list_elem_of_lookup_2.
Qed.

Lemma blank_space c : is_blank c = true -> is_space c = true.
Proof. unfold is_blank, is_space. lia. Qed.
Lemma digit_no_end c : is_digit c = true -> ends_number c = false.
Proof. unfold is_digit, ends_number, is_blank. lia. Qed.

Definition blanks (s : text) : Prop := forall c, c ∈ s -> is_blank c = true.

Lemma app_len (a b : text) line p : drop p line = a ++ b -> (List.length a <= List.length line)%nat.
Proof. intros E. apply (f_equal List.length) in E. rewrite length_drop, List.length_app in E. lia. Qed.

(** ** [read_int] *)
Lemma read_int_number p line g w c rest : drop p line = g ++ dec w ++ c :: rest -> blanks g -> 0 <= w <= LONG_MAX -> ends_number c = true ->
  exists line', read_int p line = Ok (Some (p + List.length (g ++ dec w) + 1, w)%nat, line') /\
    drop (p + List.length (g ++ dec w) + 1) line' = rest /\ List.length line' = List.length line.
Proof.
  intros E Hg Hw Hc. destruct (dec_spec w ltac:(lia)) as (Hne & Hds & _). destruct (dec w) as [|d ds] eqn:Ed; [done|]. rewrite <- Ed in *.
  assert (Hd : is_digit d = true) by (apply Hds; rewrite Ed; left).
  pose proof (drop_more _ _ _ _ E) as E1. pose proof (drop_more _ _ _ _ E1) as E2.
  assert (E1' : drop (p + List.length g) line = d :: ds ++ c :: rest) by (by rewrite E1, Ed).
  set (t := (p + List.length g + List.length (dec w))%nat) in *.
  exists (<[t := 0]> line). replace (p + List.length (g ++ dec w) + 1)%nat with (S t) by (rewrite List.length_app; lia).
  unfold read_int. rewrite (advance_run is_blank line d (ds ++ c :: rest) g); [|by rewrite E, Ed|done| |by eapply app_len].
  2:{ unfold is_digit in Hd. unfold is_blank. lia. }
  rewrite (at_char_drop _ _ _ _ E1'). unfold is_digit in Hd. rewrite (proj2 (Z.eqb_neq d 10)), (proj2 (Z.eqb_neq d 0)) by lia. cbn [orb].
  rewrite (advance_run _ line c rest (dec w)); [|done|intros x Hx; by rewrite digit_no_end by (by apply Hds)|by rewrite Hc|by eapply app_len].
  fold t. assert (Et : drop p (<[t := 0]> line) = g ++ dec w ++ 0 :: rest).
  { rewrite drop_insert_ge by lia. rewrite E, app_assoc. replace (t - p)%nat with (List.length (g ++ dec w) + 0)%nat by (rewrite List.length_app; lia).
    by rewrite insert_app_r, <- app_assoc. }
  cbv zeta. rewrite Et, atoi_dec by (lia || (intros x Hx; by apply blank_space, Hg)). split_and!; [done| |by rewrite length_insert].
  rewrite drop_insert_lt by lia. replace (S t) with (t + List.length [c])%nat by (cbn; lia). by apply drop_more.
Qed.

Lemma read_int_end p line g c rest : drop p line = g ++ c :: rest -> blanks g -> c = 10 \/ c = 0 -> read_int p line = Ok (None, line).
Proof.
  intros E Hg Hc. unfold read_int. rewrite (advance_run is_blank line c rest g); [|done|done| |by eapply app_len].
  2:{ unfold is_blank. destruct Hc; by subst. }
  rewrite (at_char_drop line _ c rest) by (by apply drop_more). by destruct Hc; subst.
Qed.

(** A number that nothing ends within the buffer: the loop passes over the 0 of
    [fgets] and leaves the buffer. *)
Lemma read_int_overrun p line g d b : drop p line = g ++ d :: b -> blanks g -> is_digit d = true ->
  (forall c, c ∈ b -> ends_number c = false) -> read_int p line = Undef.
Proof.
  intros E Hg Hd Hb. unfold read_int. rewrite (advance_run is_blank line d b g); [|done|done| |by eapply app_len].
  2:{ unfold is_digit in Hd. unfold is_blank. lia. }
  pose proof (drop_more _ _ _ _ E) as E1. rewrite (at_char_drop _ _ _ _ E1). unfold is_digit in Hd.
  rewrite (proj2 (Z.eqb_neq d 10)), (proj2 (Z.eqb_neq d 0)) by lia. cbn [orb].
  rewrite advance_overrun; [done|]. intros x Hx. rewrite E1 in Hx. apply elem_of_cons in Hx as [->|Hx]; [by rewrite digit_no_end|by rewrite Hb].
Qed.

(** ** Rows *)

(** The numbers of a row, each with what stands before it. *)
Abbreviation fields := (list (text * Z)).
Definition fields_text (fs : fields) : text := concat ((fun f => f.1 ++ dec f.2) <$> fs).
Definition row_text (r : fields * text) : text := fields_text r.1 ++ r.2 ++ [10].

(** Only the first number need not have a blank before it. *)
Definition fields_ok (fs : fields) : Prop :=
  (forall g w, (g, w) ∈ fs -> blanks g /\ 0 <= w <= LONG_MAX) /\ forall g w, (g, w) ∈ tail fs -> g <> [].

Fixpoint put_row (i j : Z) (ws : list Z) (m : gmap (Z * Z) Z) : gmap (Z * Z) Z :=
  match ws with [] => m | w :: ws' => put_row i (j + 1) ws' (<[(i, j) := w]> m) end.

Lemma on_line_run {A} (m : M text A) s a l : m (line s) = Ok (a, l) -> on_line m s = Ok (a, Reader (file s) l (weights s)).
Proof. intros H. unfold on_line. by rewrite H. Qed.

Lemma read_row_end fuel i j p s g c rest : drop p (line s) = g ++ c :: rest -> blanks g -> c = 10 \/ c = 0 ->
  read_row fuel i j p s = Ok (tt, s).
Proof.
  intros E Hg Hc. pose proof (on_line_run _ s _ _ (read_int_end p (line s) g c rest E Hg Hc)) as R.
  destruct fuel; cbn [read_row]; rewrite (bind_Ok _ _ _ _ _ R); by destruct s.
Qed.

Lemma fields_tail f fs : fields_ok (f :: fs) -> fields_ok fs /\ forall g w, (g, w) ∈ fs -> g <> [].
Proof.
  intros [H1 H2]. split; [|done]. split; [intros g w H; apply H1; by right|]. intros g w H. apply (H2 g w). cbn.
  destruct fs; [done|by right].
Qed.

Lemma read_row_run n : forall fs tl junk fuel i j p s, List.length fs = n -> drop p (line s) = fields_text fs ++ tl ++ 10 :: 0 :: junk -> fields_ok fs -> blanks tl ->
  (List.length fs <= fuel)%nat -> 0 <= j -> j + Z.of_nat (List.length fs) <= MAX_TOUR_SIZE ->
  exists l, read_row fuel i j p s = Ok (tt, Reader (file s) l (put_row i j (fs.*2) (weights s))).
Proof.
  induction n as [|n IH]; intros fs tl junk fuel i j p s Hn E Hok Htl Hf Hj Hmax; (destruct fs as [|[g w] fs]; [|try done]); try done.
  { exists (line s). rewrite (read_row_end fuel i j p s tl 10 (0 :: junk)) by auto. by destruct s. }
  destruct (fields_tail _ _ Hok) as [Hok' Hgaps]. destruct Hok as [H1 _]. destruct (H1 g w ltac:(left)) as [Hg Hw].
  cbn [List.length] in *. destruct fuel as [|fuel]; [lia|]. unfold fields_text in E. rewrite fmap_cons in E. cbn [concat fst snd] in E.
  fold (fields_text fs) in E. rewrite <- !app_assoc in E.
  assert (Hstep : forall c rest, fields_text fs ++ tl ++ 10 :: 0 :: junk = c :: rest -> ends_number c = true ->
    exists l q, drop q l = rest /\ read_row (S fuel) i j p s = read_row fuel i (j + 1) q (Reader (file s) l (<[(i, j) := w]> (weights s)))).
  { intros c rest Ec Hc. rewrite Ec in E. destruct (read_int_number p (line s) g w c rest E Hg Hw Hc) as (l & R & Hl & _).
    eexists l, _. split; [exact Hl|]. cbn [read_row]. rewrite (bind_Ok _ _ _ _ _ (on_line_run _ s _ _ R)). cbv beta iota.
    unfold set_weight. rewrite (proj2 (Z.ltb_lt j MAX_TOUR_SIZE)) by lia. done. }
  destruct fs as [|[g' w'] fs].
  - destruct tl as [|b tl].
    + destruct (Hstep 10 (0 :: junk) eq_refl eq_refl) as (l & q & Hl & ->). exists l.
      by rewrite (read_row_end _ _ _ _ _ [] 0 junk) by (auto || by intros ? ?%elem_of_nil).
    + assert (Hb : is_blank b = true) by (apply Htl; left).
      destruct (Hstep b (tl ++ 10 :: 0 :: junk) eq_refl) as (l & q & Hl & ->); [by unfold ends_number; rewrite Hb|]. exists l.
      rewrite (read_row_end _ _ _ _ _ tl 10 (0 :: junk)); [done|done| |auto]. intros c Hc. apply Htl. by right.
  - assert (Hne : g' <> []) by (apply (Hgaps g' w'); left). destruct g' as [|b g']; [done|].
    destruct Hok' as [H1' H2']. destruct (H1' (b :: g') w' ltac:(left)) as [Hg' Hw'].
    destruct (Hstep b (fields_text ((g', w') :: fs) ++ tl ++ 10 :: 0 :: junk) eq_refl) as (l & q & Hl & ->).
    { unfold ends_number. by rewrite (Hg' b) by left. }
    assert (Hok2 : fields_ok ((g', w') :: fs)).
    { split; [|exact H2']. intros g2 w2 [[= -> ->]|H]%elem_of_cons; [|by apply H1'; right].
      split; [|done]. intros c Hc. apply Hg'. by right. }
    edestruct (IH ((g', w') :: fs) tl junk fuel i (j + 1) q (Reader (file s) l (<[(i, j) := w]> (weights s)))) as (l' & R);
      [..|rewrite R; by exists l']; first [done|cbn in *; lia].
Qed.

Lemma put_row_lookup i ws : forall j m i' j', put_row i j ws m !! (i', j') =
  if decide (i' = i /\ j <= j' < j + Z.of_nat (List.length ws)) then ws !! Z.to_nat (j' - j) else m !! (i', j').
Proof.
  induction ws as [|w ws IH]; intros j m i' j'; cbn [put_row List.length].
  - rewrite decide_False by (cbn; lia). done.
  - rewrite IH. destruct (decide (i' = i /\ j' = j)) as [[-> ->]|Hne].
    + rewrite decide_False by lia. rewrite lookup_insert_eq, decide_True by lia. by rewrite Z.sub_diag.
    + rewrite lookup_insert_ne by (intros [= -> ->]; by apply Hne).
      repeat case_decide; try lia; try done. replace (Z.to_nat (j' - j)) with (S (Z.to_nat (j' - (j + 1)))) by lia. done.
Qed.

(** ** [read_tsp] *)
Lemma get_line_run l rest s : file s = l ++ 10 :: rest -> (List.length l <= 78)%nat -> 10 ∉ l -> exists junk,
  get_line s = Ok (true, Reader rest (l ++ 10 :: 0 :: junk) (weights s)).
Proof.
  intros Hf Hl Hn. unfold get_line. rewrite Hf, fgets_line by (lia || done).
  exists (drop (S (List.length (l ++ [10]))) (line s)). destruct (l ++ [10]) eqn:E; [by destruct l|]. rewrite <- E.
  by rewrite <- app_assoc.
Qed.

(** A row that fits a line: [n] numbers, 78 characters at most. *)
Record row_ok (n : Z) (r : fields * text) : Prop := {
  ro_count : Z.of_nat (List.length r.1) = n;
  ro_fields : fields_ok r.1;
  ro_tail : blanks r.2;
  ro_length : (List.length (row_text r) <= 79)%nat
}.

Lemma no_newline fs tl : fields_ok fs -> blanks tl -> 10 ∉ fields_text fs ++ tl.
Proof.
  intros [H1 _] Htl [Hin|Hin]%elem_of_app; [|by specialize (Htl 10 Hin)].
  unfold fields_text in Hin. apply list_elem_of_In, in_concat in Hin as (x & Hx & Hc).
  apply list_elem_of_In, list_elem_of_fmap in Hx as ([g w] & -> & Hgw). apply list_elem_of_In in Hc. destruct (H1 g w Hgw) as [Hg Hw].
  apply elem_of_app in Hc as [Hc|Hc]; [by specialize (Hg 10 Hc)|]. destruct (dec_spec w ltac:(lia)) as (_ & Hd & _). by specialize (Hd 10 Hc).
Qed.

Lemma read_city_run n i r rest s : row_ok n r -> n <= MAX_TOUR_SIZE -> file s = row_text r ++ rest ->
  exists l, read_city i s = Ok (tt, Reader rest l (put_row i 0 (r.1.*2) (weights s))).
Proof.
  intros [Hc Hf Ht Hl] Hn E. unfold row_text in *. rewrite !List.length_app in Hl. cbn in Hl.
  destruct (get_line_run (fields_text r.1 ++ r.2) rest s) as [junk R].
  { by rewrite E, <- !app_assoc. }
  { rewrite List.length_app. lia. }
  { by apply no_newline. }
  unfold read_city. rewrite (bind_Ok _ _ _ _ _ R).
  destruct (read_row_run (List.length r.1) r.1 r.2 junk LINE i 0 0 (Reader rest ((fields_text r.1 ++ r.2) ++ 10 :: 0 :: junk) (weights s))) as [l Rl];
    [done|cbn; by rewrite <- app_assoc|done|done|unfold LINE, MAX_TOUR_SIZE in *; lia|lia|lia|]. by exists l.
Qed.

Abbreviation row := (fields * text)%type.

Fixpoint put_rows (i : Z) (rows : list row) (m : gmap (Z * Z) Z) : gmap (Z * Z) Z :=
  match rows with [] => m | r :: rows' => put_rows (i + 1) rows' (put_row i 0 (r.1.*2) m) end.

Definition rows_text (rows : list row) : text := concat (row_text <$> rows).

Lemma read_cities_run n rows : forall i rest s, Forall (row_ok n) rows -> n <= MAX_TOUR_SIZE -> file s = rows_text rows ++ rest ->
  exists l, for_each read_city (seqZ i (Z.of_nat (List.length rows))) s = Ok (tt, Reader rest l (put_rows i rows (weights s))).
Proof.
  induction rows as [|r rows IH]; intros i rest s Hok Hn E.
  { exists (line s). cbn in *. destruct s; cbn in *. by subst. }
  apply Forall_cons in Hok as [Hr Hok]. unfold rows_text in E. rewrite fmap_cons in E. cbn [concat] in E. rewrite <- app_assoc in E.
  destruct (read_city_run n i r (rows_text rows ++ rest) s Hr Hn E) as [l R].
  destruct (IH (i + 1) rest (Reader (rows_text rows ++ rest) l (put_row i 0 (r.1.*2) (weights s))) Hok Hn eq_refl) as [l' R'].
  exists l'. cbn [List.length]. rewrite seqZ_cons by lia. cbn [for_each]. rewrite (bind_Ok _ _ _ _ _ R).
  replace (Z.pred (Z.of_nat (S (List.length rows)))) with (Z.of_nat (List.length rows)) by lia. exact R'.
Qed.

Lemma put_rows_before rows : forall i m i' j', i' < i -> put_rows i rows m !! (i', j') = m !! (i', j').
Proof.
  induction rows as [|r rows IH]; intros i m i' j' Hi; [done|]. cbn [put_rows]. rewrite IH by lia. by rewrite put_row_lookup, decide_False by lia.
Qed.

Lemma put_rows_lookup rows : forall i m (k j : nat) r f, rows !! k = Some r -> r.1 !! j = Some f ->
  put_rows i rows m !! (i + Z.of_nat k, Z.of_nat j) = Some f.2.
Proof.
  induction rows as [|r0 rows IH]; intros i m k j r f Hk Hj; [done|]. destruct k as [|k]; cbn [put_rows].
  - injection Hk as ->. rewrite put_rows_before by lia. pose proof (lookup_lt_Some _ _ _ Hj).
    rewrite put_row_lookup, decide_True by (rewrite length_fmap; lia). rewrite list_lookup_fmap.
    replace (Z.to_nat (Z.of_nat j - 0)) with j by lia. by rewrite Hj.
  - replace (i + Z.of_nat (S k)) with (i + 1 + Z.of_nat k) by lia. by apply (IH _ _ k j r).
Qed.

Lemma header_line before after n : 0 <= n -> blanks before -> blanks after -> 10 ∉ before ++ dec n ++ after.
Proof.
  intros Hn Hb Ha [Hc|[Hc|Hc]%elem_of_app]%elem_of_app; [by specialize (Hb 10 Hc)| |by specialize (Ha 10 Hc)].
  destruct (dec_spec n Hn) as (_ & Hd & _). by specialize (Hd 10 Hc).
Qed.

Lemma header_number before after n junk : 0 <= n <= LONG_MAX -> blanks before -> blanks after ->
  atoi ((before ++ dec n ++ after) ++ 10 :: 0 :: junk) = n.
Proof.
  intros Hn Hb Ha. replace ((before ++ dec n ++ after) ++ 10 :: 0 :: junk) with (before ++ dec n ++ (after ++ [10]) ++ 0 :: junk)
    by (by rewrite <- !app_assoc).
  assert (Hno : forall c, is_blank c = true -> c <> 0 /\ is_digit c = false) by (intros c; unfold is_blank, is_digit; lia).
  apply atoi_dec_rest; [done|intros c Hc; by apply blank_space, Hb| |].
  - intros c [Hc| ->%list_elem_of_singleton]%elem_of_app; [by apply Hno, Ha|done].
  - intros c s' E. destruct after as [|b after]; [by injection E as <-|]. injection E as <- _. apply Hno, Ha. left.
Qed.

(** C37: Reading inverts writing.  Let a file hold a first line with the
    number of cities [n], at most 32, then [n] lines with [n] numbers each,
    separated by any positive number of blanks and tabs, with any blanks before
    and after, no line longer than 78 characters.  Then [read_tsp] returns [n]
    whatever the buffer held before; it has read those lines and no more, and
    [weights[i][j]] is the [j]-th number of line [i]. *)
Theorem read_tsp_exact (n : Z) (before after rest buffer : text) (rows : list row)
  (Hn : n = Z.of_nat (List.length rows)) (Hmax : n <= MAX_TOUR_SIZE)
  (Hbefore : blanks before) (Hafter : blanks after) (Hline : (List.length (before ++ dec n ++ after) <= 78)%nat)
  (Hrows : Forall (row_ok n) rows) :
  exists s, read_tsp (opened ((before ++ dec n ++ after) ++ 10 :: rows_text rows ++ rest) buffer) = Ok (n, s) /\ file s = rest /\
    forall (i j : nat) r f, rows !! i = Some r -> r.1 !! j = Some f -> weights s !! (Z.of_nat i, Z.of_nat j) = Some f.2.
Proof.
  destruct (get_line_run (before ++ dec n ++ after) (rows_text rows ++ rest)
    (opened ((before ++ dec n ++ after) ++ 10 :: rows_text rows ++ rest) buffer)) as [junk R]; [done..|apply header_line; done || lia|].
  unfold read_tsp. rewrite (bind_Ok _ _ _ _ _ R). rewrite (bind_Ok _ _ _ _ _ (eq_refl : get _ = Ok (_, _))). cbn [line].
  rewrite header_number by first [done|unfold LONG_MAX, MAX_TOUR_SIZE in *; lia]. cbv zeta. rewrite (proj2 (Z.ltb_ge MAX_TOUR_SIZE n)) by done.
  destruct (read_cities_run n rows 0 rest (Reader (rows_text rows ++ rest) ((before ++ dec n ++ after) ++ 10 :: 0 :: junk) ∅) Hrows Hmax eq_refl) as [l Rl]. rewrite <- Hn in Rl. rewrite (bind_Ok _ _ _ _ _ Rl).
  eexists. split; [done|]. split; [done|]. intros i j r f Hi Hj. cbn [weights]. by apply (put_rows_lookup rows 0 _ i j r f).
Qed.

(** ** A file *)
Definition row_okb (n : Z) (r : row) : bool :=
  (Z.of_nat (List.length r.1) =? n) && (List.length (row_text r) <=? 79)%nat && forallb is_blank r.2 &&
  forallb (fun f => forallb is_blank f.1 && (0 <=? f.2) && (f.2 <=? LONG_MAX)) r.1 &&
  forallb (fun f => match f.1 with [] => false | _ => true end) (tail r.1).

Lemma forallb_blanks s : forallb is_blank s = true -> blanks s.
Proof. intros H c Hc. apply (proj1 (forallb_forall _ _) H). by apply list_elem_of_In. Qed.

Lemma row_okb_sound n r : row_okb n r = true -> row_ok n r.
Proof.
  unfold row_okb. rewrite !andb_true_iff. intros [[[[Hc Hl] Ht] Hf] Hg]. rewrite forallb_forall in Hf, Hg.
  split; [lia| |by apply forallb_blanks|by apply Nat.leb_le]. split.
  - intros g w Hin. apply list_elem_of_In, Hf in Hin. rewrite !andb_true_iff in Hin. destruct Hin as [[Hb H1] H2]. cbn in *.
    split; [by apply forallb_blanks|lia].
  - intros g w Hin ->. by apply list_elem_of_In, Hg in Hin.
Qed.

Definition rows2 : list row := [([(codes "", 0); (codes " ", 17)], codes " "); ([([9], 17); (codes "  ", 0)], [])].

Lemma rows2_ok : Forall (row_ok 2) rows2.
Proof. apply Forall_forall. intros r [->|[->|H%elem_of_nil]%elem_of_cons]%elem_of_cons; [by apply row_okb_sound..|done]. Qed.

Lemma read_tsp_exact_witness : exists s,
  read_tsp (opened (codes " 2" ++ 10 :: codes "0 17 " ++ 10 :: 9 :: codes "17  0" ++ 10 :: codes "end") []) = Ok (2, s) /\
  file s = codes "end" /\ weights s !! (1, 0) = Some 17.
Proof.
  destruct (read_tsp_exact 2 (codes " ") [] (codes "end") [] rows2) as (s & R & F & W);
    [reflexivity|by unfold MAX_TOUR_SIZE|by apply forallb_blanks|by apply forallb_blanks|cbn; lia|apply rows2_ok|].
  exists s. split; [exact R|]. split; [exact F|]. exact (W 1%nat 0%nat _ _ eq_refl eq_refl).
Defined.
