(* ===== verification/IntervalWire.v ===== *)
(** * The interval messages: writing and reading

    [Tmk_interval_request] writes the intervals another process lacks as a
    sequence of unsigned shorts, and [Tmk_interval_incorporate] reads such a
    sequence while it acts on it.  Here the reader is related to the writer:
    reading what was written performs, interval by interval and range by
    range, exactly the actions for the intervals that were sent. *)
From S2P Require Import Prelude Pages State Twins Diffs Interval.
Local Open Scope Z_scope.

(** ** Reading without parsing: the actions for a list of intervals *)

(** A two-page range is written as two one-page ranges. *)
Definition split_range (rg : Z * Z) : list (Z * Z) :=
  let '(first, last) := rg in
  if last - first =? 1 then [(first, first); (last, last)] else [rg].

Definition accept_range (v : vt_ptr) (pid : Z) (vt : vtime) (head : bool) (rg : Z * Z) : Proc unit :=
  when (negb head) (heap_alloc sizeof_range;; skip);;
  last_range pid rg;;
  for_each (note_page v pid vt) (pages_from rg.1 rg.2).

Fixpoint accept_ranges (v : vt_ptr) (pid : Z) (vt : vtime) (head : bool) (rgs : list (Z * Z))
    : Proc unit :=
  match rgs with
  | [] => skip
  | rg :: rgs' => accept_range v pid vt head rg;; accept_ranges v pid vt false rgs'
  end.

(** A new interval is recorded and its pages are noted; an old one is skipped. *)
Definition accept_interval (v : vt_ptr) (pid : Z) (iv : interval) : Proc unit :=
  mine ← gets (fun s => vt_get (n_vt s) pid);
  when (mine <? vt_get (iv_vt iv) pid)
    (modify (fun s => set_n_vt (vt_set pid (vt_get (iv_vt iv) pid) (n_vt s)) s);;
     heap_alloc sizeof_interval;;
     enqueue_interval pid (Interval pid (iv_vt iv) []);;
     accept_ranges v pid (iv_vt iv) true (iv_ranges iv ≫= split_range);;
     self ← me;
     inv ← gets (fun s => vt_get (n_it s) pid);
     when (inv <? vt_get (iv_vt iv) self)
       (modify (fun s => set_n_it (vt_set pid (vt_get (iv_vt iv) self) (n_it s)) s))).

(** ** Well-formed intervals *)
Definition range_ok (rg : Z * Z) : Prop := 0 <= rg.1 <= rg.2 /\ rg.2 < RANGE_MARK.

(** The pages of the ranges. *)
Definition pages_of_ranges (rgs : list (Z * Z)) : list Z := rgs ≫= fun rg => seqZ rg.1 (rg.2 - rg.1 + 1).

Record interval_ok (iv : interval) : Prop := {
  iv_vt_length : length (iv_vt iv) = Z.to_nat NPROCS;
  iv_vt_u16 : Forall is_u16 (iv_vt iv);
  iv_nonempty : iv_ranges iv <> [];
  iv_ranges_ok : Forall range_ok (iv_ranges iv)
}.

(** A position between two records of a message. *)
Definition boundary (msg : list Z) : Prop :=
  match msg with [] => True | u :: _ => PID_LIMIT <= u end.

(** Two computations with the same behaviour in every state. *)
Record same_run {A} (m1 m2 : Proc A) : Prop := SameRun { run_eq : forall s, m1 s = m2 s }.
Infix "≃" := same_run (at level 70).

#[export] Instance same_run_equivalence {A} : Equivalence (@same_run A).
Proof.
  split; [by intros m; split|by intros m1 m2 [H]; split|].
  intros m1 m2 m3 [H12] [H23]. split. intros s. by rewrite H12.
Qed.

Lemma same_run_bind {A B} (m1 m2 : Proc A) (f1 f2 : A -> Proc B) :
  m1 ≃ m2 -> (forall a, f1 a ≃ f2 a) -> (m1 ≫= f1) ≃ (m2 ≫= f2).
Proof.
  intros [Hm] Hf. split. intros s. unfold mbind, M_bind. rewrite Hm.
  destruct (m2 s) as [[a s']| | |]; [apply Hf|done..].
Qed.

Lemma bind_assoc {A B C} (m : Proc A) (f : A -> Proc B) (g : B -> Proc C) :
  ((m ≫= f) ≫= g) ≃ (m ≫= fun a => f a ≫= g).
Proof. split. intros s. unfold mbind, M_bind. by destruct (m s) as [[a s']| | |]. Qed.

Lemma bind_skip {A} (m : Proc A) : (skip;; m) ≃ m.
Proof. done. Qed.

Lemma ret_bind {A B} (a : A) (f : A -> Proc B) : (mret a ≫= f) ≃ f a.
Proof. done. Qed.

#[export] Instance same_run_bind_proper {A B} :
  Proper (pointwise_relation A same_run ==> same_run ==> same_run) (@mbind (M node) M_bind A B).
Proof. intros f1 f2 Hf m1 m2 Hm. by apply same_run_bind. Qed.

(** Left-nested binds and binds of a result, wherever they are. *)
Ltac bind_norm :=
  repeat match goal with
  | |- context [@mbind ?M ?I ?B ?C ?g (@mbind ?M ?I ?A ?B ?f ?m)] => rewrite (bind_assoc m f g)
  | |- context [@mbind ?M ?I ?A ?B ?f (@mret ?M ?J ?A ?a)] => rewrite (ret_bind a f)
  end.

(** Both sides begin with the same step. *)
Ltac bind_step := bind_norm; apply same_run_bind; [done|].

(** ** Ranges *)
Lemma put_range_ends rg : range_ok rg -> exists u rest,
  put_range rg = u :: rest /\ u < PID_LIMIT /\ (rest = [] -> u <> RANGE_MARK).
Proof.
  destruct rg as [f l]. intros [H1 H2]. cbn in H1, H2. unfold put_range.
  assert (RANGE_MARK = 65503 /\ PID_LIMIT = 65504) as [EM EP] by done.
  destruct (Z.ltb_spec 0 (l - f)); [destruct (Z.ltb_spec 1 (l - f))|]; cbn [app].
  - exists RANGE_MARK, [f; l]. split_and!; [done|lia|done].
  - exists f, [l]. split_and!; [done|lia|intros; lia].
  - exists l, []. split_and!; [done|lia|intros; lia].
Qed.

(** The test that ends the loop over the ranges. *)
Lemma next_range v pid vt msg rest :
  boundary rest ->
  match rest with
  | u2 :: _ => if u2 <? PID_LIMIT then get_ranges false v pid vt msg else mret rest
  | [] => mret rest
  end = (mret rest : Proc (list Z)).
Proof.
  destruct rest as [|u rest]; [done|]. cbn. intros Hb. by destruct (Z.ltb_spec u PID_LIMIT); [lia|].
Qed.

(** One range at the front: the continuation depends on what follows. *)
Definition then_ranges (v : vt_ptr) (pid : Z) (vt : vtime) (rest : list Z) : Proc (list Z) :=
  match rest with
  | u2 :: _ => if u2 <? PID_LIMIT then get_ranges false v pid vt rest else mret rest
  | [] => mret rest
  end.

Lemma get_one v pid vt head u rest :
  u <> RANGE_MARK ->
  get_ranges head v pid vt (u :: rest) ≃ (accept_range v pid vt head (u, u);; then_ranges v pid vt rest).
Proof.
  intros Hu. unfold accept_range. cbn [get_ranges fst snd].
  destruct (Z.eqb_spec u RANGE_MARK); [done|].
  bind_step. intros [].
  bind_norm. done.
Qed.

Lemma get_mark v pid vt head u l rest :
  get_ranges head v pid vt (RANGE_MARK :: u :: l :: rest) ≃
    (accept_range v pid vt head (u, l);; then_ranges v pid vt rest).
Proof.
  unfold accept_range. cbn [get_ranges fst snd]. rewrite Z.eqb_refl.
  bind_step. intros [].
  bind_norm. done.
Qed.

Lemma get_put_range v pid vt head rg rest :
  range_ok rg ->
  get_ranges head v pid vt (put_range rg ++ rest) ≃
    (accept_ranges v pid vt head (split_range rg);; then_ranges v pid vt rest).
Proof.
  destruct rg as [f l]. intros [H1 H2]. cbn in H1, H2.
  assert (RANGE_MARK = 65503 /\ PID_LIMIT = 65504) as [EM EP] by done.
  unfold put_range, split_range.
  destruct (Z.ltb_spec 0 (l - f)) as [H3|H3]; [destruct (Z.ltb_spec 1 (l - f)) as [H4|H4]|]; cbn [app].
  - rewrite get_mark. destruct (Z.eqb_spec (l - f) 1); [lia|]. cbn [accept_ranges].
    bind_step. intros []. by rewrite bind_skip.
  - replace (l - f =? 1) with true by (symmetry; apply Z.eqb_eq; lia). cbn [accept_ranges].
    rewrite get_one by lia. bind_step. intros [].
    rewrite !bind_assoc. cbn [then_ranges]. destruct (Z.ltb_spec l PID_LIMIT); [|lia].
    rewrite get_one by lia. bind_step. intros []. by rewrite bind_skip.
  - replace l with f by lia. destruct (Z.eqb_spec (f - f) 1); [lia|]. cbn [accept_ranges].
    rewrite get_one by lia. bind_step.
    intros []. by rewrite bind_skip.
Qed.

Lemma accept_ranges_app v pid vt head a l1 l2 :
  accept_ranges v pid vt head ((a :: l1) ++ l2) ≃
    (accept_ranges v pid vt head (a :: l1);; accept_ranges v pid vt false l2).
Proof.
  revert head a. induction l1 as [|b l1 IH]; intros head a.
  - cbn [app accept_ranges]. bind_step. intros []. by rewrite bind_skip.
  - rewrite <- app_comm_cons. cbn [accept_ranges app]. bind_step.
    intros []. specialize (IH false b). cbn [accept_ranges app] in IH. rewrite IH. done.
Qed.

Lemma split_range_cons rg : exists a l, split_range rg = a :: l.
Proof. destruct rg as [f l]. unfold split_range. destruct (l - f =? 1); eauto. Qed.

(** All ranges of an interval, in front of another record or the end. *)
Lemma get_put_ranges v pid vt rgs : forall head rest,
  rgs <> [] -> Forall range_ok rgs -> boundary rest ->
  get_ranges head v pid vt ((rgs ≫= put_range) ++ rest) ≃
    (accept_ranges v pid vt head (rgs ≫= split_range);; mret rest).
Proof.
  induction rgs as [|rg rgs IH]; [done|]. intros head rest _ Hok Hb.
  apply Forall_cons in Hok as [Hrg Hok]. cbn [mbind list_bind]. rewrite <- app_assoc.
  rewrite get_put_range by done.
  destruct (split_range_cons rg) as (a & l & ->).
  rewrite accept_ranges_app. bind_step. intros [].
  destruct rgs as [|rg' rgs].
  - cbn [mbind list_bind app accept_ranges]. rewrite bind_skip.
    unfold then_ranges. destruct rest as [|u rest]; [done|].
    cbn in Hb. destruct (Z.ltb_spec u PID_LIMIT); [lia|done].
  - assert (Hhd : exists u r, (((rg' :: rgs) ≫= put_range) ++ rest) = u :: r /\ u < PID_LIMIT).
    { apply Forall_cons in Hok as [Hrg' _]. destruct (put_range_ends rg' Hrg') as (u & r & E & Hu & _).
      exists u, ((r ++ (rgs ≫= put_range)) ++ rest). split; [|done].
      cbn [mbind list_bind]. rewrite E. done. }
    rewrite <- (IH false rest) by done.
    destruct Hhd as (u & r & E & Hu). rewrite E. cbn [then_ranges].
    destruct (Z.ltb_spec u PID_LIMIT); [done|lia].
Qed.

(** Ranges of an interval that is not new are skipped. *)
Lemma skip_put_ranges rgs rest :
  Forall range_ok rgs -> boundary rest -> skip_ranges ((rgs ≫= put_range) ++ rest) = rest.
Proof.
  intros Hok Hb. induction Hok as [|[f l] rgs [H1 H2] Hok IH].
  - destruct rest as [|u rest]; [done|]. cbn in *. by destruct (Z.ltb_spec u PID_LIMIT); [lia|].
  - cbn [mbind list_bind]. rewrite <- app_assoc. cbn in H1, H2.
    assert (RANGE_MARK = 65503 /\ PID_LIMIT = 65504) as [EM EP] by done.
    unfold put_range.
    destruct (Z.ltb_spec 0 (l - f)); [destruct (Z.ltb_spec 1 (l - f))|]; cbn [app skip_ranges];
      repeat (match goal with |- context [?a <? PID_LIMIT] => destruct (Z.ltb_spec a PID_LIMIT); [|lia] end);
      apply IH.
Qed.

(** ** Intervals *)
Lemma not_pid_pid pid : 0 <= pid < NPROCS -> pid_of (not_pid pid) = pid /\ PID_LIMIT <= not_pid pid.
Proof.
  unfold NPROCS. intros H. assert (E : not_pid pid = 65535 - pid).
  { unfold not_pid, u16. replace (-1 - pid) with (65535 - pid + (-1) * 65536) by lia.
    rewrite Z.mod_add by lia. apply Z.mod_small. lia. }
  rewrite E. assert (PID_LIMIT = 65504) as -> by done. split; [|lia].
  unfold pid_of. rewrite s16_of_high by lia. lia.
Qed.

Lemma put_interval_boundary i iv rest : 0 <= i < NPROCS -> boundary (put_interval i iv ++ rest).
Proof. intros Hi. cbn. by apply not_pid_pid. Qed.

Lemma get_put_interval v pid iv rest :
  0 <= pid < NPROCS -> interval_ok iv -> boundary rest ->
  get_interval v pid (iv_vt iv ++ (iv_ranges iv ≫= put_range) ++ rest) ≃
    (accept_interval v pid iv;; mret rest).
Proof.
  intros Hp [Hlen _ Hne Hok] Hb. unfold get_interval.
  rewrite (proj2 (Z.leb_le _ _)), (proj2 (Z.ltb_lt _ _)) by lia. cbn [andb].
  rewrite (proj2 (Z.leb_le _ _)) by (rewrite length_app, Hlen; unfold NPROCS; lia).
  rewrite take_app_length', drop_app_length' by done. unfold accept_interval.
  bind_step. intros mine.
  destruct (Z.ltb_spec mine (vt_get (iv_vt iv) pid)) as [Hnew|Hold]; cbn [when].
  - bind_step. intros [].
    bind_step. intros ?.
    bind_step. intros [].
    rewrite get_put_ranges by done. bind_step. intros [].
    rewrite ret_bind, !bind_assoc. apply same_run_bind; [done|]. intros self.
    bind_step. intros inv. done.
  - by rewrite skip_put_ranges.
Qed.

(** The message of a list of intervals, each with its process. *)
Definition encode (ivs : list (Z * interval)) : list Z := ivs ≫= fun '(i, iv) => put_interval i iv.

Lemma put_interval_length i iv : (0 < length (put_interval i iv))%nat.
Proof. cbn. lia. Qed.

Lemma encode_boundary ivs : Forall (fun '(i, iv) => 0 <= i < NPROCS /\ interval_ok iv) ivs ->
  boundary (encode ivs).
Proof.
  intros [|[i iv] ivs' [Hi _] _]; [done|]. cbn [encode mbind list_bind].
  by apply put_interval_boundary.
Qed.

Lemma incorporate_encode v ivs : forall fuel,
  Forall (fun '(i, iv) => 0 <= i < NPROCS /\ interval_ok iv) ivs ->
  (length (encode ivs) <= fuel)%nat ->
  incorporate_loop fuel v (encode ivs) ≃ for_each (fun '(i, iv) => accept_interval v i iv) ivs.
Proof.
  induction ivs as [|[i iv] ivs IH]; intros fuel Hok Hf.
  - by destruct fuel.
  - apply Forall_cons in Hok as [[Hi Hiv] Hok].
    change (encode ((i, iv) :: ivs)) with (put_interval i iv ++ encode ivs) in *.
    rewrite length_app in Hf. pose proof (put_interval_length i iv).
    destruct fuel as [|fuel]; [lia|].
    unfold put_interval. rewrite <- app_comm_cons, <- app_assoc. cbn [incorporate_loop for_each].
    destruct (not_pid_pid i Hi) as [-> _].
    rewrite get_put_interval by (auto using encode_boundary).
    bind_step. intros []. rewrite ret_bind.
    apply IH; [done|lia].
Qed.

(** ** What is sent *)

(** The intervals of a process, in the order they were created: the
    component of the process itself counts them. *)
Definition ordered (i : Z) (ivs : list interval) : Prop :=
  forall j k a b, (j < k)%nat -> ivs !! j = Some a -> ivs !! k = Some b ->
    vt_get (iv_vt a) i < vt_get (iv_vt b) i.

Lemma newer_filter i time ivs : ordered i ivs ->
  newer i time (reverse ivs) = filter (fun iv => time < vt_get (iv_vt iv) i) ivs.
Proof.
  induction ivs as [|x ivs IH] using rev_ind; intros Ho; [done|].
  assert (Ho' : ordered i ivs).
  { intros j k a b Hjk Ha Hb. apply (Ho j k a b); [done|..]; by apply lookup_app_l_Some. }
  rewrite reverse_app, filter_app. cbn [reverse rev_append newer app].
  change (reverse [x] ++ reverse ivs) with (x :: reverse ivs). cbn [newer].
  destruct (Z.ltb_spec time (vt_get (iv_vt x) i)) as [Hx|Hx].
  - rewrite IH by done. f_equal. by rewrite filter_cons_True.
  - rewrite filter_cons_False by lia. rewrite app_nil_r. symmetry.
    assert (Hall : Forall (fun iv => ~ (time < vt_get (iv_vt iv) i)) ivs).
    { apply Forall_lookup. intros j a Ha.
      assert (vt_get (iv_vt a) i < vt_get (iv_vt x) i); [|lia].
      apply (Ho j (length ivs)); [by apply lookup_lt_Some in Ha| |].
      - by apply lookup_app_l_Some.
      - rewrite lookup_app_r by lia. by rewrite Nat.sub_diag. }
    clear -Hall. induction Hall as [|a ivs' Ha Hall IHall]; [done|]. by rewrite filter_cons_False.
Qed.

(** The intervals of [s] that a process with vector time [vt] lacks. *)
Definition lacking (s : node) (vt : vtime) : list (Z * interval) :=
  procs_of (n_conf s) ≫= fun i =>
    (fun iv => (i, iv)) <$> filter (fun iv => vt_get vt i < vt_get (iv_vt iv) i) (intervals_of s i).

Record sender_ok (s : node) : Prop := {
  snd_nprocs : nprocs (n_conf s) <= NPROCS;
  snd_ordered : forall i, ordered i (intervals_of s i);
  snd_ivs : forall i iv, iv ∈ intervals_of s i -> interval_ok iv
}.

Lemma list_bind_assoc {A B C} (f : A -> list B) (g : B -> list C) l :
  (l ≫= f) ≫= g = l ≫= (fun x => f x ≫= g).
Proof. induction l as [|x l IH]; [done|]. cbn [mbind list_bind]. by rewrite bind_app, IH. Qed.

Lemma request_encode s vt : sender_ok s -> Tmk_interval_request s vt = encode (lacking s vt).
Proof.
  intros [_ Ho _]. unfold Tmk_interval_request, encode, lacking.
  rewrite list_bind_assoc. apply list_bind_ext; [|done]. intros i. unfold Tmk_interval_request_proc.
  rewrite newer_filter by apply Ho. by rewrite list_fmap_bind.
Qed.

Lemma lacking_ok s vt : sender_ok s ->
  Forall (fun '(i, iv) => 0 <= i < NPROCS /\ interval_ok iv) (lacking s vt).
Proof.
  intros [Hn _ Hok]. apply Forall_forall. intros [i iv] Hin.
  unfold lacking in Hin. apply list_elem_of_bind in Hin as (j & Hin & Hj).
  apply list_elem_of_fmap in Hin as (iv' & [= -> ->] & Hin).
  apply list_elem_of_filter in Hin as [_ Hin]. apply elem_of_seqZ in Hj.
  split; [lia|by eapply Hok].
Qed.

(** C7: what [Tmk_interval_request] writes, [Tmk_interval_incorporate] reads.
    If [s1] is a process with well-formed intervals, then incorporating, in
    any state and with any [vector_time_] argument, the message that [s1]
    sends to a process with vector time [vt] runs exactly the actions for the
    intervals of [s1] that are newer than [vt], process by process and oldest
    first, followed by the merged invalidations: no field of a record is
    mistaken for another, and the reader stops at the end. *)
Theorem interval_message_roundtrip s1 vt v s2 :
  sender_ok s1 ->
  Tmk_interval_incorporate (Tmk_interval_request s1 vt) v s2 =
    (for_each (fun '(i, iv) => accept_interval v i iv) (lacking s1 vt);;
     match v with VtNull => skip | _ => on_pages Tmk_page_inval_perform end) s2.
Proof.
  intros Hs. unfold Tmk_interval_incorporate. rewrite request_encode by done.
  apply same_run_bind; [|done]. apply incorporate_encode; [by apply lacking_ok|done].
Qed.

(** A process whose only interval covers pages 2, 5..6 and 8..11. *)
Definition sender_ex : node :=
  set_n_procs {[ 1 := [Interval 1 (vt_set 1 1 vt_zero) [(2, 2); (5, 6); (8, 11)]] ]}
    (zero_node (Conf 1 4 4096 64 0)).

Lemma sender_ex_intervals i :
  intervals_of sender_ex i = if decide (i = 1) then [Interval 1 (vt_set 1 1 vt_zero) [(2, 2); (5, 6); (8, 11)]] else [].
Proof.
  unfold intervals_of, sender_ex. cbn [n_procs set_n_procs]. case_decide; [by subst|].
  by rewrite lookup_singleton_ne.
Qed.

Lemma sender_ex_ok : sender_ok sender_ex.
Proof.
  split.
  - done.
  - intros i j k a b Hjk Ha Hb. rewrite sender_ex_intervals in Ha, Hb. case_decide; [|done].
    apply lookup_lt_Some in Ha, Hb. simpl in *. lia.
  - intros i iv Hin. rewrite sender_ex_intervals in Hin. case_decide; [|inversion Hin].
    apply list_elem_of_singleton in Hin as ->. split.
    + done.
    + unfold vt_set, vt_zero, is_u16. apply Forall_insert; [|done]. apply Forall_replicate. lia.
    + done.
    + unfold range_ok. repeat constructor; simpl; try lia.
Qed.

Lemma interval_message_roundtrip_witness :
  Tmk_interval_incorporate (Tmk_interval_request sender_ex vt_zero) VtProc (zero_node (Conf 0 4 4096 64 0)) =
    (for_each (fun '(i, iv) => accept_interval VtProc i iv) (lacking sender_ex vt_zero);;
     on_pages Tmk_page_inval_perform) (zero_node (Conf 0 4 4096 64 0)).
Proof. apply (interval_message_roundtrip sender_ex vt_zero VtProc). exact sender_ex_ok. Defined.

Example request_ex :
  drop 33 (Tmk_interval_request sender_ex vt_zero) = [2; 5; 6; 65503; 8; 11].
Proof. vm_compute. reflexivity. Qed.
