(* ===== verification/IntervalEffect.v ===== *)
(** * What incorporating a message does to the interval lists

    The intervals and the vector time that a process keeps for the others
    change only by the intervals that are new to it, in order. *)
From S2P Require Import Prelude Pages PageLists PageWalk PageSets State Twins Diffs Interval IntervalWire.
Local Open Scope Z_scope.

Lemma vt_set_other v i j x : 0 <= i -> 0 <= j -> i <> j -> vt_get (vt_set j x v) i = vt_get v i.
Proof.
  intros Hi Hj Hn. unfold vt_get, vt_set. rewrite !nth_lookup.
  by rewrite list_lookup_insert_ne by lia.
Qed.

Lemma vt_set_same v i x : 0 <= i < Z.of_nat (length v) -> vt_get (vt_set i x v) i = u16 x.
Proof.
  intros Hi. unfold vt_get, vt_set. rewrite nth_lookup.
  by rewrite list_lookup_insert_eq by lia.
Qed.

Lemma vt_set_length v i x : length (vt_set i x v) = length v.
Proof. apply length_insert. Qed.

Lemma intervals_set s i j l :
  intervals_of (set_n_procs (<[j := l]> (n_procs s)) s) i = if decide (i = j) then l else intervals_of s i.
Proof.
  unfold intervals_of. cbn [n_procs set_n_procs]. case_decide as H.
  - subst. by rewrite lookup_insert_eq.
  - by rewrite lookup_insert_ne.
Qed.

(** ** Frame: the data that process [self] keeps for process [i] *)
Section Frame.
Context (self i : Z) (Hself : 0 <= self) (Hi : 0 <= i) (Hne : i <> self).

Definition kept (s s' : node) : Prop :=
  proc_id (n_conf s) = self ->
  n_conf s' = n_conf s /\ length (n_vt s') = length (n_vt s) /\
  vt_get (n_vt s') i = vt_get (n_vt s) i /\ intervals_of s' i = intervals_of s i.

#[export] Instance kept_preorder : PreOrder kept.
Proof.
  split; [by intros s|]. intros s1 s2 s3 H1 H2 H.
  destruct (H1 H) as (C1 & <- & <- & <-). rewrite <- C1 in H.
  destruct (H2 H) as (C2 & L2 & V2 & I2). split_and!; congruence.
Qed.

(** A change of fields that [kept] does not look at. *)
Lemma kept_modify f :
  (forall s, n_conf (f s) = n_conf s /\ n_vt (f s) = n_vt s /\ n_procs (f s) = n_procs s) ->
  keeps kept (modify f).
Proof.
  intros Hf. apply keeps_modify. intros s. destruct (Hf s) as (H1 & H2 & H3).
  intros _. unfold intervals_of. by rewrite H1, H2, H3.
Qed.

Lemma kept_on_pages {A} (m : M pstore A) : keeps kept (on_pages m).
Proof.
  intros s a s' H. unfold on_pages in H. destruct (m (n_pages s)) as [[b p]| | |]; try done.
  injection H as _ <-. done.
Qed.

Lemma kept_me_bind {A} (f : Z -> Proc A) : keeps kept (f self) -> keeps kept (me ≫= f).
Proof. intros Hf s a s' H E. change (f (proc_id (n_conf s)) s = Ok (a, s')) in H. rewrite E in H. by eapply Hf. Qed.

Lemma kept_enqueue pid iv : i <> pid -> keeps kept (enqueue_interval pid iv).
Proof.
  intros Hn. apply keeps_modify. intros s _. split_and!; [done..|].
  rewrite intervals_set. by rewrite decide_False.
Qed.

Lemma kept_last_range pid rg : i <> pid -> keeps kept (last_range pid rg).
Proof.
  intros Hn. apply keeps_modify. intros s _. split_and!; [done..|].
  unfold intervals_of. cbn [n_procs set_n_procs]. by rewrite lookup_alter_ne by done.
Qed.

Lemma kept_set_vt j x : 0 <= j -> i <> j ->
  keeps kept (modify (fun s => set_n_vt (vt_set j (x s) (n_vt s)) s)).
Proof.
  intros Hj Hn. apply keeps_modify. intros s _. cbn.
  rewrite vt_set_length. split_and!; [done..| |done]. by apply vt_set_other.
Qed.

Lemma kept_vt_write v x : keeps kept (vt_write v (fun w => vt_set self (x w) w)).
Proof.
  destruct v; cbn [vt_write].
  - done.
  - apply (kept_set_vt self (fun s => x (n_vt s))); [done|lia].
  - by apply kept_modify.
Qed.

Hint Resolve kept_on_pages kept_vt_write : keeps.
Hint Extern 1 (keeps kept (modify _)) => (apply kept_modify; intros; repeat split; reflexivity) : keeps.
Hint Extern 1 (keeps kept (me ≫= _)) => apply kept_me_bind : keeps.

Lemma kept_pg {A} (f : page -> A) p : keeps kept (pg f p).
Proof. apply kept_on_pages. Qed.
Lemma kept_set_pg p f : keeps kept (set_pg p f).
Proof. apply kept_on_pages. Qed.
Lemma kept_bump f g x : keeps kept (bump f g x).
Proof. apply kept_modify. done. Qed.
Lemma kept_vt_read v : keeps kept (vt_read v).
Proof. destruct v; [done|..]; apply keeps_gets; preorder. Qed.
Hint Resolve kept_pg kept_set_pg kept_bump kept_vt_read : keeps.

Lemma kept_heap_alloc z : keeps kept (heap_alloc z).
Proof. unfold heap_alloc. keeps. Qed.
Lemma kept_load p : keeps kept (load_page p).
Proof. unfold load_page. keeps. Qed.
Hint Resolve kept_heap_alloc kept_load : keeps.

Lemma kept_diff_create p w : keeps kept (Tmk_diff_create p w).
Proof. unfold Tmk_diff_create. keeps. Qed.
Lemma kept_twin_free p : keeps kept (Tmk_twin_free p).
Proof. unfold Tmk_twin_free. keeps. Qed.
Lemma kept_push_notice pid id vt p : keeps kept (push_notice pid id vt p).
Proof. unfold push_notice. keeps. Qed.
Hint Resolve kept_diff_create kept_twin_free kept_push_notice : keeps.

Lemma kept_create_run vt p : keeps kept (create_run vt p).
Proof.
  unfold create_run. apply kept_me_bind. keeps_bind; [keeps|].
  keeps_bind; [by apply kept_last_range|]. keeps.
Qed.
Hint Resolve kept_create_run : keeps.

(** Ending an interval changes only this process's own entries. *)
Lemma kept_interval_create v : keeps kept (Tmk_interval_create v).
Proof.
  unfold Tmk_interval_create. keeps_bind; [keeps|].
  destruct (_ =? PAGE_DIRTY); [keeps|].
  keeps_bind; [keeps|]. keeps_bind; [keeps|]. keeps_bind; [keeps|].
  apply kept_me_bind. keeps_bind; [keeps|]. keeps_bind; [keeps|].
  keeps_bind; [by apply kept_enqueue|]. keeps_bind; [keeps|]. keeps_bind; [keeps|].
  destruct (_ =? PAGE_DIRTY); [keeps|]. apply keeps_do_while; [preorder|intros; keeps|].
  intros q. unfold create_rest. keeps.
Qed.
Hint Resolve kept_interval_create : keeps.

Lemma kept_untwin fuel v p : keeps kept (untwin fuel v p).
Proof.
  induction fuel as [|fuel IH]; cbn [untwin]; [done|]. keeps_bind; [keeps|].
  case_match; [|keeps]. apply kept_me_bind. keeps_bind; [keeps|].
  keeps_bind; [|apply IH]. repeat case_match; keeps;
    by apply (kept_set_vt self (fun s => vt_get _ self)).
Qed.
Hint Resolve kept_untwin : keeps.

Lemma kept_note_page v pid vt p : keeps kept (note_page v pid vt p).
Proof. unfold note_page. keeps. Qed.
Hint Resolve kept_note_page : keeps.

Lemma kept_accept_ranges v pid vt head rgs : i <> pid -> keeps kept (accept_ranges v pid vt head rgs).
Proof.
  intros Hn. revert head. induction rgs as [|rg rgs IH]; intros head; cbn [accept_ranges]; [keeps|].
  keeps_bind; [|apply IH]. unfold accept_range. keeps_bind; [keeps|].
  keeps_bind; [by apply kept_last_range|]. keeps.
Qed.

Lemma kept_accept_interval v pid iv : 0 <= pid -> i <> pid -> keeps kept (accept_interval v pid iv).
Proof.
  intros Hp Hn. unfold accept_interval. keeps_bind; [keeps|]. apply keeps_when; preorder.
  keeps_bind; [by apply (kept_set_vt pid (fun _ => _))|]. keeps_bind; [keeps|].
  keeps_bind; [by apply kept_enqueue|]. keeps_bind; [by apply kept_accept_ranges|].
  apply kept_me_bind. keeps.
Qed.
End Frame.

(** ** The data kept for the process whose intervals are accepted *)

(** The interval as it is recorded by the receiver. *)
Definition received (i : Z) (iv : interval) : interval :=
  Interval i (iv_vt iv) (iv_ranges iv ≫= split_range).

(** What one accepted interval does to the pair of list and time. *)
Definition accept_step (i : Z) (d : list interval * Z) (iv : interval) : list interval * Z :=
  if d.2 <? vt_get (iv_vt iv) i then (d.1 ++ [received i iv], vt_get (iv_vt iv) i) else d.

Definition data_of (i : Z) (s : node) : list interval * Z := (intervals_of s i, vt_get (n_vt s) i).

Lemma alter_last {A} (f : A -> A) (l : list A) x : alter f (pred (length (l ++ [x]))) (l ++ [x]) = l ++ [f x].
Proof.
  rewrite length_app. simpl. replace (pred (length l + 1)) with (length l + 0)%nat by lia.
  by rewrite alter_app_r.
Qed.

Section Accept.
Context (self i : Z) (Hself : 0 <= self) (Hi : 0 <= i) (Hne : i <> self).

Lemma accept_range_effect v vt head rg s s' l rs :
  proc_id (n_conf s) = self -> intervals_of s i = l ++ [Interval i vt rs] ->
  accept_range v i vt head rg s = Ok (tt, s') ->
  n_conf s' = n_conf s /\ length (n_vt s') = length (n_vt s) /\
  vt_get (n_vt s') i = vt_get (n_vt s) i /\ intervals_of s' i = l ++ [Interval i vt (rs ++ [rg])].
Proof.
  intros Hc Hl H. unfold accept_range in H.
  apply bind_inv in H as ([] & s1 & H1 & H).
  assert (K1 : kept self i s s1).
  { revert H1. apply (keeps_when (kept self i)). keeps_bind; [by apply kept_heap_alloc|]. keeps. }
  destruct (K1 Hc) as (C1 & L1 & V1 & I1). rewrite Hl in I1.
  apply bind_inv in H as ([] & s2 & H2 & H). injection H2 as E2.
  assert (I2 : intervals_of s2 i = l ++ [Interval i vt (rs ++ [rg])]).
  { rewrite <- E2. unfold intervals_of in *. cbn [n_procs set_n_procs]. rewrite lookup_alter_eq.
    destruct (n_procs s1 !! i) as [x|]; cbn in *; [|by destruct l]. rewrite I1. by rewrite alter_last. }
  assert (K3 : kept self i s2 s').
  { revert H. apply (keeps_for_each (kept self i)). intros p. by apply kept_note_page. }
  assert (C2 : n_conf s2 = n_conf s1) by (by rewrite <- E2).
  destruct K3 as (C3 & L3 & V3 & I3); [congruence|].
  assert (n_vt s2 = n_vt s1) as EV by (by rewrite <- E2).
  rewrite C3, L3, V3, I3, EV. split_and!; congruence.
Qed.

Lemma accept_ranges_effect v vt rgs : forall head s s' l rs,
  proc_id (n_conf s) = self -> intervals_of s i = l ++ [Interval i vt rs] ->
  accept_ranges v i vt head rgs s = Ok (tt, s') ->
  n_conf s' = n_conf s /\ length (n_vt s') = length (n_vt s) /\
  vt_get (n_vt s') i = vt_get (n_vt s) i /\ intervals_of s' i = l ++ [Interval i vt (rs ++ rgs)].
Proof.
  induction rgs as [|rg rgs IH]; intros head s s' l rs Hc Hl H; cbn [accept_ranges] in H.
  - injection H as <-. by rewrite app_nil_r.
  - apply bind_inv in H as ([] & s1 & H1 & H).
    destruct (accept_range_effect v vt head rg s s1 l rs) as (C1 & L1 & V1 & I1); auto.
    destruct (IH false s1 s' l (rs ++ [rg])) as (C2 & L2 & V2 & I2); [congruence|done|done|].
    rewrite C2, L2, V2, I2, <- app_assoc. done.
Qed.

Lemma accept_interval_effect v iv s s' :
  proc_id (n_conf s) = self -> i < Z.of_nat (length (n_vt s)) -> interval_ok iv ->
  accept_interval v i iv s = Ok (tt, s') ->
  n_conf s' = n_conf s /\ length (n_vt s') = length (n_vt s) /\
  data_of i s' = accept_step i (data_of i s) iv.
Proof.
  intros Hc Hlen Hiv H. unfold accept_interval in H. cbn [mbind M_bind] in H.
  apply bind_inv in H as (mine & s0 & H0 & H). injection H0 as <- <-.
  unfold accept_step, data_of. cbn [fst snd].
  destruct (Z.ltb_spec (vt_get (n_vt s) i) (vt_get (iv_vt iv) i)) as [Hnew|Hold]; cbn [when] in H.
  2:{ by injection H as <-. }
  assert (Hu : u16 (vt_get (iv_vt iv) i) = vt_get (iv_vt iv) i).
  { apply u16_small. unfold vt_get. rewrite nth_lookup. destruct (_ !! _) as [x|] eqn:E; [|unfold is_u16; simpl; lia].
    simpl. eapply Forall_lookup_1; [apply Hiv|done]. }
  apply bind_inv in H as ([] & s1 & H1 & H). injection H1 as E1.
  apply bind_inv in H as (a & s2 & H2 & H). injection H2 as _ E2.
  apply bind_inv in H as ([] & s3 & H3 & H). injection H3 as E3.
  apply bind_inv in H as ([] & s4 & H4 & H).
  assert (I3 : intervals_of s3 i = intervals_of s i ++ [Interval i (iv_vt iv) []]).
  { rewrite <- E3, intervals_set, decide_True by done. by rewrite <- E2, <- E1. }
  assert (C3 : n_conf s3 = n_conf s) by (by rewrite <- E3, <- E2, <- E1).
  assert (V3 : n_vt s3 = vt_set i (vt_get (iv_vt iv) i) (n_vt s)) by (by rewrite <- E3, <- E2, <- E1).
  destruct (accept_ranges_effect v (iv_vt iv) (iv_ranges iv ≫= split_range) true s3 s4 _ _ ltac:(congruence) I3 H4)
    as (C4 & L4 & V4 & I4).
  assert (K5 : kept self i s4 s').
  { revert H. apply (kept_me_bind self i). keeps_bind; [keeps|]. apply keeps_when; preorder.
    apply kept_modify. done. }
  destruct K5 as (C5 & L5 & V5 & I5); [congruence|].
  rewrite C5, L5, V5, I5, C4, L4, V4, I4, C3, V3, vt_set_length, vt_set_same by lia.
  rewrite Hu. done.
Qed.

(** A whole message. *)
Lemma accept_all_effect v ivs : forall s s',
  proc_id (n_conf s) = self -> i < Z.of_nat (length (n_vt s)) ->
  Forall (fun '(j, iv) => 0 <= j < NPROCS /\ interval_ok iv) ivs ->
  for_each (fun '(j, iv) => accept_interval v j iv) ivs s = Ok (tt, s') ->
  n_conf s' = n_conf s /\
  data_of i s' = fold_left (accept_step i) (snd <$> filter (fun x => x.1 = i) ivs) (data_of i s).
Proof.
  induction ivs as [|[j iv] ivs IH]; intros s s' Hc Hlen Hok H; cbn [for_each] in H.
  - by injection H as <-.
  - apply bind_inv in H as ([] & s1 & H1 & H). apply Forall_cons in Hok as [[Hj Hiv] Hok].
    destruct (decide (j = i)) as [->|Hji].
    + destruct (accept_interval_effect v iv s s1) as (C1 & L1 & D1); auto.
      destruct (IH s1 s') as (C2 & D2); [congruence|lia|done|done|].
      rewrite filter_cons_True by done. cbn [fmap list_fmap fold_left snd]. rewrite <- D1.
      split; [congruence|done].
    + assert (K1 : kept self i s s1) by (revert H1; apply (kept_accept_interval self i); lia).
      destruct (K1 Hc) as (C1 & L1 & V1 & I1).
      destruct (IH s1 s') as (C2 & D2); [congruence|lia|done|done|].
      rewrite filter_cons_False by done. split; [congruence|].
      rewrite D2. unfold data_of. by rewrite V1, I1.
Qed.
End Accept.

(** In an ordered list the intervals that are new are those above the time. *)
Definition is_new (i t : Z) (iv : interval) : Prop := t < vt_get (iv_vt iv) i.
#[export] Instance is_new_dec i t iv : Decision (is_new i t iv).
Proof. unfold is_new. apply _. Defined.

Lemma ordered_tail i x ivs : ordered i (x :: ivs) -> ordered i ivs /\
  Forall (fun iv => vt_get (iv_vt x) i < vt_get (iv_vt iv) i) ivs.
Proof.
  intros Ho. split.
  - intros j k a b Hjk Ha Hb. apply (Ho (S j) (S k)); [lia|done|done].
  - apply Forall_lookup. intros k b Hb. apply (Ho O (S k) x b); [lia|done|done].
Qed.

Lemma filter_all {A} (P : A -> Prop) `{!forall x, Decision (P x)} l : Forall P l -> filter P l = l.
Proof. induction 1 as [|x l Hx Hl IH]; [done|]. by rewrite filter_cons_True, IH. Qed.

Lemma fold_accept i ivs : forall l t, ordered i ivs ->
  fold_left (accept_step i) ivs (l, t) =
    (l ++ (received i <$> filter (is_new i t) ivs),
     default t ((fun iv => vt_get (iv_vt iv) i) <$> last (filter (is_new i t) ivs))).
Proof.
  induction ivs as [|x ivs IH]; intros l t Ho; [by rewrite app_nil_r|].
  destruct (ordered_tail i x ivs Ho) as [Ho' Hall]. cbn [fold_left]. unfold accept_step at 2. cbn [fst snd].
  destruct (Z.ltb_spec t (vt_get (iv_vt x) i)) as [Hx|Hx].
  - rewrite IH by done. rewrite (filter_cons_True (is_new i t)) by done.
    rewrite !filter_all.
    + cbn [fmap list_fmap]. rewrite <- app_assoc. f_equal. rewrite last_cons. by destruct (last ivs).
    + eapply Forall_impl; [exact Hall|]. intros y Hy. cbn in Hy. unfold is_new. lia.
    + exact Hall.
  - rewrite IH by done. rewrite filter_cons_False by (unfold is_new; lia). done.
Qed.

Lemma ordered_filter i (P : interval -> Prop) `{!forall x, Decision (P x)} ivs :
  ordered i ivs -> ordered i (filter P ivs).
Proof.
  induction ivs as [|x ivs IH]; intros Ho; [done|]. destruct (ordered_tail i x ivs Ho) as [Ho' Hall].
  destruct (decide (P x)); [rewrite filter_cons_True by done|rewrite filter_cons_False by done; auto].
  intros [|j] [|k] a b Hjk Ha Hb; try lia; cbn in Ha, Hb.
  - injection Ha as <-. apply list_elem_of_lookup_2, list_elem_of_filter in Hb as [_ Hb].
    by eapply Forall_forall in Hall.
  - eapply (IH Ho' j k); [lia|done|done].
Qed.

Lemma filter_pid_other i j (l : list interval) : i <> j ->
  filter (fun x : Z * interval => x.1 = i) ((fun iv => (j, iv)) <$> l) = [].
Proof. intros H. induction l as [|x l IH]; [done|]. rewrite fmap_cons. rewrite filter_cons_False by (simpl; congruence). done. Qed.

Lemma filter_pid_same i (l : list interval) :
  snd <$> filter (fun x : Z * interval => x.1 = i) ((fun iv => (i, iv)) <$> l) = l.
Proof. induction l as [|x l IH]; [done|]. rewrite fmap_cons, filter_cons_True by done. rewrite fmap_cons, IH. done. Qed.

Lemma lacking_of s vt i : i ∈ procs_of (n_conf s) ->
  snd <$> filter (fun x => x.1 = i) (lacking s vt) = filter (is_new i (vt_get vt i)) (intervals_of s i).
Proof.
  unfold lacking, procs_of. generalize (nprocs (n_conf s)). intros n Hin.
  pose proof (NoDup_seqZ 0 n) as Hnd. revert Hnd Hin. generalize (seqZ 0 n). clear n.
  induction l as [|j l IH]; intros Hnd Hin; [by apply not_elem_of_nil in Hin|].
  apply NoDup_cons in Hnd as [Hj Hnd]. cbn [mbind list_bind].
  rewrite filter_app, fmap_app. apply elem_of_cons in Hin as [<-|Hin].
  - rewrite filter_pid_same.
    replace (filter _ (l ≫= _)) with (@nil (Z * interval)); [by rewrite app_nil_r|].
    clear IH. induction l as [|k l IHl]; [done|]. cbn [mbind list_bind]. rewrite filter_app.
    rewrite filter_pid_other by set_solver. apply NoDup_cons in Hnd as [_ Hnd]. apply IHl; [set_solver|done].
  - rewrite filter_pid_other by set_solver. cbn [fmap list_fmap app]. by apply IH.
Qed.

(** The message of any intervals, and the data kept for another process. *)
Lemma incorporate_encoded ivs v s s' i :
  Forall (fun '(j, iv) => 0 <= j < NPROCS /\ interval_ok iv) ivs -> 0 <= i < NPROCS ->
  0 <= proc_id (n_conf s) -> i <> proc_id (n_conf s) -> Z.of_nat (length (n_vt s)) = NPROCS ->
  Tmk_interval_incorporate (encode ivs) v s = Ok (tt, s') ->
  data_of i s' = fold_left (accept_step i) (snd <$> filter (fun x => x.1 = i) ivs) (data_of i s).
Proof.
  intros Hok Hi Hself Hne Hlen H. unfold Tmk_interval_incorporate in H. apply bind_inv in H as ([] & s1 & H1 & H2).
  rewrite (run_eq _ _ (incorporate_encode v _ _ Hok (le_n _))) in H1.
  destruct (accept_all_effect (proc_id (n_conf s)) i Hself ltac:(lia) Hne v _ s s1 eq_refl ltac:(lia) Hok H1) as [C1 <-].
  assert (K : kept (proc_id (n_conf s)) i s1 s').
  { revert H2. destruct v; [apply keeps_skip|apply kept_on_pages..]; preorder. }
  destruct K as (_ & _ & V & I); [congruence|]. unfold data_of. by rewrite V, I.
Qed.

(** the effect of incorporating a message on the data kept for another
    process [i].  When [Tmk_interval_incorporate] returns, the interval list
    kept for [i] has grown by exactly those intervals of the sender that are
    newer both than the time the message was made for and than what the
    receiver had, in order and unchanged except that two-page ranges are split;
    and the receiver's vector time for [i] is that of the last of them, or is
    unchanged. *)
Theorem incorporate_effect s1 vt v s2 s2' i :
  sender_ok s1 -> i ∈ procs_of (n_conf s1) ->
  0 <= proc_id (n_conf s2) -> i <> proc_id (n_conf s2) -> Z.of_nat (length (n_vt s2)) = NPROCS ->
  Tmk_interval_incorporate (Tmk_interval_request s1 vt) v s2 = Ok (tt, s2') ->
  let new := filter (is_new i (Z.max (vt_get vt i) (vt_get (n_vt s2) i))) (intervals_of s1 i) in
  intervals_of s2' i = intervals_of s2 i ++ (received i <$> new) /\
  vt_get (n_vt s2') i =
    default (vt_get (n_vt s2) i) ((fun iv => vt_get (iv_vt iv) i) <$> last new).
Proof.
  intros Hs Hin Hself Hne Hlen H new.
  assert (Hi : 0 <= i < NPROCS).
  { apply elem_of_seqZ in Hin. pose proof (snd_nprocs _ Hs). lia. }
  rewrite request_encode in H by done.
  pose proof (incorporate_encoded _ v s2 s2' i (lacking_ok s1 vt Hs) Hi Hself Hne Hlen H) as D.
  rewrite lacking_of in D by done. unfold data_of in D.
  rewrite fold_accept in D by (apply ordered_filter, Hs). rewrite list_filter_filter in D. injection D as -> ->.
  assert (E : filter (fun x => is_new i (vt_get (n_vt s2) i) x /\ is_new i (vt_get vt i) x) (intervals_of s1 i) = new).
  { unfold new. apply list_filter_iff. intros x. unfold is_new. lia. }
  by rewrite E.
Qed.

(** A receiver whose pages are valid and clean. *)
Definition receiver_ex : node := set_n_pages PageSets.empty_lists (zero_node (Conf 0 4 4096 64 0)).

Lemma incorporate_effect_witness :
  exists s2',
    Tmk_interval_incorporate (Tmk_interval_request sender_ex vt_zero) VtProc receiver_ex = Ok (tt, s2') /\
    let new := filter (is_new 1 (Z.max (vt_get vt_zero 1) (vt_get (n_vt receiver_ex) 1)))
                 (intervals_of sender_ex 1) in
    intervals_of s2' 1 = intervals_of receiver_ex 1 ++ (received 1 <$> new) /\
    vt_get (n_vt s2') 1 =
      default (vt_get (n_vt receiver_ex) 1) ((fun iv => vt_get (iv_vt iv) 1) <$> last new).
Proof.
  destruct (returns_ok (Tmk_interval_incorporate (Tmk_interval_request sender_ex vt_zero) VtProc receiver_ex))
    as [[[] s2'] E]; [vm_compute; reflexivity|].
  exists s2'. split; [exact E|].
  refine (incorporate_effect sender_ex vt_zero VtProc receiver_ex s2' 1 sender_ex_ok _ _ _ _ E); clear E.
  - apply elem_of_seqZ. cbn. lia.
  - cbn. lia.
  - cbn. lia.
  - reflexivity.
Defined.
