(* ===== verification/IntervalCreate.v ===== *)
(** * Ending an interval

    [Tmk_interval_create] empties the dirty list into one interval: every
    dirty page is covered by one of its ranges and gets one write notice. *)
From S2P Require Import Prelude Pages PageLists PageWalk PageSets State Twins Diffs Interval IntervalWire IntervalEffect.
Local Open Scope Z_scope.

(** ** The state after one run *)
Definition push_wn (self : Z) (vt : vtime) (p : page) : page :=
  set_wn (<[self := WriteNotice None 0 self vt :: wn_list p self]> (p_wn p)) p.

Definition pages_run (self : Z) (vt : vtime) (a b : Z) (m : pstore) : pstore :=
  fold_left (fun m i => upd i (push_wn self vt) m) (reverse (seqZ a (b - a + 1)))
    (upd a (set_dirty false) (upd (b + 1) (set_dirty false) m)).

Definition alloc_times (n : nat) (z : Z) (h : heap) : heap :=
  Nat.iter n (heap_advance INTERVAL_HEAP z) h.

Definition add_range (rg : Z * Z) (l : list interval) : list interval :=
  alter (fun iv => Interval (iv_id iv) (iv_vt iv) (iv_ranges iv ++ [rg])) (pred (length l)) l.

Definition run_state (self : Z) (vt : vtime) (a : Z) (s : node) : node :=
  let b := p_partner (n_pages s !!! a) in
  set_n_pages (pages_run self vt a b (n_pages s))
    (set_n_heap (alloc_times (length (seqZ a (b - a + 1))) sizeof_write_notice (n_heap s))
      (set_n_procs (alter (add_range (u16 a, u16 b)) self (n_procs s)) s)).

Definition rest_state (self : Z) (vt : vtime) (a : Z) (s : node) : node :=
  run_state self vt a (set_n_heap (heap_advance INTERVAL_HEAP sizeof_range (n_heap s)) s).

Lemma pg_ok {A} (f : page -> A) p s : valid_ptr p = true -> pg f p s = Ok (f (n_pages s !!! p), s).
Proof. intros H. unfold pg, on_pages. rewrite rd_ok by done. by destruct s. Qed.

Lemma set_pg_ok p f s : valid_ptr p = true -> set_pg p f s = Ok (tt, set_n_pages (upd p f (n_pages s)) s).
Proof. intros H. unfold set_pg, on_pages. by rewrite wr_ok. Qed.

Lemma iter_shift {A} (f : A -> A) n x : Nat.iter n f (f x) = f (Nat.iter n f x).
Proof. induction n as [|n IH]; [done|]. simpl. by rewrite IH. Qed.

Lemma push_all self vt l : forall s, (forall i, i ∈ l -> valid_ptr i = true) ->
  for_each (push_notice self self vt) l s =
    Ok (tt, set_n_pages (fold_left (fun m i => upd i (push_wn self vt) m) l (n_pages s))
              (set_n_heap (alloc_times (length l) sizeof_write_notice (n_heap s)) s)).
Proof.
  induction l as [|i l IH]; intros s Hv; [by destruct s|]. cbn [for_each fold_left length].
  assert (E : push_notice self self vt i s = Ok (tt, set_n_pages (upd i (push_wn self vt) (n_pages s))
    (set_n_heap (heap_advance INTERVAL_HEAP sizeof_write_notice (n_heap s)) s))).
  { unfold push_notice. erewrite bind_Ok by reflexivity. rewrite set_pg_ok by (apply Hv; set_solver). done. }
  rewrite (bind_Ok _ _ _ _ _ E), IH by (intros; apply Hv; set_solver).
  destruct s. cbn. unfold alloc_times. cbn [Nat.iter]. by rewrite iter_shift.
Qed.

Lemma create_run_run vt a s : let b := p_partner (n_pages s !!! a) in
  0 <= a -> a <= b < NPAGES -> create_run vt a s = Ok (tt, run_state (proc_id (n_conf s)) vt a s).
Proof.
  intros b Ha Hb. unfold create_run. set (self := proc_id (n_conf s)).
  change (me ≫= ?f) with (me ≫= f). erewrite bind_Ok by reflexivity. fold self.
  rewrite (bind_Ok _ _ _ _ _ (pg_ok p_partner a s (page_valid a ltac:(lia)))). fold b.
  unfold last_range. erewrite bind_Ok by reflexivity.
  rewrite (bind_Ok _ _ _ _ _ (set_pg_ok (b + 1) _ _ (page_valid (b + 1) ltac:(lia)))).
  rewrite (bind_Ok _ _ _ _ _ (set_pg_ok a _ _ (page_valid a ltac:(lia)))).
  rewrite push_all.
  2:{ intros i Hi. rewrite elem_of_reverse in Hi. apply elem_of_seqZ in Hi. apply page_valid. lia. }
  unfold run_state, pages_run. fold b. rewrite length_reverse. by destruct s.
Qed.

(** ** Lookups in the pages after one run *)
Lemma fold_push_lookup self vt l : forall m j, NoDup l ->
  fold_left (fun m i => upd i (push_wn self vt) m) l m !!! j =
    if decide (j ∈ l) then push_wn self vt (m !!! j) else m !!! j.
Proof.
  induction l as [|i l IH]; intros m j Hnd; [done|]. apply NoDup_cons in Hnd as [Hi Hnd].
  cbn [fold_left]. rewrite IH by done. rewrite upd_lookup.
  repeat case_decide; subst; try done; set_solver.
Qed.

Lemma pages_run_lookup self vt a b m j : a <= b ->
  pages_run self vt a b m !!! j =
    (let q := if decide (j = a \/ j = b + 1) then set_dirty false (m !!! j) else m !!! j in
     if decide (a <= j <= b) then push_wn self vt q else q).
Proof.
  intros Hab. unfold pages_run. rewrite fold_push_lookup by (rewrite reverse_Permutation; apply NoDup_seqZ).
  rewrite !upd_lookup. cbv zeta.
  assert (E : j ∈ reverse (seqZ a (b - a + 1)) <-> a <= j <= b).
  { rewrite elem_of_reverse, elem_of_seqZ. lia. }
  repeat case_decide; subst; try done; try lia; tauto.
Qed.

(** ** All runs *)

(** The fields an ending interval leaves alone. *)
Definition other_fields (s : node) : node := set_n_pages ∅ (set_n_heap heap_start (set_n_procs ∅ s)).

(** The interval being made, with the ranges so far. *)
Definition has_interval (self : Z) (vt : vtime) (base : gmap Z (list interval)) (rgs : list (Z * Z))
    (procs : gmap Z (list interval)) : Prop :=
  default [] (procs !! self) = default [] (base !! self) ++ [Interval self vt rgs] /\
  is_Some (procs !! self) /\
  forall i, i <> self -> procs !! i = base !! i.

Definition in_run (m : pstore) (a j : Z) : Prop := a <= j <= p_partner (m !!! a).

(** [s] is [s0] after the runs of [D] (last first) have become ranges. *)
Record created (self : Z) (vt : vtime) (m0 : pstore) (base : gmap Z (list interval)) (o : node)
    (D : list Z) (s : node) : Prop := {
  cr_other : other_fields s = o;
  cr_procs : has_interval self vt base (map (fun a => (u16 a, u16 (p_partner (m0 !!! a)))) (reverse D)) (n_procs s);
  cr_links : forall j, j <> PAGE_DIRTY -> same_links (n_pages s !!! j) (m0 !!! j);
  cr_head : p_prev (n_pages s !!! PAGE_DIRTY) = PAGE_DIRTY /\ p_next (n_pages s !!! PAGE_DIRTY) = PAGE_DIRTY;
  cr_page : forall j, let p := n_pages s !!! j in let p0 := m0 !!! j in
    p_mem p = p_mem p0 /\ p_twin p = p_twin p0 /\ p_state p = p_state p0 /\
    p_manager p = p_manager p0 /\ p_prot p = p_prot p0 /\ p_inval p = p_inval p0;
  cr_dirty : forall j, p_dirty (n_pages s !!! j) = true -> p_dirty (m0 !!! j) = true /\
    forall a, a ∈ D -> j <> a /\ j <> p_partner (m0 !!! a) + 1;
  cr_wn : forall j a, a ∈ D -> in_run m0 a j -> p_wn (n_pages s !!! j) = p_wn (push_wn self vt (m0 !!! j));
  cr_wn_other : forall j, (forall a, a ∈ D -> ~ in_run m0 a j) -> p_wn (n_pages s !!! j) = p_wn (m0 !!! j)
}.

Lemma add_range_snoc rg l iv :
  add_range rg (l ++ [iv]) = l ++ [Interval (iv_id iv) (iv_vt iv) (iv_ranges iv ++ [rg])].
Proof. unfold add_range. by rewrite alter_last. Qed.

Lemma has_interval_add self vt base rgs procs rg :
  has_interval self vt base rgs procs ->
  has_interval self vt base (rgs ++ [rg]) (alter (add_range rg) self procs).
Proof.
  intros (H1 & [l Hl] & H3). rewrite Hl in H1. cbn in H1. split_and!.
  - rewrite lookup_alter_eq, Hl. cbn. rewrite H1, add_range_snoc. done.
  - rewrite lookup_alter_eq, Hl. eauto.
  - intros i Hi. rewrite lookup_alter_ne by done. auto.
Qed.

Lemma created_run self vt m0 base o D s a :
  created self vt m0 base o D s -> a <> PAGE_DIRTY -> 0 <= a <= p_partner (m0 !!! a) ->
  (forall a' j, a' ∈ D -> in_run m0 a' j -> ~ in_run m0 a j) ->
  created self vt m0 base o (a :: D) (run_state self vt a s).
Proof.
  intros [Ho Hp Hl Hh Hpg Hd Hw Hwo] Ha Hb Hdisj.
  assert (E : p_partner (n_pages s !!! a) = p_partner (m0 !!! a)) by (by apply Hl).
  assert (Hlk : forall j, n_pages (run_state self vt a s) !!! j =
    (let q := if decide (j = a \/ j = p_partner (m0 !!! a) + 1)
              then set_dirty false (n_pages s !!! j) else n_pages s !!! j in
     if decide (a <= j <= p_partner (m0 !!! a)) then push_wn self vt q else q)).
  { intros j. unfold run_state. cbn [n_pages set_n_pages]. rewrite E. apply pages_run_lookup. lia. }
  cbv zeta in Hlk. split.
  - unfold run_state. rewrite <- Ho. by destruct s.
  - unfold run_state. cbn [n_procs set_n_pages set_n_heap set_n_procs]. rewrite E.
    rewrite reverse_cons, map_app. apply has_interval_add, Hp.
  - intros j Hj. rewrite Hlk. specialize (Hl j Hj). unfold same_links in *. repeat case_decide; done.
  - rewrite Hlk. unfold PAGE_DIRTY in *. repeat case_decide; try lia; done.
  - intros j. specialize (Hpg j). rewrite Hlk. repeat case_decide; done.
  - intros j. rewrite Hlk. intros Hj.
    assert (p_dirty (n_pages s !!! j) = true /\ ~ (j = a \/ j = p_partner (m0 !!! a) + 1)) as [Hj1 Hj2]
      by (repeat case_decide; done).
    destruct (Hd j Hj1) as [Hj3 Hj4]. split; [done|]. intros c [->|Hc]%elem_of_cons; [tauto|by apply Hj4].
  - intros j c [->|Hc]%elem_of_cons Hj; rewrite Hlk.
    + rewrite (decide_True (P := a <= j <= _)) by done.
      assert (Eq : p_wn (n_pages s !!! j) = p_wn (m0 !!! j)).
      { apply Hwo. intros a' Ha' Hj'. by apply (Hdisj a' j). }
      unfold push_wn, wn_list. repeat case_decide; cbn [p_wn set_wn set_dirty]; by rewrite Eq.
    + pose proof (Hdisj c j Hc Hj) as Hn. unfold in_run in Hn.
      rewrite (decide_False (P := a <= j <= _)) by done.
      rewrite <- (Hw j c Hc Hj). by repeat case_decide.
  - intros j Hj. rewrite Hlk. pose proof (Hj a ltac:(set_solver)) as Hn. unfold in_run in Hn.
    rewrite (decide_False (P := a <= j <= _)) by done.
    rewrite <- (Hwo j) by (intros; apply Hj; set_solver). by repeat case_decide.
Qed.

Lemma created_heap self vt m0 base o D s h :
  created self vt m0 base o D s -> created self vt m0 base o D (set_n_heap h s).
Proof. intros []. by split. Qed.

(** ** The whole operation *)
Lemma list_snoc_case {A} (l : list A) : l = [] \/ exists l' x, l = l' ++ [x].
Proof. destruct l as [|x l _] using rev_ind; [by left|right; eauto]. Qed.

(** [vector_time_[Tmk_proc_id] += 1] *)
Definition tick (self : Z) (v : vtime) : vtime := vt_set self (vt_get v self + 1) v.

(** The array behind the argument, and the state after [f] on it. *)
Definition vt_at (v : vt_ptr) (s : node) : vtime :=
  match v with VtLocal => n_local_vt s | _ => n_vt s end.
Definition vt_upd (v : vt_ptr) (f : vtime -> vtime) (s : node) : node :=
  match v with VtLocal => set_n_local_vt (f (n_local_vt s)) s | _ => set_n_vt (f (n_vt s)) s end.

Lemma vt_write_run v f s : v <> VtNull -> vt_write v f s = Ok (tt, vt_upd v f s).
Proof. by destruct v. Qed.

Lemma vt_read_run v s : v <> VtNull -> vt_read v s = Ok (vt_at v s, s).
Proof. by destruct v. Qed.

(** The state when the first run is about to be visited. *)
Definition opened (v : vt_ptr) (s : node) : node :=
  let self := proc_id (n_conf s) in
  let vt := tick self (vt_at v s) in
  let m := upd PAGE_DIRTY (set_next PAGE_DIRTY) (upd PAGE_DIRTY (set_prev PAGE_DIRTY) (n_pages s)) in
  vt_upd v (tick self)
    (set_n_procs (<[self := intervals_of s self ++ [Interval self vt []]]> (n_procs s))
      (set_n_heap (heap_advance INTERVAL_HEAP sizeof_interval (n_heap s)) (set_n_pages m s))).

Section Create.
Context (n : Z) (v : vt_ptr) (s : node) (S : sets) (L : list Z).
Context (Hv : v <> VtNull) (Hl : lists n (n_pages s) S) (Hrep : rep Dirty n (n_pages s) S.2 L).

Let self := proc_id (n_conf s).
Let vt := tick self (vt_at v s).
Let m0 := n_pages s.
Let o := other_fields (vt_upd v (tick self) s).

Local Lemma opened_created : created self vt m0 (n_procs s) o [] (opened v s).
Proof.
  unfold opened. fold self vt m0. split.
  - unfold o. by destruct s, v.
  - assert (E : n_procs (opened v s) = <[self := intervals_of s self ++ [Interval self vt []]]> (n_procs s))
      by (by destruct v).
    unfold opened in E. fold self vt m0 in E. rewrite E. unfold has_interval. split_and!.
    + by rewrite lookup_insert_eq.
    + rewrite lookup_insert_eq. eauto.
    + intros i Hi. by rewrite lookup_insert_ne.
  - intros j Hj. destruct v; cbn [n_pages vt_upd set_n_procs set_n_heap set_n_pages set_n_vt set_n_local_vt];
      upd_cases; apply same_links_refl.
  - destruct v; cbn [n_pages vt_upd set_n_procs set_n_heap set_n_pages set_n_vt set_n_local_vt]; upd_cases.
  - intros j. destruct v; cbn [n_pages vt_upd set_n_procs set_n_heap set_n_pages set_n_vt set_n_local_vt]; upd_cases.
  - intros j. destruct v; cbn [n_pages vt_upd set_n_procs set_n_heap set_n_pages set_n_vt set_n_local_vt];
      rewrite !upd_lookup; repeat case_decide; subst; cbn; (split; [done|set_solver]).
  - set_solver.
  - intros j _. destruct v; cbn [n_pages vt_upd set_n_procs set_n_heap set_n_pages set_n_vt set_n_local_vt]; upd_cases.
Qed.

Local Lemma dirty_bounds a : a ∈ L -> 0 <= a /\ a <= p_partner (m0 !!! a) < n /\ a <> NPAGES /\ a <> PAGE_DIRTY.
Proof. apply (run_in_bounds Dirty n m0 S.2 L Hrep). apply Hl. Qed.

Local Lemma runs_apart D a : a ∉ D -> (forall x, x ∈ a :: D -> x ∈ L) ->
  forall a' j, a' ∈ D -> in_run m0 a' j -> ~ in_run m0 a j.
Proof.
  intros Ha HD a' j Ha' H1 H2. apply Ha.
  by rewrite (runs_disjoint Dirty n m0 S.2 L Hrep a a' j (HD a ltac:(set_solver))
    (HD a' ltac:(set_solver)) H2 H1).
Qed.

(** Visiting the runs before the last one. *)
Local Lemma rest_created D L1 s1 :
  created self vt m0 (n_procs s) o D s1 -> NoDup (L1 ++ D) -> (forall a, a ∈ L1 ++ D -> a ∈ L) ->
  created self vt m0 (n_procs s) o (L1 ++ D) (fold_right (rest_state self vt) s1 L1).
Proof.
  intros H1 Hnd HL. induction L1 as [|a L1 IH]; [done|]. cbn [fold_right app].
  cbn [app] in Hnd. apply NoDup_cons in Hnd as [Ha Hnd].
  destruct (dirty_bounds a (HL a ltac:(set_solver))) as (B1 & B2 & B3 & B4).
  apply created_run; [apply created_heap, IH; [done|set_solver]|done|lia|].
  apply runs_apart; [done|]. intros x Hx. apply HL. set_solver.
Qed.

Local Lemma self_created D s1 : created self vt m0 (n_procs s) o D s1 -> proc_id (n_conf s1) = self.
Proof.
  intros H. assert (E : n_conf (other_fields s1) = n_conf o) by (by rewrite (cr_other _ _ _ _ _ _ _ H)).
  cbn in E. rewrite E. unfold o. by destruct v.
Qed.

(** The state in which the runs before the last are visited is reached
    from [opened]. *)
Local Lemma create_opened a L1 : L = L1 ++ [a] ->
  Tmk_interval_create v s =
    (create_run vt a;;
     prev ← pg p_prev a;
     if prev =? PAGE_DIRTY then skip
     else do_while_prev (pg p_prev) list_fuel PAGE_DIRTY (create_rest vt) prev) (opened v s).
Proof.
  intros EL. pose proof (seg_last _ _ _ _ (rep_seg _ _ _ _ _ Hrep)) as Hlast. cbn [head_of] in Hlast.
  destruct (dirty_bounds a ltac:(rewrite EL; set_solver)) as (_ & _ & _ & B4).
  unfold Tmk_interval_create. rewrite (bind_Ok _ _ _ _ _ (pg_ok p_prev _ _ (head_valid Dirty))).
  cbn [head_of]. rewrite Hlast, EL, List.last_last. rewrite (proj2 (Z.eqb_neq a PAGE_DIRTY)) by done.
  unfold vt, opened. destruct v; [done|reflexivity|reflexivity].
Qed.

Local Lemma create_rest_run a s1 : (forall j, j <> PAGE_DIRTY -> same_links (n_pages s1 !!! j) (m0 !!! j)) ->
  proc_id (n_conf s1) = self -> a ∈ L -> create_rest vt a s1 = Ok (tt, rest_state self vt a s1).
Proof.
  intros Hlk Hs Ha. destruct (dirty_bounds a Ha) as (B1 & B2 & B3 & B4).
  assert (Hp : p_partner (n_pages s1 !!! a) = p_partner (m0 !!! a)) by (by apply Hlk).
  unfold create_rest. erewrite bind_Ok by reflexivity. unfold rest_state. rewrite <- Hs.
  apply (create_run_run vt a (set_n_heap (heap_advance INTERVAL_HEAP sizeof_range (n_heap s1)) s1)); cbn [n_pages set_n_heap]; rewrite ?Hp; pose proof (ls_bound _ _ _ Hl); lia.
Qed.

Local Lemma walk_rest a L1 s1 : L = L1 ++ [a] -> L1 <> [] ->
  created self vt m0 (n_procs s) o [a] s1 ->
  do_while_prev (pg p_prev) list_fuel PAGE_DIRTY (create_rest vt) (List.last L1 PAGE_DIRTY) s1 =
    Ok (tt, fold_right (rest_state self vt) s1 L1).
Proof.
  intros EL Hne H1. pose proof (rep_seg _ _ _ _ _ Hrep) as Hseg. cbn [head_of] in Hseg.
  pose proof (rep_nodup _ _ _ _ _ Hrep) as Hnd. rewrite EL in Hnd.
  assert (Hin : forall x, x ∈ L1 -> x ∈ L) by (intros x Hx; rewrite EL; set_solver).
  refine (proj1 (do_while_prev_fold (pg p_prev) PAGE_DIRTY
    (fun s2 => (forall j, j <> PAGE_DIRTY -> same_links (n_pages s2 !!! j) (m0 !!! j)) /\
       proc_id (n_conf s2) = self)
    (create_rest vt) (rest_state self vt) (fun x => p_prev (m0 !!! x)) L1 list_fuel s1 Hne _ _ _ _ _ _)).
  - intros Hi. by destruct (dirty_bounds _ (Hin _ Hi)) as (_ & _ & _ & ?).
  - intros L2 x L3 E. eapply (seg_back m0 PAGE_DIRTY L _ x (L3 ++ [a])); [exact Hseg|].
    by rewrite EL, E, <- app_assoc.
  - intros x s2 Hx [Hlk _]. destruct (dirty_bounds x (Hin x Hx)) as (B1 & B2 & B3 & B4).
    rewrite pg_ok by (apply page_valid; pose proof (ls_bound _ _ _ Hl); lia).
    do 2 f_equal. by apply Hlk.
  - intros x s2 Hx [Hlk Hs2]. split; [apply create_rest_run; auto|].
    destruct (dirty_bounds x (Hin x Hx)) as (B1 & B2 & B3 & B4).
    assert (Hp : p_partner (n_pages s2 !!! x) = p_partner (m0 !!! x)) by (by apply Hlk).
    split; [|done]. intros j Hj. unfold rest_state, run_state. cbn [n_pages set_n_pages set_n_heap].
    rewrite Hp, pages_run_lookup by lia. specialize (Hlk j Hj). unfold same_links in *.
    cbv zeta. repeat case_decide; done.
  - split; [apply H1|by eapply self_created].
  - assert (Hlen : (length L <= list_fuel)%nat) by (apply (list_short Dirty n m0 S.2 L Hrep), Hl).
    rewrite EL, length_app in Hlen. simpl in Hlen. lia.
Qed.

Lemma create_run_all : exists s',
  Tmk_interval_create v s = Ok (tt, s') /\
  ((L = [] /\ s' = s) \/ (L <> [] /\ created self vt m0 (n_procs s) o L s')).
Proof.
  pose proof (rep_seg _ _ _ _ _ Hrep) as Hseg. cbn [head_of] in Hseg.
  destruct (list_snoc_case L) as [EL|(L1 & a & EL)].
  - exists s. split; [|by left]. pose proof (seg_last _ _ _ _ Hseg) as Hlast. rewrite EL in Hlast.
    unfold Tmk_interval_create. rewrite (bind_Ok _ _ _ _ _ (pg_ok p_prev _ _ (head_valid Dirty))).
    cbn [head_of]. rewrite Hlast. done.
  - destruct (dirty_bounds a ltac:(rewrite EL; set_solver)) as (B1 & B2 & B3 & B4).
    pose proof opened_created as H0.
    assert (Hp : p_partner (n_pages (opened v s) !!! a) = p_partner (m0 !!! a)) by (by apply H0).
    pose proof (rep_nodup _ _ _ _ _ Hrep) as Hnd. rewrite EL in Hnd.
    assert (H1 : created self vt m0 (n_procs s) o [a] (run_state self vt a (opened v s))).
    { apply created_run; [done|done|lia|set_solver]. }
    exists (fold_right (rest_state self vt) (run_state self vt a (opened v s)) L1).
    split.
    + rewrite (create_opened a L1 EL).
      assert (Hr : create_run vt a (opened v s) = Ok (tt, run_state self vt a (opened v s))).
      { rewrite <- (self_created [] (opened v s) H0). apply create_run_run; rewrite ?Hp;
          pose proof (ls_bound _ _ _ Hl); lia. }
      rewrite (bind_Ok _ _ _ _ _ Hr).
      rewrite (bind_Ok _ _ _ _ _ (pg_ok p_prev a _ (page_valid a ltac:(pose proof (ls_bound _ _ _ Hl); lia)))).
      destruct (cr_links _ _ _ _ _ _ _ H1 a B4) as (-> & _ & _).
      rewrite (seg_back m0 PAGE_DIRTY L L1 a [] Hseg EL).
      destruct (list_snoc_case L1) as [->|(L2 & b & EL1)].
      * done.
      * rewrite (proj2 (Z.eqb_neq _ _)).
        -- apply (walk_rest a L1 _ EL); [|done]. rewrite EL1. by destruct L2.
        -- rewrite EL1, List.last_last. destruct (dirty_bounds b) as (_ & _ & _ & ?); [|done].
           rewrite EL, EL1. set_solver.
    + right. split; [rewrite EL; by destruct L1|]. rewrite EL.
      apply rest_created; [done|done|]. intros x Hx. by rewrite EL.
Qed.
End Create.

(** ** What [Tmk_interval_create] promises *)
Record create_spec (n : Z) (v : vt_ptr) (S : sets) (s s' : node) : Prop := {
  cs_lists : lists n (n_pages s') (S.1, ∅);
  cs_clean : S.2 = ∅ -> s' = s;
  cs_vt : S.2 <> ∅ -> vt_at v s' = tick (proc_id (n_conf s)) (vt_at v s);
  cs_interval : S.2 <> ∅ -> exists rgs,
    intervals_of s' (proc_id (n_conf s)) = intervals_of s (proc_id (n_conf s)) ++
      [Interval (proc_id (n_conf s)) (tick (proc_id (n_conf s)) (vt_at v s)) rgs] /\
    rgs <> [] /\ Forall range_ok rgs /\ NoDup (pages_of_ranges rgs) /\
    forall p, p ∈ S.2 <-> exists rg, rg ∈ rgs /\ rg.1 <= p <= rg.2;
  cs_others : forall i, i <> proc_id (n_conf s) -> intervals_of s' i = intervals_of s i;
  cs_conf : n_conf s' = n_conf s;
  cs_contents : forall p, let q' := n_pages s' !!! p in let q := n_pages s !!! p in
    p_mem q' = p_mem q /\ p_twin q' = p_twin q /\ p_state q' = p_state q /\
    p_manager q' = p_manager q /\ p_prot q' = p_prot q /\
    p_wn q' = if decide (p ∈ S.2)
              then p_wn (push_wn (proc_id (n_conf s)) (tick (proc_id (n_conf s)) (vt_at v s)) q)
              else p_wn q;
  cs_fields : other_fields s' = if decide (S.2 = ∅) then other_fields s
              else other_fields (vt_upd v (tick (proc_id (n_conf s))) s)
}.

Lemma dirty_cleared self vt n m0 base o S L s' :
  rep Dirty n m0 S L -> n <= NPAGES -> created self vt m0 base o L s' ->
  forall i, 0 <= i <= n -> p_dirty (n_pages s' !!! i) = false.
Proof.
  intros Hrep Hn Hc i Hi. destruct (p_dirty (n_pages s' !!! i)) eqn:Ed; [|done]. exfalso.
  destruct (cr_dirty _ _ _ _ _ _ _ Hc i Ed) as [Em Hno].
  pose proof (rep_toggle _ _ _ _ _ Hrep i Hi) as Ht. cbn [toggle] in Ht. rewrite Em in Ht.
  destruct (decide (i ∈ S)) as [HiS|HiS].
  - assert (~ (i - 1 ∈ S)) by (repeat case_bool_decide; done).
    destruct (Hno i) as [? _]; [|done]. by apply (rep_starts _ _ _ _ _ Hrep).
  - assert (Hi1 : i - 1 ∈ S) by (repeat case_bool_decide; done).
    apply (covered Dirty n m0 S L Hrep) in Hi1 as (a & Ha & Hai).
    destruct (Hno a Ha) as [_ Hb]. destruct (decide (i <= p_partner (m0 !!! a))); [|lia].
    apply HiS, (covered Dirty n m0 S L Hrep). exists a. split; [done|lia].
Qed.

Lemma created_lists self vt n s base o S L s' :
  lists n (n_pages s) S -> rep Dirty n (n_pages s) S.2 L ->
  created self vt (n_pages s) base o L s' -> lists n (n_pages s') (S.1, ∅).
Proof.
  intros Hl Hrep Hc. pose proof (ls_bound _ _ _ Hl) as Hn. split; [|set_solver|done].
  intros [|].
  - destruct (ls_rep _ _ _ Hl Inval) as [Li HLi]. exists Li. cbn [sel] in *.
    apply (rep_frame _ _ (n_pages s)); [done| |].
    + intros i Hi. apply Hc. unfold PAGE_DIRTY. destruct Hi as [Hi| ->]; [|done].
      pose proof (rep_bound _ _ _ _ _ HLi _ Hi). lia.
    + intros i _. apply (cr_page _ _ _ _ _ _ _ Hc i).
  - exists []. cbn [sel]. apply rep_empty.
    + by eapply dirty_cleared.
    + apply Hc.
    + apply Hc.
Qed.

Lemma created_ranges n m S L : rep Dirty n m S L -> n <= NPAGES ->
  let rgs := map (fun a => (u16 a, u16 (p_partner (m !!! a)))) (reverse L) in
  Forall range_ok rgs /\ NoDup (pages_of_ranges rgs) /\
  forall p, p ∈ S <-> exists rg, rg ∈ rgs /\ rg.1 <= p <= rg.2.
Proof.
  intros Hrep Hn rgs.
  assert (Hb : forall a, a ∈ L -> u16 a = a /\ u16 (p_partner (m !!! a)) = p_partner (m !!! a) /\
    0 <= a <= p_partner (m !!! a) /\ p_partner (m !!! a) < NPAGES).
  { intros a Ha. destruct (run_in_bounds Dirty n m S L Hrep Hn a Ha) as (B1 & B2 & _).
    unfold NPAGES in *. split_and!; try lia; apply u16_small; unfold is_u16; lia. }
  assert (Hin : forall rg, rg ∈ rgs <-> exists a, a ∈ L /\ rg = (a, p_partner (m !!! a))).
  { intros rg. unfold rgs. rewrite list_elem_of_fmap. setoid_rewrite elem_of_reverse. split.
    - intros (a & -> & Ha). exists a. destruct (Hb a Ha) as (-> & -> & _). done.
    - intros (a & Ha & ->). exists a. destruct (Hb a Ha) as (-> & -> & _). done. }
  split_and!.
  - apply Forall_forall. intros rg (a & Ha & ->)%Hin. destruct (Hb a Ha) as (_ & _ & ? & ?).
    assert (RANGE_MARK = 65503) as EM by done. unfold range_ok, NPAGES in *. cbn. lia.
  - apply NoDup_bind; [|intros; apply NoDup_seqZ|].
    + intros rg rg' y (a & Ha & ->)%Hin (a' & Ha' & ->)%Hin Hy Hy'. apply elem_of_seqZ in Hy, Hy'. cbn [fst snd] in *.
      assert (Hlt : forall c d, c ∈ L -> d ∈ L -> c <= y <= p_partner (m !!! c) -> d <= y -> ~ c < d).
      { intros c d Hc Hd Hyc Hyd Hcd. apply (rep_starts _ _ _ _ _ Hrep) in Hd as [_ Hd].
        destruct (start_has_run Dirty n m S L Hrep c Hc) as (_ & Hc' & _). apply Hd, Hc'. lia. }
      pose proof (Hlt a a' Ha Ha'). pose proof (Hlt a' a Ha' Ha). assert (a = a') as -> by lia. done.
    + apply NoDup_fmap_2_strong; [|rewrite reverse_Permutation; apply Hrep]. intros a a' Ha Ha' E.
      rewrite elem_of_reverse in Ha, Ha'. destruct (Hb a Ha) as (E1 & _), (Hb a' Ha') as (E2 & _).
      injection E as E _. congruence.
  - intros p. rewrite (covered Dirty n m S L Hrep p). split.
    + intros (a & Ha & Hp). exists (a, p_partner (m !!! a)). split; [apply Hin; eauto|done].
    + intros (rg & (a & Ha & ->)%Hin & Hp). eauto.
Qed.

Lemma interval_create_spec n v S s :
  v <> VtNull -> lists n (n_pages s) S ->
  exists s', Tmk_interval_create v s = Ok (tt, s') /\ create_spec n v S s s'.
Proof.
  intros Hv Hl. destruct (ls_rep _ _ _ Hl Dirty) as [L Hrep]. cbn [sel] in Hrep.
  pose proof (ls_bound _ _ _ Hl) as Hn.
  destruct (create_run_all n v s S L Hv Hl Hrep) as (s' & Hrun & [[EL ->]|[HL Hc]]).
  - assert (ES : S.2 = ∅).
    { apply set_eq. intros p. rewrite (covered Dirty _ _ _ _ Hrep), EL. set_solver. }
    exists s. split; [done|]. destruct S as [SI SD]. cbn in ES. subst SD. by split.
  - assert (ES : S.2 <> ∅).
    { destruct L as [|a L]; [done|]. intros E.
      assert (a ∈ S.2) by (eapply (rep_starts _ _ _ _ _ Hrep); left). set_solver. }
    destruct (created_ranges n (n_pages s) S.2 L Hrep Hn) as (Hr1 & Hr0 & Hr2).
    destruct (cr_procs _ _ _ _ _ _ _ Hc) as (P1 & P2 & P3).
    assert (Ho : other_fields s' = other_fields (vt_upd v (tick (proc_id (n_conf s))) s)) by apply Hc.
    exists s'. split; [done|]. split.
    + by eapply created_lists.
    + done.
    + intros _. transitivity (vt_at v (other_fields s')); [by destruct v|]. rewrite Ho. by destruct v.
    + intros _. eexists. split; [exact P1|]. split; [|done]. intros E.
      apply HL, length_zero_iff_nil. apply (f_equal length) in E.
      by rewrite length_map, length_reverse in E.
    + intros i Hi. unfold intervals_of. by rewrite P3.
    + transitivity (n_conf (other_fields s')); [done|]. rewrite Ho. by destruct v.
    + intros p. destruct (cr_page _ _ _ _ _ _ _ Hc p) as (?&?&?&?&?&?). split_and!; try done.
      case_decide as Hp.
      * apply (covered Dirty _ _ _ _ Hrep) in Hp as (a & Ha & Hp). by eapply (cr_wn _ _ _ _ _ _ _ Hc).
      * apply (cr_wn_other _ _ _ _ _ _ _ Hc). intros a Ha Hp'. apply Hp, (covered Dirty _ _ _ _ Hrep). eauto.
    + by rewrite decide_False.
Qed.

(** C12: ending an interval.  In a state with a dirty set [D],
    [Tmk_interval_create] returns.  If [D] is empty nothing changes.  Otherwise
    this process's component of the vector time is incremented, one interval
    with that time is appended to its list, whose ranges cover exactly [D],
    every page of [D] gets exactly one write notice of that interval in front
    of the others, the dirty list becomes empty, and no page's contents,
    twin, state, protection or place in the invalidation list changes. *)
Theorem interval_create_exact n v I D s :
  v <> VtNull -> lists n (n_pages s) (I, D) ->
  exists s', Tmk_interval_create v s = Ok (tt, s') /\ create_spec n v (I, D) s s'.
Proof. intros Hv Hl. by apply interval_create_spec. Qed.

(** Pages 5 and 6 are dirty. *)
Definition dirty_ex : node :=
  match (Tmk_page_dirty_merge 6;; Tmk_page_dirty_merge 5) empty_lists with
  | Ok (_, m) => set_n_pages m (zero_node (Conf 0 4 4096 8 0))
  | _ => zero_node (Conf 0 4 4096 8 0)
  end.

Lemma dirty_ex_ok : lists 8 (n_pages dirty_ex) (∅, ∅ ∪ {[6]} ∪ {[5]}).
Proof.
  destruct (lists_merge_all [(Dirty, 6); (Dirty, 5)] 8 empty_lists (∅, ∅)) as (m & Hrun & Hl & _).
  - exact empty_lists_ok.
  - vm_compute. repeat constructor; set_solver.
  - cbn. intros p Hp. rewrite !elem_of_cons in Hp.
    destruct Hp as [->|[->|Hp]]; [..|inversion Hp]; (split; [lia|set_solver]).
  - assert (E : n_pages dirty_ex = m); [|by rewrite E].
    unfold dirty_ex. cbn [for_each] in Hrun.
    destruct (bind_inv _ _ _ _ _ Hrun) as ([] & m1 & H1 & H2).
    destruct (bind_inv _ _ _ _ _ H2) as ([] & m2 & H3 & H4). injection H4 as <-.
    unfold Tmk_page_dirty_merge. by rewrite (bind_Ok _ _ _ _ _ H1), H3.
Qed.

Lemma interval_create_exact_witness :
  exists s', Tmk_interval_create VtProc dirty_ex = Ok (tt, s') /\
    create_spec 8 VtProc (∅, ∅ ∪ {[6]} ∪ {[5]}) dirty_ex s'.
Proof. apply (interval_create_exact 8 VtProc ∅ (∅ ∪ {[6]} ∪ {[5]})); [discriminate|exact dirty_ex_ok]. Defined.
