(* ===== verification/Untwin.v ===== *)
(** * Invalidating a modified page

    When a write notice of another process names a page that was modified
    here, the modifications must survive as a diff before the page is
    invalidated: the loop [while (page->twin)] of [Tmk_interval_incorporate]. *)
From S2P Require Import Prelude DiffCodec Pages PageLists PageWalk PageSets State Twins Diffs Interval IntervalWire IntervalEffect IntervalCreate.
Local Open Scope Z_scope.

(** ** Running [Tmk_diff_create] and [Tmk_twin_free] *)
Lemma load_page_run p s : valid_ptr p = true -> p_prot (n_pages s !!! p) <> PROT_NONE ->
  load_page p s = Ok (p_mem (n_pages s !!! p), s).
Proof.
  intros Hp Hn. unfold load_page. rewrite (bind_Ok _ _ _ _ _ (pg_ok p_prot p s Hp)).
  by destruct (p_prot _) eqn:E; [|rewrite pg_ok by done..].
Qed.

Lemma diff_create_run p w s t :
  valid_ptr p = true -> p_prot (n_pages s !!! p) <> PROT_NONE -> p_twin (n_pages s !!! p) = Some t ->
  let d := diff_create (p_mem (n_pages s !!! p)) t in exists s',
  Tmk_diff_create p w s = Ok (tt, s') /\
  n_pages s' = upd p (wn_update w (set_diff (heap_ptr (n_heap_1 s)) d)) (n_pages s) /\
  n_conf s' = n_conf s /\ n_heap_1 s' = heap_advance DIFF_HEAP (diff_bytes d) (n_heap_1 s) /\
  n_out s' = n_out s.
Proof.
  intros Hp Hprot Ht d. unfold Tmk_diff_create.
  rewrite (bind_Ok _ _ _ _ _ (load_page_run p s Hp Hprot)).
  assert (E : (pg p_twin p ≫= lift_opt) s = Ok (t, s)).
  { rewrite (bind_Ok _ _ _ _ _ (pg_ok p_twin p s Hp)), Ht. done. }
  rewrite (bind_Ok _ _ _ _ _ E). erewrite bind_Ok by reflexivity.
  rewrite (bind_Ok _ _ _ _ _ (set_pg_ok p _ _ Hp)).
  eexists. split; [reflexivity|]. done.
Qed.

Lemma twin_free_run p s t : valid_ptr p = true -> p_twin (n_pages s !!! p) = Some t -> exists s',
  Tmk_twin_free p s = Ok (tt, s') /\ n_pages s' = upd p (set_twin None) (n_pages s) /\
  n_conf s' = n_conf s /\ n_out s' = n_out s.
Proof.
  intros Hp Ht. unfold Tmk_twin_free. rewrite (bind_Ok _ _ _ _ _ (pg_ok p_twin p s Hp)), Ht.
  rewrite (bind_Ok _ _ _ _ _ (set_pg_ok p _ _ Hp)). eexists. split; [reflexivity|]. done.
Qed.

(** ** One page *)

(** The newest write notice of this process waits for its diff. *)
Definition notice_waiting (self : Z) (p : page) : Prop :=
  exists w ws, wn_list p self = w :: ws /\ wn_diff w = None.

(** A modified page: it has a twin, it is writable, and it is in the dirty
    list or has a write notice that waits for the diff. *)
Record modified (s : node) (D : gset Z) (p : page_t) (t : list Z) : Prop := {
  md_twin : p_twin (n_pages s !!! p) = Some t;
  md_prot : p_prot (n_pages s !!! p) = PROT_READ_WRITE;
  md_notice : p ∈ D \/ notice_waiting (proc_id (n_conf s)) (n_pages s !!! p)
}.

(** The pages but [p] are as before, up to links, toggles and write notices. *)
Definition others_same (p : page_t) (m m' : pstore) : Prop :=
  forall q, q <> p -> p_mem (m' !!! q) = p_mem (m !!! q) /\ p_twin (m' !!! q) = p_twin (m !!! q) /\
    p_state (m' !!! q) = p_state (m !!! q) /\ p_prot (m' !!! q) = p_prot (m !!! q).

(** The page has been turned into a diff. *)
Record untwinned (n : Z) (s s' : node) (S S' : sets) (p : page_t) (t : list Z) : Prop := {
  ut_lists : lists n (n_pages s') S';
  ut_sets : S'.1 = S.1 /\ S'.2 ⊆ S.2;
  ut_twin : p_twin (n_pages s' !!! p) = None;
  ut_diff : exists w ws a, wn_list (n_pages s' !!! p) (proc_id (n_conf s)) = w :: ws /\
    wn_diff w = Some (a, diff_create (p_mem (n_pages s !!! p)) t);
  ut_page : p_mem (n_pages s' !!! p) = p_mem (n_pages s !!! p) /\
    p_state (n_pages s' !!! p) = p_state (n_pages s !!! p) /\
    p_prot (n_pages s' !!! p) = p_prot (n_pages s !!! p);
  ut_others : others_same p (n_pages s) (n_pages s');
  ut_conf : n_conf s' = n_conf s
}.

(** With a waiting write notice, one turn makes the diff and frees the twin. *)
Lemma untwin_waiting n v p s S t fuel :
  lists n (n_pages s) S -> valid_ptr p = true ->
  p_twin (n_pages s !!! p) = Some t -> p_prot (n_pages s !!! p) = PROT_READ_WRITE ->
  notice_waiting (proc_id (n_conf s)) (n_pages s !!! p) ->
  exists s', untwin (Datatypes.S (Datatypes.S fuel)) v p s = Ok (tt, s') /\ untwinned n s s' S S p t.
Proof.
  intros Hl Hp Ht Hprot (w & ws & Hw & Hd). set (self := proc_id (n_conf s)) in *.
  destruct (diff_create_run p (self, O) s t Hp) as (s1 & R1 & P1 & C1 & _); [by rewrite Hprot|done|].
  assert (T1 : p_twin (n_pages s1 !!! p) = Some t).
  { rewrite P1, upd_eq. done. }
  destruct (twin_free_run p s1 t Hp T1) as (s2 & R2 & P2 & C2 & _).
  set (a := heap_ptr (n_heap_1 s)) in *. set (d := diff_create (p_mem (n_pages s !!! p)) t) in *.
  assert (Ep : n_pages s2 !!! p = set_twin None (wn_update (self, O) (set_diff a d) (n_pages s !!! p))).
  { rewrite P2, upd_eq, P1, upd_eq. done. }
  assert (Eo : forall q, q <> p -> n_pages s2 !!! q = n_pages s !!! q).
  { intros q Hq. rewrite P2, upd_ne, P1, upd_ne by done. done. }
  exists s2. split.
  - cbn [untwin]. rewrite (bind_Ok _ _ _ _ _ (pg_ok p_twin p s Hp)), Ht.
    erewrite bind_Ok by reflexivity. fold self.
    rewrite (bind_Ok _ _ _ _ _ (pg_ok (fun q => wn_list q self) p s Hp)), Hw.
    destruct w as [dd sz i vt]. cbn in Hd. subst dd.
    assert (R12 : (Tmk_diff_create p (self, O);; Tmk_twin_free p) s = Ok (tt, s2)).
    { rewrite (bind_Ok _ _ _ _ _ R1). done. }
    rewrite (bind_Ok _ _ _ _ _ R12). rewrite (bind_Ok _ _ _ _ _ (pg_ok p_twin p s2 Hp)).
    rewrite Ep. done.
  - split.
    + apply (lists_frame n (n_pages s)); [done|]. intros q.
      destruct (decide (q = p)) as [->|Hq]; [rewrite Ep|rewrite Eo by done]; done.
    + done.
    + by rewrite Ep.
    + rewrite Ep. unfold wn_update, wn_list in *. cbn [p_wn set_twin set_wn fst snd].
      rewrite lookup_insert_eq. cbn. rewrite Hw. cbn. eexists _, _, _. split; [done|]. done.
    + by rewrite Ep.
    + intros q Hq. by rewrite Eo.
    + congruence.
Qed.

Lemma untwin_modified n v p s S t :
  v <> VtNull -> lists n (n_pages s) S -> valid_ptr p = true -> modified s S.2 p t ->
  exists s' S', untwin 3 v p s = Ok (tt, s') /\ untwinned n s s' S S' p t.
Proof.
  intros Hv Hl Hp [Ht Hprot Hn]. set (self := proc_id (n_conf s)) in *.
  assert (Hdec : notice_waiting self (n_pages s !!! p) \/
    match wn_list (n_pages s !!! p) self with
    | WriteNotice None _ _ _ :: _ => False | _ => p ∈ S.2 end).
  { destruct (wn_list (n_pages s !!! p) self) as [|[[dd|] sz i vt] ws] eqn:Ew.
    - destruct Hn as [?|(w & ws & Hw & _)]; [by right|by rewrite Hw in Ew].
    - destruct Hn as [?|(w & ws' & Hw & Hd)]; [by right|]. rewrite Hw in Ew. injection Ew as -> _. done.
    - left. by eexists _, _. }
  destruct Hdec as [Hw|Hw].
  { destruct (untwin_waiting n v p s S t 1 Hl Hp Ht Hprot Hw) as (s' & ? & ?). by exists s', S. }
  assert (HD : p ∈ S.2) by (by destruct (wn_list _ _) as [|[[] ? ? ?] ?]).
  destruct (interval_create_spec n v S s Hv Hl) as (s1 & R1 & [L1 _ V1 _ _ C1 P1 _]).
  specialize (V1 ltac:(set_solver)).
  destruct (P1 p) as (M1 & T1 & S1 & _ & Pr1 & W1). rewrite decide_True in W1 by done.
  set (s2 := set_n_vt (vt_set self (vt_get (vt_at v s1) self) (n_vt s1)) s1).
  assert (Hw2 : notice_waiting (proc_id (n_conf s2)) (n_pages s2 !!! p)).
  { change (n_conf s2) with (n_conf s1). rewrite C1. change (n_pages s2) with (n_pages s1).
    eexists _, _. unfold wn_list. rewrite W1. unfold push_wn. cbn [p_wn set_wn]. fold self.
    by rewrite lookup_insert_eq. }
  destruct (untwin_waiting n v p s2 (S.1, ∅) t 0) as (s3 & R3 & [L3 E3 T3 D3 P3 O3 C3]); try done.
  { change (n_pages s2) with (n_pages s1). congruence. }
  { change (n_pages s2) with (n_pages s1). congruence. }
  exists s3, (S.1, ∅). split.
  - cbn [untwin]. rewrite (bind_Ok _ _ _ _ _ (pg_ok p_twin p s Hp)), Ht.
    erewrite bind_Ok by reflexivity. fold self.
    rewrite (bind_Ok _ _ _ _ _ (pg_ok (fun q => wn_list q self) p s Hp)).
    assert (R12 : (Tmk_interval_create v;; vt ← vt_read v;
      modify (fun s => set_n_vt (vt_set self (vt_get vt self) (n_vt s)) s)) s = Ok (tt, s2)).
    { rewrite (bind_Ok _ _ _ _ _ R1), (bind_Ok _ _ _ _ _ (vt_read_run v s1 Hv)). done. }
    destruct (wn_list (n_pages s !!! p) self) as [|[[dd|] sz i vt] ws]; try done;
      rewrite (bind_Ok _ _ _ _ _ R12); exact R3.
  - change (n_pages s2) with (n_pages s1) in *. change (n_conf s2) with (n_conf s1) in *. split.
    + done.
    + split; [done|]. set_solver.
    + done.
    + rewrite <- C1, <- M1. exact D3.
    + destruct P3 as (?&?&?). split_and!; congruence.
    + intros q Hq. destruct (O3 q Hq) as (?&?&?&?), (P1 q) as (?&?&?&_&?&_). split_and!; congruence.
    + congruence.
Qed.

(** C13: no modification is lost by an invalidation.  For a modified page in a
    well-formed table, the loop that makes its diff terminates (within three
    turns, also when the current interval has to be ended first); afterwards
    the page has no twin, the newest write notice of this process holds a diff
    that turns the twin into the page's contents, the contents are unchanged,
    the invalidation list is unchanged, and no other page is affected. *)
Theorem untwin_keeps_modifications n v p s S t :
  v <> VtNull -> lists n (n_pages s) S -> valid_ptr p = true -> modified s S.2 p t ->
  let mem := p_mem (n_pages s !!! p) in
  Forall is_word mem -> length mem = length t -> page_fits (length mem) ->
  exists s' S' w ws a d, untwin 3 v p s = Ok (tt, s') /\
    lists n (n_pages s') S' /\ S'.1 = S.1 /\
    p_twin (n_pages s' !!! p) = None /\ p_mem (n_pages s' !!! p) = mem /\
    wn_list (n_pages s' !!! p) (proc_id (n_conf s)) = w :: ws /\ wn_diff w = Some (a, d) /\
    diff_apply t d = Some (mem, []) /\ others_same p (n_pages s) (n_pages s').
Proof.
  intros Hv Hl Hp Hm mem Hok Hlen Hfit.
  destruct (untwin_modified n v p s S t Hv Hl Hp Hm) as (s' & S' & Hrun & [L1 [E1 _] T1 D1 P1 O1 C1]).
  destruct D1 as (w & ws & a & Hw & Hd).
  exists s', S', w, ws, a, (diff_create mem t). split_and!; try done; [apply P1|].
  rewrite <- (app_nil_r (diff_create mem t)), diff_apply_create by (done || congruence).
  by rewrite merge_words_twin.
Qed.

(** Page 5 of [dirty_ex], with one word changed since its twin was made. *)
Definition modified_ex : node :=
  set_n_pages (upd 5 (fun p => set_twin (Some [1; 2; 3; 4]) (set_mem [1; 9; 3; 4] (set_prot PROT_READ_WRITE p)))
    (n_pages dirty_ex)) dirty_ex.

Lemma modified_ex_lists : lists 8 (n_pages modified_ex) (∅, ∅ ∪ {[6]} ∪ {[5]}).
Proof.
  apply (lists_frame 8 (n_pages dirty_ex)); [exact dirty_ex_ok|]. intros i. cbn [n_pages set_n_pages modified_ex].
  unfold modified_ex. cbn [n_pages set_n_pages]. rewrite upd_lookup. case_decide; [subst|]; done.
Qed.

Lemma untwin_keeps_modifications_witness :
  exists s' S' w ws a d, untwin 3 VtProc 5 modified_ex = Ok (tt, s') /\
    lists 8 (n_pages s') S' /\ S'.1 = ∅ /\
    p_twin (n_pages s' !!! 5) = None /\ p_mem (n_pages s' !!! 5) = [1; 9; 3; 4] /\
    wn_list (n_pages s' !!! 5) 0 = w :: ws /\ wn_diff w = Some (a, d) /\
    diff_apply [1; 2; 3; 4] d = Some ([1; 9; 3; 4], []) /\
    others_same 5 (n_pages modified_ex) (n_pages s').
Proof.
  apply (untwin_keeps_modifications 8 VtProc 5 modified_ex (∅, ∅ ∪ {[6]} ∪ {[5]}) [1; 2; 3; 4]).
  - discriminate.
  - exact modified_ex_lists.
  - reflexivity.
  - split; [vm_compute; reflexivity|vm_compute; reflexivity|]. left. set_solver.
  - assert (E : p_mem (n_pages modified_ex !!! 5) = [1; 9; 3; 4]) by (vm_compute; reflexivity).
    rewrite E. unfold is_word, is_u32. repeat constructor; lia.
  - vm_compute. reflexivity.
  - vm_compute. reflexivity.
Defined.
