(* ===== verification/LockProtocol.v ===== *)
(** * The lock protocol: mutual exclusion

    The part of [lock.c] that moves the token of one lock, as functions on the
    lock record; a network of processes that run them, with requests and
    grants in flight in any order; and the invariant that gives mutual
    exclusion.  [LockRefine.v] shows that the operations of [Lock.v] do this to
    the record and send these messages. *)
From stdpp Require Import functions.
From S2P Require Import Prelude Pages State.
Local Open Scope Z_scope.

(** ** One process *)

(** [Tmk_lock_acquire] when the token is not here: the new record and the
    process that is asked. *)
Definition lk_request (self : Z) (lk : lock) : lock * Z :=
  let lk1 := set_lk_next self (set_lk_held true lk) in
  if lk_manager lk =? self then (set_lk_tail self lk1, lk_tail lk) else (lk1, lk_manager lk).

Inductive reaction : Type := Granted | Queued | Forwarded (to : Z).

(** [Tmk_lock_sigio_handler]; [None] is its call of [Tmk_errexit]. *)
Definition lk_serve (self from : Z) (lk : lock) : option (lock * reaction) :=
  if lk_next lk =? self then
    let lk1 := set_lk_next from lk in
    Some (if lk_manager lk =? self then set_lk_tail from lk1 else lk1,
          if lk_held lk then Queued else Granted)
  else if lk_manager lk =? self then Some (set_lk_tail from lk, Forwarded (lk_tail lk))
  else None.

(** [Tmk_lock_release]: the new record and the process that gets the token. *)
Definition lk_release (self : Z) (lk : lock) : lock * option Z :=
  (set_lk_held false lk, if lk_next lk =? self then None else Some (lk_next lk)).

(** ** The network *)
Inductive lmsg : Type :=
  | LReq (from to : Z)     (** a request of [from], on its way to [to] *)
  | LGrant (to : Z).

Record lstate : Type := LState {
  l_lock : Z -> lock;      (** the record of each process *)
  l_wait : gset Z;         (** the processes inside [Tmk_lock_acquire] *)
  l_msgs : list lmsg
}.

Definition lock_of (g : lstate) (p : Z) : lock := l_lock g p.

(** What a served request puts in flight. *)
Definition answer (from : Z) (r : reaction) : list lmsg :=
  match r with Granted => [LGrant from] | Queued => [] | Forwarded to => [LReq from to] end.

Inductive lstep : lstate -> lstate -> Prop :=
  | step_reenter g p :
      lk_held (lock_of g p) = false -> lk_next (lock_of g p) = p ->
      lstep g (LState (<[p := set_lk_held true (lock_of g p)]> (l_lock g)) (l_wait g) (l_msgs g))
  | step_request g p lk to :
      lk_held (lock_of g p) = false -> lk_next (lock_of g p) <> p ->
      lk_request p (lock_of g p) = (lk, to) ->
      lstep g (LState (<[p := lk]> (l_lock g)) ({[p]} ∪ l_wait g) (LReq p to :: l_msgs g))
  | step_serve g ms q from lk r :
      l_msgs g ≡ₚ LReq from q :: ms ->
      lk_serve q from (lock_of g q) = Some (lk, r) ->
      lstep g (LState (<[q := lk]> (l_lock g)) (l_wait g) (answer from r ++ ms))
  | step_grant g ms p :
      l_msgs g ≡ₚ LGrant p :: ms ->
      lstep g (LState (l_lock g) (l_wait g ∖ {[p]}) ms)
  | step_release g p lk to :
      lk_held (lock_of g p) = true -> p ∉ l_wait g ->
      lk_release p (lock_of g p) = (lk, to) ->
      lstep g (LState (<[p := lk]> (l_lock g)) (l_wait g)
                (match to with Some q => LGrant q :: l_msgs g | None => l_msgs g end)).

Inductive reachable (M : Z) : lstate -> Prop :=
  | reach_init g :
      (forall p, lk_manager (lock_of g p) = M /\ lk_tail (lock_of g p) = 0 /\
         lk_held (lock_of g p) = false /\ lk_next (lock_of g p) = 0) ->
      l_wait g = ∅ -> l_msgs g = [] -> reachable M g
  | reach_step g g' : reachable M g -> lstep g g' -> reachable M g'.

(** A process that may enter or is in its critical section. *)
Definition in_section (g : lstate) (p : Z) : Prop := lk_held (lock_of g p) = true /\ p ∉ l_wait g.

(** ** The invariant

    [T] is the order in which the manager knows the requests: its head has the
    token, or the grant on its way; every other process of [T] waits, and its
    predecessor either links to it or has not yet received its request.  The
    processes of [W] wait and their requests have not reached the manager. *)
Definition next (g : lstate) (p : Z) : Z := lk_next (lock_of g p).

(** The requests on their way to a predecessor. *)
Fixpoint pending (g : lstate) (T : list Z) : list lmsg :=
  match T with
  | a :: ((b :: _) as T') => (if next g a =? a then [LReq b a] else []) ++ pending g T'
  | _ => []
  end.

(** Adjacent processes are linked or not yet; the manager's own successor is
    linked at once. *)
Fixpoint linked (M : Z) (g : lstate) (T : list Z) : Prop :=
  match T with
  | a :: ((b :: _) as T') => (next g a = b \/ (next g a = a /\ a <> M)) /\ linked M g T'
  | [a] => next g a = a
  | [] => False
  end.

(** The grant on its way to the head. *)
Definition granting (g : lstate) (T : list Z) : list lmsg :=
  match T with t :: _ => if bool_decide (t ∈ l_wait g) then [LGrant t] else [] | [] => [] end.

Record linv (M : Z) (g : lstate) (T W : list Z) : Prop := {
  li_nodup : NoDup (T ++ W);
  li_manager : forall p, lk_manager (lock_of g p) = M;
  li_linked : linked M g T;
  li_tail : last T = Some (lk_tail (lock_of g M));
  li_head : forall t, head T = Some t -> next g t <> t -> lk_held (lock_of g t) = true;
  li_waiting : forall p, p ∈ l_wait g -> p ∈ T \/ p ∈ W;
  li_queue : forall p, p ∈ List.tl T ++ W -> p ∈ l_wait g;
  li_held : forall p, p ∈ l_wait g -> lk_held (lock_of g p) = true;
  li_W : forall p, p ∈ W -> p <> M /\ next g p = p;
  li_idle : forall p, p ∉ T -> p ∉ W -> lk_held (lock_of g p) = false /\ next g p <> p;
  li_msgs : l_msgs g ≡ₚ granting g T ++ pending g T ++ ((fun p => LReq p M) <$> W)
}.

(** *** Lists of adjacent processes *)

(** The parts of the invariant that only look at the processes of [T]. *)
Lemma pending_ext g g' T : (forall p, p ∈ T -> next g' p = next g p) -> pending g' T = pending g T.
Proof.
  induction T as [|a [|b T] IH]; intros H; [done..|]. cbn [pending].
  rewrite H by set_solver. f_equal. apply IH. intros p Hp. apply H. set_solver.
Qed.

Lemma linked_ext M g g' T :
  (forall p, p ∈ T -> next g' p = next g p) -> linked M g T -> linked M g' T.
Proof.
  induction T as [|a [|b T] IH]; intros H; [done|..].
  - cbn. by rewrite H by set_solver.
  - cbn [linked]. rewrite H by set_solver. intros [H1 H2]. split; [done|].
    apply IH; [|done]. intros p Hp. apply H. set_solver.
Qed.

Lemma last_in (T : list Z) l : last T = Some l -> l ∈ T.
Proof. intros [T' ->]%last_Some. set_solver. Qed.

Lemma linked_last M g T l : linked M g T -> last T = Some l -> next g l = l.
Proof.
  induction T as [|a [|b T] IH]; intros HT Hl; [done|..].
  - by injection Hl as ->.
  - apply IH; [apply HT|exact Hl].
Qed.

(** A process whose link is its own is last, or its successor's request has
    not arrived. *)
Lemma linked_self M g T : linked M g T -> M ∈ T -> NoDup T -> next g M = M -> last T = Some M.
Proof.
  induction T as [|a [|b T] IH]; intros HT HM Hnd Hn; [done|..].
  - apply list_elem_of_singleton in HM as ->. done.
  - apply NoDup_cons in Hnd as [Ha Hnd]. destruct HT as [H1 H2].
    apply elem_of_cons in HM as [->|HM]; [|exact (IH H2 HM Hnd Hn)].
    destruct H1 as [H1|[_ H1]]; [|done]. set_solver.
Qed.

(** A new last process, not yet linked. *)
Lemma linked_snoc M g T l b :
  linked M g T -> last T = Some l -> l <> M -> b ∉ T -> next g b = b ->
  linked M g (T ++ [b]) /\ pending g (T ++ [b]) = pending g T ++ [LReq b l].
Proof.
  induction T as [|a [|c T] IH]; intros HT Hl HM Hb Hn; [done|..].
  - injection Hl as ->. cbn in HT |- *. rewrite HT, Z.eqb_refl. split; [|done].
    split; [right; done|done].
  - destruct HT as [H1 H2]. destruct (IH H2 Hl HM) as [H3 H4]; [set_solver|done|].
    change ((a :: c :: T) ++ [b]) with (a :: c :: (T ++ [b])).
    change ((c :: T) ++ [b]) with (c :: (T ++ [b])) in H3, H4. split.
    + split; [done|exact H3].
    + cbn [pending] in H4 |- *. rewrite H4. by rewrite app_assoc.
Qed.

(** A new last process, linked to at once. *)
Lemma linked_snoc_link M g g' T l b :
  linked M g T -> last T = Some l -> NoDup T -> b ∉ T -> next g' l = b -> next g' b = b ->
  (forall p, p ∈ T -> p <> l -> next g' p = next g p) ->
  linked M g' (T ++ [b]) /\ pending g' (T ++ [b]) = pending g T.
Proof.
  induction T as [|a [|c T] IH]; intros HT Hl Hnd Hb Hlb Hbb Hext; [done|..].
  - injection Hl as ->. cbn. rewrite Hlb, Hbb. split; [auto|].
    destruct (Z.eqb_spec b l); [set_solver|done].
  - destruct HT as [H1 H2]. apply NoDup_cons in Hnd as [Ha Hnd].
    destruct (IH H2 Hl Hnd) as [H3 H4]; try done; [set_solver|intros; apply Hext; set_solver|].
    assert (Hal : a <> l) by (intros ->; apply Ha; by apply last_in).
    change ((a :: c :: T) ++ [b]) with (a :: c :: (T ++ [b])).
    change ((c :: T) ++ [b]) with (c :: (T ++ [b])) in H3, H4.
    cbn [linked pending]. rewrite (Hext a) by set_solver. split; [by split|].
    cbn [pending] in H4. rewrite H4. done.
Qed.

Lemma pending_cons g a b T :
  pending g (a :: b :: T) = (if next g a =? a then [LReq b a] else []) ++ pending g (b :: T).
Proof. done. Qed.

Lemma linked_cons M g a b T :
  linked M g (a :: b :: T) = ((next g a = b \/ (next g a = a /\ a <> M)) /\ linked M g (b :: T)).
Proof. done. Qed.

(** The request of a successor arrives. *)
Lemma pending_elem g T m :
  m ∈ pending g T -> exists T1 q f T2, T = T1 ++ q :: f :: T2 /\ m = LReq f q /\ next g q = q.
Proof.
  induction T as [|a [|b T] IH]; intros H; [set_solver..|].
  cbn [pending] in H. apply elem_of_app in H as [H|H].
  - destruct (Z.eqb_spec (next g a) a); [|set_solver].
    apply list_elem_of_singleton in H as ->. by exists [], a, b, T.
  - destruct (IH H) as (T1 & q & f & T2 & -> & ?). exists (a :: T1), q, f, T2. done.
Qed.

Lemma linked_arrive M g g' T1 q f T2 :
  let T := T1 ++ q :: f :: T2 in
  linked M g T -> NoDup T -> next g q = q -> next g' q = f ->
  (forall p, p ∈ T -> p <> q -> next g' p = next g p) ->
  q <> M /\ linked M g' T /\ pending g T ≡ₚ LReq f q :: pending g' T.
Proof.
  cbn zeta. induction T1 as [|a T1 IH]; intros HT Hnd Hq Hf Hext.
  - destruct HT as [H1 H2]. apply NoDup_cons in Hnd as [Hn Hnd].
    assert (f <> q) by set_solver.
    cbn [app]. rewrite !pending_cons, linked_cons, Hq, Hf, Z.eqb_refl. destruct (Z.eqb_spec f q); [done|].
    rewrite (pending_ext g g' (f :: T2)) by (intros; apply Hext; set_solver).
    split; [|split; [split; [by left|]|done]].
    + destruct H1 as [H1|[_ H1]]; [congruence|done].
    + eapply linked_ext; [|exact H2]. intros; apply Hext; set_solver.
  - rewrite <- app_comm_cons in *. apply NoDup_cons in Hnd as [Hn Hnd].
    assert (a <> q) by (intros ->; apply Hn; set_solver).
    assert (Hin : forall p, p ∈ T1 ++ q :: f :: T2 -> p <> q -> next g' p = next g p)
      by (intros; apply Hext; set_solver).
    destruct (T1 ++ q :: f :: T2) as [|c U] eqn:E; [by destruct T1|].
    rewrite !pending_cons, !linked_cons, (Hext a) in * by set_solver.
    destruct HT as [H1 H2]. destruct IH as (H3 & H4 & H5); [done..|].
    split; [done|]. split; [done|]. rewrite H5. solve_Permutation.
Qed.

(** *** The steps preserve the invariant *)
Lemma lock_of_eq L p lk w ms : lock_of (LState (<[p := lk]> L) w ms) p = lk.
Proof. apply fn_lookup_insert. Qed.

Lemma lock_of_ne L p q lk w ms : q <> p -> lock_of (LState (<[p := lk]> L) w ms) q = L q.
Proof. intros H. by apply fn_lookup_insert_ne. Qed.

Lemma next_eq L p lk w ms : next (LState (<[p := lk]> L) w ms) p = lk_next lk.
Proof. unfold next. by rewrite lock_of_eq. Qed.

Lemma next_ne L p q lk w ms : q <> p -> next (LState (<[p := lk]> L) w ms) q = lk_next (L q).
Proof. intros H. unfold next. by rewrite lock_of_ne. Qed.

(** A fact about every process after the record of [p] has changed. *)
Ltac at_process p q :=
  destruct (decide (q = p)) as [->|];
  [rewrite ?lock_of_eq, ?next_eq in * | rewrite ?lock_of_ne, ?next_ne in * by done].

Lemma linv_init M g :
  (forall p, lk_manager (lock_of g p) = M /\ lk_tail (lock_of g p) = 0 /\
     lk_held (lock_of g p) = false /\ lk_next (lock_of g p) = 0) ->
  l_wait g = ∅ -> l_msgs g = [] -> linv M g [0] [].
Proof.
  intros H Hw Hm.
  assert (Hn : forall p, next g p = 0) by (intros; apply H).
  split; rewrite ?Hw, ?Hm.
  - apply NoDup_singleton.
  - intros p. apply H.
  - apply Hn.
  - cbn. by destruct (H M) as (_ & -> & _).
  - intros t [= <-] Ht. by rewrite Hn in Ht.
  - intros p Hp. by apply not_elem_of_empty in Hp.
  - intros p Hp. by apply elem_of_nil in Hp.
  - intros p Hp. by apply not_elem_of_empty in Hp.
  - intros p Hp. by apply elem_of_nil in Hp.
  - intros p Hp _. rewrite Hn. split; [apply H|]. intros <-. apply Hp. by constructor.
  - cbn. by rewrite Hw.
Qed.

Section Steps.
Context (M : Z) (g : lstate) (T W : list Z) (I : linv M g T W).

Lemma head_cons : exists t T', T = t :: T'.
Proof. destruct T as [|t T'] eqn:E; [|by exists t, T']. by destruct (li_linked _ _ _ _ I). Qed.

Lemma not_waiting_T p : p ∈ T -> p ∉ l_wait g -> head T = Some p.
Proof.
  intros HT Hw. destruct head_cons as (t & T' & E). rewrite E in HT |- *. cbn.
  apply elem_of_cons in HT as [->|HT]; [done|]. exfalso. apply Hw, (li_queue _ _ _ _ I).
  rewrite E. set_solver.
Qed.

Lemma not_held_self p : lk_held (lock_of g p) = false -> next g p = p -> head T = Some p.
Proof.
  intros Hh Hn. assert (Hw : p ∉ l_wait g).
  { intros Hw. rewrite (li_held _ _ _ _ I) in Hh by done. done. }
  destruct (decide (p ∈ T)); [by apply not_waiting_T|].
  destruct (decide (p ∈ W)) as [HW|HW].
  - destruct Hw. apply (li_queue _ _ _ _ I). set_solver.
  - by destruct (li_idle _ _ _ _ I p) as [_ []].
Qed.

(** A process that does not hold the lock and has passed the token on is in
    neither queue. *)
Lemma not_held_other p : lk_held (lock_of g p) = false -> next g p <> p -> p ∉ T /\ p ∉ W.
Proof.
  intros Hh Hn. assert (Hw : p ∉ l_wait g).
  { intros Hw. rewrite (li_held _ _ _ _ I) in Hh by done. done. }
  split; intros HT.
  - apply not_waiting_T in HT; [|done]. rewrite (li_head _ _ _ _ I) in Hh; done.
  - destruct Hw. apply (li_queue _ _ _ _ I). set_solver.
Qed.

Lemma linv_reenter p :
  lk_held (lock_of g p) = false -> next g p = p ->
  linv M (LState (<[p := set_lk_held true (lock_of g p)]> (l_lock g)) (l_wait g) (l_msgs g)) T W.
Proof.
  intros Hh Hn. pose proof (not_held_self p Hh Hn) as HT.
  assert (Hx : forall q, next (LState (<[p := set_lk_held true (lock_of g p)]> (l_lock g))
                 (l_wait g) (l_msgs g)) q = next g q) by (intros q; at_process p q; done).
  destruct I. split; cbn [l_wait l_msgs]; try done.
  - intros q. at_process p q; apply li_manager0.
  - by eapply linked_ext; [|done].
  - rewrite li_tail0. at_process p M; done.
  - intros t Ht. rewrite Hx. at_process p t; [done|]. by apply li_head0.
  - intros q Hq. at_process p q; [done|]. by apply li_held0.
  - intros q Hq. rewrite Hx. by apply li_W0.
  - intros q Hq Hq'. rewrite Hx. at_process p q; [|by apply li_idle0].
    destruct Hq. destruct T as [|t T']; [done|]. injection HT as ->. set_solver.
  - rewrite (pending_ext g) by (intros; apply Hx). done.
Qed.

Lemma linv_request p lk to :
  lk_held (lock_of g p) = false -> next g p <> p -> lk_request p (lock_of g p) = (lk, to) ->
  exists T' W', linv M (LState (<[p := lk]> (l_lock g)) ({[p]} ∪ l_wait g) (LReq p to :: l_msgs g)) T' W'.
Proof.
  intros Hh Hn Hr. destruct (not_held_other p Hh Hn) as [HpT HpW]. unfold lk_request in Hr.
  set (g' := LState _ _ _). destruct I. rewrite li_manager0 in Hr.
  assert (Hlk : lk_next lk = p /\ lk_held lk = true /\ lk_manager lk = M).
  { rewrite <- (li_manager0 p). destruct (M =? p); by injection Hr as <- <-. }
  destruct Hlk as (Hlkn & Hlkh & Hlkm).
  assert (Hx : forall q, q <> p -> next g' q = next g q) by (intros q Hq; by apply next_ne).
  assert (Hp : next g' p = p) by (subst g'; by rewrite next_eq).
  assert (HxT : forall q, q ∈ T -> next g' q = next g q) by (intros; apply Hx; set_solver).
  assert (HgT : granting g' T = granting g T).
  { destruct T as [|t T']; [done|]. cbn. case_bool_decide as H1; case_bool_decide as H2; set_solver. }
  assert (HH : forall t T', head (T ++ T') = Some t -> next g' t <> t -> lk_held (lock_of g' t) = true).
  { intros t T' Ht. destruct T as [|t0 T0]; [done|]. injection Ht as ->. subst g'.
    at_process p t; [set_solver|]. intros. by apply li_head0. }
  assert (HM : forall q, lk_manager (lock_of g' q) = M).
  { intros q. subst g'. at_process p q; [done|apply li_manager0]. }
  assert (HL : forall q, q ∈ l_wait g' -> lk_held (lock_of g' q) = true).
  { intros q Hq. subst g'. at_process p q; [done|]. apply li_held0. set_solver. }
  assert (HLT : linked M g' T) by (by eapply linked_ext).
  assert (HI : forall q, q <> p -> q ∉ T -> q ∉ W -> lk_held (lock_of g' q) = false /\ next g' q <> q).
  { intros q Hq H1 H2. rewrite Hx by done. subst g'. rewrite lock_of_ne by done. by apply li_idle0. }
  destruct (Z.eqb_spec M p) as [<-|HMp].
  - exists (T ++ [M]), W.
    assert (Hl : lk_tail (lock_of g M) <> M) by (intros E; apply HpT, last_in; by rewrite li_tail0, E).
    destruct (linked_snoc M g' T (lk_tail (lock_of g M)) M) as [HT' HP']; [done..|].
    injection Hr as Hlk Hto. split; try done.
    + rewrite <- app_assoc. apply NoDup_app. apply NoDup_app in li_nodup0 as (? & ? & ?).
      split_and!; [done|set_solver|]. by constructor.
    + rewrite last_snoc. subst g'. rewrite lock_of_eq. by rewrite <- Hlk.
    + eauto.
    + intros q Hq. cbn in Hq. specialize (li_waiting0 q). clear -Hq li_waiting0. set_solver.
    + intros q Hq. cbn. specialize (li_queue0 q). destruct T as [|t0 T0]; [done|]. cbn in *.
      clear -Hq li_queue0. set_solver.
    + intros q Hq. rewrite Hx by (by intros ->). by apply li_W0.
    + intros q Hq. apply HI; clear -Hq; set_solver.
    + cbn [l_msgs g']. rewrite HP', (pending_ext g) by done. rewrite <- Hto, li_msgs0.
      destruct T as [|t0 T0]; [done|]. rewrite <- app_comm_cons.
      change (granting g' (t0 :: T0 ++ [M])) with (granting g' (t0 :: T0)). rewrite HgT. solve_Permutation.
  - exists T, (p :: W). injection Hr as Hlk Hto. split; try done.
    + apply NoDup_app. apply NoDup_app in li_nodup0 as (? & ? & ?).
      split_and!; [done|set_solver|by constructor].
    + rewrite li_tail0. subst g'. by rewrite lock_of_ne by done.
    + intros t Ht. apply (HH t []). by rewrite app_nil_r.
    + intros q Hq. cbn in Hq. specialize (li_waiting0 q). clear -Hq li_waiting0. set_solver.
    + intros q Hq. cbn. specialize (li_queue0 q). clear -Hq li_queue0. set_solver.
    + intros q Hq. destruct (decide (q = p)) as [->|Hqp]; [done|]. rewrite Hx by done.
      apply li_W0. clear -Hq Hqp. set_solver.
    + intros q Hq Hq'. apply HI; [clear -Hq'; set_solver|done|clear -Hq'; set_solver].
    + cbn [l_msgs g']. rewrite (pending_ext g), HgT, li_msgs0 by done. rewrite <- Hto. cbn. solve_Permutation.
Qed.

Lemma linv_grant ms p :
  l_msgs g ≡ₚ LGrant p :: ms -> linv M (LState (l_lock g) (l_wait g ∖ {[p]}) ms) T W.
Proof.
  intros Hm. destruct head_cons as (t & T' & E).
  assert (Hp : p = t /\ p ∈ l_wait g /\ ms ≡ₚ pending g T ++ ((fun p => LReq p M) <$> W)).
  { pose proof (li_msgs _ _ _ _ I) as H. rewrite Hm in H. rewrite E in H |- *. cbn [granting] in H.
    case_bool_decide as Ht.
    - assert (Hin : LGrant p ∈ [LGrant t] ++ pending g (t :: T') ++ ((fun p => LReq p M) <$> W))
        by (rewrite <- H; by left).
      rewrite !elem_of_app, list_elem_of_singleton, list_elem_of_fmap in Hin.
      destruct Hin as [[= <-]|[Hin|(? & ? & _)]]; [|by apply pending_elem in Hin as (?&?&?&?&_&?&_)|done].
      split_and!; [done|done|]. by apply Permutation_cons_inv in H.
    - assert (Hin : LGrant p ∈ pending g (t :: T') ++ ((fun p => LReq p M) <$> W))
        by (rewrite <- H; by left).
      rewrite elem_of_app, list_elem_of_fmap in Hin.
      by destruct Hin as [(?&?&?&?&_&?&_)%pending_elem|(? & ? & _)]. }
  destruct Hp as (-> & Hw & Hms). set (g' := LState _ _ _). destruct I.
  assert (Hnt : t ∉ List.tl T ++ W) by (rewrite E in li_nodup0 |- *; by apply NoDup_cons in li_nodup0 as [? _]).
  split; try done.
  - eapply linked_ext; [|done]. done.
  - intros q Hq. apply li_waiting0. clear -Hq. set_solver.
  - intros q Hq. cbn. pose proof (li_queue0 q Hq). assert (q <> t) by (by intros ->).
    apply elem_of_difference. split; [done|]. by rewrite elem_of_singleton.
  - intros q Hq. apply li_held0. clear -Hq. set_solver.
  - cbn [l_msgs g']. rewrite Hms. rewrite E. cbn [granting].
    rewrite bool_decide_eq_false_2; [|cbn; clear; set_solver]. by rewrite (pending_ext g g').
Qed.

Lemma linv_release p lk to :
  lk_held (lock_of g p) = true -> p ∉ l_wait g -> lk_release p (lock_of g p) = (lk, to) ->
  exists T', linv M (LState (<[p := lk]> (l_lock g)) (l_wait g)
    (match to with Some q => LGrant q :: l_msgs g | None => l_msgs g end)) T' W.
Proof.
  intros Hh Hw [= <- Hto]. set (g' := LState _ _ _).
  assert (Hx : forall q, next g' q = next g q) by (intros q; subst g'; at_process p q; done).
  assert (Hm : forall q, lk_manager (lock_of g' q) = lk_manager (lock_of g q) /\
                         lk_tail (lock_of g' q) = lk_tail (lock_of g q))
    by (intros q; subst g'; at_process p q; done).
  assert (Hhd : forall q, q <> p -> lk_held (lock_of g' q) = lk_held (lock_of g q))
    by (intros q Hq; subst g'; by rewrite lock_of_ne).
  assert (Hp' : lk_held (lock_of g' p) = false) by (subst g'; by rewrite lock_of_eq).
  assert (HT : p ∈ T).
  { destruct (decide (p ∈ T)) as [|H1]; [done|]. destruct (decide (p ∈ W)) as [HW|H2].
    - destruct Hw. apply (li_queue _ _ _ _ I). clear -HW. set_solver.
    - rewrite (proj1 (li_idle _ _ _ _ I p H1 H2)) in Hh. done. }
  apply not_waiting_T in HT; [|done]. destruct head_cons as (t & T' & E).
  rewrite E in HT. injection HT as ->. fold (next g p) in Hto.
  assert (Hneq : forall q, q ∈ l_wait g -> q <> p) by (by intros ? ? ->).
  destruct I. destruct (Z.eqb_spec (next g p) p) as [Hn|Hn]; subst to.
  - exists T. split; try done.
    + intros q. by destruct (Hm q) as [-> _].
    + eapply linked_ext; [|done]. done.
    + by destruct (Hm M) as [_ ->].
    + intros q. rewrite E, Hx. intros [= <-]. done.
    + intros q Hq. rewrite Hhd by (by apply Hneq). by apply li_held0.
    + intros q Hq. rewrite Hx. by apply li_W0.
    + intros q H1 H2. rewrite Hx. assert (q <> p) by (intros ->; apply H1; rewrite E; by left).
      rewrite Hhd by done. by apply li_idle0.
    + cbn [l_msgs g']. rewrite (pending_ext g) by done. done.
  - destruct T' as [|b T']. { rewrite E in li_linked0. by cbn in li_linked0. }
    exists (b :: T'). rewrite E in *. destruct li_linked0 as [[Hb|[Hb _]] HL]; [|done].
    apply NoDup_cons in li_nodup0 as [Hnp Hnd].
    assert (Hbw : b ∈ l_wait g) by (apply li_queue0; by left).
    split; try done.
    + intros q. by destruct (Hm q) as [-> _].
    + eapply linked_ext; [|done]. done.
    + destruct (Hm M) as [_ ->]. done.
    + intros q [= <-] _. rewrite Hhd by (by apply Hneq). by apply li_held0.
    + intros q Hq. destruct (li_waiting0 q Hq) as [Hi|]; [|by right].
      apply elem_of_cons in Hi as [->|]; [done|by left].
    + intros q Hq. apply li_queue0. by right.
    + intros q Hq. rewrite Hhd by (by apply Hneq). by apply li_held0.
    + intros q Hq. rewrite Hx. by apply li_W0.
    + intros q H1 H2. rewrite Hx. destruct (decide (q = p)) as [->|Hq]; [done|].
      rewrite Hhd by done. apply li_idle0; [|done]. by intros [?|?]%elem_of_cons.
    + cbn [l_msgs g']. rewrite (pending_ext g) by done. rewrite li_msgs0, Hb.
      rewrite (pending_cons g), (proj2 (Z.eqb_neq _ _) Hn). cbn [granting].
      change (l_wait g') with (l_wait g). rewrite (bool_decide_eq_true_2 _ Hbw).
      rewrite bool_decide_eq_false_2 by done. done.
Qed.

(** Where a request in flight is in the two queues. *)
Lemma request_place from q :
  LReq from q ∈ l_msgs g ->
  (q = M /\ from ∈ W) \/
  (q <> M /\ next g q = q /\ exists T1 T2, T = T1 ++ q :: from :: T2).
Proof.
  intros H. rewrite (li_msgs _ _ _ _ I), !elem_of_app, list_elem_of_fmap in H.
  destruct H as [H|[H|(w & [= <- <-] & H)]]; [|right|by left].
  - destruct head_cons as (t & T' & E). rewrite E in H. cbn in H. case_bool_decide; [|by apply elem_of_nil in H].
    by apply list_elem_of_singleton in H.
  - apply pending_elem in H as (T1 & a & b & T2 & E & [= <- <-] & Hn).
    split; [|split; [done|by exists T1, T2]]. intros ->.
    pose proof (li_nodup _ _ _ _ I) as Hnd. apply NoDup_app in Hnd as [Hnd _].
    assert (HM : M ∈ T) by (rewrite E; clear; set_solver).
    pose proof (linked_self M g T (li_linked _ _ _ _ I) HM Hnd Hn) as Hl.
    rewrite E, last_app_cons, last_cons_cons in Hl. apply last_in in Hl.
    rewrite E in Hnd. apply NoDup_app in Hnd as (_ & _ & Hnd). by apply NoDup_cons in Hnd as [].
Qed.

(** A request passed on by the manager reaches its predecessor. *)
Lemma linv_serve_link q from T1 T2 lk r ms :
  l_msgs g ≡ₚ LReq from q :: ms -> T = T1 ++ q :: from :: T2 -> q <> M -> next g q = q ->
  lk_serve q from (lock_of g q) = Some (lk, r) ->
  exists T', linv M (LState (<[q := lk]> (l_lock g)) (l_wait g) (answer from r ++ ms)) T' W.
Proof.
  intros Hm E HqM Hn Hs. unfold lk_serve in Hs. fold (next g q) in Hs.
  rewrite (li_manager _ _ _ _ I), Hn, Z.eqb_refl, (proj2 (Z.eqb_neq M q)) in Hs by done.
  injection Hs as <- Hr. set (lk := set_lk_next from _). set (g' := LState _ _ _).
  assert (Hnd : NoDup T) by (pose proof (li_nodup _ _ _ _ I) as Hnd; by apply NoDup_app in Hnd as [? _]).
  assert (Hfq : from <> q).
  { intros ->. rewrite E in Hnd. apply NoDup_app in Hnd as (_ & _ & Hnd).
    apply NoDup_cons in Hnd as [Hnd _]. apply Hnd. by left. }
  assert (Hx : forall p, p <> q -> next g' p = next g p) by (intros; by apply next_ne).
  assert (Hq : next g' q = from) by (subst g'; by rewrite next_eq).
  assert (Hl : forall p, lk_manager (lock_of g' p) = lk_manager (lock_of g p) /\
                         lk_tail (lock_of g' p) = lk_tail (lock_of g p) /\
                         lk_held (lock_of g' p) = lk_held (lock_of g p))
    by (intros p; subst g'; at_process q p; done).
  pose proof (linked_arrive M g g' T1 q from T2) as HA. cbn zeta in HA. rewrite <- E in HA.
  destruct (HA (li_linked _ _ _ _ I) Hnd Hn Hq) as (_ & HL & HP); [by auto|].
  pose proof (not_held_self q) as Hnh. destruct I.
  assert (HWq : forall p, p ∈ W -> p <> q).
  { intros p Hp ->. apply NoDup_app in li_nodup0 as (_ & Hd & _). apply (Hd q); [|done].
    rewrite E. clear; set_solver. }
  destruct (lk_held (lock_of g q)) eqn:Hh.
  - exists T. subst r. split; try done.
    + intros p. by destruct (Hl p) as (-> & _).
    + by destruct (Hl M) as (_ & -> & _).
    + intros t Ht Htn. destruct (Hl t) as (_ & _ & ->). destruct (decide (t = q)) as [->|]; [done|].
      rewrite Hx in Htn by done. by apply li_head0.
    + intros p Hp. destruct (Hl p) as (_ & _ & ->). by apply li_held0.
    + intros p Hp. rewrite Hx by (by apply HWq). by apply li_W0.
    + intros p H1 H2. destruct (Hl p) as (_ & _ & ->).
      rewrite Hx by (intros ->; apply H1; rewrite E; clear; set_solver). by apply li_idle0.
    + cbn [l_msgs g' answer app]. apply (Permutation_cons_inv (a := LReq from q)).
      rewrite <- Hm, li_msgs0, HP. change (granting g' T) with (granting g T). solve_Permutation.
  - pose proof (Hnh eq_refl Hn) as Hhd. subst r.
    assert (HT1 : T1 = []).
    { destruct T1 as [|a T1]; [done|]. rewrite E in Hhd. injection Hhd as ->.
      rewrite E, <- app_comm_cons in Hnd. apply NoDup_cons in Hnd as [Hnd _]. destruct Hnd. clear; set_solver. }
    subst T1. rewrite app_nil_l in E. exists (from :: T2). rewrite E in *.
    assert (Hfw : from ∈ l_wait g) by (apply li_queue0; by left).
    assert (Hqw : q ∉ l_wait g) by (intros Hw; rewrite li_held0 in Hh by done; done).
    apply NoDup_cons in li_nodup0 as [Hnq Hnd'].
    split; try done.
    + intros p. by destruct (Hl p) as (-> & _).
    + apply HL.
    + by destruct (Hl M) as (_ & -> & _).
    + intros t [= <-] _. destruct (Hl from) as (_ & _ & ->). by apply li_held0.
    + intros p Hp. destruct (li_waiting0 p Hp) as [Hi|]; [|by right].
      apply elem_of_cons in Hi as [->|]; [done|by left].
    + intros p Hp. apply li_queue0. by right.
    + intros p Hp. destruct (Hl p) as (_ & _ & ->). by apply li_held0.
    + intros p Hp. rewrite Hx by (by apply HWq). by apply li_W0.
    + intros p H1 H2. destruct (Hl p) as (_ & _ & ->). destruct (decide (p = q)) as [->|Hpq].
      * by rewrite Hq.
      * rewrite Hx by done. apply li_idle0; [|done]. by intros [?|?]%elem_of_cons.
    + cbn [l_msgs g' answer app granting]. change (l_wait g') with (l_wait g).
      rewrite (bool_decide_eq_true_2 _ Hfw). apply (Permutation_cons_inv (a := LReq from q)).
      etransitivity; [apply perm_swap|]. rewrite <- Hm, li_msgs0, HP.
      cbn [granting]. rewrite bool_decide_eq_false_2 by done.
      rewrite (pending_cons g'), Hq, (proj2 (Z.eqb_neq from q)) by done. cbn [app]. solve_Permutation.
Qed.

(** A request reaches the manager. *)
Section AtManager.
Context (from : Z) (W' : list Z) (lk : lock) (ms : list lmsg).
Let g' := LState (<[M := lk]> (l_lock g)) (l_wait g) ms.
Context (HW : W ≡ₚ from :: W') (Hlt : lk_tail lk = from).
Context (Hlm : lk_manager lk = M) (Hlh : lk_held lk = lk_held (lock_of g M)).

Lemma from_facts : from <> M /\ next g from = from /\ from ∉ T /\ from ∈ l_wait g /\ NoDup (T ++ from :: W').
Proof.
  assert (Hin : from ∈ W) by (rewrite HW; by left).
  destruct (li_W _ _ _ _ I from Hin) as [? ?]. pose proof (li_nodup _ _ _ _ I) as Hnd.
  split_and!; [done|done| | |].
  - intros Hf. apply NoDup_app in Hnd as (_ & Hnd & _). by apply (Hnd from).
  - apply (li_queue _ _ _ _ I). apply elem_of_app. by right.
  - by rewrite HW in Hnd.
Qed.

Lemma manager_fields p :
  lk_manager (lock_of g' p) = M /\ lk_held (lock_of g' p) = lk_held (lock_of g p) /\
  (p <> M -> next g' p = next g p).
Proof.
  subst g'. at_process M p; [done|]. split_and!; [apply (li_manager _ _ _ _ I)|done|done].
Qed.

(** It joins the end of the queue. *)
Lemma linv_join :
  linked M g' (T ++ [from]) ->
  (next g M = M -> lk_held lk = true) -> (M ∉ T -> lk_next lk = next g M) ->
  ms ≡ₚ granting g T ++ pending g' (T ++ [from]) ++ ((fun p => LReq p M) <$> W') ->
  linv M g' (T ++ [from]) W'.
Proof.
  intros HL Hh Hk Hms. destruct from_facts as (Hf & Hn & HfT & Hfw & Hnd).
  pose proof manager_fields as HF. destruct head_cons as (t & T' & E). destruct I.
  split; try done.
  - by rewrite <- app_assoc.
  - intros p. apply HF.
  - rewrite last_snoc. subst g'. by rewrite lock_of_eq, Hlt.
  - intros t0 Ht Htn. assert (Ht' : head T = Some t0) by (rewrite E in Ht |- *; done).
    destruct (HF t0) as (_ & -> & Hx). destruct (decide (t0 = M)) as [->|Hne].
    + destruct (decide (next g M = M)); [by rewrite <- Hlh, Hh|by apply li_head0].
    + rewrite Hx in Htn by done. by apply li_head0.
  - intros p Hp. specialize (li_waiting0 p Hp). rewrite HW in li_waiting0. clear -li_waiting0. set_solver.
  - intros p Hp. apply li_queue0. rewrite E in Hp |- *. rewrite HW. clear -Hp. set_solver.
  - intros p Hp. destruct (HF p) as (_ & -> & _). by apply li_held0.
  - intros p Hp. assert (Hp' : p ∈ W) by (rewrite HW; by right). destruct (li_W0 p Hp') as [H1 H2].
    destruct (HF p) as (_ & _ & ->); done.
  - intros p H1 H2. assert (HpW : p ∉ W) by (rewrite HW; clear -H1 H2; set_solver).
    assert (HpT : p ∉ T) by (clear -H1; set_solver). destruct (li_idle0 p HpT HpW) as [H3 H4].
    destruct (HF p) as (_ & -> & Hx). split; [done|]. destruct (decide (p = M)) as [->|]; [|by rewrite Hx].
    subst g'. rewrite next_eq. by rewrite Hk.
  - cbn [l_msgs g']. rewrite Hms. rewrite E. done.
Qed.

(** The manager itself had the token and was not using it. *)
Lemma linv_grant_at_once :
  next g M = M -> lk_held (lock_of g M) = false -> lk_next lk = from ->
  ms ≡ₚ LGrant from :: pending g T ++ ((fun p => LReq p M) <$> W') -> linv M g' [from] W'.
Proof.
  intros Hn Hh Hk Hms. destruct from_facts as (Hf & Hnf & HfT & Hfw & Hnd).
  pose proof manager_fields as HF. pose proof (not_held_self M Hh Hn) as Hhd.
  assert (E : T = [M]).
  { destruct head_cons as (t & T' & E). rewrite E in Hhd. injection Hhd as ->.
    pose proof (linked_self M g T (li_linked _ _ _ _ I)) as Hl. rewrite E in *.
    apply NoDup_app in Hnd as (Hnd & _). specialize (Hl ltac:(by left) Hnd Hn).
    apply NoDup_cons in Hnd as [Hnm _]. destruct T' as [|b T']; [done|].
    rewrite last_cons_cons in Hl. by apply last_in in Hl. }
  assert (HMw : M ∉ l_wait g) by (intros Hw; rewrite (li_held _ _ _ _ I) in Hh by done; done).
  destruct I. rewrite E in *. split; try done.
  - by apply NoDup_cons in Hnd as [_ ?].
  - intros p. apply HF.
  - cbn. destruct (HF from) as (_ & _ & ->); done.
  - subst g'. by rewrite lock_of_eq, Hlt.
  - intros t [= <-]. destruct (HF from) as (_ & _ & ->); done.
  - intros p Hp. specialize (li_waiting0 p Hp). rewrite HW in li_waiting0.
    assert (p <> M) by (by intros ->). clear -li_waiting0 H. set_solver.
  - intros p Hp. apply li_queue0. rewrite HW. by right.
  - intros p Hp. destruct (HF p) as (_ & -> & _). by apply li_held0.
  - intros p Hp. assert (Hp' : p ∈ W) by (rewrite HW; by right). destruct (li_W0 p Hp') as [H1 H2].
    destruct (HF p) as (_ & _ & ->); done.
  - intros p H1 H2. destruct (HF p) as (_ & -> & Hx). destruct (decide (p = M)) as [->|Hp].
    + subst g'. rewrite next_eq, Hk. done.
    + rewrite Hx by done. apply li_idle0; [by intros ?%list_elem_of_singleton|].
      rewrite HW. clear -H1 H2. set_solver.
  - cbn [l_msgs g' granting]. change (l_wait g') with (l_wait g).
    rewrite (bool_decide_eq_true_2 _ Hfw), Hms. done.
Qed.
End AtManager.

(** The head's grant does not depend on the end of the queue. *)
Lemma linv_serve_manager from lk r ms :
  l_msgs g ≡ₚ LReq from M :: ms -> from ∈ W ->
  lk_serve M from (lock_of g M) = Some (lk, r) ->
  exists T' W', linv M (LState (<[M := lk]> (l_lock g)) (l_wait g) (answer from r ++ ms)) T' W'.
Proof.
  intros Hm [W' HW]%elem_of_Permutation Hs. unfold lk_serve in Hs. fold (next g M) in Hs.
  pose proof (li_manager _ _ _ _ I M) as HM. pose proof (li_tail _ _ _ _ I) as Ht.
  destruct (from_facts from W' HW) as (Hf & Hn & HfT & Hfw & Hnd). apply NoDup_app in Hnd as (Hnd & _).
  assert (Hms : ms ≡ₚ granting g T ++ pending g T ++ ((fun p => LReq p M) <$> W')).
  { apply (Permutation_cons_inv (a := LReq from M)). rewrite <- Hm, (li_msgs _ _ _ _ I), HW. cbn.
    solve_Permutation. }
  rewrite HM, Z.eqb_refl in Hs. destruct (Z.eqb_spec (next g M) M) as [Hs0|Hs0]; injection Hs as <- <-.
  - destruct (lk_held (lock_of g M)) eqn:Hh.
    + exists (T ++ [from]), W'. set (g' := LState _ _ _).
      destruct (linked_snoc_link M g g' T M from) as [HL HP]; try done.
      * apply (li_linked _ _ _ _ I).
      * apply linked_self with g; [apply (li_linked _ _ _ _ I)| |done|done].
        pose proof (not_waiting_T). destruct (decide (M ∈ T)); [done|].
        destruct (li_idle _ _ _ _ I M) as [? _]; [done| |congruence].
        intros Hw. by apply (li_W _ _ _ _ I) in Hw as [].
      * subst g'. by rewrite next_eq.
      * subst g'. by rewrite next_ne.
      * intros p _ Hp. by apply next_ne.
      * apply linv_join; try done.
        -- intros HnT. destruct (li_idle _ _ _ _ I M) as [? _]; [done| |congruence].
           intros Hw. by apply (li_W _ _ _ _ I) in Hw as [].
        -- fold g'. rewrite HP. done.
    + exists [from], W'. apply linv_grant_at_once; try done.
      cbn [answer app]. rewrite Hms. pose proof (not_held_self M Hh Hs0) as Hhd.
      assert (Hw : M ∉ l_wait g) by (intros Hw; rewrite (li_held _ _ _ _ I) in Hh by done; done).
      destruct head_cons as (t & T' & E). rewrite E in Hhd |- *. injection Hhd as ->. cbn [granting].
      rewrite bool_decide_eq_false_2 by done. done.
  - exists (T ++ [from]), W'. set (g' := LState _ _ _).
    assert (Hx : forall p, next g' p = next g p) by (intros p; subst g'; at_process M p; done).
    destruct (linked_snoc M g' T (lk_tail (lock_of g M)) from) as [HL HP]; try done.
    + eapply linked_ext; [|apply (li_linked _ _ _ _ I)]. done.
    + intros E. rewrite E in Ht. apply Hs0. by eapply linked_last; [apply (li_linked _ _ _ _ I)|].
    + by rewrite Hx.
    + apply linv_join; try done. fold g'. rewrite HP, (pending_ext g) by done.
      cbn [answer app]. rewrite Hms. solve_Permutation.
Qed.
End Steps.

(** ** Every reachable state *)
Lemma linv_step M g g' T W : linv M g T W -> lstep g g' -> exists T' W', linv M g' T' W'.
Proof.
  intros I Hs. destruct Hs.
  - exists T, W. by apply linv_reenter.
  - by eapply linv_request.
  - destruct (request_place M g T W I from q) as [[-> HW]|(Hq & Hn & T1 & T2 & E)].
    { rewrite H. by left. }
    + by eapply linv_serve_manager.
    + destruct (linv_serve_link M g T W I q from T1 T2 lk r ms) as [T' I']; eauto.
  - exists T, W. by eapply linv_grant.
  - destruct (linv_release M g T W I p lk to) as [T' I']; eauto.
Qed.

Lemma reachable_inv M g : reachable M g -> exists T W, linv M g T W.
Proof.
  induction 1 as [g H Hw Hm|g g' _ (T & W & I) Hs].
  - exists [0], []. by apply linv_init.
  - by eapply linv_step.
Qed.

Lemma in_section_head M g T W p : linv M g T W -> in_section g p -> head T = Some p.
Proof.
  intros I [Hh Hw]. eapply not_waiting_T; [done| |done].
  destruct (decide (p ∈ T)) as [|H1]; [done|]. destruct (decide (p ∈ W)) as [HW|H2].
  - destruct Hw. apply (li_queue _ _ _ _ I). apply elem_of_app. by right.
  - rewrite (proj1 (li_idle _ _ _ _ I p H1 H2)) in Hh. done.
Qed.

(** The deliveries: the steps of the network alone. *)
Inductive delivery : lstate -> lstate -> Prop :=
  | deliver_request g ms q from lk r :
      l_msgs g ≡ₚ LReq from q :: ms ->
      lk_serve q from (lock_of g q) = Some (lk, r) ->
      delivery g (LState (<[q := lk]> (l_lock g)) (l_wait g) (answer from r ++ ms))
  | deliver_grant g ms p :
      l_msgs g ≡ₚ LGrant p :: ms ->
      delivery g (LState (l_lock g) (l_wait g ∖ {[p]}) ms).

Definition hops_of (M : Z) (m : lmsg) : nat :=
  match m with LReq _ to => if to =? M then 3 else 2 | LGrant _ => 1 end.

(** The messages that the requests in flight can still take. *)
Definition hops (M : Z) (ms : list lmsg) : nat := foldr (fun m n => hops_of M m + n)%nat O ms.

Lemma hops_perm M ms ms' : ms ≡ₚ ms' -> hops M ms = hops M ms'.
Proof. unfold hops. induction 1; cbn; lia. Qed.

Lemma forwarded_not_manager M g T W from lk to :
  linv M g T W -> lk_serve M from (lock_of g M) = Some (lk, Forwarded to) -> to <> M.
Proof.
  intros I Hs. unfold lk_serve in Hs. rewrite (li_manager _ _ _ _ I), Z.eqb_refl in Hs.
  destruct (Z.eqb_spec (lk_next (lock_of g M)) M) as [|Hn].
  - injection Hs. by destruct (lk_held _).
  - injection Hs as _ <-. intros E. pose proof (li_tail _ _ _ _ I) as Ht. rewrite E in Ht.
    apply Hn. by eapply linked_last; [apply (li_linked _ _ _ _ I)|].
Qed.

(** *** An example: process 2 asks the manager 1, which asks 0 *)
Definition ex_start : lstate := LState (fun _ => Lock 1 0 false 0 0 0 ∅) ∅ [].
Definition ex_asked : lstate :=
  LState (<[2 := fst (lk_request 2 (lock_of ex_start 2))]> (l_lock ex_start)) ({[2]} ∪ ∅) [LReq 2 1].

Lemma ex_asked_reachable : reachable 1 ex_asked.
Proof.
  eapply reach_step; [apply (reach_init 1 ex_start)|apply (step_request ex_start 2 _ 1)]; try done.
Qed.

Definition ex_passed : lstate :=
  LState (<[1 := set_lk_tail 2 (lock_of ex_asked 1)]> (l_lock ex_asked)) (l_wait ex_asked) [LReq 2 0].

Lemma ex_passed_reachable : reachable 1 ex_passed.
Proof. eapply reach_step; [apply ex_asked_reachable|]. by apply (step_serve ex_asked [] 1 2 _ (Forwarded 0)). Qed.

Definition ex_granted : lstate :=
  LState (<[0 := set_lk_next 2 (lock_of ex_passed 0)]> (l_lock ex_passed)) (l_wait ex_passed) [LGrant 2].

Lemma ex_granted_reachable : reachable 1 ex_granted.
Proof. eapply reach_step; [apply ex_passed_reachable|]. by apply (step_serve ex_passed [] 0 2 _ Granted). Qed.

Definition ex_busy : lstate := LState (l_lock ex_granted) (l_wait ex_granted ∖ {[2]}) [].

Lemma ex_busy_reachable : reachable 1 ex_busy.
Proof. eapply reach_step; [apply ex_granted_reachable|]. by apply (step_grant ex_granted []). Qed.

(** Process 3 then asks too, and its request reaches 2. *)
Definition ex_asked2 : lstate :=
  LState (<[3 := fst (lk_request 3 (lock_of ex_busy 3))]> (l_lock ex_busy))
    ({[3]} ∪ l_wait ex_busy) [LReq 3 1].
Definition ex_passed2 : lstate :=
  LState (<[1 := set_lk_tail 3 (lock_of ex_asked2 1)]> (l_lock ex_asked2)) (l_wait ex_asked2) [LReq 3 2].
Definition ex_queued : lstate :=
  LState (<[2 := set_lk_next 3 (lock_of ex_passed2 2)]> (l_lock ex_passed2)) (l_wait ex_passed2) [].

Lemma ex_queued_reachable : reachable 1 ex_queued.
Proof.
  apply reach_step with ex_passed2; [apply reach_step with ex_asked2;
    [apply reach_step with ex_busy; [apply ex_busy_reachable|]|]|].
  - by apply (step_request ex_busy 3 _ 1).
  - by apply (step_serve ex_asked2 [] 1 3 _ (Forwarded 2)).
  - by apply (step_serve ex_passed2 [] 2 3 _ Queued).
Qed.

(** ** The properties *)

(** C3: In every reachable state of the processes that run
    [Tmk_lock_acquire], [Tmk_lock_release] and [Tmk_lock_sigio_handler], with
    requests and grants in flight in any order, at most one process is in its
    critical section. *)
Theorem mutual_exclusion M g p q :
  reachable M g -> in_section g p -> in_section g q -> p = q.
Proof.
  intros (T & W & I)%reachable_inv Hp Hq.
  apply (in_section_head M g T W p I) in Hp. apply (in_section_head M g T W q I) in Hq. congruence.
Qed.

Lemma mutual_exclusion_witness :
  in_section ex_busy 2 /\ forall p, in_section ex_busy p -> p = 2.
Proof.
  assert (H : in_section ex_busy 2) by (split; [done|set_solver]).
  split; [exact H|]. intros p Hp. exact (mutual_exclusion 1 ex_busy p 2 ex_busy_reachable Hp H).
Defined.

(** The call of [Tmk_errexit] in [Tmk_lock_sigio_handler] is never
    reached: every request that arrives in a reachable state is granted,
    queued or, by the manager, passed on. *)
Theorem request_never_fails M g from q :
  reachable M g -> LReq from q ∈ l_msgs g -> is_Some (lk_serve q from (lock_of g q)).
Proof.
  intros (T & W & I)%reachable_inv Hm. unfold lk_serve.
  destruct (request_place M g T W I from q Hm) as [[-> _]|(_ & Hn & _)].
  - rewrite (li_manager _ _ _ _ I), Z.eqb_refl. by destruct (_ =? _).
  - unfold next in Hn. rewrite Hn, Z.eqb_refl. done.
Qed.

Lemma request_never_fails_witness : is_Some (lk_serve 0 2 (lock_of ex_passed 0)).
Proof. apply (request_never_fails 1 ex_passed); [apply ex_passed_reachable|by left]. Defined.

(** C20: No deadlock: when a process waits for the lock and no message is in
    flight, some process is in its critical section, and its release sends the
    token to a process that waits. *)
Theorem release_wakes_waiter M g p :
  reachable M g -> p ∈ l_wait g -> l_msgs g = [] ->
  exists q r, in_section g q /\ snd (lk_release q (lock_of g q)) = Some r /\ r ∈ l_wait g.
Proof.
  intros (T & W & I)%reachable_inv Hp Hm. pose proof (li_msgs _ _ _ _ I) as H. rewrite Hm in H.
  destruct (head_cons M g T W I) as (t & T' & E). apply Permutation_nil in H.
  rewrite E in H. cbn [granting] in H. case_bool_decide as Ht; [done|].
  apply app_eq_nil in H as [_ [HP HW]%app_eq_nil]. apply fmap_nil_inv in HW as ->.
  assert (HpT : p ∈ T') by (destruct (li_waiting _ _ _ _ I p Hp) as [Hi|Hi];
    [rewrite E in Hi; apply elem_of_cons in Hi as [->|]; done|by apply elem_of_nil in Hi]).
  destruct T' as [|b T']; [by apply elem_of_nil in HpT|].
  pose proof (li_linked _ _ _ _ I) as HL. rewrite E in HL. destruct HL as [HL _].
  rewrite pending_cons in HP. apply app_eq_nil in HP as [HP _].
  destruct (Z.eqb_spec (next g t) t) as [|Hn]; [done|]. destruct HL as [Hb|[]]; [|done].
  assert (Hr : b ∈ l_wait g) by (apply (li_queue _ _ _ _ I); rewrite E; by left).
  exists t, b. split_and!; [split; [|done]| |done].
  - apply (li_head _ _ _ _ I); [by rewrite E|done].
  - unfold lk_release. fold (next g t). by rewrite (proj2 (Z.eqb_neq _ _) Hn), Hb.
Qed.

Lemma release_wakes_waiter_witness :
  exists q r, in_section ex_queued q /\ snd (lk_release q (lock_of ex_queued q)) = Some r /\
    r ∈ l_wait ex_queued.
Proof. apply (release_wakes_waiter 1 ex_queued 3); [apply ex_queued_reachable|set_solver|done]. Defined.

(** A request takes at most three messages: each delivery lowers a measure
    that counts three for a request on its way to the manager, two for one
    passed on to a process and one for a grant; so the deliveries of any
    reachable state come to an end. *)
Theorem delivery_terminates M g g' :
  reachable M g -> delivery g g' -> (hops M (l_msgs g') < hops M (l_msgs g))%nat.
Proof.
  intros (T & W & I)%reachable_inv Hd. destruct Hd as [g ms q from lk r Hm Hs|g ms p Hm];
    rewrite (hops_perm M _ _ Hm); cbn [l_msgs]; [|unfold hops; cbn; lia].
  assert (Hmsg : LReq from q ∈ l_msgs g) by (rewrite Hm; by left).
  destruct (request_place M g T W I from q Hmsg) as [[-> _]|(Hq & Hn & _)]; unfold hops; cbn.
  - rewrite Z.eqb_refl. destruct r as [| |to]; cbn; [lia..|].
    pose proof (forwarded_not_manager M g T W from lk to I Hs) as Hto.
    rewrite (proj2 (Z.eqb_neq _ _) Hto). lia.
  - unfold next in Hn. unfold lk_serve in Hs. rewrite Hn, Z.eqb_refl in Hs. injection Hs as _ <-.
    destruct (q =? M); destruct (lk_held (lock_of g q)); cbn; lia.
Qed.

Lemma delivery_terminates_witness : (hops 1 (l_msgs ex_passed) < hops 1 (l_msgs ex_asked))%nat.
Proof.
  apply delivery_terminates; [apply ex_asked_reachable|].
  by apply (deliver_request ex_asked [] 1 2 _ (Forwarded 0)).
Defined.
