(* ===== verification/LockRefine.v ===== *)
(** * The operations of [lock.c] follow the lock protocol

    [Tmk_lock_sigio_handler], [Tmk_lock_release] and [Tmk_lock_acquire] change
    the record of one lock and send messages exactly as [lk_serve],
    [lk_release] and [lk_request] of [LockProtocol.v] say, and the grants they
    send carry the intervals the new holder lacks. *)
From S2P Require Import Prelude Pages State Rpc PageSets Interval IntervalCreate Lock LockProtocol.
Local Open Scope Z_scope.

Definition lock_id_ok (id : Z) : Prop := 0 <= id < NLOCKS.

Definition the_lock (id : Z) (s : node) : lock := n_locks s !!! id.
Definition self_of (s : node) : Z := proc_id (n_conf s).
Definition now_of (s : node) : Z := vt_get (n_vt s) (self_of s).

Lemma id_test id : lock_id_ok id -> (0 <=? id) && (id <? NLOCKS) = true /\ (id <? NLOCKS) = true.
Proof. unfold lock_id_ok. lia. Qed.

Lemma lock_at_run id s : lock_id_ok id -> lock_at id s = Ok (the_lock id s, s).
Proof. intros [H _]%id_test. unfold lock_at. by rewrite H. Qed.

Lemma set_lock_run id f s : lock_id_ok id ->
  set_lock id f s = Ok (tt, set_n_locks (<[id := f (the_lock id s)]> (n_locks s)) s).
Proof. intros [H _]%id_test. unfold set_lock. by rewrite H. Qed.

Lemma the_lock_set id lk m s : the_lock id (set_n_locks (<[id := lk]> m) s) = lk.
Proof. unfold the_lock. apply lookup_total_insert_eq. Qed.

(** What ending the interval leaves alone. *)
Record interval_ended (n : Z) (S : sets) (s s' : node) : Prop := {
  ie_spec : create_spec n VtProc S s s';
  ie_locks : n_locks s' = n_locks s;
  ie_out : n_out s' = n_out s;
  ie_it : n_it s' = n_it s;
  ie_rep_seqno : n_rep_seqno s' = n_rep_seqno s;
  ie_lock_vt : n_lock_vt s' = n_lock_vt s;
  ie_self : self_of s' = self_of s;
  ie_waitq : n_waitq s' = n_waitq s
}.

Lemma end_interval n S s : lists n (n_pages s) S ->
  exists s', Tmk_interval_create VtProc s = Ok (tt, s') /\ interval_ended n S s s'.
Proof.
  intros Hl. destruct (interval_create_spec n VtProc S s) as (s' & Hrun & Hs); [done..|].
  exists s'. split; [done|]. pose proof (cs_fields _ _ _ _ _ Hs) as Hf.
  assert (E : exists v, other_fields s' = other_fields (set_n_vt v s)).
  { destruct (decide (S.2 = ∅)); [exists (n_vt s); by destruct s|by eexists]. }
  destruct E as [v E]. pose proof (cs_conf _ _ _ _ _ Hs) as Hc. split; try done.
  - exact (f_equal n_locks E).
  - exact (f_equal n_out E).
  - exact (f_equal n_it E).
  - exact (f_equal n_rep_seqno E).
  - exact (f_equal n_lock_vt E).
  - unfold self_of. by rewrite Hc.
  - exact (f_equal n_waitq E).
Qed.

(** The state from which a grant is made: the interval is ended when no
    interval has begun since the release ([lk_time]), as the code has it. *)
Definition grant_from (n : Z) (S : sets) (ends : bool) (s s1 : node) : Prop :=
  if ends then interval_ended n S s s1 else s1 = s.

Ltac runs := unfold mbind, M_bind; cbn [gets modify me skip when get mret M_ret exit_with].

(** Granting: what the handler and the release share. *)
Definition granted (s1 s' : node) (id to seqno : Z) (vt : vtime) (lk : lock) : Prop :=
  n_locks s' = <[id := set_lk_release_seqno seqno lk]> (n_locks s1) /\
  n_out s' = n_out s1 ++ [SendRep to (Reply seqno (Tmk_interval_request s1 vt))] /\
  n_it s' = vt_set to (now_of s1) (n_it s1) /\
  n_procs s' = n_procs s1 /\ n_vt s' = n_vt s1 /\ n_pages s' = n_pages s1 /\
  n_waitq s' = n_waitq s1 /\ n_conf s' = n_conf s1.

(** ** The handler *)
Definition serve_outcome (n : Z) (S : sets) (r : request) (s : node) (lk' : lock) (re : reaction)
    (s' : node) : Prop :=
  let id := rq_id r in
  match re with
  | Granted => exists s1,
      grant_from n S (lk_time (the_lock id s) =? now_of s) s s1 /\
      granted s1 s' id (rq_from r) (rq_seqno r) (rq_vt r) lk'
  | Queued => n_locks s' = <[id := lk']> (n_locks s) /\ n_out s' = n_out s /\
      n_lock_vt s' !! rq_from r = Some (rq_vt r) /\
      n_pages s' = n_pages s /\ n_waitq s' = n_waitq s /\ n_conf s' = n_conf s
  | Forwarded to => n_locks s' = <[id := lk']> (n_locks s) /\
      n_out s' = n_out s ++ [SendReq to (as_req_syn r)] /\
      n_tail_ s' = vt_set (rq_from r) to (n_tail_ s) /\
      n_pages s' = n_pages s /\ n_waitq s' = n_waitq s /\ n_conf s' = n_conf s
  end.

Lemma maybe_end n S s (b : bool) : lists n (n_pages s) S ->
  exists s1, when b (Tmk_interval_create VtProc) s = Ok (tt, s1) /\ grant_from n S b s s1 /\
    n_locks s1 = n_locks s /\ n_it s1 = n_it s /\ self_of s1 = self_of s.
Proof.
  intros Hl. destruct b.
  - destruct (end_interval n S s Hl) as (s1 & Hrun & I). exists s1. destruct I. split_and!; try done.
  - by exists s.
Qed.

Lemma serve_next id lk r s :
  lock_id_ok id ->
  (set_lock id (set_lk_next (rq_from r));; when (lk_manager lk =? self_of s) (set_lock id (set_lk_tail (rq_from r)))) s =
  Ok (tt, set_n_locks (<[id := (if lk_manager lk =? self_of s then set_lk_tail (rq_from r) else fun x => x)
    (set_lk_next (rq_from r) (the_lock id s))]> (n_locks s)) s).
Proof.
  intros Hid. rewrite (bind_Ok _ _ _ _ _ (set_lock_run id _ s Hid)). destruct (_ =? _); [|done].
  cbn [when]. rewrite set_lock_run by done. rewrite the_lock_set. cbn [n_locks set_n_locks].
  by rewrite insert_insert_eq.
Qed.

(** [lock->release_seqno = rep.seqno = seqno; send(...); inverse_time_[to] = ...] *)
Definition grant_state (id to seqno : Z) (vt : vtime) (s1 : node) : node :=
  let s2 := set_n_locks (<[id := set_lk_release_seqno seqno (the_lock id s1)]> (n_locks s1)) s1 in
  let s3 := set_n_out (n_out s2 ++ [SendRep to (Reply seqno (Tmk_interval_request s1 vt))]) s2 in
  set_n_it (vt_set to (now_of s1) (n_it s1)) s3.

Lemma grant_run id to seqno vt s1 : lock_id_ok id ->
  (set_lock id (set_lk_release_seqno seqno);; send_intervals to seqno vt;; set_inverse to) s1 =
  Ok (tt, grant_state id to seqno vt s1).
Proof. intros Hid. rewrite (bind_Ok _ _ _ _ _ (set_lock_run _ _ s1 Hid)). done. Qed.

Lemma lock_handler_run n S r s :
  lock_id_ok (rq_id r) -> lists n (n_pages s) S ->
  match lk_serve (self_of s) (rq_from r) (the_lock (rq_id r) s) with
  | Some (lk', re) => exists s',
      Tmk_lock_sigio_handler r s = Ok (tt, s') /\ serve_outcome n S r s lk' re s'
  | None => exists w, Tmk_lock_sigio_handler r s = Exit w
  end.
Proof.
  intros Hid Hl. unfold lk_serve, Tmk_lock_sigio_handler.
  rewrite (bind_Ok me _ s (self_of s) s eq_refl), (bind_Ok _ _ _ _ _ (lock_at_run _ s Hid)).
  set (lk := the_lock (rq_id r) s). destruct (lk_next lk =? self_of s).
  - destruct (lk_held lk); cbn [negb].
    + eexists. split.
      * rewrite (bind_Ok (modify _) _ s tt _ eq_refl).
        apply (serve_next _ lk r (set_n_lock_vt _ s) Hid).
      * cbn. fold lk. split_and!; [by destruct (_ =? _)|done|apply lookup_insert_eq|done..].
    + destruct (maybe_end n S s (lk_time lk =? now_of s) Hl) as (s1 & Hrun & Hg & Hlk & Hit & Hse).
      set (s2 := grant_state (rq_id r) (rq_from r) (rq_seqno r) (rq_vt r) s1).
      eexists. split.
      * rewrite (bind_Ok _ _ s tt s2); [rewrite <- Hse; apply (serve_next _ lk r s2 Hid)|].
        rewrite (bind_Ok (gets (fun s' => vt_get (n_vt s') (self_of s))) _ s (now_of s) s eq_refl), (bind_Ok _ _ _ _ _ Hrun).
        by apply grant_run.
      * exists s1. split; [done|]. subst s2. unfold granted, the_lock. cbn.
        rewrite lookup_total_insert_eq, insert_insert_eq. unfold the_lock. rewrite Hlk. fold lk.
        change (self_of (grant_state _ _ _ _ s1)) with (self_of s1). rewrite Hse.
        split_and!; try done. by destruct (lk_manager lk =? self_of s).
  - destruct (lk_manager lk =? self_of s) eqn:Em; [|by eexists].
    eexists. split.
    + rewrite (bind_Ok (send_req _ _) _ s tt _ eq_refl), (bind_Ok (modify _) _ _ tt _ eq_refl).
      by apply set_lock_run.
    + done.
Qed.

(** C10: [Tmk_lock_sigio_handler] refines [lk_serve]: it always returns or
    exits, it exits exactly when [lk_serve] has no result, and otherwise it
    updates the lock's record as [lk_serve] says and sends exactly the grant or
    the forwarded request it says; a grant carries the intervals the requester
    lacks, after the current interval has been ended where the last release
    did not end it. *)
Theorem lock_handler_refines n S r s :
  lock_id_ok (rq_id r) -> lists n (n_pages s) S ->
  match lk_serve (self_of s) (rq_from r) (the_lock (rq_id r) s) with
  | Some (lk', re) => exists s',
      Tmk_lock_sigio_handler r s = Ok (tt, s') /\ serve_outcome n S r s lk' re s'
  | None => exists w, Tmk_lock_sigio_handler r s = Exit w
  end.
Proof. apply lock_handler_run. Qed.

(** ** Releasing *)

Lemma lock_release_run n S id s :
  lock_id_ok id -> lists n (n_pages s) S -> lk_held (the_lock id s) = true ->
  let '(lk', to) := lk_release (self_of s) (the_lock id s) in
  exists s', Tmk_lock_release id s = Ok (tt, s') /\
  match to with
  | Some q => exists s1,
      interval_ended n S (set_n_locks (<[id := lk']> (n_locks s)) s) s1 /\
      granted s1 s' id q (default 0 (n_rep_seqno s !! q)) (default vt_zero (n_lock_vt s !! q)) lk'
  | None => s' = set_n_locks (<[id := set_lk_time (now_of s) lk']> (n_locks s)) s
  end.
Proof.
  intros Hid Hl Hh. unfold lk_release, Tmk_lock_release. destruct (id_test id Hid) as [_ ->].
  rewrite (bind_Ok _ _ _ _ _ (lock_at_run _ s Hid)), Hh, (bind_Ok me _ s (self_of s) s eq_refl),
    (bind_Ok _ _ _ _ _ (set_lock_run _ _ s Hid)).
  set (lk := the_lock id s). set (s0 := set_n_locks _ s). cbv zeta.
  destruct (lk_next lk =? self_of s); cbn [negb].
  - eexists. split.
    + rewrite (bind_Ok (gets (fun s' => vt_get (n_vt s') (self_of s))) _ s0 (now_of s) s0 eq_refl).
      by apply set_lock_run.
    + subst s0. rewrite the_lock_set. cbn [n_locks set_n_locks]. by rewrite insert_insert_eq.
  - destruct (end_interval n S s0 Hl) as (s1 & Hrun & I). eexists. split.
    + rewrite (bind_Ok _ _ _ _ _ Hrun).
      rewrite (bind_Ok (gets _) _ s1 _ s1 eq_refl), (bind_Ok _ _ _ _ _ (set_lock_run _ _ s1 Hid)).
      rewrite (bind_Ok (gets _) _ _ _ _ eq_refl). done.
    + exists s1. split; [exact I|]. destruct I. unfold granted. cbn.
      rewrite ie_rep_seqno0, ie_lock_vt0. split_and!; try done.
      unfold the_lock. rewrite ie_locks0. subst s0. cbn [n_locks set_n_locks].
      by rewrite lookup_total_insert_eq.
Qed.

(** [Tmk_lock_release] of a held lock refines [lk_release]: it returns,
    clears [held], and when the token has a next process it ends the current
    interval and sends that process the intervals it asked for, in answer to
    its last request; otherwise it only notes the time. *)
Theorem lock_release_refines n S id s :
  lock_id_ok id -> lists n (n_pages s) S -> lk_held (the_lock id s) = true ->
  let '(lk', to) := lk_release (self_of s) (the_lock id s) in
  exists s', Tmk_lock_release id s = Ok (tt, s') /\
  match to with
  | Some q => exists s1,
      interval_ended n S (set_n_locks (<[id := lk']> (n_locks s)) s) s1 /\
      granted s1 s' id q (default 0 (n_rep_seqno s !! q)) (default vt_zero (n_lock_vt s !! q)) lk'
  | None => s' = set_n_locks (<[id := set_lk_time (now_of s) lk']> (n_locks s)) s
  end.
Proof. apply lock_release_run. Qed.

(** ** Acquiring *)

(** What [Tmk_lock_acquire] does with the reply. *)
Definition take_grant {signals : Signals} (r : reply) : Proc unit :=
  bump st_bytes set_st_bytes (reply_bytes r);;
  bump st_messages_for_acquires set_st_messages_for_acquires 1;;
  Tmk_interval_incorporate (rp_data r) VtLocal.

Definition acquire_request (self id seqno : Z) (vt : vtime) : request :=
  Request seqno self REQ_LOCK (u16 id) vt [].

Lemma send_await_run {signals : Signals} {B} seqno send recvd (k : reply -> Proc B) s s1 :
  send s = Ok (tt, s1) ->
  (send_await seqno send recvd ≫= k) s = (await (n_events s1) false true seqno send recvd ≫= k) s1.
Proof. intros H. unfold send_await, mbind, M_bind. by rewrite H. Qed.

Lemma await_grant {signals : Signals} id from s1 :
  let self := self_of s1 in
  let seqno := u32 (n_req_seqno s1 + SEQNO_INCR) in
  exists s2 resend,
    (seqno ← next_seqno;
     r ← send_await seqno (send_syn from seqno REQ_LOCK id [];; save_vt) discard;
     take_grant r) s1 =
    (await (n_events s1) false true seqno resend discard ≫= take_grant) s2 /\
    n_locks s2 = n_locks s1 /\ n_req_seqno s2 = seqno /\ n_local_vt s2 = n_vt s1 /\
    n_out s2 = n_out s1 ++ [SendReq from (acquire_request self id seqno (n_vt s1))] /\
    forall s3, self_of s3 = self -> exists s4, resend s3 = Ok (tt, s4) /\
      n_out s4 = n_out s3 ++ [SendReq from (acquire_request self id seqno (n_vt s3))].
Proof.
  intros self seqno. do 2 eexists. split; [|split_and!].
  - rewrite (bind_Ok next_seqno _ s1 seqno _ eq_refl).
    etransitivity; [apply send_await_run; reflexivity|reflexivity].
  - done.
  - done.
  - done.
  - done.
  - intros s3 E. eexists. split; [reflexivity|]. cbn. fold (self_of s3). by rewrite E.
Qed.

(** [Tmk_lock_acquire] refines [lk_request]: of a held lock it is an
    error; when the token is here the lock is taken without a message; else
    the record changes as [lk_request] says, a request with a fresh sequence
    number and the vector time goes to the process it says, and the process
    waits for the reply with that number, resending that request, and then
    incorporates its intervals. *)
Theorem lock_acquire_refines {signals : Signals} id s :
  lock_id_ok id ->
  let lk := the_lock id s in
  if lk_held lk then exists w, Tmk_lock_acquire id s = Exit w
  else if lk_next lk =? self_of s then exists s',
    Tmk_lock_acquire id s = Ok (tt, s') /\ n_out s' = n_out s /\
    n_locks s' = <[id := set_lk_held true lk]> (n_locks s)
  else let '(lk', to) := lk_request (self_of s) lk in
    let seqno := u32 (n_req_seqno s + SEQNO_INCR) in
    exists s1 resend,
      Tmk_lock_acquire id s = (await (n_events s) false true seqno resend discard ≫= take_grant) s1 /\
      n_locks s1 = <[id := lk']> (n_locks s) /\ n_req_seqno s1 = seqno /\ n_local_vt s1 = n_vt s /\
      n_out s1 = n_out s ++ [SendReq to (acquire_request (self_of s) id seqno (n_vt s))] /\
      forall s2, self_of s2 = self_of s -> exists s3, resend s2 = Ok (tt, s3) /\
        n_out s3 = n_out s2 ++ [SendReq to (acquire_request (self_of s) id seqno (n_vt s2))].
Proof.
  intros Hid. cbv zeta. unfold Tmk_lock_acquire. destruct (id_test id Hid) as [_ ->].
  rewrite (bind_Ok (bump _ _ _) _ s tt _ eq_refl), (bind_Ok _ _ _ _ _ (lock_at_run _ _ Hid)).
  set (s0 := set_n_stat _ s). change (the_lock id s0) with (the_lock id s).
  set (lk := the_lock id s). destruct (lk_held lk); [by eexists|].
  rewrite (bind_Ok me _ s0 (self_of s) s0 eq_refl), (bind_Ok _ _ _ _ _ (set_lock_run _ _ s0 Hid)).
  destruct (lk_next lk =? self_of s); [eexists; split; [done|split; done]|].
  set (s1 := set_n_locks _ s0). rewrite (bind_Ok _ _ _ _ _ (set_lock_run _ _ s1 Hid)).
  subst s1. rewrite the_lock_set. cbn [n_locks set_n_locks]. rewrite insert_insert_eq.
  change (the_lock id s0) with lk. set (s2 := set_n_locks _ _).
  unfold lk_request. destruct (lk_manager lk =? self_of s); cbn [when].
  - rewrite (bind_Ok _ _ _ _ _ (set_lock_run _ _ s2 Hid)). subst s2. rewrite the_lock_set.
    cbn [n_locks set_n_locks]. rewrite insert_insert_eq.
    match goal with |- context [mbind _ next_seqno ?st] => exact (await_grant id _ st) end.
  - rewrite (bind_Ok skip _ s2 tt s2 eq_refl). exact (await_grant id _ s2).
Qed.

(** The lock is taken without a message; the request and its reply. *)
Definition acquire_ex : node := zero_node (Conf 0 4 4096 64 0).

Lemma lock_acquire_refines_witness : exists s',
  Tmk_lock_acquire (signals := skip) 3 acquire_ex = Ok (tt, s') /\ n_out s' = [] /\
  n_locks s' = <[3 := set_lk_held true (the_lock 3 acquire_ex)]> ∅.
Proof. exact (lock_acquire_refines (signals := skip) 3 acquire_ex ltac:(unfold lock_id_ok, NLOCKS; lia)). Defined.

Lemma lock_handler_refines_witness : exists s',
  Tmk_lock_sigio_handler (acquire_request 1 3 32 vt_zero) dirty_ex = Ok (tt, s') /\
  serve_outcome 8 (∅, ∅ ∪ {[6]} ∪ {[5]}) (acquire_request 1 3 32 vt_zero) dirty_ex
    (set_lk_tail 1 (set_lk_next 1 (the_lock 3 dirty_ex))) Granted s'.
Proof.
  apply (lock_handler_refines 8 (∅, ∅ ∪ {[6]} ∪ {[5]}) (acquire_request 1 3 32 vt_zero) dirty_ex);
    [split; vm_compute; [discriminate|reflexivity]|exact dirty_ex_ok].
Defined.

(** Process 0 holds lock 3 and process 1 is next. *)
Definition release_ex : node := set_n_locks {[3 := Lock 0 1 true 1 0 0 ∅]} dirty_ex.

Lemma lock_release_refines_witness : exists s',
  Tmk_lock_release 3 release_ex = Ok (tt, s') /\ exists s1,
  interval_ended 8 (∅, ∅ ∪ {[6]} ∪ {[5]})
    (set_n_locks (<[3 := set_lk_held false (Lock 0 1 true 1 0 0 ∅)]> (n_locks release_ex)) release_ex) s1 /\
  granted s1 s' 3 1 0 vt_zero (set_lk_held false (Lock 0 1 true 1 0 0 ∅)).
Proof.
  exact (lock_release_refines 8 (∅, ∅ ∪ {[6]} ∪ {[5]}) 3 release_ex
    ltac:(unfold lock_id_ok, NLOCKS; lia) dirty_ex_ok eq_refl).
Defined.
