(* ===== verification/Frames.v ===== *)
(** * What the handlers of requests leave alone

    No handler of a request touches the queues of datagrams, the sequence
    numbers of the requests handled so far, this process's own sequence
    number, or the options: only [sigio_handler] and the operations that send
    requests do.  This and similar facts are instances of [Frame]: a relation
    between states that holds for every change of the fields the handlers may
    change, and so for every run of a handler. *)
From S2P Require Import Prelude Pages State Rpc Twins Diffs Interval Faults Lock Repo Barrier Sched Exit Sigio.
Local Open Scope Z_scope.

(** ** Frames *)

(** The fields that only the operations themselves change, or that the
    relations below speak of. *)
Definition minor (s s' : node) : Prop :=
  n_conf s' = n_conf s /\ n_inbox s' = n_inbox s /\ n_events s' = n_events s /\
  n_rep_seqno s' = n_rep_seqno s /\ n_req_seqno s' = n_req_seqno s /\
  n_req_from s' = n_req_from s /\ n_barriers s' = n_barriers s /\ n_vt s' = n_vt s.

(** [R] allows all changes of minor fields, a change of this process's own
    component of the vector time, and a larger time for another process with
    a value [frame_value] allows. *)
Class Frame (R : relation node) : Type := {
  #[global] frame_preorder :: PreOrder R;
  frame_value : Z -> Prop;
  frame_conf : forall s s', R s s' -> n_conf s' = n_conf s;
  frame_minor : forall s s', minor s s' -> R s s';
  frame_own : forall s x, R s (set_n_vt (vt_set (proc_id (n_conf s)) x (n_vt s)) s);
  frame_newer : forall s pid u, 0 <= pid -> frame_value u -> vt_get (n_vt s) pid < u ->
    R s (set_n_vt (vt_set pid u (n_vt s)) s)
}.
#[export] Hint Extern 0 (Frame _) => exact _ : keeps.

(** [R] for process [self]. *)
Definition at_self (self : Z) (R : relation node) (s s' : node) : Prop := proc_id (n_conf s) = self -> R s s'.

#[export] Instance at_self_preorder `{Frame R} self : PreOrder (at_self self R).
Proof.
  split; [by intros s _|]. intros s1 s2 s3 H1 H2 E. specialize (H1 E). etrans; [exact H1|]. apply H2.
  by rewrite (frame_conf _ _ H1).
Qed.

Lemma keeps_at {R A} (m : Proc A) : (forall self, keeps (at_self self R) m) -> keeps R m.
Proof. intros H s a s' E. by apply (H (proc_id (n_conf s)) s a s' E). Qed.

Lemma at_minor `{Frame R} self (f : node -> node) : (forall s, minor s (f s)) -> keeps (at_self self R) (modify f).
Proof. intros Hf. apply keeps_modify. intros s _. apply frame_minor, Hf. Qed.

Lemma at_me `{Frame R} {A} self (f : Z -> Proc A) : keeps (at_self self R) (f self) -> keeps (at_self self R) (me ≫= f).
Proof.
  intros Hf s a s' H1. apply bind_inv in H1 as (x & s1 & [= <- <-] & H1). intros E. rewrite E in H1.
  by apply (Hf s a s' H1).
Qed.

Lemma at_own `{Frame R} self v x : keeps (at_self self R) (vt_write v (fun w => vt_set self (x w) w)).
Proof.
  destruct v; [done|..]; apply keeps_modify; intros s E; [rewrite <- E; apply frame_own|by apply frame_minor].
Qed.

Lemma at_own_set `{Frame R} self x : keeps (at_self self R) (modify (fun s => set_n_vt (vt_set self (x s) (n_vt s)) s)).
Proof. apply keeps_modify. intros s E. rewrite <- E. apply frame_own. Qed.

Lemma at_on_pages `{Frame R} {A} self (m : M pstore A) : keeps (at_self self R) (on_pages m).
Proof.
  intros s a s' E. unfold on_pages in E. destruct (m (n_pages s)) as [[b p]| | |]; try done.
  injection E as _ <-. intros _. by apply frame_minor.
Qed.
#[export] Hint Resolve at_on_pages at_own at_own_set : keeps.
#[export] Hint Extern 1 (keeps (at_self _ _) (modify _)) => (apply at_minor; intros; repeat split; reflexivity) : keeps.

Lemma frame_pg `{Frame R} self {A} (f : page -> A) p : keeps (at_self self R) (pg f p).
Proof. apply at_on_pages. Qed.
Lemma frame_set_pg `{Frame R} self p f : keeps (at_self self R) (set_pg p f).
Proof. apply at_on_pages. Qed.
Lemma frame_mprotect `{Frame R} self p pr : keeps (at_self self R) (mprotect p pr).
Proof. apply at_on_pages. Qed.
Lemma frame_bump `{Frame R} self f g x : keeps (at_self self R) (bump f g x).
Proof. by apply at_minor. Qed.
Lemma frame_send_req `{Frame R} self j r : keeps (at_self self R) (send_req j r).
Proof. by apply at_minor. Qed.
Lemma frame_send_rep `{Frame R} self j r : keeps (at_self self R) (send_rep j r).
Proof. by apply at_minor. Qed.
Lemma frame_vt_read `{Frame R} self v : keeps (at_self self R) (vt_read v).
Proof. destruct v; [done|..]; apply keeps_gets; preorder. Qed.
Lemma frame_me `{Frame R} self : keeps (at_self self R) me.
Proof. apply keeps_gets; preorder. Qed.
Lemma frame_config `{Frame R} self : keeps (at_self self R) config.
Proof. apply keeps_gets; preorder. Qed.
#[export] Hint Resolve frame_pg frame_set_pg frame_mprotect frame_bump frame_send_req frame_send_rep
  frame_vt_read frame_me frame_config : keeps.

(** ** Twins, diffs and intervals *)
Lemma frame_load `{Frame R} self p : keeps (at_self self R) (load_page p).
Proof. unfold load_page. keeps. Qed.
Lemma frame_twin_free `{Frame R} self p : keeps (at_self self R) (Tmk_twin_free p).
Proof. unfold Tmk_twin_free. keeps. Qed.
Lemma frame_heap_alloc `{Frame R} self z : keeps (at_self self R) (heap_alloc z).
Proof. unfold heap_alloc. keeps. Qed.
Lemma frame_enqueue `{Frame R} self pid iv : keeps (at_self self R) (enqueue_interval pid iv).
Proof. unfold enqueue_interval. keeps. Qed.
Lemma frame_last_range `{Frame R} self pid rg : keeps (at_self self R) (last_range pid rg).
Proof. unfold last_range. keeps. Qed.
#[export] Hint Resolve frame_load frame_twin_free frame_heap_alloc frame_enqueue frame_last_range : keeps.

Lemma frame_diff_create `{Frame R} self p w : keeps (at_self self R) (Tmk_diff_create p w).
Proof. unfold Tmk_diff_create. keeps. Qed.
Lemma frame_push_notice `{Frame R} self pid id vt p : keeps (at_self self R) (push_notice pid id vt p).
Proof. unfold push_notice. keeps. Qed.
#[export] Hint Resolve frame_diff_create frame_push_notice : keeps.

Lemma frame_create_run `{Frame R} self vt p : keeps (at_self self R) (create_run vt p).
Proof. unfold create_run. keeps. Qed.
#[export] Hint Resolve frame_create_run : keeps.

Lemma frame_interval_create `{Frame R} self v : keeps (at_self self R) (Tmk_interval_create v).
Proof.
  unfold Tmk_interval_create. keeps_bind; [keeps|]. destruct (_ =? PAGE_DIRTY); [keeps|].
  do 3 (keeps_bind; [keeps|]). apply at_me. repeat keeps_step.
  apply keeps_do_while; [preorder|intros; keeps|]. intros q. unfold create_rest. keeps.
Qed.
#[export] Hint Resolve frame_interval_create : keeps.

Lemma frame_untwin `{Frame R} self fuel v p : keeps (at_self self R) (untwin fuel v p).
Proof.
  induction fuel as [|fuel IH]; cbn [untwin]; [keeps|]. keeps_bind; [keeps|]. case_match; [|keeps].
  apply at_me. keeps_bind; [keeps|]. keeps_bind; [|apply IH]. keeps.
Qed.
#[export] Hint Resolve frame_untwin : keeps.

Lemma frame_note_page `{Frame R} self v pid vt p : keeps (at_self self R) (note_page v pid vt p).
Proof. unfold note_page. keeps. Qed.
#[export] Hint Resolve frame_note_page : keeps.

Lemma frame_get_ranges `{Frame R} self v pid vt fuel : forall msg head, (length msg <= fuel)%nat ->
  keeps (at_self self R) (get_ranges head v pid vt msg).
Proof.
  induction fuel as [|fuel IH]; intros [|u msg] head Hl; try (cbn in Hl; lia); try done.
  cbn [get_ranges]. cbn in Hl. destruct msg as [|u' [|x msg]]; keeps; apply IH; cbn in *; lia.
Qed.

(** What is left of a message is the end of it. *)
Lemma get_ranges_rest v pid vt fuel : forall msg head s rest s', (length msg <= fuel)%nat ->
  get_ranges head v pid vt msg s = Ok (rest, s') -> exists used, msg = used ++ rest.
Proof.
  induction fuel as [|fuel IH]; intros [|u msg] head s rest s' Hl E; try (cbn in Hl; lia); try done.
  cbn [get_ranges] in E. cbn in Hl. apply bind_inv in E as ([] & s1 & _ & E).
  assert (Hend : forall n ms st, (length ms <= fuel)%nat ->
    (match ms with u2 :: _ => if u2 <? PID_LIMIT then get_ranges false v pid vt ms else mret ms | [] => mret ms end) st =
      Ok (rest, s') -> exists used, n ++ ms = used ++ rest).
  { intros n ms st Hms H. assert (Hr : exists used, ms = used ++ rest).
    { destruct ms as [|u2 ms]; [injection H as <-; by exists []|].
      destruct (_ <? _); [by eapply IH|]. injection H as <-. by exists []. }
    destruct Hr as [used ->]. exists (n ++ used). by rewrite app_assoc. }
  destruct (_ =? _).
  - destruct msg as [|u' [|x msg]]; try done. apply bind_inv in E as ([] & s2 & _ & E).
    apply (Hend [u; u'; x] msg s2); [cbn in Hl; lia|exact E].
  - apply bind_inv in E as ([] & s2 & _ & E). apply (Hend [u] msg s2); [lia|exact E].
Qed.

Lemma skip_ranges_rest msg : exists used, msg = used ++ skip_ranges msg.
Proof.
  induction msg as [|u msg [used IH]]; [by exists []|]. cbn. destruct (_ <? _); [|by exists []].
  exists (u :: used). cbn. by rewrite <- IH.
Qed.

Lemma get_interval_rest v pid msg s rest s' : get_interval v pid msg s = Ok (rest, s') -> exists used, msg = used ++ rest.
Proof.
  unfold get_interval. intros E. destruct (_ && _); [|done]. apply bind_inv in E as (mine & s1 & _ & E).
  assert (Hr : exists used, drop (Z.to_nat NPROCS) msg = used ++ rest).
  { destruct (_ <? _); [|injection E as <- _; apply skip_ranges_rest].
    apply bind_inv in E as ([] & s2 & _ & E). apply bind_inv in E as (a & s3 & _ & E).
    apply bind_inv in E as ([] & s4 & _ & E). apply bind_inv in E as (rest1 & s5 & E1 & E).
    assert (rest1 = rest) as ->.
    { apply bind_inv in E as (x & s6 & _ & E). apply bind_inv in E as (y & s7 & _ & E).
      apply bind_inv in E as ([] & s8 & _ & E). by injection E. }
    by eapply get_ranges_rest. }
  destruct Hr as [used E2]. exists (take (Z.to_nat NPROCS) msg ++ used). by rewrite <- app_assoc, <- E2, take_drop.
Qed.

Lemma frame_get_interval `{H : Frame R} self v pid msg : Forall frame_value msg ->
  keeps (at_self self R) (get_interval v pid msg).
Proof.
  intros Hv. unfold get_interval. cbv zeta. destruct (_ && _) eqn:Hb; [|keeps].
  apply andb_true_iff in Hb as [[Hp Hn]%andb_true_iff Hl]. apply Z.leb_le in Hp, Hl. apply Z.ltb_lt in Hn.
  set (vt := take _ _). intros s a s' E Hs. apply bind_inv in E as (mine & s0 & [= <- <-] & E).
  assert (Hu : frame_value (vt_get vt pid)).
  { unfold vt_get. rewrite nth_lookup. destruct (vt !! Z.to_nat pid) as [x|] eqn:E1.
    - cbn. apply (Forall_lookup_1 frame_value msg (Z.to_nat pid)); [done|].
      subst vt. by apply lookup_take_Some in E1 as [E1 _].
    - apply lookup_ge_None in E1. subst vt. rewrite length_take in E1. unfold NPROCS in *. lia. }
  destruct (Z.ltb_spec (vt_get (n_vt s) pid) (vt_get vt pid)) as [Hnew|Hold]; [|by injection E as _ <-].
  apply bind_inv in E as ([] & s1 & [= <-] & E). etrans; [by apply (frame_newer s pid)|].
  assert (K : keeps (at_self self R)
    (heap_alloc sizeof_interval;; enqueue_interval pid (Interval pid vt []);;
     rest ← get_ranges true v pid vt (drop (Z.to_nat NPROCS) msg);
     self ← me;
     inv ← gets (fun s => vt_get (n_it s) pid);
     when (inv <? vt_get vt self) (modify (fun s => set_n_it (vt_set pid (vt_get vt self) (n_it s)) s));;
     mret rest)).
  { keeps_bind; [keeps|]. keeps_bind; [keeps|]. keeps_bind; [by eapply frame_get_ranges|]. keeps. }
  by apply (K _ a s' E).
Qed.

Lemma frame_incorporate `{H : Frame R} self msg v : Forall frame_value msg ->
  keeps (at_self self R) (Tmk_interval_incorporate msg v).
Proof.
  intros Hv. unfold Tmk_interval_incorporate. keeps_bind; [|keeps]. generalize (length msg) as fuel.
  intros fuel. revert msg Hv. induction fuel as [|fuel IH]; intros [|x msg] Hv; cbn [incorporate_loop]; [keeps..|].
  apply Forall_cons in Hv as [_ Hv]. intros s [] s' E Hs. apply bind_inv in E as (rest & s1 & E1 & E).
  pose proof (frame_get_interval self v _ msg Hv s rest s1 E1 Hs) as H1.
  apply get_interval_rest in E1 as [used ->]. apply Forall_app in Hv as [_ Hv].
  etrans; [exact H1|]. apply (IH rest Hv s1 tt s' E). by rewrite (frame_conf _ _ H1).
Qed.

(** ** The handlers *)
Lemma frame_lock_at `{Frame R} self id : keeps (at_self self R) (lock_at id).
Proof. unfold lock_at. keeps. Qed.
Lemma frame_set_lock `{Frame R} self id f : keeps (at_self self R) (set_lock id f).
Proof. unfold set_lock. keeps. Qed.
Lemma frame_send_intervals `{Frame R} self j q vt : keeps (at_self self R) (send_intervals j q vt).
Proof. unfold send_intervals. keeps. Qed.
Lemma frame_set_inverse `{Frame R} self j : keeps (at_self self R) (set_inverse j).
Proof. unfold set_inverse. keeps. Qed.
#[export] Hint Resolve frame_lock_at frame_set_lock frame_send_intervals frame_set_inverse : keeps.

Lemma frame_lock_handler `{Frame R} self r : keeps (at_self self R) (Tmk_lock_sigio_handler r).
Proof. unfold Tmk_lock_sigio_handler. cbv zeta. keeps. Qed.
Lemma frame_lock_duplicate `{Frame R} self r : keeps (at_self self R) (Tmk_lock_sigio_duplicate_handler r).
Proof. unfold Tmk_lock_sigio_duplicate_handler. cbv zeta. keeps. Qed.
#[export] Hint Resolve frame_lock_handler frame_lock_duplicate : keeps.

Lemma frame_cond_at `{Frame R} self id i : keeps (at_self self R) (cond_at id i).
Proof. unfold cond_at. keeps. Qed.
Lemma frame_set_cond `{Frame R} self id i f : keeps (at_self self R) (set_cond id i f).
Proof. unfold set_cond. keeps. Qed.
Lemma frame_set_waitq `{Frame R} self i f : keeps (at_self self R) (set_waitq i f).
Proof. unfold set_waitq. keeps. Qed.
#[export] Hint Resolve frame_cond_at frame_set_cond frame_set_waitq : keeps.

Lemma frame_enqueue_wait `{Frame R} self id i we : keeps (at_self self R) (waitq_enqueue id i we).
Proof. unfold waitq_enqueue. keeps. Qed.
Lemma frame_update_time `{Frame R} self id i vt : keeps (at_self self R) (update_time id i vt).
Proof. unfold update_time. keeps. Qed.
Lemma frame_dequeue `{Frame R} self id i : keeps (at_self self R) (waitq_dequeue id i).
Proof. unfold waitq_dequeue. keeps. Qed.
#[export] Hint Resolve frame_enqueue_wait frame_update_time frame_dequeue : keeps.

Lemma frame_dequeue_all `{Frame R} self fuel id i : keeps (at_self self R) (dequeue_all fuel id i).
Proof. induction fuel as [|fuel IH]; cbn [dequeue_all]; keeps. Qed.
Lemma frame_ack `{Frame R} self r : keeps (at_self self R) (ack r).
Proof. unfold ack. keeps. Qed.
#[export] Hint Resolve frame_dequeue_all frame_ack : keeps.

Lemma frame_barrier_at `{Frame R} self id : keeps (at_self self R) (barrier_at id).
Proof. unfold barrier_at. keeps. Qed.
Lemma frame_departure `{Frame R} self j q vt : keeps (at_self self R) (send_departure j q vt).
Proof. unfold send_departure. keeps. Qed.
Lemma frame_set_sched_mask `{Frame R} self id f : keeps (at_self self R) (set_sched_mask id f).
Proof. unfold set_sched_mask. keeps. Qed.
Lemma frame_sched_at `{Frame R} self id : keeps (at_self self R) (sched_at id).
Proof. unfold sched_at. keeps. Qed.
Lemma frame_send_work `{Frame R} self j q vt : keeps (at_self self R) (send_work j q vt).
Proof. unfold send_work. keeps. Qed.
Lemma frame_send_page `{Frame R} self j q p : keeps (at_self self R) (send_page j q p).
Proof. unfold send_page. keeps. Qed.
#[export] Hint Resolve frame_barrier_at frame_departure frame_set_sched_mask
  frame_sched_at frame_send_work frame_send_page : keeps.

Lemma frame_add_diff `{Frame R} self from a z d sv : keeps (at_self self R) (add_diff from a z d sv).
Proof. unfold add_diff, flush. cbv zeta. keeps. Qed.
#[export] Hint Resolve frame_add_diff : keeps.

Lemma frame_serve_one `{Frame R} self p from pid time sv m : keeps (at_self self R) (serve_one p from pid time sv m).
Proof. unfold serve_one. keeps. Qed.
#[export] Hint Resolve frame_serve_one : keeps.

Lemma frame_serve_pairs `{Frame R} self p from fuel : forall data sv m, (length data <= fuel)%nat ->
  keeps (at_self self R) (serve_pairs p from data sv m).
Proof.
  induction fuel as [|fuel IH]; intros [|x [|y data]] sv m Hl; cbn [length] in Hl; try lia;
    cbn [serve_pairs]; try done.
  destruct data as [|z data]; [keeps|]. keeps_bind; [keeps|]. destruct a as [sv' m'].
  apply IH. cbn [length] in *. lia.
Qed.

Lemma frame_diff_handler `{Frame R} self r : keeps (at_self self R) (Tmk_diff_sigio_handler r).
Proof.
  unfold Tmk_diff_sigio_handler, flush. cbv zeta. keeps_bind; [by eapply frame_serve_pairs|]. keeps.
Qed.
#[export] Hint Resolve frame_diff_handler : keeps.

(** Handlers of requests that bring no intervals. *)
Lemma frame_handler `{Frame R} self r : sigio_buffer_hold (rq_type r) = false ->
  keeps (at_self self R) (sigio_handlers_ (rq_type r) r).
Proof.
  unfold sigio_handlers_. destruct (rq_type r); intros Ht; try done.
  all: unfold Tmk_cond_broadcast_sigio_handler, Tmk_cond_signal_sigio_handler,
    Tmk_cond_wait_sigio_handler, Tmk_connect_sigio_handler, Tmk_distribute_sigio_handler,
    Tmk_exit_sigio_handler, Tmk_page_sigio_handler, Tmk_repo_sigio_handler;
    cbv zeta; keeps.
Qed.

Lemma frame_sched_handler `{H : Frame R} self r : Forall frame_value (rq_data r) ->
  keeps (at_self self R) (Tmk_sched_sigio_handler r).
Proof. intros Hv. unfold Tmk_sched_sigio_handler. cbv zeta. keeps. by apply frame_incorporate. Qed.

Lemma frame_duplicate_handler `{Frame R} self r : keeps (at_self self R) (sigio_duplicate_handlers_ (rq_type r) r).
Proof.
  unfold sigio_duplicate_handlers_, Tmk_ack. destruct (rq_type r).
  all: unfold Tmk_barrier_sigio_duplicate_handler, Tmk_cond_wait_sigio_duplicate_handler,
    Tmk_exit_sigio_handler, Tmk_sched_sigio_duplicate_handler, Tmk_page_sigio_handler,
    Tmk_repo_sigio_duplicate_handler;
    cbv zeta; keeps.
Qed.

(** ** The queues and the sequence numbers *)
Definition steady (s s' : node) : Prop :=
  n_inbox s' = n_inbox s /\ n_rep_seqno s' = n_rep_seqno s /\
  n_req_seqno s' = n_req_seqno s /\ n_conf s' = n_conf s.

#[export] Instance steady_frame : Frame steady.
Proof.
  refine {| frame_value := fun _ => True |}.
  - split; [by intros s|]. intros s1 s2 s3 (H1 & H2 & H3 & H4) (G1 & G2 & G3 & G4). split_and!; congruence.
  - by intros s s' (_ & _ & _ & ?).
  - by intros s s' (? & ? & _ & ? & ? & _).
  - by intros s x.
  - by intros s pid u _ _ _.
Defined.

Lemma steady_modify (f : node -> node) : (forall s, steady s (f s)) -> keeps steady (modify f).
Proof. apply keeps_modify. Qed.
#[export] Hint Extern 1 (keeps steady (modify _)) => (apply steady_modify; intros; repeat split; reflexivity) : keeps.
#[export] Hint Extern 2 (keeps steady _) => (apply keeps_at; intros ?; solve [eauto 4 with keeps]) : keeps.

Lemma steady_set_mask id f : keeps steady (set_mask id f).
Proof. unfold set_mask. keeps. Qed.

Lemma all_true (l : list Z) : Forall (fun _ => True) l.
Proof. by apply Forall_true. Qed.

Lemma steady_incorporate msg v : keeps steady (Tmk_interval_incorporate msg v).
Proof. apply keeps_at. intros self. apply frame_incorporate, all_true. Qed.
#[export] Hint Resolve steady_set_mask steady_incorporate : keeps.

Lemma handler_steady r : keeps steady (sigio_handlers_ (rq_type r) r).
Proof.
  destruct (sigio_buffer_hold (rq_type r)) eqn:Hh; [|apply keeps_at; intros self; by apply frame_handler].
  unfold sigio_handlers_. destruct (rq_type r); try done.
  1,2: unfold Tmk_barrier_sigio_handler; keeps.
  all: apply keeps_at; intros self; apply frame_sched_handler, all_true.
Qed.

Lemma duplicate_handler_steady r : keeps steady (sigio_duplicate_handlers_ (rq_type r) r).
Proof. apply keeps_at. intros self. apply frame_duplicate_handler. Qed.
