(* ===== verification/Requests.v ===== *)
(** * Requests: numbered, handled at most once, drained, answered

    The sequence numbers of requests, the test by which [sigio_handler] tells
    a new request from a retransmission, the loop that empties the sockets,
    and the loop that waits for a reply. *)
From S2P Require Import Prelude Pages State Rpc Exit Sigio Frames.
Local Open Scope Z_scope.

(** ** Telling new requests from old *)
Definition last_seqno (s : node) (from : Z) : Z := default 0 (n_rep_seqno s !! from).

(** Numbers only grow. *)
Definition seqnos_grow (s s' : node) : Prop :=
  forall from, last_seqno s from <= last_seqno s' from.

#[export] Instance seqnos_grow_preorder : PreOrder seqnos_grow.
Proof. split; [intros s from; lia|]. intros s1 s2 s3 H1 H2 from. specialize (H1 from). specialize (H2 from). lia. Qed.

Lemma steady_seqnos {A} (m : Proc A) : keeps steady m -> keeps seqnos_grow m.
Proof. intros H s a s' E from. destruct (H s a s' E) as (_ & Hr & _). unfold last_seqno. rewrite Hr. lia. Qed.

(** What is done before and after the handler. *)
Definition count_request (r : request) : Proc unit :=
  bump st_messages set_st_messages 1;;
  bump st_bytes set_st_bytes (request_bytes r).

Definition hold_request (r : request) : Proc unit :=
  when (sigio_buffer_hold (rq_type r))
    (modify (fun s => set_n_req_from (<[rq_from r := r]> (n_req_from s)) s);; buffer_hold).

Lemma steady_count r : keeps steady (count_request r).
Proof. unfold count_request. keeps. Qed.
Lemma steady_hold r : keeps steady (hold_request r).
Proof. unfold hold_request, buffer_hold. keeps. Qed.

Lemma handle_new r s : last_seqno s (rq_from r) < rq_seqno r ->
  handle_request r s =
  ((hold_request r;; sigio_handlers_ (rq_type r) r);; count_request r)
    (set_n_rep_seqno (<[rq_from r := rq_seqno r]> (n_rep_seqno s)) s).
Proof.
  intros H. unfold handle_request. rewrite (bind_Ok (gets _) _ s (last_seqno s (rq_from r)) s eq_refl).
  by rewrite (proj2 (Z.ltb_lt _ _) H).
Qed.

Lemma handle_old r s : rq_seqno r <= last_seqno s (rq_from r) ->
  handle_request r s = (sigio_duplicate_handlers_ (rq_type r) r;; count_request r) s.
Proof.
  intros H. unfold handle_request. rewrite (bind_Ok (gets _) _ s (last_seqno s (rq_from r)) s eq_refl).
  by rewrite (proj2 (Z.ltb_ge _ _) H).
Qed.

(** The number of a handled request is noted. *)
Lemma handle_request_notes r s s' :
  handle_request r s = Ok (tt, s') ->
  forall from, last_seqno s' from =
    if decide (from = rq_from r) then Z.max (last_seqno s from) (rq_seqno r) else last_seqno s from.
Proof.
  intros H from. destruct (Z.lt_ge_cases (last_seqno s (rq_from r)) (rq_seqno r)) as [Hn|Ho].
  - rewrite handle_new in H by done. apply bind_inv in H as ([] & s1 & H1 & H2).
    apply bind_inv in H1 as ([] & s2 & H3 & H4).
    apply steady_hold in H3 as (_ & E3 & _). apply handler_steady in H4 as (_ & E4 & _).
    apply steady_count in H2 as (_ & E2 & _). unfold last_seqno in *. rewrite E2, E4, E3. cbn [n_rep_seqno set_n_rep_seqno].
    case_decide as E; [subst; rewrite lookup_insert_eq; cbn; lia|by rewrite lookup_insert_ne].
  - rewrite handle_old in H by done. apply bind_inv in H as ([] & s1 & H1 & H2).
    apply duplicate_handler_steady in H1 as (_ & E1 & _). apply steady_count in H2 as (_ & E2 & _).
    unfold last_seqno in *. rewrite E2, E1. case_decide as E; [subst; lia|done].
Qed.

Lemma handle_request_grows r : keeps seqnos_grow (handle_request r).
Proof.
  intros s [] s' H from. rewrite (handle_request_notes r s s' H from). case_decide; lia.
Qed.

(** ** Emptying the sockets *)
Definition inbox_of (s : node) (j : Z) : list request := default [] (n_inbox s !! j).

Definition shrinks (s s' : node) : Prop :=
  n_conf s' = n_conf s /\ forall j, (length (inbox_of s' j) <= length (inbox_of s j))%nat.

#[export] Instance shrinks_preorder : PreOrder shrinks.
Proof.
  split; [by intros s|]. intros s1 s2 s3 [C1 H1] [C2 H2]. split; [congruence|].
  intros j. specialize (H1 j). specialize (H2 j). lia.
Qed.

Lemma handle_request_steady r s s' :
  handle_request r s = Ok (tt, s') -> n_inbox s' = n_inbox s /\ n_conf s' = n_conf s.
Proof.
  intros H. destruct (Z.lt_ge_cases (last_seqno s (rq_from r)) (rq_seqno r)) as [Hn|Ho].
  - rewrite handle_new in H by done. apply bind_inv in H as ([] & s1 & H1 & H2).
    apply bind_inv in H1 as ([] & s2 & H3 & H4).
    apply steady_hold in H3 as (E3 & _ & _ & C3). apply handler_steady in H4 as (E4 & _ & _ & C4).
    apply steady_count in H2 as (E2 & _ & _ & C2). rewrite E2, E4, E3, C2, C4, C3. done.
  - rewrite handle_old in H by done. apply bind_inv in H as ([] & s1 & H1 & H2).
    apply duplicate_handler_steady in H1 as (E1 & _ & _ & C1). apply steady_count in H2 as (E2 & _ & _ & C2).
    rewrite E2, E1, C2, C1. done.
Qed.

(** One request less in the queue of [j], and nothing else changed. *)
Lemma handle_from_pops j s s' :
  handle_from j s = Ok (tt, s') ->
  n_conf s' = n_conf s /\ forall i, inbox_of s' i = if decide (i = j) then List.tl (inbox_of s i) else inbox_of s i.
Proof.
  unfold handle_from, dequeue, mbind, M_bind. fold (inbox_of s j).
  destruct (inbox_of s j) as [|r rs] eqn:E; intros H.
  - injection H as <-. split; [done|]. intros i. case_decide; [subst; by rewrite E|done].
  - apply handle_request_steady in H as [Hi Hc]. split; [done|]. intros i. unfold inbox_of. rewrite Hi.
    cbn [n_inbox set_n_inbox]. case_decide as Hij.
    + subst. rewrite lookup_insert_eq. fold (inbox_of s j). by rewrite E.
    + by rewrite lookup_insert_ne.
Qed.

Lemma handle_from_shrinks j : keeps shrinks (handle_from j).
Proof.
  intros s [] s' H. apply handle_from_pops in H as [Hc Hi]. split; [done|]. intros i. rewrite Hi.
  case_decide; [|lia]. destruct (inbox_of s i); cbn; lia.
Qed.

Lemma inbox_size_le l s s' : (forall j, (length (inbox_of s' j) <= length (inbox_of s j))%nat) ->
  (sum_list_with (fun j => length (inbox_of s' j)) l <= sum_list_with (fun j => length (inbox_of s j)) l)%nat.
Proof. intros H. induction l as [|j l IH]; cbn; [done|]. specialize (H j). lia. Qed.

Lemma inbox_size_lt l j s s' : j ∈ l ->
  (forall j, (length (inbox_of s' j) <= length (inbox_of s j))%nat) ->
  (length (inbox_of s' j) < length (inbox_of s j))%nat ->
  (sum_list_with (fun j => length (inbox_of s' j)) l < sum_list_with (fun j => length (inbox_of s j)) l)%nat.
Proof.
  intros Hj H Hlt. induction l as [|i l IH]; [by apply elem_of_nil in Hj|]. cbn.
  pose proof (inbox_size_le l s s' H) as Hle. apply elem_of_cons in Hj as [->|Hj]; [lia|].
  specialize (IH Hj). specialize (H i). lia.
Qed.

Lemma handle_all_decreases s s' j js :
  readable s = j :: js -> for_each handle_from (j :: js) s = Ok (tt, s') ->
  (inbox_size s' < inbox_size s)%nat.
Proof.
  intros Hr H. cbn [for_each] in H. apply bind_inv in H as ([] & s1 & H1 & H2).
  pose proof (handle_from_pops _ _ _ H1) as [Hc1 Hi1].
  apply (keeps_for_each shrinks) in H2 as [Hc Hi]; [|intros; apply handle_from_shrinks].
  assert (Hj : j ∈ readable s) by (rewrite Hr; by left).
  apply list_elem_of_filter in Hj as [Hne Hj]. unfold inbox_size. rewrite Hc, Hc1.
  apply (inbox_size_lt _ j); [done| |].
  - intros i. specialize (Hi i). rewrite Hi1 in Hi. case_decide; [|lia].
    destruct (inbox_of s i); cbn in *; lia.
  - specialize (Hi j). rewrite Hi1, decide_True in Hi by done. fold (inbox_of s j) in Hne.
    destruct (inbox_of s j); [done|]. cbn in *. lia.
Qed.

Lemma sigio_loop_fuel n : forall s, (inbox_size s < n)%nat -> forall m, (inbox_size s < m)%nat ->
  sigio_loop n s = sigio_loop m s.
Proof.
  induction n as [|n IH]; intros s Hn [|m] Hm; try lia. cbn [sigio_loop].
  rewrite !(bind_Ok (gets readable) _ s (readable s) s eq_refl).
  destruct (readable s) as [|j js] eqn:Er; [done|]. unfold mbind, M_bind.
  destruct (for_each handle_from (j :: js) s) as [[[] s1]| | |] eqn:E; try done.
  pose proof (handle_all_decreases s s1 j js Er E). apply IH; lia.
Qed.

Lemma sigio_loop_drains n : forall s s', sigio_loop n s = Ok (tt, s') -> readable s' = [].
Proof.
  induction n as [|n IH]; intros s s' H; [done|]. cbn [sigio_loop] in H.
  rewrite (bind_Ok (gets readable) _ s (readable s) s eq_refl) in H.
  destruct (readable s) as [|j js] eqn:Er; [by injection H as <-|].
  apply bind_inv in H as ([] & s1 & _ & H). by apply IH in H.
Qed.

(** ** Waiting for a reply *)
Section Await.
Context {signals : Signals}.

(** Skipped by the loop: not a reply with the number, not a failure. *)
Definition skipped (seqno : Z) (ev : event) : Prop :=
  match ev with EvRep r _ => rp_seqno r <> seqno | EvFail => False | _ => True end.

Lemma await_ok eager seqno resend recvd evs : forall fresh s r s',
  await evs eager fresh seqno resend recvd s = Ok (r, s') ->
  exists evs1 late evs2, evs = evs1 ++ EvRep r late :: evs2 /\ rp_seqno r = seqno /\
    Forall (skipped seqno) evs1.
Proof.
  induction evs as [|ev evs IH]; intros fresh s r s' H; [done|]. cbn [await] in H.
  apply bind_inv in H as ([] & s1 & _ & H).
  assert (Hskip : skipped seqno ev -> forall f s2,
    await evs eager f seqno resend recvd s2 = Ok (r, s') ->
    exists evs1 late evs2, ev :: evs = evs1 ++ EvRep r late :: evs2 /\ rp_seqno r = seqno /\
      Forall (skipped seqno) evs1).
  { intros Hs f s2 Hr. destruct (IH f s2 r s' Hr) as (e1 & late & e2 & -> & Hq & Hf).
    exists (ev :: e1), late, e2. split_and!; [done|done|by constructor]. }
  destruct ev as [r0 late|j q| | |].
  - apply bind_inv in H as ([] & s2 & _ & H). destruct (Z.eqb_spec (rp_seqno r0) seqno) as [E|E].
    + apply bind_inv in H as ([] & s3 & _ & H). injection H as <- <-. by exists [], late, evs.
    + destruct (eager && fresh && (seqno <? rp_seqno r0)).
      * apply bind_inv in H as ([] & s3 & _ & H). by eapply Hskip.
      * by eapply Hskip.
  - apply bind_inv in H as ([] & s2 & _ & H). by eapply Hskip.
  - apply bind_inv in H as ([] & s2 & _ & H). by eapply Hskip.
  - by eapply Hskip.
  - done.
Qed.
End Await.

(** ** The properties *)

(** C34: A request is handled as new at most once: whatever requests are
    handled after it, in any order and from any processes, a retransmission of
    it only runs the duplicate handler of its type. *)
Theorem request_handled_once r rs s s1 s2 :
  handle_request r s = Ok (tt, s1) -> for_each handle_request rs s1 = Ok (tt, s2) ->
  handle_request r s2 = (sigio_duplicate_handlers_ (rq_type r) r;; count_request r) s2.
Proof.
  intros H1 H2. apply handle_old. apply (keeps_for_each seqnos_grow) in H2; [|apply handle_request_grows].
  specialize (H2 (rq_from r)). rewrite (handle_request_notes r s s1 H1), decide_True in H2 by done. lia.
Qed.

(** [sigio_handler] terminates: its loop reads at least one request in
    every turn, so [inbox_size] turns and a last one are enough for any state,
    more fuel changes nothing, and when it returns no request is left. *)
Theorem sigio_handler_drains s :
  (forall n, (inbox_size s < n)%nat -> sigio_loop n s = sigio_handler s) /\
  forall s', sigio_handler s = Ok (tt, s') -> readable s' = [].
Proof.
  split.
  - intros n Hn. unfold sigio_handler, sigio.
    rewrite (bind_Ok (gets inbox_size) _ s (inbox_size s) s eq_refl). apply sigio_loop_fuel; lia.
  - intros s' H. unfold sigio_handler, sigio in H.
    rewrite (bind_Ok (gets inbox_size) _ s (inbox_size s) s eq_refl) in H. by eapply sigio_loop_drains.
Qed.

(** An operation that waits gets the answer to its own request: the reply
    returned is the first one with the sequence number waited for, every reply
    before it has another number, and no failure of [recv] came first. *)
Theorem await_first_reply {signals : Signals} evs eager fresh seqno resend recvd s r s' :
  await evs eager fresh seqno resend recvd s = Ok (r, s') ->
  exists evs1 late evs2, evs = evs1 ++ EvRep r late :: evs2 /\ rp_seqno r = seqno /\
    Forall (skipped seqno) evs1.
Proof. apply await_ok. Qed.

(** As long as the counter does not wrap, the next request of a process
    is new to a receiver that has handled its last one; the request after a
    wrap is not: it is handled as a duplicate. *)
Theorem next_request_is_new r s :
  0 <= last_seqno s (rq_from r) < 2 ^ 32 -> rq_seqno r = u32 (last_seqno s (rq_from r) + SEQNO_INCR) ->
  let s0 := set_n_rep_seqno (<[rq_from r := rq_seqno r]> (n_rep_seqno s)) s in
  handle_request r s =
    if last_seqno s (rq_from r) + SEQNO_INCR <? 2 ^ 32
    then ((hold_request r;; sigio_handlers_ (rq_type r) r);; count_request r) s0
    else (sigio_duplicate_handlers_ (rq_type r) r;; count_request r) s.
Proof.
  unfold SEQNO_INCR, NPROCS, u32. intros Hl Hr. cbv zeta. destruct (Z.ltb_spec (last_seqno s (rq_from r) + 32) (2 ^ 32)).
  - apply handle_new. rewrite Hr, Z.mod_small; lia.
  - apply handle_old. rewrite Hr.
    replace (last_seqno s (rq_from r) + 32) with (last_seqno s (rq_from r) + 32 - 2 ^ 32 + 1 * 2 ^ 32) by lia.
    rewrite Z_mod_plus_full, Z.mod_small; lia.
Qed.

(** The [k]-th number of a process. *)
Definition nth_seqno (self : Z) (k : nat) : Z := Nat.iter k (fun q => u32 (q + SEQNO_INCR)) self.

Lemma nth_seqno_eq self k : nth_seqno self k = if (k =? 0)%nat then self else u32 (self + 32 * Z.of_nat k).
Proof.
  induction k as [|k IH]; [done|]. change (nth_seqno self (S k)) with (u32 (nth_seqno self k + SEQNO_INCR)). rewrite IH.
  unfold u32, SEQNO_INCR, NPROCS. destruct k as [|k]; cbn [Nat.eqb].
  - f_equal; lia.
  - rewrite Zplus_mod_idemp_l. f_equal. lia.
Qed.

(** The numbers two processes give their first [2 ^ 27] requests are all
    different: a process's own do not repeat, and another's differ in the low
    five bits, which are the process's number. *)
Theorem seqno_unique p q j k :
  0 <= p < NPROCS -> 0 <= q < NPROCS -> Z.of_nat j < 2 ^ 27 -> Z.of_nat k < 2 ^ 27 ->
  nth_seqno p j `mod` NPROCS = p /\
  (nth_seqno p j = nth_seqno q k -> p = q /\ j = k).
Proof.
  unfold NPROCS. intros Hp Hq Hj Hk.
  assert (E : forall a i, 0 <= a < 32 -> Z.of_nat i < 2 ^ 27 -> nth_seqno a i = a + 32 * Z.of_nat i).
  { intros a i Ha Hi. rewrite nth_seqno_eq. unfold u32. destruct (Nat.eqb_spec i 0); [lia|].
    apply Z.mod_small. lia. }
  rewrite !E by done. split; [|lia].
  rewrite Z.mul_comm, Z_mod_plus_full. apply Z.mod_small. lia.
Qed.

Lemma seqno_unique_witness : nth_seqno 3 5 `mod` NPROCS = 3 /\ (nth_seqno 3 5 = nth_seqno 4 5 -> 3 = 4 /\ 5%nat = 5%nat).
Proof. apply (seqno_unique 3 4 5 5); unfold NPROCS; lia. Defined.

(** Process 0 of 4, and a request of process 1 for an exit. *)
Definition listen_ex : node := zero_node (Conf 0 4 4096 64 0).
Definition exit_req (q : Z) : request := Request q 1 REQ_EXIT 0 [] [].

Lemma next_request_is_new_witness :
  handle_request (exit_req 32) listen_ex =
  ((hold_request (exit_req 32);; Tmk_exit_sigio_handler (exit_req 32));; count_request (exit_req 32))
    (set_n_rep_seqno (<[1 := 32]> (n_rep_seqno listen_ex)) listen_ex).
Proof. apply (next_request_is_new (exit_req 32) listen_ex); [split; vm_compute; [discriminate|reflexivity]|reflexivity]. Defined.

Lemma request_handled_once_witness : exists s1 s2,
  handle_request (exit_req 33) listen_ex = Ok (tt, s1) /\
  for_each handle_request [exit_req 65; exit_req 33] s1 = Ok (tt, s2) /\
  handle_request (exit_req 33) s2 = (Tmk_exit_sigio_handler (exit_req 33);; count_request (exit_req 33)) s2.
Proof.
  assert (R : returns (for_each handle_request [exit_req 33; exit_req 65; exit_req 33] listen_ex) = true)
    by (vm_compute; reflexivity).
  destruct (returns_ok _ R) as [[[] s2] H]. clear R. cbn [for_each] in H.
  destruct (bind_inv _ _ _ _ _ H) as ([] & s1 & H1 & H2). exists s1, s2. split; [exact H1|]. split; [exact H2|].
  exact (request_handled_once (exit_req 33) [exit_req 65; exit_req 33] listen_ex s1 s2 H1 H2).
Defined.

Lemma await_first_reply_witness : exists evs1 late evs2,
  [EvAlarm; EvRep (Reply 3 []) []; EvRep (Reply 35 [7]) []; EvIntr] = evs1 ++ EvRep (Reply 35 [7]) late :: evs2 /\
  rp_seqno (Reply 35 [7]) = 35 /\ Forall (skipped 35) evs1.
Proof.
  eapply (await_first_reply (signals := sigio) _ false true 35 skip (fun _ => skip) listen_ex (Reply 35 [7])).
  reflexivity.
Defined.
