(* ===== verification/Allocator.v ===== *)
(** * The allocator hands out disjoint memory

    An invariant of the heap of [Malloc.v]: the free chunks, those in use and
    the ranges taken by [Tmk_sbrk] are pairwise disjoint and inside the heap,
    each free chunk is on the list of its bucket, the index of every chunk names
    its bucket, and the memory behind the index is aligned to eight bytes.  Every operation preserves it. *)
From S2P Require Import Prelude Pages State Malloc.
Local Open Scope Z_scope.

#[local] Ltac Zify.zify_post_hook ::= Z.to_euclidean_division_equations.

(** ** Sizes *)
Definition bucket_ok (b : Z) : Prop := BUCKET_BEGIN <= b < BUCKET_END.

(** Facts about every bucket, by enumeration. *)
Lemma for_buckets (P : Z -> bool) :
  forallb P (seqZ BUCKET_BEGIN (BUCKET_END - BUCKET_BEGIN)) = true -> forall b, bucket_ok b -> P b = true.
Proof.
  intros H b Hb. apply (proj1 (forallb_forall _ _) H). apply list_elem_of_In, elem_of_seqZ.
  unfold bucket_ok in Hb. lia.
Qed.

Lemma size_facts b : bucket_ok b ->
  32 <= BUCKET_SIZE b <= 2 ^ 30 /\ BUCKET_SIZE b `mod` 16 = 0 /\
  (10 <= b -> BUCKET_SIZE b = BUCKET_SIZE (b - 2) + BUCKET_SIZE (b - 2)) /\
  (11 <= b -> BUCKET_SIZE b = BUCKET_SIZE (2 * ((b - 3) / 2)) + (BUCKET_SIZE (b - 3) + BUCKET_SIZE (b - 3))) /\
  (9 <= b -> BUCKET_SIZE (b - 1) < BUCKET_SIZE b).
Proof.
  intros Hb.
  pose proof (for_buckets (fun b =>
    (32 <=? BUCKET_SIZE b) && (BUCKET_SIZE b <=? 2 ^ 30) && (BUCKET_SIZE b `mod` 16 =? 0) &&
    ((b <? 10) || (BUCKET_SIZE b =? BUCKET_SIZE (b - 2) + BUCKET_SIZE (b - 2))) &&
    ((b <? 11) || (BUCKET_SIZE b =? BUCKET_SIZE (2 * ((b - 3) / 2)) + (BUCKET_SIZE (b - 3) + BUCKET_SIZE (b - 3)))) &&
    ((b <? 9) || (BUCKET_SIZE (b - 1) <? BUCKET_SIZE b))) eq_refl b Hb) as H.
  cbv beta in H. rewrite !andb_true_iff, !orb_true_iff in H.
  rewrite !Z.leb_le, !Z.ltb_lt, !Z.eqb_eq in H. lia.
Qed.

Lemma add_double c b : bucket_ok b -> c `mod` 8 = 4 -> (c + BUCKET_SIZE b) `mod` 8 = 4.
Proof. intros Hb Hc. pose proof (size_facts b Hb) as (_ & H16 & _). lia. Qed.

(** ** Disjoint ranges *)
Definition range : Type := Z * Z.

Definition sep (r q : range) : Prop := r.1 + r.2 <= q.1 \/ q.1 + q.2 <= r.1.

Fixpoint apart (l : list range) : Prop :=
  match l with [] => True | r :: l' => Forall (sep r) l' /\ apart l' end.

Lemma sep_sym r q : sep r q -> sep q r.
Proof. unfold sep. lia. Qed.

Lemma apart_perm l l' : l ≡ₚ l' -> apart l -> apart l'.
Proof.
  induction 1 as [|r l l' Hp IH|r q l|l1 l2 l3 _ IH1 _ IH2]; cbn; [done|..|by auto].
  - intros [H1 H2]. split; [by rewrite <- Hp|by apply IH].
  - intros [H1 [H2 H3]]. apply Forall_cons in H1 as [H0 H1]. split; [|done].
    constructor; [by apply sep_sym|done].
Qed.

Lemma apart_split a n m l : 0 <= n -> 0 <= m -> apart ((a, n + m) :: l) -> apart ((a, n) :: (a + n, m) :: l).
Proof.
  intros Hn Hm [H1 H2]. cbn. split_and!; [|..|done].
  - constructor; [left; cbn; lia|]. eapply Forall_impl; [exact H1|]. unfold sep. cbn. lia.
  - eapply Forall_impl; [exact H1|]. unfold sep. cbn. lia.
Qed.

(** ** The invariant *)
Definition chunk : Type := Z * Z.

Definition range_of (c : chunk) : range := (c.1, BUCKET_SIZE c.2).

Definition on_list (b : Z) (L : list chunk) : list Z := fst <$> filter (fun c => c.2 = b) L.

Fixpoint links (t : heap_table) (p : Z) (l : list Z) : Prop :=
  match l with
  | [] => p = 0
  | a :: l' => p = a /\ links t (default 0 (sh_chain t !! a)) l'
  end.

(** [L]: the free chunks, latest first; [U]: those in use; [H]: other ranges
    in use; [lo]: the end of the table. *)
Record heap_ok (lo : Z) (t : heap_table) (L U : list chunk) (H : list range) : Prop := {
  hk_lists : forall b, bucket_ok b -> links t (default 0 (sh_nextfit t !! b)) (on_list b L);
  hk_buckets : Forall (fun c => bucket_ok c.2) (L ++ U);
  hk_index : forall a b, (a, b) ∈ L ++ U -> sh_index t !! a = Some (Z.lxor b C_xor_index);
  hk_apart : apart (map range_of (L ++ U) ++ H);
  hk_inside : Forall (fun r => lo <= r.1 /\ r.1 + r.2 <= sh_curbrk t) (map range_of (L ++ U) ++ H);
  hk_align : sh_curbrk t `mod` 4 = 0;
  hk_brk : lo <= sh_curbrk t;
  hk_double : Forall (fun c => c.1 `mod` 8 = 4) (L ++ U)
}.

Lemma map_cons_app (c : chunk) L U H :
  map range_of ((c :: L) ++ U) ++ H = range_of c :: map range_of (L ++ U) ++ H.
Proof. done. Qed.

(** *** Accesses to the table *)
Lemma bucket_test b : bucket_ok b -> (0 <=? b) && (b <? BUCKET_END) = true.
Proof. unfold bucket_ok, BUCKET_BEGIN, BUCKET_END. lia. Qed.

Lemma nextfit_run b t : bucket_ok b -> nextfit b t = Ok (default 0 (sh_nextfit t !! b), t).
Proof. intros H. unfold nextfit. by rewrite bucket_test. Qed.

Lemma set_nextfit_run b x t : bucket_ok b ->
  set_nextfit b x t = Ok (tt, set_sh_nextfit (<[b := x]> (sh_nextfit t)) t).
Proof. intros H. unfold set_nextfit. by rewrite bucket_test. Qed.

Lemma links_ext t t' p l : (forall a, a ∈ l -> sh_chain t' !! a = sh_chain t !! a) ->
  links t p l -> links t' p l.
Proof.
  revert p. induction l as [|a l IH]; intros p Hx; [done|]. cbn. intros [-> Hl]. split; [done|].
  rewrite Hx by (by left). apply IH; [|done]. intros x Hin. apply Hx. by right.
Qed.

Lemma on_list_cons b c L : on_list b (c :: L) = if decide (c.2 = b) then c.1 :: on_list b L else on_list b L.
Proof. unfold on_list. rewrite filter_cons. by destruct (decide (c.2 = b)). Qed.

Lemma on_list_elem a b L : a ∈ on_list b L -> (a, b) ∈ L.
Proof.
  intros H. apply list_elem_of_fmap in H as ([x y] & -> & H). apply list_elem_of_filter in H as [H1 H2].
  cbn in *. by subst.
Qed.

(** The first chunk of a bucket. *)
Lemma on_list_first b L a l : on_list b L = a :: l ->
  exists L1 L2, L = L1 ++ (a, b) :: L2 /\ on_list b (L1 ++ L2) = l /\
    forall b', b' <> b -> on_list b' (L1 ++ L2) = on_list b' L.
Proof.
  induction L as [|[x y] L IH]; [done|]. rewrite on_list_cons. cbn [fst snd]. case_decide as E; intros Hl.
  - injection Hl as -> <-. subst y. exists [], L. split_and!; [done|done|]. intros b' Hb.
    rewrite on_list_cons. cbn. by rewrite decide_False.
  - destruct (IH Hl) as (L1 & L2 & -> & H1 & H2). exists ((x, y) :: L1), L2.
    rewrite <- !app_comm_cons. split_and!; [done| |].
    + rewrite on_list_cons. cbn. by rewrite decide_False.
    + intros b' Hb. rewrite !on_list_cons, H2 by done. done.
Qed.

Section Ops.
Context (lo : Z) (Hlo : 0 < lo).

(** The chunk in hand is none of the others. *)
Lemma hand_ranges (c b : Z) L U H :
  map range_of (L ++ U) ++ (c, BUCKET_SIZE b) :: H ≡ₚ map range_of (((c, b) :: L) ++ U) ++ H.
Proof. rewrite map_cons_app. symmetry. apply Permutation_middle. Qed.

Lemma hand_ne b c t L U H : bucket_ok b -> heap_ok lo t L U ((c, BUCKET_SIZE b) :: H) ->
  forall a b', (a, b') ∈ L ++ U -> a <> c.
Proof.
  intros Hb I a b' Hin ->. pose proof (hk_apart _ _ _ _ _ I) as Ha.
  apply (apart_perm _ _ (hand_ranges _ _ _ _ _)) in Ha. rewrite map_cons_app in Ha. destruct Ha as [Hs _].
  apply Forall_app in Hs as [Hs _]. pose proof (hk_buckets _ _ _ _ _ I) as Hbs. rewrite Forall_forall in Hs, Hbs.
  pose proof (size_facts b' (Hbs _ Hin)) as [Hz' _]. pose proof (size_facts b Hb) as [Hz _].
  assert (Hin' : (c, BUCKET_SIZE b') ∈ map range_of (L ++ U)) by (apply list_elem_of_fmap; by exists (c, b')).
  apply Hs in Hin'. unfold sep, range_of in Hin'. cbn in *. lia.
Qed.

(** A chunk in hand goes on the list of its bucket. *)
Lemma link_ok b c t L U H : bucket_ok b -> c `mod` 8 = 4 -> sh_index t !! c = Some (Z.lxor b C_xor_index) ->
  heap_ok lo t L U ((c, BUCKET_SIZE b) :: H) ->
  exists t', release_chunk c b t = Ok (tt, t') /\ heap_ok lo t' ((c, b) :: L) U H /\ sh_curbrk t' = sh_curbrk t.
Proof.
  intros Hb H8 Hi I. pose proof (hand_ne b c t L U H Hb I) as Hne. unfold release_chunk. eexists. split.
  { rewrite (bind_Ok _ _ _ _ _ (nextfit_run b _ Hb)), (bind_Ok (set_chain _ _) _ _ tt _ eq_refl),
      set_nextfit_run by done. reflexivity. }
  split; [|done]. cbn [sh_nextfit set_sh_chain]. destruct I.
  rewrite hand_ranges in hk_inside0. apply (apart_perm _ _ (hand_ranges _ _ _ _ _)) in hk_apart0.
  split; try done.
  - intros b' Hb'. cbn [sh_nextfit sh_chain set_sh_nextfit set_sh_chain].
    assert (Hx : forall l p, (forall a, a ∈ l -> a ∈ on_list b' L) -> links t p l ->
      links (set_sh_nextfit (<[b := c]> (sh_nextfit t))
        (set_sh_chain (<[c := default 0 (sh_nextfit t !! b)]> (sh_chain t)) t)) p l).
    { intros l p Hin. apply links_ext. intros a Ha. cbn. rewrite lookup_insert_ne; [done|].
      intros <-. apply Hin, on_list_elem in Ha. apply (Hne c b'); [|done]. apply elem_of_app. by left. }
    rewrite on_list_cons. cbn [fst snd]. case_decide as E.
    + subst b'. rewrite lookup_insert_eq. cbn [links default]. split; [done|].
      cbn. rewrite lookup_insert_eq. apply Hx; [done|]. by apply hk_lists0.
    + rewrite lookup_insert_ne by done. apply Hx; [done|]. by apply hk_lists0.
  - by constructor.
  - intros a b' Hin. cbn. rewrite <- app_comm_cons in Hin.
    apply elem_of_cons in Hin as [[= -> ->]|Hin]; [done|by apply hk_index0].
  - by constructor.
Qed.

Lemma index_hand b c x t L U H : bucket_ok b -> heap_ok lo t L U ((c, BUCKET_SIZE b) :: H) ->
  heap_ok lo (set_sh_index (<[c := x]> (sh_index t)) t) L U ((c, BUCKET_SIZE b) :: H).
Proof.
  intros Hb I. pose proof (hand_ne b c t L U H Hb I) as Hne. destruct I. split; try done.
  - intros b' Hb'. apply (links_ext t); [done|]. by apply hk_lists0.
  - intros a b' Hin. cbn. rewrite lookup_insert_ne by (intros <-; by eapply Hne). by apply hk_index0.
Qed.

Lemma push_ok b c t L U H : bucket_ok b -> c `mod` 8 = 4 ->
  heap_ok lo t L U ((c, BUCKET_SIZE b) :: H) ->
  exists t', push_chunk b c t = Ok (tt, t') /\ heap_ok lo t' ((c, b) :: L) U H /\ sh_curbrk t' = sh_curbrk t.
Proof.
  intros Hb H8 I. apply (index_hand b c (Z.lxor b C_xor_index)) in I; [|done].
  edestruct (link_ok b c) as (t' & R & I' & C); [done|done| |exact I|].
  - cbn. by rewrite lookup_insert_eq.
  - exists t'. split; [|done]. unfold push_chunk. rewrite (bind_Ok (set_index _ _) _ t tt _ eq_refl). exact R.
Qed.

(** The first chunk of a bucket comes into hand. *)
Lemma pop_ok b t L U H a l : bucket_ok b -> on_list b L = a :: l -> heap_ok lo t L U H ->
  default 0 (sh_nextfit t !! b) = a /\ a <> 0 /\
  exists L', heap_ok lo (set_sh_nextfit (<[b := default 0 (sh_chain t !! a)]> (sh_nextfit t)) t) L' U
               ((a, BUCKET_SIZE b) :: H) /\
    sh_index t !! a = Some (Z.lxor b C_xor_index) /\ a `mod` 8 = 4.
Proof.
  intros Hb Hl I. destruct (on_list_first b L a l Hl) as (L1 & L2 & -> & H1 & H2). destruct I.
  pose proof (hk_lists0 b Hb) as Hk. rewrite Hl in Hk. destruct Hk as [Hn Hk]. split; [done|].
  assert (Hin : (a, b) ∈ (L1 ++ (a, b) :: L2) ++ U) by (rewrite !elem_of_app, elem_of_cons; tauto).
  assert (Hperm : L1 ++ (a, b) :: L2 ≡ₚ (a, b) :: L1 ++ L2) by (symmetry; apply Permutation_middle).
  assert (Hranges : map range_of ((L1 ++ (a, b) :: L2) ++ U) ++ H ≡ₚ
                    map range_of ((L1 ++ L2) ++ U) ++ (a, BUCKET_SIZE b) :: H).
  { rewrite Hperm, map_cons_app. apply Permutation_middle. }
  split.
  { rewrite Forall_forall in hk_inside0. intros ->.
    assert (Hr : (0, BUCKET_SIZE b) ∈ map range_of ((L1 ++ (0, b) :: L2) ++ U) ++ H).
    { apply elem_of_app. left. apply list_elem_of_fmap. by exists (0, b). }
    apply hk_inside0 in Hr. cbn in Hr. lia. }
  exists (L1 ++ L2). rewrite Hperm, <- app_comm_cons in hk_double0. apply Forall_cons in hk_double0 as [H8 Hd].
  split_and!; [|by apply hk_index0|done].
  split; cbn [sh_nextfit set_sh_nextfit sh_curbrk sh_index]; try done.
  - intros b' Hb'. apply (links_ext t); [done|]. destruct (decide (b' = b)) as [->|Hne].
    + rewrite lookup_insert_eq, H1. exact Hk.
    + rewrite lookup_insert_ne, H2 by done. by apply hk_lists0.
  - rewrite Hperm, <- app_comm_cons in hk_buckets0. by apply Forall_cons in hk_buckets0 as [_ ?].
  - intros x y Hxy. apply hk_index0. rewrite Hperm, <- app_comm_cons. by right.
  - by eapply apart_perm.
  - by rewrite <- Hranges.
Qed.

(** The chunk in hand is cut in two. *)
Lemma cut_ok t L U H c n m : 0 <= n -> 0 <= m -> heap_ok lo t L U ((c, n + m) :: H) ->
  heap_ok lo t L U ((c, n) :: (c + n, m) :: H).
Proof.
  intros Hn Hm I. destruct I. split; try done.
  - assert (Hp : map range_of (L ++ U) ++ (c, n + m) :: H ≡ₚ (c, n + m) :: map range_of (L ++ U) ++ H)
      by (symmetry; apply Permutation_middle).
    apply (apart_perm _ _ Hp) in hk_apart0. apply apart_split in hk_apart0; [|done..].
    eapply apart_perm; [|exact hk_apart0]. etransitivity; [|apply Permutation_middle].
    apply perm_skip, Permutation_middle.
  - apply Forall_app in hk_inside0 as [H1 [H2 H3]%Forall_cons]. cbn in H2.
    apply Forall_app. split; [done|]. repeat constructor; cbn; try lia. done.
Qed.

Lemma swap_hand t L U H H' : H ≡ₚ H' -> heap_ok lo t L U H -> heap_ok lo t L U H'.
Proof.
  intros Hp I. destruct I. split; try done.
  - eapply apart_perm; [|done]. by rewrite Hp.
  - by rewrite <- Hp.
Qed.

(** The precedence of [==] makes the assertion a test that never fails. *)
Lemma assert_index_run b c t : assert_index b c t = Ok (tt, t).
Proof. unfold assert_index. rewrite (bind_Ok (index_of c) _ t _ t eq_refl). by destruct (b =? _). Qed.

(** ** [sh_resize] *)
Definition has (b : Z) (L : list chunk) : Prop := on_list b L <> [].

Lemma has_cons b c L : has b ((c, b) :: L).
Proof. unfold has. rewrite on_list_cons. by rewrite decide_True. Qed.

Lemma split_ok fuel : forall start bucket t L U H,
  bucket_ok start -> start = bucket \/ start + 2 <= bucket -> bucket < BUCKET_END ->
  bucket - start < Z.of_nat fuel -> heap_ok lo t L U H -> has bucket L ->
  exists t' L', split_loop fuel start bucket t = Ok (tt, t') /\ heap_ok lo t' L' U H /\
    has start L' /\ sh_curbrk t' = sh_curbrk t.
Proof.
  induction fuel as [|fuel IH]; intros start bucket t L U H Hst Hgap Hend Hf I Hhas; [lia|].
  cbn [split_loop]. destruct (Z.ltb_spec (start + 1) bucket) as [Hlt|Hge]; [|].
  2:{ destruct Hgap as [->|]; [|lia]. by exists t, L. }
  assert (Hb : bucket_ok bucket) by (unfold bucket_ok in *; lia).
  destruct (on_list bucket L) as [|c l] eqn:Hl; [done|].
  destruct (pop_ok bucket t L U H c l Hb Hl I) as (Hn & _ & L1 & I1 & _ & H8).
  rewrite (bind_Ok _ _ _ _ _ (nextfit_run _ _ Hb)), Hn, (bind_Ok (chain_of c) _ t _ t eq_refl),
    (bind_Ok _ _ _ _ _ (set_nextfit_run _ _ _ Hb)), (bind_Ok _ _ _ _ _ (assert_index_run _ _ _)).
  set (t1 := set_sh_nextfit _ t) in *.
  destruct (Z.eqb_spec (bucket - 2) (start + 1)) as [E|E].
  - assert (Hlow : bucket_ok (2 * (start / 2))) by (unfold bucket_ok, BUCKET_BEGIN, BUCKET_END in *; pose proof (Z_div_mod_eq_full start 2); pose proof (Z.mod_pos_bound start 2); lia).
    pose proof (size_facts _ Hlow) as [Zl _]. pose proof (size_facts _ Hst) as [Zs _].
    destruct (size_facts _ Hb) as (_ & _ & _ & Hsz & _).
    rewrite Hsz in I1 by (unfold bucket_ok, BUCKET_BEGIN in *; lia).
    replace (bucket - 3) with start in I1 by lia. cbv zeta. set (low := 2 * (start / 2)) in *.
    apply cut_ok in I1; [|lia..]. apply (swap_hand _ _ _ _ _ (perm_swap _ _ _)) in I1.
    apply cut_ok in I1; [|lia..].
    apply (swap_hand _ _ _ _ ((c, BUCKET_SIZE low) :: (c + BUCKET_SIZE low, BUCKET_SIZE start) ::
      (c + BUCKET_SIZE low + BUCKET_SIZE start, BUCKET_SIZE start) :: H)) in I1; [|solve_Permutation].
    pose proof (add_double c low Hlow H8) as H81. pose proof (add_double _ start Hst H81) as H82.
    destruct (push_ok low c t1 _ _ _ Hlow H8 I1) as (t2 & R2 & I2 & C2).
    destruct (push_ok start _ t2 _ _ _ Hst H81 I2) as (t3 & R3 & I3 & C3).
    destruct (push_ok start _ t3 _ _ _ Hst H82 I3) as (t4 & R4 & I4 & C4).
    rewrite (bind_Ok _ _ _ _ _ R2), (bind_Ok _ _ _ _ _ R3), (bind_Ok _ _ _ _ _ R4).
    edestruct (IH start start t4) as (t' & L' & R & I' & Hh & C');
      [exact Hst|by left|unfold bucket_ok in Hst; lia|lia|exact I4|apply has_cons|].
    exists t', L'. split_and!; [done..|]. rewrite C', C4, C3, C2. done.
  - assert (Hb2 : bucket_ok (bucket - 2)) by (unfold bucket_ok, BUCKET_BEGIN in *; lia).
    pose proof (size_facts _ Hb2) as [Zs _]. destruct (size_facts _ Hb) as (_ & _ & Hsz & _).
    rewrite Hsz in I1 by (unfold bucket_ok, BUCKET_BEGIN in *; lia).
    apply cut_ok in I1; [|lia..].
    destruct (push_ok _ c t1 _ _ _ Hb2 H8 I1) as (t2 & R2 & I2 & C2).
    destruct (push_ok _ _ t2 _ _ _ Hb2 (add_double _ _ Hb2 H8) I2) as (t3 & R3 & I3 & C3).
    rewrite (bind_Ok _ _ _ _ _ R2), (bind_Ok _ _ _ _ _ R3).
    edestruct (IH start (bucket - 2) t3) as (t' & L' & R & I' & Hh & C');
      [exact Hst|lia|lia|lia|exact I3|apply has_cons|].
    exists t', L'. split_and!; [done..|]. rewrite C', C3, C2. done.
Qed.

Lemma resize_from_ok fuel : forall start bucket t L U H,
  bucket_ok start -> start + 2 <= bucket -> heap_ok lo t L U H ->
  exists b t' L', resize_from fuel start bucket t = Ok (b, t') /\ heap_ok lo t' L' U H /\
    sh_curbrk t' = sh_curbrk t /\ (if b : bool then has start L' else t' = t).
Proof.
  induction fuel as [|fuel IH]; intros start bucket t L U H Hst Hgap I; [by exists false, t, L|].
  cbn [resize_from]. destruct (Z.ltb_spec bucket BUCKET_END) as [Hlt|]; [|by exists false, t, L].
  assert (Hb : bucket_ok bucket) by (unfold bucket_ok in *; lia).
  rewrite (bind_Ok _ _ _ _ _ (nextfit_run _ _ Hb)).
  destruct (on_list bucket L) as [|a l] eqn:Hl.
  - pose proof (hk_lists _ _ _ _ _ I bucket Hb) as Hk. rewrite Hl in Hk. cbn in Hk. rewrite Hk.
    destruct (IH start (bucket + 1) t L U H) as (b & t' & L' & Hr); [done|lia|done|]. by exists b, t', L'.
  - destruct (pop_ok bucket t L U H a l Hb Hl I) as (-> & Hne & _). rewrite (proj2 (Z.eqb_neq _ _) Hne).
    destruct (split_ok 60 start bucket t L U H) as (t' & L' & R & I' & Hh & C); [done|lia|done| |done| |].
    + unfold bucket_ok, BUCKET_BEGIN, BUCKET_END in *. lia.
    + unfold has. by rewrite Hl.
    + exists true, t', L'. rewrite (bind_Ok _ _ _ _ _ R). done.
Qed.

(** The chunk in hand is given to the program. *)
Lemma use_ok t L U H a b : bucket_ok b -> a `mod` 8 = 4 -> sh_index t !! a = Some (Z.lxor b C_xor_index) ->
  heap_ok lo t L U ((a, BUCKET_SIZE b) :: H) -> heap_ok lo t L ((a, b) :: U) H.
Proof.
  intros Hb H8 Hi I. destruct I.
  assert (Hp : L ++ (a, b) :: U ≡ₚ (a, b) :: L ++ U) by (symmetry; apply Permutation_middle).
  assert (Hr : map range_of (L ++ (a, b) :: U) ++ H ≡ₚ map range_of (L ++ U) ++ (a, BUCKET_SIZE b) :: H)
    by (rewrite Hp; apply Permutation_middle).
  split; try done.
  - rewrite Hp. by constructor.
  - intros x y Hin. rewrite Hp in Hin. apply elem_of_cons in Hin as [[= -> ->]|Hin]; [done|by apply hk_index0].
  - by eapply apart_perm.
  - by rewrite Hr.
  - rewrite Hp. by constructor.
Qed.

(** A chunk in use comes back into hand. *)
Lemma unuse_ok t L U H a b : heap_ok lo t L ((a, b) :: U) H ->
  bucket_ok b /\ a `mod` 8 = 4 /\ sh_index t !! a = Some (Z.lxor b C_xor_index) /\
  heap_ok lo t L U ((a, BUCKET_SIZE b) :: H).
Proof.
  intros I. destruct I.
  assert (Hp : L ++ (a, b) :: U ≡ₚ (a, b) :: L ++ U) by (symmetry; apply Permutation_middle).
  assert (Hr : map range_of (L ++ (a, b) :: U) ++ H ≡ₚ map range_of (L ++ U) ++ (a, BUCKET_SIZE b) :: H)
    by (rewrite Hp; apply Permutation_middle).
  rewrite Hp in hk_buckets0. apply Forall_cons in hk_buckets0 as [Hb Hbs].
  rewrite Hp in hk_double0. apply Forall_cons in hk_double0 as [H8 Hd].
  split_and!; [done|done|apply hk_index0; rewrite Hp; by left|]. split; try done.
  - intros x y Hin. apply hk_index0. rewrite Hp. by right.
  - by eapply apart_perm.
  - by rewrite <- Hr.
Qed.

Lemma pop_run b t L U H : bucket_ok b -> has b L -> heap_ok lo t L U H ->
  exists a t' L', default 0 (sh_nextfit t !! b) = a /\ a <> 0 /\
    (next ← chain_of a; set_nextfit b next;; mret a) t = Ok (a, t') /\
    heap_ok lo t' L' ((a, b) :: U) H /\ sh_curbrk t' = sh_curbrk t.
Proof.
  intros Hb Hh I. destruct (on_list b L) as [|a l] eqn:Hl; [done|].
  destruct (pop_ok b t L U H a l Hb Hl I) as (Hn & Hne & L' & I' & Hi & H8).
  exists a, (set_sh_nextfit (<[b := default 0 (sh_chain t !! a)]> (sh_nextfit t)) t), L'.
  split_and!; [done|done| | |done].
  - rewrite (bind_Ok (chain_of a) _ t _ t eq_refl). by rewrite (bind_Ok _ _ _ _ _ (set_nextfit_run _ _ _ Hb)).
  - by apply use_ok.
Qed.

(** ** A new chunk *)
Lemma ldiff_page x k : 0 <= k -> Z.ldiff x (2 ^ k - 1) = 2 ^ k * (x / 2 ^ k).
Proof.
  intros Hk. replace (2 ^ k - 1) with (Z.ones k) by (rewrite Z.ones_equiv; lia).
  rewrite Z.ldiff_ones_r, Z.shiftl_mul_pow2, Z.shiftr_div_pow2 by done. lia.
Qed.

(** [curbrk | 4]: the next address that is four past a double word. *)
Lemma lor_4 c : c `mod` 4 = 0 -> Z.lor c 4 = c + 4 - c `mod` 8.
Proof.
  intros H. pose proof (Z.add_lor_land c 4) as E. rewrite <- E. clear E.
  assert (Hc : c = Z.shiftl (c / 4) 2) by (rewrite Z.shiftl_mul_pow2 by lia; lia).
  assert (El : Z.land c 4 = 4 * ((c / 4) `mod` 2)).
  { rewrite Hc at 1. change 4 with (Z.shiftl 1 2) at 2. rewrite <- Z.shiftl_land.
    change 1 with (Z.ones 1) at 1. rewrite Z.land_ones by lia. rewrite Z.shiftl_mul_pow2 by lia. lia. }
  rewrite El. lia.
Qed.

(** The address of a new chunk. *)
Definition new_chunk (page_size bucket cur : Z) : Z :=
  Z.lor (if page_size <=? BUCKET_SIZE bucket
         then Z.ldiff (cur + page_size) (page_size - 1) - sizeof_index else cur) sizeof_index.

Lemma new_chunk_facts k b cur : 3 <= k <= 15 -> cur `mod` 4 = 0 ->
  let c := new_chunk (2 ^ k) b cur in
  cur <= c <= cur + 2 ^ k + 4 /\ c `mod` 8 = 4 /\ (2 ^ k <= BUCKET_SIZE b -> (c + 4) `mod` 2 ^ k = 0).
Proof.
  intros Hk Hc. cbv zeta. unfold new_chunk, sizeof_index.
  assert (H8 : 2 ^ k = 8 * 2 ^ (k - 3)) by (rewrite <- (Z.pow_add_r 2 3) by lia; f_equal; lia).
  assert (Hp : 0 < 2 ^ (k - 3)) by lia.
  destruct (Z.leb_spec (2 ^ k) (BUCKET_SIZE b)) as [Hle|Hgt].
  - rewrite ldiff_page by lia.
    set (q := (cur + 2 ^ k) / 2 ^ k). set (m := 2 ^ (k - 3)) in *.
    pose proof (Z_div_mod_eq_full (cur + 2 ^ k) (2 ^ k)) as E. fold q in E.
    pose proof (Z.mod_pos_bound (cur + 2 ^ k) (2 ^ k) ltac:(lia)) as Hm.
    assert (E8 : (2 ^ k * q - 4) `mod` 8 = 4).
    { rewrite H8. replace (8 * m * q - 4) with (4 + (m * q - 1) * 8) by lia. by rewrite Z_mod_plus_full. }
    rewrite lor_4 by lia. rewrite E8. split_and!.
    + assert (Hd : (2 ^ k * q - cur) `mod` 4 = 0).
      { rewrite H8. replace (8 * m * q - cur) with (- cur + 2 * m * q * 4) by lia. rewrite Z_mod_plus_full. lia. }
      lia.
    + lia.
    + lia.
    + intros _. replace (2 ^ k * q - 4 + 4 - 4 + 4) with (q * 2 ^ k) by lia. apply Z_mod_mult.
  - rewrite lor_4 by done. split_and!; [lia..|]. lia.
Qed.

(** [curbrk] and the largest chunk are far from the end of the address space. *)
Definition room (page_size limit : Z) : Prop := limit + page_size + 2 ^ 30 + 8 <= 2 ^ 32.

(** The end of the heap moves up. *)
Lemma raise_ok t L U H c : sh_curbrk t <= c -> c `mod` 4 = 0 -> heap_ok lo t L U H ->
  heap_ok lo (set_sh_curbrk c t) L U H.
Proof.
  intros Hc Ha I. destruct I. split; try done; cbn [sh_curbrk set_sh_curbrk].
  - intros b Hb. apply (links_ext t); [done|]. by apply hk_lists0.
  - eapply Forall_impl; [exact hk_inside0|]. cbn. intros. lia.
  - lia.
Qed.

(** An index stored at or above the end of the heap. *)
Lemma index_above t L U H c x : sh_curbrk t <= c -> heap_ok lo t L U H ->
  heap_ok lo (set_sh_index (<[c := x]> (sh_index t)) t) L U H.
Proof.
  intros Hc I. destruct I.
  assert (Hne : forall a b', (a, b') ∈ L ++ U -> a <> c).
  { intros a b' Hin ->. rewrite Forall_forall in hk_inside0, hk_buckets0.
    pose proof (size_facts b' (hk_buckets0 _ Hin)) as [Hz' _].
    assert (Hin' : (c, BUCKET_SIZE b') ∈ map range_of (L ++ U) ++ H)
      by (apply elem_of_app; left; apply list_elem_of_fmap; by exists (c, b')).
    apply hk_inside0 in Hin'. cbn in Hin'. lia. }
  split; try done.
  - intros b' Hb'. apply (links_ext t); [done|]. by apply hk_lists0.
  - intros a b' Hin. cbn. rewrite lookup_insert_ne by (intros <-; by eapply Hne). by apply hk_index0.
Qed.

(** A range at the end of the heap. *)
Lemma range_above t L U H c n : sh_curbrk t <= c -> 0 <= n -> (c + n) `mod` 4 = 0 -> heap_ok lo t L U H ->
  heap_ok lo (set_sh_curbrk (c + n) t) L U ((c, n) :: H).
Proof.
  intros Hc Hn Ha I. pose proof (hk_inside _ _ _ _ _ I) as Hin. pose proof (hk_brk _ _ _ _ _ I).
  apply (raise_ok _ _ _ _ (c + n)) in I; [|lia|done]. destruct I. split; try done.
  - eapply apart_perm; [apply Permutation_middle|]. split; [|done].
    eapply Forall_impl; [exact Hin|]. intros [a m] [_ Hr]. right. cbn in *. lia.
  - rewrite <- Permutation_middle. constructor; [cbn; lia|done].
Qed.

Lemma fresh_ok t L U H c b : bucket_ok b -> sh_curbrk t <= c -> c `mod` 8 = 4 ->
  heap_ok lo t L U H ->
  heap_ok lo (set_sh_curbrk (c + BUCKET_SIZE b) (set_sh_index (<[c := Z.lxor b C_xor_index]> (sh_index t)) t))
    L ((c, b) :: U) H.
Proof.
  intros Hb Hc Ha I. pose proof (size_facts b Hb) as [Hz _].
  apply use_ok; [done|done|cbn; by rewrite lookup_insert_eq|].
  pose proof (add_double c b Hb Ha). apply range_above; [done|lia..|]. by apply index_above.
Qed.

Lemma extend_start k b t : 3 <= k <= 15 -> 0 < sh_curbrk t -> sh_curbrk t `mod` 4 = 0 ->
  sh_curbrk t + 2 ^ k < 2 ^ 32 ->
  exists cur, when (2 ^ k <=? BUCKET_SIZE b)
    (modify (fun t => set_sh_curbrk (u32 (Z.ldiff (sh_curbrk t + 2 ^ k) (2 ^ k - 1) - sizeof_index)) t)) t =
    Ok (tt, set_sh_curbrk cur t) /\ new_chunk (2 ^ k) b (sh_curbrk t) = Z.lor cur sizeof_index.
Proof.
  intros Hk Hp Ha Hr. unfold new_chunk. destruct (Z.leb_spec (2 ^ k) (BUCKET_SIZE b)); cbn [when].
  - eexists. split; [reflexivity|]. unfold u32. rewrite Z.mod_small; [done|].
    rewrite ldiff_page by lia. unfold sizeof_index.
    assert (H8 : 2 ^ k = 8 * 2 ^ (k - 3)) by (rewrite <- (Z.pow_add_r 2 3) by lia; f_equal; lia).
    set (m := 2 ^ (k - 3)) in *. assert (0 < m) by (subst m; lia).
    set (q := (sh_curbrk t + 2 ^ k) / 2 ^ k).
    pose proof (Z_div_mod_eq_full (sh_curbrk t + 2 ^ k) (2 ^ k)) as E. fold q in E.
    pose proof (Z.mod_pos_bound (sh_curbrk t + 2 ^ k) (2 ^ k) ltac:(lia)).
    assert ((2 ^ k * q - sh_curbrk t) `mod` 4 = 0).
    { rewrite H8. replace (8 * m * q - sh_curbrk t) with (- sh_curbrk t + 2 * m * q * 4) by lia.
      rewrite Z_mod_plus_full. lia. }
    lia.
  - exists (sh_curbrk t). split; [by destruct t|done].
Qed.

Lemma extend_ok k limit b t L U H :
  3 <= k <= 15 -> bucket_ok b -> room (2 ^ k) limit -> sh_curbrk t <= limit ->
  heap_ok lo t L U H ->
  let c := new_chunk (2 ^ k) b (sh_curbrk t) in
  if limit <=? c then extend (2 ^ k) limit b t = Undef
  else exists t', if c + BUCKET_SIZE b <=? limit
    then extend (2 ^ k) limit b t = Ok (c, t') /\ heap_ok lo t' L ((c, b) :: U) H /\ sh_curbrk t' = c + BUCKET_SIZE b
    else extend (2 ^ k) limit b t = Ok (0, t') /\ heap_ok lo t' L U H /\ sh_curbrk t' = c.
Proof.
  intros Hk Hb Hr Hl I c. unfold room in Hr. pose proof (size_facts b Hb) as (Hz & H16 & _).
  pose proof (hk_align _ _ _ _ _ I) as Ha. pose proof (hk_brk _ _ _ _ _ I) as Hbr.
  destruct (new_chunk_facts k b (sh_curbrk t) Hk Ha) as (Hc & Hc8 & _). fold c in Hc, Hc8.
  assert (Hp : 0 < 2 ^ k) by lia.
  destruct (extend_start k b t) as (cur & Hrun & Ec); [lia..|]. fold c in Ec. unfold extend.
  rewrite (bind_Ok _ _ _ _ _ Hrun), (bind_Ok (modify _) _ _ tt _ eq_refl), (bind_Ok (gets _) _ _ _ _ eq_refl).
  cbn [sh_curbrk set_sh_curbrk]. rewrite <- Ec.
  destruct (Z.leb_spec limit c) as [Hlim|Hlim].
  - rewrite (proj2 (Z.ltb_ge _ _) Hlim). done.
  - rewrite (proj2 (Z.ltb_lt _ _) Hlim), (bind_Ok (set_index _ _) _ _ tt _ eq_refl),
      (bind_Ok (modify _) _ _ tt _ eq_refl), (bind_Ok (gets _) _ _ _ _ eq_refl).
    cbn [sh_curbrk set_sh_curbrk set_sh_index sh_index sh_nextfit sh_chain].
    unfold u32. rewrite Z.mod_small by lia. destruct (Z.leb_spec (c + BUCKET_SIZE b) limit) as [Hfit|Hfit].
    + rewrite (proj2 (Z.ltb_ge _ _) Hfit). eexists. split; [reflexivity|]. split; [|done].
      apply (fresh_ok t L U H c b); try done; lia.
    + rewrite (proj2 (Z.ltb_lt _ _) Hfit). eexists. split; [reflexivity|]. split; [|done].
      apply (raise_ok (set_sh_index (<[c := Z.lxor b C_xor_index]> (sh_index t)) t));
        [cbn; lia|lia|]. apply index_above; [lia|done].
Qed.

(** ** The operations *)

(** What [Tmk_malloc] does with the lock held: a chunk of the bucket, NULL
    when the heap is exhausted, or a fault when even the index of a new chunk
    would lie behind the last page. *)
Definition malloc_spec (ps limit b : Z) (t : heap_table) (L U : list chunk) (H : list range)
    (r : res (Z * heap_table)) : Prop :=
  match r with
  | Ok (a, t') => exists L', sh_curbrk t' <= limit /\
      if a =? 0 then heap_ok lo t' L' U H /\ limit < new_chunk ps b (sh_curbrk t) + BUCKET_SIZE b
      else heap_ok lo t' L' ((a, b) :: U) H
  | Undef => limit <= new_chunk ps b (sh_curbrk t)
  | _ => False
  end.

Lemma take_chunk_ok k limit b t L U H :
  3 <= k <= 15 -> bucket_ok b -> room (2 ^ k) limit -> sh_curbrk t <= limit ->
  heap_ok lo t L U H -> malloc_spec (2 ^ k) limit b t L U H (take_chunk 2 (2 ^ k) limit b t).
Proof.
  intros Hk Hb Hr Hl I.
  assert (Hpop : forall fuel t1 L1, has b L1 -> heap_ok lo t1 L1 U H -> sh_curbrk t1 = sh_curbrk t ->
    malloc_spec (2 ^ k) limit b t L U H (take_chunk (S fuel) (2 ^ k) limit b t1)).
  { intros fuel t1 L1 Hh I1 C1. destruct (pop_run b t1 L1 U H Hb Hh I1) as (a & t2 & L2 & Hn & Hne & R & I2 & C2).
    cbn [take_chunk]. rewrite (bind_Ok _ _ _ _ _ (nextfit_run _ _ Hb)), Hn, (proj2 (Z.eqb_neq _ _) Hne), R.
    exists L2. rewrite C2, C1, (proj2 (Z.eqb_neq _ _) Hne). done. }
  destruct (decide (has b L)) as [Hh|Hh]; [by apply (Hpop 1%nat t L)|].
  assert (Hnil : on_list b L = []) by (unfold has in Hh; by destruct (on_list b L); [|destruct Hh]).
  pose proof (hk_lists _ _ _ _ _ I b Hb) as Hn. rewrite Hnil in Hn. cbn in Hn.
  change (take_chunk 2 (2 ^ k) limit b t) with
    ((chain ← nextfit b; if chain =? 0 then (r ← sh_resize b; if r : bool then take_chunk 1 (2 ^ k) limit b else extend (2 ^ k) limit b)
      else (next ← chain_of chain; set_nextfit b next;; mret chain)) t).
  rewrite (bind_Ok _ _ _ _ _ (nextfit_run _ _ Hb)), Hn. cbn [Z.eqb].
  destruct (resize_from_ok 60 b (b + 2) t L U H Hb ltac:(lia) I) as (r & t1 & L1 & R & I1 & C1 & Hx).
  fold (sh_resize b) in R. rewrite (bind_Ok _ _ _ _ _ R). destruct r; [by apply (Hpop 0%nat t1 L1)|].
  subst t1. pose proof (extend_ok k limit b t L U H Hk Hb Hr Hl I) as He. cbv zeta in He.
  pose proof (new_chunk_facts k b (sh_curbrk t) Hk (hk_align _ _ _ _ _ I)) as (Hc & _).
  pose proof (hk_brk _ _ _ _ _ I).
  destruct (Z.leb_spec limit (new_chunk (2 ^ k) b (sh_curbrk t))); [by rewrite He|].
  destruct He as [t' He]. destruct (Z.leb_spec (new_chunk (2 ^ k) b (sh_curbrk t) + BUCKET_SIZE b) limit);
    destruct He as (-> & I' & C'); exists L; rewrite C'; (split; [lia|]).
  - rewrite (proj2 (Z.eqb_neq (new_chunk (2 ^ k) b (sh_curbrk t)) 0)) by lia. done.
  - done.
Qed.

(** [Tmk_free], with the lock held. *)
Lemma release_ok t L U H a b : heap_ok lo t L ((a, b) :: U) H ->
  Z.lxor (default 0 (sh_index t !! a)) C_xor_index = b /\ b < BUCKET_END /\
  exists t', release_chunk a b t = Ok (tt, t') /\ heap_ok lo t' ((a, b) :: L) U H /\ sh_curbrk t' = sh_curbrk t.
Proof.
  intros I. apply unuse_ok in I as (Hb & H8 & Hi & I). rewrite Hi. cbn.
  rewrite Z.lxor_assoc, Z.lxor_nilpotent, Z.lxor_0_r. split; [done|]. split; [apply Hb|]. by apply link_ok.
Qed.

(** [Tmk_sbrk], with the lock held, as long as the sum does not wrap. *)
Lemma sbrk_ok t L U H limit size : 0 <= size -> size `mod` 8 = 0 -> sh_curbrk t + 7 + size < 2 ^ 32 ->
  sh_curbrk t <= limit -> heap_ok lo t L U H ->
  let a := 8 * ((sh_curbrk t + 7) / 8) in
  exists t', if a + size <=? limit
    then sbrk_locked limit size t = Ok (a, t') /\ heap_ok lo t' L U ((a, size) :: H) /\ sh_curbrk t' = a + size
    else sbrk_locked limit size t = Ok (0, t) .
Proof.
  intros Hs H8 Hw Hl I a. pose proof (hk_brk _ _ _ _ _ I).
  assert (Ea : Z.ldiff (u32 (sh_curbrk t + 7)) 7 = a).
  { unfold u32. rewrite Z.mod_small by lia. apply (ldiff_page _ 3). lia. }
  exists (set_sh_curbrk (a + size) t). unfold sbrk_locked.
  rewrite (bind_Ok (gets sh_curbrk) _ t _ t eq_refl), Ea. unfold u32. rewrite Z.mod_small by lia.
  destruct (Z.leb_spec (a + size) limit) as [Hf|Hf].
  - rewrite (proj2 (Z.ltb_ge _ _) Hf). split; [done|]. split; [|done]. apply range_above; [lia|done|lia|done].
  - by rewrite (proj2 (Z.ltb_lt _ _) Hf).
Qed.
End Ops.

(** ** Any sequence of operations *)
Record hstate : Type := HState {
  hs_table : heap_table;
  hs_used : list chunk;      (** the chunks the program has *)
  hs_ranges : list range     (** what [Tmk_sbrk] has given it *)
}.

Inductive hstep (ps limit : Z) : hstate -> hstate -> Prop :=
  | hstep_malloc t U H b a t' :
      bucket_ok b -> take_chunk 2 ps limit b t = Ok (a, t') ->
      hstep ps limit (HState t U H) (HState t' (if a =? 0 then U else (a, b) :: U) H)
  | hstep_free t U U' H a b t' :
      U ≡ₚ (a, b) :: U' ->
      release_chunk a (Z.lxor (default 0 (sh_index t !! a)) C_xor_index) t = Ok (tt, t') ->
      hstep ps limit (HState t U H) (HState t' U' H)
  | hstep_sbrk t U H size a t' :
      0 <= size -> size `mod` 8 = 0 -> sh_curbrk t + 7 + size < 2 ^ 32 ->
      sbrk_locked limit size t = Ok (a, t') ->
      hstep ps limit (HState t U H) (HState t' U (if a =? 0 then H else (a, size) :: H)).

Lemma perm_used lo t L U U' H : U ≡ₚ U' -> heap_ok lo t L U H -> heap_ok lo t L U' H.
Proof.
  intros Hp I. destruct I. split; try done.
  - by rewrite <- Hp.
  - intros a b Hin. apply hk_index0. by rewrite Hp.
  - eapply apart_perm; [|done]. by rewrite Hp.
  - by rewrite <- Hp.
  - by rewrite <- Hp.
Qed.

Definition good (lo limit : Z) (s : hstate) : Prop :=
  (exists L, heap_ok lo (hs_table s) L (hs_used s) (hs_ranges s)) /\ sh_curbrk (hs_table s) <= limit.

Lemma good_step lo k limit s s' : 0 < lo -> 3 <= k <= 15 -> room (2 ^ k) limit ->
  good lo limit s -> hstep (2 ^ k) limit s s' -> good lo limit s'.
Proof.
  intros Hlo Hk Hr [[L I] Hl] Hs. destruct Hs as [t U H b a t' Hb Hrun|t U U' H a b t' Hp Hrun|t U H size a t' H0 H8 Hw Hrun];
    cbn [hs_table hs_used hs_ranges] in *.
  - pose proof (take_chunk_ok lo Hlo k limit b t L U H Hk Hb Hr Hl I) as Hspec. rewrite Hrun in Hspec.
    destruct Hspec as (L' & Hl' & I'). split; [exists L'|done]. cbn. destruct (a =? 0); [apply I'|done].
  - apply (perm_used _ _ _ _ _ _ Hp) in I. destruct (release_ok lo t L U' H a b I) as (Eb & _ & t1 & R & I' & C).
    rewrite Eb, R in Hrun. injection Hrun as <-. split; [by exists ((a, b) :: L)|]. cbn. lia.
  - pose proof (sbrk_ok lo Hlo t L U H limit size H0 H8 Hw Hl I) as Hspec. cbv zeta in Hspec.
    pose proof (hk_brk _ _ _ _ _ I). set (x := 8 * ((sh_curbrk t + 7) / 8)) in *.
    assert (0 < x) by (subst x; lia). destruct Hspec as [t1 Hspec]. destruct (Z.leb_spec (x + size) limit).
    + destruct Hspec as (R & I' & C). rewrite R in Hrun. injection Hrun as <- <-.
      rewrite (proj2 (Z.eqb_neq _ _)) by lia. split; [by exists L|]. cbn. lia.
    + rewrite Hspec in Hrun. injection Hrun as <- <-. by split; [exists L|].
Qed.

(** The heap that [table_initialize] sets up. *)
Definition fresh_heap (vadr : Z) (bucket : Z) : hstate :=
  HState (HeapTable (vadr + BUCKET_SIZE bucket) ∅ ∅ ∅) [] [].

Lemma good_fresh vadr bucket limit : bucket_ok bucket -> vadr `mod` 8 = 0 -> vadr + BUCKET_SIZE bucket <= limit ->
  good (vadr + BUCKET_SIZE bucket) limit (fresh_heap vadr bucket).
Proof.
  intros Hb Hv Hl. pose proof (size_facts bucket Hb) as (_ & H16 & _).
  split; [|done]. exists []. cbn. split; cbn; try done; try constructor; try lia.
  intros a b Hin. by apply elem_of_nil in Hin.
Qed.

(** ** The bucket of a size *)
Lemma size_mono b b' : bucket_ok b -> bucket_ok b' -> b <= b' -> BUCKET_SIZE b <= BUCKET_SIZE b'.
Proof.
  intros Hb Hb' Hle. remember (Z.to_nat (b' - b)) as d eqn:E. revert b' Hb' Hle E.
  induction d as [|d IH]; intros b' Hb' Hle E; [replace b' with b by lia; lia|].
  unfold bucket_ok, BUCKET_BEGIN in *.
  destruct (size_facts b') as (_ & _ & _ & _ & Hs); [done|]. specialize (IH (b' - 1)).
  unfold bucket_ok, BUCKET_BEGIN in *. lia.
Qed.

Lemma find_bucket_ok fuel n : forall b, bucket_ok b -> BUCKET_END <= b + Z.of_nat fuel -> n <= 2 ^ 30 ->
  (b = BUCKET_BEGIN \/ BUCKET_SIZE (b - 1) < n) ->
  exists b', find_bucket fuel n b = Some b' /\ bucket_ok b' /\ n <= BUCKET_SIZE b' /\
    (b' = BUCKET_BEGIN \/ BUCKET_SIZE (b' - 1) < n).
Proof.
  induction fuel as [|fuel IH]; intros b Hb Hf Hn Hp; [unfold bucket_ok in *; lia|]. cbn [find_bucket].
  destruct (Z.ltb_spec (BUCKET_SIZE b) n) as [Hlt|Hge]; [|by exists b].
  assert (Hmax : BUCKET_SIZE (BUCKET_END - 1) = 2 ^ 30) by reflexivity.
  assert (b <> BUCKET_END - 1) by (intros ->; lia).
  apply IH; [unfold bucket_ok in *; lia|lia|done|]. right. by replace (b + 1 - 1) with b by lia.
Qed.

(** No free chunk: nothing to split. *)
Lemma resize_empty fuel start bucket t : sh_nextfit t = ∅ -> 0 <= bucket ->
  resize_from fuel start bucket t = Ok (false, t).
Proof.
  intros Hn. revert bucket. induction fuel as [|fuel IH]; intros bucket Hb; [done|]. cbn [resize_from].
  destruct (Z.ltb_spec bucket BUCKET_END) as [Hlt|]; [|done].
  assert (R : nextfit bucket t = Ok (0, t)).
  { unfold nextfit. rewrite (proj2 (Z.leb_le 0 bucket) Hb), (proj2 (Z.ltb_lt _ _) Hlt). cbn [andb]. unfold gets. by rewrite Hn, lookup_empty. }
  rewrite (bind_Ok _ _ _ _ _ R). cbn [Z.eqb]. apply IH. lia.
Qed.

(** ** The properties *)


(** [Tmk_malloc] always comes to an end with the lock held: it returns a
    chunk of the bucket asked for that is disjoint from everything in use, or
    NULL when a new chunk would pass the end of the shared memory; the only
    other outcome is a fault, when even the first word of a new chunk would
    lie behind the last page. *)
Theorem malloc_total lo k limit b t L U H :
  0 < lo -> 3 <= k <= 15 -> bucket_ok b -> room (2 ^ k) limit -> sh_curbrk t <= limit ->
  heap_ok lo t L U H -> malloc_spec lo (2 ^ k) limit b t L U H (take_chunk 2 (2 ^ k) limit b t).
Proof. intros Hlo. by apply take_chunk_ok. Qed.

(** A chunk given back is reused: [Tmk_free] finds its bucket in the
    index, puts it on that bucket's list, and the next [Tmk_malloc] for that
    bucket returns it. *)
Theorem free_then_malloc lo t L U H a b ps limit :
  0 < lo -> heap_ok lo t L ((a, b) :: U) H ->
  Z.lxor (default 0 (sh_index t !! a)) C_xor_index = b /\
  exists t1 t2, release_chunk a b t = Ok (tt, t1) /\ heap_ok lo t1 ((a, b) :: L) U H /\
    take_chunk 2 ps limit b t1 = Ok (a, t2).
Proof.
  intros Hlo I. pose proof (unuse_ok lo t L U H a b I) as (Hb & _).
  destruct (release_ok lo t L U H a b I) as (Eb & _ & t1 & R & I1 & _). split; [exact Eb|].
  destruct (pop_run lo Hlo b t1 ((a, b) :: L) U H Hb (has_cons _ _ _) I1) as (a' & t2 & L' & Hn & Hne & Rp & _).
  assert (a' = a) as ->.
  { pose proof (hk_lists _ _ _ _ _ I1 b Hb) as Hl. rewrite on_list_cons, decide_True in Hl by done.
    destruct Hl as [Hl _]. cbn in Hl. by rewrite <- Hn. }
  exists t1, t2. split_and!; [done|done|]. cbn [take_chunk].
  by rewrite (bind_Ok _ _ _ _ _ (nextfit_run _ _ Hb)), Hn, (proj2 (Z.eqb_neq _ _) Hne).
Qed.

(** A request of up to 2^30 bytes with its index gets the least bucket
    that is large enough, and the search stays inside the table. *)
Theorem bucket_for_least n : n <= 2 ^ 30 ->
  exists b, bucket_for n = Some b /\ bucket_ok b /\ n <= BUCKET_SIZE b /\
    forall b', bucket_ok b' -> n <= BUCKET_SIZE b' -> b <= b'.
Proof.
  intros Hn. destruct (find_bucket_ok 56 n BUCKET_BEGIN) as (b & R & Hb & Hle & Hleast);
    [unfold bucket_ok, BUCKET_BEGIN, BUCKET_END; lia|unfold BUCKET_BEGIN, BUCKET_END; lia|done|by left|].
  exists b. split_and!; [done|done|done|]. intros b' Hb' Hn'.
  destruct Hleast as [->|Hl]; [apply Hb'|]. destruct (Z.le_gt_cases b b'); [done|].
  assert (BUCKET_SIZE b' <= BUCKET_SIZE (b - 1)); [|lia].
  apply size_mono; unfold bucket_ok in *; lia.
Qed.

(** The sizes are added in 32 bits without a check.  A request of
    2^32 - 1 bytes is given a chunk of the smallest bucket, and [Tmk_sbrk] of
    2^32 - 8 bytes succeeds and moves the end of the heap down, into memory
    that is in use. *)
Theorem sizes_wrap limit t :
  8 <= sh_curbrk t <= limit -> limit < 2 ^ 32 -> sh_curbrk t `mod` 8 = 0 ->
  bucket_for (u32 (4294967295 + sizeof_index)) = Some BUCKET_BEGIN /\
  sbrk_locked limit 4294967288 t = Ok (sh_curbrk t, set_sh_curbrk (sh_curbrk t - 8) t).
Proof.
  intros Hc Hl H8. split; [reflexivity|]. unfold sbrk_locked.
  destruct (Z.le_gt_cases (2 ^ 32) (sh_curbrk t + 7)) as [|Hw]; [lia|].
  assert (Ea : Z.ldiff (u32 (sh_curbrk t + 7)) 7 = sh_curbrk t).
  { unfold u32. rewrite Z.mod_small by lia. rewrite (ldiff_page _ 3) by lia. lia. }
  rewrite (bind_Ok (gets sh_curbrk) _ t _ t eq_refl), Ea.
  assert (Es : u32 (sh_curbrk t + 4294967288) = sh_curbrk t - 8).
  { unfold u32. replace (sh_curbrk t + 4294967288) with (sh_curbrk t - 8 + 1 * 2 ^ 32) by lia.
    rewrite Z_mod_plus_full, Z.mod_small; lia. }
  cbv zeta. rewrite Es, (proj2 (Z.ltb_ge _ _)) by lia. done.
Qed.

(** Chunks of a page or more are not always page aligned, which
    [Tmk_mmap] relies on: with pages of 4096 bytes, after a chunk for 8192
    bytes has been freed, a request for 4096 bytes gets a piece of it whose
    memory starts in the middle of a page. *)
Theorem malloc_not_page_aligned :
  let limit := 1140850688 in
  match bucket_for (8192 + sizeof_index), bucket_for (4096 + sizeof_index) with
  | Some b1, Some b2 =>
      4096 <= BUCKET_SIZE b2 /\
      match (a1 ← take_chunk 2 4096 limit b1; release_chunk a1 b1;;
             a2 ← take_chunk 2 4096 limit b2; mret (a1, a2)) (HeapTable 1073742080 ∅ ∅ ∅) with
      | Ok ((a1, a2), _) =>
          (a1 + sizeof_index) `mod` 4096 = 0 /\ (a2 + sizeof_index) `mod` 4096 = 2048
      | _ => False
      end
  | _, _ => False
  end.
Proof. vm_compute. repeat split. discriminate. Qed.

(** Running out of memory is not always reported: once the last byte has
    been given out by [Tmk_sbrk], [Tmk_malloc] of any size faults on the word
    behind the last page instead of returning NULL. *)
Theorem malloc_at_end_faults k limit b t :
  3 <= k <= 15 -> bucket_ok b -> 0 < limit -> room (2 ^ k) limit -> limit `mod` 8 = 0 ->
  sh_curbrk t = limit -> sh_nextfit t = ∅ -> take_chunk 2 (2 ^ k) limit b t = Undef.
Proof.
  intros Hk Hb Hp Hr H8 Hc Hn.
  assert (I : heap_ok limit t [] [] []).
  { split; cbn; rewrite ?Hc; try done; try constructor; try lia.
    - intros b' Hb'. rewrite Hn. done.
    - intros a b' Hin. by apply elem_of_nil in Hin. }
  pose proof (extend_ok limit Hp k limit b t [] [] [] Hk Hb Hr ltac:(lia) I) as He. cbv zeta in He.
  destruct (new_chunk_facts k b (sh_curbrk t) Hk ltac:(lia)) as (Hle & _).
  replace (limit <=? _) with true in He by lia.
  change (take_chunk 2 (2 ^ k) limit b t) with
    ((chain ← nextfit b; if chain =? 0 then (r ← sh_resize b; if r : bool then take_chunk 1 (2 ^ k) limit b else extend (2 ^ k) limit b)
      else (next ← chain_of chain; set_nextfit b next;; mret chain)) t).
  rewrite (bind_Ok _ _ _ _ _ (nextfit_run _ _ Hb)), Hn, lookup_empty. cbn [default Z.eqb].
  unfold sh_resize. rewrite (bind_Ok _ _ _ _ _ (resize_empty 60 b (b + 2) t Hn ltac:(unfold bucket_ok, BUCKET_BEGIN in *; lia))).
  exact He.
Qed.

(** *** Examples: the default region of 64 MB with pages of 4096 bytes *)
Definition vadr_ex : Z := 1073741824.
Definition limit_ex : Z := 1140850688.
Definition one_chunk : hstate :=
  match take_chunk 2 4096 limit_ex 25 (hs_table (fresh_heap vadr_ex 14)) with
  | Ok (a, t) => HState t [(a, 25)] []
  | _ => fresh_heap vadr_ex 14
  end.

Lemma room_ex : room (2 ^ 12) limit_ex.
Proof. vm_compute. discriminate. Qed.

Lemma bucket_ok_ex b : (BUCKET_BEGIN <=? b) && (b <? BUCKET_END) = true -> bucket_ok b.
Proof. unfold bucket_ok. lia. Qed.

Lemma one_chunk_step : hstep (2 ^ 12) limit_ex (fresh_heap vadr_ex 14) one_chunk.
Proof.
  assert (E : one_chunk = match take_chunk 2 (2 ^ 12) limit_ex 25 (hs_table (fresh_heap vadr_ex 14)) with
    | Ok (a, t) => HState t (if a =? 0 then [] else [(a, 25)]) [] | _ => fresh_heap vadr_ex 14 end)
    by (vm_compute; reflexivity).
  rewrite E. destruct (take_chunk 2 (2 ^ 12) limit_ex 25 (hs_table (fresh_heap vadr_ex 14))) as [[a t]| | |] eqn:R;
    [|by vm_compute in R..].
  by eapply hstep_malloc; [apply bucket_ok_ex|].
Qed.

Lemma one_chunk_good : good (vadr_ex + BUCKET_SIZE 14) limit_ex one_chunk.
Proof.
  apply (good_step _ 12 limit_ex (fresh_heap vadr_ex 14)); [done|lia|exact room_ex| |exact one_chunk_step].
  apply good_fresh; [by apply bucket_ok_ex|done|by vm_compute].
Qed.


Lemma one_chunk_used : hs_used one_chunk = [(1073745916, 25)] /\ hs_ranges one_chunk = [].
Proof. vm_compute. done. Qed.

Lemma malloc_total_witness : exists L,
  malloc_spec (vadr_ex + BUCKET_SIZE 14) (2 ^ 12) limit_ex 23 (hs_table one_chunk) L
    (hs_used one_chunk) (hs_ranges one_chunk)
    (take_chunk 2 (2 ^ 12) limit_ex 23 (hs_table one_chunk)).
Proof.
  destruct one_chunk_good as [[L I] Hl]. exists L.
  apply malloc_total; [done|lia|by apply bucket_ok_ex|exact room_ex|exact Hl|exact I].
Defined.

Lemma free_then_malloc_witness : exists t1 t2,
  release_chunk 1073745916 25 (hs_table one_chunk) = Ok (tt, t1) /\
  take_chunk 2 4096 limit_ex 25 t1 = Ok (1073745916, t2).
Proof.
  destruct one_chunk_good as [[L I] _]. destruct one_chunk_used as [E1 E2]. rewrite E1, E2 in I.
  destruct (free_then_malloc (vadr_ex + BUCKET_SIZE 14) (hs_table one_chunk) L [] [] 1073745916 25 4096 limit_ex)
    as (_ & t1 & t2 & H1 & _ & H2); [done|exact I|]. exists t1, t2. split; assumption.
Defined.

Lemma bucket_for_least_witness : exists b, bucket_for 8196 = Some b /\ bucket_ok b /\ 8196 <= BUCKET_SIZE b /\
  forall b', bucket_ok b' -> 8196 <= BUCKET_SIZE b' -> b <= b'.
Proof. apply (bucket_for_least 8196). lia. Defined.

Lemma sizes_wrap_witness :
  bucket_for (u32 (4294967295 + sizeof_index)) = Some BUCKET_BEGIN /\
  sbrk_locked limit_ex 4294967288 (hs_table (fresh_heap vadr_ex 14)) =
    Ok (1073742080, set_sh_curbrk (1073742080 - 8) (hs_table (fresh_heap vadr_ex 14))).
Proof.
  apply (sizes_wrap limit_ex (hs_table (fresh_heap vadr_ex 14)));
    [split; vm_compute; discriminate|vm_compute; reflexivity|vm_compute; reflexivity].
Defined.

Lemma malloc_at_end_faults_witness :
  take_chunk 2 (2 ^ 12) limit_ex 8 (HeapTable limit_ex ∅ ∅ ∅) = Undef.
Proof.
  apply malloc_at_end_faults; [lia|by apply bucket_ok_ex|done|exact room_ex|done|done|done].
Defined.
