(* ===== verification/CondQueue.v ===== *)
(** * The queues of condition variables are first in, first out

    The pointers of [waitq_] and of a condition variable represent a list of
    waiting processes; [waitq_enqueue] adds one at its end, [waitq_dequeue]
    takes the first, and a broadcast hands the lock along the whole list in
    order. *)
From S2P Require Import Prelude Pages State PageSets Interval IntervalCreate Lock LockProtocol LockRefine.
Local Open Scope Z_scope.

Definition the_cond (id id2 : Z) (s : node) : cond := lk_cond (the_lock id s) !!! id2.
Definition the_entry (w : Z) (s : node) : waitq_entry := n_waitq s !!! w.

(** The processes from [p] on. *)
Fixpoint wlinks (s : node) (p : option Z) (q : list Z) : Prop :=
  match q with
  | [] => p = None
  | w :: q' => p = Some w /\ wlinks s (wq_next (the_entry w s)) q'
  end.

Record queue_is (id id2 : Z) (s : node) (q : list Z) : Prop := {
  qi_links : wlinks s (c_head (the_cond id id2 s)) q;
  qi_tail : c_tail (the_cond id id2 s) = last q;
  qi_nodup : NoDup q
}.

Definition cond_id_ok (id2 : Z) : Prop := 0 <= id2 < NCONDS.

(** The fields of a lock that its protocol uses. *)
Definition core (lk : lock) : Z * Z * bool * Z := (lk_manager lk, lk_tail lk, lk_held lk, lk_next lk).

Section Queue.
Context (id id2 : Z) (Hid : lock_id_ok id) (Hid2 : cond_id_ok id2).

Lemma cond_at_run s : cond_at id id2 s = Ok (the_cond id id2 s, s).
Proof.
  unfold cond_at. rewrite (bind_Ok _ _ _ _ _ (lock_at_run id s Hid)).
  assert (E : (0 <=? id2) && (id2 <? NCONDS) = true) by (unfold cond_id_ok in Hid2; lia). by rewrite E.
Qed.

(** A change of the condition variable. *)
Definition with_cond (f : cond -> cond) (s : node) : node :=
  set_n_locks (<[id := set_lk_cond (<[id2 := f (the_cond id id2 s)]> (lk_cond (the_lock id s))) (the_lock id s)]>
    (n_locks s)) s.

Lemma set_cond_run f s : set_cond id id2 f s = Ok (tt, with_cond f s).
Proof. unfold set_cond. by rewrite set_lock_run. Qed.

Lemma the_cond_with f s : the_cond id id2 (with_cond f s) = f (the_cond id id2 s).
Proof. unfold the_cond at 1, with_cond. rewrite the_lock_set. apply lookup_total_insert_eq. Qed.

(** A change of an entry. *)
Definition with_entry (w : Z) (f : waitq_entry -> waitq_entry) (s : node) : node :=
  set_n_waitq (<[w := f (the_entry w s)]> (n_waitq s)) s.

Lemma set_waitq_run w f s : set_waitq w f s = Ok (tt, with_entry w f s).
Proof. done. Qed.

Lemma the_entry_eq w f s : the_entry w (with_entry w f s) = f (the_entry w s).
Proof. unfold the_entry, with_entry. apply lookup_total_insert_eq. Qed.

Lemma the_entry_ne w v f s : v <> w -> the_entry v (with_entry w f s) = the_entry v s.
Proof. intros H. unfold the_entry, with_entry. by apply lookup_total_insert_ne. Qed.

Lemma wlinks_ext s s' p q : (forall w, w ∈ q -> wq_next (the_entry w s') = wq_next (the_entry w s)) ->
  wlinks s p q -> wlinks s' p q.
Proof.
  revert p. induction q as [|w q IH]; intros p H; [done|]. cbn. intros [-> Hl]. split; [done|].
  rewrite H by (by left). apply IH; [|done]. intros v Hv. apply H. by right.
Qed.

(** Linking a new last entry. *)
Lemma wlinks_snoc s s' p q w t : wlinks s p q -> last q = Some t -> NoDup q ->
  wq_next (the_entry t s') = Some w -> wq_next (the_entry w s') = None ->
  (forall v, v ∈ q -> v <> t -> wq_next (the_entry v s') = wq_next (the_entry v s)) ->
  wlinks s' p (q ++ [w]).
Proof.
  revert p. induction q as [|v q IH]; intros p Hl Ht Hnd H1 H2 H3; [done|]. destruct Hl as [-> Hl].
  apply NoDup_cons in Hnd as [Hv Hnd]. split; [done|]. destruct q as [|u q].
  - injection Ht as ->. cbn. by rewrite H1, H2.
  - rewrite last_cons_cons in Ht. assert (v <> t) by (intros ->; apply Hv; by apply last_in).
    rewrite H3 by (by left || done). apply IH; try done. intros x Hx. apply H3. by right.
Qed.

Lemma enqueue_run we s q : queue_is id id2 s q -> we ∉ q ->
  exists s', waitq_enqueue id id2 we s = Ok (tt, s') /\ queue_is id id2 s' (q ++ [we]) /\
    wq_queued (the_entry we s') = true /\ wq_req (the_entry we s') = wq_req (the_entry we s) /\
    (forall w, w <> we -> wq_queued (the_entry w s') = wq_queued (the_entry w s) /\
                          wq_req (the_entry w s') = wq_req (the_entry w s)).
Proof.
  intros [Hl Ht Hnd] Hwe. unfold waitq_enqueue.
  rewrite (bind_Ok _ _ _ _ _ (set_waitq_run we _ s)). set (s1 := with_entry we _ s).
  rewrite (bind_Ok _ _ _ _ _ (cond_at_run s1)). change (the_cond id id2 s1) with (the_cond id id2 s).
  assert (Hn1 : forall v, v <> we -> the_entry v s1 = the_entry v s) by (intros; by apply the_entry_ne).
  assert (He1 : the_entry we s1 = set_wq_next None (the_entry we s)) by apply the_entry_eq.
  assert (Hsnoc : NoDup (q ++ [we])) by (apply NoDup_app; split_and!; [done| |apply NoDup_singleton]; set_solver).
  rewrite Ht. destruct (last q) as [t|] eqn:El.
  - assert (Htw : t <> we) by (intros ->; apply Hwe; by apply last_in).
    rewrite (bind_Ok _ _ _ _ _ (set_waitq_run t _ s1)). set (s2 := with_entry t _ s1).
    rewrite (bind_Ok _ _ _ _ _ (set_cond_run _ s2)), set_waitq_run. eexists. split; [reflexivity|].
    set (s3 := with_cond _ s2). set (s4 := with_entry we _ s3).
    assert (Ex : forall v, the_entry v s3 = the_entry v s2) by done.
    assert (E4 : the_entry we s4 = set_wq_queued true (set_wq_next None (the_entry we s))).
    { subst s4. rewrite the_entry_eq, Ex. subst s2. by rewrite the_entry_ne, He1. }
    assert (Et : wq_next (the_entry t s4) = Some we).
    { subst s4. rewrite the_entry_ne, Ex by done. subst s2. by rewrite the_entry_eq. }
    assert (Ec : the_cond id id2 s4 = set_c_tail (Some we) (the_cond id id2 s)).
    { change (the_cond id id2 s4) with (the_cond id id2 s3). subst s3. by rewrite the_cond_with. }
    assert (Ev : forall v, v <> we -> v <> t -> the_entry v s4 = the_entry v s).
    { intros v H1 H2. subst s4. rewrite the_entry_ne, Ex by done. subst s2. by rewrite the_entry_ne, Hn1. }
    split_and!; [split| | |].
    + rewrite Ec. cbn. eapply wlinks_snoc; try done; [by rewrite E4|].
      intros v Hv Hvt. rewrite Ev; [done|by intros ->|done].
    + rewrite Ec, last_snoc. done.
    + done.
    + by rewrite E4.
    + by rewrite E4.
    + intros w Hw. destruct (decide (w = t)) as [->|]; [|by rewrite Ev].
      subst s4. rewrite the_entry_ne, Ex by done. subst s2. rewrite the_entry_eq, Hn1 by done. done.
  - apply last_None in El as ->. cbn in Hl.
    rewrite (bind_Ok _ _ _ _ _ (set_cond_run _ s1)). set (s2 := with_cond _ s1).
    rewrite (bind_Ok _ _ _ _ _ (set_cond_run _ s2)), set_waitq_run. eexists. split; [reflexivity|].
    set (s3 := with_cond _ s2). set (s4 := with_entry we _ s3).
    assert (Ec : the_cond id id2 s4 = Cond (Some we) (Some we) (c_signal_vt (the_cond id id2 s))).
    { change (the_cond id id2 s4) with (the_cond id id2 s3). subst s3. rewrite the_cond_with. subst s2.
      by rewrite the_cond_with. }
    assert (Ex : forall v, the_entry v s3 = the_entry v s1) by done.
    assert (E4 : the_entry we s4 = set_wq_queued true (set_wq_next None (the_entry we s)))
      by (subst s4; by rewrite the_entry_eq, Ex, He1).
    split_and!; [split| | |].
    + rewrite Ec. cbn. by rewrite E4.
    + by rewrite Ec.
    + apply NoDup_singleton.
    + by rewrite E4.
    + by rewrite E4.
    + intros w Hw. subst s4. by rewrite the_entry_ne, Ex, Hn1.
Qed.

(** What taking an entry off the queue leaves alone. *)
Definition same_rest (s s' : node) : Prop :=
  (exists lks wq, s' = set_n_locks lks (set_n_waitq wq s)) /\
  core (the_lock id s') = core (the_lock id s).

Lemma queue_rest_trans s1 s2 s3 : same_rest s1 s2 -> same_rest s2 s3 -> same_rest s1 s3.
Proof.
  intros [(l1 & w1 & ->) C1] [(l2 & w2 & ->) C2]. split; [by exists l2, w2|]. by rewrite C2, C1.
Qed.

Lemma same_rest_cond f s : same_rest s (with_cond f s).
Proof.
  split; [exists (n_locks (with_cond f s)), (n_waitq s); by destruct s|]. unfold with_cond. by rewrite the_lock_set.
Qed.

Lemma same_rest_entry w f s : same_rest s (with_entry w f s).
Proof. split; [exists (n_locks s), (n_waitq (with_entry w f s)); by destruct s|done]. Qed.

(** The request that is served for a waiting process. *)
Definition lock_request_of (w : Z) (s : node) : request := set_rq_type REQ_LOCK (wq_req (the_entry w s)).

Definition entry_ok (s : node) (w : Z) : Prop :=
  rq_from (wq_req (the_entry w s)) = w /\ rq_id (wq_req (the_entry w s)) = id.

Lemma dequeue_run w s q : queue_is id id2 s (w :: q) -> entry_ok s w ->
  exists s1, queue_is id id2 s1 q /\ same_rest s s1 /\ wq_queued (the_entry w s1) = false /\
    (forall v, v <> w -> the_entry v s1 = the_entry v s) /\
    waitq_dequeue id id2 s =
      ((if w =? self_of s then skip else Tmk_lock_sigio_handler (lock_request_of w s));; mret true) s1.
Proof.
  intros [[Hh Hl] Ht Hnd] [Hf _]. apply NoDup_cons in Hnd as [Hw Hnd].
  set (nx := wq_next (the_entry w s)) in *.
  set (f := fun c => (if bool_decide (is_Some nx) then fun c => c else set_c_tail None) (set_c_head nx c)).
  set (g := fun e => (if w =? self_of s then fun e => e else set_wq_req (lock_request_of w s)) (set_wq_queued false e)).
  assert (Hrun : exists s1, (forall v, the_entry v s1 = if decide (v = w) then g (the_entry w s) else the_entry v s) /\
    the_cond id id2 s1 = f (the_cond id id2 s) /\ same_rest s s1 /\
    waitq_dequeue id id2 s =
      ((if w =? self_of s then skip else Tmk_lock_sigio_handler (lock_request_of w s));; mret true) s1).
  { assert (Hent : forall (h : waitq_entry -> waitq_entry) s0 v,
      the_entry v (with_entry w h s0) = if decide (v = w) then h (the_entry w s0) else the_entry v s0).
    { intros h s0 v. case_decide; [subst; apply the_entry_eq|by apply the_entry_ne]. }
    assert (Hfc : exists s1, (when (negb (bool_decide (is_Some nx))) (set_cond id id2 (set_c_tail None)))
        (with_cond (set_c_head nx) s) = Ok (tt, s1) /\ the_cond id id2 s1 = f (the_cond id id2 s) /\
        same_rest s s1 /\ forall v, the_entry v s1 = the_entry v s).
    { unfold f. destruct (bool_decide (is_Some nx)); cbn [negb when].
      - eexists. split; [reflexivity|]. rewrite the_cond_with. split_and!; [done|apply same_rest_cond|done].
      - rewrite set_cond_run. eexists. split; [reflexivity|]. rewrite !the_cond_with.
        split_and!; [done| |done]. eapply queue_rest_trans; apply same_rest_cond. }
    destruct Hfc as (s2 & R2 & C2 & Sr2 & E2). unfold waitq_dequeue.
    rewrite (bind_Ok me _ s (self_of s) s eq_refl), (bind_Ok _ _ _ _ _ (cond_at_run s)), Hh.
    rewrite (bind_Ok (gets (fun s => wq_next (n_waitq s !!! w))) _ s nx s eq_refl), (bind_Ok _ _ _ _ _ (set_cond_run _ s)), (bind_Ok _ _ _ _ _ R2).
    rewrite (bind_Ok _ _ _ _ _ (set_waitq_run w _ s2)). set (s3 := with_entry w _ s2).
    rewrite (bind_Ok (gets (fun s => wq_req (n_waitq s !!! w))) _ s3 (wq_req (the_entry w s3)) s3 eq_refl).
    assert (Er : wq_req (the_entry w s3) = wq_req (the_entry w s)).
    { subst s3. rewrite Hent, decide_True, E2 by done. done. }
    rewrite Er, Hf. unfold g. destruct (w =? self_of s); cbn [negb when].
    - exists s3. split_and!; [|done|by eapply queue_rest_trans; [|apply same_rest_entry]|done].
      intros v. subst s3. rewrite Hent, !E2. done.
    - exists (with_entry w (set_wq_req (lock_request_of w s)) s3). split_and!; [|done| |].
      + intros v. rewrite Hent. subst s3. case_decide as Hv; rewrite Hent.
        * rewrite decide_True, E2 by done. done.
        * by rewrite decide_False, E2.
      + eapply queue_rest_trans; [eapply queue_rest_trans; [exact Sr2|]|]; apply same_rest_entry.
      + done. }
  destruct Hrun as (s1 & E1 & C1 & Sr & R). exists s1.
  assert (Ew : wq_queued (the_entry w s1) = false) by (rewrite E1, decide_True by done; unfold g; by destruct (w =? self_of s)).
  split_and!; [|done|done| |exact R].
  - assert (Hx : forall v, v ∈ q -> wq_next (the_entry v s1) = wq_next (the_entry v s))
      by (intros v Hv; rewrite E1, decide_False by (by intros ->); done).
    split; [| |done]; rewrite C1; unfold f.
    + destruct (bool_decide (is_Some nx)); by eapply wlinks_ext.
    + destruct q as [|v q]; cbn in Hl.
      * rewrite Hl. done.
      * destruct Hl as [-> _]. rewrite bool_decide_eq_true_2 by done. cbn. by rewrite Ht, last_cons_cons.
  - intros v Hv. by rewrite E1, decide_False.
Qed.

(** ** A broadcast *)

(** The lock's record after the requests of [froms] have been served, and the
    messages. *)
Fixpoint hand_over (self : Z) (lk : lock) (froms : list Z) : lock * list lmsg :=
  match froms with
  | [] => (lk, [])
  | f :: froms' =>
      match lk_serve self f lk with
      | Some (lk1, r) => let '(lk2, ms) := hand_over self lk1 froms' in (lk2, answer f r ++ ms)
      | None => (lk, [])
      end
  end.

Definition lmsg_of (m : sent) : lmsg :=
  match m with SendReq to r => LReq (rq_from r) to | SendRep to _ => LGrant to end.

Lemma serve_core self f lk1 lk2 : core lk1 = core lk2 ->
  match lk_serve self f lk1, lk_serve self f lk2 with
  | Some (a, r), Some (b, r') => core a = core b /\ r = r'
  | None, None => True
  | _, _ => False
  end.
Proof.
  destruct lk1 as [m1 t1 h1 n1 s1 u1 c1], lk2 as [m2 t2 h2 n2 s2 u2 c2]. unfold core, lk_serve. cbn.
  intros [= -> -> -> ->]. destruct (n2 =? self); destruct (m2 =? self); done.
Qed.

Lemma hand_over_core self froms : forall lk1 lk2, core lk1 = core lk2 ->
  core (hand_over self lk1 froms).1 = core (hand_over self lk2 froms).1 /\
  (hand_over self lk1 froms).2 = (hand_over self lk2 froms).2.
Proof.
  induction froms as [|f froms IH]; intros lk1 lk2 H; [done|]. cbn [hand_over].
  pose proof (serve_core self f lk1 lk2 H) as Hs.
  destruct (lk_serve self f lk1) as [[a r]|], (lk_serve self f lk2) as [[b r']|]; try done.
  destruct Hs as [Hc ->]. destruct (IH a b Hc) as [H1 H2].
  destruct (hand_over self a froms), (hand_over self b froms). cbn in *. by rewrite H1, H2.
Qed.

(** What the lock handler does for a waiting process. *)
Lemma outcome_facts n S r s lk' re s' :
  rq_id r = id -> lists n (n_pages s) S -> lk_cond lk' = lk_cond (the_lock id s) ->
  serve_outcome n S r s lk' re s' ->
  n_waitq s' = n_waitq s /\ self_of s' = self_of s /\ (exists S', lists n (n_pages s') S') /\
  core (the_lock id s') = core lk' /\ lk_cond (the_lock id s') = lk_cond (the_lock id s) /\
  exists m, n_out s' = n_out s ++ m /\ lmsg_of <$> m = answer (rq_from r) re.
Proof.
  intros Hr Hl Hc Ho. unfold serve_outcome in Ho. rewrite Hr in Ho. destruct re as [| |to].
  - destruct Ho as (s1 & Hg & Hk & Hout & _ & _ & _ & Hp & Hw & Hcf).
    assert (Hs1 : n_waitq s1 = n_waitq s /\ self_of s1 = self_of s /\ n_out s1 = n_out s /\
                  exists S', lists n (n_pages s1) S').
    { unfold grant_from in Hg. destruct (_ =? _); [|by subst s1; eauto 6]. destruct Hg.
      split_and!; try done. eexists. apply (cs_lists _ _ _ _ _ ie_spec). }
    destruct Hs1 as (H1 & H2 & H3 & S' & H4). unfold self_of. rewrite Hw, Hcf, Hp, Hout, H1, H3.
    split_and!; [done|exact H2|by exists S'| | |by eexists].
    + unfold the_lock. rewrite Hk, lookup_total_insert_eq. done.
    + unfold the_lock. rewrite Hk, lookup_total_insert_eq. done.
  - destruct Ho as (Hk & Hout & _ & Hp & Hw & Hcf). unfold self_of. rewrite Hw, Hcf, Hp, Hout.
    split_and!; [done|done|by exists S| | |exists []; by rewrite app_nil_r];
      unfold the_lock; rewrite Hk, lookup_total_insert_eq; done.
  - destruct Ho as (Hk & Hout & _ & Hp & Hw & Hcf). unfold self_of. rewrite Hw, Hcf, Hp, Hout.
    split_and!; [done|done|by exists S| | |by eexists];
      unfold the_lock; rewrite Hk, lookup_total_insert_eq; done.
Qed.

Lemma manager_serves self f lk : lk_manager lk = self ->
  exists lk' re, lk_serve self f lk = Some (lk', re) /\ lk_manager lk' = self /\ lk_cond lk' = lk_cond lk.
Proof.
  intros Hm. unfold lk_serve. rewrite Hm, Z.eqb_refl. destruct (lk_next lk =? self); by do 2 eexists.
Qed.

Lemma queue_same s s' q : n_waitq s' = n_waitq s -> lk_cond (the_lock id s') = lk_cond (the_lock id s) ->
  queue_is id id2 s q -> queue_is id id2 s' q.
Proof.
  intros Hw Hc [H1 H2 H3]. split; [| |done]; unfold the_cond in *; rewrite Hc; [|done].
  eapply wlinks_ext; [|exact H1]. intros v _. unfold the_entry. by rewrite Hw.
Qed.

(** One waiting process is woken. *)
Lemma wake_one n S s w q : lists n (n_pages s) S -> lk_manager (the_lock id s) = self_of s ->
  queue_is id id2 s (w :: q) -> entry_ok s w ->
  exists s' S', waitq_dequeue id id2 s = Ok (true, s') /\ queue_is id id2 s' q /\ lists n (n_pages s') S' /\
    lk_manager (the_lock id s') = self_of s' /\ self_of s' = self_of s /\
    wq_queued (the_entry w s') = false /\ (forall v, v <> w -> the_entry v s' = the_entry v s) /\
    core (the_lock id s') = core (hand_over (self_of s) (the_lock id s) (if w =? self_of s then [] else [w])).1 /\
    exists m, n_out s' = n_out s ++ m /\
      lmsg_of <$> m = (hand_over (self_of s) (the_lock id s) (if w =? self_of s then [] else [w])).2.
Proof.
  intros Hl Hm Hq He. destruct (dequeue_run w s q Hq He) as (s1 & Hq1 & ((lks & wq & Es1) & Hc1) & Hw1 & Hv1 & R).
  assert (Hp1 : n_pages s1 = n_pages s) by (by rewrite Es1). assert (Ho1 : n_out s1 = n_out s) by (by rewrite Es1).
  assert (Hse : self_of s1 = self_of s) by (by rewrite Es1). rewrite R.
  assert (Hm1 : lk_manager (the_lock id s1) = self_of s1) by (injection Hc1 as -> _ _ _; by rewrite Hse).
  destruct (w =? self_of s).
  - exists s1, S. rewrite Hp1, Ho1. split_and!; try done. exists []. by rewrite app_nil_r.
  - rewrite <- Hp1 in Hl. destruct He as [Hf Hr].
    assert (Hid1 : lock_id_ok (rq_id (lock_request_of w s))) by (cbn; by rewrite Hr).
    pose proof (lock_handler_run n S (lock_request_of w s) s1 Hid1 Hl) as Hh.
    cbn [lock_request_of set_rq_type rq_id rq_from] in Hh. rewrite Hr, Hf, Hse in Hh.
    pose proof (serve_core (self_of s) w (the_lock id s) (the_lock id s1) (eq_sym Hc1)) as Hcore.
    destruct (manager_serves (self_of s) w (the_lock id s1)) as (lk' & re & E & Hm' & Hcd); [by rewrite Hm1|].
    rewrite E in Hh, Hcore. destruct Hh as (s2 & Hrun & Ho).
    destruct (outcome_facts n S (lock_request_of w s) s1 lk' re s2 Hr Hl Hcd Ho)
      as (F1 & F2 & (S' & F3) & F4 & F5 & m & F6 & F7).
    exists s2, S'. rewrite (bind_Ok _ _ _ _ _ Hrun). cbn [hand_over].
    destruct (lk_serve (self_of s) w (the_lock id s)) as [[a r']|]; [|done]. destruct Hcore as [Hc2 ->].
    split_and!; [done|by eapply queue_same|done| |by rewrite F2| | | |].
    + rewrite F2, Hse. injection F4 as -> _ _ _. done.
    + unfold the_entry in *. by rewrite F1.
    + intros v Hv. unfold the_entry in *. rewrite F1. by apply Hv1.
    + cbn. by rewrite F4, Hc2.
    + exists m. rewrite F6, Ho1. split; [done|]. cbn. rewrite app_nil_r, F7. cbn. by rewrite Hf.
Qed.

Lemma hand_over_app self l1 : forall lk l2, lk_manager lk = self ->
  hand_over self lk (l1 ++ l2) =
  ((hand_over self (hand_over self lk l1).1 l2).1, (hand_over self lk l1).2 ++ (hand_over self (hand_over self lk l1).1 l2).2).
Proof.
  induction l1 as [|f l1 IH]; intros lk l2 Hm; cbn [app hand_over fst snd].
  - by destruct (hand_over self lk l2).
  - destruct (manager_serves self f lk Hm) as (lk' & re & -> & Hm' & _). rewrite IH by done.
    destruct (hand_over self lk' l1) as [lk2 ms]. cbn. by rewrite app_assoc.
Qed.

Lemma broadcast_run n fuel : forall q s S, (length q < fuel)%nat -> lists n (n_pages s) S ->
  lk_manager (the_lock id s) = self_of s -> queue_is id id2 s q -> (forall w, w ∈ q -> entry_ok s w) ->
  let served := hand_over (self_of s) (the_lock id s) (filter (fun w => w <> self_of s) q) in
  exists s' m, dequeue_all fuel id id2 s = Ok (tt, s') /\ queue_is id id2 s' [] /\
    (forall w, w ∈ q -> wq_queued (the_entry w s') = false) /\
    (forall w, w ∉ q -> the_entry w s' = the_entry w s) /\
    core (the_lock id s') = core served.1 /\ n_out s' = n_out s ++ m /\ lmsg_of <$> m = served.2.
Proof.
  induction fuel as [|fuel IH]; intros q s S Hf Hl Hm Hq He; [lia|]. cbn zeta. cbn [dequeue_all].
  destruct q as [|w q].
  - exists s, []. rewrite app_nil_r. split_and!; try done; [|by intros ? ?%elem_of_nil].
    unfold waitq_dequeue. destruct Hq as [Hh _ _]. cbn in Hh.
    unfold mbind, M_bind. cbn [me gets]. rewrite cond_at_run, Hh. done.
  - destruct (wake_one n S s w q Hl Hm Hq (He w ltac:(by left)))
      as (s1 & S1 & R1 & Q1 & L1 & M1 & E1 & W1 & V1 & C1 & m1 & O1 & A1).
    pose proof (qi_nodup _ _ _ _ Hq) as Hnd. apply NoDup_cons in Hnd as [Hw Hnd].
    destruct (IH q s1 S1) as (s2 & m2 & R2 & Q2 & W2 & V2 & C2 & O2 & A2); try done; [cbn in Hf; lia| |].
    { intros v Hv. unfold entry_ok. rewrite V1 by (by intros ->). apply He. by right. }
    exists s2, (m1 ++ m2). rewrite (bind_Ok _ _ _ _ _ R1).
    set (l1 := if w =? self_of s then [] else [w]) in *.
    assert (El : filter (fun w => w <> self_of s) (w :: q) = l1 ++ filter (fun w => w <> self_of s) q).
    { rewrite filter_cons. subst l1. destruct (Z.eqb_spec w (self_of s)); case_decide; done. }
    rewrite El, hand_over_app by done. rewrite E1 in C2, A2.
    destruct (hand_over_core (self_of s) (filter (fun w => w <> self_of s) q) _ _ C1) as [G1 G2].
    split_and!; [exact R2|done| | | | |].
    + intros v Hv. apply elem_of_cons in Hv as [->|Hv]; [by rewrite V2|by apply W2].
    + intros v Hv. apply not_elem_of_cons in Hv as [Hv1 Hv2]. by rewrite V2, V1.
    + cbn. by rewrite C2, G1.
    + by rewrite O2, O1, app_assoc.
    + cbn. by rewrite fmap_app, A1, A2, G2.
Qed.
End Queue.

(** ** The properties *)
Lemma proc_list_length (q : list Z) : NoDup q -> (forall w, w ∈ q -> 0 <= w < NPROCS) -> (length q < waitq_fuel)%nat.
Proof.
  intros Hnd Hq. assert (Hs : q ⊆+ seqZ 0 NPROCS).
  { apply NoDup_submseteq; [done|]. intros w Hw. apply elem_of_seqZ. specialize (Hq w Hw). lia. }
  apply submseteq_length in Hs. rewrite length_seqZ in Hs. unfold waitq_fuel. lia.
Qed.

(** Each request is passed to the process in front. *)
Definition chain (tail : Z) (q : list Z) : list lmsg := zip_with LReq q (tail :: q).

Lemma hand_over_chain self q : forall lk, lk_manager lk = self -> lk_next lk <> self ->
  (hand_over self lk q).2 = chain (lk_tail lk) q /\
  lk_tail (hand_over self lk q).1 = List.last q (lk_tail lk).
Proof.
  induction q as [|f q IH]; intros lk Hm Hn; [done|]. cbn [hand_over]. unfold lk_serve.
  rewrite (proj2 (Z.eqb_neq _ _) Hn), Hm, Z.eqb_refl.
  destruct (IH (set_lk_tail f lk)) as [H1 H2]; [done..|].
  destruct (hand_over self (set_lk_tail f lk) q) as [lk2 ms]. cbn in H1, H2 |- *. rewrite H1, H2.
  split; [done|]. destruct q as [|g q]; [done|]. clear. revert g. induction q as [|h q IH]; intros g; [done|].
  cbn. apply IH.
Qed.

(** [waitq_enqueue] (the linking in [Tmk_lock_cond_wait] and in its
    handler) puts a process that is not waiting yet at the end of the queue,
    empty or not, and marks it as queued; no other entry's request or mark
    changes. *)
Theorem enqueue_appends id id2 we s q :
  lock_id_ok id -> cond_id_ok id2 -> queue_is id id2 s q -> we ∉ q ->
  exists s', waitq_enqueue id id2 we s = Ok (tt, s') /\ queue_is id id2 s' (q ++ [we]) /\
    wq_queued (the_entry we s') = true /\ wq_req (the_entry we s') = wq_req (the_entry we s) /\
    (forall w, w <> we -> wq_queued (the_entry w s') = wq_queued (the_entry w s) /\
                          wq_req (the_entry w s') = wq_req (the_entry w s)).
Proof. intros Hid Hid2. by apply enqueue_run. Qed.

(** [waitq_dequeue] at the lock's manager takes the first process off the
    queue and only that one, clears its mark, and serves its request for the
    lock as if it had just arrived, unless the process is the manager itself. *)
Theorem dequeue_wakes_first id id2 n S s w q :
  lock_id_ok id -> cond_id_ok id2 -> lists n (n_pages s) S -> lk_manager (the_lock id s) = self_of s ->
  queue_is id id2 s (w :: q) -> entry_ok id s w ->
  let served := hand_over (self_of s) (the_lock id s) (if w =? self_of s then [] else [w]) in
  exists s', waitq_dequeue id id2 s = Ok (true, s') /\ queue_is id id2 s' q /\
    wq_queued (the_entry w s') = false /\ (forall v, v <> w -> the_entry v s' = the_entry v s) /\
    core (the_lock id s') = core served.1 /\
    exists m, n_out s' = n_out s ++ m /\ lmsg_of <$> m = served.2.
Proof.
  intros Hid Hid2 Hl Hm Hq He.
  destruct (wake_one id id2 Hid Hid2 n S s w q Hl Hm Hq He) as (s' & _ & H1 & H2 & _ & _ & _ & H3 & H4 & H5 & H6).
  by exists s'.
Qed.

(** C35: A broadcast at the manager, by its own program or on a request, comes
    to an end with an empty queue and every waiting process unmarked: the
    requests of the others have been served one after the other in the order
    in which the processes began to wait. *)
Theorem broadcast_wakes_all id id2 n S s q :
  lock_id_ok id -> cond_id_ok id2 -> lists n (n_pages s) S -> lk_manager (the_lock id s) = self_of s ->
  queue_is id id2 s q -> (forall w, w ∈ q -> entry_ok id s w /\ 0 <= w < NPROCS) ->
  let served := hand_over (self_of s) (the_lock id s) (filter (fun w => w <> self_of s) q) in
  exists s' m, dequeue_all waitq_fuel id id2 s = Ok (tt, s') /\ queue_is id id2 s' [] /\
    (forall w, w ∈ q -> wq_queued (the_entry w s') = false) /\
    core (the_lock id s') = core served.1 /\ n_out s' = n_out s ++ m /\ lmsg_of <$> m = served.2.
Proof.
  intros Hid Hid2 Hl Hm Hq He. cbv zeta.
  destruct (broadcast_run id id2 Hid Hid2 n waitq_fuel q s S) as (s' & m & H1 & H2 & H3 & _ & H4 & H5 & H6);
    try done; [|intros w Hw; by apply He|by exists s', m].
  apply proc_list_length; [apply Hq|]. intros w Hw. by apply He.
Qed.

(** When the lock is in use elsewhere, a broadcast makes the waiting
    processes the end of the lock's queue in the order in which they began to
    wait: the first request goes to the previous tail, every other one to the
    process in front of it, and the last process becomes the tail. *)
Theorem broadcast_in_order id id2 n S s q :
  lock_id_ok id -> cond_id_ok id2 -> lists n (n_pages s) S -> lk_manager (the_lock id s) = self_of s ->
  lk_next (the_lock id s) <> self_of s -> self_of s ∉ q ->
  queue_is id id2 s q -> (forall w, w ∈ q -> entry_ok id s w /\ 0 <= w < NPROCS) ->
  exists s' m, dequeue_all waitq_fuel id id2 s = Ok (tt, s') /\ n_out s' = n_out s ++ m /\
    lmsg_of <$> m = chain (lk_tail (the_lock id s)) q /\
    lk_tail (the_lock id s') = List.last q (lk_tail (the_lock id s)).
Proof.
  intros Hid Hid2 Hl Hm Hn Hs Hq He.
  destruct (broadcast_run id id2 Hid Hid2 n waitq_fuel q s S) as (s' & m & H1 & _ & _ & _ & H4 & H5 & H6);
    try done; [|intros w Hw; by apply He|].
  { apply proc_list_length; [apply Hq|]. intros w Hw. by apply He. }
  assert (Ef : filter (fun w => w <> self_of s) q = q).
  { clear -Hs. induction q as [|w q IH]; [done|]. rewrite filter_cons, decide_True by (intros ->; set_solver).
    rewrite IH; [done|set_solver]. }
  rewrite Ef in H4, H6. destruct (hand_over_chain (self_of s) q (the_lock id s) Hm Hn) as [E1 E2].
  exists s', m. split_and!; [done|done|by rewrite H6, E1|]. injection H4 as _ -> _ _. exact E2.
Qed.

(** *** An example: processes 1 and 2 wait on condition 1 of lock 3 of process 0 *)
Definition waiting_ex (next : Z) : node :=
  set_n_waitq {[1 := WaitqEntry (Some 2) (Request 64 1 REQ_COND_WAIT 3 vt_zero [1]) true;
                2 := WaitqEntry None (Request 66 2 REQ_COND_WAIT 3 vt_zero [1]) true]}
    (set_n_locks {[3 := Lock 0 next true next 0 0 {[1 := Cond (Some 1) (Some 2) vt_zero]}]} dirty_ex).

Lemma waiting_queue next : queue_is 3 1 (waiting_ex next) [1; 2].
Proof. split; [cbn; by split_and!|reflexivity|]. repeat constructor; set_solver. Qed.

Lemma waiting_entries next w : w ∈ [1; 2] -> entry_ok 3 (waiting_ex next) w /\ 0 <= w < NPROCS.
Proof. rewrite !elem_of_cons. intros [->|[->|[]%elem_of_nil]]; (split; [done|unfold NPROCS; lia]). Qed.

Lemma ids_ex : lock_id_ok 3 /\ cond_id_ok 1.
Proof. unfold lock_id_ok, cond_id_ok. split; split; vm_compute; done. Qed.

Lemma enqueue_appends_witness : exists s',
  waitq_enqueue 3 1 4 (waiting_ex 0) = Ok (tt, s') /\ queue_is 3 1 s' ([1; 2] ++ [4]).
Proof.
  destruct (enqueue_appends 3 1 4 (waiting_ex 0) [1; 2] (proj1 ids_ex) (proj2 ids_ex) (waiting_queue 0))
    as (s' & H1 & H2 & _); [set_solver|]. exists s'. exact (conj H1 H2).
Defined.

Lemma dequeue_wakes_first_witness : exists s',
  waitq_dequeue 3 1 (waiting_ex 0) = Ok (true, s') /\ queue_is 3 1 s' [2] /\
  wq_queued (the_entry 1 s') = false.
Proof.
  destruct (dequeue_wakes_first 3 1 8 (∅, ∅ ∪ {[6]} ∪ {[5]}) (waiting_ex 0) 1 [2] (proj1 ids_ex) (proj2 ids_ex))
    as (s' & H1 & H2 & H3 & _); [exact dirty_ex_ok|reflexivity|exact (waiting_queue 0)|apply waiting_entries; by left|].
  exists s'. exact (conj H1 (conj H2 H3)).
Defined.

Lemma broadcast_wakes_all_witness : exists s',
  dequeue_all waitq_fuel 3 1 (waiting_ex 0) = Ok (tt, s') /\ queue_is 3 1 s' [].
Proof.
  destruct (broadcast_wakes_all 3 1 8 (∅, ∅ ∪ {[6]} ∪ {[5]}) (waiting_ex 0) [1; 2] (proj1 ids_ex) (proj2 ids_ex))
    as (s' & m & H1 & H2 & _); [exact dirty_ex_ok|reflexivity|exact (waiting_queue 0)|exact (waiting_entries 0)|].
  exists s'. exact (conj H1 H2).
Defined.

Lemma broadcast_in_order_witness : exists s' m,
  dequeue_all waitq_fuel 3 1 (waiting_ex 3) = Ok (tt, s') /\ n_out s' = [] ++ m /\
  lmsg_of <$> m = [LReq 1 3; LReq 2 1] /\ lk_tail (the_lock 3 s') = 2.
Proof.
  apply (broadcast_in_order 3 1 8 (∅, ∅ ∪ {[6]} ∪ {[5]}) (waiting_ex 3) [1; 2] (proj1 ids_ex) (proj2 ids_ex));
    [exact dirty_ex_ok|reflexivity|discriminate|vm_compute; set_solver|exact (waiting_queue 3)|exact (waiting_entries 3)].
Defined.
