(* ===== verification/DiffOrder.v ===== *)
(** * The order in which diffs are requested and applied

    [Tmk_diff_request] sorts the write notices whose diffs are missing, cuts
    the sorted array into requests, and applies the diffs from the end of the
    array to its beginning.  That the result is right needs the order to
    respect causality, and a process to be asked only for diffs it has. *)
From Stdlib Require Import Sorting.Sorted.
From S2P Require Import Prelude DiffCodec Pages State Rpc Twins Diffs.
Local Open Scope Z_scope.

(** ** What the vector times promise

    An interval that has seen another knows all that the other knew, and no
    two intervals have seen each other. *)
Record causal (es : list wentry) : Prop := {
  ca_knows : forall a b, a ∈ es -> b ∈ es -> seen a b = true -> Forall2 Z.le (we_vt a) (we_vt b);
  ca_order : forall a b, a ∈ es -> b ∈ es -> seen a b = true -> seen b a = true -> a = b
}.

Lemma vt_get_le v v' i : Forall2 Z.le v v' -> vt_get v i <= vt_get v' i.
Proof. unfold vt_get. intros H. revert i. generalize Z.to_nat. intros f i. generalize (f i). clear f i.
  induction H as [|x y v v' Hx H IH]; intros [|n]; cbn; [lia..|done|apply IH]. Qed.

Lemma seen_trans es a b c : causal es -> a ∈ es -> b ∈ es -> c ∈ es ->
  seen a b = true -> seen b c = true -> seen a c = true.
Proof.
  intros [K _] Ha Hb Hc H1 H2. pose proof (vt_get_le _ _ (we_id a) (K b c Hb Hc H2)).
  unfold seen in *. lia.
Qed.

(** No entry has been seen by a later one: a diff is applied after the
    diffs its interval has seen. *)
Definition unseen (a b : wentry) : Prop := seen a b = false.
Abbreviation newest_first := (StronglySorted unseen).

Lemma sorted_lookup ws i j a b : newest_first ws -> ws !! i = Some a -> ws !! j = Some b -> (i < j)%nat -> unseen a b.
Proof.
  intros H. revert i j. induction H as [|x ws H IH Hx]; intros i j Ha Hb Hij; [done|].
  destruct j as [|j]; [lia|]. destruct i as [|i]; [|by apply (IH i j); [| |lia]].
  injection Ha as ->. rewrite Forall_lookup in Hx. exact (Hx j b Hb).
Qed.

(** ** Insertion *)
Lemma insert_from_split w ws : exists pre post, ws = pre ++ post /\
  insert_from w ws = (pre ++ w :: post, length pre) /\
  Forall (fun x => unseen x w) pre /\ (forall x, head post = Some x -> seen x w = true).
Proof.
  induction ws as [|x ws IH]; [by exists [], []|]. cbn. destruct (seen x w) eqn:E.
  - exists [], (x :: ws). split_and!; [done|done|constructor|]. by intros y [= <-].
  - destruct IH as (pre & post & -> & -> & Hf & Hp). exists (x :: pre), post.
    split_and!; [done|done|by constructor|done].
Qed.

Lemma insert_at_split j w ws : (j <= length ws)%nat -> exists pre post, ws = pre ++ post /\
  insert_at j w ws = (pre ++ w :: post, length pre) /\ (j <= length pre)%nat /\
  Forall (fun x => unseen x w) (drop j pre) /\ (forall x, head post = Some x -> seen x w = true).
Proof.
  intros Hj. unfold insert_at. destruct (insert_from_split w (drop j ws)) as (pre & post & E & -> & Hf & Hp).
  assert (Hl : length (take j ws) = j) by (rewrite length_take; lia).
  exists (take j ws ++ pre), post. split_and!.
  - by rewrite <- app_assoc, <- E, take_drop.
  - rewrite <- app_assoc, length_app, Hl. done.
  - rewrite length_app. lia.
  - rewrite drop_app_length'; [done|by rewrite Hl].
  - done.
Qed.

Lemma sorted_insert es pre w post : causal es -> (forall x, x ∈ pre ++ w :: post -> x ∈ es) ->
  w ∉ pre ++ post -> newest_first (pre ++ post) -> Forall (fun x => unseen x w) pre ->
  (forall x, head post = Some x -> seen x w = true) -> newest_first (pre ++ w :: post).
Proof.
  intros C Hin Hw Hs Hf Hp. induction pre as [|x pre IH]; cbn in *.
  - constructor; [done|]. destruct post as [|x post]; [constructor|].
    pose proof (Hp x eq_refl) as Hx. apply StronglySorted_inv in Hs as [_ Hx'].
    assert (Ew : w ∈ es) by (apply Hin; by left).
    assert (Ex : x ∈ es) by (apply Hin; right; by left).
    assert (Hne : forall z, z ∈ x :: post -> z <> w) by (intros z Hz ->; done).
    constructor.
    + destruct (seen w x) eqn:E; [|exact E]. exfalso. apply (Hne x); [by left|]. by apply (ca_order es C).
    + rewrite Forall_forall in Hx' |- *. intros z Hz. unfold unseen. destruct (seen w z) eqn:E; [|done].
      assert (Ez : z ∈ es) by (apply Hin; right; by right).
      pose proof (seen_trans es x w z C Ex Ew Ez Hx E) as Ht. pose proof (Hx' z Hz) as Hu. unfold unseen in Hu. congruence.
  - apply StronglySorted_inv in Hs as [Hs Hx]. apply Forall_cons in Hf as [Hxw Hf]. constructor.
    + apply IH; try done; [intros y Hy; apply Hin; by right|]. intros Hy. apply Hw. by right.
    + rewrite Forall_app in Hx |- *. destruct Hx as [H1 H2]. split; [done|by constructor].
Qed.

(** ** Sorting *)

(** The notices of a process, from the newest to the first with a diff. *)
Fixpoint missing (pid : Z) (pos : nat) (wns : list write_notice) : list wentry :=
  match wns with
  | [] => []
  | w :: wns' =>
      match wn_diff w with
      | Some _ => []
      | None => WEntry (pid, pos) (wn_id w) (wn_vt w) :: missing pid (S pos) wns'
      end
  end.

Definition all_missing (c : conf) (p : page) : list wentry :=
  procs_of c ≫= fun i => missing i 0 (wn_list p i).

(** What [sort_proc] does with them. *)
Fixpoint insert_all (j : nat) (l ws : list wentry) : list wentry :=
  match l with
  | [] => ws
  | w :: l' => let '(ws', k) := insert_at j w ws in insert_all (S k) l' ws'
  end.

Lemma sort_proc_missing pid pos j wns ws : sort_proc pid pos j wns ws = insert_all j (missing pid pos wns) ws.
Proof.
  revert pos j ws. induction wns as [|w wns IH]; intros pos j ws; [done|]. cbn.
  destruct (wn_diff w); [done|]. cbn. destruct (insert_at j _ ws) as [ws' k]. apply IH.
Qed.

(** Each entry has been seen by the one before it. *)
Definition chained (l : list wentry) : Prop := Sorted (fun a b => seen b a = true) l.

(** The next entries of [l] may go behind index [j]: the entry in front of
    it is newer. *)
Definition behind (j : nat) (l ws : list wentry) : Prop :=
  j = O \/ exists pre w', take j ws = pre ++ [w'] /\ (forall w, head l = Some w -> seen w w' = true).

Lemma insert_all_ok es l : forall j ws, causal es -> (forall x, x ∈ ws ++ l -> x ∈ es) -> NoDup (ws ++ l) ->
  chained l -> newest_first ws -> (j <= length ws)%nat -> behind j l ws ->
  newest_first (insert_all j l ws) /\ insert_all j l ws ≡ₚ ws ++ l.
Proof.
  induction l as [|w l IH]; intros j ws C Hin Hn Hc Hs Hj Hb; cbn; [by rewrite app_nil_r|].
  destruct (insert_at_split j w ws Hj) as (pre & post & -> & -> & Hk & Hf & Hp).
  assert (Hperm : (pre ++ w :: post) ++ l ≡ₚ (pre ++ post) ++ w :: l).
  { rewrite <- !app_assoc. cbn. by rewrite <- Permutation_middle, !(app_assoc pre), <- Permutation_middle. }
  assert (Hin' : forall x, x ∈ (pre ++ w :: post) ++ l -> x ∈ es) by (intros x Hx; apply Hin; by rewrite <- Hperm).
  assert (Hw : w ∈ es) by (apply Hin; apply elem_of_app; right; by left).
  assert (Hnw : w ∉ pre ++ post).
  { apply NoDup_app in Hn as (_ & Hd & _). intros Hx. apply (Hd w Hx). by left. }
  assert (Hpre : Forall (fun x => unseen x w) pre).
  { rewrite <- (take_drop j pre), Forall_app. split; [|done].
    unfold behind in Hb. rewrite take_app_le in Hb by done. destruct Hb as [->|(pre0 & w' & E & Hw')]; [rewrite take_0; constructor|].
    rewrite E. specialize (Hw' w eq_refl).
    assert (Hs1 : newest_first (pre0 ++ w' :: drop j pre ++ post)).
    { rewrite <- (take_drop j pre), E in Hs. by rewrite <- !app_assoc in Hs. }
    assert (Hsub : forall x, x ∈ pre0 ++ [w'] -> x ∈ es).
    { intros x Hx. apply Hin. rewrite <- (take_drop j pre), E. clear -Hx. set_solver. }
    assert (Hw'in : w' ∈ es) by (apply Hsub; set_solver).
    rewrite Forall_app, Forall_singleton, Forall_forall. split.
    - intros x Hx. unfold unseen. destruct (seen x w) eqn:Ex; [|done].
      assert (Hxe : x ∈ es) by (apply Hsub; set_solver).
      pose proof (seen_trans es x w w' C Hxe Hw Hw'in Ex Hw') as Ht.
      clear -Hs1 Hx Ht. induction pre0 as [|y pre0 IH]; [by apply elem_of_nil in Hx|].
      cbn in Hs1. apply StronglySorted_inv in Hs1 as [Hs1 Hy].
      apply elem_of_cons in Hx as [->|Hx]; [|auto].
      rewrite Forall_app, Forall_cons in Hy. destruct Hy as (_ & Hy & _). unfold unseen in Hy. congruence.
    - unfold unseen. destruct (seen w' w) eqn:Ex; [|done]. exfalso. apply Hnw.
      rewrite (ca_order es C w w' Hw Hw'in Hw' Ex). apply elem_of_app. left.
      rewrite <- (take_drop j pre), E. set_solver. }
  destruct (IH (S (length pre)) (pre ++ w :: post) C Hin') as [R1 R2].
  - by rewrite Hperm.
  - by apply Sorted_inv in Hc as [Hc _].
  - apply (sorted_insert es); try done. intros x Hx. apply Hin'. apply elem_of_app. by left.
  - rewrite length_app. cbn. lia.
  - right. exists pre, w. split.
    + rewrite take_app, take_ge by lia. rewrite Nat.sub_succ_l, Nat.sub_diag by lia. done.
    + intros w1 Hw1. apply Sorted_inv in Hc as [_ Hc]. destruct l as [|w2 l]; [done|]. injection Hw1 as ->. by inversion Hc.
  - split; [done|]. by rewrite R2.
Qed.

(** The vector times of the notices of a page: each process numbers its own
    intervals upwards, and has seen its earlier ones. *)
Record notices_ok (c : conf) (p : page) : Prop := {
  no_causal : causal (all_missing c p);
  no_chained : forall i, i ∈ procs_of c -> chained (missing i 0 (wn_list p i))
}.

Lemma missing_refs pid pos wns e : e ∈ missing pid pos wns -> exists k, we_ref e = (pid, k) /\ (pos <= k)%nat.
Proof.
  revert pos. induction wns as [|w wns IH]; intros pos H; cbn in H; [by apply elem_of_nil in H|].
  destruct (wn_diff w); [by apply elem_of_nil in H|]. apply elem_of_cons in H as [->|H]; [by exists pos|].
  destruct (IH _ H) as (k & E & Hk). exists k. split; [done|lia].
Qed.

Lemma missing_nodup pid pos wns : NoDup (missing pid pos wns).
Proof.
  revert pos. induction wns as [|w wns IH]; intros pos; cbn; [constructor|].
  destruct (wn_diff w); constructor; [|done].
  intros H. destruct (missing_refs _ _ _ _ H) as (k & [= <-] & Hk). lia.
Qed.

Lemma sort_procs_ok es p l : forall ws, causal es -> NoDup l ->
  (forall i, i ∈ l -> chained (missing i 0 (wn_list p i))) ->
  (forall x, x ∈ ws ++ (l ≫= fun i => missing i 0 (wn_list p i)) -> x ∈ es) ->
  newest_first ws -> NoDup ws -> (forall x, x ∈ ws -> (we_ref x).1 ∉ l) ->
  let r := fold_left (fun ws i => sort_proc i 0 0 (wn_list p i) ws) l ws in
  newest_first r /\ r ≡ₚ ws ++ (l ≫= fun i => missing i 0 (wn_list p i)).
Proof.
  induction l as [|i l IH]; intros ws C Hl Hc Hin Hs Hn Hr; cbn; [by rewrite app_nil_r|].
  apply NoDup_cons in Hl as [Hi Hl]. rewrite sort_proc_missing. cbn in Hin.
  set (m := missing i 0 (wn_list p i)) in *.
  assert (Hnm : NoDup (ws ++ m)).
  { apply NoDup_app. split_and!; [done| |apply missing_nodup].
    intros x Hx Hm. destruct (missing_refs _ _ _ _ Hm) as (k & E & _). apply (Hr x Hx). rewrite E. by left. }
  destruct (insert_all_ok es m 0 ws C) as [S1 P1]; try done.
  - intros x Hx. apply Hin. rewrite elem_of_app in Hx |- *. rewrite elem_of_app. tauto.
  - apply Hc. by left.
  - lia.
  - by left.
  - destruct (IH (insert_all 0 m ws) C Hl) as [S2 P2].
    + intros i' Hi'. apply Hc. by right.
    + intros x Hx. apply Hin. rewrite elem_of_app, P1, elem_of_app in Hx. rewrite !elem_of_app. tauto.
    + done.
    + by rewrite P1.
    + intros x Hx Hl'. rewrite P1, elem_of_app in Hx. destruct Hx as [Hx|Hx].
      * apply (Hr x Hx). by right.
      * destruct (missing_refs _ _ _ _ Hx) as (k & E & _). rewrite E in Hl'. done.
    + split; [done|]. by rewrite P2, P1, <- app_assoc.
Qed.

Lemma sorted_notices c p : notices_ok c p ->
  newest_first (sort_writes c p) /\ sort_writes c p ≡ₚ all_missing c p.
Proof.
  intros [C Hc]. apply (sort_procs_ok (all_missing c p) p (procs_of c) []); try done.
  - apply NoDup_seqZ.
  - constructor.
  - constructor.
  - intros x Hx. by apply elem_of_nil in Hx.
Qed.

(** C9: [Tmk_diff_request] sorts the write notices whose diffs are missing
    by causality: the sorted array holds exactly those, each once, and no
    interval has been seen by one that comes later in the array.  The diffs
    are applied from the end, so a modification never overwrites a later one
    that was made knowing it. *)
Theorem diffs_in_causal_order c p : notices_ok c p ->
  sort_writes c p ≡ₚ all_missing c p /\ NoDup (sort_writes c p) /\
  forall i j a b, sort_writes c p !! i = Some a -> sort_writes c p !! j = Some b -> (i < j)%nat ->
    seen a b = false.
Proof.
  intros Hok. destruct (sorted_notices c p Hok) as [S P]. split_and!; [done| |].
  - rewrite P. apply NoDup_bind; [|intros; apply missing_nodup|apply NoDup_seqZ].
    intros i i' x _ _ Hx Hx'. destruct (missing_refs _ _ _ _ Hx) as (k & E & _), (missing_refs _ _ _ _ Hx') as (k' & E' & _).
    congruence.
  - intros i j a b Ha Hb Hlt. exact (sorted_lookup _ i j a b S Ha Hb Hlt).
Qed.

(** Process 1 has two intervals, the second after one of process 0, which has
    seen the first; process 2 has seen nothing. *)
Definition notice_of (id : Z) (vt : vtime) : write_notice := WriteNotice None 0 id vt.
Definition vt3 (a b d : Z) : vtime := [a; b; d] ++ replicate 29 0.
Definition notices_ex : page :=
  set_wn {[ 0 := [notice_of 0 (vt3 1 1 0)]; 1 := [notice_of 1 (vt3 1 2 0); notice_of 1 (vt3 0 1 0)];
            2 := [notice_of 2 (vt3 0 0 1)] ]} zero_page.
Definition conf_ex : conf := Conf 2 3 4096 8 0.

Lemma notices_ex_missing : all_missing conf_ex notices_ex =
  [WEntry (0, 0%nat) 0 (vt3 1 1 0); WEntry (1, 0%nat) 1 (vt3 1 2 0); WEntry (1, 1%nat) 1 (vt3 0 1 0);
   WEntry (2, 0%nat) 2 (vt3 0 0 1)].
Proof. vm_compute. reflexivity. Qed.

Lemma notices_ex_ok : notices_ok conf_ex notices_ex.
Proof.
  split.
  - rewrite notices_ex_missing. split.
    + intros a b Ha Hb. repeat (apply elem_of_cons in Ha as [->|Ha]); try (by apply elem_of_nil in Ha);
      repeat (apply elem_of_cons in Hb as [->|Hb]); try (by apply elem_of_nil in Hb);
      intros H; (discriminate H || (apply (bool_decide_unpack _); vm_compute; exact I)).
    + intros a b Ha Hb. repeat (apply elem_of_cons in Ha as [->|Ha]); try (by apply elem_of_nil in Ha);
      repeat (apply elem_of_cons in Hb as [->|Hb]); try (by apply elem_of_nil in Hb);
      intros H H'; (discriminate H || discriminate H' || reflexivity).
  - intros i Hi. change (procs_of conf_ex) with [0; 1; 2] in Hi.
    repeat (apply elem_of_cons in Hi as [->|Hi]); try (by apply elem_of_nil in Hi);
    vm_compute; repeat constructor.
Qed.

Lemma diffs_in_causal_order_witness :
  sort_writes conf_ex notices_ex =
    [WEntry (1, 0%nat) 1 (vt3 1 2 0); WEntry (0, 0%nat) 0 (vt3 1 1 0); WEntry (1, 1%nat) 1 (vt3 0 1 0);
     WEntry (2, 0%nat) 2 (vt3 0 0 1)] /\
  sort_writes conf_ex notices_ex ≡ₚ all_missing conf_ex notices_ex /\ NoDup (sort_writes conf_ex notices_ex) /\
  forall i j a b, sort_writes conf_ex notices_ex !! i = Some a -> sort_writes conf_ex notices_ex !! j = Some b ->
    (i < j)%nat -> seen a b = false.
Proof. split; [vm_compute; reflexivity|]. apply (diffs_in_causal_order conf_ex notices_ex notices_ex_ok). Defined.

(** ** Cutting the array into requests *)
Lemma cut_app {A} (l : list A) a b c : (a <= b)%nat -> (b <= c)%nat ->
  take (c - a) (drop a l) = take (b - a) (drop a l) ++ take (c - b) (drop b l).
Proof.
  intros H1 H2. replace (c - a)%nat with ((b - a) + (c - b))%nat by lia.
  rewrite <- (take_drop (b - a) (take _ _)), take_take, Nat.min_l by lia. f_equal.
  rewrite skipn_firstn_comm, drop_drop. f_equal; [lia|f_equal; lia].
Qed.

Lemma entries_down_app ws i m n : -1 <= i <= m -> m <= n ->
  entries_down ws i n = entries_down ws m n ++ entries_down ws i m.
Proof.
  intros H1 H2. unfold entries_down. rewrite <- reverse_app. f_equal.
  pose proof (cut_app ws (Z.to_nat (i + 1)) (Z.to_nat (m + 1)) (Z.to_nat (n + 1)) ltac:(lia) ltac:(lia)) as E.
  replace (Z.to_nat (n + 1) - Z.to_nat (i + 1))%nat with (Z.to_nat (n - i)) in E by lia.
  replace (Z.to_nat (m + 1) - Z.to_nat (i + 1))%nat with (Z.to_nat (m - i)) in E by lia.
  replace (Z.to_nat (n + 1) - Z.to_nat (m + 1))%nat with (Z.to_nat (n - m)) in E by lia. exact E.
Qed.

Lemma entries_down_one ws n : 0 <= n < Z.of_nat (length ws) -> entries_down ws (n - 1) n = [entry ws n].
Proof.
  intros H. unfold entries_down, entry. replace (n - (n - 1)) with 1 by lia. replace (n - 1 + 1) with n by lia.
  destruct (lookup_lt_is_Some_2 ws (Z.to_nat n) ltac:(lia)) as [x E].
  rewrite (drop_S _ x _ E), (nth_lookup_Some _ _ _ x E). done.
Qed.

Lemma entries_down_all ws : entries_down ws (-1) (Z.of_nat (length ws) - 1) = reverse ws.
Proof. unfold entries_down. change (Z.to_nat (-1 + 1)) with O. rewrite drop_0, take_ge by lia. done. Qed.

Lemma push_down_run fuel ws dom : forall n data, -1 <= dom < n -> n < Z.of_nat (length ws) ->
  n - dom <= Z.of_nat fuel ->
  push_down fuel ws dom n data = (data ++ (entries_down ws dom n ≫= pairs_of), dom).
Proof.
  induction fuel as [|fuel IH]; intros n data H1 H2 Hf; [lia|]. cbn [push_down].
  destruct (dom <? n - 1) eqn:E.
  - rewrite IH by lia. rewrite (entries_down_app ws dom (n - 1) n), entries_down_one by lia.
    rewrite bind_app, (app_assoc data). done.
  - assert (dom = n - 1) as -> by lia. by rewrite entries_down_one by lia.
Qed.

(** Entry [d] has seen the entries after it, up to [m]. *)
Definition sees (ws : list wentry) (d m : Z) : Prop :=
  forall k, d < k <= m -> seen (entry ws k) (entry ws d) = true.

Lemma dominates_sees ws d n : dominates ws d n = true <-> sees ws d (n + 1).
Proof.
  unfold dominates, sees. rewrite forallb_forall. split; intros H k Hk.
  - apply H. apply list_elem_of_In, elem_of_seqZ. lia.
  - apply list_elem_of_In, elem_of_seqZ in Hk. apply H. lia.
Qed.

Lemma find_dom_sound fuel ws n : forall dom d, 0 <= dom -> find_dom fuel ws dom n = Some d ->
  0 <= d <= dom /\ sees ws d (n + 1).
Proof.
  induction fuel as [|fuel IH]; intros dom d Hd H; [done|]. cbn [find_dom] in H.
  destruct (dominates ws dom n) eqn:E.
  - injection H as <-. split; [lia|by apply dominates_sees].
  - destruct (dom - 1 <? 0) eqn:E1; [done|]. destruct (IH (dom - 1) d ltac:(lia) H). split; [lia|done].
Qed.

Lemma entry_in ws k : 0 <= k < Z.of_nat (length ws) -> entry ws k ∈ ws.
Proof.
  intros H. unfold entry. destruct (lookup_lt_is_Some_2 ws (Z.to_nat k) ltac:(lia)) as [x E].
  rewrite (nth_lookup_Some _ _ _ x E). by eapply list_elem_of_lookup_2.
Qed.

Lemma sees_trans ws d m n : causal ws -> 0 <= d <= m -> n < Z.of_nat (length ws) ->
  sees ws d m -> sees ws m n -> sees ws d n.
Proof.
  intros C H1 H2 Hd Hm k Hk. destruct (Z.le_gt_cases k m); [apply Hd; lia|].
  destruct (Z.eq_dec d m) as [->|Hn]; [by apply Hm|].
  apply (seen_trans ws _ (entry ws m)); try done; try (apply entry_in; lia); [apply Hm; lia|apply Hd; lia].
Qed.

(** The next entry to be added has seen the group, or [dom] has. *)
Definition may_add (ws : list wentry) (dom n n0 : Z) : Prop :=
  (dom = n - 1 /\ sees ws n n0) \/ (0 <= dom /\ sees ws dom n0).

Lemma fill_run ws n0 : causal ws -> n0 < Z.of_nat (length ws) -> forall fuel dom n,
  -1 <= dom < n -> n <= n0 -> n + 1 <= Z.of_nat fuel -> may_add ws dom n n0 ->
  exists n', fill fuel ws dom n (entries_down ws n n0 ≫= pairs_of) = (entries_down ws n' n0 ≫= pairs_of, n') /\
    -1 <= n' < n /\ sees ws (n' + 1) n0.
Proof.
  intros C Hl. induction fuel as [|fuel IH]; intros dom n H1 H2 Hf Hm; [lia|].
  cbn [fill]. rewrite push_down_run by lia.
  rewrite <- bind_app, <- (entries_down_app ws dom n n0) by lia. destruct (dom <? 0) eqn:E0.
  { exists dom. split_and!; [done|lia|lia|]. destruct Hm as [[-> Hm]|[Hm _]]; [|lia].
    by replace (n - 1 + 1) with n by lia. }
  assert (Hnext : forall d, find_dom (S (length ws)) ws dom dom = Some d -> sees ws d n0 ->
    exists n', fill fuel ws (Z.min d (dom - 1)) dom (entries_down ws dom n0 ≫= pairs_of) =
      (entries_down ws n' n0 ≫= pairs_of, n') /\ -1 <= n' < n /\ sees ws (n' + 1) n0).
  { intros d Hd Hs. destruct (find_dom_sound _ ws dom dom d ltac:(lia) Hd) as [Hr _].
    destruct (IH (Z.min d (dom - 1)) dom) as (n' & R & Hn' & Hs'); try lia.
    - destruct (Z.eq_dec d dom) as [->|Hne]; [left; split; [lia|done]|].
      right. rewrite Z.min_l by lia. split; [lia|done].
    - exists n'. split_and!; [done|lia|lia|done]. }
  destruct Hm as [[-> Hm]|[Hd Hm]].
  - destruct (find_dom _ _ _ _) as [d|] eqn:Ed.
    + destruct (find_dom_sound _ ws (n - 1) (n - 1) d ltac:(lia) Ed) as [Hr Hs]. apply Hnext; [done|].
      replace (n - 1 + 1) with n in Hs by lia. apply (sees_trans ws d n n0 C); [lia|done|done|done].
    + exists (n - 1). split_and!; [done|lia|lia|]. by replace (n - 1 + 1) with n by lia.
  - assert (Ed : find_dom (S (length ws)) ws dom dom = Some dom).
    { cbn [find_dom]. assert (dominates ws dom dom = true) as ->; [|done].
      apply dominates_sees. intros k Hk. apply Hm. lia. }
    rewrite Ed. by apply Hnext.
Qed.

(** A request: its entries, the newest last, which goes to the process of
    that one, and that one has seen the others. *)
Definition request_ok (ws : list wentry) (g : preq * list Z) : Prop :=
  exists l e, entries_down ws (pr_i g.1) (pr_n g.1) = l ++ [e] /\ g.2 = (l ++ [e]) ≫= pairs_of /\
    pr_to g.1 = u16 (we_id e) /\ (forall x, x ∈ l -> seen x e = true).

Lemma entries_down_in ws i n x : -1 <= i -> n < Z.of_nat (length ws) -> x ∈ entries_down ws i n ->
  exists k, i < k <= n /\ x = entry ws k.
Proof.
  intros Hi Hn H. unfold entries_down in H. rewrite elem_of_reverse in H.
  apply list_elem_of_lookup in H as (j & Hj). apply lookup_take_Some in Hj as [Hj Hlt].
  rewrite lookup_drop in Hj. exists (i + 1 + Z.of_nat j). split; [lia|].
  unfold entry. symmetry. apply nth_lookup_Some. rewrite <- Hj. f_equal. lia.
Qed.

Lemma request_ok_intro ws i n data : -1 <= i < n -> n < Z.of_nat (length ws) ->
  data = (entries_down ws i n ≫= pairs_of) -> sees ws (i + 1) n ->
  request_ok ws (Preq (nth (length data - 2) data 0) i n, data).
Proof.
  intros H1 H2 Hd Hs. exists (entries_down ws (i + 1) n), (entry ws (i + 1)). cbn [fst snd pr_to pr_i pr_n].
  assert (E : entries_down ws i n = entries_down ws (i + 1) n ++ [entry ws (i + 1)]).
  { rewrite (entries_down_app ws i (i + 1) n) by lia. f_equal. rewrite <- entries_down_one by lia. f_equal. lia. }
  split_and!; [done|by rewrite Hd, E| |].
  - rewrite Hd, E, bind_app. set (x := entry ws (i + 1)).
    change ([x] ≫= pairs_of) with [u16 (we_id x); vt_get (we_vt x) (we_id x)].
    rewrite length_app, app_nth2 by (cbn; lia). cbn [length]. by replace (_ + 2 - 2 - _)%nat with O by lia.
  - intros x Hx. apply entries_down_in in Hx as (k & Hk & ->); [|lia|lia]. apply Hs. lia.
Qed.

Lemma group_run ws : causal ws -> forall fuel n, 0 <= n < Z.of_nat (length ws) -> n + 1 <= Z.of_nat fuel ->
  Forall (request_ok ws) (group fuel ws n) /\
  (group fuel ws n ≫= fun g => entries_down ws (pr_i g.1) (pr_n g.1)) = entries_down ws (-1) n.
Proof.
  intros C. induction fuel as [|fuel IH]; intros n Hn Hf; [lia|]. cbn [group].
  assert (E0 : entries_down ws n n = []) by (unfold entries_down; by rewrite Z.sub_diag).
  destruct (fill_run ws n C ltac:(lia) (S (length ws)) (n - 1) n) as (n' & R & Hn' & Hs); [lia..| |].
  { left. split; [done|]. intros k Hk. lia. }
  rewrite E0 in R. cbn [mbind list_bind] in R. rewrite R.
  assert (Hok : request_ok ws (Preq (nth (length (entries_down ws n' n ≫= pairs_of) - 2) (entries_down ws n' n ≫= pairs_of) 0) n' n,
    entries_down ws n' n ≫= pairs_of)) by (apply request_ok_intro; [lia|lia|done|done]).
  destruct (0 <=? n') eqn:E.
  - destruct (IH n' ltac:(lia) ltac:(lia)) as [H1 H2]. split; [by constructor|].
    cbn [mbind list_bind fst pr_i pr_n]. cbn in H2. rewrite H2, <- (entries_down_app ws (-1) n' n) by lia. done.
  - assert (n' = -1) as -> by lia. split; [by constructor|]. cbn. by rewrite app_nil_r.
Qed.

(** C18: The sorted array is cut into requests completely and in order: the
    entries of the requests, one after the other, are the array from its end
    to its beginning, each exactly once.  Every request names the intervals
    of its entries, goes to the process that made the last of them, and that
    interval has seen all the others of the request: the process has, or can
    make, every diff it is asked for. *)
Theorem requests_cover ws : causal ws ->
  (groups ws ≫= fun g => entries_down ws (pr_i g.1) (pr_n g.1)) = reverse ws /\
  forall q data, (q, data) ∈ groups ws ->
    exists l e, entries_down ws (pr_i q) (pr_n q) = l ++ [e] /\ data = ((l ++ [e]) ≫= pairs_of) /\
      pr_to q = u16 (we_id e) /\ forall x, x ∈ l -> seen x e = true.
Proof.
  intros C. destruct ws as [|w ws]; [split; [done|]; intros q data H; by apply elem_of_nil in H|].
  unfold groups. destruct (group_run (w :: ws) C (length (w :: ws)) (Z.of_nat (length (w :: ws)) - 1)) as [H1 H2];
    [cbn [length]; lia|lia|]. rewrite entries_down_all in H2. split; [done|].
  intros q data Hin. rewrite Forall_forall in H1. exact (H1 _ Hin).
Qed.

Lemma requests_cover_witness :
  let ws := sort_writes conf_ex notices_ex in
  groups ws = [(Preq 2 2 3, [2; 1]); (Preq 1 (-1) 2, [1; 1; 0; 1; 1; 2])] /\
  (groups ws ≫= fun g => entries_down ws (pr_i g.1) (pr_n g.1)) = reverse ws /\
  forall q data, (q, data) ∈ groups ws ->
    exists l e, entries_down ws (pr_i q) (pr_n q) = l ++ [e] /\ data = ((l ++ [e]) ≫= pairs_of) /\
      pr_to q = u16 (we_id e) /\ forall x, x ∈ l -> seen x e = true.
Proof.
  intros ws. split; [vm_compute; reflexivity|]. apply (requests_cover ws).
  destruct notices_ex_ok as [C _]. destruct (sorted_notices _ _ notices_ex_ok) as [_ P].
  split; intros a b Ha Hb; unfold ws in *; rewrite P in Ha, Hb; [by apply (ca_knows _ C)|by apply (ca_order _ C)].
Defined.
