(* ===== verification/Coherence.v ===== *)
(** * A read fault brings the other process's modifications

    The path of one page through two processes: the request that the fault
    handler of the reader sends, the diff that the writer's handler makes and
    sends back, and the page after it has been applied. *)
From S2P Require Import Prelude DiffCodec Pages PageLists PageWalk PageSets State Rpc Twins Diffs Interval IntervalWire IntervalCreate Untwin Faults.
Local Open Scope Z_scope.

(** ** Write notices of a page *)
Lemma wn_update_list p pid f w ws : wn_list p pid = w :: ws -> wn_list (wn_update (pid, O) f p) pid = f w :: ws.
Proof.
  intros H. unfold wn_update, wn_list in *. cbn. rewrite lookup_insert_eq. cbn. by rewrite H.
Qed.

Lemma wn_lookup_head p pid w ws : wn_list p pid = w :: ws -> wn_lookup p (pid, O) = Some w.
Proof. unfold wn_list, wn_lookup. cbn. destruct (p_wn p !! pid); cbn; intros H; [by rewrite H|done]. Qed.

Lemma upd_same (p : page_t) f (m : pstore) : upd p f m !!! p = f (m !!! p).
Proof. apply lookup_total_insert_eq. Qed.

Lemma upd_other (p q : page_t) f (m : pstore) : q <> p -> upd p f m !!! q = m !!! q.
Proof. intros H. by apply lookup_total_insert_ne. Qed.

Lemma lift_run {A B} (a : A) (f : A -> Proc B) s : (lift_opt (Some a) ≫= f) s = f a s.
Proof. done. Qed.

(** ** The writer's side *)

(** The newest notice of process [pid] for the page waits for its diff. *)
Record to_serve (s : node) (p : page_t) (pid time : Z) (t : list Z) : Prop := {
  ts_ptr : valid_ptr p = true;
  ts_prot : p_prot (n_pages s !!! p) = PROT_READ_WRITE;
  ts_twin : p_twin (n_pages s !!! p) = Some t;
  ts_notice : exists w ws, wn_list (n_pages s !!! p) pid = w :: ws /\ wn_diff w = None /\
                vt_get (wn_vt w) pid = time
}.

Lemma add_first_diff from a size d seqno s : 4 + size <= MTU ->
  add_diff from a size d (Serving seqno 4 []) s = Ok (Serving seqno (4 + size) [Iovec a size d], s).
Proof.
  intros H. unfold add_diff. cbn [sv_size sv_seqno sv_iov].
  rewrite (proj2 (Z.ltb_ge MTU (4 + size)) H). done.
Qed.

Lemma serve_run p pid time from seqno s t : to_serve s p pid time t ->
  let mem := p_mem (n_pages s !!! p) in
  length mem = length t -> 4 * Z.of_nat (length mem) + 12 <= MTU ->
  let d := diff_create mem t in
  exists s', Tmk_diff_sigio_handler (diff_req seqno from p [pid; time]) s = Ok (tt, s') /\
    n_out s' = n_out s ++ [SendRep from (Reply seqno d)] /\
    p_twin (n_pages s' !!! p) = None /\ p_prot (n_pages s' !!! p) = PROT_READ /\
    p_mem (n_pages s' !!! p) = mem /\
    (exists w ws a, wn_list (n_pages s' !!! p) pid = w :: ws /\ wn_diff w = Some (a, d)) /\
    forall q, q <> p -> n_pages s' !!! q = n_pages s !!! q.
Proof.
  intros [Hp Hprot Ht (w & ws & Hw & Hd & Htime)] mem Hlen Hfit d.
  assert (Hsize : diff_bytes d <= 4 * Z.of_nat (length mem) + 8) by (by apply diff_bytes_le).
  assert (Hu : u16 (diff_bytes d) = diff_bytes d).
  { apply u16_small. unfold is_u16, diff_bytes in *. unfold MTU in Hfit. lia. }
  destruct (diff_create_run p (pid, O) s t Hp ltac:(congruence) Ht) as (s1 & R1 & P1 & C1 & _ & O1).
  fold mem d in P1. set (a := heap_ptr (n_heap_1 s)) in *.
  assert (Hw1 : wn_list (n_pages s1 !!! p) pid = set_diff a d w :: ws).
  { rewrite P1, upd_same. by apply wn_update_list. }
  assert (Hone : serve_one p from pid time (Serving seqno 4 []) false s =
    Ok (Serving seqno (4 + diff_bytes d) [Iovec a (diff_bytes d) d], true, s1)).
  { unfold serve_one. rewrite (bind_Ok _ _ _ _ _ (pg_ok id p s Hp)). change (id (n_pages s !!! p)) with (n_pages s !!! p).
    assert (Hf : find_wn pid time 0 (wn_list (n_pages s !!! p) pid) = Some (pid, O))
      by (rewrite Hw; cbn; by rewrite Htime, Z.eqb_refl).
    rewrite Hf, lift_run, (wn_lookup_head _ _ _ _ Hw).
    change (Some w ≫= wn_diff) with (wn_diff w). rewrite Hd.
    assert (R : (Tmk_diff_create p (pid, O);; mret true) s = Ok (true, s1)) by (by rewrite (bind_Ok _ _ _ _ _ R1)).
    rewrite (bind_Ok _ _ _ _ _ R), (bind_Ok _ _ _ _ _ (pg_ok id p s1 Hp)).
    change (id (n_pages s1 !!! p)) with (n_pages s1 !!! p). rewrite (wn_lookup_head _ _ _ _ Hw1).
    rewrite lift_run. change (wn_diff (set_diff a d w)) with (Some (a, d)). rewrite lift_run.
    cbn [wn_size set_diff]. rewrite Hu, (bind_Ok _ _ _ _ _ (add_first_diff from a (diff_bytes d) d seqno s1 ltac:(lia))). done. }
  assert (Ht1 : p_twin (n_pages s1 !!! p) = Some t) by (by rewrite P1, upd_same).
  set (s2 := set_n_out (n_out s1 ++ [SendRep from (Reply seqno (d ++ []))]) s1).
  set (s3 := set_n_pages (upd p (set_prot PROT_READ) (n_pages s2)) s2).
  assert (Ht3 : p_twin (n_pages s3 !!! p) = Some t) by (subst s3; cbn; by rewrite upd_same).
  destruct (twin_free_run p s3 t Hp Ht3) as (s4 & R4 & P4 & C4 & O4). exists s4. split_and!.
  - unfold Tmk_diff_sigio_handler. cbn [rq_id rq_from rq_data rq_seqno diff_req].
    change (serve_pairs p from [pid; time] (Serving seqno 4 []) false) with
      (serve_one p from pid time (Serving seqno 4 []) false).
    rewrite (bind_Ok _ _ _ _ _ Hone). change (1 <? iov_index _) with true. cbn [when].
    rewrite (bind_Ok (flush from (Serving seqno (4 + diff_bytes d) [Iovec a (diff_bytes d) d])) _ s1 tt s2 eq_refl).
    rewrite (bind_Ok (mprotect p PROT_READ) _ s2 tt s3 (set_pg_ok p _ s2 Hp)). exact R4.
  - rewrite O4. cbn. by rewrite O1, app_nil_r.
  - by rewrite P4, upd_same.
  - rewrite P4, upd_same. subst s3. cbn. by rewrite upd_same.
  - rewrite P4, upd_same. subst s3. cbn. by rewrite upd_same, P1, upd_same.
  - exists (set_diff a d w), ws, a. split; [|done]. rewrite P4, upd_same. subst s3. cbn. rewrite upd_same. exact Hw1.
  - intros q Hq. rewrite P4, upd_other by done. subst s3. cbn. rewrite upd_other by done. by rewrite P1, upd_other.
Qed.

(** ** The reader's side *)

(** The newest notice of a process, if any, has its diff. *)
Definition settled (ws : list write_notice) : Prop :=
  match ws with [] => True | w :: _ => wn_diff w <> None end.

Lemma sort_proc_settled pid pos j wns ws : settled wns -> sort_proc pid pos j wns ws = ws.
Proof. destruct wns as [|w wns]; [done|]. cbn. by destruct (wn_diff w). Qed.

(** One notice is missing its diff. *)
Lemma sort_one c pg pid w ws : wn_list pg pid = w :: ws -> wn_diff w = None -> settled ws ->
  0 <= pid < nprocs c -> (forall i, i <> pid -> settled (wn_list pg i)) ->
  sort_writes c pg = [WEntry (pid, O) (wn_id w) (wn_vt w)].
Proof.
  intros Hw Hd Hs Hp Ho. unfold sort_writes, procs_of.
  set (f := fun acc i => sort_proc i 0 0 (wn_list pg i) acc).
  assert (Hskip : forall l acc, pid ∉ l -> fold_left f l acc = acc).
  { induction l as [|i l IH]; intros acc Hn; [done|]. cbn. unfold f at 2.
    rewrite sort_proc_settled by (apply Ho; intros ->; apply Hn; by left). apply IH. set_solver. }
  assert (El : exists l1 l2, seqZ 0 (nprocs c) = l1 ++ pid :: l2 /\ pid ∉ l1 /\ pid ∉ l2).
  { assert (Hin : pid ∈ seqZ 0 (nprocs c)) by (apply elem_of_seqZ; lia).
    apply list_elem_of_split in Hin as (l1 & l2 & E). exists l1, l2. split; [done|].
    pose proof (NoDup_seqZ 0 (nprocs c)) as Hnd. rewrite E in Hnd.
    apply NoDup_app in Hnd as (_ & H1 & H2). apply NoDup_cons in H2 as [H2 _].
    split; [|done]. intros Hin. apply (H1 pid Hin). by left. }
  destruct El as (l1 & l2 & -> & H1 & H2). rewrite fold_left_app. cbn [fold_left].
  rewrite (Hskip l1) by done. unfold f at 2. rewrite Hw. cbn [sort_proc]. rewrite Hd. cbn [insert_at drop insert_from take app].
  rewrite sort_proc_settled by done. by apply Hskip.
Qed.

(** The page is invalid and misses one diff. *)
Record to_fetch (s : node) (p : page_t) (pid time : Z) : Prop := {
  tf_page : 0 <= p < npages (n_conf s) /\ npages (n_conf s) <= NPAGES;
  tf_pid : 0 <= pid < nprocs (n_conf s) /\ nprocs (n_conf s) <= NPROCS;
  tf_state : p_state (n_pages s !!! p) = invalid;
  tf_notice : exists w ws, wn_list (n_pages s !!! p) pid = w :: ws /\ wn_diff w = None /\ settled ws /\
                wn_id w = pid /\ vt_get (wn_vt w) pid = time;
  tf_others : forall i, i <> pid -> settled (wn_list (n_pages s !!! p) i)
}.

Section Fetch.
Context {signals : Signals}.

(** The reply that is waited for is the next event. *)
Lemma receive_first s p to seqno rest d evs : n_events s = EvRep (Reply seqno d) [] :: evs ->
  exists s1, receive_diffs p to seqno rest s = Ok ((heap_2_ptr (n_heap_2 s), d), s1) /\ n_pages s1 = n_pages s /\
    n_out s1 = n_out s /\ n_conf s1 = n_conf s /\ n_events s1 = evs.
Proof.
  intros He. unfold receive_diffs. rewrite (bind_Ok me _ s (proc_id (n_conf s)) s eq_refl).
  rewrite (bind_Ok (gets n_events) _ s (n_events s) s eq_refl), He.
  set (resend := send_req to _;; _).
  assert (R : await (EvRep (Reply seqno d) [] :: evs) true true seqno resend discard s =
    Ok (Reply seqno d, set_n_events evs s)).
  { by apply await_next. }
  rewrite (bind_Ok _ _ _ _ _ R). eexists. split; [reflexivity|]. done.
Qed.

(** [apply_diffs] for the one entry, with the reply in the socket. *)
Lemma apply_one s p pid w seqno d evs mem' :
  valid_ptr p = true -> p_prot (n_pages s !!! p) = PROT_READ_WRITE -> we_ref w = (pid, O) ->
  n_events s = EvRep (Reply seqno d) [] :: evs ->
  diff_apply (p_mem (n_pages s !!! p)) d = Some (mem', []) ->
  exists s' a, apply_diffs p pid seqno [w] None s = Ok (tt, s') /\
    n_pages s' = upd p (wn_update (pid, O) (set_diff a d)) (upd p (set_mem mem') (n_pages s)) /\
    n_out s' = n_out s /\ n_conf s' = n_conf s.
Proof.
  intros Hp Hprot Hw He Hd. unfold apply_diffs. set (a := heap_2_ptr (n_heap_2 s)).
  destruct (receive_first s p pid seqno [w] d evs He) as (s1 & R1 & P1 & O1 & C1 & _). rewrite (bind_Ok _ _ _ _ _ R1).
  assert (Hprot1 : p_prot (n_pages s1 !!! p) = PROT_READ_WRITE) by (by rewrite P1).
  rewrite (bind_Ok _ _ _ _ _ (load_page_run p s1 Hp ltac:(congruence))), P1, Hd, lift_run.
  assert (R2 : store_page p mem' s1 = Ok (tt, set_n_pages (upd p (set_mem mem') (n_pages s1)) s1)).
  { unfold store_page. rewrite (bind_Ok _ _ _ _ _ (pg_ok p_prot p s1 Hp)), Hprot1. by apply set_pg_ok. }
  rewrite (bind_Ok _ _ _ _ _ R2). set (s2 := set_n_pages _ s1). cbn [length]. rewrite Nat.sub_0_r, take_ge by lia.
  rewrite (bind_Ok _ _ _ _ _ (set_pg_ok p _ s2 Hp)), Hw. exists (set_n_pages (upd p (wn_update (pid, O) (set_diff a d)) (n_pages s2)) s2), a.
  split; [done|]. subst s2. cbn. by rewrite P1, O1, C1.
Qed.

Lemma next_seqno_run s : next_seqno s =
  Ok (u32 (n_req_seqno s + SEQNO_INCR), set_n_req_seqno (u32 (n_req_seqno s + SEQNO_INCR)) s).
Proof. done. Qed.

(** [Tmk_diff_request] when one diff is missing and the reply is the next event. *)
Lemma diff_request_one s p pid w ws d evs mem' :
  valid_ptr p = true -> p_prot (n_pages s !!! p) = PROT_READ_WRITE ->
  0 <= pid < nprocs (n_conf s) -> nprocs (n_conf s) <= NPROCS ->
  wn_list (n_pages s !!! p) pid = w :: ws -> wn_diff w = None -> settled ws -> wn_id w = pid ->
  (forall i, i <> pid -> settled (wn_list (n_pages s !!! p) i)) ->
  let seqno := u32 (n_req_seqno s + SEQNO_INCR) in
  n_events s = EvRep (Reply seqno d) [] :: evs ->
  diff_apply (p_mem (n_pages s !!! p)) d = Some (mem', []) ->
  exists s' a, Tmk_diff_request p s = Ok (tt, s') /\
    n_pages s' = upd p (wn_update (pid, O) (set_diff a d)) (upd p (set_mem mem') (n_pages s)) /\
    n_out s' = n_out s ++ [SendReq pid (diff_req seqno (proc_id (n_conf s)) p [pid; vt_get (wn_vt w) pid])] /\
    n_conf s' = n_conf s.
Proof.
  intros Hp Hprot Hpid Hn Hw Hd Hs Hid Ho seqno He Ha. unfold Tmk_diff_request.
  rewrite (bind_Ok config _ s (n_conf s) s eq_refl).
  rewrite (bind_Ok _ _ _ _ _ (pg_ok (sort_writes (n_conf s)) p s Hp)).
  rewrite (sort_one _ _ _ _ _ Hw Hd Hs Hpid Ho), Hid.
  set (e := WEntry (pid, O) pid (wn_vt w)). cbn [length].
  assert (Hu : u16 pid = pid) by (apply u16_small; unfold is_u16, NPROCS in *; lia).
  assert (Hg : groups [e] = [(Preq pid (-1) 0, [pid; vt_get (wn_vt w) pid])]).
  { transitivity [(Preq (u16 pid) (-1) 0, [u16 pid; vt_get (wn_vt w) pid])]; [reflexivity|by rewrite Hu]. }
  rewrite Hg. cbn [length]. change ((NWRITES <? Z.of_nat 1) || (NPROCS * NPROCS <? Z.of_nat 1)) with false. cbv iota.
  rewrite (bind_Ok _ _ _ _ _ (next_seqno_run s)). fold seqno.
  set (s1 := set_n_req_seqno seqno s).
  set (s2 := set_n_out (n_out s1 ++ [SendReq pid (diff_req seqno (proc_id (n_conf s)) p [pid; vt_get (wn_vt w) pid])]) s1).
  assert (R1 : for_each (fun '(q, data) => send_req (pr_to q) (diff_req seqno (proc_id (n_conf s)) p data))
    [(Preq pid (-1) 0, [pid; vt_get (wn_vt w) pid])] s1 = Ok (tt, s2)) by reflexivity.
  rewrite (bind_Ok _ _ _ _ _ R1). cbn [for_each pr_to pr_i pr_n].
  change (entries_down [e] (-1) 0) with [e].
  destruct (apply_one s2 p pid e seqno d evs mem' Hp Hprot eq_refl He Ha) as (s' & a & R & P & O & C).
  rewrite (bind_Ok _ _ _ _ _ R). exists s', a. split_and!; [done|by rewrite P|by rewrite O|by rewrite C].
Qed.

(** The reader faults at [offset] in page [p]. *)
Definition faults_at (s : node) (offset : Z) (p : page_t) : Prop :=
  Z.shiftr (u32 offset) (Z.log2 (page_size (n_conf s))) = p.

Lemma fault_run s offset p pid time d evs mem' : to_fetch s p pid time -> faults_at s offset p ->
  let seqno := u32 (n_req_seqno s + SEQNO_INCR) in
  n_events s = EvRep (Reply seqno d) [] :: evs ->
  diff_apply (p_mem (n_pages s !!! p)) d = Some (mem', []) ->
  exists s' a, segv_handler offset false s = Ok (true, s') /\
    n_pages s' !!! p = set_prot PROT_READ (wn_update (pid, O) (set_diff a d) (set_mem mem'
      (set_state valid (set_prot PROT_READ_WRITE (n_pages s !!! p))))) /\
    (forall q, q <> p -> n_pages s' !!! q = n_pages s !!! q) /\
    n_out s' = n_out s ++ [SendReq pid (diff_req seqno (proc_id (n_conf s)) p [pid; time])].
Proof.
  intros [[Hp Hn] [Hpid Hnp] Hst (w & ws & Hw & Hd & Hs & Hid & Ht) Ho] Hf seqno He Ha.
  assert (Hv : valid_ptr p = true) by (unfold valid_ptr; lia).
  unfold segv_handler. rewrite (bind_Ok config _ s (n_conf s) s eq_refl). cbv zeta. rewrite Hf.
  rewrite (proj2 (Z.ltb_lt p (npages (n_conf s)))) by lia.
  set (s1 := set_n_pages (upd p (set_prot PROT_READ_WRITE) (n_pages s)) s).
  set (s2 := set_n_pages (upd p (set_state valid) (n_pages s1)) s1).
  assert (P2 : n_pages s2 !!! p = set_state valid (set_prot PROT_READ_WRITE (n_pages s !!! p))).
  { subst s2 s1. cbn. by rewrite !upd_same. }
  destruct (diff_request_one s2 p pid w ws d evs mem' Hv) as (s3 & a & R3 & P3 & O3 & C3);
    [by rewrite P2|done|done|by rewrite P2|done|done|done|by rewrite P2|done|by rewrite P2|].
  exists (set_n_pages (upd p (set_prot PROT_READ) (n_pages s3)) s3), a. split_and!.
  - assert (R : (if decide (p_state (n_pages s1 !!! p) = valid) then twin_and_link p else
       when (bool_decide (p_state (n_pages s1 !!! p) = empty)) (Tmk_page_request p);;
       set_pg p (set_state valid);; Tmk_diff_request p;; mprotect p PROT_READ) s1 =
       Ok (tt, set_n_pages (upd p (set_prot PROT_READ) (n_pages s3)) s3)).
    { assert (E1 : p_state (n_pages s1 !!! p) = invalid) by (subst s1; cbn; by rewrite upd_same).
      rewrite E1. rewrite decide_False by done. change (bool_decide (invalid = empty)) with false.
      rewrite (bind_Ok (when false (Tmk_page_request p)) _ s1 tt s1 eq_refl), (bind_Ok _ _ _ _ _ (set_pg_ok p _ s1 Hv)). fold s2.
      rewrite (bind_Ok _ _ _ _ _ R3). unfold mprotect. by apply set_pg_ok. }
    rewrite (bind_Ok (mprotect p PROT_READ_WRITE) _ s tt s1 (set_pg_ok p _ s Hv)), (bind_Ok _ _ _ _ _ (pg_ok p_state p s1 Hv)).
    by rewrite (bind_Ok _ _ _ _ _ R).
  - cbn. by rewrite upd_same, P3, !upd_same, P2.
  - intros q Hq. cbn. rewrite upd_other by done. rewrite P3, !upd_other by done. subst s2 s1. cbn. by rewrite !upd_other.
  - cbn. rewrite O3. cbn. by rewrite Ht.
Qed.
End Fetch.

(** ** The page, through both processes *)

(** The writer's reply to the request that the reader's fault sends. *)
Definition answers (r : request) (j : Z) (writer : node) (seqno : Z) (d : list Z) (writer' : node) : Prop :=
  Tmk_diff_sigio_handler r writer = Ok (tt, writer') /\
  n_out writer' = n_out writer ++ [SendRep j (Reply seqno d)].

(** C4: a read fault on a page that another process has modified brings the
    modifications.  The fault sends one request; the writer's handler for it
    makes the diff of the page, sends it, write-protects the page and drops
    the twin; with that reply the fault handler ends, the page is valid and
    readable, and each word is the writer's where the writer had changed it
    and the reader's own elsewhere.  No other page changes on either side. *)
Theorem read_fault_fetches `{Signals} reader writer offset p pid time t evs :
  to_fetch reader p pid time -> to_serve writer p pid time t -> faults_at reader offset p ->
  let seqno := u32 (n_req_seqno reader + SEQNO_INCR) in
  let self := proc_id (n_conf reader) in
  let own := p_mem (n_pages reader !!! p) in
  let mem := p_mem (n_pages writer !!! p) in
  length mem = length t -> length own = length t -> Forall is_word mem ->
  4 * Z.of_nat (length mem) + 12 <= MTU ->
  exists writer' d, answers (diff_req seqno self p [pid; time]) self writer seqno d writer' /\
    p_twin (n_pages writer' !!! p) = None /\ p_prot (n_pages writer' !!! p) = PROT_READ /\
    p_mem (n_pages writer' !!! p) = mem /\
    (forall q, q <> p -> n_pages writer' !!! q = n_pages writer !!! q) /\
    (n_events reader = EvRep (Reply seqno d) [] :: evs ->
     exists reader', segv_handler offset false reader = Ok (true, reader') /\
       n_out reader' = n_out reader ++ [SendReq pid (diff_req seqno self p [pid; time])] /\
       p_state (n_pages reader' !!! p) = valid /\ p_prot (n_pages reader' !!! p) = PROT_READ /\
       (forall i b v x, own !! i = Some b -> mem !! i = Some v -> t !! i = Some x ->
          p_mem (n_pages reader' !!! p) !! i = Some (if x =? v then b else v)) /\
       (forall q, q <> p -> n_pages reader' !!! q = n_pages reader !!! q)).
Proof.
  intros Hr Hw Hf seqno self own mem Hlen Hown Hok Hfit.
  destruct (serve_run p pid time self seqno writer t Hw Hlen Hfit) as (writer' & R & O & T & P & M & _ & Q).
  exists writer', (diff_create mem t). split_and!; [exact (conj R O)|exact T|exact P|exact M|exact Q|].
  intros He.
  assert (Ha : diff_apply own (diff_create mem t) = Some (merge_words own (zip t mem), [])).
  { rewrite <- (app_nil_r (diff_create mem t)). apply diff_apply_create; try done.
    unfold page_fits. unfold MTU in Hfit. lia. }
  destruct (fault_run reader offset p pid time _ evs _ Hr Hf He Ha) as (reader' & a & R' & P' & Q' & O').
  exists reader'. rewrite P'. split_and!; [exact R'|exact O'|reflexivity|reflexivity| |exact Q'].
  intros i b v x Hb Hv Hx. exact (merge_words_lookup own mem t i b v x Hb Hv Hx).
Qed.

(** Process 1 has changed two words of page 2, process 0 one other word. *)
Definition notice_ex : write_notice := WriteNotice None 0 1 (vt_set 1 1 vt_zero).
Definition page_ex (st : page_state) (pr : prot_t) (mem : list Z) (twin : option (list Z)) : page :=
  set_state st (set_prot pr (set_mem mem (set_twin twin (set_wn {[ 1 := [notice_ex] ]} zero_page)))).

Definition writer_ex : node :=
  set_n_pages {[ 2 := page_ex valid PROT_READ_WRITE [10; 2; 30; 4] (Some [1; 2; 3; 4]) ]}
    (zero_node (Conf 1 2 16 8 0)).

Definition reader_ex (evs : list event) : node :=
  set_n_events evs (set_n_pages {[ 2 := page_ex invalid PROT_NONE [1; 20; 3; 4] None ]}
    (zero_node (Conf 0 2 16 8 0))).

Definition no_signals : Signals := skip.

Lemma read_fault_fetches_witness :
  let evs := [EvRep (Reply 32 [4; 0; 10; 0; 4; 8; 30; 0; 0; 0]) []] in
  exists writer' d, answers (diff_req 32 0 2 [1; 1]) 0 writer_ex 32 d writer' /\
    p_twin (n_pages writer' !!! 2) = None /\ p_prot (n_pages writer' !!! 2) = PROT_READ /\
    p_mem (n_pages writer' !!! 2) = [10; 2; 30; 4] /\
    (forall q, q <> 2 -> n_pages writer' !!! q = n_pages writer_ex !!! q) /\
    (evs = [EvRep (Reply 32 d) []] ->
     exists reader', segv_handler (signals := no_signals) 36 false (reader_ex evs) = Ok (true, reader') /\
       n_out reader' = [SendReq 1 (diff_req 32 0 2 [1; 1])] /\
       p_state (n_pages reader' !!! 2) = valid /\ p_prot (n_pages reader' !!! 2) = PROT_READ /\
       (forall i b v x, [1; 20; 3; 4] !! i = Some b -> [10; 2; 30; 4] !! i = Some v -> [1; 2; 3; 4] !! i = Some x ->
          p_mem (n_pages reader' !!! 2) !! i = Some (if x =? v then b else v)) /\
       (forall q, q <> 2 -> n_pages reader' !!! q = n_pages (reader_ex evs) !!! q)).
Proof.
  intros evs.
  apply (@read_fault_fetches no_signals (reader_ex evs) writer_ex 36 2 1 1 [1; 2; 3; 4] []).
  - split; [split; [split|]; vm_compute; (reflexivity || discriminate)..|vm_compute; reflexivity| |].
    + exists notice_ex, []. split_and!; vm_compute; reflexivity.
    + intros i Hi. unfold wn_list. assert (E : p_wn (n_pages (reader_ex evs) !!! 2) = {[ 1 := [notice_ex] ]}) by (vm_compute; reflexivity).
      by rewrite E, lookup_singleton_ne.
  - split; [vm_compute; reflexivity..|]. exists notice_ex, []. split_and!; vm_compute; reflexivity.
  - vm_compute. reflexivity.
  - vm_compute. reflexivity.
  - vm_compute. reflexivity.
  - assert (E : p_mem (n_pages writer_ex !!! 2) = [10; 2; 30; 4]) by (vm_compute; reflexivity).
    rewrite E. unfold is_word, is_u32. repeat constructor; lia.
  - vm_compute. discriminate.
Defined.

(** ** A write fault *)
Lemma twin_alloc_run p s : valid_ptr p = true -> p_prot (n_pages s !!! p) <> PROT_NONE -> exists s',
  Tmk_twin_alloc_and_copy p s = Ok (tt, s') /\
  n_pages s' = upd p (set_twin (Some (p_mem (n_pages s !!! p)))) (n_pages s) /\
  n_conf s' = n_conf s /\ n_out s' = n_out s.
Proof.
  intros Hp Hprot. unfold Tmk_twin_alloc_and_copy.
  rewrite (bind_Ok (gets n_twins) _ s (n_twins s) s eq_refl).
  set (m := if 0 <? n_twins s then _ else _).
  assert (R : exists s1, m s = Ok (tt, s1) /\ n_pages s1 = n_pages s /\ n_conf s1 = n_conf s /\ n_out s1 = n_out s).
  { subst m. destruct (0 <? n_twins s); (eexists; split; [reflexivity|done]). }
  destruct R as (s1 & R & P & C & O). rewrite (bind_Ok _ _ _ _ _ R).
  assert (Hprot1 : p_prot (n_pages s1 !!! p) <> PROT_NONE) by (by rewrite P).
  rewrite (bind_Ok _ _ _ _ _ (load_page_run p s1 Hp Hprot1)), set_pg_ok by done.
  eexists. split; [reflexivity|]. cbn. by rewrite P, C, O.
Qed.

(** The page is valid and write-protected, and nobody has written it yet. *)
Record clean (s : node) (p : page_t) : Prop := {
  cl_page : 0 <= p < npages (n_conf s) /\ npages (n_conf s) <= NPAGES;
  cl_state : p_state (n_pages s !!! p) = valid;
  cl_twin : p_twin (n_pages s !!! p) = None
}.

(** The first write to a valid page asks nobody: the handler copies the
    page to a twin, makes the page writable, and puts it in the dirty list, so
    that the write notice of the next interval will name it.  The page's
    contents, its state and its notices, the other pages and the
    invalidations that wait are unchanged. *)
Theorem write_fault_twins `{Signals} s offset p S :
  clean s p -> faults_at s offset p ->
  lists (npages (n_conf s)) (n_pages s) S -> p ∉ S.1 -> p ∉ S.2 ->
  let mem := p_mem (n_pages s !!! p) in
  exists s', segv_handler offset true s = Ok (true, s') /\ n_out s' = n_out s /\
    lists (npages (n_conf s)) (n_pages s') (S.1, S.2 ∪ {[p]}) /\
    p_twin (n_pages s' !!! p) = Some mem /\ p_mem (n_pages s' !!! p) = mem /\
    p_prot (n_pages s' !!! p) = PROT_READ_WRITE /\ p_state (n_pages s' !!! p) = valid /\
    p_wn (n_pages s' !!! p) = p_wn (n_pages s !!! p) /\
    forall q, q <> p -> same_contents (n_pages s' !!! q) (n_pages s !!! q) /\
      p_prot (n_pages s' !!! q) = p_prot (n_pages s !!! q).
Proof.
  intros [[Hp Hn] Hst Htw] Hf Hl H1 H2 mem.
  assert (Hv : valid_ptr p = true) by (unfold valid_ptr; lia).
  unfold segv_handler. rewrite (bind_Ok config _ s (n_conf s) s eq_refl). cbv zeta. rewrite Hf.
  rewrite (proj2 (Z.ltb_lt p (npages (n_conf s)))) by lia.
  set (s1 := set_n_pages (upd p (set_prot PROT_READ_WRITE) (n_pages s)) s).
  assert (P1 : n_pages s1 !!! p = set_prot PROT_READ_WRITE (n_pages s !!! p)) by (subst s1; cbn; by rewrite upd_same).
  destruct (twin_alloc_run p s1 Hv) as (s2 & R2 & P2 & C2 & O2); [by rewrite P1|].
  assert (Hl2 : lists (npages (n_conf s)) (n_pages s2) S).
  { apply (lists_frame _ (n_pages s)); [exact Hl|]. intros i. rewrite P2. subst s1. cbn.
    rewrite !upd_lookup. case_decide; [subst|by split_and!]. rewrite decide_True by done. by split_and!. }
  destruct (lists_merge Dirty (npages (n_conf s)) (n_pages s2) S p Hl2 Hp H1 H2) as (m & R3 & L3 & F3).
  set (s3 := set_n_pages m s2).
  assert (R : twin_and_link p s1 = Ok (tt, s3)).
  { unfold twin_and_link. rewrite (bind_Ok _ _ _ _ _ R2). unfold on_pages, Tmk_page_dirty_merge. by rewrite R3. }
  exists s3. destruct (F3 p) as [(E1 & E2 & E3 & _ & E5) E6].
  rewrite P2, upd_same, P1 in E1, E2, E3, E5, E6. split_and!.
  - rewrite (bind_Ok (mprotect p PROT_READ_WRITE) _ s tt s1 (set_pg_ok p _ s Hv)), (bind_Ok _ _ _ _ _ (pg_ok p_state p s1 Hv)).
    rewrite P1. change (p_state (set_prot PROT_READ_WRITE (n_pages s !!! p))) with (p_state (n_pages s !!! p)).
    rewrite Hst, decide_True by done. by rewrite (bind_Ok _ _ _ _ _ R).
  - exact O2.
  - exact L3.
  - exact E2.
  - exact E1.
  - exact E6.
  - rewrite <- Hst. exact E3.
  - exact E5.
  - intros q Hq. destruct (F3 q) as [Fq Gq]. rewrite P2, upd_other in Fq, Gq by done.
    subst s1. cbn in Fq, Gq. rewrite upd_other in Fq, Gq by done. done.
Qed.

(** Page 3 of a process whose pages 5 and 6 are dirty. *)
Definition clean_ex : node :=
  set_n_pages (upd 3 (fun p => set_mem [7; 8; 9; 10] (set_prot PROT_READ p)) (n_pages dirty_ex)) dirty_ex.

Lemma clean_ex_lists : lists 8 (n_pages clean_ex) (∅, ∅ ∪ {[6]} ∪ {[5]}).
Proof.
  apply (lists_frame 8 (n_pages dirty_ex)); [exact dirty_ex_ok|]. intros i. unfold clean_ex. cbn [n_pages set_n_pages].
  rewrite upd_lookup. case_decide; [subst|]; done.
Qed.

Lemma write_fault_twins_witness :
  exists s', segv_handler (signals := no_signals) 12300 true clean_ex = Ok (true, s') /\
    lists 8 (n_pages s') (∅, (∅ ∪ {[6]} ∪ {[5]}) ∪ {[3]}) /\
    p_twin (n_pages s' !!! 3) = Some [7; 8; 9; 10] /\ p_mem (n_pages s' !!! 3) = [7; 8; 9; 10] /\
    p_prot (n_pages s' !!! 3) = PROT_READ_WRITE.
Proof.
  assert (E : p_mem (n_pages clean_ex !!! 3) = [7; 8; 9; 10]) by (vm_compute; reflexivity).
  destruct (@write_fault_twins no_signals clean_ex 12300 3 (∅, ∅ ∪ {[6]} ∪ {[5]})) as (s' & R & _ & L & T & M & P & _).
  - split; [split; [split|]|..]; vm_compute; (reflexivity || discriminate).
  - vm_compute. reflexivity.
  - exact clean_ex_lists.
  - apply not_elem_of_empty.
  - clear E. set_solver.
  - exists s'. rewrite E in T, M. exact (conj R (conj L (conj T (conj M P)))).
Defined.
