(* ===== verification/Acquire.v ===== *)
(** * From a release to the next acquire

    The path of a critical section's modifications: the release ends the
    interval and sends it with the token, the acquire invalidates its pages,
    the next access faults and fetches the diff. *)
From S2P Require Import Prelude DiffCodec Pages PageLists PageWalk PageSets State Rpc Twins Diffs Interval IntervalWire IntervalEffect IntervalCreate Untwin Faults Lock LockProtocol LockRefine Coherence.
Local Open Scope Z_scope.

(** ** Noting the pages of an interval

    At the receiver: the pages [ps] have got write notices of process [w], and
    those that were valid are invalid and wait in the invalidation list. *)
Definition noted_page (w : Z) (vt : vtime) (b : bool) (q q' : page) : Prop :=
  p_mem q' = p_mem q /\ p_twin q' = p_twin q /\ p_prot q' = p_prot q /\ p_manager q' = p_manager q /\
  p_state q' = (if b && bool_decide (p_state q = valid) then invalid else p_state q) /\
  p_wn q' = if b then p_wn (push_wn w vt q) else p_wn q.

Record noted (n w : Z) (vt : vtime) (D : gset Z) (ps : list Z) (s : node) (I : gset Z) (s' : node) (I' : gset Z) : Prop := {
  no_lists : lists n (n_pages s') (I', D);
  no_fields : other_fields s' = other_fields s;
  no_inval : forall q, q ∈ I' -> q ∈ I \/ q ∈ ps;
  no_kept : I ⊆ I';
  no_valid : forall q, q ∈ ps -> p_state (n_pages s !!! q) = valid -> q ∈ I';
  no_pages : forall q, noted_page w vt (bool_decide (q ∈ ps)) (n_pages s !!! q) (n_pages s' !!! q)
}.

Lemma noted_nil n w vt D s I : lists n (n_pages s) (I, D) -> noted n w vt D [] s I s I.
Proof.
  intros Hl. split; [done|done|by left|done| |].
  - intros q Hq. by apply elem_of_nil in Hq.
  - intros q. rewrite bool_decide_false by apply not_elem_of_nil. done.
Qed.

Lemma noted_app n w vt D ps1 ps2 s I s1 I1 s2 I2 : NoDup (ps1 ++ ps2) ->
  noted n w vt D ps1 s I s1 I1 -> noted n w vt D ps2 s1 I1 s2 I2 -> noted n w vt D (ps1 ++ ps2) s I s2 I2.
Proof.
  intros Hnd [L1 F1 V1 K1 A1 P1] [L2 F2 V2 K2 A2 P2]. apply NoDup_app in Hnd as (_ & Hd & _). split.
  - done.
  - congruence.
  - intros q Hq. rewrite elem_of_app. destruct (V2 q Hq) as [H|H]; [|by right; right].
    destruct (V1 q H); [by left|right; by left].
  - by etrans.
  - intros q Hq Hv. apply elem_of_app in Hq as [Hq|Hq]; [by apply K2, A1|]. apply A2; [done|].
    destruct (P1 q) as (_ & _ & _ & _ & E & _). rewrite E, bool_decide_false by (intros Hx; by apply (Hd q)). done.
  - intros q. destruct (P1 q) as (M1 & T1 & R1 & G1 & S1 & W1), (P2 q) as (M2 & T2 & R2 & G2 & S2 & W2).
    assert (E : bool_decide (q ∈ ps1 ++ ps2) = bool_decide (q ∈ ps1) || bool_decide (q ∈ ps2)).
    { destruct (decide (q ∈ ps1)) as [H1|H1]; [rewrite !(bool_decide_true) by (try done; apply elem_of_app; by left); done|].
      rewrite (bool_decide_false (q ∈ ps1)) by done. apply bool_decide_ext. rewrite elem_of_app. tauto. }
    rewrite E. unfold noted_page. rewrite M2, T2, R2, G2, S2, W2, M1, T1, R1, G1, S1.
    destruct (decide (q ∈ ps1)) as [H1|H1].
    + rewrite (bool_decide_true (q ∈ ps1)) in * by done.
      rewrite (bool_decide_false (q ∈ ps2)) by (intros Hx; by apply (Hd q)). cbn [orb andb]. by rewrite W1.
    + rewrite (bool_decide_false (q ∈ ps1)) in * by done. cbn [orb andb] in *.
      split_and!; try done. destruct (bool_decide (q ∈ ps2)); [|done]. unfold push_wn. cbn. unfold wn_list. by rewrite W1.
Qed.

Lemma note_page_run n v w vt p s I D : lists n (n_pages s) (I, D) -> 0 <= p < n -> p ∉ I -> p ∉ D ->
  p_twin (n_pages s !!! p) = None -> exists s' I', note_page v w vt p s = Ok (tt, s') /\ noted n w vt D [p] s I s' I'.
Proof.
  intros Hl Hp HI HD Ht. pose proof (ls_bound _ _ _ Hl) as Hn.
  assert (Hv : valid_ptr p = true) by (unfold valid_ptr; lia).
  set (s1 := set_n_pages (upd p (push_wn w vt) (n_pages s)) (set_n_heap (heap_advance INTERVAL_HEAP sizeof_write_notice (n_heap s)) s)).
  assert (R1 : push_notice w w vt p s = Ok (tt, s1)).
  { unfold push_notice. erewrite bind_Ok by reflexivity. by rewrite set_pg_ok. }
  assert (E1 : n_pages s1 !!! p = push_wn w vt (n_pages s !!! p)) by (subst s1; cbn; by rewrite upd_same).
  assert (Hl1 : lists n (n_pages s1) (I, D)).
  { apply (lists_frame n (n_pages s)); [done|]. intros i. subst s1. cbn. rewrite upd_lookup. case_decide; [by subst|done]. }
  assert (Hmem : forall q, q ∈ [p] <-> q = p) by (intros q; apply list_elem_of_singleton).
  unfold note_page. rewrite (bind_Ok _ _ _ _ _ R1), (bind_Ok _ _ _ _ _ (pg_ok p_state p s1 Hv)), E1.
  change (p_state (push_wn w vt (n_pages s !!! p))) with (p_state (n_pages s !!! p)).
  destruct (decide (p_state (n_pages s !!! p) = valid)) as [Hst|Hst].
  - rewrite Hst. rewrite (bind_Ok _ _ _ _ _ (set_pg_ok p _ s1 Hv)). set (s2 := set_n_pages _ s1).
    assert (E2 : n_pages s2 !!! p = set_state invalid (push_wn w vt (n_pages s !!! p))).
    { subst s2. cbn [n_pages set_n_pages]. by rewrite upd_same, E1. }
    assert (R2 : untwin 3 v p s2 = Ok (tt, s2)).
    { cbn [untwin]. rewrite (bind_Ok _ _ _ _ _ (pg_ok p_twin p s2 Hv)), E2. cbn. by rewrite Ht. }
    rewrite (bind_Ok _ _ _ _ _ R2).
    assert (Hl2 : lists n (n_pages s2) (I, D)).
    { apply (lists_frame n (n_pages s1)); [done|]. intros i. subst s2. cbn [n_pages set_n_pages]. rewrite upd_lookup.
      case_decide; [by subst|done]. }
    destruct (lists_merge Inval n (n_pages s2) (I, D) p Hl2 Hp HI HD) as (m & R3 & Hl3 & Hc).
    exists (set_n_pages m s2), (I ∪ {[p]}). split; [unfold on_pages, Tmk_page_inval_merge; by rewrite R3|].
    split; [done|done| |set_solver|set_solver|].
    + intros q Hq. apply elem_of_union in Hq as [Hq|Hq]; [by left|right]. apply elem_of_singleton in Hq as ->. by left.
    + intros q. destruct (Hc q) as [(M & T & S & G & W) P]. change (n_pages (set_n_pages m s2)) with m.
      unfold noted_page. rewrite M, T, S, G, W, P. destruct (decide (q = p)) as [->|Hq].
      * rewrite E2, bool_decide_true by (by left). cbn. by rewrite bool_decide_true.
      * rewrite bool_decide_false by (by rewrite Hmem). subst s2 s1. cbn. by rewrite !upd_other.
  - exists s1, I. split; [by destruct (p_state (n_pages s !!! p))|]. split; [done|done|by left|done| |].
    + intros q Hq. apply Hmem in Hq as ->. done.
    + intros q. unfold noted_page. destruct (decide (q = p)) as [->|Hq].
      * rewrite E1, bool_decide_true by (by left). cbn. by rewrite bool_decide_false.
      * rewrite bool_decide_false by (by rewrite Hmem). subst s1. cbn. by rewrite upd_other.
Qed.

(** The pages can be noted: they are clean and not yet invalidated. *)
Definition clean_here (n : Z) (s : node) (I D : gset Z) (p : page_t) : Prop :=
  0 <= p < n /\ p ∉ I /\ p ∉ D /\ p_twin (n_pages s !!! p) = None.

Lemma clean_after n w vt D ps s I s' I' p : noted n w vt D ps s I s' I' -> clean_here n s I D p -> p ∉ ps ->
  clean_here n s' I' D p.
Proof.
  intros H (Hp & HI & HD & Ht) Hn. split_and!; [lia..| |done|].
  - intros Hi. by destruct (no_inval _ _ _ _ _ _ _ _ _ H p Hi).
  - destruct (no_pages _ _ _ _ _ _ _ _ _ H p) as (_ & -> & _). done.
Qed.

Lemma note_all n v w vt D ps : NoDup ps -> forall s I, lists n (n_pages s) (I, D) ->
  (forall p, p ∈ ps -> clean_here n s I D p) ->
  exists s' I', for_each (note_page v w vt) ps s = Ok (tt, s') /\ noted n w vt D ps s I s' I'.
Proof.
  intros Hnd. induction Hnd as [|p ps Hp Hnd IH]; intros s I Hl Hc; [exists s, I; split; [done|by apply noted_nil]|].
  destruct (Hc p ltac:(by left)) as (Hb & HI & HD & Ht).
  destruct (note_page_run n v w vt p s I D Hl Hb HI HD Ht) as (s1 & I1 & R1 & N1).
  destruct (IH s1 I1 (no_lists _ _ _ _ _ _ _ _ _ N1)) as (s2 & I2 & R2 & N2).
  { intros q Hq. eapply clean_after; [exact N1|apply Hc; by right|]. intros Hx. apply list_elem_of_singleton in Hx as ->. done. }
  exists s2, I2. split; [cbn [for_each]; by rewrite (bind_Ok _ _ _ _ _ R1)|].
  apply (noted_app n w vt D [p] ps s I s1 I1 s2 I2); [by constructor|done|done].
Qed.

(** The heap and the lists of intervals do not matter. *)
Lemma noted_from n w vt D ps s0 s I s' I' : n_pages s = n_pages s0 -> other_fields s = other_fields s0 ->
  noted n w vt D ps s I s' I' -> noted n w vt D ps s0 I s' I'.
Proof. intros Hp Ho [L F V K A P]. split; [done|congruence|done|done|by rewrite <- Hp|by rewrite <- Hp]. Qed.

Abbreviation split_pages := (fun rgs : list (Z * Z) => rgs ≫= fun rg => pages_from rg.1 rg.2).

Lemma accept_ranges_run n v w vt D rgs : NoDup (split_pages rgs) -> forall head s I, lists n (n_pages s) (I, D) ->
  (forall p, p ∈ split_pages rgs -> clean_here n s I D p) ->
  exists s' I', accept_ranges v w vt head rgs s = Ok (tt, s') /\ noted n w vt D (split_pages rgs) s I s' I'.
Proof.
  induction rgs as [|rg rgs IH]; intros Hnd head s I Hl Hc; [exists s, I; split; [done|by apply noted_nil]|].
  cbn [mbind list_bind] in *. pose proof Hnd as Hnd0. apply NoDup_app in Hnd0 as (Hnd1 & Hd & Hnd2).
  assert (R0 : exists s0, (when (negb head) (heap_alloc sizeof_range;; skip);; last_range w rg) s = Ok (tt, s0) /\
    n_pages s0 = n_pages s /\ other_fields s0 = other_fields s) by (destruct head; eexists; split; [reflexivity|done|reflexivity|done]).
  destruct R0 as (s0 & R0 & P0 & O0).
  destruct (note_all n v w vt D (pages_from rg.1 rg.2) Hnd1 s0 I) as (s1 & I1 & R1 & N1); [by rewrite P0| |].
  { intros p Hp. destruct (Hc p ltac:(apply elem_of_app; by left)) as (H1 & H2 & H3 & H4).
    split_and!; [lia..|done|done|by rewrite P0]. }
  apply (noted_from _ _ _ _ _ s _ _ _ _ P0 O0) in N1.
  destruct (IH Hnd2 false s1 I1 (no_lists _ _ _ _ _ _ _ _ _ N1)) as (s2 & I2 & R2 & N2).
  { intros p Hp. eapply clean_after; [exact N1|apply Hc, elem_of_app; by right|]. intros Hx. by apply (Hd p). }
  exists s2, I2. split; [|by eapply noted_app].
  cbn [accept_ranges]. unfold accept_range. apply bind_inv in R0 as ([] & sx & Ra & Rb).
  assert (R : (when (negb head) (heap_alloc sizeof_range;; skip);; last_range w rg;; for_each (note_page v w vt) (pages_from rg.1 rg.2)) s = Ok (tt, s1))
    by (by rewrite (bind_Ok _ _ _ _ _ Ra), (bind_Ok _ _ _ _ _ Rb)).
  by rewrite (bind_Ok _ _ _ _ _ R).
Qed.

Lemma split_pages_ranges rgs : Forall range_ok rgs -> split_pages (rgs ≫= split_range) = pages_of_ranges rgs.
Proof.
  unfold pages_of_ranges. induction 1 as [|[f l] rgs [H1 H2] _ IH]; [done|]. cbn [mbind list_bind] in *.
  rewrite bind_app, IH. f_equal. cbn [fst snd] in *. unfold split_range.
  assert (Hf : forall u v, u <= v -> pages_from u v = seqZ u (v - u + 1)).
  { intros u v Huv. unfold pages_from. rewrite (seqZ_cons u (v - u + 1)) by lia. do 2 f_equal; lia. }
  destruct (Z.eqb_spec (l - f) 1) as [E|E]; cbn [mbind list_bind fst snd]; rewrite app_nil_r, ?Hf by lia.
  - assert (l = f + 1) as -> by lia. replace (f + 1 - f + 1) with (1 + 1) by lia. replace (f - f + 1) with 1 by lia.
    replace (f + 1 - (f + 1) + 1) with 1 by lia. by rewrite seqZ_app by lia.
  - done.
Qed.

(** An interval that is new. *)
Lemma accept_interval_run n v w iv D s I : lists n (n_pages s) (I, D) -> interval_ok iv ->
  NoDup (pages_of_ranges (iv_ranges iv)) -> (forall p, p ∈ pages_of_ranges (iv_ranges iv) -> clean_here n s I D p) ->
  vt_get (n_vt s) w < vt_get (iv_vt iv) w ->
  exists s' I' x y, accept_interval v w iv s = Ok (tt, s') /\
    noted n w (iv_vt iv) D (pages_of_ranges (iv_ranges iv)) (set_n_it x (set_n_vt y s)) I s' I'.
Proof.
  intros Hl [_ _ _ Hok] Hnd Hc Hnew. rewrite <- split_pages_ranges in * by done.
  set (y := vt_set w (vt_get (iv_vt iv) w) (n_vt s)). set (s1 := set_n_vt y s).
  set (s2 := set_n_heap (heap_advance INTERVAL_HEAP sizeof_interval (n_heap s1)) s1).
  set (s3 := set_n_procs (<[w := intervals_of s2 w ++ [Interval w (iv_vt iv) []]]> (n_procs s2)) s2).
  destruct (accept_ranges_run n v w (iv_vt iv) D _ Hnd true s3 I Hl Hc) as (s4 & I' & R & N).
  apply (noted_from _ _ _ _ _ s1 s3 _ _ _ eq_refl eq_refl) in N.
  assert (Hrun : exists x s5, accept_interval v w iv s = Ok (tt, s5) /\ s5 = set_n_it x s4).
  { unfold accept_interval. rewrite (bind_Ok (gets _) _ s (vt_get (n_vt s) w) s eq_refl), (proj2 (Z.ltb_lt _ _) Hnew). cbn [when].
    rewrite (bind_Ok (modify (fun s => set_n_vt (vt_set w (vt_get (iv_vt iv) w) (n_vt s)) s)) _ s tt s1 eq_refl).
    rewrite (bind_Ok (heap_alloc sizeof_interval) _ s1 (heap_ptr (n_heap s1)) s2 eq_refl).
    rewrite (bind_Ok (enqueue_interval _ _) _ s2 tt s3 eq_refl), (bind_Ok _ _ _ _ _ R).
    rewrite (bind_Ok me _ s4 (proc_id (n_conf s4)) s4 eq_refl), (bind_Ok (gets _) _ s4 _ s4 eq_refl).
    destruct (_ <? _); cbn [when]; eexists _, _; (split; [reflexivity|]); [reflexivity|]. instantiate (1 := n_it s4). by destruct s4. }
  destruct Hrun as (x & s5 & R5 & E5). exists s5, I', x, y. split; [exact R5|]. subst s5.
  destruct N as [L F V K A P]. split; [done| |done|done|done|done].
  change (other_fields (set_n_it x s4)) with (set_n_it x (other_fields s4)). by rewrite F.
Qed.

(** ** Acquiring *)

(** After a message with one interval of process [w]: its pages cannot be
    accessed, and each has a notice without a diff. *)
Record invalidated (n w : Z) (iv : interval) (D : gset Z) (s s' : node) : Prop := {
  iv_lists : lists n (n_pages s') (∅, D);
  iv_fields : exists x y, other_fields s' = other_fields (set_n_it x (set_n_vt y s));
  iv_pages : forall p, p ∈ pages_of_ranges (iv_ranges iv) -> p_state (n_pages s !!! p) = valid ->
    p_mem (n_pages s' !!! p) = p_mem (n_pages s !!! p) /\ p_state (n_pages s' !!! p) = invalid /\
    p_prot (n_pages s' !!! p) = PROT_NONE /\ p_wn (n_pages s' !!! p) = p_wn (push_wn w (iv_vt iv) (n_pages s !!! p));
  iv_rest : forall p, p ∉ pages_of_ranges (iv_ranges iv) ->
    same_contents (n_pages s' !!! p) (n_pages s !!! p) /\ p_prot (n_pages s' !!! p) = p_prot (n_pages s !!! p)
}.

Lemma incorporate_one n w iv D s : lists n (n_pages s) (∅, D) -> 0 <= w < NPROCS -> interval_ok iv ->
  NoDup (pages_of_ranges (iv_ranges iv)) -> (forall p, p ∈ pages_of_ranges (iv_ranges iv) -> clean_here n s ∅ D p) ->
  vt_get (n_vt s) w < vt_get (iv_vt iv) w ->
  exists s', Tmk_interval_incorporate (put_interval w iv) VtLocal s = Ok (tt, s') /\ invalidated n w iv D s s'.
Proof.
  intros Hl Hw Hok Hnd Hc Hnew.
  destruct (accept_interval_run n VtLocal w iv D s ∅ Hl Hok Hnd Hc Hnew) as (s1 & I & x & y & R1 & [L F V _ A P]).
  destruct (lists_perform _ _ _ L) as (m & R2 & L2 & C2 & P2). cbn [fst snd] in *.
  exists (set_n_pages m s1). split.
  - assert (E : put_interval w iv = encode [(w, iv)]) by (unfold encode; cbn [mbind list_bind]; by rewrite app_nil_r).
    unfold Tmk_interval_incorporate. rewrite E.
    assert (R : incorporate_loop (length (encode [(w, iv)])) VtLocal (encode [(w, iv)]) s = Ok (tt, s1)).
    { rewrite (run_eq _ _ (incorporate_encode VtLocal [(w, iv)] _ ltac:(by apply Forall_singleton) (le_n _))).
      cbn [for_each]. by rewrite (bind_Ok _ _ _ _ _ R1). }
    rewrite (bind_Ok _ _ _ _ _ R). unfold on_pages. by rewrite R2.
  - split.
    + exact L2.
    + exists x, y. exact F.
    + intros p Hp Hv. destruct (P p) as (M & _ & _ & _ & S & W). destruct (C2 p) as (M' & _ & S' & _ & W').
      rewrite bool_decide_true in S, W by done. cbn in Hv, S. rewrite bool_decide_true in S by done.
      change (n_pages (set_n_pages m s1)) with m. rewrite M', S', W', M, S, W, P2, decide_True by (by apply A). done.
    + intros p Hp. destruct (P p) as (M & T & R & G & S & W). destruct (C2 p) as (M' & T' & S' & G' & W').
      rewrite bool_decide_false in S, W by done. change (n_pages (set_n_pages m s1)) with m. unfold same_contents.
      rewrite M', T', S', G', W', M, T, S, G, W, P2, R, decide_False; [done|].
      intros Hi. by destruct (V p Hi) as [Hx%elem_of_empty|Hx].
Qed.

(** [Tmk_lock_acquire] when the token is elsewhere, up to the reply. *)
Lemma acquire_waits `{Signals} id s : lock_id_ok id -> lk_held (the_lock id s) = false ->
  lk_next (the_lock id s) <> self_of s ->
  let seqno := u32 (n_req_seqno s + SEQNO_INCR) in
  exists locks to st resend, Tmk_lock_acquire id s =
    (await (n_events s) false true seqno resend discard ≫= take_grant)
      (set_n_local_vt (n_vt s) (set_n_out (n_out s ++ [SendReq to (acquire_request (self_of s) id seqno (n_vt s))])
        (set_n_req_seqno seqno (set_n_locks locks (set_n_stat st s))))).
Proof.
  intros Hid Hh Hn seqno. unfold Tmk_lock_acquire. destruct (id_test id Hid) as [_ ->].
  rewrite (bind_Ok (bump _ _ _) _ s tt _ eq_refl), (bind_Ok _ _ _ _ _ (lock_at_run _ _ Hid)).
  set (s0 := set_n_stat _ s). change (the_lock id s0) with (the_lock id s). rewrite Hh.
  rewrite (bind_Ok me _ s0 (self_of s) s0 eq_refl), (bind_Ok _ _ _ _ _ (set_lock_run _ _ s0 Hid)).
  rewrite (proj2 (Z.eqb_neq _ _) Hn). rewrite (bind_Ok _ _ _ _ _ (set_lock_run _ _ _ Hid)). set (s1 := set_n_locks _ _).
  assert (R : exists locks, when (lk_manager (the_lock id s) =? self_of s) (set_lock id (set_lk_tail (self_of s))) s1 =
    Ok (tt, set_n_locks locks s0)).
  { destruct (_ =? _); cbn [when]; [rewrite set_lock_run by done|]; eexists; reflexivity. }
  destruct R as [locks R]. rewrite (bind_Ok _ _ _ _ _ R). do 4 eexists.
  rewrite (bind_Ok next_seqno _ (set_n_locks locks s0) seqno _ eq_refl). etransitivity; [apply send_await_run; reflexivity|]. reflexivity.
Qed.

(** The token arrives with one interval. *)
Lemma acquire_run `{Signals} n id w iv D s evs : lock_id_ok id -> lk_held (the_lock id s) = false ->
  lk_next (the_lock id s) <> self_of s ->
  lists n (n_pages s) (∅, D) -> 0 <= w < NPROCS -> interval_ok iv -> NoDup (pages_of_ranges (iv_ranges iv)) ->
  (forall p, p ∈ pages_of_ranges (iv_ranges iv) -> clean_here n s ∅ D p) -> vt_get (n_vt s) w < vt_get (iv_vt iv) w ->
  let seqno := u32 (n_req_seqno s + SEQNO_INCR) in
  n_events s = EvRep (Reply seqno (put_interval w iv)) [] :: evs ->
  exists s1 s', Tmk_lock_acquire id s = Ok (tt, s') /\ invalidated n w iv D s1 s' /\ n_pages s1 = n_pages s /\
    n_conf s' = n_conf s /\ n_events s' = evs /\ n_req_seqno s' = seqno.
Proof.
  intros Hid Hh Hn Hl Hw Hok Hnd Hc Hnew seqno He.
  destruct (acquire_waits id s Hid Hh Hn) as (locks & to & st & resend & ->). fold seqno.
  set (s0 := set_n_local_vt _ _). rewrite He.
  assert (R : await (EvRep (Reply seqno (put_interval w iv)) [] :: evs) false true seqno resend discard s0 =
    Ok (Reply seqno (put_interval w iv), set_n_events evs s0)).
  { by apply await_next. }
  rewrite (bind_Ok _ _ _ _ _ R). unfold take_grant. erewrite bind_Ok by reflexivity. erewrite bind_Ok by reflexivity.
  match goal with |- context [Tmk_interval_incorporate _ _ ?x] => set (s1 := x) end. cbn [rp_data].
  destruct (incorporate_one n w iv D s1) as (s' & R' & N); try done.
  exists s1, s'. split; [exact R'|]. split; [exact N|]. destruct (iv_fields _ _ _ _ _ _ N) as (x & y & F).
  split_and!; [done|exact (f_equal n_conf F)|exact (f_equal n_events F)|exact (f_equal n_req_seqno F)].
Qed.

(** ** Releasing *)
Lemma bind_single {A} (f : Z -> list A) w l : NoDup l -> w ∈ l -> (forall i, i ∈ l -> i <> w -> f i = []) -> l ≫= f = f w.
Proof.
  intros Hnd Hw Hf. apply list_elem_of_split in Hw as (l1 & l2 & ->).
  assert (Hnil : forall k, (forall i, i ∈ k -> f i = []) -> k ≫= f = []).
  { induction k as [|i k IH]; intros H; [done|]. cbn. rewrite H by (by left). apply IH. intros j Hj. apply H. by right. }
  apply NoDup_app in Hnd as (_ & Hd & Hnd). apply NoDup_cons in Hnd as [Hw2 _].
  rewrite bind_app. cbn [mbind list_bind]. rewrite (Hnil l1), (Hnil l2), app_nil_r; [done| |].
  - intros i Hi. apply Hf; [apply elem_of_app; right; by right|]. by intros ->.
  - intros i Hi. apply Hf; [apply elem_of_app; by left|]. intros ->. apply (Hd w Hi). by left.
Qed.

(** One interval more is one interval to send. *)
Lemma request_one s s1 vt w iv : 0 <= w < nprocs (n_conf s) -> n_conf s1 = n_conf s ->
  intervals_of s1 w = intervals_of s w ++ [iv] -> (forall i, i <> w -> intervals_of s1 i = intervals_of s i) ->
  Tmk_interval_request s vt = [] -> vt_get vt w < vt_get (iv_vt iv) w -> Tmk_interval_request s1 vt = put_interval w iv.
Proof.
  intros Hw Hc Hi Ho Hnil Hlt. unfold Tmk_interval_request in *. rewrite Hc.
  assert (Hin : w ∈ procs_of (n_conf s)) by (apply elem_of_seqZ; lia).
  assert (Hn : forall i, i ∈ procs_of (n_conf s) -> newer i (vt_get vt i) (reverse (intervals_of s i)) = []).
  { intros i Hp. apply list_elem_of_split in Hp as (l1 & l2 & E). rewrite E, bind_app in Hnil.
    apply app_nil in Hnil as [_ Hnil]. cbn [mbind list_bind] in Hnil. apply app_nil in Hnil as [Hnil _].
    unfold Tmk_interval_request_proc in Hnil. destruct (newer _ _ _) as [|x l]; [done|]. discriminate Hnil. }
  rewrite (bind_single _ w); [|apply NoDup_seqZ|done|].
  - unfold Tmk_interval_request_proc. rewrite Hi, reverse_app. change (reverse [iv]) with [iv]. cbn [app newer].
    rewrite (proj2 (Z.ltb_lt _ _) Hlt), Hn by done. cbn [app mbind list_bind]. by rewrite app_nil_r.
  - intros i Hp Hne. unfold Tmk_interval_request_proc. by rewrite (Ho i Hne), Hn.
Qed.

Lemma tick_ok w v : length v = Z.to_nat NPROCS -> Forall is_u16 v -> 0 <= w < NPROCS -> vt_get v w < 65535 ->
  length (tick w v) = Z.to_nat NPROCS /\ Forall is_u16 (tick w v) /\ vt_get (tick w v) w = vt_get v w + 1.
Proof.
  intros Hl Hu Hw Ht. unfold tick. split_and!.
  - by rewrite vt_set_length.
  - apply Forall_insert; [done|apply u16_range].
  - rewrite vt_set_same by lia. apply u16_small. unfold is_u16.
    assert (0 <= vt_get v w); [|lia]. unfold vt_get. rewrite nth_lookup. destruct (v !! _) as [x|] eqn:E; [|cbn; lia].
    cbn. pose proof (Forall_lookup_1 _ _ _ _ Hu E) as Hx. unfold is_u16 in Hx. lia.
Qed.

(** Process [writer] holds lock [id] and has written page [p], among others;
    [reader] waits for the lock, knows all earlier intervals, and has a copy
    of the page that it has not written. *)
Record handover (id : Z) (I D DR : gset Z) (p : page_t) (t : list Z) (seqno : Z) (writer reader : node) : Prop := {
  ho_id : lock_id_ok id;
  ho_held : lk_held (the_lock id writer) = true /\ lk_next (the_lock id writer) = self_of reader;
  ho_asked : lk_held (the_lock id reader) = false /\ lk_next (the_lock id reader) <> self_of reader;
  ho_seqno : default 0 (n_rep_seqno writer !! self_of reader) = seqno /\ seqno = u32 (n_req_seqno reader + SEQNO_INCR);
  ho_vt : default vt_zero (n_lock_vt writer !! self_of reader) = n_vt reader;
  ho_known : Tmk_interval_request writer (n_vt reader) = [];
  ho_time : vt_get (n_vt reader) (self_of writer) <= vt_get (n_vt writer) (self_of writer) < 65535;
  ho_times : length (n_vt writer) = Z.to_nat NPROCS /\ Forall is_u16 (n_vt writer);
  ho_procs : 0 <= self_of writer < nprocs (n_conf writer) /\ nprocs (n_conf writer) <= NPROCS /\
    nprocs (n_conf reader) = nprocs (n_conf writer) /\ self_of reader <> self_of writer;
  ho_lists : lists (npages (n_conf reader)) (n_pages writer) (I, D) /\ lists (npages (n_conf reader)) (n_pages reader) (∅, DR);
  ho_clean : forall q, q ∈ D -> q ∉ DR /\ p_twin (n_pages reader !!! q) = None;
  ho_written : p ∈ D /\ p_twin (n_pages writer !!! p) = Some t /\ p_prot (n_pages writer !!! p) = PROT_READ_WRITE;
  ho_copy : p_state (n_pages reader !!! p) = valid /\ forall i, settled (wn_list (n_pages reader !!! p) i);
  ho_size : length (p_mem (n_pages writer !!! p)) = length t /\ length (p_mem (n_pages reader !!! p)) = length t /\
    Forall is_word (p_mem (n_pages writer !!! p)) /\ 4 * Z.of_nat (length t) + 12 <= MTU
}.

(** What the release leaves at the writer. *)
Lemma release_side id I D DR p t seqno writer reader : handover id I D DR p t seqno writer reader ->
  let w := self_of writer in let time := vt_get (n_vt writer) w + 1 in
  exists writer1 iv, Tmk_lock_release id writer = Ok (tt, writer1) /\
    n_out writer1 = n_out writer ++ [SendRep (self_of reader) (Reply seqno (put_interval w iv))] /\
    interval_ok iv /\ vt_get (iv_vt iv) w = time /\ NoDup (pages_of_ranges (iv_ranges iv)) /\
    (forall q, q ∈ pages_of_ranges (iv_ranges iv) <-> q ∈ D) /\ to_serve writer1 p w time t /\
    p_mem (n_pages writer1 !!! p) = p_mem (n_pages writer !!! p).
Proof.
  intros [Hid [Hh Hn] _ [Hq _] Hvt Hk [Ht1 Ht2] [Hlen Hu] (Hw & Hnp & _ & Hrw) [Hl _] _ (Hp & Htw & Hpr) _ _] w time.
  set (n := npages (n_conf reader)) in *.
  destruct (tick_ok w (n_vt writer) Hlen Hu ltac:(subst w; lia) Ht2) as (Tl & Tu & Tt).
  pose proof (lock_release_run n (I, D) id writer Hid Hl Hh) as H. unfold lk_release in H.
  rewrite Hn, (proj2 (Z.eqb_neq _ _) Hrw) in H. cbn [negb] in H. destruct H as (writer1 & R & s1 & E & G).
  destruct E as [C _ O _ _ _ _ _]. destruct G as (_ & O' & _ & _ & _ & P' & _). set (s0 := set_n_locks _ writer) in *.
  assert (HD : D <> ∅) by (intros ->; by apply elem_of_empty in Hp).
  destruct (cs_interval _ _ _ _ _ C HD) as (rgs & Hiv & Hne & Hrg & Hnd & Hcov).
  set (iv := Interval (proc_id (n_conf s0)) (tick (proc_id (n_conf s0)) (vt_at VtProc s0)) rgs) in *.
  change (proc_id (n_conf s0)) with w in *. change (vt_at VtProc s0) with (n_vt writer) in *.
  assert (Hok : interval_ok iv) by (by split).
  assert (Hpos : forall q, q ∈ pages_of_ranges rgs <-> q ∈ D).
  { intros q. unfold pages_of_ranges. rewrite list_elem_of_bind, (Hcov q). split.
    - intros (rg & Hin & Hrgs). exists rg. apply elem_of_seqZ in Hin. split; [done|lia].
    - intros (rg & Hrgs & Hin). exists rg. split; [apply elem_of_seqZ; lia|done]. }
  exists writer1, iv. split_and!; [exact R| |exact Hok|exact Tt|exact Hnd|exact Hpos| |].
  - rewrite O', O, Hq, Hvt. do 4 f_equal. apply (request_one writer); try done.
    + exact (cs_conf _ _ _ _ _ C).
    + exact (cs_others _ _ _ _ _ C).
    + change (vt_get (n_vt reader) w < vt_get (tick w (n_vt writer)) w). subst w. lia.
  - destruct (cs_contents _ _ _ _ _ C p) as (_ & T & _ & _ & Pr & W). rewrite decide_True in W by done. split.
    + pose proof (ls_rep _ _ _ Hl Dirty) as [L HL]. pose proof (rep_bound _ _ _ _ _ HL p Hp).
      pose proof (ls_bound _ _ _ Hl). unfold valid_ptr. lia.
    + rewrite P', Pr. exact Hpr.
    + rewrite P', T. exact Htw.
    + rewrite P'. eexists _, _. unfold wn_list. rewrite W. cbn. rewrite lookup_insert_eq. split_and!; [reflexivity|done|exact Tt].
  - rewrite P'. apply (cs_contents _ _ _ _ _ C p).
Qed.

(** What the acquire leaves at the reader: the page must be fetched. *)
Lemma page_missing n w iv DR s s1 s' p t : invalidated n w iv DR s1 s' -> n_pages s1 = n_pages s -> n_conf s' = n_conf s ->
  n = npages (n_conf s) -> 0 <= p < n -> n <= NPAGES -> 0 <= w < nprocs (n_conf s) -> nprocs (n_conf s) <= NPROCS ->
  p ∈ pages_of_ranges (iv_ranges iv) -> p_state (n_pages s !!! p) = valid ->
  (forall i, settled (wn_list (n_pages s !!! p) i)) -> vt_get (iv_vt iv) w = t -> to_fetch s' p w t.
Proof.
  intros [_ _ P _] E C -> Hp Hn Hw Hnp Hin Hst Hset Ht. rewrite E in P. destruct (P p Hin Hst) as (_ & S & _ & W).
  split; rewrite ?C; [done|done|exact S| |].
  - eexists _, _. unfold wn_list at 1. rewrite W. cbn. rewrite lookup_insert_eq. by split_and!.
  - intros i Hi. unfold wn_list. rewrite W. cbn. rewrite lookup_insert_ne by done. apply Hset.
Qed.

(** The diff of a page of the writer, applied at a page of the reader. *)
Lemma fetched_words own mem t : length mem = length t -> length own = length t -> Forall is_word mem ->
  4 * Z.of_nat (length t) + 12 <= MTU ->
  diff_apply own (diff_create mem t) = Some (merge_words own (zip t mem), []).
Proof.
  intros Hl Ho Hw Hf. rewrite <- (app_nil_r (diff_create mem t)). apply diff_apply_create; try done.
  unfold page_fits. unfold MTU in Hf. lia.
Qed.

(** C1: what a process has written before it releases a lock is what the next
    holder reads.  The writer holds the lock and has modified the pages [D],
    page [p] among them; the reader waits for the lock.  [Tmk_lock_release]
    ends the writer's interval and sends it with the token; with that
    message [Tmk_lock_acquire] returns at the reader, every page of [D] that
    it had is inaccessible and no other page is touched.  The next read of [p]
    faults, asks the writer for the diff of that interval, and returns with
    the page valid: each word is the writer's where the writer had changed
    it and the reader's own elsewhere, so the whole page is the writer's if
    the reader had the copy the writer started from. *)
Theorem release_acquire_visible `{Signals} id I D DR p t seqno writer reader :
  handover id I D DR p t seqno writer reader ->
  let w := self_of writer in
  let r := self_of reader in
  let time := vt_get (n_vt writer) w + 1 in
  let seqno2 := u32 (seqno + SEQNO_INCR) in
  let own := p_mem (n_pages reader !!! p) in
  let mem := p_mem (n_pages writer !!! p) in
  exists writer1 grant writer2 d,
    Tmk_lock_release id writer = Ok (tt, writer1) /\
    n_out writer1 = n_out writer ++ [SendRep r (Reply seqno grant)] /\
    answers (diff_req seqno2 r p [w; time]) r writer1 seqno2 d writer2 /\
    forall offset evs, faults_at reader offset p ->
      n_events reader = EvRep (Reply seqno grant) [] :: EvRep (Reply seqno2 d) [] :: evs ->
      exists reader1 reader2,
        Tmk_lock_acquire id reader = Ok (tt, reader1) /\
        (forall q, q ∈ D -> p_state (n_pages reader !!! q) = valid -> p_prot (n_pages reader1 !!! q) = PROT_NONE) /\
        (forall q, q ∉ D -> same_contents (n_pages reader1 !!! q) (n_pages reader !!! q) /\
           p_prot (n_pages reader1 !!! q) = p_prot (n_pages reader !!! q)) /\
        segv_handler offset false reader1 = Ok (true, reader2) /\
        n_out reader2 = n_out reader1 ++ [SendReq w (diff_req seqno2 r p [w; time])] /\
        p_state (n_pages reader2 !!! p) = valid /\ p_prot (n_pages reader2 !!! p) = PROT_READ /\
        (forall i b v x, own !! i = Some b -> mem !! i = Some v -> t !! i = Some x ->
           p_mem (n_pages reader2 !!! p) !! i = Some (if x =? v then b else v)) /\
        (own = t -> p_mem (n_pages reader2 !!! p) = mem).
Proof.
  intros Hh w r time seqno2 own mem. pose proof Hh as [Hid _ [Hheld Hnext] [_ Hs] _ _ Ht _ (Hw & Hnp & Hnr & Hrw) [Hl Hlr]
    Hclean (HpD & _ & _) [Hst Hset] (Hlm & Hlo & Hwd & Hfit)].
  destruct (release_side id I D DR p t seqno writer reader Hh) as (writer1 & iv & R1 & O1 & Hiv & Hvt & Hnd & Hpos & Hserve & Hmem).
  destruct (serve_run p w time r seqno2 writer1 t Hserve) as (writer2 & R2 & O2 & _); [by rewrite Hmem|by rewrite Hmem, Hlm|].
  fold w in Hvt, Hmem, O1. rewrite Hmem in O2. fold mem in O2, Hlm, Hwd.
  exists writer1, (put_interval w iv), writer2, (diff_create mem t). split_and!; [exact R1|exact O1|exact (conj R2 O2)|].
  intros offset evs Hf He. set (n := npages (n_conf reader)) in *.
  assert (Hb : forall q, q ∈ D -> 0 <= q < n) by (destruct (ls_rep _ _ _ Hl Dirty) as [L HL]; exact (rep_bound _ _ _ _ _ HL)).
  destruct (acquire_run n id w iv DR reader (EvRep (Reply seqno2 (diff_create mem t)) [] :: evs)) as
    (s1 & reader1 & R3 & N & P1 & C1 & E1 & S1); [done|done|done|done|lia|done|done| | |by rewrite <- Hs|].
  { intros q Hq. apply Hpos in Hq. destruct (Hclean q Hq). split_and!; [apply (Hb q Hq)..|by apply not_elem_of_empty|done|done]. }
  { rewrite Hvt. subst w time. lia. }
  rewrite <- Hs in S1.
  assert (Hfetch : to_fetch reader1 p w time).
  { eapply (page_missing n w iv DR reader s1); try done; [by apply Hb|apply Hlr|subst w; lia|lia|by apply Hpos]. }
  assert (Hm : p_mem (n_pages reader1 !!! p) = own).
  { destruct (iv_pages _ _ _ _ _ _ N p) as (-> & _); [by apply Hpos|by rewrite P1|by rewrite P1]. }
  destruct (fault_run reader1 offset p w time (diff_create mem t) evs (merge_words own (zip t mem)) Hfetch) as
    (reader2 & a & R4 & P4 & _ & O4).
  { unfold faults_at. rewrite C1. exact Hf. }
  { by rewrite S1, E1. }
  { rewrite Hm. by apply fetched_words. }
  rewrite S1, C1 in O4. exists reader1, reader2. rewrite P4.
  split_and!; [exact R3| | |exact R4|exact O4|reflexivity|reflexivity| |].
  - intros q Hq Hv. apply (iv_pages _ _ _ _ _ _ N q); [by apply Hpos|by rewrite P1].
  - intros q Hq. rewrite <- P1. apply (iv_rest _ _ _ _ _ _ N q). by rewrite Hpos.
  - intros i b v x. apply merge_words_lookup.
  - intros E. change (merge_words own (zip t mem) = mem). rewrite E. by apply merge_words_twin.
Qed.

(** Process 0 holds lock 3 and has changed one word of page 5; process 1 waits. *)
Definition holder_ex : node :=
  set_n_rep_seqno {[1 := 32]} (set_n_locks {[3 := Lock 0 1 true 1 0 0 ∅]} modified_ex).

Definition waiter_ex (evs : list event) : node :=
  set_n_events evs (set_n_pages (upd 5 (fun p => set_mem [1; 2; 3; 4] (set_state valid p)) empty_lists)
    (zero_node (Conf 1 4 16 8 0))).

Lemma dirty_56 q : q ∈ (∅ ∪ {[6]} ∪ {[5]} : gset Z) <-> q = 6 \/ q = 5.
Proof. set_solver. Qed.

Lemma waiter_ex_lists evs : lists 8 (n_pages (waiter_ex evs)) (∅, ∅).
Proof.
  apply (lists_frame 8 empty_lists); [exact empty_lists_ok|]. intros i.
  change (n_pages (waiter_ex evs)) with (upd 5 (fun p => set_mem [1; 2; 3; 4] (set_state valid p)) empty_lists).
  rewrite upd_lookup. case_decide; [subst|]; done.
Qed.

Lemma holder_ex_ok evs : handover 3 ∅ (∅ ∪ {[6]} ∪ {[5]}) ∅ 5 [1; 2; 3; 4] 32 holder_ex (waiter_ex evs).
Proof.
  assert (E5 : n_pages (waiter_ex evs) !!! 5 = set_mem [1; 2; 3; 4] (set_state valid zero_page)) by (vm_compute; reflexivity).
  assert (Em : p_mem (n_pages holder_ex !!! 5) = [1; 9; 3; 4]) by (vm_compute; reflexivity).
  split.
  - split; vm_compute; [discriminate|reflexivity].
  - split; vm_compute; reflexivity.
  - split; vm_compute; [reflexivity|discriminate].
  - split; vm_compute; reflexivity.
  - vm_compute. reflexivity.
  - vm_compute. reflexivity.
  - split; vm_compute; [discriminate|reflexivity].
  - split; [vm_compute; reflexivity|]. change (n_vt holder_ex) with vt_zero.
    unfold vt_zero. apply Forall_replicate. unfold is_u16. lia.
  - split_and!; vm_compute; [discriminate|reflexivity|discriminate|reflexivity|discriminate].
  - split; [exact modified_ex_lists|exact (waiter_ex_lists evs)].
  - intros q Hq. split; [by apply not_elem_of_empty|]. apply dirty_56 in Hq as [->| ->]; vm_compute; reflexivity.
  - split; [by apply dirty_56; right|]. split; vm_compute; reflexivity.
  - rewrite E5. split; [reflexivity|]. intros i. unfold wn_list. cbn. by rewrite lookup_empty.
  - rewrite E5, Em. split_and!; [reflexivity|reflexivity| |vm_compute; discriminate].
    unfold is_word, is_u32. repeat constructor; lia.
Qed.

Lemma release_acquire_visible_witness :
  let evs := [EvRep (Reply 32 ([65535; 1] ++ repeat 0 31 ++ [5; 6])) []; EvRep (Reply 64 [4; 4; 9; 0; 0; 0]) []] in
  exists writer1 grant writer2 d,
    Tmk_lock_release 3 holder_ex = Ok (tt, writer1) /\
    n_out writer1 = [SendRep 1 (Reply 32 grant)] /\
    answers (diff_req 64 1 5 [0; 1]) 1 writer1 64 d writer2 /\
    (evs = [EvRep (Reply 32 grant) []; EvRep (Reply 64 d) []] ->
     exists reader1 reader2, Tmk_lock_acquire (signals := no_signals) 3 (waiter_ex evs) = Ok (tt, reader1) /\
       segv_handler (signals := no_signals) 84 false reader1 = Ok (true, reader2) /\
       p_mem (n_pages reader2 !!! 5) = [1; 9; 3; 4]).
Proof.
  intros evs.
  destruct (@release_acquire_visible no_signals 3 ∅ (∅ ∪ {[6]} ∪ {[5]}) ∅ 5 [1; 2; 3; 4] 32 holder_ex (waiter_ex evs)
    (holder_ex_ok evs)) as (writer1 & grant & writer2 & d & R1 & O1 & A & Hr).
  exists writer1, grant, writer2, d. split_and!; [exact R1|exact O1|exact A|]. intros He.
  destruct (Hr 84 [] eq_refl He) as (reader1 & reader2 & R3 & _ & _ & R4 & _ & _ & _ & _ & M).
  exists reader1, reader2. split_and!; [exact R3|exact R4|]. exact (M eq_refl).
Defined.
