(* ===== verification/PageFetch.v ===== *)
(** * The first access to a page

    The path of a page to a process that has never had it: the request of the
    fault handler, the copy that the manager's handler sends, and what both
    sides may do with the page afterwards. *)
From S2P Require Import Prelude DiffCodec Pages PageLists PageWalk PageSets State Rpc Twins Diffs Interval IntervalWire IntervalCreate Untwin Faults Coherence.
Local Open Scope Z_scope.

(** ** The manager's side *)

(** A process that has the page: its only copy, a valid copy, or an old copy
    that it may not read. *)
Record has_page (s : node) (p : page_t) : Prop := {
  hp_ptr : valid_ptr p = true;
  hp_state : p_state (n_pages s !!! p) <> empty;
  hp_private : p_state (n_pages s !!! p) = private -> p_twin (n_pages s !!! p) = None;
  hp_readable : p_state (n_pages s !!! p) <> invalid -> p_prot (n_pages s !!! p) <> PROT_NONE
}.

(** What it sends: not what it has written since the twin was made. *)
Definition copy_sent (pg : page) : list Z := default (p_mem pg) (p_twin pg).

(** The page afterwards. *)
Definition shared (pg : page) : page :=
  match p_state pg with
  | private => set_prot PROT_READ (set_state valid pg)
  | invalid => set_prot PROT_NONE pg
  | _ => pg
  end.

Definition page_req (seqno from : Z) (p : page_t) : request := Request seqno from REQ_PAGE p [] [].

(** Only page [p] and the messages change. *)
Definition only_page (p : page_t) (pg : page) (out : list sent) (s s' : node) : Prop :=
  n_pages s' !!! p = pg /\ n_out s' = n_out s ++ out /\ n_conf s' = n_conf s /\
  forall q, q <> p -> n_pages s' !!! q = n_pages s !!! q.

Lemma send_page_run from seqno p s : valid_ptr p = true ->
  (p_twin (n_pages s !!! p) = None -> p_prot (n_pages s !!! p) <> PROT_NONE) ->
  send_page from seqno p s = Ok (tt, set_n_out (n_out s ++ [SendRep from (Reply seqno (copy_sent (n_pages s !!! p)))]) s).
Proof.
  intros Hp Hr. unfold send_page, copy_sent. rewrite (bind_Ok _ _ _ _ _ (pg_ok p_twin p s Hp)).
  destruct (p_twin _) as [t|]; [done|]. specialize (Hr eq_refl).
  rewrite (bind_Ok _ _ _ _ _ (pg_ok p_prot p s Hp)), (bind_Ok _ _ _ _ _ (pg_ok p_mem p s Hp)). by destruct (p_prot _).
Qed.

Lemma page_serve s p seqno from : has_page s p -> exists s',
  Tmk_page_sigio_handler (page_req seqno from p) s = Ok (tt, s') /\
  only_page p (shared (n_pages s !!! p)) [SendRep from (Reply seqno (copy_sent (n_pages s !!! p)))] s s'.
Proof.
  intros [Hp Hst Hpr Hrd]. unfold Tmk_page_sigio_handler. cbn [rq_id rq_from rq_seqno page_req].
  rewrite (bind_Ok _ _ _ _ _ (pg_ok p_twin p s Hp)), (bind_Ok _ _ _ _ _ (pg_ok p_state p s Hp)).
  set (pg := n_pages s !!! p) in *. set (b := match p_twin pg with None => _ | Some _ => _ end).
  set (s1 := if b then set_n_pages (upd p (set_prot PROT_READ) (n_pages s)) s else s).
  assert (R1 : when b (mprotect p PROT_READ) s = Ok (tt, s1)).
  { subst s1. destruct b; [|done]. by apply set_pg_ok. }
  rewrite (bind_Ok _ _ _ _ _ R1).
  assert (E1 : n_pages s1 !!! p = if b then set_prot PROT_READ pg else pg) by (subst s1; destruct b; cbn; by rewrite ?upd_same).
  assert (O1 : n_out s1 = n_out s /\ n_conf s1 = n_conf s /\ forall q, q <> p -> n_pages s1 !!! q = n_pages s !!! q).
  { subst s1. destruct b; split_and!; try done. intros q Hq. cbn. by rewrite upd_other. }
  destruct O1 as (O1 & C1 & Q1).
  assert (Hsend : p_twin (n_pages s1 !!! p) = None -> p_prot (n_pages s1 !!! p) <> PROT_NONE).
  { rewrite E1. subst b. destruct (p_twin pg) eqn:Et; [by rewrite Et|]. case_bool_decide as Hi; [done|]. intros _. by apply Hrd. }
  rewrite (bind_Ok _ _ _ _ _ (send_page_run from seqno p s1 Hp Hsend)).
  assert (Ec : copy_sent (n_pages s1 !!! p) = copy_sent pg) by (rewrite E1; by destruct b). rewrite Ec.
  set (s2 := set_n_out _ s1). rewrite (bind_Ok _ _ _ _ _ (pg_ok p_state p s2 Hp)). change (n_pages s2) with (n_pages s1).
  assert (Est : p_state (n_pages s1 !!! p) = p_state pg) by (rewrite E1; by destruct b). rewrite Est.
  destruct (p_state pg) eqn:Ep; [|..|done].
  - exists s2. split; [done|]. assert (b = false) as Eb by (subst b; by destruct (p_twin pg)).
    split_and!; [|cbn; by rewrite O1|done|done]. cbn. rewrite E1, Eb. unfold shared. by rewrite Ep.
  - exists (set_n_pages (upd p (set_prot PROT_NONE) (n_pages s2)) s2). split; [by apply set_pg_ok|].
    split_and!; [|cbn; by rewrite O1|done|].
    + cbn. rewrite upd_same, E1. unfold shared. rewrite Ep. by destruct b.
    + intros q Hq. cbn. by rewrite upd_other, Q1.
  - rewrite (bind_Ok _ _ _ _ _ (set_pg_ok p _ s2 Hp)). set (s3 := set_n_pages _ s2).
    assert (Eb : b = false) by (subst b; by rewrite (Hpr eq_refl)). rewrite Eb in E1.
    assert (E3 : n_pages s3 !!! p = set_state valid pg) by (subst s3 s2; cbn; by rewrite upd_same, E1).
    rewrite (bind_Ok _ _ _ _ _ (pg_ok p_twin p s3 Hp)), E3. change (p_twin (set_state valid pg)) with (p_twin pg). rewrite (Hpr eq_refl).
    exists (set_n_pages (upd p (set_prot PROT_READ) (n_pages s3)) s3). split; [by apply set_pg_ok|].
    split_and!; [|cbn; by rewrite O1|done|].
    + cbn [n_pages set_n_pages]. rewrite upd_same, E3. unfold shared. by rewrite Ep.
    + intros q Hq. subst s3 s2. cbn. by rewrite !upd_other, Q1.
Qed.

(** ** The reader's side *)

(** The page has never been here, and no diff is missing. *)
Record never_had (s : node) (p manager : Z) : Prop := {
  nh_page : 0 <= p < npages (n_conf s) /\ npages (n_conf s) <= NPAGES;
  nh_state : p_state (n_pages s !!! p) = empty;
  nh_manager : p_manager (n_pages s !!! p) = manager;
  nh_settled : forall i, settled (wn_list (n_pages s !!! p) i)
}.

Lemma sort_none c pg : (forall i, settled (wn_list pg i)) -> sort_writes c pg = [].
Proof.
  intros H. unfold sort_writes. generalize (procs_of c). intros l. induction l as [|i l IH]; [done|].
  cbn [fold_left]. by rewrite sort_proc_settled.
Qed.

Section Fetch.
Context {signals : Signals}.

(** [Tmk_page_request] when the reply is the next event. *)
Lemma page_request_run s p data evs : valid_ptr p = true -> u16 p = p -> p_prot (n_pages s !!! p) = PROT_READ_WRITE ->
  Z.of_nat (length data) = page_size (n_conf s) / 4 -> length (p_mem (n_pages s !!! p)) = length data ->
  let seqno := u32 (n_req_seqno s + SEQNO_INCR) in
  n_events s = EvRep (Reply seqno data) [] :: evs -> exists s',
  Tmk_page_request p s = Ok (tt, s') /\ n_conf s' = n_conf s /\
  n_out s' = n_out s ++ [SendReq (p_manager (n_pages s !!! p)) (page_req seqno (proc_id (n_conf s)) p)] /\
  n_pages s' = upd p (set_mem data) (n_pages s).
Proof.
  intros Hp Hu Hprot Hsz Hlen seqno He. unfold Tmk_page_request.
  rewrite (bind_Ok config _ s (n_conf s) s eq_refl), (bind_Ok _ _ _ _ _ (next_seqno_run s)). fold seqno.
  set (s0 := set_n_req_seqno seqno s). rewrite (bind_Ok _ _ _ _ _ (pg_ok p_manager p s0 Hp)). rewrite Hu.
  change (p_manager (n_pages s0 !!! p)) with (p_manager (n_pages s !!! p)). set (m := p_manager _).
  set (s1 := set_n_out (n_out s0 ++ [SendReq m (page_req seqno (proc_id (n_conf s)) p)]) s0). set (s2 := set_n_events evs s1).
  assert (Hrecv : recv_page p (Reply seqno data) s2 = Ok (tt, set_n_pages (upd p (set_mem data) (n_pages s2)) s2)).
  { unfold recv_page. rewrite (bind_Ok config _ s2 (n_conf s) s2 eq_refl).
    rewrite (bind_Ok _ _ _ _ _ (load_page_run p s2 Hp ltac:(change (n_pages s2) with (n_pages s); congruence))).
    cbn [rp_data]. change (n_pages s2 !!! p) with (n_pages s !!! p).
    rewrite (take_ge data) by lia. rewrite drop_ge by lia. rewrite app_nil_r.
    unfold store_page. rewrite (bind_Ok _ _ _ _ _ (pg_ok p_prot p s2 Hp)). change (n_pages s2 !!! p) with (n_pages s !!! p).
    rewrite Hprot. by apply set_pg_ok. }
  assert (Hsend : send_req m (page_req seqno (proc_id (n_conf s)) p) s0 = Ok (tt, s1)) by done.
  rewrite (bind_Ok _ _ _ _ _ (send_await_next _ _ _ _ _ _ _ _ Hsend He Hrecv)). eexists. split; [reflexivity|]. done.
Qed.

Lemma cold_fault s offset p manager data evs : never_had s p manager -> faults_at s offset p ->
  Z.of_nat (length data) = page_size (n_conf s) / 4 -> length (p_mem (n_pages s !!! p)) = length data ->
  let seqno := u32 (n_req_seqno s + SEQNO_INCR) in
  n_events s = EvRep (Reply seqno data) [] :: evs -> exists s', segv_handler offset false s = Ok (true, s') /\
  only_page p (set_prot PROT_READ (set_state valid (set_mem data (set_prot PROT_READ_WRITE (n_pages s !!! p)))))
    [SendReq manager (page_req seqno (proc_id (n_conf s)) p)] s s'.
Proof.
  intros [[Hp Hn] Hst Hm Hset] Hf Hsz Hlen seqno He.
  assert (Hv : valid_ptr p = true) by (unfold valid_ptr; lia).
  assert (Hu : u16 p = p) by (apply u16_small; unfold is_u16, NPAGES in *; lia).
  unfold segv_handler. rewrite (bind_Ok config _ s (n_conf s) s eq_refl). cbv zeta. rewrite Hf.
  rewrite (proj2 (Z.ltb_lt p (npages (n_conf s)))) by lia.
  set (s1 := set_n_pages (upd p (set_prot PROT_READ_WRITE) (n_pages s)) s).
  rewrite (bind_Ok (mprotect p PROT_READ_WRITE) _ s tt s1 (set_pg_ok p _ s Hv)), (bind_Ok _ _ _ _ _ (pg_ok p_state p s1 Hv)).
  assert (P1 : n_pages s1 !!! p = set_prot PROT_READ_WRITE (n_pages s !!! p)) by (subst s1; cbn; by rewrite upd_same).
  rewrite P1. change (p_state (set_prot PROT_READ_WRITE (n_pages s !!! p))) with (p_state (n_pages s !!! p)). rewrite Hst.
  rewrite decide_False by done. rewrite bool_decide_true by done. cbn [when].
  destruct (page_request_run s1 p data evs Hv Hu ltac:(by rewrite P1) Hsz ltac:(by rewrite P1) He) as (s2 & R2 & C2 & O2 & P2).
  set (s3 := set_n_pages (upd p (set_state valid) (n_pages s2)) s2).
  assert (P3 : n_pages s3 !!! p = set_state valid (set_mem data (set_prot PROT_READ_WRITE (n_pages s !!! p)))).
  { subst s3. cbn. by rewrite upd_same, P2, upd_same, P1. }
  assert (R3 : Tmk_diff_request p s3 = Ok (tt, s3)).
  { unfold Tmk_diff_request. rewrite (bind_Ok config _ s3 (n_conf s3) s3 eq_refl), (bind_Ok _ _ _ _ _ (pg_ok (sort_writes (n_conf s3)) p s3 Hv)).
    rewrite sort_none; [done|]. intros i. rewrite P3. apply Hset. }
  set (s4 := set_n_pages (upd p (set_prot PROT_READ) (n_pages s3)) s3).
  assert (R : (Tmk_page_request p;; set_pg p (set_state valid);; Tmk_diff_request p;; mprotect p PROT_READ) s1 = Ok (tt, s4)).
  { rewrite (bind_Ok _ _ _ _ _ R2), (bind_Ok _ _ _ _ _ (set_pg_ok p _ s2 Hv)). fold s3. rewrite (bind_Ok _ _ _ _ _ R3). by apply set_pg_ok. }
  exists s4. rewrite (bind_Ok _ _ _ _ _ R). split; [done|]. split_and!.
  - subst s4. cbn [n_pages set_n_pages]. by rewrite upd_same, P3.
  - cbn. rewrite O2. subst s1. cbn. by rewrite upd_same, <- Hm.
  - exact C2.
  - intros q Hq. subst s4 s3 s1. cbn. rewrite !upd_other by done. rewrite P2, upd_other by done. cbn. by rewrite upd_other.
Qed.
End Fetch.

(** C5: The first read of a page brings a copy and leaves it shared.  The fault
    sends one request to the page's manager.  The manager's handler sends the
    page as it was when its current interval began: the twin, if it has one,
    and not what it has written since; an old copy that it may not read stays
    unreadable; a page that was its own only becomes an ordinary valid page
    that is write-protected, so that its next write is noticed and
    told to the others.  With that reply the fault handler ends, and the page is
    valid, readable and equal to what was sent.  No other page changes. *)
Theorem cold_fault_copies `{Signals} reader manager m offset p :
  never_had reader p m -> has_page manager p -> faults_at reader offset p ->
  let seqno := u32 (n_req_seqno reader + SEQNO_INCR) in
  let self := proc_id (n_conf reader) in
  let pg := n_pages manager !!! p in
  let copy := default (p_mem pg) (p_twin pg) in
  Z.of_nat (length copy) = page_size (n_conf reader) / 4 -> length (p_mem (n_pages reader !!! p)) = length copy ->
  exists manager', Tmk_page_sigio_handler (page_req seqno self p) manager = Ok (tt, manager') /\
    n_out manager' = n_out manager ++ [SendRep self (Reply seqno copy)] /\
    n_pages manager' !!! p = match p_state pg with
                             | private => set_prot PROT_READ (set_state valid pg)
                             | invalid => set_prot PROT_NONE pg
                             | _ => pg
                             end /\
    (forall q, q <> p -> n_pages manager' !!! q = n_pages manager !!! q) /\
    forall evs, n_events reader = EvRep (Reply seqno copy) [] :: evs -> exists reader',
      segv_handler offset false reader = Ok (true, reader') /\
      n_out reader' = n_out reader ++ [SendReq m (page_req seqno self p)] /\
      n_pages reader' !!! p = set_prot PROT_READ (set_state valid (set_mem copy (n_pages reader !!! p))) /\
      (forall q, q <> p -> n_pages reader' !!! q = n_pages reader !!! q).
Proof.
  intros Hr Hm Hf seqno self pg copy Hsz Hlen.
  destruct (page_serve manager p seqno self Hm) as (manager' & R & P & O & _ & Q). exists manager'.
  split_and!; [exact R|exact O|exact P|exact Q|]. intros evs He.
  destruct (cold_fault reader offset p m copy evs Hr Hf Hsz Hlen He) as (reader' & R' & P' & O' & _ & Q'). exists reader'.
  split_and!; [exact R'|exact O'|by rewrite P'|exact Q'].
Qed.

(** Process 1 reads page 2, which process 0 alone has. *)
Definition owner_ex : node :=
  set_n_pages {[ 2 := set_state private (set_prot PROT_READ_WRITE (set_mem [5; 6; 7; 8] zero_page)) ]}
    (zero_node (Conf 0 2 16 8 0)).

Definition newcomer_ex : node :=
  set_n_events [EvRep (Reply 32 [5; 6; 7; 8]) []]
    (set_n_pages {[ 2 := set_state empty (set_prot PROT_NONE (set_mem [0; 0; 0; 0] zero_page)) ]}
      (zero_node (Conf 1 2 16 8 0))).

Lemma cold_fault_copies_witness :
  exists manager', Tmk_page_sigio_handler (page_req 32 1 2) owner_ex = Ok (tt, manager') /\
    n_out manager' = [SendRep 1 (Reply 32 [5; 6; 7; 8])] /\ p_prot (n_pages manager' !!! 2) = PROT_READ /\
    exists reader', segv_handler (signals := no_signals) 40 false newcomer_ex = Ok (true, reader') /\
      n_out reader' = [SendReq 0 (page_req 32 1 2)] /\ p_mem (n_pages reader' !!! 2) = [5; 6; 7; 8].
Proof.
  destruct (@cold_fault_copies no_signals newcomer_ex owner_ex 0 40 2) as (manager' & R & O & P & _ & F).
  - split; [split; vm_compute; [split; [discriminate|reflexivity]|discriminate]|vm_compute; reflexivity..|].
    intros i. assert (E : p_wn (n_pages newcomer_ex !!! 2) = ∅) by (vm_compute; reflexivity).
    unfold wn_list. by rewrite E, lookup_empty.
  - split; vm_compute; [reflexivity|discriminate|reflexivity|discriminate].
  - vm_compute. reflexivity.
  - vm_compute. reflexivity.
  - vm_compute. reflexivity.
  - destruct (F [] ltac:(vm_compute; reflexivity)) as (reader' & R' & O' & P' & _).
    exists manager'. split; [exact R|]. split; [exact O|]. split; [by rewrite P|].
    exists reader'. split; [exact R'|]. split; [exact O'|]. by rewrite P'.
Defined.
