(* ===== verification/DiffService.v ===== *)
(** * Serving many diffs, in as few messages as it takes

    [Tmk_diff_sigio_handler] gathers the diffs of a request in messages of at
    most [MTU] bytes; [Tmk_diff_request] takes them apart again, and asks the
    socket for the next message when one is used up.  No message says where a
    diff begins or how many follow: both sides have to agree. *)
From S2P Require Import Prelude DiffCodec Pages PageWalk State Rpc Twins Diffs IntervalCreate Untwin Coherence.
Local Open Scope Z_scope.

(** ** Write notices of a page *)
Lemma wn_lookup_list pg pid i : wn_lookup pg (pid, i) = wn_list pg pid !! i.
Proof. unfold wn_lookup, wn_list. cbn. by destruct (p_wn pg !! pid). Qed.

Lemma wn_update_lists pg pid i f j :
  wn_list (wn_update (pid, i) f pg) j = if decide (j = pid) then alter f i (wn_list pg pid) else wn_list pg j.
Proof.
  unfold wn_update, wn_list. cbn. destruct (decide (j = pid)) as [->|Hn]; [by rewrite lookup_insert_eq|].
  by rewrite lookup_insert_ne by congruence.
Qed.

Lemma find_wn_alter f pid time i : (forall w, wn_vt (f w) = wn_vt w) -> forall k l,
  find_wn pid time k (alter f i l) = find_wn pid time k l.
Proof.
  intros Hf k l. revert i k. induction l as [|w l IH]; intros [|i] k; cbn; [done..|by rewrite Hf|].
  destruct (_ =? _); [done|apply IH].
Qed.

Lemma find_wn_pos pid time l : forall k r, find_wn pid time k l = Some r ->
  exists i w, r = (pid, (k + i)%nat) /\ l !! i = Some w.
Proof.
  induction l as [|w l IH]; intros k r H; cbn in H; [done|]. destruct (_ =? _).
  - injection H as <-. exists O, w. split; [f_equal; lia|done].
  - destruct (IH _ _ H) as (i & x & -> & Hx). exists (S i), x. split; [f_equal; lia|done].
Qed.

(** The diff of the interval [time] of process [pid]: made already, or still
    in the twin. *)
Definition notice_for (pg : page) (pid time : Z) : option write_notice :=
  find_wn pid time 0 (wn_list pg pid) ≫= wn_lookup pg.

Definition diff_for (pg : page) (pid time : Z) : option (list Z) :=
  w ← notice_for pg pid time;
  match wn_diff w with
  | Some (_, d) => Some d
  | None => diff_create (p_mem pg) <$> p_twin pg
  end.

(** Every diff fits in a message, made or not. *)
Record diffs_fit (pg : page) : Prop := {
  df_made : forall pid w a d, w ∈ wn_list pg pid -> wn_diff w = Some (a, d) ->
    wn_size w = diff_bytes d /\ 4 + diff_bytes d <= MTU;
  df_twin : forall t, p_twin pg = Some t ->
    length (p_mem pg) = length t /\ 4 * Z.of_nat (length t) + 12 <= MTU /\ p_prot pg <> PROT_NONE
}.

Lemma diff_for_fits pg pid time d : diffs_fit pg -> diff_for pg pid time = Some d -> 4 + diff_bytes d <= MTU.
Proof.
  intros [Fm Ft] H. unfold diff_for in H. destruct (notice_for pg pid time) as [w|] eqn:E; [|done]. cbn in H.
  unfold notice_for in E. destruct (find_wn _ _ _ _) as [r|] eqn:Er; [|done]. cbn in E.
  apply find_wn_pos in Er as (i & x & -> & Hx). rewrite wn_lookup_list in E. cbn in E. rewrite Hx in E. injection E as ->.
  destruct (wn_diff w) as [[a d']|] eqn:Ed.
  - injection H as ->. apply (Fm pid w a d); [by eapply list_elem_of_lookup_2|done].
  - destruct (p_twin pg) as [t|] eqn:Et; [|done]. injection H as <-. destruct (Ft t eq_refl) as (Hl & Hm & _).
    pose proof (diff_bytes_le (p_mem pg) t Hl). lia.
Qed.

(** Making a diff does not change what is served. *)
Lemma diff_for_made pg pid i w a t : wn_list pg pid !! i = Some w -> wn_diff w = None -> p_twin pg = Some t ->
  let pg' := wn_update (pid, i) (set_diff a (diff_create (p_mem pg) t)) pg in
  forall pid' time', diff_for pg' pid' time' = diff_for pg pid' time'.
Proof.
  intros Hw Hd Ht pg' pid' time'. unfold diff_for, notice_for.
  change (p_twin pg') with (p_twin pg). change (p_mem pg') with (p_mem pg).
  assert (Ef : find_wn pid' time' 0 (wn_list pg' pid') = find_wn pid' time' 0 (wn_list pg pid')).
  { subst pg'. rewrite wn_update_lists. destruct (decide (pid' = pid)) as [->|]; [by apply find_wn_alter|done]. }
  rewrite Ef. clear Ef. destruct (find_wn pid' time' 0 (wn_list pg pid')) as [r|] eqn:Er; [|done]. cbn.
  apply find_wn_pos in Er as (j & x & -> & Hx). rewrite !wn_lookup_list. cbn [Nat.add]. subst pg'. rewrite wn_update_lists.
  destruct (decide (pid' = pid)) as [->|]; [|done]. destruct (decide (j = i)) as [->|Hn].
  - rewrite list_lookup_alter_eq, Hw. cbn. by rewrite Hd, Ht.
  - by rewrite list_lookup_alter_ne.
Qed.

Lemma diffs_fit_made pg pid i w a t : diffs_fit pg -> wn_list pg pid !! i = Some w -> p_twin pg = Some t ->
  diffs_fit (wn_update (pid, i) (set_diff a (diff_create (p_mem pg) t)) pg).
Proof.
  intros [Fm Ft] Hw Ht. split; [|exact Ft]. intros pid' w' a' d' Hin Hd. rewrite wn_update_lists in Hin.
  destruct (decide (pid' = pid)) as [->|]; [|by eapply Fm]. apply list_elem_of_lookup in Hin as (j & Hj).
  destruct (decide (j = i)) as [->|Hn]; [|rewrite list_lookup_alter_ne in Hj by done; eapply Fm; [by eapply list_elem_of_lookup_2|done]].
  rewrite list_lookup_alter_eq, Hw in Hj. injection Hj as <-. injection Hd as _ <-. destruct (Ft t Ht) as (Hl & Hm & _).
  pose proof (diff_bytes_le (p_mem pg) t Hl) as Hb. cbn. unfold MTU in *. split; [|lia].
  apply u16_small. unfold is_u16, diff_bytes in *. lia.
Qed.

(** ** Filling messages *)

(** The replies that carry the groups [gs] of diffs. *)
Fixpoint replies (seqno : Z) (gs : list (list (list Z))) : list reply :=
  match gs with
  | [] => []
  | g :: gs' => Reply seqno (concat g) :: replies (u32 (seqno + SEQNO_INCR)) gs'
  end.

Fixpoint seqno_at (k : nat) (seqno : Z) : Z :=
  match k with O => seqno | S k' => seqno_at k' (u32 (seqno + SEQNO_INCR)) end.

Lemma replies_app gs gs' : forall seqno, replies seqno (gs ++ gs') = replies seqno gs ++ replies (seqno_at (length gs) seqno) gs'.
Proof. induction gs as [|g gs IH]; intros seqno; cbn; [done|]. by rewrite IH. Qed.

Lemma seqno_at_app k k' : forall seqno, seqno_at (k + k') seqno = seqno_at k' (seqno_at k seqno).
Proof. induction k as [|k IH]; intros seqno; cbn; [done|apply IH]. Qed.

Definition message_ok (g : list (list Z)) : Prop := g <> [] /\ 4 + diff_bytes (concat g) <= MTU.

(** The diffs [g] are gathered for the message with number [seqno]. *)
Record pending (seqno : Z) (g : list (list Z)) (sv : serving) : Prop := {
  pe_seqno : sv_seqno sv = seqno;
  pe_data : concat (reverse (map iov_data (sv_iov sv))) = concat g;
  pe_size : sv_size sv = 4 + diff_bytes (concat g);
  pe_fits : 4 + diff_bytes (concat g) <= MTU;
  pe_none : sv_iov sv = [] <-> g = []
}.

Definition sent_more (from : Z) (rs : list reply) (s : node) : node := set_n_out (n_out s ++ map (SendRep from) rs) s.

Lemma sent_none from s : sent_more from [] s = s.
Proof. unfold sent_more. cbn. rewrite app_nil_r. by destruct s. Qed.

Lemma sent_twice from rs rs' s : sent_more from rs' (sent_more from rs s) = sent_more from (rs ++ rs') s.
Proof. unfold sent_more. cbn. by rewrite map_app, app_assoc. Qed.

Lemma flush_run from seqno g sv s : pending seqno g sv -> flush from sv s = Ok (tt, sent_more from (replies seqno [g]) s).
Proof. intros [E D _ _ _]. unfold flush. rewrite E, D. done. Qed.

Lemma diff_bytes_app d d' : diff_bytes (d ++ d') = diff_bytes d + diff_bytes d'.
Proof. unfold diff_bytes. rewrite length_app. lia. Qed.

Lemma pending_start seqno : pending seqno [] (Serving seqno 4 []).
Proof. split; [done..|vm_compute; discriminate|done]. Qed.

Lemma pending_first seqno a d : 4 + diff_bytes d <= MTU ->
  pending seqno [d] (Serving seqno (4 + diff_bytes d) [Iovec a (diff_bytes d) d]).
Proof. intros H. split; cbn; rewrite ?app_nil_r; done. Qed.

Lemma pending_push seqno g sv a d : pending seqno g sv -> 4 + diff_bytes (concat g) + diff_bytes d <= MTU ->
  pending seqno (g ++ [d]) (Serving (sv_seqno sv) (sv_size sv + diff_bytes d) (Iovec a (diff_bytes d) d :: sv_iov sv)).
Proof.
  intros [E D Z F N] H. assert (Ec : concat (g ++ [d]) = concat g ++ d) by (rewrite concat_app; cbn; by rewrite app_nil_r).
  split; cbn [sv_seqno sv_size sv_iov]; rewrite ?Ec, ?diff_bytes_app; [done| |lia|lia|].
  - cbn [map]. rewrite reverse_cons, concat_app, D. cbn. by rewrite app_nil_r.
  - split; [done|]. by destruct g.
Qed.

Lemma pending_extend seqno g sv e es d : pending seqno g sv -> sv_iov sv = e :: es ->
  4 + diff_bytes (concat g) + diff_bytes d <= MTU ->
  pending seqno (g ++ [d]) (Serving (sv_seqno sv) (sv_size sv + diff_bytes d)
    (Iovec (iov_base e) (iov_len e + diff_bytes d) (iov_data e ++ d) :: es)).
Proof.
  intros [E D Z F N] He H. assert (Ec : concat (g ++ [d]) = concat g ++ d) by (rewrite concat_app; cbn; by rewrite app_nil_r).
  split; cbn [sv_seqno sv_size sv_iov]; rewrite ?Ec, ?diff_bytes_app; [done| |lia|lia|].
  - rewrite He in D. cbn [map] in *. rewrite reverse_cons, concat_app in *. cbn in *. rewrite app_nil_r in *.
    by rewrite app_assoc, D.
  - split; [done|]. by destruct g.
Qed.

Lemma pending_ok seqno g sv : pending seqno g sv -> g <> [] -> message_ok g.
Proof. intros P Hg. split; [done|apply P]. Qed.

Lemma add_diff_run from a d seqno g sv s : pending seqno g sv -> 4 + diff_bytes d <= MTU ->
  exists sv' gs g', add_diff from a (diff_bytes d) d sv s = Ok (sv', sent_more from (replies seqno gs) s) /\
    pending (seqno_at (length gs) seqno) g' sv' /\ concat gs ++ g' = g ++ [d] /\ Forall message_ok gs.
Proof.
  intros P Hd. pose proof P as [E D Sz F N]. unfold add_diff. destruct (MTU <? sv_size sv + diff_bytes d) eqn:Hov.
  - assert (Hg : g <> []) by (intros ->; rewrite Sz in Hov; change (diff_bytes (concat [])) with 0 in Hov; lia).
    exists (Serving (u32 (seqno + SEQNO_INCR)) (4 + diff_bytes d) [Iovec a (diff_bytes d) d]), [g], [d].
    rewrite (bind_Ok (flush from sv;; _) _ s (Serving (u32 (seqno + SEQNO_INCR)) (4 + diff_bytes d) [])
      (sent_more from (replies seqno [g]) s)) by (rewrite (bind_Ok _ _ _ _ _ (flush_run from seqno g sv s P)), E; done).
    split_and!; [done|by apply pending_first|by rewrite concat_cons, app_nil_r|constructor; [by eapply pending_ok|done]].
  - rewrite (bind_Ok (mret _) _ s _ s eq_refl). cbn [sv_iov sv_seqno sv_size].
    assert (Hfit : 4 + diff_bytes (concat g) + diff_bytes d <= MTU) by lia.
    destruct (sv_iov sv) as [|e es] eqn:He.
    + assert (Hg : g = []) by (by apply N). subst g. exists (Serving seqno (4 + diff_bytes d) [Iovec a (diff_bytes d) d]), [], [d].
      rewrite sent_none, E, Sz. split_and!; [done|by apply pending_first|done|done].
    + destruct (_ && _).
      * eexists _, [], (g ++ [d]). rewrite sent_none. split_and!; [reflexivity|by eapply pending_extend|done|done].
      * pose proof (pending_push seqno g sv a d P Hfit) as P2. rewrite He in P2. cbv zeta. destruct (_ =? _).
        -- exists (Serving (u32 (seqno + SEQNO_INCR)) 4 []), [g ++ [d]], [].
           rewrite (bind_Ok _ _ _ _ _ (flush_run from seqno _ _ s P2)). rewrite E.
           split_and!; [done|apply pending_start|by rewrite concat_cons, !app_nil_r|].
           constructor; [eapply pending_ok; [exact P2|by destruct g]|done].
        -- eexists _, [], (g ++ [d]). rewrite sent_none. split_and!; [reflexivity|exact P2|done|done].
Qed.

(** ** The handler *)

(** What serving leaves of the page, and what it keeps. *)
Record serving_kept (p : page_t) (s s' : node) : Prop := {
  sk_mem : p_mem (n_pages s' !!! p) = p_mem (n_pages s !!! p);
  sk_twin : p_twin (n_pages s' !!! p) = p_twin (n_pages s !!! p);
  sk_diffs : forall pid time, diff_for (n_pages s' !!! p) pid time = diff_for (n_pages s !!! p) pid time;
  sk_others : forall q, q <> p -> n_pages s' !!! q = n_pages s !!! q
}.

#[export] Instance serving_kept_preorder p : PreOrder (serving_kept p).
Proof.
  split; [by intros s|]. intros s1 s2 s3 [M1 T1 D1 O1] [M2 T2 D2 O2].
  split; [congruence..| |]; intros; [by rewrite D2|by rewrite O2, O1].
Qed.

Lemma kept_sent p from rs s : serving_kept p s (sent_more from rs s).
Proof. done. Qed.

Lemma serve_one_run p from pid time d seqno g sv made s : valid_ptr p = true -> diffs_fit (n_pages s !!! p) ->
  diff_for (n_pages s !!! p) pid time = Some d -> pending seqno g sv ->
  (made = true -> p_twin (n_pages s !!! p) <> None) ->
  exists s' sv' made' gs g', serve_one p from pid time sv made s = Ok (sv', made', s') /\
    n_out s' = n_out s ++ map (SendRep from) (replies seqno gs) /\
    pending (seqno_at (length gs) seqno) g' sv' /\ concat gs ++ g' = g ++ [d] /\ Forall message_ok gs /\
    serving_kept p s s' /\ diffs_fit (n_pages s' !!! p) /\ (made' = true -> p_twin (n_pages s' !!! p) <> None).
Proof.
  intros Hv Hf Hd P Hm. pose proof (diff_for_fits _ _ _ _ Hf Hd) as Hfit.
  unfold serve_one. rewrite (bind_Ok _ _ _ _ _ (pg_ok id p s Hv)). change (id (n_pages s !!! p)) with (n_pages s !!! p).
  pose proof Hd as Hd0. unfold diff_for, notice_for in Hd0. destruct (find_wn pid time 0 _) as [r|] eqn:Er; [|done].
  pose proof (find_wn_pos _ _ _ _ _ Er) as (i & w & -> & Hw). cbn [Nat.add] in *.
  assert (Hlk : wn_lookup (n_pages s !!! p) (pid, i) = Some w) by (by rewrite wn_lookup_list).
  cbn in Hd0. rewrite Hlk in Hd0. cbn in Hd0. rewrite lift_run, Hlk. change (Some w ≫= wn_diff) with (wn_diff w).
  assert (Hmade : exists s1 made' a, (match wn_diff w with None => Tmk_diff_create p (pid, i);; mret true | Some _ => mret made end) s
      = Ok (made', s1) /\ n_out s1 = n_out s /\ serving_kept p s s1 /\ diffs_fit (n_pages s1 !!! p) /\
      (made' = true -> p_twin (n_pages s1 !!! p) <> None) /\
      exists w1, wn_lookup (n_pages s1 !!! p) (pid, i) = Some w1 /\ wn_diff w1 = Some (a, d) /\ wn_size w1 = diff_bytes d).
  { destruct (wn_diff w) as [[a d']|] eqn:Ew.
    - injection Hd0 as ->. exists s, made, a. split_and!; try done. exists w. split_and!; try done.
      apply (df_made _ Hf pid w a d); [by eapply list_elem_of_lookup_2|done].
    - destruct (p_twin (n_pages s !!! p)) as [t|] eqn:Et; [|done]. injection Hd0 as <-.
      destruct (df_twin _ Hf t Et) as (Hl & Hsz & Hpr).
      destruct (diff_create_run p (pid, i) s t Hv Hpr Et) as (s1 & R1 & P1 & _ & _ & O1).
      set (a := heap_ptr (n_heap_1 s)) in *. exists s1, true, a. rewrite (bind_Ok _ _ _ _ _ R1).
      assert (E1 : n_pages s1 !!! p = wn_update (pid, i) (set_diff a (diff_create (p_mem (n_pages s !!! p)) t)) (n_pages s !!! p))
        by (by rewrite P1, upd_same).
      split_and!; [done|done| | | |].
      + split; [by rewrite E1|by rewrite E1| |].
        * intros pid' time'. rewrite E1. by eapply diff_for_made.
        * intros q Hq. by rewrite P1, upd_other.
      + rewrite E1. by eapply diffs_fit_made.
      + intros _. by rewrite E1; cbn; rewrite Et.
      + eexists. rewrite E1, wn_lookup_list, wn_update_lists, decide_True by done. rewrite list_lookup_alter_eq, Hw.
        split_and!; [reflexivity|reflexivity|]. cbn. pose proof (diff_bytes_le _ t Hl) as Hb. unfold MTU in *.
        apply u16_small. unfold is_u16, diff_bytes in *. lia. }
  destruct Hmade as (s1 & made' & a & R1 & O1 & K1 & F1 & M1 & w1 & L1 & D1 & Z1).
  rewrite (bind_Ok _ _ _ _ _ R1), (bind_Ok _ _ _ _ _ (pg_ok id p s1 Hv)).
  change (id (n_pages s1 !!! p)) with (n_pages s1 !!! p). rewrite L1, lift_run, D1, lift_run, Z1.
  destruct (add_diff_run from a d seqno g sv s1 P Hfit) as (sv' & gs & g' & R2 & P2 & C2 & G2).
  rewrite (bind_Ok _ _ _ _ _ R2). eexists _, sv', made', gs, g'. split_and!; [reflexivity|cbn; by rewrite O1|done..| |exact F1|exact M1].
  etrans; [exact K1|apply kept_sent].
Qed.

Abbreviation pairs := (fun l : list (Z * Z) => l ≫= fun pt => [pt.1; pt.2]).

Lemma serve_pairs_cons p from pid time pt l sv made s sv1 made1 s1 :
  serve_one p from pid time sv made s = Ok (sv1, made1, s1) ->
  serve_pairs p from (pairs ((pid, time) :: pt :: l)) sv made s = serve_pairs p from (pairs (pt :: l)) sv1 made1 s1.
Proof. intros R. cbn [mbind list_bind app fst snd serve_pairs]. by rewrite (bind_Ok _ _ _ _ _ R). Qed.

Lemma serve_pairs_run p from l : l <> [] -> forall ds seqno g sv made s,
  valid_ptr p = true -> diffs_fit (n_pages s !!! p) ->
  Forall2 (fun pt d => diff_for (n_pages s !!! p) pt.1 pt.2 = Some d) l ds -> pending seqno g sv ->
  (made = true -> p_twin (n_pages s !!! p) <> None) ->
  exists s' sv' made' gs g', serve_pairs p from (pairs l) sv made s = Ok (sv', made', s') /\
    n_out s' = n_out s ++ map (SendRep from) (replies seqno gs) /\
    pending (seqno_at (length gs) seqno) g' sv' /\ concat gs ++ g' = g ++ ds /\ Forall message_ok gs /\
    serving_kept p s s' /\ (made' = true -> p_twin (n_pages s' !!! p) <> None).
Proof.
  induction l as [|[pid time] l IH]; [done|]. intros _ ds seqno g sv made s Hv Hf Hall P Hm.
  apply Forall2_cons_inv_l in Hall as (d & ds' & Hd & Hall & ->). rename ds' into ds. cbn [fst snd] in Hd.
  destruct (serve_one_run p from pid time d seqno g sv made s Hv Hf Hd P Hm)
    as (s1 & sv1 & made1 & gs1 & g1 & R1 & O1 & P1 & C1 & G1 & K1 & F1 & M1).
  destruct l as [|pt l].
  - apply Forall2_nil_inv_l in Hall as ->. exists s1, sv1, made1, gs1, g1. split_and!; done.
  - destruct (IH ltac:(done) ds (seqno_at (length gs1) seqno) g1 sv1 made1 s1 Hv F1)
      as (s2 & sv2 & made2 & gs2 & g2 & R2 & O2 & P2 & C2 & G2 & K2 & M2); [|done|done|].
    { eapply Forall2_impl; [exact Hall|]. intros x y Hxy. by rewrite (sk_diffs _ _ _ K1). }
    exists s2, sv2, made2, (gs1 ++ gs2), g2. split_and!.
    + by rewrite (serve_pairs_cons _ _ _ _ _ _ _ _ _ _ _ _ R1).
    + by rewrite O2, O1, replies_app, map_app, app_assoc.
    + by rewrite length_app, seqno_at_app.
    + rewrite concat_app, <- app_assoc, C2, app_assoc, C1, <- app_assoc. done.
    + rewrite Forall_app. done.
    + by etrans.
    + done.
Qed.

(** The whole handler: the diffs asked for, in order, in messages that fit. *)
Lemma handler_run p from l ds seqno vt s : l <> [] -> valid_ptr p = true -> diffs_fit (n_pages s !!! p) ->
  Forall2 (fun pt d => diff_for (n_pages s !!! p) pt.1 pt.2 = Some d) l ds ->
  exists s' gs, Tmk_diff_sigio_handler (Request seqno from REQ_DIFF p vt (pairs l)) s = Ok (tt, s') /\
    n_out s' = n_out s ++ map (SendRep from) (replies seqno gs) /\ concat gs = ds /\ Forall message_ok gs /\
    p_mem (n_pages s' !!! p) = p_mem (n_pages s !!! p) /\ forall q, q <> p -> n_pages s' !!! q = n_pages s !!! q.
Proof.
  intros Hl Hv Hf Hall. unfold Tmk_diff_sigio_handler. cbn [rq_id rq_from rq_data rq_seqno].
  destruct (serve_pairs_run p from l Hl ds seqno [] (Serving seqno 4 []) false s
    Hv Hf Hall (pending_start seqno) ltac:(done)) as (s1 & sv & made & gs & g & R1 & O1 & P1 & C1 & G1 & K1 & M1).
  rewrite (bind_Ok _ _ _ _ _ R1). cbn in C1.
  assert (Hflush : exists s2 gs', when (1 <? iov_index sv) (flush from sv) s1 = Ok (tt, s2) /\
      n_out s2 = n_out s ++ map (SendRep from) (replies seqno gs') /\ concat gs' = ds /\ Forall message_ok gs' /\
      n_pages s2 = n_pages s1).
  { pose proof (pe_none _ _ _ P1) as N. unfold iov_index. destruct (sv_iov sv) as [|e es] eqn:Ei.
    - exists s1, gs. assert (Hg : g = []) by (by apply N). subst g. rewrite app_nil_r in C1. by split_and!.
    - assert (Hg : g <> []) by (intros H; by apply N in H). exists (sent_more from (replies (seqno_at (length gs) seqno) [g]) s1), (gs ++ [g]).
      assert ((1 <? 1 + Z.of_nat (length (e :: es))) = true) as -> by (apply Z.ltb_lt; cbn [length]; lia). cbn [when].
      split_and!; [by apply flush_run| | |rewrite Forall_app, Forall_singleton; split; [done|by eapply pending_ok]|done].
      + cbn [n_out sent_more set_n_out]. by rewrite O1, replies_app, map_app, app_assoc.
      + by rewrite concat_app, concat_cons, app_nil_r. }
  destruct Hflush as (s2 & gs' & R2 & O2 & C2 & G2 & E2). rewrite (bind_Ok _ _ _ _ _ R2).
  destruct made; cbn [when].
  - specialize (M1 eq_refl). rewrite <- E2 in M1. unfold mprotect. rewrite (bind_Ok _ _ _ _ _ (set_pg_ok p _ s2 Hv)).
    set (s3 := set_n_pages _ s2). destruct (p_twin (n_pages s3 !!! p)) as [t|] eqn:Et;
      [|exfalso; apply M1; subst s3; cbn in Et; rewrite upd_same in Et; exact Et].
    destruct (twin_free_run p s3 t Hv Et) as (s4 & R4 & P4 & _ & O4). exists s4, gs'. split_and!; try done.
    + by rewrite O4.
    + rewrite P4, upd_same. subst s3. cbn. rewrite upd_same, E2. apply K1.
    + intros q Hq. rewrite P4, upd_other by done. subst s3. cbn. rewrite upd_other, E2 by done. by apply K1.
  - exists s2, gs'. split_and!; try done; [by rewrite E2; apply K1|]. intros q Hq. rewrite E2. by apply K1.
Qed.

(** ** Taking the messages apart *)

(** A page's contents and its twin when the diff was made. *)
Definition version : Type := list Z * list Z.
Definition diff_of (v : version) : list Z := diff_create v.1 v.2.
Definition version_ok (n : nat) (v : version) : Prop := length v.1 = n /\ length v.2 = n /\ Forall is_word v.1.

(** The words that the version has changed. *)
Definition merge_version (mem : list Z) (v : version) : list Z := merge_words mem (zip v.2 v.1).

Lemma merge_version_length n mem v : length mem = n -> version_ok n v -> length (merge_version mem v) = n.
Proof. intros H (H1 & H2 & _). unfold merge_version. rewrite merge_words_length; rewrite length_zip_with; lia. Qed.

Lemma diff_of_nonempty v : diff_of v <> [].
Proof. unfold diff_of. rewrite diff_create_runs. intros H. by apply app_nil in H as [_ H]. Qed.

(** The page while diffs are applied to it. *)
Record applying (p : page_t) (n : nat) (s : node) : Prop := {
  ap_ptr : valid_ptr p = true;
  ap_prot : p_prot (n_pages s !!! p) = PROT_READ_WRITE;
  ap_len : length (p_mem (n_pages s !!! p)) = n;
  ap_fits : page_fits n
}.

Section Receive.
Context {signals : Signals}.

(** What is done after a diff has been applied. *)
Definition apply_next (p : page_t) (to seqno : Z) (rest : list wentry) (a : addr) (diff : list Z) : Proc unit :=
  match rest, diff with
  | [], _ => skip
  | _, [] =>
      let seqno' := u32 (seqno + SEQNO_INCR) in
      modify (fun s => set_n_req_seqno (Z.max (n_req_seqno s) seqno') s);;
      apply_diffs p to seqno' rest None
  | _, _ => apply_diffs p to seqno rest (Some (a, diff))
  end.

Lemma apply_step p to seqno n e es a v rest s : applying p n s -> version_ok n v ->
  exists s1 a', apply_diffs p to seqno (e :: es) (Some (a, diff_of v ++ rest)) s = apply_next p to seqno es a' rest s1 /\
    p_mem (n_pages s1 !!! p) = merge_version (p_mem (n_pages s !!! p)) v /\ applying p n s1 /\
    n_events s1 = n_events s /\ n_out s1 = n_out s /\ forall q, q <> p -> n_pages s1 !!! q = n_pages s !!! q.
Proof.
  intros [Hv Hpr Hlen Hfits] Hok. pose proof Hok as (L1 & L2 & Hw). cbn [apply_diffs].
  rewrite (bind_Ok (mret _) _ s _ s eq_refl), (bind_Ok _ _ _ _ _ (load_page_run p s Hv ltac:(congruence))).
  set (mem := p_mem (n_pages s !!! p)) in *.
  assert (Hd : diff_apply mem (diff_of v ++ rest) = Some (merge_version mem v, rest)).
  { unfold diff_of, merge_version. apply diff_apply_create; [congruence|congruence|done|by rewrite Hlen]. }
  rewrite Hd, lift_run. set (s2 := set_n_pages (upd p (set_mem (merge_version mem v)) (n_pages s)) s).
  assert (R2 : store_page p (merge_version mem v) s = Ok (tt, s2)).
  { unfold store_page. rewrite (bind_Ok _ _ _ _ _ (pg_ok p_prot p s Hv)), Hpr. by apply set_pg_ok. }
  rewrite (bind_Ok _ _ _ _ _ R2). rewrite length_app, Nat.add_sub, take_app_length.
  cbv zeta. rewrite (bind_Ok _ _ _ _ _ (set_pg_ok p _ s2 Hv)).
  eexists _, (a.1, a.2 + diff_bytes (diff_of v)). split; [by destruct es, rest|]. subst s2. cbn.
  split_and!; [by rewrite !upd_same| |done|done|intros q Hq; by rewrite !upd_other].
  split; cbn; rewrite ?upd_same; cbn; [done|done|by apply merge_version_length|done].
Qed.

Lemma apply_groups p to n evs es : forall vs g gs seqno a s, length es = length vs ->
  map diff_of vs = g ++ concat gs -> (g <> [] \/ es = []) -> Forall (fun g => g <> []) gs ->
  applying p n s -> Forall (version_ok n) vs ->
  n_events s = map (fun r => EvRep r []) (replies (u32 (seqno + SEQNO_INCR)) gs) ++ evs ->
  exists s', apply_diffs p to seqno es (Some (a, concat g)) s = Ok (tt, s') /\
    p_mem (n_pages s' !!! p) = fold_left merge_version vs (p_mem (n_pages s !!! p)) /\
    n_events s' = evs /\ n_out s' = n_out s /\ forall q, q <> p -> n_pages s' !!! q = n_pages s !!! q.
Proof.
  induction es as [|e es IH]; intros [|v vs] g gs seqno a s Hlen Hmap Hg Hgs Hs Hok Hev; try done.
  - exists s. assert (E : g = [] /\ gs = []).
    { symmetry in Hmap. apply app_nil in Hmap as [-> Hc]. split; [done|]. destruct Hgs as [|g' gs Hne _]; [done|].
      cbn in Hc. by apply app_nil in Hc as [-> _]. }
    destruct E as [-> ->]. by split_and!.
  - destruct Hg as [Hg|]; [|done]. destruct g as [|d g]; [done|]. injection Hmap as <- Hmap.
    apply Forall_cons in Hok as [Hv Hok]. injection Hlen as Hlen. cbn [concat fold_left].
    destruct (apply_step p to seqno n e es a v (concat g) s Hs Hv) as (s1 & a' & R1 & M1 & A1 & E1 & O1 & F1).
    rewrite R1, <- M1.
    destruct (decide (g <> [] \/ es = [])) as [Hgo|Hno].
    + destruct (IH vs g gs seqno a' s1 Hlen Hmap Hgo Hgs A1 Hok ltac:(by rewrite E1)) as (s2 & R2 & M2 & E2 & O2 & F2).
      exists s2. split_and!; [|done|done|by rewrite O2|intros q Hq; by rewrite F2, F1].
      unfold apply_next. destruct es as [|e' es]; [by rewrite <- R2|].
      destruct (concat g) as [|x xs] eqn:Ec; [|done]. exfalso. destruct g as [|d g]; [by destruct Hgo|].
      cbn in Ec. destruct vs as [|v' vs]; [done|]. injection Hmap as E _. rewrite <- E in Ec.
      apply app_nil in Ec as [Ec _]. by apply (diff_of_nonempty v').
    + apply Decidable.not_or in Hno as [Hg0 Hes]. assert (g = []) as -> by (by destruct g; [|exfalso; apply Hg0]).
      destruct es as [|e' es]; [done|]. unfold apply_next. cbn [concat]. cbv zeta.
      set (seqno' := u32 (seqno + SEQNO_INCR)) in *. rewrite (bind_Ok (modify _) _ s1 tt _ eq_refl). set (s2 := set_n_req_seqno _ s1).
      destruct gs as [|g gs]; [by destruct vs|]. clear Hg. apply Forall_cons in Hgs as [Hg Hgs].
      cbn [replies map app] in Hev. rewrite <- E1 in Hev. cbn [concat app] in Hmap.
      destruct (receive_first s2 p to seqno' (e' :: es) _ _ Hev) as (s3 & R3 & P3 & O3 & _ & E3).
      assert (Hsame : apply_diffs p to seqno' (e' :: es) None s2 =
        apply_diffs p to seqno' (e' :: es) (Some (heap_2_ptr (n_heap_2 s2), concat g)) s3).
      { cbn [apply_diffs]. by rewrite (bind_Ok _ _ _ _ _ R3). }
      rewrite Hsame. assert (A3 : applying p n s3) by (destruct A1; split; rewrite ?P3; done).
      destruct (IH vs g gs seqno' (heap_2_ptr (n_heap_2 s2)) s3 Hlen Hmap (or_introl Hg) Hgs A3 Hok E3) as (s4 & R4 & M4 & E4 & O4 & F4).
      exists s4. rewrite P3 in M4, F4. split_and!; [done|done|done|by rewrite O4, O3|intros q Hq; by rewrite F4, <- F1].
Qed.
End Receive.

(** ** Both sides *)
Lemma pairs_entries es : es ≫= pairs_of = pairs (map (fun e => (u16 (we_id e), vt_get (we_vt e) (we_id e))) es).
Proof. induction es as [|e es IH]; [done|]. cbn. by f_equal; f_equal; rewrite IH. Qed.

(** C8: a request for any number of diffs is answered completely and read
    back as it was written.  The server makes the diffs that are still in the
    twin, and sends all of them, in the order of the request, in messages that
    hold whole diffs, at least one each, and never exceed [MTU]; its page keeps
    its contents.  When these messages are what the requester receives, with
    the sequence numbers the server gives them, each diff is applied once, in
    that order: the page ends up with the words changed in the versions the
    diffs were made from, the later ones winning, and nothing is left over. *)
Theorem diffs_delivered `{Signals} server reader from to p seqno vt n es vs evs :
  es <> [] -> diffs_fit (n_pages server !!! p) ->
  Forall2 (fun e v => diff_for (n_pages server !!! p) (u16 (we_id e)) (vt_get (we_vt e) (we_id e)) = Some (diff_of v)) es vs ->
  applying p n reader -> Forall (version_ok n) vs ->
  exists server' gs,
    Tmk_diff_sigio_handler (Request seqno from REQ_DIFF p vt (es ≫= pairs_of)) server = Ok (tt, server') /\
    n_out server' = n_out server ++ map (SendRep from) (replies seqno gs) /\
    concat gs = map diff_of vs /\ Forall message_ok gs /\
    p_mem (n_pages server' !!! p) = p_mem (n_pages server !!! p) /\
    (n_events reader = map (fun r => EvRep r []) (replies seqno gs) ++ evs ->
     exists reader', apply_diffs p to seqno es None reader = Ok (tt, reader') /\
       p_mem (n_pages reader' !!! p) = fold_left merge_version vs (p_mem (n_pages reader !!! p)) /\
       n_events reader' = evs /\ n_out reader' = n_out reader /\
       forall q, q <> p -> n_pages reader' !!! q = n_pages reader !!! q).
Proof.
  intros He Hf Hall Ha Hok. pose proof (ap_ptr _ _ _ Ha) as Hv. rewrite pairs_entries.
  set (l := map _ es). assert (Hl : l <> []) by (by destruct es).
  assert (Hall' : Forall2 (fun pt d => diff_for (n_pages server !!! p) pt.1 pt.2 = Some d) l (map diff_of vs)).
  { subst l. clear -Hall. induction Hall as [|e v es vs Hd Hall IH]; [constructor|]. by constructor. }
  destruct (handler_run p from l (map diff_of vs) seqno vt server Hl Hv Hf Hall') as (server' & gs & R & O & C & G & M & _).
  exists server', gs. split_and!; try done. intros Hev.
  destruct es as [|e es]; [done|]. apply Forall2_cons_inv_l in Hall as (v & vs' & _ & Hall & ->).
  destruct gs as [|g gs]; [done|]. apply Forall_cons in G as [[Hg _] G].
  destruct (receive_first reader p to seqno (e :: es) _ _ Hev) as (s1 & R1 & P1 & O1 & _ & E1).
  assert (A1 : applying p n s1) by (destruct Ha; split; rewrite ?P1; done).
  destruct (apply_groups p to n evs (e :: es) (v :: vs') g gs seqno (heap_2_ptr (n_heap_2 reader)) s1)
    as (s2 & R2 & M2 & E2 & O2 & F2); try done.
  - cbn. f_equal. by eapply Forall2_length.
  - by left.
  - eapply Forall_impl; [exact G|]. by intros x [Hx _].
  - exists s2. rewrite P1 in M2, F2. split_and!; [|done|done|by rewrite O2|done].
    rewrite <- R2. cbn [apply_diffs]. by rewrite (bind_Ok _ _ _ _ _ R1).
Qed.

(** Process 1 has written page 2 in two intervals: the diff of the first has
    been made, the second is in the twin. *)
Definition older_ex : version := ([1; 2; 3; 4], [0; 2; 3; 4]).
Definition newer_ex : version := ([10; 2; 30; 4], [1; 2; 3; 4]).
Definition two_notices (d : list Z) : gmap Z (list write_notice) :=
  {[ 1 := [WriteNotice None 0 1 (vt_set 1 2 vt_zero); WriteNotice (Some ((0, 0), d)) (diff_bytes d) 1 (vt_set 1 1 vt_zero)] ]}.
Definition two_entries : list wentry := [WEntry (1, 1%nat) 1 (vt_set 1 1 vt_zero); WEntry (1, O) 1 (vt_set 1 2 vt_zero)].
Definition server_with (older newer : version) : node :=
  set_n_pages {[ 2 := set_prot PROT_READ_WRITE (set_mem newer.1 (set_twin (Some newer.2)
    (set_wn (two_notices (diff_of older)) zero_page))) ]} (zero_node (Conf 1 2 16 8 0)).
Definition requester_ex (evs : list event) : node :=
  set_n_events evs (set_n_pages {[ 2 := set_prot PROT_READ_WRITE (set_mem [0; 20; 3; 4] zero_page) ]}
    (zero_node (Conf 0 2 16 8 0))).

(** Large diffs need a message each. *)
Example two_messages :
  let v x := (replicate 5000 x, replicate 5000 (x - 1)) in
  match Tmk_diff_sigio_handler (Request 32 0 REQ_DIFF 2 [] (two_entries ≫= pairs_of)) (server_with (v 5) (v 7)) with
  | Ok (_, s) => n_out s = map (SendRep 0) [Reply 32 (diff_of (v 5)); Reply 64 (diff_of (v 7))]
  | _ => False
  end.
Proof. vm_compute. reflexivity. Qed.

Lemma server_ex_fits : diffs_fit (n_pages (server_with older_ex newer_ex) !!! 2).
Proof.
  set (pg := n_pages _ !!! 2). assert (E : p_wn pg = two_notices (diff_of older_ex)) by (vm_compute; reflexivity).
  split.
  - intros pid w a d Hw Hd. unfold wn_list in Hw. rewrite E in Hw. unfold two_notices in Hw.
    destruct (decide (pid = 1)) as [->|Hn]; [|rewrite lookup_singleton_ne in Hw by done; by apply elem_of_nil in Hw].
    rewrite lookup_singleton_eq in Hw. cbn [default] in Hw. apply elem_of_cons in Hw as [->|Hw]; [done|].
    apply list_elem_of_singleton in Hw as ->. injection Hd as <- <-. split; [reflexivity|vm_compute; discriminate].
  - intros t Ht. assert (Et : p_twin pg = Some newer_ex.2) by (vm_compute; reflexivity). rewrite Et in Ht. injection Ht as <-.
    split_and!; vm_compute; (reflexivity || discriminate).
Qed.

Lemma diffs_delivered_witness :
  let answer := Reply 32 (diff_of older_ex ++ diff_of newer_ex) in
  exists server' gs,
    Tmk_diff_sigio_handler (Request 32 0 REQ_DIFF 2 [] (two_entries ≫= pairs_of)) (server_with older_ex newer_ex) = Ok (tt, server') /\
    n_out server' = map (SendRep 0) (replies 32 gs) /\ concat gs = [diff_of older_ex; diff_of newer_ex] /\
    (n_events (requester_ex [EvRep answer []]) = map (fun r => EvRep r []) (replies 32 gs) ++ [] ->
     exists reader', apply_diffs (signals := no_signals) 2 1 32 two_entries None (requester_ex [EvRep answer []]) = Ok (tt, reader') /\
       p_mem (n_pages reader' !!! 2) = [10; 20; 30; 4]).
Proof.
  intros answer.
  destruct (@diffs_delivered no_signals (server_with older_ex newer_ex) (requester_ex [EvRep answer []]) 0 1 2 32 [] 4
    two_entries [older_ex; newer_ex] []) as (server' & gs & R & O & C & _ & _ & D).
  - discriminate.
  - exact server_ex_fits.
  - repeat constructor; vm_compute; reflexivity.
  - split; vm_compute; reflexivity.
  - unfold version_ok, is_word, is_u32. repeat constructor; cbn; lia.
  - exists server', gs. split; [exact R|]. split; [exact O|]. split; [exact C|]. intros He.
    destruct (D He) as (reader' & R' & M & _). exists reader'. split; [exact R'|]. rewrite M. vm_compute. reflexivity.
Defined.
