(* ===== verification/Handshake.v ===== *)
(** * Connecting all processes

    [Tmk_startup] connects every pair of processes in both directions.  Each
    process does so in a fixed order, waiting at every step for one other, and
    process 0 creates each of the others in the middle of its own sequence.
    That no waiting is in vain is a property of all the sequences together. *)
From stdpp Require Import sorting.
From S2P Require Import Prelude State Rpc Startup.
Local Open Scope Z_scope.

(** ** The sequence of a process *)
Inductive call : Type := Accept (i : Z) | Connect (i : Z).
#[export] Instance call_eq_dec : EqDecision call.
Proof. solve_decision. Defined.

Definition script (n p : Z) : list call :=
  (seqZ 0 p ≫= fun i => [Connect i; Accept i]) ++ (seqZ (p + 1) (n - p - 1) ≫= fun i => [Accept i; Connect i]).

Section Calls.
Context {signals : Signals}.

Definition do_call (c : call) : Proc unit :=
  match c with Accept i => Tmk_accept i | Connect i => Tmk_connect i end.

Lemma for_each_pairs (f g : Z -> call) l s :
  for_each do_call (l ≫= fun i => [f i; g i]) s = for_each (fun i => do_call (f i);; do_call (g i)) l s.
Proof.
  revert s. induction l as [|i l IH]; intros s; [done|]. cbn. unfold mbind, M_bind in *.
  destruct (do_call (f i) s) as [[[] s1]| | |]; [|done..].
  destruct (do_call (g i) s1) as [[[] s2]| | |]; [apply IH|done..].
Qed.

(** [connect_all] is this sequence. *)
Lemma connect_all_script s : connect_all s = for_each do_call (script (nprocs (n_conf s)) (proc_id (n_conf s))) s.
Proof.
  unfold connect_all, script. rewrite (bind_Ok config _ s (n_conf s) s eq_refl), for_each_app.
  unfold mbind, M_bind. rewrite for_each_pairs.
  change (fun i => do_call (Connect i);; do_call (Accept i)) with (fun i : Z => Tmk_connect i;; Tmk_accept i).
  unfold mbind, M_bind. destruct (for_each _ _ s) as [[[] s1]| | |]; [|done..]. by rewrite for_each_pairs.
Qed.
End Calls.

(** ** All processes together

    [rem p] is what process [p] still has to do.  A call of [Tmk_accept]
    returns when the other process has sent its request: when it is at its
    call of [Tmk_connect], or past it.  A call of [Tmk_connect] returns when
    the other has answered: when its call of [Tmk_accept] is behind it.  The
    sockets that requests arrive at exist from the beginning, so an early one
    waits, and a lost one is sent again.  Process 0 has created process [j]
    when it is about to accept it. *)
Section System.
Context (n : Z).

Definition system : Type := Z -> list call.

Definition done_with (st : system) (p : Z) (c : call) : Prop := c ∉ st p.
Definition reached (st : system) (p : Z) (c : call) : Prop := head (st p) = Some c \/ done_with st p c.
Definition created (st : system) (j : Z) : Prop := j = 0 \/ reached st 0 (Accept j).

Inductive returns_at (st : system) (p : Z) : call -> Prop :=
  | ReturnsAccept i : created st i -> reached st i (Connect p) -> returns_at st p (Accept i)
  | ReturnsConnect i : done_with st i (Accept p) -> returns_at st p (Connect i).

Inductive step (st : system) : system -> Prop :=
  | Step p c l : 0 <= p < n -> st p = c :: l -> created st p -> returns_at st p c ->
      step st (fun q => if decide (q = p) then l else st q).

Definition starting : system := fun p => if (0 <=? p) && (p <? n) then script n p else [].

(** ** An order for all calls

    The pairs in the order in which process 0 creates the larger one, and for
    the same larger one by the smaller; every process works along it. *)
Definition partner (c : call) : Z := match c with Accept i | Connect i => i end.
Definition pair_key (p q : Z) : Z := Z.max p q * n + Z.min p q.
Definition second (p : Z) (c : call) : Z :=
  match c with
  | Accept i => if p <? i then 0 else 1
  | Connect i => if p <? i then 1 else 0
  end.
Definition key (p : Z) (c : call) : Z := 2 * pair_key p (partner c) + second p c.

Lemma second_range p c : 0 <= second p c <= 1.
Proof. unfold second. destruct c; destruct (p <? _); lia. Qed.

Lemma pair_key_lt p i j : 0 <= p < n -> 0 <= i < j -> j < n -> pair_key p i < pair_key p j \/ j = p.
Proof.
  intros Hp Hi Hj. unfold pair_key. destruct (Z.lt_trichotomy j p) as [H|[H|H]]; [left|by right|left].
  - rewrite !Z.max_l, !Z.min_r by lia. lia.
  - rewrite (Z.max_r p j), (Z.min_l p j) by lia. destruct (Z.le_gt_cases i p).
    + rewrite Z.max_l, Z.min_r by lia. nia.
    + rewrite Z.max_r, Z.min_l by lia. nia.
Qed.

Abbreviation ordered p := (StronglySorted (fun c d => key p c < key p d)).

Lemma ordered_pairs p (f g : Z -> call) l : 0 <= p < n ->
  (forall i, i ∈ l -> partner (f i) = i /\ partner (g i) = i /\ second p (f i) = 0 /\ second p (g i) = 1) ->
  StronglySorted (fun i j => pair_key p i < pair_key p j) l -> ordered p (l ≫= fun i => [f i; g i]).
Proof.
  intros Hp Hl Hs. induction Hs as [|i l Hs IH Hi]; [constructor|].
  destruct (Hl i ltac:(by left)) as (Pf & Pg & Sf & Sg).
  assert (Hrest : forall c, c ∈ (l ≫= fun i => [f i; g i]) -> key p (g i) < key p c).
  { intros c Hc. apply list_elem_of_bind in Hc as (j & Hc & Hj). rewrite Forall_forall in Hi. specialize (Hi j Hj).
    destruct (Hl j ltac:(by right)) as (Pf' & Pg' & _ & _). unfold key. rewrite Pg, Sg. pose proof (second_range p c).
    assert (partner c = j) as -> by (apply elem_of_cons in Hc as [->|Hc]; [done|by apply list_elem_of_singleton in Hc as ->]). lia. }
  assert (Hfg : key p (f i) < key p (g i)) by (unfold key; rewrite Pf, Pg, Sf, Sg; lia).
  cbn. constructor; [constructor|]; [apply IH; intros; apply Hl; by right| |].
  - rewrite Forall_forall. exact Hrest.
  - constructor; [done|]. rewrite Forall_forall. intros c Hc. specialize (Hrest c Hc). lia.
Qed.

Lemma seqZ_sorted (R : Z -> Z -> Prop) m : 0 <= m -> forall a, (forall i j, a <= i < j -> j < a + m -> R i j) ->
  StronglySorted R (seqZ a m).
Proof.
  intros Hm. pattern m. apply natlike_ind; [intros; constructor| |done]. clear m Hm. intros m Hm IH a H.
  rewrite seqZ_cons, Z.pred_succ by lia. constructor.
  - apply IH. intros i j Hi Hj. apply H; lia.
  - rewrite Forall_forall. intros j Hj. apply elem_of_seqZ in Hj. apply H; lia.
Qed.

Lemma script_calls p c : 0 <= p < n -> c ∈ script n p <-> 0 <= partner c < n /\ partner c <> p.
Proof.
  intros Hp. unfold script. rewrite elem_of_app, !list_elem_of_bind. split.
  - intros [(i & Hc & Hi)|(i & Hc & Hi)]; apply elem_of_seqZ in Hi;
      apply elem_of_cons in Hc as [->|Hc]; try (apply list_elem_of_singleton in Hc as ->); cbn; lia.
  - intros [H1 H2]. destruct (Z.lt_ge_cases (partner c) p); [left|right]; exists (partner c);
      (split; [destruct c; cbn; set_solver|apply elem_of_seqZ; lia]).
Qed.

Lemma second_lt p c : partner c < p -> second p c = match c with Connect _ => 0 | Accept _ => 1 end.
Proof. unfold second. destruct c as [i|i]; cbn; intros H; by rewrite (proj2 (Z.ltb_ge p i)) by lia. Qed.
Lemma second_gt p c : p < partner c -> second p c = match c with Connect _ => 1 | Accept _ => 0 end.
Proof. unfold second. destruct c as [i|i]; cbn; intros H; by rewrite (proj2 (Z.ltb_lt p i)). Qed.

Lemma script_ordered p : 0 <= p < n -> ordered p (script n p).
Proof.
  intros Hp. unfold script.
  assert (Hlt : forall i j, 0 <= i < j -> j < n -> j <> p -> pair_key p i < pair_key p j)
    by (intros i j Hi Hj Hne; by destruct (pair_key_lt p i j Hp Hi Hj)).
  apply StronglySorted_app_2.
  - intros c d Hc Hd. apply list_elem_of_bind in Hc as (i & Hc & Hi), Hd as (j & Hd & Hj).
    apply elem_of_seqZ in Hi, Hj.
    assert (partner c = i) by (apply elem_of_cons in Hc as [->|Hc]; [done|by apply list_elem_of_singleton in Hc as ->]).
    assert (partner d = j) by (apply elem_of_cons in Hd as [->|Hd]; [done|by apply list_elem_of_singleton in Hd as ->]).
    pose proof (Hlt i j ltac:(lia) ltac:(lia) ltac:(lia)). pose proof (second_range p c). pose proof (second_range p d).
    unfold key. subst. lia.
  - apply (ordered_pairs p Connect Accept); [done| |apply seqZ_sorted; [lia|]; intros; apply Hlt; lia].
    intros i Hi. apply elem_of_seqZ in Hi. split_and!; [done..|by rewrite second_lt by (cbn; lia)|by rewrite second_lt by (cbn; lia)].
  - apply (ordered_pairs p Accept Connect); [done| |apply seqZ_sorted; [lia|]; intros; apply Hlt; lia].
    intros i Hi. apply elem_of_seqZ in Hi. split_and!; [done..|by rewrite second_gt by (cbn; lia)|by rewrite second_gt by (cbn; lia)].
Qed.

(** ** What is left of a sequence *)
Definition inv (st : system) : Prop :=
  forall p, if decide (0 <= p < n) then exists pre, script n p = pre ++ st p else st p = [].

Lemma inv_suffix st p c l : inv st -> st p = c :: l -> 0 <= p < n /\ exists pre, script n p = pre ++ c :: l.
Proof. intros I E. specialize (I p). rewrite E in I. by case_decide. Qed.

Lemma ordered_inv p pre c l : ordered p (pre ++ c :: l) ->
  (forall d, d ∈ pre -> key p d < key p c) /\ (forall d, d ∈ l -> key p c < key p d).
Proof.
  induction pre as [|x pre IH]; cbn; intros H; apply StronglySorted_inv in H as [H Hx]; rewrite Forall_forall in Hx.
  - split; [intros d Hd; by apply elem_of_nil in Hd|done].
  - destruct (IH H) as [H1 H2]. split; [|done]. intros d Hd. apply elem_of_cons in Hd as [->|Hd]; [|by apply H1].
    apply Hx, elem_of_app. right. by left.
Qed.

(** The calls that are left are those that do not come before the next. *)
Lemma left_iff st p c l d : inv st -> st p = c :: l -> d ∈ script n p ->
  (key p d < key p c -> done_with st p d) /\ (d ∈ st p -> d = c \/ key p c < key p d).
Proof.
  intros I E Hd. destruct (inv_suffix st p c l I E) as (Hp & pre & Es).
  pose proof (script_ordered p Hp) as Ho. rewrite Es in Ho. destruct (ordered_inv p pre c l Ho) as [H1 H2].
  split.
  - intros Hk Hin. rewrite E in Hin. apply elem_of_cons in Hin as [->|Hin]; [lia|]. specialize (H2 d Hin). lia.
  - rewrite E. intros Hin. apply elem_of_cons in Hin as [->|Hin]; [by left|right; by apply H2].
Qed.

(** ** Somebody can always go on *)
Section Progress.
Context (st : system) (K : Z).
Context (I : inv st).

(** Nobody is before the pair [K]. *)
Context (Hmin : forall q c l, st q = c :: l -> K <= pair_key q (partner c)).

Lemma early_reached q c : c ∈ script n q -> key q c <= 2 * K -> reached st q c.
Proof.
  intros Hc Hk. unfold reached. destruct (st q) as [|d l] eqn:E; [right; unfold done_with; rewrite E; apply not_elem_of_nil|].
  destruct (decide (c ∈ st q)) as [Hin|Hn]; [|by right]. left.
  destruct (proj2 (left_iff st q d l c I E Hc) Hin) as [->|Hlt]; [done|exfalso].
  pose proof (Hmin q d l E). pose proof (second_range q d). unfold key in *. lia.
Qed.

Lemma everyone_created p q : 0 <= p < n -> 0 <= q < n -> p <> q -> pair_key p q = K -> created st p.
Proof.
  intros Hp Hq Hpq HK. destruct (decide (p = 0)) as [->|Hn]; [by left|right].
  apply early_reached; [apply script_calls; cbn; lia|]. unfold key. rewrite second_gt by (cbn; lia). cbn [partner].
  unfold pair_key in *. nia.
Qed.

(** Where a process is in the pair [K]: before, between or after its calls. *)
Lemma pair_position q p (c1 c2 : call) : 0 <= q < n -> 0 <= p < n -> p <> q -> pair_key q p = K ->
  partner c1 = p -> partner c2 = p -> second q c1 = 0 -> second q c2 = 1 ->
  (exists l, st q = c1 :: l) \/ (done_with st q c1 /\ exists l, st q = c2 :: l) \/ (done_with st q c1 /\ done_with st q c2).
Proof.
  intros Hq Hp Hne HK P1 P2 S1 S2.
  assert (In1 : c1 ∈ script n q) by (apply script_calls; [done|rewrite P1; lia]).
  assert (In2 : c2 ∈ script n q) by (apply script_calls; [done|rewrite P2; lia]).
  destruct (early_reached q c1 In1) as [Hh|Hd1]; [unfold key; rewrite P1, S1; lia| |].
  - left. destruct (st q) as [|x l]; [done|]. injection Hh as ->. by exists l.
  - right. destruct (decide (c2 ∈ st q)) as [Hin|]; [left|by right]. split; [done|].
    destruct (st q) as [|d l] eqn:E; [by apply elem_of_nil in Hin|]. exists l. f_equal.
    rewrite <- E in Hin. destruct (proj2 (left_iff st q d l c2 I E In2) Hin) as [->|Hlt]; [done|exfalso].
    pose proof (Hmin q d l E) as Hd. pose proof (second_range q d) as Hs.
    destruct (left_iff st q d l c1 I E In1) as [_ H1].
    assert (Hd1k : key q d <= key q c1) by (unfold key in *; rewrite ?P1, ?P2, ?S1, ?S2 in *; lia).
    destruct (decide (c1 = d)) as [->|Hcd]; [apply Hd1; rewrite E; by left|].
    assert (key q c1 <> key q d); [|unfold key in *; rewrite ?P1, ?P2, ?S1, ?S2 in *; lia].
    intros Ek. destruct (inv_suffix st q d l I E) as (_ & pre & Es).
    pose proof (script_ordered q Hq) as Ho. rewrite Es in Ho. destruct (ordered_inv q pre d l Ho) as [O1 O2].
    rewrite Es in In1. apply elem_of_app in In1 as [Hx|Hx]; [specialize (O1 _ Hx); lia|].
    apply elem_of_cons in Hx as [Hx|Hx]; [done|]. specialize (O2 _ Hx). lia.
Qed.

Lemma pair_goes_on p q c l : st p = c :: l -> partner c = q -> pair_key p q = K ->
  exists p' c' l', 0 <= p' < n /\ st p' = c' :: l' /\ created st p' /\ returns_at st p' c'.
Proof.
  intros E Hc HK. destruct (inv_suffix st p c l I E) as (Hp & pre & Es).
  assert (Hq : 0 <= q < n /\ q <> p).
  { rewrite <- Hc. apply script_calls; [done|]. rewrite Es. apply elem_of_app. right. by left. }
  destruct Hq as [Hq Hne]. assert (HK' : pair_key q p = K) by (unfold pair_key in *; rewrite Z.max_comm, Z.min_comm; done).
  pose proof (everyone_created p q Hp Hq ltac:(done) HK) as Cp.
  pose proof (everyone_created q p Hq Hp ltac:(done) HK') as Cq.
  assert (Hbefore : forall d, partner d = q -> second p d < second p c -> done_with st p d).
  { intros d Hd Hs. apply (left_iff st p c l d I E); [apply script_calls; [done|rewrite Hd; lia]|]. unfold key. rewrite Hc, Hd. lia. }
  assert (Hhere : reached st p c) by (left; by rewrite E).
  assert (go_p : returns_at st p c -> exists p' c' l', 0 <= p' < n /\ st p' = c' :: l' /\ created st p' /\ returns_at st p' c')
    by (intros R; by exists p, c, l).
  assert (go_q : forall d l', st q = d :: l' -> returns_at st q d ->
    exists p' c' l', 0 <= p' < n /\ st p' = c' :: l' /\ created st p' /\ returns_at st p' c')
    by (intros d l' Ed R; by exists q, d, l').
  destruct (Z.lt_ge_cases p q) as [Hlt|Hge].
  - assert (S1 : second q (Connect p) = 0) by (by rewrite second_lt by (cbn; lia)).
    assert (S2 : second q (Accept p) = 1) by (by rewrite second_lt by (cbn; lia)).
    destruct (pair_position q p (Connect p) (Accept p) Hq Hp ltac:(done) HK' eq_refl eq_refl S1 S2)
      as [[l' Eq]|[[D1 [l' Eq]]|[D1 D2]]]; destruct c as [i|i]; cbn in Hc; subst i.
    + apply go_p. constructor; [done|]. left. by rewrite Eq.
    + apply (go_q _ _ Eq). constructor. apply Hbefore; [done|]. rewrite !second_gt by (cbn; lia). lia.
    + apply go_p. constructor; [done|]. by right.
    + apply (go_q _ _ Eq). by constructor.
    + apply go_p. constructor; [done|]. by right.
    + apply go_p. by constructor.
  - assert (S1 : second q (Accept p) = 0) by (by rewrite second_gt by (cbn; lia)).
    assert (S2 : second q (Connect p) = 1) by (by rewrite second_gt by (cbn; lia)).
    destruct (pair_position q p (Accept p) (Connect p) Hq Hp ltac:(done) HK' eq_refl eq_refl S1 S2)
      as [[l' Eq]|[[D1 [l' Eq]]|[D1 D2]]]; destruct c as [i|i]; cbn in Hc; subst i.
    + apply (go_q _ _ Eq). constructor; [done|]. right. apply Hbefore; [done|]. rewrite !second_lt by (cbn; lia). lia.
    + apply (go_q _ _ Eq). by constructor.
    + apply go_p. constructor; [done|]. left. by rewrite Eq.
    + apply go_p. by constructor.
    + apply go_p. constructor; [done|]. by right.
    + apply go_p. by constructor.
Qed.
End Progress.

Lemma list_least {A} (f : A -> Z) l : l <> [] -> exists x, x ∈ l /\ forall y, y ∈ l -> f x <= f y.
Proof.
  induction l as [|x l IH]; intros H; [done|]. destruct l as [|y l].
  - exists x. split; [by left|]. intros z Hz. by apply list_elem_of_singleton in Hz as ->.
  - destruct IH as (z & Hz & Hmin); [done|]. destruct (Z.le_gt_cases (f x) (f z)).
    + exists x. split; [by left|]. intros w Hw. apply elem_of_cons in Hw as [->|Hw]; [done|]. specialize (Hmin w Hw). lia.
    + exists z. split; [by right|]. intros w Hw. apply elem_of_cons in Hw as [->|Hw]; [lia|by apply Hmin].
Qed.

(** The next calls. *)
Definition heads (st : system) : list (Z * call) :=
  seqZ 0 n ≫= fun p => match st p with c :: _ => [(p, c)] | [] => [] end.

Lemma heads_spec st p c : inv st -> (p, c) ∈ heads st <-> exists l, st p = c :: l.
Proof.
  intros I. unfold heads. rewrite list_elem_of_bind. split.
  - intros (q & Hq & _). destruct (st q) as [|d l] eqn:E; [by apply elem_of_nil in Hq|].
    apply list_elem_of_singleton in Hq. injection Hq as -> ->. by exists l.
  - intros [l E]. exists p. rewrite E. split; [by left|]. apply elem_of_seqZ. destruct (inv_suffix st p c l I E). lia.
Qed.

Lemma progress st : inv st -> heads st <> [] -> exists st', step st st'.
Proof.
  intros I Hne. destruct (list_least (fun pc => pair_key pc.1 (partner pc.2)) (heads st) Hne) as ([p c] & Hpc & Hmin).
  apply heads_spec in Hpc as [l E]; [|done].
  destruct (pair_goes_on st (pair_key p (partner c)) I) with (p := p) (q := partner c) (c := c) (l := l)
    as (p' & c' & l' & Hp' & E' & C & R); try done.
  - intros q d l' Eq. apply (Hmin (q, d)). apply heads_spec; [done|]. by exists l'.
  - eexists. by apply (Step st p' c' l').
Qed.

(** ** Every run *)
Definition calls_left (st : system) : nat := sum_list_with (fun p => length (st p)) (seqZ 0 n).

Lemma inv_starting : inv starting.
Proof.
  intros p. unfold starting. case_decide as Hp.
  - assert ((0 <=? p) && (p <? n) = true) as -> by lia. by exists [].
  - by assert ((0 <=? p) && (p <? n) = false) as -> by lia.
Qed.

Lemma sum_step (st : system) p c l ps : st p = c :: l -> NoDup ps -> p ∈ ps ->
  sum_list_with (fun q => length (st q)) ps =
  S (sum_list_with (fun q => length (if decide (q = p) then l else st q)) ps).
Proof.
  intros E Hn Hp. induction Hn as [|x ps Hx Hn IH]; [by apply elem_of_nil in Hp|]. cbn.
  destruct (decide (x = p)) as [->|Hne].
  - rewrite E. cbn. f_equal. f_equal. clear IH Hp. induction ps as [|y ps IH]; [done|]. cbn.
    apply not_elem_of_cons in Hx as [Hy Hx]. apply NoDup_cons in Hn as [_ Hn]. rewrite decide_False by done. by rewrite IH.
  - apply elem_of_cons in Hp as [->|Hp]; [done|]. rewrite IH by done. lia.
Qed.

Lemma step_inv st st' : inv st -> step st st' -> inv st' /\ calls_left st = S (calls_left st').
Proof.
  intros I [p c l Hp E _ _]. split.
  - intros q. specialize (I q). destruct (decide (q = p)) as [->|Hn]; [|done]. rewrite E in I.
    rewrite decide_True in I |- * by done. destruct I as [pre Es]. exists (pre ++ [c]). by rewrite <- app_assoc.
  - unfold calls_left. apply (sum_step st p c l); [done|apply NoDup_seqZ|apply elem_of_seqZ; lia].
Qed.

Lemma calls_left_zero st : inv st -> calls_left st = O <-> forall p, st p = [].
Proof.
  intros I. unfold calls_left. split; intros H.
  - intros p. pose proof (I p) as Ip. case_decide as Hp; [|done]. assert (Hin : p ∈ seqZ 0 n) by (apply elem_of_seqZ; lia).
    revert H Hin. generalize (seqZ 0 n). intros ps. induction ps as [|x ps IH]; intros H Hin; [by apply elem_of_nil in Hin|].
    cbn in H. apply elem_of_cons in Hin as [->|Hin]; [apply length_zero_iff_nil; lia|apply IH; [lia|done]].
  - generalize (seqZ 0 n). intros ps. induction ps as [|x ps IH]; [done|]. cbn. by rewrite H.
Qed.

Lemma calls_left_starting : 1 <= n -> calls_left starting = Z.to_nat (2 * n * (n - 1)).
Proof.
  intros Hn. unfold calls_left. assert (Hs : forall p, 0 <= p < n -> length (starting p) = Z.to_nat (2 * (n - 1))).
  { intros p Hp. unfold starting. assert ((0 <=? p) && (p <? n) = true) as -> by lia. unfold script.
    assert (Hb : forall f : Z -> list call, (forall i, length (f i) = 2%nat) -> forall l, length (l ≫= f) = (2 * length l)%nat).
    { intros f Hf l. induction l as [|i l IH]; [done|]. cbn. rewrite length_app, Hf, IH. cbn. lia. }
    rewrite length_app, !Hb, !length_seqZ by done. lia. }
  assert (Hsum : forall ps, (forall p, p ∈ ps -> 0 <= p < n) ->
    sum_list_with (fun p => length (starting p)) ps = (length ps * Z.to_nat (2 * (n - 1)))%nat).
  { induction ps as [|p ps IH]; intros H; [done|]. cbn. rewrite Hs by (apply H; by left). rewrite IH; [done|].
    intros q Hq. apply H. by right. }
  rewrite Hsum by (intros p Hp; apply elem_of_seqZ in Hp; lia). rewrite length_seqZ. nia.
Qed.

Lemma run_inv k st st' : nsteps step k st st' -> inv st -> inv st' /\ calls_left st = (k + calls_left st')%nat.
Proof.
  induction 1 as [st|k st st1 st' Hs Hk IH]; intros I; [done|]. destruct (step_inv st st1 I Hs) as [I1 E1].
  destruct (IH I1) as [I' E']. split; [done|lia].
Qed.
End System.


