(* ===== verification/Departures.v ===== *)
(** * The manager's side of a barrier

    A barrier holds everybody back until the last process has arrived, and
    then lets all of them go with the same decision about repossession. *)
From S2P Require Import Prelude Pages PageLists PageSets State Rpc Twins Diffs Interval Repo Lock Barrier Sigio Frames Requests.
Local Open Scope Z_scope.

(** ** Waiting *)
Lemma spin_on_done `{Signals} busy evs : forall s s', spin_on evs busy s = Ok (tt, s') -> busy s' = false.
Proof.
  induction evs as [|ev evs IH]; intros s s' R; cbn [spin_on] in R;
    apply bind_inv in R as (b & s1 & [= <- <-] & R); (destruct (busy s) eqn:E; [|by injection R as <-]);
    apply bind_inv in R as ([] & s2 & _ & R); apply bind_inv in R as (b & s3 & [= <- <-] & R);
    (destruct (busy s2) eqn:E2; [|by injection R as <-]).
  - done.
  - apply bind_inv in R as ([] & s4 & _ & R). apply bind_inv in R as ([] & s5 & _ & R). by eapply IH.
Qed.

Lemma spin_done `{Signals} busy s s' : spin busy s = Ok (tt, s') -> busy s' = false.
Proof. intros R. apply bind_inv in R as (evs & s1 & _ & R). by eapply spin_on_done. Qed.

(** The options do not change while a process waits, and what has been sent
    stays sent. *)
Definition same_conf (s s' : node) : Prop := n_conf s' = n_conf s.
#[export] Instance same_conf_preorder : PreOrder same_conf.
Proof. split; [by intros s|]. intros s1 s2 s3 H1 H2. unfold same_conf in *. congruence. Qed.

Lemma same_conf_handle r : keeps same_conf (handle_request r).
Proof.
  unfold handle_request. keeps_bind; [by apply keeps_gets; preorder|]. keeps_bind; [|keeps_bind; by apply keeps_modify].
  destruct (_ <? _).
  - keeps_bind; [by apply keeps_modify|]. keeps_bind.
    + destruct (sigio_buffer_hold _); [|by apply keeps_ret; preorder]. keeps_bind; by apply keeps_modify.
    + intros s b s' R. apply handler_steady in R. apply R.
  - intros s b s' R. apply duplicate_handler_steady in R. apply R.
Qed.

Lemma same_conf_from j : keeps same_conf (handle_from j).
Proof.
  unfold handle_from. keeps_bind.
  - intros s a s' R. unfold dequeue in R. by destruct (default [] _); injection R as _ <-.
  - destruct a; [apply same_conf_handle|]. by apply keeps_ret; preorder.
Qed.

Lemma same_conf_sigio : keeps same_conf sigio.
Proof.
  unfold sigio. keeps_bind; [by apply keeps_gets; preorder|]. generalize (S a). intros n.
  induction n as [|n IH]; cbn [sigio_loop]; [done|]. keeps_bind; [by apply keeps_gets; preorder|].
  destruct a0; [by apply keeps_ret; preorder|]. keeps_bind; [|done].
  apply keeps_for_each; [apply _|]. intros; apply same_conf_from.
Qed.

Lemma spin_conf busy : keeps same_conf (spin busy).
Proof.
  unfold spin. keeps_bind; [by apply keeps_gets; preorder|]. induction a as [|ev evs IH]; cbn [spin_on];
    (keeps_bind; [by apply keeps_gets; preorder|]; destruct a; [|by apply keeps_ret; preorder];
     keeps_bind; [apply same_conf_sigio|]; keeps_bind; [by apply keeps_gets; preorder|];
     destruct a0; [|by apply keeps_ret; preorder]); [done|].
  keeps_bind; [by apply keeps_modify|]. keeps_bind; [|apply IH].
  destruct ev; try (by apply keeps_ret; preorder). by apply keeps_modify.
Qed.

(** ** Everybody has arrived *)
Lemma spinmask_eq c : 1 <= nprocs c <= NPROCS -> Tmk_spinmask c = 2 ^ nprocs c - 1.
Proof.
  intros H. unfold NPROCS in H. unfold Tmk_spinmask.
  assert (Hk : exists k, nprocs c = Z.of_nat k /\ (k < 33)%nat) by (exists (Z.to_nat (nprocs c)); lia).
  destruct Hk as (k & E & Hk). rewrite E in *. clear E. do 33 (destruct k as [|k]; [first [lia|vm_compute; reflexivity]|]). lia.
Qed.

Lemma full_mask c m j : 1 <= nprocs c <= NPROCS -> Z.lxor m (Tmk_spinmask c) = 0 ->
  0 <= j -> Z.testbit m j = (j <? nprocs c).
Proof.
  intros Hc Hm Hj. rewrite spinmask_eq in Hm by done. apply Z.lxor_eq in Hm as ->.
  replace (2 ^ nprocs c - 1) with (Z.ones (nprocs c)) by (rewrite Z.ones_equiv; lia).
  destruct (Z.ltb_spec j (nprocs c)); [rewrite Z.ones_spec_low by lia|rewrite Z.ones_spec_high by lia]; done.
Qed.

(** ** Letting them go *)

Lemma frame_held `{Frame R} self j : keeps (at_self self R) (held_request j).
Proof. intros s a s' E. unfold held_request in E. destruct (n_req_from s !! j); [by injection E as _ <-|done]. Qed.
#[export] Hint Resolve frame_held : keeps.

(** The message to [j], which answers the request held from [j]. *)
Definition departure (s : node) (j : Z) (r : request) : sent :=
  SendRep j (Reply (rq_seqno r) (n_bar_repo s :: Tmk_interval_request s (rq_vt r))).

(** The variables that [depart] does not change. *)
Definition bar_same (s s' : node) : Prop :=
  n_conf s' = n_conf s /\ n_procs s' = n_procs s /\ n_bar_repo s' = n_bar_repo s /\
  n_req_from s' = n_req_from s /\ n_barriers s' = n_barriers s /\ n_pages s' = n_pages s.

Lemma interval_request_same s s' vt : n_conf s' = n_conf s -> n_procs s' = n_procs s ->
  Tmk_interval_request s' vt = Tmk_interval_request s vt.
Proof.
  intros Hc Hp. unfold Tmk_interval_request, Tmk_interval_request_proc, intervals_of. by rewrite Hc, Hp.
Qed.

Lemma depart_run j s s' : depart j s = Ok (tt, s') ->
  exists r, n_req_from s !! j = Some r /\ n_out s' = n_out s ++ [departure s j r] /\
    n_tos s' = n_tos s - 1 /\ bar_same s s'.
Proof.
  intros R. apply bind_inv in R as (r & s1 & R1 & R). unfold held_request in R1.
  destruct (n_req_from s !! j) as [r0|] eqn:E; [|done]. injection R1 as -> <-.
  exists r. split; [done|]. apply bind_inv in R as ([] & s2 & [= <-] & R). injection R as <-. done.
Qed.

Lemma departs_run l : forall s s', for_each depart l s = Ok (tt, s') ->
  exists rs, Forall2 (fun j r => n_req_from s !! j = Some r) l rs /\
    n_out s' = n_out s ++ zip_with (departure s) l rs /\
    n_tos s' = n_tos s - Z.of_nat (length l) /\ bar_same s s'.
Proof.
  induction l as [|j l IH]; intros s s' R.
  { injection R as <-. exists []. split_and!; [by apply Forall2_nil|by rewrite app_nil_r|cbn; lia|done]. }
  cbn [for_each] in R. apply bind_inv in R as ([] & s1 & R1 & R).
  destruct (depart_run j s s1 R1) as (r & Hr & O1 & T1 & C1 & P1 & B1 & F1 & M1 & G1).
  destruct (IH s1 s' R) as (rs & Hrs & O2 & T2 & C2 & P2 & B2 & F2 & M2 & G2).
  exists (r :: rs). rewrite F1 in Hrs. split_and!.
  - by constructor.
  - rewrite O2, O1, <- app_assoc. cbn. do 2 f_equal. apply zip_with_ext; [|done..].
    intros j' r'. unfold departure. by rewrite B1, (interval_request_same _ _ _ C1 P1).
  - cbn [length]. lia.
  - split_and!; congruence.
Qed.

(** The stages of the manager's side. *)
Lemma barrier_master_run id repo s s' :
  1 <= nprocs (n_conf s) <= NPROCS -> barrier_master id repo s = Ok (tt, s') ->
  exists s2 s3 s4 rs,
    for_each (early_arrival id) (others_of (n_conf s)) (set_n_bar_repo (bool_to_Z repo) s) = Ok (tt, s2) /\
    set_mask id (fun m => Z.lor m (bit (proc_id (n_conf s)))) s2 = Ok (tt, s3) /\
    spin (fun s => negb (Z.lxor (b_mask (n_barriers s !!! id)) (Tmk_spinmask (n_conf s)) =? 0)) s3 = Ok (tt, s4) /\
    (forall j, 0 <= j -> Z.testbit (b_mask (n_barriers s4 !!! id)) j = (j <? nprocs (n_conf s))) /\
    Forall2 (fun j r => n_req_from s4 !! j = Some r) (others_of (n_conf s)) rs /\
    n_out s' = n_out s4 ++ zip_with (fun j r => SendRep j (Reply (rq_seqno r)
                             (n_bar_repo s' :: Tmk_interval_request s4 (rq_vt r)))) (others_of (n_conf s)) rs /\
    b_mask (n_barriers s' !!! id) = 0 /\
    n_tos s' = n_tos s4 - Z.of_nat (length (others_of (n_conf s))).
Proof.
  intros Hn R. unfold barrier_master in R. apply bind_inv in R as (c & s0 & [= <- <-] & R).
  set (c := n_conf s) in *.
  apply bind_inv in R as ([] & s1 & [= <-] & R). apply bind_inv in R as ([] & s2 & R2 & R).
  apply bind_inv in R as ([] & s3 & R3 & R). apply bind_inv in R as ([] & s4 & R4 & R).
  apply bind_inv in R as ([] & s5 & R5 & R). apply bind_inv in R as ([] & s6 & R6 & R7).
  assert (C4 : n_conf s4 = c).
  { apply spin_conf in R4. assert (E2 : n_conf s2 = c).
    { assert (K : keeps steady (for_each (early_arrival id) (others_of c))).
      { apply keeps_for_each; [apply _|]. intros j. unfold early_arrival. keeps. }
      apply K in R2. destruct R2 as (_ & _ & _ & E). exact E. }
    assert (E3 : n_conf s3 = n_conf s2) by (apply steady_set_mask in R3; apply R3). congruence. }
  pose proof R4 as R4'. apply spin_done in R4. rewrite C4 in R4. apply negb_false_iff, Z.eqb_eq in R4.
  unfold set_mask in R5. destruct (_ && _) eqn:Hid; [|done]. injection R5 as <-.
  destruct (departs_run _ _ _ R6) as (rs & Hrs & O & T & C & P & B & F & M & G).
  assert (S7 : n_out s' = n_out s6 /\ n_tos s' = n_tos s6 /\ n_bar_repo s' = n_bar_repo s6 /\ n_barriers s' = n_barriers s6).
  { unfold on_pages in R7. destruct (Tmk_page_inval_perform (n_pages s6)) as [[[] m]| | |]; try done. by injection R7 as <-. }
  destruct S7 as (O7 & T7 & B7 & M7). exists s2, s3, s4, rs. split_and!; [exact R2|exact R3|exact R4'|..].
  - intros j Hj. by apply full_mask.
  - exact Hrs.
  - rewrite O7, O. f_equal. apply zip_with_ext; [|done..]. intros j r. unfold departure. by rewrite B7, B.
  - rewrite M7, M. cbn. by rewrite lookup_total_insert_eq.
  - by rewrite T7, T.
Qed.


(** Process 1 has arrived at barrier 0, the manager arrives, and then process 2. *)
Definition arrival_ex (seqno j : Z) : request := Request seqno j REQ_ARRIVAL 0 vt_zero [].
Definition barrier_ex : node :=
  set_n_events [EvIntr; EvReq 2 (arrival_ex 34 2)]
    (set_n_req_from {[ 1 := arrival_ex 33 1 ]} (set_n_barriers {[ 0 := Barrier 0 2 ]}
      (set_n_pages empty_lists (zero_node (Conf 0 3 4096 8 0))))).

