(* ===== verification/BarrierTimes.v ===== *)
(** * What every process knows after a barrier

    The vector times say which intervals a process has got.  A barrier joins
    them: the arrivals bring the manager every process's own intervals, and a
    departure brings a process all that the manager has. *)
From S2P Require Import Prelude Pages PageLists PageSets State Rpc Twins Diffs Interval IntervalWire IntervalEffect Repo Lock Barrier Sched Sigio Frames Requests LockRefine Departures.
Local Open Scope Z_scope.

(** ** A message of intervals joins the times *)

(** The times are those of the last intervals that have been kept; before the
    first one they are those of [base], when the intervals were last
    discarded. *)
Definition recorded (base : vtime) (s : node) (i : Z) : Prop :=
  vt_get (n_vt s) i = default (vt_get base i) ((fun iv => vt_get (iv_vt iv) i) <$> last (intervals_of s i)).

Lemma accept_time i ivs : forall l t m, t <= m -> (forall iv, iv ∈ ivs -> vt_get (iv_vt iv) i <= m) ->
  (t < m -> exists iv, iv ∈ ivs /\ vt_get (iv_vt iv) i = m) ->
  (fold_left (accept_step i) ivs (l, t)).2 = m.
Proof.
  induction ivs as [|x ivs IH]; intros l t m Ht Hle Hm; cbn [fold_left].
  - cbn. destruct (Z.lt_ge_cases t m) as [H|H]; [|lia]. destruct (Hm H) as (iv & Hiv & _). by apply elem_of_nil in Hiv.
  - pose proof (Hle x ltac:(by left)) as Hx. unfold accept_step at 2. cbn [fst snd].
    destruct (Z.ltb_spec t (vt_get (iv_vt x) i)); (apply IH; [lia|intros iv Hiv; apply Hle; by right|]); intros Hlt.
    + destruct Hm as (iv & Hiv & E); [lia|]. apply elem_of_cons in Hiv as [->|Hiv]; [lia|by exists iv].
    + destruct (Hm Hlt) as (iv & Hiv & E). apply elem_of_cons in Hiv as [->|Hiv]; [lia|by exists iv].
Qed.

(** The intervals that the other process lacks end with the sender's time. *)
Lemma lacking_time base s i t iv : sender_ok s -> recorded base s i -> vt_get base i <= t ->
  iv ∈ filter (is_new i t) (intervals_of s i) -> vt_get (iv_vt iv) i <= vt_get (n_vt s) i.
Proof.
  intros Hok Hr Hb [_ Hiv]%list_elem_of_filter. rewrite Hr. apply list_elem_of_lookup in Hiv as [k Hk].
  destruct (last (intervals_of s i)) as [x|] eqn:E.
  - apply last_Some in E as [l' E]. cbn. rewrite E in Hk. pose proof (snd_ordered _ Hok i) as Ho. rewrite E in Ho.
    destruct (decide (k = length l')) as [->|Hne].
    + rewrite lookup_app_r in Hk by lia. rewrite Nat.sub_diag in Hk. by injection Hk as <-.
    + pose proof (lookup_lt_Some _ _ _ Hk) as Hlt. rewrite length_app in Hlt. cbn in Hlt.
      assert (vt_get (iv_vt iv) i < vt_get (iv_vt x) i); [|lia]. apply (Ho k (length l')); [lia|done|].
      rewrite lookup_app_r by lia. by rewrite Nat.sub_diag.
  - apply last_None in E. by rewrite E in Hk.
Qed.

Lemma lacking_newest base s i t : recorded base s i -> vt_get base i <= t -> t < vt_get (n_vt s) i ->
  exists iv, iv ∈ filter (is_new i t) (intervals_of s i) /\ vt_get (iv_vt iv) i = vt_get (n_vt s) i.
Proof.
  intros Hr Hb Ht. unfold recorded in Hr. destruct (last (intervals_of s i)) as [x|] eqn:E; cbn in Hr; [|lia].
  exists x. split; [|by rewrite Hr]. apply list_elem_of_filter. split; [unfold is_new; lia|].
  apply last_Some in E as [l' ->]. apply elem_of_app. right. by left.
Qed.

(** The receiver's times after a message made for its time. *)
Lemma incorporate_joins base s1 v s2 s2' i : sender_ok s1 -> recorded base s1 i -> i ∈ procs_of (n_conf s1) ->
  vt_get base i <= vt_get (n_vt s2) i ->
  0 <= proc_id (n_conf s2) -> i <> proc_id (n_conf s2) -> Z.of_nat (length (n_vt s2)) = NPROCS ->
  Tmk_interval_incorporate (Tmk_interval_request s1 (n_vt s2)) v s2 = Ok (tt, s2') ->
  vt_get (n_vt s2') i = Z.max (vt_get (n_vt s2) i) (vt_get (n_vt s1) i).
Proof.
  intros Hok Hr Hi Hb Hself Hne Hl R. pose proof (snd_nprocs _ Hok). pose proof Hi as Hi'. apply elem_of_seqZ in Hi'.
  rewrite request_encode in R by done.
  pose proof (incorporate_encoded _ v s2 s2' i (lacking_ok s1 (n_vt s2) Hok) ltac:(lia) Hself Hne Hl R) as D.
  rewrite lacking_of in D by done. apply (f_equal snd) in D. cbn [data_of snd] in D. rewrite D. unfold data_of.
  apply accept_time; [lia| |].
  - intros iv Hiv. apply (lacking_time base) in Hiv; [lia|done..].
  - intros Hlt. rewrite Z.max_r by lia. by apply (lacking_newest base); [| |lia].
Qed.

Lemma fmap_bind {A B C} (f : A -> B) (g : B -> list C) l : (f <$> l) ≫= g = l ≫= fun x => g (f x).
Proof. induction l as [|x l IH]; [done|]. cbn [fmap list_fmap mbind list_bind]. by rewrite <- IH. Qed.

(** The intervals of one process that are newer than [time]. *)
Lemma request_proc_encode s j time : sender_ok s -> 0 <= j < NPROCS ->
  Tmk_interval_request_proc s j time = encode ((fun iv => (j, iv)) <$> filter (is_new j time) (intervals_of s j)) /\
  Forall (fun '(j, iv) => 0 <= j < NPROCS /\ interval_ok iv) ((fun iv => (j, iv)) <$> filter (is_new j time) (intervals_of s j)).
Proof.
  intros Hok Hj. split.
  - unfold Tmk_interval_request_proc, encode. rewrite newer_filter by apply Hok. symmetry.
    etransitivity; [apply fmap_bind|done].
  - apply Forall_fmap, Forall_forall. intros iv [_ Hiv]%list_elem_of_filter. split; [lia|by apply (snd_ivs _ Hok j)].
Qed.

(** What an arrival brings: the process's own intervals since the last time
    the manager is known to have got them. *)
Definition brings (r : request) (lo t : Z) : Prop := forall v s s',
  0 <= proc_id (n_conf s) -> rq_from r <> proc_id (n_conf s) -> Z.of_nat (length (n_vt s)) = NPROCS ->
  lo <= vt_get (n_vt s) (rq_from r) ->
  Tmk_interval_incorporate (rq_data r) v s = Ok (tt, s') -> t <= vt_get (n_vt s') (rq_from r).

Lemma arrival_brings base s q t id manager : sender_ok s -> self_of s ∈ procs_of (n_conf s) -> recorded base s (self_of s) ->
  vt_get base (self_of s) <= vt_get (n_it s) manager ->
  brings (Request q (self_of s) t id (n_vt s) (Tmk_interval_request_proc s (self_of s) (vt_get (n_it s) manager)))
    (vt_get (n_it s) manager) (vt_get (n_vt s) (self_of s)).
Proof.
  intros Hok Hin Hr Hb v s1 s1' Hself Hne Hl Hlo R. cbn [rq_from rq_data] in *.
  set (j := self_of s) in *. set (lo := vt_get (n_it s) manager) in *.
  pose proof Hin as Hj. apply elem_of_seqZ in Hj. pose proof (snd_nprocs _ Hok).
  destruct (request_proc_encode s j lo Hok ltac:(lia)) as [E Hall]. rewrite E in R.
  pose proof (incorporate_encoded _ v s1 s1' j Hall ltac:(lia) Hself Hne Hl R) as D.
  rewrite filter_pid_same in D. apply (f_equal snd) in D. cbn [data_of snd] in D. rewrite D. unfold data_of.
  rewrite (accept_time j _ _ _ (Z.max (vt_get (n_vt s1) j) (vt_get (n_vt s) j))); [lia|lia| |].
  - intros iv Hiv. apply (lacking_time base) in Hiv; [lia|done..].
  - intros Hlt. rewrite Z.max_r by lia. by apply (lacking_newest base); [| |lia].
Qed.

(** ** What the manager's handlers leave alone *)
Definition bystander (s s' : node) : Prop :=
  n_conf s' = n_conf s /\ n_inbox s' = n_inbox s /\ n_req_from s' = n_req_from s /\ n_barriers s' = n_barriers s /\
  length (n_vt s') = length (n_vt s) /\
  (0 <= proc_id (n_conf s) -> forall i, 0 <= i -> i <> proc_id (n_conf s) -> vt_get (n_vt s) i <= vt_get (n_vt s') i).

Lemma bystander_trans s1 s2 s3 : bystander s1 s2 -> bystander s2 s3 -> bystander s1 s3.
Proof.
  intros (C1 & I1 & F1 & B1 & L1 & V1) (C2 & I2 & F2 & B2 & L2 & V2). split_and!; try congruence.
  intros Hp i Hi Hne. rewrite C1 in V2. etrans; [by apply V1|by apply V2].
Qed.

#[export] Instance bystander_frame : Frame bystander.
Proof.
  refine {| frame_value := is_u16 |}.
  - split; [by intros s|]. intros s1 s2 s3. apply bystander_trans.
  - by intros s s' (? & _).
  - intros s s' (C & I & _ & _ & _ & F & B & V). split_and!; try done; rewrite V; done.
  - intros s x. split_and!; try done; [apply vt_set_length|]. intros Hp i Hi Hne. cbn [n_vt set_n_vt]. by rewrite vt_set_other.
  - intros s pid u Hp Hu Hlt. split_and!; try done; [apply vt_set_length|]. intros _ i Hi _. cbn [n_vt set_n_vt].
    destruct (decide (i = pid)) as [->|Hne]; [|by rewrite vt_set_other].
    destruct (Z.lt_ge_cases pid (Z.of_nat (length (n_vt s)))) as [Hl|Hl]; [rewrite vt_set_same, u16_small by (done || lia); lia|].
    unfold vt_get, vt_set. by rewrite list_insert_ge by lia.
Defined.

(** ** Bits of the mask *)
Lemma bit_pow j : 0 <= j < NPROCS -> bit j = 2 ^ j.
Proof.
  unfold NPROCS. intros Hj. unfold bit. rewrite Z.shiftl_1_l. apply u32_small. unfold is_u32.
  split; [by apply Z.pow_nonneg|]. apply (Z.pow_lt_mono_r 2 j 32); lia.
Qed.

Lemma bit_test m j : 0 <= j < NPROCS -> (Z.land m (bit j) =? 0) = negb (Z.testbit m j).
Proof.
  intros Hj. rewrite bit_pow by done. destruct (Z.testbit m j) eqn:E; cbn [negb].
  - apply Z.eqb_neq. intros H. assert (Hb : Z.testbit (Z.land m (2 ^ j)) j = true).
    { by rewrite Z.land_spec, E, Z.pow2_bits_true by lia. }
    rewrite H in Hb. by rewrite Z.bits_0 in Hb.
  - apply Z.eqb_eq, Z.bits_inj'. intros n Hn. rewrite Z.land_spec, Z.bits_0, Z.pow2_bits_eqb by lia.
    destruct (Z.eqb_spec j n) as [<-|]; [by rewrite E|by rewrite andb_false_r].
Qed.

Lemma bit_set m j i : 0 <= j < NPROCS -> Z.testbit (Z.lor m (bit j)) i = Z.testbit m i || (j =? i).
Proof. intros Hj. rewrite bit_pow by done. by rewrite Z.lor_spec, Z.pow2_bits_eqb by lia. Qed.

(** ** Collecting the arrivals *)
Section Collect.
Context (c : conf) (id : Z) (arr : Z -> request) (lo t : Z -> Z).
Context (Hself : 0 <= proc_id c < nprocs c) (Hn : nprocs c <= NPROCS).

(** The arrival of process [j]. *)
Record arrival_ok (j : Z) : Prop := {
  ar_from : rq_from (arr j) = j;
  ar_data : Forall is_u16 (rq_data (arr j));
  ar_brings : brings (arr j) (lo j) (t j)
}.
Context (Harr : forall j, j ∈ others_of c -> arrival_ok j).

(** A process that waits at the barrier asks for nothing else that is held. *)
Definition expected (r : request) : Prop :=
  sigio_buffer_hold (rq_type r) = true -> rq_from r ∈ others_of c /\ r = arr (rq_from r).

Definition mask_of (s : node) : Z := b_mask (n_barriers s !!! id).

(** Each arrival that is marked has been held and, once the manager has
    arrived, incorporated, up to the ones that [late] allows. *)
Record collecting_but (late : Z -> Prop) (s : node) : Prop := {
  co_conf : n_conf s = c;
  co_length : Z.of_nat (length (n_vt s)) = NPROCS;
  co_inbox : forall j r, r ∈ default [] (n_inbox s !! j) -> expected r;
  co_lo : forall j, j ∈ others_of c -> lo j <= vt_get (n_vt s) j;
  co_held : forall j, j ∈ others_of c -> Z.testbit (mask_of s) j = true -> n_req_from s !! j = Some (arr j);
  co_time : forall j, j ∈ others_of c -> ~ late j -> Z.testbit (mask_of s) j = true -> Z.testbit (mask_of s) (proc_id c) = true ->
    t j <= vt_get (n_vt s) j
}.
Abbreviation collecting := (collecting_but (fun _ => False)).

Lemma others_bound j : j ∈ others_of c -> 0 <= j < NPROCS /\ j <> proc_id c.
Proof. intros [Hne Hj]%list_elem_of_filter. apply elem_of_seqZ in Hj. split; [lia|done]. Qed.

Lemma bystander_grows s s' j : bystander s s' -> n_conf s = c -> j ∈ others_of c -> vt_get (n_vt s) j <= vt_get (n_vt s') j.
Proof. intros (_ & _ & _ & _ & _ & V) C Hj. rewrite C in V. destruct (others_bound j Hj). apply V; [lia..|done]. Qed.

Lemma collecting_bystander late s s' : bystander s s' -> collecting_but late s -> collecting_but late s'.
Proof.
  intros Hb [C L I Lo H T]. pose proof Hb as (C' & I' & F' & B' & L' & _).
  assert (V : forall j, j ∈ others_of c -> vt_get (n_vt s) j <= vt_get (n_vt s') j) by (intros; by apply bystander_grows).
  assert (M : mask_of s' = mask_of s) by (unfold mask_of; by rewrite B').
  split; rewrite ?M, ?F', ?I', ?L'; try done; [congruence| |].
  - intros j Hj. etrans; [by apply Lo|by apply V].
  - intros j Hj Hl H1 H2. etrans; [by apply T|by apply V].
Qed.

Lemma collecting_settled late s : collecting_but late s ->
  (forall j, j ∈ others_of c -> late j -> Z.testbit (mask_of s) j = true -> Z.testbit (mask_of s) (proc_id c) = true ->
     t j <= vt_get (n_vt s) j) -> (forall j, late j \/ ~ late j) -> collecting s.
Proof. intros [C L I Lo H T] Hs Hd. split; try done. intros j Hj _ H1 H2. destruct (Hd j); auto. Qed.

(** Marking the arrival of [j], or of the manager itself, at barrier [b]. *)
Definition marked (b j i : Z) : Prop := b = id /\ (i = j \/ j = proc_id c).

Lemma marked_dec b j i : marked b j i \/ ~ marked b j i.
Proof. unfold marked. lia. Qed.

Lemma mark_run b j s s1 : 0 <= j < NPROCS -> set_mask b (fun m => Z.lor m (bit j)) s = Ok (tt, s1) -> collecting s ->
  (b = id -> j ∈ others_of c -> n_req_from s !! j = Some (arr j)) ->
  collecting_but (marked b j) s1 /\ n_vt s1 = n_vt s /\
  (forall i, Z.testbit (mask_of s1) i = Z.testbit (mask_of s) i || bool_decide (b = id) && (j =? i)).
Proof.
  intros Hj R [C L I Lo H T] Hq. unfold set_mask in R. destruct (_ && _); [|done]. injection R as <-.
  set (s1 := set_n_barriers _ s).
  assert (M : forall i, Z.testbit (mask_of s1) i = Z.testbit (mask_of s) i || bool_decide (b = id) && (j =? i)).
  { intros i. unfold mask_of, s1. cbn. case_bool_decide as Hb.
    - subst b. rewrite lookup_total_insert_eq. by apply bit_set.
    - by rewrite lookup_total_insert_ne, orb_false_r. }
  split; [|done]. split; try done; intros i Hi.
  - rewrite M, orb_true_iff, andb_true_iff, bool_decide_eq_true, Z.eqb_eq. intros [Hm|[-> ->]]; [by apply H|by apply Hq].
  - unfold marked. rewrite !M, !orb_true_iff, !andb_true_iff, bool_decide_eq_true, !Z.eqb_eq. intros Hl H1 H2.
    apply (T i Hi); [by intros []|destruct H1 as [|[-> ->]]|destruct H2 as [|[-> ->]]]; try done; exfalso; apply Hl; auto.
Qed.

Definition collects (s s' : node) : Prop := collecting s -> collecting s'.
#[local] Instance collects_preorder : PreOrder collects.
Proof. split; [intros s H; exact H|]. intros s1 s2 s3 H1 H2 H. by apply H2, H1. Qed.

Lemma collects_bystander {A} (m : Proc A) : (forall self, keeps (at_self self bystander) m) -> keeps collects m.
Proof. intros H s a s' E. exact (collecting_bystander _ s s' (keeps_at m H s a s' E)). Qed.

Lemma incorporate_bystander msg v s s' : Forall is_u16 msg ->
  Tmk_interval_incorporate msg v s = Ok (tt, s') -> bystander s s'.
Proof. intros Hm R. eapply (keeps_at (R := bystander)); [intros self; by apply frame_incorporate|exact R]. Qed.

(** The intervals of an arrival. *)
Lemma arrival_time j v late s s' : j ∈ others_of c -> collecting_but late s ->
  Tmk_interval_incorporate (rq_data (arr j)) v s = Ok (tt, s') -> t j <= vt_get (n_vt s') j.
Proof.
  intros Hj [C L _ Lo _ _] R. destruct (Harr j Hj) as [Hf _ Hb]. destruct (others_bound j Hj) as [_ Hne].
  unfold brings in Hb. rewrite Hf in Hb. apply (Hb v s s'); rewrite ?C; [lia|done|done|by apply Lo|done].
Qed.

(** An arrival comes in while the manager waits, or before. *)
Lemma barrier_handler_collects r : rq_from r ∈ others_of c -> r = arr (rq_from r) ->
  forall s s', n_req_from s !! rq_from r = Some r -> collecting s -> Tmk_barrier_sigio_handler r s = Ok (tt, s') -> collecting s'.
Proof.
  intros Hin Hr s s' Hreq Hs R. destruct (others_bound _ Hin) as [Hb Hne]. set (j := rq_from r) in *.
  unfold Tmk_barrier_sigio_handler in R. apply bind_inv in R as (self & s0 & [= <- <-] & R). rewrite (co_conf _ _ Hs) in R.
  apply bind_inv in R as ([] & s1 & R1 & R).
  destruct (mark_run (rq_id r) j s s1 Hb R1 Hs) as (H1 & V1 & _); [by rewrite Hreq, <- Hr|].
  apply bind_inv in R as (b & s2 & R2 & R). unfold barrier_at in R2. destruct (_ && _); [|done]. injection R2 as Eb <-.
  assert (By : bystander s1 s').
  { eapply (keeps_at (R := bystander)); [|exact R]. intros self. apply keeps_when; [exact _|].
    keeps_bind; [apply frame_incorporate; rewrite Hr; by apply Harr|keeps]. }
  apply (collecting_settled (marked (rq_id r) j)); [by apply (collecting_bystander _ s1)| |apply marked_dec].
  assert (M : mask_of s' = mask_of s1) by (unfold mask_of; destruct By as (_ & _ & _ & E & _); by rewrite E).
  intros i Hi [Hd [->|E]] _ Hms; [|done]. rewrite M in Hms. unfold mask_of in Hms. rewrite <- Hd, Eb in Hms.
  rewrite bit_test, negb_involutive, Hms in R by (split; lia). cbn [when] in R. apply bind_inv in R as ([] & s3 & R3 & R4).
  assert (V3 : n_vt s' = n_vt s3) by (destruct (bool_decide _); cbn [when] in R4; by injection R4 as <-).
  rewrite V3. rewrite Hr in R3. by apply (arrival_time j VtNull _ s1 _ Hi H1).
Qed.

Lemma handler_collects r s s' : expected r -> (sigio_buffer_hold (rq_type r) = true -> n_req_from s !! rq_from r = Some r) ->
  collecting s -> sigio_handlers_ (rq_type r) r s = Ok (tt, s') -> collecting s'.
Proof.
  intros He Hq Hs R. destruct (sigio_buffer_hold (rq_type r)) eqn:Hh.
  2:{ apply (collects_bystander (sigio_handlers_ (rq_type r) r) ltac:(intros self; by apply frame_handler) s tt s' R Hs). }
  destruct (He Hh) as [Hin Hr]. specialize (Hq eq_refl).
  assert (Hsched : Tmk_sched_sigio_handler r s = Ok (tt, s') -> collecting s').
  { intros R'. apply (collects_bystander _ (fun self => frame_sched_handler self r ltac:(rewrite Hr; by apply Harr)) s tt s' R' Hs). }
  unfold sigio_handlers_ in R.
  destruct (rq_type r); try done; [by eapply barrier_handler_collects..|by apply Hsched|by apply Hsched].
Qed.

Lemma request_collects r : expected r -> keeps collects (handle_request r).
Proof.
  intros He s [] s' R Hs. destruct (Z.lt_ge_cases (last_seqno s (rq_from r)) (rq_seqno r)) as [Hnew|Hold].
  - rewrite handle_new in R by done. apply bind_inv in R as ([] & s2 & R & R3). apply bind_inv in R as ([] & s1 & R1 & R2).
    set (s0 := set_n_rep_seqno _ s) in *.
    assert (H0 : collecting s0) by (apply (collecting_bystander _ s); [by split_and!|done]).
    assert (H1 : collecting s1 /\ (sigio_buffer_hold (rq_type r) = true -> n_req_from s1 !! rq_from r = Some r)).
    { unfold hold_request in R1. destruct (sigio_buffer_hold (rq_type r)) eqn:Hh; cbn [when] in R1; [|injection R1 as <-; by split].
      destruct (He Hh) as [Hin Hr]. injection R1 as <-. destruct H0 as [C L I Lo H T].
      split; [|intros _; cbn; by rewrite lookup_insert_eq]. split; try done.
      intros j Hj Hm. cbn. destruct (decide (j = rq_from r)) as [->|Hne]; [by rewrite lookup_insert_eq, <- Hr|].
      rewrite lookup_insert_ne by done. by apply H. }
    destruct H1 as [H1 Hq]. eapply (collects_bystander (count_request r)); [|exact R3|by eapply handler_collects].
    intros self. unfold count_request. keeps.
  - rewrite handle_old in R by done. revert R Hs. apply (collects_bystander (sigio_duplicate_handlers_ (rq_type r) r;; count_request r)).
    intros self. keeps_bind; [apply frame_duplicate_handler|]. unfold count_request. keeps.
Qed.

Lemma from_collects j : keeps collects (handle_from j).
Proof.
  intros s [] s' R Hs. unfold handle_from, dequeue, mbind, M_bind in R.
  destruct (default [] (n_inbox s !! j)) as [|r rs] eqn:E; [by injection R as <-|].
  pose proof (co_inbox _ _ Hs j) as Hj. rewrite E in Hj.
  refine (request_collects r (Hj r ltac:(by left)) _ tt s' R _). destruct Hs as [C L I Lo H T]. split; try done.
  intros i x Hx. cbn in Hx. destruct (decide (i = j)) as [->|Hne].
  - rewrite lookup_insert_eq in Hx. apply Hj. by right.
  - rewrite lookup_insert_ne in Hx by done. by apply (I i).
Qed.

Lemma sigio_collects : keeps collects sigio.
Proof.
  unfold sigio. keeps_bind; [by apply keeps_gets; preorder|]. generalize (S a). intros n.
  induction n as [|n IH]; cbn [sigio_loop]; [done|]. keeps_bind; [by apply keeps_gets; preorder|].
  destruct a0; [by apply keeps_ret; preorder|]. keeps_bind; [|done].
  apply keeps_for_each; [apply _|]. intros. apply from_collects.
Qed.

Definition event_ok (ev : event) : Prop := match ev with EvReq _ r => expected r | _ => True end.

Lemma spin_collects busy evs : Forall event_ok evs -> keeps collects (spin_on evs busy).
Proof.
  induction 1 as [|ev evs Hev _ IH]; cbn [spin_on];
    (keeps_bind; [by apply keeps_gets; preorder|]; destruct a; [|by apply keeps_ret; preorder];
     keeps_bind; [apply sigio_collects|]; keeps_bind; [by apply keeps_gets; preorder|];
     destruct a0; [|by apply keeps_ret; preorder]); [done|].
  keeps_bind; [apply keeps_modify; intros s [C L I Lo H T]; by split|]. keeps_bind; [|apply IH].
  destruct ev as [| j r| | |]; try (by apply keeps_ret; preorder). apply keeps_modify.
  intros s [C L I Lo H T]. split; try done. intros i x Hx. cbn in Hx. destruct (decide (i = j)) as [->|Hne].
  - rewrite lookup_insert_eq in Hx. apply elem_of_app in Hx as [Hx|Hx]; [by apply (I j)|]. by apply list_elem_of_singleton in Hx as ->.
  - rewrite lookup_insert_ne in Hx by done. by apply (I i).
Qed.

(** The arrivals that were early. *)
Lemma early_run j s s' : j ∈ others_of c -> collecting s -> early_arrival id j s = Ok (tt, s') ->
  bystander s s' /\ (Z.testbit (mask_of s) j = true -> t j <= vt_get (n_vt s') j).
Proof.
  intros Hj Hs R. destruct (others_bound j Hj) as [Hb _]. unfold early_arrival in R.
  apply bind_inv in R as (b & s1 & R1 & R). unfold barrier_at in R1. destruct (_ && _); [|done]. injection R1 as <- <-.
  rewrite Z.land_comm, bit_test, negb_involutive in R by done. fold (mask_of s) in R.
  destruct (Z.testbit (mask_of s) j) eqn:Hm; cbn [when] in R; [|by injection R as <-].
  apply bind_inv in R as (r & s1 & R1 & R). unfold held_request in R1. rewrite (co_held _ _ Hs j Hj Hm) in R1.
  injection R1 as <- <-. apply bind_inv in R as ([] & s2 & R2 & R3).
  pose proof (incorporate_bystander _ _ _ _ (ar_data _ (Harr j Hj)) R2) as B2.
  pose proof (arrival_time j _ _ _ _ Hj Hs R2) as T2.
  assert (E : bystander s2 s' /\ n_vt s' = n_vt s2) by (destruct (bool_decide _); injection R3 as <-; by repeat split).
  destruct E as [B3 ->]. split; [by eapply bystander_trans|by intros].
Qed.

Lemma early_all l : forall s s', (forall j, j ∈ l -> j ∈ others_of c) -> collecting s ->
  for_each (early_arrival id) l s = Ok (tt, s') ->
  bystander s s' /\ forall j, j ∈ l -> Z.testbit (mask_of s) j = true -> t j <= vt_get (n_vt s') j.
Proof.
  induction l as [|j l IH]; intros s s' Hl Hs R; [injection R as <-; split; [reflexivity|intros j Hj; by apply elem_of_nil in Hj]|].
  cbn [for_each] in R. apply bind_inv in R as ([] & s1 & R1 & R2).
  destruct (early_run j s s1 (Hl j ltac:(by left)) Hs R1) as [B1 T1].
  destruct (IH s1 s') as [B2 T2]; [intros i Hi; apply Hl; by right|by eapply collecting_bystander|done|].
  split; [by eapply bystander_trans|]. intros i Hi Hm. apply elem_of_cons in Hi as [->|Hi].
  - etrans; [by apply T1|]. apply bystander_grows; [done| |apply Hl; by left]. rewrite <- (co_conf _ _ Hs). apply B1.
  - apply T2; [done|]. unfold mask_of. destruct B1 as (_ & _ & _ & -> & _). exact Hm.
Qed.
End Collect.

(** ** The messages *)
Lemma put_range_u16 rg : range_ok rg -> Forall is_u16 (put_range rg).
Proof.
  destruct rg as [f l]. unfold range_ok, put_range. cbn [fst snd]. assert (RANGE_MARK = 65503) as -> by done. intros [H1 H2].
  destruct (0 <? _); [destruct (1 <? _)|]; repeat constructor; unfold is_u16; lia.
Qed.

Lemma encode_u16 ivs : Forall (fun '(j, iv) => 0 <= j < NPROCS /\ interval_ok iv) ivs -> Forall is_u16 (encode ivs).
Proof.
  induction 1 as [|[j iv] ivs [Hj [_ Hvt _ Hrg]] _ IH]; [constructor|]. unfold encode in *. cbn [mbind list_bind].
  apply Forall_app. split; [|done]. unfold put_interval. constructor; [apply u16_range|]. apply Forall_app. split; [done|].
  induction Hrg as [|rg rgs Hr _ IHr]; [constructor|]. cbn [mbind list_bind]. apply Forall_app. split; [by apply put_range_u16|done].
Qed.

(** Process [j] in the state [slave] has sent the arrival [r]; the manager [m]
    has the time [known] for it. *)
Record arrived (base : vtime) (id m n : Z) (slave : node) (known : Z) (j : Z) (r : request) : Prop := {
  av_self : self_of slave = j /\ 0 <= j < nprocs (n_conf slave) /\ nprocs (n_conf slave) = n;
  av_intervals : sender_ok slave /\ recorded base slave j;
  av_message : exists q ty, r = Request q j ty id (n_vt slave) (Tmk_interval_request_proc slave j (vt_get (n_it slave) m));
  av_known : vt_get base j <= vt_get (n_it slave) m <= known
}.

Lemma arrived_ok base id m n slave known j r : arrived base id m n slave known j r ->
  arrival_ok (fun _ => r) (fun _ => vt_get (n_it slave) m) (fun _ => vt_get (n_vt slave) j) j.
Proof.
  intros [(<- & Hj & _) [Hok Hr] (q & ty & ->) [Hb _]]. pose proof (snd_nprocs _ Hok). split; cbn [rq_from rq_data]; [done| |].
  - destruct (request_proc_encode slave (self_of slave) (vt_get (n_it slave) m) Hok ltac:(lia)) as [-> Hall]. by apply encode_u16.
  - apply (arrival_brings base); [done|apply elem_of_seqZ; lia|done|done].
Qed.

(** The events that wait do not change either. *)
Definition same_events (s s' : node) : Prop := n_conf s' = n_conf s /\ n_events s' = n_events s.

#[export] Instance same_events_frame : Frame same_events.
Proof.
  refine {| frame_value := fun _ => True |}.
  - split; [by intros s|]. intros s1 s2 s3 [C1 E1] [C2 E2]. split; congruence.
  - by intros s s' [? _].
  - by intros s s' (? & _ & ? & _).
  - by intros s x.
  - by intros s pid u _ _ _.
Defined.

Lemma early_events id : forall l s s', for_each (early_arrival id) l s = Ok (tt, s') -> n_events s' = n_events s.
Proof.
  intros l s s' R. eapply (keeps_at (R := same_events)); [|exact R]. intros self. apply keeps_for_each; [exact _|].
  intros j. unfold early_arrival. keeps. by apply frame_incorporate, all_true.
Qed.

Lemma held_requests s (arr : Z -> request) l rs : Forall2 (fun j r => n_req_from s !! j = Some r) l rs ->
  (forall j, j ∈ l -> n_req_from s !! j = Some (arr j)) -> rs = arr <$> l.
Proof.
  induction 1 as [|j r l rs Hr _ IH]; intros H; [done|]. cbn. f_equal.
  - rewrite H in Hr by (by left). by injection Hr.
  - apply IH. intros i Hi. apply H. by right.
Qed.

Lemma zip_with_fmap_r {A B C} (f : A -> B -> C) (g : A -> B) l : zip_with f l (g <$> l) = (fun x => f x (g x)) <$> l.
Proof. induction l as [|x l IH]; [done|]. cbn. by f_equal. Qed.


(** ** Leaving *)

(** [recv] and the copy to the start of the buffer. *)
Lemma over_take (new old : list Z) : take (length new) (over new old) = new.
Proof. unfold over. by rewrite take_app_length. Qed.

(** The slave's side, when the departure is the next thing it receives. *)
Lemma slave_run `{Signals} id manager repo s rp data evs :
  let seqno := u32 (n_req_seqno s + SEQNO_INCR) in
  n_events s = EvRep (Reply seqno (rp :: data)) [] :: evs ->
  exists s1, barrier_slave id manager repo s = Tmk_interval_incorporate data VtProc s1 /\
    n_out s1 = n_out s ++ [SendReq manager (Request seqno (self_of s) (if repo then REQ_ARRIVAL_REPO else REQ_ARRIVAL) id
                 (n_vt s) (Tmk_interval_request_proc s (self_of s) (vt_get (n_it s) manager)))] /\
    n_bar_repo s1 = rp /\ n_conf s1 = n_conf s /\ n_vt s1 = n_vt s /\ n_procs s1 = n_procs s /\ n_pages s1 = n_pages s.
Proof.
  intros seqno He. unfold barrier_slave. rewrite (bind_Ok config _ s (n_conf s) s eq_refl), (bind_Ok get _ s s s eq_refl).
  set (data_out := Tmk_interval_request_proc _ _ _). set (ty := if repo then _ else _).
  rewrite (bind_Ok next_seqno _ s seqno (set_n_req_seqno seqno s) eq_refl). set (s0 := set_n_req_seqno seqno s).
  set (send := (gets n_vt ≫= _)). set (msg := SendReq manager (Request seqno (self_of s) ty id (n_vt s) data_out)).
  set (s1 := set_n_out (n_out s0 ++ [msg]) s0).
  set (s2 := set_n_bar_data (over data (n_bar_data s)) (set_n_bar_repo rp (set_n_events evs s1))).
  assert (R : send_await seqno send recv_departure s0 = Ok (Reply seqno (rp :: data), s2)).
  { by apply (send_await_next seqno send recv_departure _ evs s0 s1). }
  rewrite (bind_Ok _ _ _ _ _ R). set (r := Reply _ _). rewrite (bind_Ok (bump _ _ 1) _ s2 tt _ eq_refl).
  set (s3 := set_n_stat _ s2). rewrite (bind_Ok (bump _ _ _) _ s3 tt _ eq_refl). set (s4 := set_n_stat _ s3).
  rewrite (bind_Ok (gets n_bar_data) _ s4 (over data (n_bar_data s)) s4 eq_refl). cbn [r rp_data length].
  replace (S (length data) - 1)%nat with (length data) by lia. rewrite over_take. by exists s4.
Qed.

(** C15: Leaving a barrier joins the vector times.  A process at the barrier sends
    its arrival; with the departure that the manager wrote from state [s1] for
    that arrival, the process takes over the manager's decision about
    repossession, incorporates the intervals, and then has for every other
    process the larger of its own time and the manager's. *)
Theorem departure_joins `{Signals} base id manager repo s1 s2 s2' rp evs :
  sender_ok s1 -> (forall i, i ∈ procs_of (n_conf s1) -> recorded base s1 i /\ vt_get base i <= vt_get (n_vt s2) i) ->
  0 <= self_of s2 -> Z.of_nat (length (n_vt s2)) = NPROCS ->
  let seqno := u32 (n_req_seqno s2 + SEQNO_INCR) in
  let data := Tmk_interval_request s1 (n_vt s2) in
  n_events s2 = EvRep (Reply seqno (rp :: data)) [] :: evs ->
  barrier_slave id manager repo s2 = Ok (tt, s2') ->
  (exists s3, n_out s3 = n_out s2 ++ [SendReq manager (Request seqno (self_of s2) (if repo then REQ_ARRIVAL_REPO else REQ_ARRIVAL)
                 id (n_vt s2) (Tmk_interval_request_proc s2 (self_of s2) (vt_get (n_it s2) manager)))] /\
     n_bar_repo s3 = rp /\ n_pages s3 = n_pages s2 /\ Tmk_interval_incorporate data VtProc s3 = Ok (tt, s2')) /\
  forall i, i ∈ procs_of (n_conf s1) -> i <> self_of s2 ->
    vt_get (n_vt s2') i = Z.max (vt_get (n_vt s2) i) (vt_get (n_vt s1) i).
Proof.
  intros Hok Hr Hself Hl seqno data He R.
  destruct (slave_run id manager repo s2 rp data evs He) as (s3 & E & O & B & C & V & _ & P). rewrite E in R.
  split; [by exists s3|]. intros i Hi Hne. destruct (Hr i Hi) as [Hri Hb]. rewrite <- V.
  apply (incorporate_joins base s1 VtProc s3 s2'); rewrite ?C, ?V; done.
Qed.

(** ** Three processes

    Process [j] has ended one interval, in which it wrote page [j]. *)
Definition member_ex (j : Z) : node :=
  set_n_vt (vt_set j 1 vt_zero) (set_n_procs {[ j := [Interval j (vt_set j 1 vt_zero) [(j, j)]] ]}
    (set_n_pages empty_lists (zero_node (Conf j 3 4096 8 0)))).

Lemma vt_zero_get i : vt_get vt_zero i = 0.
Proof.
  unfold vt_get. rewrite nth_lookup. destruct (vt_zero !! Z.to_nat i) as [x|] eqn:E; [|done].
  unfold vt_zero in E. by apply lookup_replicate_1 in E as [-> _].
Qed.

Lemma member_intervals j i :
  intervals_of (member_ex j) i = if decide (i = j) then [Interval j (vt_set j 1 vt_zero) [(j, j)]] else [].
Proof.
  unfold intervals_of, member_ex. cbn [n_procs set_n_procs set_n_vt]. case_decide; [subst; by rewrite lookup_singleton_eq|].
  by rewrite lookup_singleton_ne.
Qed.

Lemma member_ok j : 0 <= j < 3 -> sender_ok (member_ex j).
Proof.
  intros Hj. split.
  - done.
  - intros i k l a b Hkl Ha Hb. rewrite member_intervals in Ha, Hb. case_decide; [|done].
    apply lookup_lt_Some in Ha, Hb. simpl in *. lia.
  - intros i iv Hin. rewrite member_intervals in Hin. case_decide; [|by apply elem_of_nil in Hin].
    apply list_elem_of_singleton in Hin as ->. split.
    + apply length_insert.
    + apply Forall_insert; [|apply u16_range]. apply Forall_replicate. unfold is_u16. lia.
    + done.
    + unfold range_ok. assert (RANGE_MARK = 65503) as -> by done. repeat constructor; simpl; lia.
Qed.

Lemma member_recorded j i : 0 <= j < 3 -> 0 <= i -> recorded vt_zero (member_ex j) i.
Proof.
  intros Hj Hi. unfold recorded. rewrite member_intervals. change (n_vt (member_ex j)) with (vt_set j 1 vt_zero).
  case_decide as E; [done|]. cbn [last fmap option_fmap option_map default]. apply vt_set_other; lia.
Qed.

Definition member_arrival (j : Z) : request :=
  Request (32 + j) j REQ_ARRIVAL 0 (vt_set j 1 vt_zero) (Tmk_interval_request_proc (member_ex j) j 0).

(** Process 1 has arrived at barrier 0; process 2 arrives while the manager waits. *)
Definition gather_ex : node :=
  set_n_events [EvIntr; EvReq 2 (member_arrival 2)]
    (set_n_req_from {[ 1 := member_arrival 1 ]} (set_n_barriers {[ 0 := Barrier 0 2 ]}
      (set_n_pages empty_lists (zero_node (Conf 0 3 4096 8 0))))).


(** Process 2 gets the interval of process 1 from it. *)
Definition leave_ex : node := set_n_events [EvRep (Reply 32 (0 :: Tmk_interval_request (member_ex 1) (vt_set 2 1 vt_zero))) []] (member_ex 2).

Lemma departure_joins_witness : exists s2', barrier_slave (signals := sigio) 0 1 false leave_ex = Ok (tt, s2') /\
  forall i, i ∈ procs_of (n_conf (member_ex 1)) -> i <> 2 ->
    vt_get (n_vt s2') i = Z.max (vt_get (n_vt leave_ex) i) (vt_get (n_vt (member_ex 1)) i).
Proof.
  assert (R : returns (barrier_slave (signals := sigio) 0 1 false leave_ex) = true) by (vm_compute; reflexivity).
  destruct (returns_ok _ R) as [[[] s2'] H]. clear R. exists s2'. split; [exact H|].
  refine (proj2 (@departure_joins sigio vt_zero 0 1 false (member_ex 1) leave_ex s2' 0 [] _ _ _ _ _ H)); clear H.
  - by apply member_ok.
  - intros i Hi. apply elem_of_seqZ in Hi. split; [apply member_recorded; lia|].
    change (n_vt leave_ex) with (vt_set 2 1 vt_zero). rewrite vt_zero_get.
    destruct (decide (i = 2)) as [->|Hn]; [by rewrite vt_set_same|]. rewrite vt_set_other, vt_zero_get; lia.
  - cbn. lia.
  - reflexivity.
  - reflexivity.
Defined.
