(* ===== verification/Repossession.v ===== *)
(** * What repossession leaves of a page

    [Tmk_repo] runs at all processes at the same time, and no process asks
    another what it does with a page: the write notices, which all of them
    have, decide.  The theorem of this file is that the decisions fit together:
    the process that every other names as the page's manager keeps a copy. *)
From S2P Require Import Prelude Pages State Rpc Twins Diffs Interval Faults Lock Repo Barrier Sched Exit Sigio IntervalCreate Frames.
Local Open Scope Z_scope.

(** ** Choosing the manager *)
Section Manager.
Context (n : Z).

(** [v'] is nowhere behind [v]. *)
Definition vt_le (v v' : vtime) : Prop := forall k, 0 <= k < n -> vt_get v k <= vt_get v' k.

#[export] Instance vt_le_preorder : PreOrder vt_le.
Proof. split; [by intros v k|]. intros v1 v2 v3 H1 H2 k Hk. specialize (H1 k Hk). specialize (H2 k Hk). lia. Qed.

Lemma vt_le_spec v v' : forallb (fun k => vt_get v k <=? vt_get v' k) (seqZ 0 n) = true <-> vt_le v v'.
Proof.
  rewrite forallb_forall. split; intros H k Hk.
  - apply Z.leb_le, H. apply list_elem_of_In, elem_of_seqZ. lia.
  - apply Z.leb_le, H. apply list_elem_of_In, elem_of_seqZ in Hk. lia.
Qed.

(** No notice in [ws] is ahead of [w]. *)
Definition maximal (w : write_notice) (ws : list write_notice) : Prop :=
  forall u, u ∈ ws -> vt_le (wn_vt w) (wn_vt u) -> vt_le (wn_vt u) (wn_vt w).

Lemma newest_maximal heads : forall w, exists x,
  newest n (wn_id w) (wn_vt w) heads = wn_id x /\ (x = w \/ Some x ∈ heads) /\
  vt_le (wn_vt w) (wn_vt x) /\ maximal x (w :: omap id heads).
Proof.
  induction heads as [|[u|] heads IH]; intros w; cbn [newest].
  - exists w. split_and!; [done|by left|done|]. intros u Hu. by apply list_elem_of_singleton in Hu as ->.
  - destruct (forallb _ _) eqn:E.
    + apply vt_le_spec in E. destruct (IH u) as (x & -> & Hx & Hux & Hm). exists x. split_and!; [done| |by etrans|].
      * right. destruct Hx as [->|Hx]; [by left|by right].
      * intros v Hv. cbn in Hv. apply elem_of_cons in Hv as [->|Hv]; [by etrans|by apply Hm].
    + destruct (IH w) as (x & -> & Hx & Hwx & Hm). exists x. split_and!; [done| |done|].
      * destruct Hx as [->|Hx]; [by left|right; by right].
      * intros v Hv Hle. cbn in Hv. apply elem_of_cons in Hv as [->|Hv]; [apply Hm; [by left|done]|].
        apply elem_of_cons in Hv as [->|Hv]; [|apply Hm; [by right|done]].
        assert (Hwu : vt_le (wn_vt w) (wn_vt u)) by (by etrans). apply vt_le_spec in Hwu. congruence.
  - destruct (IH w) as (x & -> & Hx & Hwx & Hm). exists x. split_and!; [done| |done|done].
    destruct Hx as [->|Hx]; [by left|right; by right].
Qed.

Lemma choose_maximal heads u : Some u ∈ heads -> exists x,
  choose_manager n heads = Some (wn_id x) /\ Some x ∈ heads /\ maximal x (omap id heads).
Proof.
  induction heads as [|[w|] heads IH]; intros Hu; cbn [choose_manager].
  - by apply elem_of_nil in Hu.
  - destruct (newest_maximal heads w) as (x & -> & Hx & _ & Hm). exists x. split_and!; [done| |done].
    destruct Hx as [->|Hx]; [by left|by right].
  - apply elem_of_cons in Hu as [Hu|Hu]; [done|]. destruct (IH Hu) as (x & -> & Hx & Hm).
    exists x. split_and!; [done|by right|done].
Qed.

(** What the choice depends on. *)
Definition stamp (w : write_notice) : Z * vtime := (wn_id w, wn_vt w).

Lemma choose_stamps heads : forall heads', map (fmap stamp) heads = map (fmap stamp) heads' ->
  choose_manager n heads = choose_manager n heads'.
Proof.
  induction heads as [|o heads IH]; intros [|o' heads'] E; [done..|]. injection E as Eo E.
  assert (N : forall id vt l l', map (fmap stamp) l = map (fmap stamp) l' -> newest n id vt l = newest n id vt l').
  { clear. intros id vt l. revert id vt. induction l as [|o l IH]; intros id vt [|o' l'] E; [done..|]. injection E as Eo E.
    destruct o as [w|], o' as [w'|]; try done; cbn [newest]; [|by apply IH].
    injection Eo as Ei Ev. rewrite Ei, Ev. destruct (forallb _ _); by apply IH. }
  destruct o as [w|], o' as [w'|]; try done; cbn [choose_manager]; [|by apply IH].
  injection Eo as Ei Ev. rewrite Ei, Ev. f_equal. by apply N.
Qed.
End Manager.

(** ** What may happen while diffs are fetched

    The requests that can arrive during repossession, when no process is at a
    barrier or a join, do not invalidate a page. *)
Definition calm (t : req_type) : bool :=
  match t with REQ_ARRIVAL | REQ_ARRIVAL_REPO | REQ_JOIN | REQ_JOIN_REPO => false | _ => true end.

Definition calm_request (r : request) : Prop := calm (rq_type r) = true.

Definition calm_event (ev : event) : Prop :=
  match ev with
  | EvRep _ late => Forall (fun jr => calm_request jr.2) late
  | EvReq _ r => calm_request r
  | _ => True
  end.

Definition quiet (s : node) : Prop :=
  Forall calm_event (n_events s) /\ forall j, Forall calm_request (default [] (n_inbox s !! j)).

Definition valid_kept (s s' : node) : Prop :=
  forall q, p_state (n_pages s !!! q) = valid -> p_state (n_pages s' !!! q) = valid.

Lemma valid_kept_pages s s' : n_pages s' = n_pages s -> valid_kept s s'.
Proof. intros E q Hq. by rewrite E. Qed.
#[local] Hint Resolve valid_kept_pages : core.

(** What a handler does. *)
Definition inert (s s' : node) : Prop :=
  n_events s' = n_events s /\ n_inbox s' = n_inbox s /\ valid_kept s s'.

#[export] Instance inert_preorder : PreOrder inert.
Proof.
  split; [intros s; split; [done|split; [done|by intros q]]|]. intros s1 s2 s3 (E1 & I1 & V1) (E2 & I2 & V2). split_and!; [congruence..|].
  intros q Hq. by apply V2, V1.
Qed.

(** What the operations do that wait. *)
Definition calmly (s s' : node) : Prop := quiet s -> quiet s' /\ valid_kept s s'.

#[export] Instance calmly_preorder : PreOrder calmly.
Proof.
  split; [intros s Q; split; [done|by intros q]|]. intros s1 s2 s3 H1 H2 Q. destruct (H1 Q) as [Q2 V1]. destruct (H2 Q2) as [Q3 V2].
  split; [done|]. intros q Hq. by apply V2, V1.
Qed.

Lemma inert_calmly {A} (m : Proc A) : keeps inert m -> keeps calmly m.
Proof.
  intros H s a s' R [Q1 Q2]. destruct (H s a s' R) as (E & I & V). split; [|done]. unfold quiet. by rewrite E, I.
Qed.

(** ** The handlers *)
Lemma inert_modify f : (forall s, n_events (f s) = n_events s /\ n_inbox (f s) = n_inbox s /\ n_pages (f s) = n_pages s) ->
  keeps inert (modify f).
Proof.
  intros H. apply keeps_modify. intros s. destruct (H s) as (E & I & P). split; [done|split; [done|]].
  intros q Hq. by rewrite P.
Qed.
#[export] Hint Extern 1 (keeps inert (modify _)) => (apply inert_modify; intros; repeat split; reflexivity) : keeps.

Lemma inert_pg {A} (f : page -> A) p : keeps inert (pg f p).
Proof.
  intros s a s' H. unfold pg, on_pages, rd in H. destruct (valid_ptr p); [|done]. cbn in H. injection H as _ <-. by destruct s.
Qed.

Lemma inert_set_pg p f : (forall x, p_state x = valid -> p_state (f x) = valid) -> keeps inert (set_pg p f).
Proof.
  intros Hf s a s' H. unfold set_pg, on_pages, wr in H. destruct (valid_ptr p); [|done]. cbn in H. injection H as _ <-.
  split; [done|split; [done|]]. intros q Hq. cbn. rewrite upd_lookup. case_decide; [subst; by apply Hf|done].
Qed.
#[export] Hint Extern 1 (keeps inert (set_pg _ _)) => (apply inert_set_pg; intros; (assumption || done)) : keeps.

Lemma inert_mprotect p pr : keeps inert (mprotect p pr).
Proof. by apply inert_set_pg. Qed.
Lemma inert_bump f g x : keeps inert (bump f g x).
Proof. by apply inert_modify. Qed.
Lemma inert_send_req j r : keeps inert (send_req j r).
Proof. by apply inert_modify. Qed.
Lemma inert_send_rep j r : keeps inert (send_rep j r).
Proof. by apply inert_modify. Qed.
Lemma inert_vt_read v : keeps inert (vt_read v).
Proof. destruct v; [done|..]; apply keeps_gets; preorder. Qed.
Lemma inert_vt_write v f : keeps inert (vt_write v f).
Proof. destruct v; [done|..]; by apply inert_modify. Qed.
#[export] Hint Resolve inert_pg inert_mprotect inert_bump inert_send_req inert_send_rep inert_vt_read inert_vt_write : keeps.

Lemma inert_load p : keeps inert (load_page p).
Proof. unfold load_page. keeps. Qed.
Lemma inert_store p mem : keeps inert (store_page p mem).
Proof. unfold store_page. keeps. Qed.
Lemma inert_twin_free p : keeps inert (Tmk_twin_free p).
Proof. unfold Tmk_twin_free. keeps. Qed.
Lemma inert_heap_alloc z : keeps inert (heap_alloc z).
Proof. unfold heap_alloc. keeps. Qed.
Lemma inert_enqueue pid iv : keeps inert (enqueue_interval pid iv).
Proof. unfold enqueue_interval. keeps. Qed.
Lemma inert_last_range pid rg : keeps inert (last_range pid rg).
Proof. unfold last_range. keeps. Qed.
Lemma inert_me : keeps inert me.
Proof. apply keeps_gets; preorder. Qed.
Lemma inert_config : keeps inert config.
Proof. apply keeps_gets; preorder. Qed.
#[export] Hint Resolve inert_load inert_store inert_twin_free inert_heap_alloc inert_enqueue inert_last_range inert_me
  inert_config : keeps.

Lemma inert_diff_create p w : keeps inert (Tmk_diff_create p w).
Proof. unfold Tmk_diff_create. keeps. Qed.
Lemma inert_push_notice pid id vt p : keeps inert (push_notice pid id vt p).
Proof. unfold push_notice. keeps. Qed.
#[export] Hint Resolve inert_diff_create inert_push_notice : keeps.

Lemma inert_create_run vt p : keeps inert (create_run vt p).
Proof. unfold create_run. keeps. Qed.
#[export] Hint Resolve inert_create_run : keeps.

Lemma inert_interval_create v : keeps inert (Tmk_interval_create v).
Proof.
  unfold Tmk_interval_create. repeat keeps_step.
  apply keeps_do_while; [preorder|intros; keeps|]. intros q. unfold create_rest. keeps.
Qed.
#[export] Hint Resolve inert_interval_create : keeps.

Lemma inert_lock_at id : keeps inert (lock_at id).
Proof. unfold lock_at. keeps. Qed.
Lemma inert_set_lock id f : keeps inert (set_lock id f).
Proof. unfold set_lock. keeps. Qed.
Lemma inert_send_intervals j q vt : keeps inert (send_intervals j q vt).
Proof. unfold send_intervals. keeps. Qed.
Lemma inert_set_inverse j : keeps inert (set_inverse j).
Proof. unfold set_inverse. keeps. Qed.
#[export] Hint Resolve inert_lock_at inert_set_lock inert_send_intervals inert_set_inverse : keeps.

Lemma inert_lock_handler r : keeps inert (Tmk_lock_sigio_handler r).
Proof. unfold Tmk_lock_sigio_handler. cbv zeta. keeps. Qed.
Lemma inert_lock_duplicate r : keeps inert (Tmk_lock_sigio_duplicate_handler r).
Proof. unfold Tmk_lock_sigio_duplicate_handler. cbv zeta. keeps. Qed.
Lemma inert_cond_at id i : keeps inert (cond_at id i).
Proof. unfold cond_at. keeps. Qed.
Lemma inert_set_cond id i f : keeps inert (set_cond id i f).
Proof. unfold set_cond. keeps. Qed.
Lemma inert_set_waitq i f : keeps inert (set_waitq i f).
Proof. unfold set_waitq. keeps. Qed.
#[export] Hint Resolve inert_lock_handler inert_lock_duplicate inert_cond_at inert_set_cond inert_set_waitq : keeps.

Lemma inert_update_time id i vt : keeps inert (update_time id i vt).
Proof. unfold update_time. keeps. Qed.
#[export] Hint Resolve inert_update_time : keeps.


Lemma inert_dequeue id i : keeps inert (waitq_dequeue id i).
Proof. unfold waitq_dequeue. keeps. Qed.
#[export] Hint Resolve inert_dequeue : keeps.
Lemma inert_dequeue_all fuel id i : keeps inert (dequeue_all fuel id i).
Proof. induction fuel as [|fuel IH]; cbn [dequeue_all]; keeps. Qed.
Lemma inert_ack r : keeps inert (ack r).
Proof. unfold ack. keeps. Qed.
Lemma inert_send_page j q p : keeps inert (send_page j q p).
Proof. unfold send_page. keeps. Qed.
Lemma inert_add_diff from a z d sv : keeps inert (add_diff from a z d sv).
Proof. unfold add_diff, flush. cbv zeta. keeps. Qed.
#[export] Hint Resolve inert_dequeue_all inert_ack inert_send_page inert_add_diff : keeps.

Lemma inert_serve_one p from pid time sv m : keeps inert (serve_one p from pid time sv m).
Proof. unfold serve_one. keeps. Qed.
#[export] Hint Resolve inert_serve_one : keeps.

Lemma inert_serve_pairs p from fuel : forall data sv m, (length data <= fuel)%nat ->
  keeps inert (serve_pairs p from data sv m).
Proof.
  induction fuel as [|fuel IH]; intros [|x [|y data]] sv m Hl; cbn [length] in Hl; try lia; try done.
  cbn [serve_pairs]. destruct data as [|z data]; [keeps|]. keeps_bind; [keeps|]. destruct a as [sv' m'].
  apply IH. cbn [length] in *. lia.
Qed.

Lemma inert_diff_handler r : keeps inert (Tmk_diff_sigio_handler r).
Proof.
  unfold Tmk_diff_sigio_handler, flush. cbv zeta. keeps_bind; [by eapply inert_serve_pairs|]. keeps.
Qed.
#[export] Hint Resolve inert_diff_handler : keeps.

Lemma inert_handler r : calm_request r -> keeps inert (sigio_handlers_ (rq_type r) r).
Proof.
  unfold calm_request, sigio_handlers_. destruct (rq_type r); intros H; try (exfalso; discriminate); clear H.
  all: unfold Tmk_cond_broadcast_sigio_handler, Tmk_cond_signal_sigio_handler,
    Tmk_cond_wait_sigio_handler, waitq_enqueue, Tmk_connect_sigio_handler, Tmk_distribute_sigio_handler,
    Tmk_exit_sigio_handler, Tmk_page_sigio_handler, Tmk_repo_sigio_handler;
    cbv zeta; keeps.
Qed.

Lemma inert_duplicate_handler r : calm_request r -> keeps inert (sigio_duplicate_handlers_ (rq_type r) r).
Proof.
  unfold calm_request, sigio_duplicate_handlers_, Tmk_ack. destruct (rq_type r); intros H; try (exfalso; discriminate); clear H.
  all: unfold Tmk_cond_wait_sigio_duplicate_handler, Tmk_exit_sigio_handler, Tmk_page_sigio_handler,
    Tmk_repo_sigio_duplicate_handler; cbv zeta; keeps.
Qed.

(** ** Waiting *)
Lemma calmly_enqueue j r : calm_request r -> keeps calmly (enqueue j r).
Proof.
  intros Hr. apply keeps_modify. intros s [Q1 Q2]. split; [|by apply valid_kept_pages]. split; [exact Q1|]. intros k. cbn.
  destruct (decide (j = k)) as [->|Hn]; [|rewrite lookup_insert_ne by done; apply Q2].
  rewrite lookup_insert_eq. cbn. rewrite Forall_app, Forall_singleton. split; [apply Q2|done].
Qed.

Lemma calmly_handle_request r : calm_request r -> keeps calmly (handle_request r).
Proof.
  intros Hr. apply inert_calmly. unfold handle_request, buffer_hold.
  keeps_bind; [keeps|]. keeps_bind; [|keeps]. destruct (_ <? _); [|by apply inert_duplicate_handler].
  keeps_bind; [keeps|]. keeps_bind; [keeps|by apply inert_handler].
Qed.

Lemma calmly_handle_from j : keeps calmly (handle_from j).
Proof.
  intros s a s' R Q. unfold handle_from in R. apply bind_inv in R as (o & s1 & R1 & R). unfold dequeue in R1.
  destruct Q as [Q1 Q2]. pose proof (Q2 j) as Hj. destruct (default [] (n_inbox s !! j)) as [|r rs] eqn:E.
  - injection R1 as <- <-. injection R as _ <-. split; [done|by apply valid_kept_pages].
  - injection R1 as <- <-. apply Forall_cons in Hj as [Hr Hrs]. apply calmly_handle_request in R; [|done].
    destruct R as [Q' V]; [|by split]. split; [exact Q1|]. intros k. cbn.
    destruct (decide (j = k)) as [->|Hn]; [by rewrite lookup_insert_eq|rewrite lookup_insert_ne by done; apply Q2].
Qed.

Lemma calmly_sigio : keeps calmly sigio.
Proof.
  unfold sigio. keeps_bind; [apply keeps_gets; preorder|]. generalize (S a). intros n.
  induction n as [|n IH]; cbn [sigio_loop]; [done|]. keeps_bind; [apply keeps_gets; preorder|].
  destruct a0; [by apply keeps_skip; preorder|]. keeps_bind; [|done].
  apply keeps_for_each; [preorder|]. intros; apply calmly_handle_from.
Qed.

Lemma calmly_deliver rs : Forall (fun jr => calm_request jr.2) rs -> keeps calmly (deliver rs).
Proof.
  intros H. unfold deliver. induction H as [|[j r] rs Hr H IH]; cbn [for_each]; [apply keeps_skip; preorder|].
  keeps_bind; [|done]. keeps_bind; [by apply calmly_enqueue|apply calmly_sigio].
Qed.

Lemma calmly_set_events evs : Forall calm_event evs -> keeps calmly (set_events evs).
Proof. intros H. apply keeps_modify. intros s [_ Q2]. split; [done|by apply valid_kept_pages]. Qed.

Lemma calmly_await evs seqno resend recvd : keeps calmly resend -> (forall r, keeps calmly (recvd r)) ->
  Forall calm_event evs -> forall eager fresh, keeps calmly (await evs eager fresh seqno resend recvd).
Proof.
  intros Hs Hr H. induction H as [|ev evs He H IH]; intros eager fresh; cbn [await]; [done|].
  keeps_bind; [by apply calmly_set_events|]. destruct ev as [r late|j r| | |].
  - keeps_bind; [apply Hr|]. destruct (_ =? _); [keeps_bind; [by apply calmly_deliver|by apply keeps_ret; preorder]|].
    destruct (_ && _); [keeps_bind; [done|apply IH]|apply IH].
  - keeps_bind; [apply calmly_deliver; by constructor|apply IH].
  - keeps_bind; [done|apply IH].
  - apply IH.
  - done.
Qed.

(** ** Fetching the diffs of a page *)
Lemma calmly_events {A} (f : list event -> Proc A) : (forall evs, Forall calm_event evs -> keeps calmly (f evs)) ->
  keeps calmly (gets n_events ≫= f).
Proof. intros H s a s' R Q. apply bind_inv in R as (evs & s1 & [= <- <-] & R). exact (H _ (proj1 Q) _ _ _ R Q). Qed.

Lemma calmly_receive p to seqno rest : keeps calmly (receive_diffs p to seqno rest).
Proof.
  unfold receive_diffs. keeps_bind; [apply inert_calmly, inert_me|]. apply calmly_events. intros evs He. cbv zeta.
  keeps_bind; [|apply inert_calmly; keeps].
  apply calmly_await; [apply inert_calmly; keeps|intros r; apply keeps_skip; preorder|done].
Qed.

Lemma calmly_apply_diffs p to rest : forall seqno cur, keeps calmly (apply_diffs p to seqno rest cur).
Proof.
  induction rest as [|w rest IH]; intros seqno cur; cbn [apply_diffs]; [apply keeps_skip; preorder|].
  keeps_bind; [destruct cur; [apply keeps_ret; preorder|apply calmly_receive]|]. destruct a as [a diff].
  keeps_bind; [apply inert_calmly, inert_load|]. keeps_bind; [apply keeps_lift; preorder|].
  destruct a1 as [mem' diff']. keeps_bind; [apply inert_calmly, inert_store|]. cbv zeta.
  keeps_bind; [apply inert_calmly; keeps|].
  destruct rest as [|w' rest]; [apply keeps_skip; preorder|]. destruct diff' as [|x diff']; [|apply IH].
  keeps_bind; [apply inert_calmly; keeps|apply IH].
Qed.

Lemma calmly_diff_request p : keeps calmly (Tmk_diff_request p).
Proof.
  unfold Tmk_diff_request. keeps_bind; [apply inert_calmly; keeps|]. keeps_bind; [apply inert_calmly; keeps|].
  destruct (_ || _); [done|]. destruct a0 as [|w ws]; [apply keeps_skip; preorder|].
  keeps_bind; [apply inert_calmly; unfold next_seqno; keeps|].
  keeps_bind; [apply inert_calmly, keeps_for_each; [preorder|]; intros [q data]; keeps|].
  apply keeps_for_each; [preorder|]. intros [q data]. apply calmly_apply_diffs.
Qed.

(** ** Together *)

(** A process that can read the page without a message. *)
Definition copy (s : node) (p : page_t) : Prop :=
  p_state (n_pages s !!! p) = valid \/ p_state (n_pages s !!! p) = private.

(** The processes when repossession begins, and a page that some of them have
    written: [last j] is the vector time of the newest interval in which
    process [j] wrote it.  All have the same notices; an interval knows all
    that the intervals it has seen know, and no two have seen each other.  A
    writer has had a copy since; a page that others have heard of is not
    private; and where the page still has its twin, nobody has asked for the
    last modifications, so that no other copy is valid, and they were made
    with the knowledge of all others. *)
Record repo_ready (n : Z) (last : Z -> option vtime) (nodes : Z -> node) (p : page_t) : Prop := {
  rr_conf : forall i, 0 <= i < n -> proc_id (n_conf (nodes i)) = i /\ nprocs (n_conf (nodes i)) = n;
  rr_notices : forall i j, 0 <= i < n -> 0 <= j < n ->
    stamp <$> head (wn_list (n_pages (nodes i) !!! p) j) = (fun v => (j, v)) <$> last j;
  rr_written : exists j, 0 <= j < n /\ last j <> None;
  rr_knows : forall i j v w, 0 <= i < n -> 0 <= j < n -> last i = Some v -> last j = Some w ->
    vt_get v i <= vt_get w i -> vt_le n v w /\ (vt_get w j <= vt_get v j -> j = i);
  rr_writer : forall i, 0 <= i < n -> last i <> None -> p_state (n_pages (nodes i) !!! p) <> empty;
  rr_private : forall i, 0 <= i < n -> p_state (n_pages (nodes i) !!! p) <> private;
  rr_twin : forall i, 0 <= i < n -> p_state (n_pages (nodes i) !!! p) = valid ->
    p_twin (n_pages (nodes i) !!! p) <> None -> exists v, last i = Some v /\
    forall j, 0 <= j < n -> j <> i -> p_state (n_pages (nodes j) !!! p) <> valid /\
      forall w, last j = Some w -> vt_get w j <= vt_get v j
}.

(** What [repo_update_manager] finds at a process. *)
Definition chosen (s : node) (p : page_t) : option Z :=
  choose_manager (nprocs (n_conf s)) (wn_heads (n_conf s) (n_pages s !!! p)).

Lemma same_manager n last nodes p : repo_ready n last nodes p -> exists m v,
  0 <= m < n /\ last m = Some v /\ (forall i, 0 <= i < n -> chosen (nodes i) p = Some m) /\
  forall j w, 0 <= j < n -> last j = Some w -> vt_get v m <= vt_get w m -> j = m.
Proof.
  intros [C N (k & Hk & Lk) K _ _ _]. assert (H0 : 0 <= 0 < n) by lia.
  set (hd i := wn_heads (n_conf (nodes i)) (n_pages (nodes i) !!! p)).
  assert (Hin : forall i j u, 0 <= i < n -> 0 <= j < n -> head (wn_list (n_pages (nodes i) !!! p) j) = Some u -> Some u ∈ hd i).
  { intros i j u Hi Hj Hu. unfold hd, wn_heads, procs_of. rewrite (proj2 (C i Hi)), <- Hu.
    apply (list_elem_of_fmap_2 (fun j => head (wn_list (n_pages (nodes i) !!! p) j))). apply elem_of_seqZ. lia. }
  assert (Hhd : forall j v, 0 <= j < n -> last j = Some v ->
    exists u, head (wn_list (n_pages (nodes 0) !!! p) j) = Some u /\ wn_id u = j /\ wn_vt u = v).
  { intros j v Hj Lj. specialize (N 0 j H0 Hj). rewrite Lj in N. destruct (head _) as [u|]; [|done].
    injection N as Ei Ev. by exists u. }
  destruct (last k) as [vk|] eqn:Ek; [|done]. destruct (Hhd k vk Hk Ek) as (u & Hu & _).
  destruct (choose_maximal n (hd 0) u (Hin 0 k u H0 Hk Hu)) as (x & Hx & Hxin & Hm).
  unfold hd at 1, wn_heads in Hxin. apply list_elem_of_In, in_map_iff in Hxin as (m & Hxm & Hmin).
  apply list_elem_of_In in Hmin. unfold procs_of in Hmin. rewrite (proj2 (C 0 H0)) in Hmin. apply elem_of_seqZ in Hmin.
  assert (Hmn : 0 <= m < n) by lia. pose proof (N 0 m H0 Hmn) as Nm. rewrite Hxm in Nm.
  destruct (last m) as [v|] eqn:Em; [|done]. injection Nm as Ei Ev. exists m, v. split_and!; [lia..|done| |].
  - intros i Hi. unfold chosen. rewrite (proj2 (C i Hi)). fold (hd i).
    rewrite (choose_stamps n (hd i) (hd 0)); [by rewrite Hx, Ei|].
    unfold hd, wn_heads, procs_of. rewrite (proj2 (C i Hi)), (proj2 (C 0 H0)), !map_map. apply map_ext_in.
    intros j Hj. apply list_elem_of_In, elem_of_seqZ in Hj. rewrite (N i j), (N 0 j) by lia. done.
  - intros j w Hj Lj Hs. destruct (K m j v w Hmn Hj Em Lj Hs) as [Hle Hanti]. apply Hanti.
    destruct (Hhd j w Hj Lj) as (y & Hy & Iy & Vy).
    assert (Hyin : y ∈ omap id (hd 0)) by (apply list_elem_of_omap; exists (Some y); split; [by eapply Hin|done]).
    specialize (Hm y Hyin). rewrite Ev, Vy in Hm. exact (Hm Hle j Hj).
Qed.

(** ** What one process does *)
Lemma pg_pos {A B} (f : page -> A) p (k : A -> Proc B) s b s' : (pg f p ≫= k) s = Ok (b, s') ->
  valid_ptr p = true /\ k (f (n_pages s !!! p)) s = Ok (b, s').
Proof.
  intros R. apply bind_inv in R as (a & s1 & R1 & R). assert (Hv : valid_ptr p = true).
  { unfold pg, on_pages, rd in R1. by destruct (valid_ptr p). }
  split; [done|]. rewrite pg_ok in R1 by done. by injection R1 as <- <-.
Qed.

(** An empty page has the chosen manager. *)
Definition given_up (s : node) (p : page_t) (m : Z) : Prop :=
  p_state (n_pages s !!! p) = empty /\ p_manager (n_pages s !!! p) = m.

Lemma update_manager_run s p m : valid_ptr p = true -> chosen s p = Some m ->
  repo_update_manager p s = Ok (true, set_n_pages (upd p (set_manager m) (n_pages s)) s).
Proof.
  intros Hv Hm. unfold repo_update_manager. rewrite (bind_Ok config _ s (n_conf s) s eq_refl).
  rewrite (bind_Ok _ _ _ _ _ (pg_ok (wn_heads (n_conf s)) p s Hv)). unfold chosen in Hm. rewrite Hm.
  by rewrite (bind_Ok _ _ _ _ _ (set_pg_ok p _ s Hv)).
Qed.

Lemma discard_run s p m s' : valid_ptr p = true -> chosen s p = Some m -> discard_page p s = Ok (tt, s') ->
  given_up s' p m.
Proof.
  intros Hv Hm R. unfold discard_page in R. rewrite (bind_Ok _ _ _ _ _ (set_pg_ok p _ s Hv)) in R.
  set (s1 := set_n_pages _ s) in R. assert (Hm1 : chosen s1 p = Some m).
  { unfold chosen in *. subst s1. cbn. by rewrite upd_lookup, decide_True by done. }
  rewrite (bind_Ok _ _ _ _ _ (update_manager_run s1 p m Hv Hm1)) in R. injection R as <-.
  unfold given_up. subst s1. cbn. by rewrite !upd_lookup, !decide_True by done.
Qed.

Lemma fetch_run s p s' : quiet s -> valid_ptr p = true ->
  (mprotect p PROT_READ_WRITE;; set_pg p (set_state valid);; Tmk_diff_request p;; mprotect p PROT_READ) s = Ok (tt, s') ->
  p_state (n_pages s' !!! p) = valid.
Proof.
  intros Q Hv R. apply bind_inv in R as ([] & s1 & R1 & R).
  destruct (inert_calmly _ (inert_mprotect p PROT_READ_WRITE) _ _ _ R1 Q) as [Q1 _].
  rewrite (bind_Ok _ _ _ _ _ (set_pg_ok p _ s1 Hv)) in R. revert R. set (s2 := set_n_pages _ s1). intros R.
  assert (V2 : p_state (n_pages s2 !!! p) = valid) by (subst s2; cbn; by rewrite upd_lookup, decide_True).
  assert (Q2 : quiet s2) by (destruct Q1; by split).
  apply bind_inv in R as ([] & s3 & R3 & R4). destruct (calmly_diff_request p _ _ _ R3 Q2) as [Q3 V3].
  destruct (inert_calmly _ (inert_mprotect p PROT_READ) _ _ _ R4 Q3) as [_ V4]. by apply V4, V3.
Qed.

(** The four cases of the loop's body. *)
Inductive repo_case (s : node) (p : page_t) (m : Z) (s' : node) : Prop :=
  | Kept : p_state (n_pages s !!! p) = valid -> p_twin (n_pages s !!! p) = None ->
      p_state (n_pages s' !!! p) = valid -> repo_case s p m s'
  | Owned : p_state (n_pages s !!! p) = valid -> p_twin (n_pages s !!! p) <> None ->
      p_state (n_pages s' !!! p) = private -> repo_case s p m s'
  | Fetched w : p_state (n_pages s !!! p) = invalid ->
      head (wn_list (n_pages s !!! p) (proc_id (n_conf s))) = Some w ->
      seen_by_other (n_conf s) (vt_get (wn_vt w) (proc_id (n_conf s))) (n_pages s !!! p) = false ->
      p_state (n_pages s' !!! p) = valid -> repo_case s p m s'
  | GivenUp : p_state (n_pages s !!! p) = empty \/ p_state (n_pages s !!! p) = invalid /\
        (head (wn_list (n_pages s !!! p) (proc_id (n_conf s))) = None \/
         exists w, head (wn_list (n_pages s !!! p) (proc_id (n_conf s))) = Some w /\
           seen_by_other (n_conf s) (vt_get (wn_vt w) (proc_id (n_conf s))) (n_pages s !!! p) = true) ->
      given_up s' p m -> repo_case s p m s'.

Lemma repo_page_cases s p m s' : quiet s -> chosen s p = Some m -> p_state (n_pages s !!! p) <> private ->
  repo_page p s = Ok (tt, s') -> repo_case s p m s'.
Proof.
  intros Q Hm Hpr R. unfold repo_page in R. rewrite (bind_Ok config _ s (n_conf s) s eq_refl) in R.
  apply pg_pos in R as [Hv R]. destruct (p_state (n_pages s !!! p)) eqn:Est; [| |done|].
  - apply pg_pos in R as [_ R]. destruct (p_twin (n_pages s !!! p)) as [t|] eqn:Et.
    + apply bind_inv in R as ([] & s1 & R1 & R). rewrite set_pg_ok in R by done. injection R as <-.
      apply Owned; [done|by rewrite Et|]. cbn. by rewrite upd_lookup, decide_True.
    + injection R as <-. by apply Kept.
  - apply pg_pos in R as [_ R]. destruct (head _) as [w|] eqn:Ew.
    + apply pg_pos in R as [_ R]. destruct (seen_by_other _ _ _) eqn:Es.
      * apply GivenUp; [right; split; [done|right; by exists w]|by apply (discard_run s)].
      * apply (Fetched _ _ _ _ w); try done. by apply (fetch_run s).
    + apply GivenUp; [right; split; [done|by left]|by apply (discard_run s)].
  - rewrite (bind_Ok _ _ _ _ _ (update_manager_run s p m Hv Hm)) in R. injection R as <-.
    apply GivenUp; [by left|]. unfold given_up. cbn. rewrite upd_lookup, decide_True by done. done.
Qed.

(** C6: Repossession never loses a page, and never leaves two owners.  When
    every process has done [Tmk_repo]'s step for a page that has been written,
    on its own and with any requests of the others arriving meanwhile, there is
    one process [m] with a copy of the page; every other process has a copy
    too or names [m] as the manager it will ask; and if a process takes the page
    as private, to write it without a trace, it is [m], and nobody else has a
    copy. *)
Theorem repo_leaves_owner n last nodes after p : repo_ready n last nodes p ->
  (forall i, 0 <= i < n -> quiet (nodes i) /\ repo_page p (nodes i) = Ok (tt, after i)) ->
  exists m, 0 <= m < n /\ copy (after m) p /\
    (forall i, 0 <= i < n -> copy (after i) p \/ given_up (after i) p m) /\
    (forall i, 0 <= i < n -> p_state (n_pages (after i) !!! p) = private ->
       i = m /\ forall j, 0 <= j < n -> j <> m -> given_up (after j) p m).
Proof.
  intros Hr Hrun. destruct (same_manager n last nodes p Hr) as (m & v & Hmn & Lm & Hch & Hmax).
  destruct Hr as [C N _ K W Pr T]. exists m.
  assert (Hc : forall i, 0 <= i < n -> repo_case (nodes i) p m (after i)).
  { intros i Hi. destruct (Hrun i Hi) as [Q R]. apply repo_page_cases; auto. }
  split_and!; [lia..| | |].
  - destruct (Hc m Hmn) as [_ _ V|_ _ V|w _ _ _ V|Hst _]; [by left|by right|by left|exfalso].
    assert (Hne : last m <> None) by (by rewrite Lm). destruct Hst as [Hst|[_ Hst]]; [by apply (W m Hmn)|].
    rewrite (proj1 (C m Hmn)) in Hst. pose proof (N m m Hmn Hmn) as Nm. rewrite Lm in Nm.
    destruct Hst as [Hst|(w & Hw & Hs)]; [by rewrite Hst in Nm|].
    rewrite Hw in Nm. injection Nm as _ Ev. rewrite Ev in Hs. unfold seen_by_other in Hs.
    apply existsb_exists in Hs as (j & Hj & Hs). apply list_elem_of_In, list_elem_of_filter in Hj as [Hjm Hj].
    unfold procs_of in Hj. rewrite (proj1 (C m Hmn)) in Hs, Hjm. rewrite (proj2 (C m Hmn)) in Hj. apply elem_of_seqZ in Hj.
    assert (Hjn : 0 <= j < n) by lia. pose proof (N m j Hmn Hjn) as Nj.
    destruct (head (wn_list (n_pages (nodes m) !!! p) j)) as [x|]; [|done].
    destruct (last j) as [w'|] eqn:Lj; [|done]. injection Nj as _ Ex. rewrite Ex in Hs.
    apply Hjm, (Hmax j w' Hjn Lj). lia.
  - intros i Hi. destruct (Hc i Hi) as [_ _ V|_ _ V|w _ _ _ V|_ G]; [by left; left|by left; right|by left; left|by right].
  - intros i Hi Hp. destruct (Hc i Hi) as [_ _ V|V0 Ht _|w _ _ _ V|_ [G _]]; try congruence.
    destruct (T i Hi V0 Ht) as (vi & Li & Hoth).
    assert (Him : i = m).
    { destruct (Z.eq_dec m i) as [->|Hn]; [done|]. destruct (Hoth m Hmn Hn) as [_ Hs].
      apply (Hmax i vi Hi Li). exact (Hs v Lm). }
    subst i. split; [done|]. intros j Hj Hjm. destruct (Hoth j Hj Hjm) as [Hnv Hs].
    destruct (Hc j Hj) as [V _ _|V _ _|w _ Hw Hu _|_ G]; [done|done|exfalso|done].
    rewrite (proj1 (C j Hj)) in Hw, Hu. pose proof (N j j Hj Hj) as Nj. rewrite Hw in Nj.
    destruct (last j) as [wj|] eqn:Lj; [|done]. injection Nj as _ Ej. rewrite Ej in Hu.
    assert (Hx : seen_by_other (n_conf (nodes j)) (vt_get wj j) (n_pages (nodes j) !!! p) = true); [|congruence].
    unfold seen_by_other. apply existsb_exists. exists m. split.
    + apply list_elem_of_In, list_elem_of_filter. rewrite (proj1 (C j Hj)). split; [done|].
      unfold procs_of. rewrite (proj2 (C j Hj)). apply elem_of_seqZ. lia.
    + pose proof (N j m Hj Hmn) as Nm. rewrite Lm in Nm.
      destruct (head (wn_list (n_pages (nodes j) !!! p) m)) as [x|]; [|done].
      injection Nm as _ Ex. rewrite Ex, (proj1 (C j Hj)). rewrite Lm in Li. injection Li as <-.
      apply Z.leb_le. by apply Hs.
Qed.

(** Processes 0 and 1 have written page 2 at the same time, process 2 has an
    old copy: 0 and 1 fetch each other's diff, 2 gives the page up. *)
Definition diff_ex : list Z := [4; 0; 10; 0; 0; 0].
Definition last_ex (j : Z) : option vtime :=
  if j =? 0 then Some (vt_set 0 1 vt_zero) else if j =? 1 then Some (vt_set 1 1 vt_zero) else None.
Definition written_ex (own j : Z) : write_notice :=
  WriteNotice (if j =? own then Some ((0, 0), diff_ex) else None) 0 j (default [] (last_ex j)).
Definition nodes_ex (i : Z) : node :=
  set_n_events [EvReq (2 - i) (Request 32 (2 - i) REQ_REPO 0 [] []); EvRep (Reply 32 diff_ex) []]
    (set_n_pages {[ 2 := set_state invalid (set_mem [1; 2; 3; 4]
        (set_wn {[ 0 := [written_ex i 0]; 1 := [written_ex i 1] ]} zero_page)) ]}
      (zero_node (Conf i 3 16 8 0))).
Definition after_ex (i : Z) : node :=
  match repo_page 2 (nodes_ex i) with Ok (_, s) => s | _ => nodes_ex i end.

Lemma range_3 i : 0 <= i < 3 -> i = 0 \/ i = 1 \/ i = 2.
Proof. lia. Qed.

Lemma nodes_ex_ready : repo_ready 3 last_ex nodes_ex 2.
Proof.
  split.
  - intros i Hi. split; reflexivity.
  - intros i j Hi Hj. destruct (range_3 i Hi) as [->|[->| ->]], (range_3 j Hj) as [->|[->| ->]]; vm_compute; reflexivity.
  - exists 0. split; [lia|discriminate].
  - intros i j v w Hi Hj Hv Hw Hs. assert (E : i = j).
    { destruct (range_3 i Hi) as [->|[->| ->]], (range_3 j Hj) as [->|[->| ->]]; try discriminate; try reflexivity;
        exfalso; injection Hv as <-; injection Hw as <-; vm_compute in Hs; by apply Hs. }
    subst. rewrite Hv in Hw. injection Hw as ->. done.
  - intros i Hi _. destruct (range_3 i Hi) as [->|[->| ->]]; vm_compute; discriminate.
  - intros i Hi. destruct (range_3 i Hi) as [->|[->| ->]]; vm_compute; discriminate.
  - intros i Hi Hv. exfalso. destruct (range_3 i Hi) as [->|[->| ->]]; vm_compute in Hv; discriminate.
Qed.

Lemma repo_leaves_owner_witness :
  map (fun i => p_state (n_pages (after_ex i) !!! 2)) [0; 1; 2] = [valid; valid; empty] /\
  exists m, 0 <= m < 3 /\ copy (after_ex m) 2 /\
    (forall i, 0 <= i < 3 -> copy (after_ex i) 2 \/ given_up (after_ex i) 2 m) /\
    (forall i, 0 <= i < 3 -> p_state (n_pages (after_ex i) !!! 2) = private ->
       i = m /\ forall j, 0 <= j < 3 -> j <> m -> given_up (after_ex j) 2 m).
Proof.
  split; [vm_compute; reflexivity|].
  apply (repo_leaves_owner 3 last_ex nodes_ex after_ex 2 nodes_ex_ready).
  intros i Hi. split.
  - split; [by repeat constructor|]. intros j. constructor.
  - unfold after_ex. assert (R : returns (repo_page 2 (nodes_ex i)) = true)
      by (destruct (range_3 i Hi) as [->|[->| ->]]; vm_compute; reflexivity).
    destruct (returns_ok _ R) as [[[] s'] E]. by rewrite E.
Defined.
